(* ===== verification/_CoqProject ===== *)
-Q . S2P
Prelude.v
Utf8.v
Crc.v
Bloom.v
Record.v
Collections.v
Memtable.v
Wal.v
Hint.v
Lz77.v
Block.v
Text.v
Words.v
Segment.v
Utils.v
Settings.v
HashIndex.v
World.v
Background.v
Engine.v
KvEngine.v
KvLog.v
KvInv.v
Spans.v
KvOps.v
KvCompact.v
KvSpans.v
KvSpec.v
KvLinear.v
KvRestart.v
KvTheorems.v
KvConcurrent.v
KvDelete.v
KvFsync.v
KvPowerLoss.v
Sstable.v
SstableSpec.v
Float.v
Strategy.v
SizeTiered.v
Leveled.v
LsmEngine.v
LsmSpans.v
TableInv.v
MergeInv.v
LeveledInv.v
CompactTheorems.v
LsmInv.v
PlainLevels.v
LsmSpec.v
LsmInserts.v
LsmPowerLoss.v
LsmTheorems.v
LsmRestart.v
Bffp.v
Cli.v
Connection.v
Stats.v
Dispatch.v
SpanDispatch.v
Charge.v
Store.v
Worker.v
Session.v
Startup.v
LsmSessions.v
ServerTheorems.v
Client.v
Pool.v
PoolTheorems.v
PoolMap.v
Bench.v
Kvbench.v
KvbenchTheorems.v
KvbenchThreads.v
Engbench.v
