(* ===== verification/Prelude.v ===== *)
(** * rustikv: a verification library for the key-value store

    rustikv (src/src/) is a key-value server with two storage engines. This
    library translates it into executable definitions, file by file, and proves
    what its parts promise to one another and to a client.

    ** The program and its model

    A client (bin/rustikli.rs) turns a line into a command (cli.rs), frames it
    (bffp.rs) and sends it. A worker of the server (server/workerhandler.rs,
    server/connection.rs) collects the bytes, decodes commands and hands them to
    the dispatcher (server/dispatch.rs), which calls the engine behind the
    [StorageEngine] trait (engine.rs) and frames the answer. The hash engine
    (kvengine.rs) keeps an index in memory (hash_index.rs) over segment files of
    records (segment.rs, record.rs, hint.rs), with a write-ahead log (wal.rs)
    and a compaction. The LSM engine (lsmengine.rs) keeps memtables
    (memtable.rs), the same log, and sorted tables on disk (sstable.rs,
    block.rs, lz77.rs, bloom.rs), which a storage strategy (storage_strategy.rs,
    size_tiered.rs, leveled.rs) arranges and merges. crc.rs protects records,
    worker.rs runs periodic jobs, settings.rs and main.rs start everything. Four
    more programs measure it: bin/kvbench.rs loads a server over connections,
    bin/engbench.rs an engine in its own process, bin/redis-compare.rs a server
    or Redis, and bin/lz77bench.rs the compressor.

    - [Prelude]: machine integers with their wrap-around, bytes, [result] with
      [Err] and [Panic] for Rust's errors and panics, the state-and-error monad
      [ST], readers of byte streams, shared lemmas and tactics. [Utf8], [Text],
      [Words], [Collections], [Float] are what the program uses of the standard
      library: string validation, numbers and splitting, words of a line,
      ordered maps and stable sorting, IEEE arithmetic.
    - [World]: the directory (a map from names to bytes), what has been synced,
      and the clock, a sequence of readings. Every operation on files is a
      function of it.
    - [Crc], [Record], [Bloom], [Memtable], [Wal], [Hint], [Lz77], [Block],
      [Segment], [Utils], [HashIndex], [Settings], [Stats]: one source file each.
    - [Engine]: the trait as a class. [KvEngine] models kvengine.rs; [KvLog],
      [KvInv], [KvOps], [KvCompact] carry its invariant through every operation;
      [KvSpec] is the abstract store and [KvTheorems], [KvRestart] the results.
      [Spans] are programs cut where locks are released, with what they do alone
      and beside others; [KvSpans] has the operations and the compaction of the
      hash engine as such programs, and [KvLinear] what they do to the map it
      holds. [KvConcurrent] follows a compaction thread beside other clients, and
      [KvDelete] a deletion, whose locks are taken one after the other;
      [Background] is worker.rs as a step machine;
      [KvFsync] is the periodic fsync job of kvengine.rs; [KvPowerLoss] is about
      losing power, as [LsmPowerLoss] is for the other engine.
    - [Sstable], [SstableSpec]: tables, their layout and reading. [Strategy] is
      the trait as a class, [SizeTiered] and [Leveled] its instances.
      [LsmEngine] models lsmengine.rs with the background flush as a thread that
      advances between operations, and [LsmSpans] has its operations as
      programs. [TableInv], [MergeInv], [LeveledInv],
      [CompactTheorems], [PlainLevels] are about merging; [LsmInv], [LsmSpec],
      [LsmTheorems], [LsmRestart] about the engine. They are proved against
      [FlushLaws], what a strategy promises about the tables a flush adds: an
      invariant, and the entries it is ready to take. The leveled strategy has
      two instances: one takes any entry and promises nothing of a compaction;
      that of [LsmInserts] takes values without expiry only and keeps every
      level readable through compactions.
    - [Bffp], [Connection], [Dispatch], [Worker], [Session], [Cli], [Client],
      [Startup], [LsmSessions]: the protocol, the server, the client and the
      program as a process. [Store] is what the server relies on, discharged by
      the hash engine and by the LSM engine with the leveled strategy;
      [ServerTheorems] is proved against it. [SpanDispatch] has the commands of
      the dispatcher and the compaction threads as programs, and [Charge] who
      starts a compaction. [Pool] has the acceptor, all the workers, the
      compaction threads and the engine's own thread interleaved, with a handler
      cut into its reads, the spans of its commands and its end; [PoolTheorems]
      and [PoolMap] are what clients and operators see of it.
    - [Bench] (keys, distributions, slices and statistics) and [Kvbench] (the
      three modes, and their threads with the barrier and the stop flag as a
      step machine) model bin/kvbench.rs; [KvbenchTheorems] and [KvbenchThreads]
      are proved against [Store] and [ServerPeer], what the load generator needs
      of the other end of its connections, which a worker discharges. [Engbench]
      has the other three programs.

    ** What the theorems show

    - Refinement of one abstract store (a finite map with expiry): the hash
      engine across segment rolls and compactions; the LSM engine with the
      leveled strategy whatever the background flush has done, without listings
      and compactions, and with them while nothing is deleted; a compaction
      thread beside readers; a directory across any number of starts of the
      program without compactions, for both engines; a connection
      whose bytes the network cuts at will; a session at the client's prompt.
    - Many connections at once, whatever the interleaving of the threads at the
      points where locks are released: each connection gets the answers to its
      own commands, in order; connections are counted exactly; at most one
      compaction runs. Over the hash engine READ, WRITE, EXISTS, TTL and LIST
      are linearizable while no compaction thread takes a step; DELETE and
      compactions are not, as theorems on concrete runs show, and MGET and MSET
      are left open.
    - Compaction changes no read: of the hash engine, of the size-tiered
      strategy, and of two levels under the condition it needs.
    - Recovery: the log is replayed into exactly the memtable that was active,
      when the tail that follows it is torn. After a loss of power under the
      strategy [FsAlways] the hash engine has every acknowledged value, except
      for keys that the surviving log takes back to an earlier one.
    - Round trips: records, blocks, LZ77, commands and responses, settings, and
      command lines, with the corruptions the checksum is bound to detect.
    - Progress and threads: a compaction that has begun ends while clients only
      read, a dropped worker falls silent and its drop returns, the fsync job
      always finds its file.
    - Measurements: the load generator makes each request once and counts what
      the store implies, in the sequential mode and under every interleaving of
      the threads of the concurrent mode, which ends; the missing keys are spread
      evenly; the statistics are those of the latencies; the benchmarks of the
      hash engine and of LZ77 complete.
    - Where the code falls short, a theorem says so on a concrete run: writes
      lost in the window of a flush or of a concurrent compaction, stale hint
      files, deletions that race with a write and undo it or are undone at the
      next start, tombstones dropped into the last level, listings and ranges
      that show old values, a log that reverts synced writes and an engine that
      syncs nothing, database names that end like a level, a limit on
      connections that is passed, a load generator that stops at the first RANGE
      or waits at a barrier for ever, and others.

    ** Bounds

    Loops without structural recursion take fuel, always enough: a reader's loop
    gets one unit per byte left and each round consumes at least one ([replay],
    [merge_from_file], [hint_read_file], [sst_items], [rebuild_index], LZ77's decoder
    and encoder, [read_while]); [advance_fuel] is two units per buffered byte, as
    a frame takes two rounds of the parser and at least four bytes; [dec] has the
    20 digits a [u64] can need. Running out of fuel is a [Panic], and the
    theorems that say a function returns ([feed_total_bounded],
    [lz77_roundtrip], [sstable_scan_correct], the refinements) are stated of the
    functions with this fuel.

    Runs are bounded by the number [N] of clock readings. [GoodClock] asks that
    the first [N] readings are [u64]s in strictly increasing milliseconds, since
    the hash engine names segments by the millisecond; [GoodTime] that no two
    tables get the same nanosecond, and [RisingTime], for restarts, that later
    tables get a larger one. Each has an instance, and a theorem shows what a
    repeated millisecond does. [GoodInstants] asks the same of [Instant::now] in
    the in-process benchmark: it does not go back and stays below 2^63
    nanoseconds. The threads of the load generator run under a list of turns:
    the counts hold for every list, the end of the run for one that gives each
    thread [count + 3] turns, as many as it can use.

    ** Not modelled

    - The event loop of the mio_runtime crate, which server/worker.rs makes and
      runs: what the loop calls is modelled, the loop is not; its events are
      arguments. So are sled and the Redis client in the benchmarks, and the
      logarithm, exponential and power of the mathematical library.
    - Parsing and printing of socket addresses and of floating-point numbers,
      error texts and the traversal order of hash maps are parameters. What a
      benchmark prints is a record of the values shown; the help text of
      kvbench.rs and verbose logging are left out.
    - Spans of locks are atomic and atomics are sequentially consistent. In
      [KvSpec], [LsmSpec], [Store] and what is proved of them operations come one
      after the other; the interleavings are those of [Pool], [KvConcurrent],
      [KvDelete] and [LsmSpec]'s flush. In [KvConcurrent] the list of the old
      segments and of the keys, and the copy of one key, are a step each;
      [KvSpans] cuts them further. In [LsmSpans] an operation that waits for a
      flush runs it to its end in the span in which it waits, and the merge of a
      compaction is one span. A worker whose command panics takes no further
      step; poisoned locks are not modelled.
    - A crash is a stop between steps. After a loss of power a file that is still
      there keeps what was synced of it ([survives]); the log may be any intact
      records before a torn tail; that the entries of synced files are still in
      the directory is a hypothesis ([entries_survive]), as the engine does not
      sync the directory. It comes after one session without a compaction.

    ** Still open

    The strategies at the level of the process once compactions have run, and
    the size-tiered strategy below a refinement (its reads can be stale, so it
    refines no map); ranges of the LSM engine over disjoint tables, and with them
    the RANGE phase of the load generator; the LSM engine, MGET and MSET span by
    span beside other clients. *)

From stdpp Require Export base decidable list strings.
From stdpp Require Export gmap.
From Stdlib Require Export ZArith Lia.
From Stdlib Require Strings.Byte.
From Stdlib Require Export Btauto.

#[global] Open Scope Z_scope.

(** ** Machine integers and bytes *)

(** The unsigned integer types of Rust are modelled by [Z]; a cast [x as u8],
    [x as u16], ... keeps the low bits of [x]. [usize] is 64 bits wide. *)

Abbreviation byte := (Corelib.Init.Byte.byte).

Definition wrap (w : Z) (z : Z) : Z := z mod 2 ^ w.
Definition is_uint (w : Z) (z : Z) : Prop := 0 <= z < 2 ^ w.

Abbreviation wrap16 := (wrap 16).
Abbreviation wrap32 := (wrap 32).
Abbreviation wrap64 := (wrap 64).
Abbreviation is_u8 := (is_uint 8).
Abbreviation is_u16 := (is_uint 16).
Abbreviation is_u32 := (is_uint 32).
Abbreviation is_u64 := (is_uint 64).

(** The value of a byte, and the truncating cast [z as u8]. *)
Definition u8 (b : byte) : Z := Z.of_N (Byte.to_N b).
Definition as_u8 (z : Z) : byte :=
  default Byte.x00 (Byte.of_N (Z.to_N (z mod 256))).

#[export] Instance byte_eq_dec : EqDecision byte := Byte.byte_eq_dec.
#[export] Instance byte_countable : Countable byte :=
  inj_countable Byte.to_N Byte.of_N Byte.of_to_N.

(** A [Vec<u8>], a [&[u8]] or the bytes of a [String]; [len] is Rust's
    [.len()]. *)
Abbreviation bytes := (list byte).
Abbreviation str := (list byte).
Definition len {A} (l : list A) : Z := Z.of_nat (length l).

(** String literals. *)
Fixpoint bs (s : string) : str :=
  match s with
  | EmptyString => []
  | String c s' => Ascii.byte_of_ascii c :: bs s'
  end.

(** [uN::to_be_bytes] and [uN::from_be_bytes] for an integer of [n] bytes. *)
Fixpoint to_be (n : nat) (z : Z) : bytes :=
  match n with
  | O => []
  | S m => as_u8 (Z.shiftr z (8 * Z.of_nat m)) :: to_be m z
  end.

Definition from_be (l : bytes) : Z :=
  fold_left (fun acc b => Z.lor (Z.shiftl acc 8) (u8 b)) l 0.

(** ** Results

    [io::Result] with the error kinds the code distinguishes, and the third
    outcome of a Rust call, a panic. *)

Inductive ErrorKind :=
  | NotFound | AlreadyExists | InvalidInput | InvalidData | UnexpectedEof | Other.

#[export] Instance ErrorKind_eq_dec : EqDecision ErrorKind.
Proof. solve_decision. Defined.

Inductive result (A : Type) :=
  | Ok (a : A)
  | Err (e : ErrorKind)
  | Panic.
Arguments Ok {A} a.
Arguments Err {A} e.
Arguments Panic {A}.

#[export] Instance result_eq_dec {A} `{EqDecision A} : EqDecision (result A).
Proof. solve_decision. Defined.

Definition rbind {A B} (r : result A) (f : A -> result B) : result B :=
  match r with
  | Ok a => f a
  | Err e => Err e
  | Panic => Panic
  end.

Definition rmap {A B} (f : A -> B) (r : result A) : result B :=
  rbind r (fun a => Ok (f a)).

Declare Scope io_scope.
Delimit Scope io_scope with io.
Notation "'let?' x ':=' c 'in' k" := (rbind c (fun x => k))
  (at level 10, x pattern, c at level 100, k at level 200,
   format "'let?'  x  ':='  c  'in' '//' k") : io_scope.
#[global] Open Scope io_scope.

(** Running a fallible function over a list, stopping at the first failure. *)
Fixpoint rfold {A S} (f : S -> A -> result S) (s : S) (l : list A) : result S :=
  match l with
  | [] => Ok s
  | a :: l' => let? s' := f s a in rfold f s' l'
  end.

(** ** Readers

    A [Read] over an in-memory slice, a [Cursor] or a file at its current
    position: a function from the bytes that remain to a value and the bytes
    that remain after it. *)
Definition Reader (A : Type) : Type := bytes -> result (A * bytes).

(** [Read::read_exact] into a buffer of [n] bytes. *)
Definition read_exact (n : Z) : Reader bytes := fun l =>
  if n <=? len l then Ok (take (Z.to_nat n) l, drop (Z.to_nat n) l)
  else Err UnexpectedEof.

Definition rd_ret {A} (a : A) : Reader A := fun l => Ok (a, l).
Definition rd_lift {A} (r : result A) : Reader A := fun l => let? a := r in Ok (a, l).
Definition rd_bind {A B} (R : Reader A) (f : A -> Reader B) : Reader B := fun l =>
  let? p := R l in f p.1 p.2.

Notation "'let!' x ':=' c 'in' k" := (rd_bind c (fun x => k))
  (at level 10, x pattern, c at level 100, k at level 200,
   format "'let!'  x  ':='  c  'in' '//' k") : io_scope.

(** Reading an integer of [n] bytes: [read_exact] and [from_be_bytes]. *)
Definition read_uint (n : nat) : Reader Z :=
  let! b := read_exact (Z.of_nat n) in rd_ret (from_be b).

(** ** Stateful operations

    A method that mutates its receiver and the disk and may fail: the state it
    leaves is part of the outcome also when it fails. *)
Definition ST (S A : Type) : Type := S -> S * result A.

Definition st_ret {S A} (a : A) : ST S A := fun s => (s, Ok a).
Definition st_lift {S A} (r : result A) : ST S A := fun s => (s, r).
Definition st_gets {S A} (f : S -> A) : ST S A := fun s => (s, Ok (f s)).
Definition st_modify {S} (f : S -> S) : ST S unit := fun s => (f s, Ok tt).
Definition st_bind {S A B} (m : ST S A) (f : A -> ST S B) : ST S B := fun s =>
  let '(s', r) := m s in
  match r with
  | Ok a => f a s'
  | Err e => (s', Err e)
  | Panic => (s', Panic)
  end.

Notation "'let*' x ':=' c 'in' k" := (st_bind c (fun x => k))
  (at level 10, x pattern, c at level 100, k at level 200,
   format "'let*'  x  ':='  c  'in' '//' k") : io_scope.

Fixpoint st_iter {S A} (f : A -> ST S unit) (l : list A) : ST S unit :=
  match l with
  | [] => st_ret tt
  | a :: l' => let* _ := f a in st_iter f l'
  end.

(** The files of the database directory, by name. *)
Abbreviation files := (gmap str bytes).

(** ** Strings

    [str]'s [Ord]: the lexicographic order of the bytes. *)
Fixpoint str_compare (a b : str) : comparison :=
  match a, b with
  | [], [] => Eq
  | [], _ :: _ => Lt
  | _ :: _, [] => Gt
  | x :: a', y :: b' =>
      match u8 x ?= u8 y with
      | Eq => str_compare a' b'
      | c => c
      end
  end.

Definition str_lt (a b : str) : Prop := str_compare a b = Lt.
Definition str_ltb (a b : str) : bool :=
  match str_compare a b with Lt => true | _ => false end.
Definition str_leb (a b : str) : bool :=
  match str_compare a b with Gt => false | _ => true end.

(** ** Tactics and hint databases *)

Create HintDb rkv discriminated.

(** Split conjunctions of hypotheses and goals, substitute, and close the
    linear arithmetic that remains. *)
Ltac split_all :=
  repeat match goal with
         | H : _ /\ _ |- _ => destruct H
         | |- _ /\ _ => split
         end.
Ltac crush := repeat (split_all; simplify_eq/=; auto with rkv); try lia.

(** Case analysis on the scrutinee of the first [match] or [if] of the goal,
    keeping the equation. *)
Ltac case_scrut :=
  match goal with
  | |- context [match ?x with _ => _ end] => destruct x eqn:?
  end.

(** ** Lemmas: bytes and big-endian integers *)

Lemma u8_range b : 0 <= u8 b < 256.
Proof. unfold u8. pose proof (Byte.to_N_bounded b). lia. Qed.

Lemma as_u8_u8 b : as_u8 (u8 b) = b.
Proof.
  unfold as_u8. rewrite Z.mod_small by apply u8_range.
  unfold u8. by rewrite N2Z.id, Byte.of_to_N.
Qed.

Lemma u8_as_u8 z : u8 (as_u8 z) = z mod 256.
Proof.
  unfold as_u8, u8.
  assert (Hz : 0 <= z mod 256 < 256) by (apply Z.mod_pos_bound; lia).
  destruct (Byte.of_N (Z.to_N (z mod 256))) as [b|] eqn:E; simpl.
  - apply Byte.to_of_N in E. lia.
  - apply Byte.of_N_None_iff in E. lia.
Qed.

Lemma u8_inj a b : u8 a = u8 b -> a = b.
Proof. intros H. by rewrite <- (as_u8_u8 a), <- (as_u8_u8 b), H. Qed.

Lemma as_u8_small z : 0 <= z < 256 -> u8 (as_u8 z) = z.
Proof. intros. rewrite u8_as_u8. by apply Z.mod_small. Qed.

Lemma is_uint_wrap w z : 0 <= w -> is_uint w (wrap w z).
Proof. intros. apply Z.mod_pos_bound. by apply Z.pow_pos_nonneg. Qed.

Lemma wrap_small w z : is_uint w z -> wrap w z = z.
Proof. apply Z.mod_small. Qed.

Lemma len_nonneg {A} (l : list A) : 0 <= len l.
Proof. unfold len. lia. Qed.

Lemma len_app {A} (l k : list A) : len (l ++ k) = len l + len k.
Proof. unfold len. rewrite length_app. lia. Qed.

Lemma len_cons {A} (x : A) l : len (x :: l) = len l + 1.
Proof. unfold len. simpl. lia. Qed.

Lemma len_nil {A} : len ([] : list A) = 0.
Proof. done. Qed.

Lemma to_nat_len {A} (l : list A) : Z.to_nat (len l) = length l.
Proof. unfold len. lia. Qed.

Lemma length_to_be n z : length (to_be n z) = n.
Proof. induction n; simpl; auto. Qed.

Lemma len_to_be n z : len (to_be n z) = Z.of_nat n.
Proof. unfold len. by rewrite length_to_be. Qed.

Create Rewrite HintDb len.
#[export] Hint Rewrite @len_app @len_cons @len_nil len_to_be : len.
Ltac simp_len := autorewrite with len in *.

Lemma lor_shiftl_8 acc b : 0 <= b < 256 -> Z.lor (Z.shiftl acc 8) b = acc * 256 + b.
Proof.
  intros Hb. rewrite <- Z.add_nocarry_lor.
  - rewrite Z.shiftl_mul_pow2 by lia. lia.
  - apply Z.bits_inj'. intros i Hi.
    rewrite Z.land_spec, Z.bits_0, Z.shiftl_spec by lia.
    destruct (decide (i < 8)) as [Hlt|Hge].
    + by rewrite Z.testbit_neg_r by lia.
    + replace b with (b mod 2 ^ 8) by (apply Z.mod_small; lia).
      by rewrite Z.mod_pow2_bits_high, andb_false_r by lia.
Qed.

Lemma from_be_acc l acc :
  fold_left (fun a b => Z.lor (Z.shiftl a 8) (u8 b)) l acc
  = acc * 256 ^ len l + from_be l.
Proof.
  unfold from_be. revert acc.
  induction l as [|b l IH]; intros acc; simpl fold_left.
  - simp_len. lia.
  - rewrite IH, (IH (Z.lor _ _)), !lor_shiftl_8 by apply u8_range.
    rewrite len_cons, Z.pow_add_r by (pose proof (len_nonneg l); lia). lia.
Qed.

Lemma from_be_cons b l : from_be (b :: l) = u8 b * 256 ^ len l + from_be l.
Proof.
  unfold from_be at 1. simpl fold_left.
  by rewrite from_be_acc, lor_shiftl_8 by apply u8_range.
Qed.

Lemma from_be_range l : 0 <= from_be l < 256 ^ len l.
Proof.
  induction l as [|b l IH]; [done|].
  rewrite from_be_cons, len_cons, Z.pow_add_r by (pose proof (len_nonneg l); lia).
  pose proof (u8_range b). nia.
Qed.

Lemma from_be_to_be n z : from_be (to_be n z) = z mod 256 ^ Z.of_nat n.
Proof.
  induction n as [|n IH]; [by rewrite Z.mod_1_r|].
  simpl to_be. rewrite from_be_cons, IH, len_to_be, u8_as_u8.
  rewrite Z.shiftr_div_pow2 by lia.
  replace (2 ^ (8 * Z.of_nat n)) with (256 ^ Z.of_nat n)
    by (rewrite Z.pow_mul_r by lia; done).
  rewrite Nat2Z.inj_succ, Z.pow_succ_r, (Z.mul_comm 256) by lia.
  rewrite Z.rem_mul_r by lia. lia.
Qed.

Lemma from_be_to_be_small n z :
  0 <= z < 256 ^ Z.of_nat n -> from_be (to_be n z) = z.
Proof. intros. rewrite from_be_to_be. by apply Z.mod_small. Qed.

Lemma to_be_from_be l : to_be (length l) (from_be l) = l.
Proof.
  assert (Hgen : forall l acc, to_be (length l) (acc * 256 ^ len l + from_be l) = l).
  { clear. induction l as [|b l IH]; intros acc; [done|].
    simpl. f_equal.
    - apply u8_inj. rewrite u8_as_u8, from_be_cons, len_cons.
      pose proof (from_be_range l); pose proof (u8_range b); pose proof (len_nonneg l).
      rewrite Z.shiftr_div_pow2, Z.pow_add_r by lia.
      replace (2 ^ (8 * Z.of_nat (length l))) with (256 ^ len l)
        by (rewrite Z.pow_mul_r by lia; done).
      replace (acc * (256 ^ len l * 256 ^ 1) + (u8 b * 256 ^ len l + from_be l))
        with ((acc * 256 + u8 b) * 256 ^ len l + from_be l) by lia.
      rewrite Z.div_add_l, Z.div_small, Z.add_0_r by lia.
      rewrite Z.add_comm, Z.mod_add by lia. by apply Z.mod_small.
    - rewrite from_be_cons, len_cons, Z.pow_add_r by (pose proof (len_nonneg l); lia).
      replace (acc * (256 ^ len l * 256 ^ 1) + (u8 b * 256 ^ len l + from_be l))
        with ((acc * 256 + u8 b) * 256 ^ len l + from_be l) by lia.
      apply IH. }
  specialize (Hgen l 0). by rewrite Z.mul_0_l, Z.add_0_l in Hgen.
Qed.

Lemma to_be_inj n a b :
  0 <= a < 256 ^ Z.of_nat n -> 0 <= b < 256 ^ Z.of_nat n ->
  to_be n a = to_be n b -> a = b.
Proof.
  intros Ha Hb H. rewrite <- (from_be_to_be_small n a), <- (from_be_to_be_small n b) by done.
  by rewrite H.
Qed.

(** ** Lemmas: readers *)

Lemma read_exact_app n (l k : bytes) : n = len l -> read_exact n (l ++ k) = Ok (l, k).
Proof.
  intros ->. unfold read_exact. rewrite len_app.
  rewrite (proj2 (Z.leb_le _ _)) by (pose proof (len_nonneg k); lia).
  by rewrite to_nat_len, take_app_length, drop_app_length.
Qed.

Lemma read_exact_short n (l : bytes) : len l < n -> read_exact n l = Err UnexpectedEof.
Proof. intros. unfold read_exact. by rewrite (proj2 (Z.leb_gt _ _)) by lia. Qed.

Lemma read_exact_Ok n (l : bytes) a k :
  read_exact n l = Ok (a, k) -> l = a ++ k /\ len a = Z.max 0 n.
Proof.
  unfold read_exact. destruct (Z.leb_spec n (len l)); [|done].
  intros [= <- <-]. rewrite take_drop. split; [done|].
  unfold len in *. rewrite length_take. lia.
Qed.

Lemma read_exact_cases n (l : bytes) :
  read_exact n l = Err UnexpectedEof \/ exists a k, read_exact n l = Ok (a, k).
Proof. unfold read_exact. destruct (n <=? len l); eauto. Qed.

Lemma read_uint_app n z (k : bytes) :
  0 <= z < 256 ^ Z.of_nat n -> read_uint n (to_be n z ++ k) = Ok (z, k).
Proof.
  intros Hz. unfold read_uint, rd_bind.
  rewrite read_exact_app by (by rewrite len_to_be). simpl. unfold rd_ret.
  by rewrite from_be_to_be_small.
Qed.

Lemma read_uint_wrap n z (k : bytes) :
  read_uint n (to_be n z ++ k) = Ok (z mod 256 ^ Z.of_nat n, k).
Proof.
  unfold read_uint, rd_bind. rewrite read_exact_app by (by rewrite len_to_be). simpl.
  unfold rd_ret. by rewrite from_be_to_be.
Qed.

Lemma read_uint_short n (l : bytes) :
  len l < Z.of_nat n -> read_uint n l = Err UnexpectedEof.
Proof. intros. unfold read_uint, rd_bind. by rewrite read_exact_short. Qed.

Lemma read_uint_Ok n (l : bytes) z k :
  read_uint n l = Ok (z, k) ->
  l = to_be n z ++ k /\ 0 <= z < 256 ^ Z.of_nat n.
Proof.
  unfold read_uint, rd_bind, rd_ret.
  destruct (read_exact _ _) as [[a k']| |] eqn:E; try done.
  simpl. intros [= <- <-]. apply read_exact_Ok in E as [-> Hlen].
  assert (n = length a) as -> by (unfold len in Hlen; lia).
  rewrite to_be_from_be. split; [done|].
  pose proof (from_be_range a). unfold len in *. lia.
Qed.

(** A reader is total when it never panics. *)
Definition no_panic {A} (r : result A) : Prop := r <> Panic.

Lemma no_panic_bind {A B} (r : result A) (f : A -> result B) :
  no_panic r -> (forall a, r = Ok a -> no_panic (f a)) -> no_panic (rbind r f).
Proof. destruct r; simpl; intros H Hf; try done. by apply Hf. Qed.

Lemma no_panic_Ok {A} (a : A) : no_panic (Ok a).
Proof. done. Qed.

Lemma no_panic_Err {A} e : no_panic (@Err A e).
Proof. done. Qed.

Lemma no_panic_read_exact n l : no_panic (read_exact n l).
Proof. unfold read_exact. by case_match. Qed.

Lemma no_panic_read_uint n l : no_panic (read_uint n l).
Proof. apply no_panic_bind; [apply no_panic_read_exact | done]. Qed.

#[export] Hint Resolve no_panic_Ok no_panic_Err no_panic_read_exact no_panic_read_uint : rkv.

(** *** Exact readers

    A reader is exact when what it consumes does not depend on what follows,
    and when any strict prefix of what it consumes ends in [UnexpectedEof].
    Every record parser of the program is built from [read_exact], pure
    checks and sequencing, and so is exact: a torn tail is always seen as an
    end of file. *)
Class ExactReader {A} (R : Reader A) : Prop := exact_reader :
  forall l a k, R l = Ok (a, k) ->
    exists c, l = c ++ k /\ (forall k', R (c ++ k') = Ok (a, k')) /\
      (forall p q, c = p ++ q -> q <> [] -> R p = Err UnexpectedEof).

(** A reader is total when it never panics. *)
Class TotalReader {A} (R : Reader A) : Prop := total_reader : forall l, no_panic (R l).

#[export] Instance exact_ret {A} (a : A) : ExactReader (rd_ret a).
Proof.
  intros l a' k [= <- <-]. exists []. split_and!; [done | done |].
  intros p q H. symmetry in H. apply app_nil in H as [-> ->]. done.
Qed.

#[export] Instance exact_lift {A} (r : result A) : ExactReader (rd_lift r).
Proof.
  intros l a' k. unfold rd_lift. destruct r as [a| |]; simpl; try done.
  intros [= <- <-]. exists []. split_and!; [done | done |].
  intros p q H. symmetry in H. apply app_nil in H as [-> ->]. done.
Qed.

#[export] Instance exact_read_exact n : ExactReader (read_exact n).
Proof.
  intros l a k H. destruct (decide (n < 0)) as [Hn|Hn].
  { assert (Hr : forall l, read_exact n l = Ok ([], l)).
    { intros l'. unfold read_exact.
      rewrite (proj2 (Z.leb_le _ _)) by (pose proof (len_nonneg l'); lia).
      by replace (Z.to_nat n) with 0%nat by lia. }
    rewrite Hr in H. injection H as <- <-. exists []. split_and!; auto.
    intros p q Hp. symmetry in Hp. apply app_nil in Hp as [-> ->]. done. }
  apply read_exact_Ok in H as [-> Hlen]. exists a. split_and!; [done | |].
  - intros k'. apply read_exact_app. lia.
  - intros p q -> Hq. apply read_exact_short. rewrite len_app in Hlen.
    destruct q; [done|]. rewrite len_cons in Hlen. pose proof (len_nonneg q). lia.
Qed.

#[export] Instance exact_bind {A B} (R : Reader A) (f : A -> Reader B) :
  ExactReader R -> (forall a, ExactReader (f a)) -> ExactReader (rd_bind R f).
Proof.
  intros HR Hf l b k. unfold rd_bind.
  destruct (R l) as [[a k1]| |] eqn:E; simpl; try done. intros H.
  destruct (HR _ _ _ E) as (c1 & -> & Hc1 & Hp1).
  destruct (Hf a _ _ _ H) as (c2 & -> & Hc2 & Hp2).
  exists (c1 ++ c2). split_and!.
  - by rewrite app_assoc.
  - intros k'. rewrite <- app_assoc, Hc1. simpl. apply Hc2.
  - intros p q Hpq Hq. apply app_eq_app in Hpq as (m & [[-> Hm]|[-> Hm]]).
    + destruct (decide (m = [])) as [->|Hne].
      * rewrite app_nil_r in *. specialize (Hc1 []). rewrite app_nil_r in Hc1.
        rewrite Hc1. simpl. apply (Hp2 [] c2); [done|]. simpl in Hm. by subst q.
      * by rewrite (Hp1 p m).
    + rewrite Hc1. simpl. by apply (Hp2 m q).
Qed.

#[export] Instance exact_read_uint n : ExactReader (read_uint n).
Proof. unfold read_uint. apply _. Qed.

#[export] Instance total_ret {A} (a : A) : TotalReader (rd_ret a).
Proof. done. Qed.

#[export] Instance total_read_exact n : TotalReader (read_exact n).
Proof. intros l. apply no_panic_read_exact. Qed.

#[export] Instance total_bind {A B} (R : Reader A) (f : A -> Reader B) :
  TotalReader R -> (forall a, TotalReader (f a)) -> TotalReader (rd_bind R f).
Proof. intros HR Hf l. apply no_panic_bind; [apply HR|]. intros. apply Hf. Qed.

#[export] Instance total_read_uint n : TotalReader (read_uint n).
Proof. unfold read_uint. apply _. Qed.

Lemma total_lift {A} (r : result A) : no_panic r -> TotalReader (rd_lift r).
Proof. intros Hr l. by apply no_panic_bind. Qed.

Lemma rd_bind_Ok {A B} (R : Reader A) (f : A -> Reader B) l a k :
  R l = Ok (a, k) -> rd_bind R f l = f a k.
Proof. unfold rd_bind. by intros ->. Qed.

Lemma rbind_Ok {A B} (r : result A) (f : A -> result B) b :
  rbind r f = Ok b -> exists a, r = Ok a /\ f a = Ok b.
Proof. destruct r; simpl; try done. eauto. Qed.

Lemma st_bind_Ok {S A B} (m : ST S A) (f : A -> ST S B) s s' a :
  m s = (s', Ok a) -> st_bind m f s = f a s'.
Proof. unfold st_bind. by intros ->. Qed.

Lemma st_iter_app {S A} (f : A -> ST S unit) l k s s' :
  st_iter f l s = (s', Ok tt) -> st_iter f (l ++ k) s = st_iter f k s'.
Proof.
  revert s. induction l as [|a l IH]; intros s; simpl; [by intros [= ->]|].
  unfold st_bind. destruct (f a s) as [s1 [[]| |]]; try done. apply IH.
Qed.

Lemma Ok_inj {A} (a b : A) : Ok a = Ok b -> a = b.
Proof. by intros [= ->]. Qed.

Lemma rfold_app {A S} (f : S -> A -> result S) s l k :
  rfold f s (l ++ k) = rbind (rfold f s l) (fun s' => rfold f s' k).
Proof.
  revert s. induction l as [|a l IH]; intros s; [done|]. simpl.
  destruct (f s a); simpl; auto.
Qed.

(** ** Lemmas: the order of strings *)

Lemma str_compare_refl a : str_compare a a = Eq.
Proof. induction a as [|x a IH]; simpl; [done|]. by rewrite Z.compare_refl. Qed.

Lemma str_compare_eq a b : str_compare a b = Eq -> a = b.
Proof.
  revert b. induction a as [|x a IH]; intros [|y b]; simpl; try done.
  destruct (Z.compare_spec (u8 x) (u8 y)) as [H| |]; try done.
  intros Hab. f_equal; [by apply u8_inj | by apply IH].
Qed.

Lemma str_compare_antisym a b : str_compare b a = CompOpp (str_compare a b).
Proof.
  revert b. induction a as [|x a IH]; intros [|y b]; simpl; try done.
  rewrite (Z.compare_antisym (u8 x) (u8 y)).
  destruct (u8 x ?= u8 y); simpl; auto.
Qed.

Lemma str_lt_trans a b c : str_lt a b -> str_lt b c -> str_lt a c.
Proof.
  unfold str_lt. revert b c.
  induction a as [|x a IH]; intros [|y b] [|z c]; simpl; try done.
  destruct (Z.compare_spec (u8 x) (u8 y)), (Z.compare_spec (u8 y) (u8 z)),
    (Z.compare_spec (u8 x) (u8 z)); try done; try lia. by apply IH.
Qed.

Lemma str_lt_irrefl a : ~ str_lt a a.
Proof. unfold str_lt. by rewrite str_compare_refl. Qed.

Lemma str_lt_ne a b : str_lt a b -> a <> b.
Proof. intros H ->. by apply str_lt_irrefl in H. Qed.

Lemma str_lt_trichotomy a b : str_lt a b \/ a = b \/ str_lt b a.
Proof.
  unfold str_lt. rewrite (str_compare_antisym a b).
  destruct (str_compare a b) eqn:E; eauto. apply str_compare_eq in E. auto.
Qed.

#[export] Instance str_lt_strict : StrictOrder str_lt.
Proof. split; [exact str_lt_irrefl | exact str_lt_trans]. Qed.

Lemma str_ltb_lt a b : str_ltb a b = true <-> str_lt a b.
Proof. unfold str_ltb, str_lt. by destruct (str_compare a b). Qed.

Lemma str_leb_le a b : str_leb a b = true <-> str_lt a b \/ a = b.
Proof.
  unfold str_leb, str_lt. destruct (str_compare a b) eqn:E.
  - apply str_compare_eq in E. naive_solver.
  - naive_solver.
  - split; [done|]. intros [H|H]; [congruence|]. subst. by rewrite str_compare_refl in E.
Qed.

Lemma str_leb_gt a b : str_leb a b = false <-> str_lt b a.
Proof.
  unfold str_leb, str_lt. rewrite (str_compare_antisym a b).
  by destruct (str_compare a b).
Qed.

(** The three-way comparison as an induction-free case analysis. *)
Lemma str_compare_spec a b : CompareSpec (a = b) (str_lt a b) (str_lt b a) (str_compare a b).
Proof.
  unfold str_lt. destruct (str_compare a b) eqn:E; constructor; auto.
  - by apply str_compare_eq.
  - by rewrite str_compare_antisym, E.
Qed.

#[global] Arguments to_be : simpl never.
#[global] Arguments from_be : simpl never.
#[global] Arguments as_u8 : simpl never.
#[global] Arguments u8 : simpl never.
#[global] Arguments read_exact : simpl never.
#[global] Arguments read_uint : simpl never.
#[global] Arguments len : simpl never.
