(* ===== verification/Utf8.v ===== *)
(** * UTF-8 validation

    Rust strings hold valid UTF-8; every decoder of the program turns raw
    bytes into a [String] with [String::from_utf8], which checks them and
    fails otherwise. The check is the standard library's (RFC 3629): no
    overlong forms, no surrogates, nothing above U+10FFFF. *)

From S2P Require Import Prelude.

Definition in_range (lo hi : Z) (b : byte) : bool := (lo <=? u8 b) && (u8 b <=? hi).
Definition cont (b : byte) : bool := in_range 0x80 0xBF b.

Fixpoint utf8_valid (l : bytes) : bool :=
  match l with
  | [] => true
  | b0 :: l1 =>
      if u8 b0 <? 0x80 then utf8_valid l1 else
      match l1 with
      | [] => false
      | b1 :: l2 =>
          if in_range 0xC2 0xDF b0 then cont b1 && utf8_valid l2 else
          match l2 with
          | [] => false
          | b2 :: l3 =>
              if in_range 0xE0 0xEF b0 then
                (if u8 b0 =? 0xE0 then in_range 0xA0 0xBF b1
                 else if u8 b0 =? 0xED then in_range 0x80 0x9F b1
                 else cont b1) && cont b2 && utf8_valid l3
              else
              match l3 with
              | [] => false
              | b3 :: l4 =>
                  in_range 0xF0 0xF4 b0 &&
                  (if u8 b0 =? 0xF0 then in_range 0x90 0xBF b1
                   else if u8 b0 =? 0xF4 then in_range 0x80 0x8F b1
                   else cont b1) && cont b2 && cont b3 && utf8_valid l4
              end
          end
      end
  end.

(** [String::from_utf8], with the error kind every caller maps it to. *)
Definition from_utf8 (l : bytes) : result str :=
  if utf8_valid l then Ok l else Err InvalidData.

(** [String::from_utf8_lossy]: each maximal prefix of a malformed sequence becomes
    U+FFFD. *)
Definition replacement : bytes := [as_u8 0xEF; as_u8 0xBF; as_u8 0xBD].

(** The second byte after a lead byte of three or four. *)
Definition second_ok (b0 b1 : byte) : bool :=
  if u8 b0 =? 0xE0 then in_range 0xA0 0xBF b1
  else if u8 b0 =? 0xED then in_range 0x80 0x9F b1
  else if u8 b0 =? 0xF0 then in_range 0x90 0xBF b1
  else if u8 b0 =? 0xF4 then in_range 0x80 0x8F b1
  else cont b1.

Fixpoint from_utf8_lossy (l : bytes) : str :=
  match l with
  | [] => []
  | b0 :: l1 =>
      if u8 b0 <? 0x80 then b0 :: from_utf8_lossy l1
      else if in_range 0xC2 0xDF b0 then
        match l1 with
        | b1 :: l2 => if cont b1 then b0 :: b1 :: from_utf8_lossy l2 else replacement ++ from_utf8_lossy l1
        | [] => replacement
        end
      else if in_range 0xE0 0xEF b0 then
        match l1 with
        | b1 :: l2 =>
            if second_ok b0 b1 then
              match l2 with
              | b2 :: l3 =>
                  if cont b2 then b0 :: b1 :: b2 :: from_utf8_lossy l3
                  else replacement ++ from_utf8_lossy l2
              | [] => replacement
              end
            else replacement ++ from_utf8_lossy l1
        | [] => replacement
        end
      else if in_range 0xF0 0xF4 b0 then
        match l1 with
        | b1 :: l2 =>
            if second_ok b0 b1 then
              match l2 with
              | b2 :: l3 =>
                  if cont b2 then
                    match l3 with
                    | b3 :: l4 =>
                        if cont b3 then b0 :: b1 :: b2 :: b3 :: from_utf8_lossy l4
                        else replacement ++ from_utf8_lossy l3
                    | [] => replacement
                    end
                  else replacement ++ from_utf8_lossy l2
              | [] => replacement
              end
            else replacement ++ from_utf8_lossy l1
        | [] => replacement
        end
      else replacement ++ from_utf8_lossy l1
  end.

Lemma from_utf8_lossy_valid l : utf8_valid l = true -> from_utf8_lossy l = l.
Proof.
  induction l as [l IH] using (well_founded_ind (well_founded_ltof _ length)).
  destruct l as [|b0 l1]; [done|]. cbn [utf8_valid from_utf8_lossy].
  assert (Hrec : forall l', (length l' <= length l1)%nat -> utf8_valid l' = true -> from_utf8_lossy l' = l')
    by (intros l' Hl; apply IH; unfold ltof; cbn; lia). clear IH.
  destruct (u8 b0 <? 0x80); [intros H; f_equal; by apply Hrec|].
  destruct l1 as [|b1 l2]; [done|].
  destruct (in_range 0xC2 0xDF b0).
  { intros [-> H]%andb_prop. do 2 f_equal. apply Hrec; [cbn; lia | done]. }
  destruct l2 as [|b2 l3]; [done|]. unfold second_ok.
  destruct (in_range 0xE0 0xEF b0) eqn:E.
  { intros [[H1 ->]%andb_prop H]%andb_prop.
    assert (Hs : second_ok b0 b1 = true).
    { unfold second_ok, in_range in *. repeat case_match; lia || done. }
    unfold second_ok in Hs. rewrite Hs. do 3 f_equal. apply Hrec; [cbn; lia | done]. }
  destruct l3 as [|b3 l4]; [done|].
  intros [[[[-> H1]%andb_prop ->]%andb_prop ->]%andb_prop H]%andb_prop.
  assert (Hs : second_ok b0 b1 = true).
  { unfold second_ok, in_range in *. repeat case_match; lia || done. }
  unfold second_ok in Hs. rewrite Hs. do 4 f_equal. apply Hrec; [cbn; lia | done].
Qed.

Lemma from_utf8_valid l : utf8_valid l = true -> from_utf8 l = Ok l.
Proof. unfold from_utf8. by intros ->. Qed.

Lemma from_utf8_Ok l s : from_utf8 l = Ok s -> s = l /\ utf8_valid s = true.
Proof. unfold from_utf8. destruct (utf8_valid l) eqn:E; [|done]. by intros [= <-]. Qed.

Lemma no_panic_from_utf8 l : no_panic (from_utf8 l).
Proof. unfold from_utf8. by case_match. Qed.

Lemma utf8_valid_ascii l : Forall (fun b => u8 b < 128) l -> utf8_valid l = true.
Proof.
  induction 1 as [|b l Hb _ IH]; [done|]. simpl.
  by rewrite (proj2 (Z.ltb_lt _ _)) by done.
Qed.

#[export] Hint Resolve no_panic_from_utf8 : rkv.
