(* ===== verification/Crc.v ===== *)
(** * CRC-32 (src/src/crc.rs)

    The table-driven checksum of the program, its bit-by-bit reference, and
    the errors it is guaranteed to detect. *)

From S2P Require Import Prelude.

(** ** The code *)

Definition REFLECTED_POLYNOMIAL : Z := 0xEDB88320.

(** One turn of the inner loop of [make_lookup_table]. *)
Definition crc_bit (crc : Z) : Z :=
  if Z.land crc 1 =? 1 then Z.lxor (Z.shiftr crc 1) REFLECTED_POLYNOMIAL
  else Z.shiftr crc 1.

Definition make_lookup_table : list Z :=
  map (fun i => Nat.iter 8 crc_bit (Z.of_nat i)) (seq 0 256).

Definition LOOKUP_TABLE : list Z := Eval vm_compute in make_lookup_table.

(** The body of the loop of [crc32] and [crc32_seeded]. The index is a [u8],
    so the access to the 256 entries is always in range. *)
Definition crc_step (crc : Z) (b : byte) : Z :=
  let index := Z.to_nat (Z.lxor (u8 (as_u8 crc)) (u8 b)) in
  Z.lxor (default 0 (LOOKUP_TABLE !! index)) (Z.shiftr crc 8).

Definition crc32_seeded (data : bytes) (seed : Z) : Z :=
  Z.lxor (fold_left crc_step data seed) 0xFFFFFFFF.

Definition crc32 (data : bytes) : Z :=
  Z.lxor (fold_left crc_step data 0xFFFFFFFF) 0xFFFFFFFF.

(** ** The reference: the reflected CRC computed one bit at a time *)

Definition crc_step_bitwise (crc : Z) (b : byte) : Z :=
  Nat.iter 8 crc_bit (Z.lxor crc (u8 b)).

Definition crc32_bitwise (data : bytes) : Z :=
  Z.lxor (fold_left crc_step_bitwise data 0xFFFFFFFF) 0xFFFFFFFF.

(** ** Lemmas *)

Lemma land_1_eqb z : (Z.land z 1 =? 1) = Z.odd z.
Proof.
  change 1 with (Z.ones 1) at 1. rewrite Z.land_ones by lia.
  change (2 ^ 1) with 2. rewrite Zmod_odd. by destruct (Z.odd z).
Qed.

Lemma crc_bit_odd z :
  crc_bit z = Z.lxor (Z.shiftr z 1) (if Z.odd z then REFLECTED_POLYNOMIAL else 0).
Proof. unfold crc_bit. rewrite land_1_eqb. destruct (Z.odd z); [done|]. by rewrite Z.lxor_0_r. Qed.

(** The bit step is linear over GF(2). *)
Lemma crc_bit_lxor a b : crc_bit (Z.lxor a b) = Z.lxor (crc_bit a) (crc_bit b).
Proof.
  rewrite !crc_bit_odd, Z.shiftr_lxor.
  rewrite <- !Z.bit0_odd, Z.lxor_spec.
  apply Z.bits_inj'. intros i Hi. rewrite !Z.lxor_spec.
  destruct (Z.testbit a 0), (Z.testbit b 0); simpl; rewrite ?Z.bits_0; btauto.
Qed.

Lemma crc_bits_lxor n a b :
  Nat.iter n crc_bit (Z.lxor a b) = Z.lxor (Nat.iter n crc_bit a) (Nat.iter n crc_bit b).
Proof. induction n as [|n IH]; simpl; [done|]. by rewrite IH, crc_bit_lxor. Qed.

(** [n] steps on a value whose low [n] bits are zero shift them out. *)
Lemma crc_bits_shiftl n z :
  Nat.iter n crc_bit (Z.shiftl z (Z.of_nat n)) = z.
Proof.
  revert z. induction n as [|n IH]; intros z.
  - simpl. by rewrite Z.shiftl_0_r.
  - rewrite Nat.iter_succ.
    replace (Z.shiftl z (Z.of_nat (S n))) with (Z.shiftl (Z.shiftl z 1) (Z.of_nat n))
      by (rewrite Z.shiftl_shiftl by lia; f_equal; lia).
    rewrite IH, crc_bit_odd, Z.shiftr_shiftl_l, Z.sub_diag, Z.shiftl_0_r by lia.
    rewrite <- Z.bit0_odd, Z.shiftl_spec, Z.testbit_neg_r by lia.
    by rewrite Z.lxor_0_r.
Qed.

Lemma lxor_uint w a b : 0 <= w -> is_uint w a -> is_uint w b -> is_uint w (Z.lxor a b).
Proof.
  intros Hw Ha Hb. unfold is_uint in *.
  assert (Hn : 0 <= Z.lxor a b) by (apply Z.lxor_nonneg; lia). split; [done|].
  rewrite <- (Z.mod_small a (2 ^ w)), <- (Z.mod_small b (2 ^ w)) by lia.
  rewrite <- !Z.land_ones by lia.
  replace (Z.lxor (Z.land a (Z.ones w)) (Z.land b (Z.ones w)))
    with (Z.land (Z.lxor a b) (Z.ones w)).
  - rewrite Z.land_ones by lia. apply Z.mod_pos_bound. lia.
  - apply Z.bits_inj'. intros i Hi. rewrite !Z.lxor_spec, !Z.land_spec, Z.lxor_spec. btauto.
Qed.

Lemma lxor_u32 a b : is_u32 a -> is_u32 b -> is_u32 (Z.lxor a b).
Proof. by apply lxor_uint. Qed.

Lemma u32_bit a i : is_u32 a -> 32 <= i -> Z.testbit a i = false.
Proof.
  intros Ha Hi. rewrite <- (Z.mod_small a (2 ^ 32)) by exact Ha.
  by apply Z.mod_pow2_bits_high.
Qed.

Lemma crc_bit_u32 z : is_u32 z -> is_u32 (crc_bit z).
Proof.
  intros Hz. rewrite crc_bit_odd. apply lxor_u32.
  - unfold is_uint in *. rewrite Z.shiftr_div_pow2 by lia. change (2 ^ 1) with 2.
    split; [apply Z.div_pos; lia|]. apply Z.div_lt_upper_bound; lia.
  - destruct (Z.odd z); done.
Qed.

Lemma crc_bits_u32 n z : is_u32 z -> is_u32 (Nat.iter n crc_bit z).
Proof. induction n; simpl; auto using crc_bit_u32. Qed.

(** The step loses no information: bit 31 of the result is bit 0 of the
    argument, because the polynomial has bit 31 set. *)
Lemma crc_bit_top z : is_u32 z -> Z.testbit (crc_bit z) 31 = Z.odd z.
Proof.
  intros Hz. rewrite crc_bit_odd, Z.lxor_spec, Z.shiftr_spec by lia.
  rewrite u32_bit by (done || lia). by destruct (Z.odd z).
Qed.

Lemma crc_bit_inj a b : is_u32 a -> is_u32 b -> crc_bit a = crc_bit b -> a = b.
Proof.
  intros Ha Hb H. pose proof (f_equal (fun z => Z.testbit z 31) H) as H31.
  cbv beta in H31. rewrite !crc_bit_top in H31 by done.
  rewrite !crc_bit_odd, H31 in H.
  apply (f_equal (fun z => Z.lxor z (if Z.odd b then REFLECTED_POLYNOMIAL else 0))) in H.
  rewrite !Z.lxor_assoc, Z.lxor_nilpotent, !Z.lxor_0_r in H.
  apply Z.bits_inj'. intros i Hi. destruct (decide (i = 0)) as [->|Hne].
  - by rewrite !Z.bit0_odd.
  - apply (f_equal (fun z => Z.testbit z (i - 1))) in H.
    rewrite !Z.shiftr_spec in H by lia. by replace (i - 1 + 1) with i in H by lia.
Qed.

Lemma crc_bits_inj n a b :
  is_u32 a -> is_u32 b -> Nat.iter n crc_bit a = Nat.iter n crc_bit b -> a = b.
Proof.
  intros Ha Hb. induction n as [|n IH]; simpl; [done|].
  intros H. apply IH. by apply crc_bit_inj; auto using crc_bits_u32.
Qed.

Lemma lxor_split_low z b : is_u8 b ->
  Z.lxor z b = Z.lxor (Z.lxor (z mod 256) b) (Z.shiftl (Z.shiftr z 8) 8).
Proof.
  intros Hb. apply Z.bits_inj'. intros i Hi.
  change 256 with (2 ^ 8). rewrite !Z.lxor_spec, Z.shiftl_spec by lia.
  destruct (decide (i < 8)).
  - rewrite Z.mod_pow2_bits_low, (Z.testbit_neg_r _ (i - 8)) by lia. btauto.
  - rewrite Z.mod_pow2_bits_high, Z.shiftr_spec by lia.
    replace (i - 8 + 8) with i by lia. btauto.
Qed.

Lemma LOOKUP_TABLE_eq : LOOKUP_TABLE = make_lookup_table.
Proof. vm_compute. reflexivity. Qed.

Lemma lookup_table_spec i : (i < 256)%nat ->
  LOOKUP_TABLE !! i = Some (Nat.iter 8 crc_bit (Z.of_nat i)).
Proof.
  intros Hi. rewrite LOOKUP_TABLE_eq. unfold make_lookup_table.
  by rewrite list_lookup_fmap, lookup_seq_lt.
Qed.

Lemma crc_step_eq crc b : crc_step crc b = crc_step_bitwise crc b.
Proof.
  unfold crc_step, crc_step_bitwise. rewrite u8_as_u8.
  assert (Hb : is_u8 (u8 b)) by apply u8_range.
  assert (Hi : is_u8 (Z.lxor (crc mod 256) (u8 b)))
    by (apply lxor_uint; [lia | apply Z.mod_pos_bound; lia | done]).
  rewrite lookup_table_spec by (unfold is_uint in Hi; lia).
  simpl default. rewrite Z2Nat.id by (unfold is_uint in Hi; lia).
  rewrite (lxor_split_low crc (u8 b)) by done.
  rewrite crc_bits_lxor. f_equal. symmetry. apply (crc_bits_shiftl 8).
Qed.

Lemma crc_step_u32 crc b : is_u32 crc -> is_u32 (crc_step crc b).
Proof.
  intros. rewrite crc_step_eq. apply crc_bits_u32, lxor_u32; [done|].
  pose proof (u8_range b). unfold is_uint. lia.
Qed.

Lemma crc_fold_u32 data crc : is_u32 crc -> is_u32 (fold_left crc_step data crc).
Proof. revert crc. induction data; simpl; auto using crc_step_u32. Qed.

Lemma lxor_cancel_r a b c : Z.lxor a c = Z.lxor b c -> a = b.
Proof.
  intros H. apply (f_equal (fun z => Z.lxor z c)) in H.
  by rewrite !Z.lxor_assoc, Z.lxor_nilpotent, !Z.lxor_0_r in H.
Qed.

Lemma crc_step_inj a b c : is_u32 a -> is_u32 b -> crc_step a c = crc_step b c -> a = b.
Proof.
  intros Ha Hb H. rewrite !crc_step_eq in H.
  assert (is_u32 (u8 c)) by (pose proof (u8_range c); unfold is_uint; lia).
  apply crc_bits_inj in H; auto using lxor_u32. by apply lxor_cancel_r in H.
Qed.

Lemma crc_fold_inj data a b :
  is_u32 a -> is_u32 b ->
  fold_left crc_step data a = fold_left crc_step data b -> a = b.
Proof.
  revert a b. induction data as [|c data IH]; intros a b Ha Hb; simpl; [done|].
  intros H. apply IH in H; auto using crc_step_u32. by apply crc_step_inj in H.
Qed.

(** A window of bytes, read in the order the checksum consumes them. *)
Fixpoint le_window (w : bytes) : Z :=
  match w with
  | [] => 0
  | b :: w' => Z.lxor (u8 b) (Z.shiftl (le_window w') 8)
  end.

(** Consuming a window is [8 * length w] bit steps on the state xor-ed with
    the window. *)
Lemma crc_fold_window w crc :
  fold_left crc_step w crc = Nat.iter (8 * length w) crc_bit (Z.lxor crc (le_window w)).
Proof.
  revert crc. induction w as [|b w IH]; intros crc; simpl le_window.
  - simpl. by rewrite Z.lxor_0_r.
  - simpl fold_left. rewrite IH, crc_step_eq. unfold crc_step_bitwise.
    rewrite <- (crc_bits_shiftl 8 (le_window w)) at 1.
    rewrite <- crc_bits_lxor, <- Nat.iter_add, Z.lxor_assoc. f_equal. simpl. lia.
Qed.

Lemma le_window_cons b w :
  le_window (b :: w) = u8 b + 256 * le_window w.
Proof.
  simpl. rewrite Z.lxor_comm.
  rewrite <- Z.add_nocarry_lxor.
  - rewrite Z.shiftl_mul_pow2 by lia. lia.
  - apply Z.bits_inj'. intros i Hi. rewrite Z.land_spec, Z.bits_0, Z.shiftl_spec by lia.
    pose proof (u8_range b).
    destruct (decide (i < 8)); [by rewrite Z.testbit_neg_r by lia|].
    replace (u8 b) with (u8 b mod 2 ^ 8) by (apply Z.mod_small; lia).
    by rewrite Z.mod_pow2_bits_high, andb_false_r by lia.
Qed.

Lemma le_window_range w : 0 <= le_window w < 256 ^ len w.
Proof.
  induction w as [|b w IH]; [done|].
  rewrite le_window_cons, len_cons, Z.pow_add_r by (pose proof (len_nonneg w); lia).
  pose proof (u8_range b). lia.
Qed.

Lemma le_window_inj w w' : length w = length w' -> le_window w = le_window w' -> w = w'.
Proof.
  revert w'. induction w as [|b w IH]; intros [|b' w']; try done.
  rewrite !le_window_cons. simpl length. intros Hl H.
  pose proof (u8_range b); pose proof (u8_range b').
  f_equal; [apply u8_inj; lia|]. apply IH; lia.
Qed.

(** ** Properties *)

(** The table-driven checksum is the bit-by-bit CRC-32 of the reflected
    polynomial, on every input. *)
Theorem crc32_is_bitwise (data : bytes) : crc32 data = crc32_bitwise data.
Proof.
  unfold crc32, crc32_bitwise. f_equal. generalize 0xFFFFFFFF.
  induction data as [|b data IH]; intros crc; simpl; [done|].
  by rewrite crc_step_eq, IH.
Qed.

Lemma crc32_u32 data : is_u32 (crc32 data).
Proof. apply lxor_u32; [apply crc_fold_u32|]; done. Qed.

Lemma crc32_seeded_u32 data seed : is_u32 seed -> is_u32 (crc32_seeded data seed).
Proof. intros. apply lxor_u32; [by apply crc_fold_u32 | done]. Qed.

Lemma crc32_burst_ne p w w' s :
  length w = length w' -> (length w <= 4)%nat -> w <> w' ->
  crc32 (p ++ w ++ s) <> crc32 (p ++ w' ++ s).
Proof.
  intros Hl H4 Hne H. apply Hne, le_window_inj; [done|].
  unfold crc32 in H. apply lxor_cancel_r in H. rewrite !fold_left_app in H.
  set (c := fold_left crc_step p 0xFFFFFFFF) in *.
  assert (Hc : is_u32 c) by (by apply crc_fold_u32).
  assert (Hw : forall v, (length v <= 4)%nat -> is_u32 (le_window v)).
  { intros v Hv. pose proof (le_window_range v) as Hr. unfold is_uint, len in *.
    assert (256 ^ Z.of_nat (length v) <= 256 ^ 4) by (apply Z.pow_le_mono_r; lia). lia. }
  apply crc_fold_inj in H; auto using crc_fold_u32.
  rewrite !crc_fold_window, Hl in H. apply crc_bits_inj in H.
  - rewrite !(Z.lxor_comm c) in H. by apply lxor_cancel_r in H.
  - apply lxor_u32; auto.
  - apply lxor_u32; [done | apply Hw; lia].
Qed.

(** The checksum detects every change confined to a window of at most
    four bytes (a burst of at most 32 bits), wherever it is in the data. *)
Theorem crc32_detects_burst (p w w' s : bytes) :
  length w = length w' -> (length w <= 4)%nat -> w <> w' ->
  crc32 (p ++ w ++ s) <> crc32 (p ++ w' ++ s).
Proof. apply crc32_burst_ne. Qed.

Lemma crc32_detects_burst_witness :
  crc32 (bs "ab" ++ bs "cd" ++ bs "ef") <> crc32 (bs "ab" ++ bs "xy" ++ bs "ef").
Proof.
  apply (crc32_detects_burst (bs "ab") (bs "cd") (bs "xy") (bs "ef"));
    [reflexivity | simpl; lia | discriminate].
Defined.
