(* ===== verification/Bloom.v ===== *)
(** * The Bloom filter of a segment (src/src/bloom.rs)

    A bit vector and two hash functions combined; an index out of range is a
    panic. *)

From S2P Require Import Prelude Crc.

Definition BLOOM_SALT : Z := 0x517CC1B7.

Record BloomFilter := mkBloom { bits : bytes; hash_count : Z }.

Definition bloom_new (size : Z) (hash_count : Z) : BloomFilter :=
  mkBloom (replicate (Z.to_nat size) (as_u8 0)) hash_count.

(** The indices [0..hash_count]. *)
Definition rounds (n : Z) : list Z := Z.of_nat <$> seq 0 (Z.to_nat n).

(** [hash_i as usize % (self.bits.len() * 8)] for the round [i]: the
    remainder panics on an empty filter. *)
Definition bit_index (bits : bytes) (h1 h2 i : Z) : result Z :=
  let hash_i := wrap32 (h1 + wrap32 (i * h2)) in
  if len bits * 8 =? 0 then Panic else Ok (hash_i mod (len bits * 8)).

(** [self.bits[byte_index] & (1 << bit_offset) == 0], negated. *)
Definition bit_at (bits : bytes) (bit_index : Z) : result bool :=
  match bits !! Z.to_nat (bit_index / 8) with
  | None => Panic
  | Some b => Ok (negb (Z.land (u8 b) (Z.shiftl 1 (bit_index mod 8)) =? 0))
  end.

(** [self.bits[byte_index] |= 1 << bit_offset]. *)
Definition set_bit (bits : bytes) (bit_index : Z) : result bytes :=
  match bits !! Z.to_nat (bit_index / 8) with
  | None => Panic
  | Some b => Ok (<[Z.to_nat (bit_index / 8) :=
                      as_u8 (Z.lor (u8 b) (Z.shiftl 1 (bit_index mod 8)))]> bits)
  end.

Fixpoint all_bits (bits : bytes) (h1 h2 : Z) (rs : list Z) : result bool :=
  match rs with
  | [] => Ok true
  | i :: rs' =>
      let? j := bit_index bits h1 h2 i in
      let? set := bit_at bits j in
      if set then all_bits bits h1 h2 rs' else Ok false
  end.

Definition might_contain (f : BloomFilter) (key : str) : result bool :=
  let h1 := crc32 key in
  let h2 := crc32_seeded key BLOOM_SALT in
  all_bits (bits f) h1 h2 (rounds (hash_count f)).

Definition bloom_insert (f : BloomFilter) (key : str) : result BloomFilter :=
  let h1 := crc32 key in
  let h2 := crc32_seeded key BLOOM_SALT in
  let? b := rfold (fun b i => let? j := bit_index b h1 h2 i in set_bit b j)
              (bits f) (rounds (hash_count f)) in
  Ok (mkBloom b (hash_count f)).

(** ** Lemmas *)

(** A filter whose bit array is not empty. *)
Definition bloom_wf (f : BloomFilter) : Prop := 0 < len (bits f).

(** The bit a round looks at depends on the size of the array only. *)
Definition slot (n h1 h2 i : Z) : Z := wrap32 (h1 + wrap32 (i * h2)) mod (n * 8).

Lemma bit_index_slot bits h1 h2 i :
  0 < len bits -> bit_index bits h1 h2 i = Ok (slot (len bits) h1 h2 i).
Proof. intros. unfold bit_index. by rewrite (proj2 (Z.eqb_neq _ _)) by lia. Qed.

Lemma slot_range n h1 h2 i : 0 < n -> 0 <= slot n h1 h2 i < n * 8.
Proof. intros. apply Z.mod_pos_bound. lia. Qed.

Lemma slot_lookup (bits : bytes) j :
  0 <= j < len bits * 8 -> is_Some (bits !! Z.to_nat (j / 8)).
Proof.
  intros Hj. apply lookup_lt_is_Some. unfold len in *.
  assert (j / 8 < Z.of_nat (length bits)) by (apply Z.div_lt_upper_bound; lia).
  assert (0 <= j / 8) by (apply Z.div_pos; lia). lia.
Qed.

Lemma land_pow2_eqb z n : 0 <= n -> negb (Z.land z (Z.shiftl 1 n) =? 0) = Z.testbit z n.
Proof.
  intros Hn. rewrite Z.shiftl_1_l. destruct (Z.testbit z n) eqn:E.
  - apply negb_true_iff, Z.eqb_neq. intros H.
    apply (f_equal (fun x => Z.testbit x n)) in H.
    by rewrite Z.land_spec, E, Z.pow2_bits_true, Z.bits_0 in H.
  - apply negb_false_iff, Z.eqb_eq. apply Z.bits_inj'. intros i Hi.
    rewrite Z.land_spec, Z.bits_0, Z.pow2_bits_eqb by lia.
    destruct (Z.eqb_spec n i) as [->|]; [by rewrite E | by rewrite andb_false_r].
Qed.

(** The filter as a set of bits. *)
Definition has_bit (bits : bytes) (j : Z) : Prop := bit_at bits j = Ok true.

Lemma bit_at_testbit (bits : bytes) j b :
  0 <= j -> bits !! Z.to_nat (j / 8) = Some b -> bit_at bits j = Ok (Z.testbit (u8 b) (j mod 8)).
Proof.
  intros Hj Hb. unfold bit_at. rewrite Hb, land_pow2_eqb; [done|].
  apply Z.mod_pos_bound. lia.
Qed.

Lemma testbit_set b m i : 0 <= m < 8 -> 0 <= i < 8 ->
  Z.testbit (u8 (as_u8 (Z.lor (u8 b) (Z.shiftl 1 m)))) i = (m =? i) || Z.testbit (u8 b) i.
Proof.
  intros Hm Hi. rewrite u8_as_u8. change 256 with (2 ^ 8).
  rewrite Z.mod_pow2_bits_low, Z.lor_spec, Z.shiftl_1_l, Z.pow2_bits_eqb by lia.
  by rewrite orb_comm.
Qed.

Lemma set_bit_spec bits j :
  0 <= j < len bits * 8 ->
  exists bits', set_bit bits j = Ok bits' /\ len bits' = len bits /\
    has_bit bits' j /\ (forall i, 0 <= i -> has_bit bits i -> has_bit bits' i).
Proof.
  intros Hj. destruct (slot_lookup bits j Hj) as [b Hb].
  unfold set_bit. rewrite Hb. eexists. split; [done|].
  set (n := Z.to_nat (j / 8)) in *.
  set (v := as_u8 _). unfold len. rewrite length_insert. split; [done|].
  assert (Hm : forall i, 0 <= i mod 8 < 8) by (intros; apply Z.mod_pos_bound; lia).
  assert (Hn : (n < length bits)%nat) by (by eapply lookup_lt_Some).
  split.
  - unfold has_bit. rewrite bit_at_testbit with (b := v);
      [|lia | by rewrite list_lookup_insert_eq].
    unfold v. rewrite testbit_set by done. by rewrite Z.eqb_refl.
  - intros i Hi H. destruct (decide (Z.to_nat (i / 8) = n)) as [E|E].
    + unfold has_bit in *. rewrite bit_at_testbit with (b := b) in H by congruence.
      rewrite bit_at_testbit with (b := v); [|lia | by rewrite E, list_lookup_insert_eq].
      unfold v. rewrite testbit_set by done. injection H as ->. by rewrite orb_true_r.
    + unfold has_bit, bit_at in *. by rewrite list_lookup_insert_ne by done.
Qed.

(** Inserting sets every slot of the key and clears none. *)
Lemma insert_loop_spec rs bits h1 h2 :
  0 < len bits ->
  exists bits',
    rfold (fun b i => let? j := bit_index b h1 h2 i in set_bit b j) bits rs = Ok bits' /\
    len bits' = len bits /\
    Forall (fun i => has_bit bits' (slot (len bits) h1 h2 i)) rs /\
    (forall i, 0 <= i -> has_bit bits i -> has_bit bits' i).
Proof.
  revert bits. induction rs as [|i rs IH]; intros bits Hlen; simpl.
  { exists bits. auto. }
  rewrite bit_index_slot by done. simpl.
  pose proof (slot_range (len bits) h1 h2 i Hlen) as Hs.
  destruct (set_bit_spec bits _ Hs) as (b1 & -> & Hl1 & Hb1 & Hm1). simpl.
  destruct (IH b1) as (b2 & -> & Hl2 & Hb2 & Hm2); [lia|].
  exists b2. rewrite Hl1 in *. split_and!; try done; auto.
  constructor; auto. apply Hm2; [lia | done].
Qed.

Lemma all_bits_spec bits h1 h2 rs :
  0 < len bits ->
  all_bits bits h1 h2 rs = Ok true <->
  Forall (fun i => has_bit bits (slot (len bits) h1 h2 i)) rs.
Proof.
  intros Hlen. induction rs as [|i rs IH]; simpl; [by split|].
  rewrite bit_index_slot, Forall_cons by done. simpl. unfold has_bit at 1.
  destruct (bit_at _ _) as [[]| |]; simpl; rewrite ?IH; split; intros; destruct_and?; done.
Qed.

Lemma bloom_insert_ok f key :
  bloom_wf f -> exists f', bloom_insert f key = Ok f' /\ bloom_wf f' /\
    hash_count f' = hash_count f /\ might_contain f' key = Ok true /\
    (forall k, might_contain f k = Ok true -> might_contain f' k = Ok true).
Proof.
  unfold bloom_wf, bloom_insert, might_contain. intros Hwf.
  edestruct insert_loop_spec as (b & -> & Hl & Hb & Hm); [done|]. simpl.
  eexists. split; [done|]. simpl. rewrite Hl. split_and!; [done | done | |].
  - apply all_bits_spec; [lia|]. by rewrite Hl.
  - intros k. rewrite !all_bits_spec, Hl by lia. intros H.
    eapply Forall_impl; [exact H|]. intros i. apply Hm.
    pose proof (slot_range (len (bits f)) (crc32 k) (crc32_seeded k BLOOM_SALT) i Hwf). lia.
Qed.

Lemma might_contain_ok f key : bloom_wf f -> exists b, might_contain f key = Ok b.
Proof.
  unfold bloom_wf, might_contain. intros Hwf.
  induction (rounds (hash_count f)) as [|i rs IH]; simpl; [eauto|].
  rewrite bit_index_slot by done. simpl.
  set (j := slot _ _ _ _).
  assert (Hj : 0 <= j < len (bits f) * 8) by (by apply slot_range).
  destruct (slot_lookup (bits f) j Hj) as [b Hb].
  rewrite (bit_at_testbit _ _ b) by (done || lia). simpl. case_match; eauto.
Qed.

Definition bloom_insert_all (f : BloomFilter) (keys : list str) : result BloomFilter :=
  rfold bloom_insert f keys.

Lemma bloom_insert_all_ok f keys :
  bloom_wf f -> exists f', bloom_insert_all f keys = Ok f' /\ bloom_wf f' /\
    hash_count f' = hash_count f /\
    (forall k, might_contain f k = Ok true -> might_contain f' k = Ok true) /\
    Forall (fun k => might_contain f' k = Ok true) keys.
Proof.
  unfold bloom_insert_all. revert f. induction keys as [|k keys IH]; intros f Hf; simpl.
  { exists f. auto. }
  destruct (bloom_insert_ok f k Hf) as (f1 & -> & Hf1 & Hh1 & Hk1 & Hm1). simpl.
  destruct (IH f1 Hf1) as (f2 & -> & Hf2 & Hh2 & Hm2 & Hk2).
  exists f2. split_and!; try done; [congruence | auto | constructor; auto].
Qed.

Lemma bloom_new_wf size hc : 0 < size -> bloom_wf (bloom_new size hc).
Proof. intros. unfold bloom_wf, bloom_new, len. simpl. rewrite length_replicate. lia. Qed.

(** ** Properties *)

(** C40: a Bloom filter has no false negative. Starting from an empty filter
    of at least one byte, inserting a list of keys neither panics nor loses
    any of them: [might_contain] then answers [true] on each. *)
Theorem bloom_no_false_negative (size hc : Z) (keys : list str) :
  0 < size ->
  exists f, bloom_insert_all (bloom_new size hc) keys = Ok f /\
            forall k, k ∈ keys -> might_contain f k = Ok true.
Proof.
  intros Hs. destruct (bloom_insert_all_ok _ keys (bloom_new_wf size hc Hs))
    as (f & Hf & _ & _ & _ & Hk).
  exists f. split; [done|]. by apply Forall_forall.
Qed.

Lemma bloom_no_false_negative_witness :
  exists f, bloom_insert_all (bloom_new 2 7) [bs "a"; bs "b"] = Ok f /\
            forall k, k ∈ [bs "a"; bs "b"] -> might_contain f k = Ok true.
Proof. apply (bloom_no_false_negative 2 7 [bs "a"; bs "b"]). lia. Defined.

(** On an empty bit array the remainder by zero panics. *)
Lemma bloom_empty_panics hc key :
  0 < hc -> might_contain (mkBloom [] hc) key = Panic.
Proof.
  intros. unfold might_contain, rounds. simpl.
  destruct (Z.to_nat hc) eqn:E; [lia|]. done.
Qed.
