(* ===== verification/Record.v ===== *)
(** * On-disk records (src/src/record.rs)

    The record format shared by segment files, the write-ahead log and SSTable
    blocks. *)

From S2P Require Import Prelude Utf8 Crc.

Definition SIZE_FIELD_LEN : Z := 8.
Definition FLAGS_LEN : Z := 1.
Definition CRC_LEN : Z := 4.
Definition RECORD_HEADER_LEN : Z := CRC_LEN + SIZE_FIELD_LEN * 2 + FLAGS_LEN.
Definition TTL_LEN : Z := 8.
Definition MAX_KEY_SIZE : Z := 1048576.
Definition MAX_VALUE_SIZE : Z := 1048576 * 5.

Definition FLAG_TOMBSTONE : Z := Z.shiftl 1 0.
Definition FLAG_HAS_EXPIRY : Z := Z.shiftl 1 1.

(** [flags & flag != 0]. *)
Definition flag_set (flags flag : Z) : bool := negb (Z.land flags flag =? 0).

Record RecordHeader := mkHeader {
  crc32_field : Z;
  key_size : Z;
  value_size : Z;
  flags : Z;
  expiry_ms : option Z
}.

(** The struct [Record] ([Record] is a keyword here). *)
Record Rec := mkRec {
  header : RecordHeader;
  key : str;
  value : str
}.

Definition expiry_len (e : option Z) : Z :=
  match e with Some _ => TTL_LEN | None => 0 end.

Definition size_on_disk (r : Rec) : Z :=
  wrap64 (RECORD_HEADER_LEN + expiry_len (expiry_ms (header r))
          + key_size (header r) + value_size (header r)).

Definition expiry_bytes (e : option Z) : bytes :=
  match e with Some ms => to_be 8 ms | None => [] end.

(** What the checksum covers, as [read_next] and [to_be_bytes] assemble it:
    sizes, flags, the expiry if any, key and value. *)
Definition header_bytes (h : RecordHeader) : bytes :=
  to_be 8 (key_size h) ++ to_be 8 (value_size h) ++ [as_u8 (flags h)]
  ++ expiry_bytes (expiry_ms h).

Definition payload (h : RecordHeader) (k v : bytes) : bytes :=
  header_bytes h ++ k ++ v.

Definition to_be_bytes (r : Rec) : bytes :=
  let p := payload (header r) (key r) (value r) in
  to_be 4 (crc32 p) ++ p.

(** [Record::append]: seek to the end, write; the offset of the record and
    the new contents of the file. *)
Definition append (r : Rec) (file : bytes) : Z * bytes :=
  (len file, file ++ to_be_bytes r).

Definition read_header : Reader RecordHeader :=
  let! c := read_uint 4 in
  let! k := read_uint 8 in
  let! v := read_uint 8 in
  let! f := read_uint 1 in
  let! e := (if flag_set f FLAG_HAS_EXPIRY
             then let! ms := read_uint 8 in rd_ret (Some ms)
             else rd_ret None) in
  rd_ret (mkHeader c k v f e).

Definition read_next : Reader Rec :=
  let! h := read_header in
  let! _ := rd_lift (if (MAX_KEY_SIZE <? key_size h) || (MAX_VALUE_SIZE <? value_size h)
                     then Err InvalidInput else Ok tt) in
  let! k_buf := read_exact (key_size h) in
  let! v_buf := read_exact (value_size h) in
  let! _ := rd_lift (if crc32 (payload h k_buf v_buf) =? crc32_field h
                     then Ok tt else Err InvalidData) in
  let! k := rd_lift (from_utf8 k_buf) in
  let! v := rd_lift (from_utf8 v_buf) in
  rd_ret (mkRec h k v).

(** [seek(SeekFrom::Start(offset))] then [read_next]. Seeking past the end is
    not an error; the read is. *)
Definition read_record_at (file : bytes) (offset : Z) : result Rec :=
  let? p := read_next (drop (Z.to_nat offset) file) in Ok p.1.

Definition set_ttl (h : RecordHeader) (ms : Z) : RecordHeader :=
  mkHeader (crc32_field h) (key_size h) (value_size h) (flags h) (Some ms).

Definition is_tombstone (h : RecordHeader) : bool := flag_set (flags h) FLAG_TOMBSTONE.

(** The record the writers of the program build: sizes from the strings,
    flags from the tombstone bit and the presence of an expiry. *)
Definition make_record (k v : str) (tombstone : bool) (e : option Z) : Rec :=
  mkRec (mkHeader 0 (len k) (len v)
           (Z.lor (if tombstone then FLAG_TOMBSTONE else 0)
                  (match e with Some _ => FLAG_HAS_EXPIRY | None => 0 end)) e) k v.

(** ** Well-formed records *)

Definition expiry_ok (e : option Z) : Prop :=
  match e with Some ms => is_u64 ms | None => True end.

Record rec_wf (r : Rec) : Prop := {
  wf_key_size : key_size (header r) = len (key r);
  wf_value_size : value_size (header r) = len (value r);
  wf_key_max : len (key r) <= MAX_KEY_SIZE;
  wf_value_max : len (value r) <= MAX_VALUE_SIZE;
  wf_flags : is_u8 (flags (header r));
  wf_expiry : expiry_ok (expiry_ms (header r));
  wf_has_expiry : flag_set (flags (header r)) FLAG_HAS_EXPIRY
                  = bool_decide (is_Some (expiry_ms (header r)));
  wf_key_utf8 : utf8_valid (key r) = true;
  wf_value_utf8 : utf8_valid (value r) = true
}.

(** What a reader gets back: the record with its checksum filled in. *)
Definition sealed (r : Rec) : Rec :=
  mkRec (mkHeader (crc32 (payload (header r) (key r) (value r)))
           (key_size (header r)) (value_size (header r)) (flags (header r))
           (expiry_ms (header r))) (key r) (value r).

(** A file of records. *)
Definition recs_bytes (rs : list Rec) : bytes := concat (map to_be_bytes rs).

(** ** Lemmas *)

Lemma recs_bytes_app rs rs' : recs_bytes (rs ++ rs') = recs_bytes rs ++ recs_bytes rs'.
Proof. unfold recs_bytes. by rewrite map_app, concat_app. Qed.

Lemma payload_sealed r k v : payload (header (sealed r)) k v = payload (header r) k v.
Proof. done. Qed.

Lemma is_u64_be z : is_u64 z -> 0 <= z < 256 ^ Z.of_nat 8.
Proof. done. Qed.

Lemma len_expiry_bytes e : len (expiry_bytes e) = expiry_len e.
Proof. by destruct e. Qed.

Lemma len_to_be_bytes r :
  len (to_be_bytes r) =
  RECORD_HEADER_LEN + expiry_len (expiry_ms (header r)) + len (key r) + len (value r).
Proof.
  unfold to_be_bytes, payload, header_bytes. rewrite !len_app, !len_to_be, len_expiry_bytes.
  unfold RECORD_HEADER_LEN, CRC_LEN, SIZE_FIELD_LEN, FLAGS_LEN. simp_len. lia.
Qed.

Lemma to_be_bytes_nonempty r : to_be_bytes r <> [].
Proof. done. Qed.

Lemma read_flag f k : is_u8 f -> read_uint 1 (as_u8 f :: k) = Ok (f, k).
Proof.
  intros Hf. change (as_u8 f :: k) with ([as_u8 f] ++ k).
  replace [as_u8 f] with (to_be 1 f) by (unfold to_be; by rewrite Z.shiftr_0_r).
  by apply read_uint_app.
Qed.

(** Reading back a written header, whatever follows it. *)
Lemma read_header_app h k :
  is_u32 (crc32_field h) -> is_u64 (key_size h) -> is_u64 (value_size h) ->
  is_u8 (flags h) -> expiry_ok (expiry_ms h) ->
  flag_set (flags h) FLAG_HAS_EXPIRY = bool_decide (is_Some (expiry_ms h)) ->
  read_header (to_be 4 (crc32_field h) ++ header_bytes h ++ k) = Ok (h, k).
Proof.
  unfold header_bytes. rewrite <- !app_assoc.
  destruct h as [c ks vs f e]; cbn. intros Hc Hk Hv Hf He Hfe. unfold read_header.
  erewrite rd_bind_Ok by (by apply read_uint_app).
  erewrite rd_bind_Ok by (by apply read_uint_app).
  erewrite rd_bind_Ok by (by apply read_uint_app).
  erewrite rd_bind_Ok by (by apply read_flag).
  rewrite Hfe. destruct e as [ms|].
  - rewrite bool_decide_true by eauto.
    erewrite rd_bind_Ok by (erewrite rd_bind_Ok by (by apply read_uint_app); done).
    done.
  - done.
Qed.

Lemma wf_sizes r : rec_wf r -> is_u64 (key_size (header r)) /\ is_u64 (value_size (header r)).
Proof.
  intros []. unfold is_uint, MAX_KEY_SIZE, MAX_VALUE_SIZE in *.
  pose proof (len_nonneg (key r)); pose proof (len_nonneg (value r)). lia.
Qed.

(** Everything after the header, for a stored checksum [c] and any body of
    the announced length. *)
Lemma read_next_body h kb vb rest :
  is_u32 (crc32_field h) -> is_u8 (flags h) -> expiry_ok (expiry_ms h) ->
  flag_set (flags h) FLAG_HAS_EXPIRY = bool_decide (is_Some (expiry_ms h)) ->
  key_size h = len kb -> value_size h = len vb ->
  len kb <= MAX_KEY_SIZE -> len vb <= MAX_VALUE_SIZE ->
  read_next (to_be 4 (crc32_field h) ++ payload h kb vb ++ rest) =
  if crc32 (payload h kb vb) =? crc32_field h then
    let? k := from_utf8 kb in let? v := from_utf8 vb in Ok (mkRec h k v, rest)
  else Err InvalidData.
Proof.
  intros Hc Hf He Hfe Hk Hv Hkm Hvm. unfold read_next.
  assert (is_u64 (key_size h) /\ is_u64 (value_size h)) as [Hks Hvs].
  { unfold is_uint, MAX_KEY_SIZE, MAX_VALUE_SIZE in *.
    pose proof (len_nonneg kb); pose proof (len_nonneg vb). lia. }
  erewrite rd_bind_Ok with (a := h) (k := kb ++ vb ++ rest).
  2:{ rewrite <- read_header_app with (k := kb ++ vb ++ rest) by done.
      f_equal. unfold payload. by rewrite <- !app_assoc. }
  rewrite Hk, Hv, !(proj2 (Z.ltb_ge _ _)) by done. simpl orb.
  erewrite rd_bind_Ok by done.
  erewrite rd_bind_Ok by (by apply read_exact_app).
  erewrite rd_bind_Ok by (by apply read_exact_app).
  destruct (crc32 _ =? _); [|done]. erewrite rd_bind_Ok by done.
  unfold rd_bind, rd_lift, from_utf8.
  destruct (utf8_valid kb), (utf8_valid vb); done.
Qed.

Lemma read_next_app r k :
  rec_wf r -> read_next (to_be_bytes r ++ k) = Ok (sealed r, k).
Proof.
  intros [Hk Hv Hkm Hvm Hf He Hfe Hku Hvu]. unfold to_be_bytes. rewrite <- app_assoc.
  change (to_be 4 _) with (to_be 4 (crc32_field (header (sealed r)))).
  change (payload _ _ _) with (payload (header (sealed r)) (key r) (value r)).
  rewrite (read_next_body (header (sealed r)) (key r) (value r) k);
    try done; [|apply crc32_u32].
  rewrite payload_sealed. cbn [crc32_field header sealed]. rewrite Z.eqb_refl.
  by rewrite !from_utf8_valid.
Qed.

#[export] Instance exact_read_header : ExactReader read_header.
Proof.
  unfold read_header. apply exact_bind; [apply _|intros c].
  apply exact_bind; [apply _|intros k]. apply exact_bind; [apply _|intros v].
  apply exact_bind; [apply _|intros f].
  apply exact_bind; [destruct (flag_set _ _); apply _ | apply _].
Qed.

#[export] Instance exact_read_next : ExactReader read_next.
Proof. unfold read_next. apply _. Qed.

#[export] Instance total_read_header : TotalReader read_header.
Proof.
  unfold read_header. do 4 (apply total_bind; [apply _|intros ?]).
  apply total_bind; [destruct (flag_set _ _); apply _ | apply _].
Qed.

#[export] Instance total_read_next : TotalReader read_next.
Proof.
  unfold read_next. apply total_bind; [apply _|intros h].
  apply total_bind; [apply total_lift; by case_match | intros _].
  do 2 (apply total_bind; [apply _|intros ?]).
  apply total_bind; [apply total_lift; by case_match | intros _].
  do 2 (apply total_bind; [apply total_lift, no_panic_from_utf8|intros ?]). apply _.
Qed.

(** A strict prefix of a written record reads as an end of file. *)
Lemma read_next_torn r p q :
  rec_wf r -> to_be_bytes r = p ++ q -> q <> [] -> read_next p = Err UnexpectedEof.
Proof.
  intros Hwf Hpq Hq. pose proof (read_next_app r [] Hwf) as Hr.
  destruct (exact_read_next _ _ _ Hr) as (c & Hc & _ & Hp).
  rewrite !app_nil_r in Hc. subst c. by apply (Hp p q).
Qed.

Lemma size_on_disk_len r : rec_wf r -> size_on_disk r = len (to_be_bytes r).
Proof.
  intros [Hk Hv Hkm Hvm _ _ _ _ _].
  unfold size_on_disk. rewrite len_to_be_bytes, Hk, Hv. apply wrap_small.
  pose proof (len_nonneg (key r)); pose proof (len_nonneg (value r)).
  unfold MAX_KEY_SIZE, MAX_VALUE_SIZE, RECORD_HEADER_LEN, CRC_LEN, SIZE_FIELD_LEN,
    FLAGS_LEN, expiry_len, TTL_LEN, is_uint in *.
  destruct (expiry_ms _); lia.
Qed.

(** Strings that fit the format, for the records the writers build. *)
Record kv_ok (k v : str) (e : option Z) : Prop := {
  ok_key_max : len k <= MAX_KEY_SIZE;
  ok_value_max : len v <= MAX_VALUE_SIZE;
  ok_key_utf8 : utf8_valid k = true;
  ok_value_utf8 : utf8_valid v = true;
  ok_expiry : expiry_ok e
}.

Lemma make_record_wf k v t e : kv_ok k v e -> rec_wf (make_record k v t e).
Proof.
  intros []. split; try done; destruct t, e; by repeat split.
Qed.

Lemma make_record_tombstone k v t e : is_tombstone (header (make_record k v t e)) = t.
Proof. by destruct t, e. Qed.

Lemma sealed_key r : key (sealed r) = key r. Proof. done. Qed.
Lemma sealed_value r : value (sealed r) = value r. Proof. done. Qed.
Lemma sealed_tombstone r : is_tombstone (header (sealed r)) = is_tombstone (header r).
Proof. done. Qed.
Lemma sealed_expiry r : expiry_ms (header (sealed r)) = expiry_ms (header r).
Proof. done. Qed.

Lemma read_record_at_app pre r post :
  rec_wf r -> read_record_at (pre ++ to_be_bytes r ++ post) (len pre) = Ok (sealed r).
Proof.
  intros. unfold read_record_at. rewrite to_nat_len, drop_app_length.
  by rewrite read_next_app.
Qed.

Lemma read_next_oversize r rest :
  is_u64 (key_size (header r)) -> is_u64 (value_size (header r)) ->
  is_u8 (flags (header r)) -> expiry_ok (expiry_ms (header r)) ->
  flag_set (flags (header r)) FLAG_HAS_EXPIRY = bool_decide (is_Some (expiry_ms (header r))) ->
  MAX_KEY_SIZE < key_size (header r) \/ MAX_VALUE_SIZE < value_size (header r) ->
  read_next (to_be_bytes r ++ rest) = Err InvalidInput.
Proof.
  intros Hk Hv Hf He Hfe Hmax. unfold read_next, to_be_bytes. rewrite <- app_assoc.
  erewrite rd_bind_Ok with (a := header (sealed r)) (k := key r ++ value r ++ rest).
  2:{ rewrite <- read_header_app with (k := key r ++ value r ++ rest); try done;
        [|apply crc32_u32]. f_equal. unfold payload. by rewrite <- !app_assoc. }
  cbn [key_size value_size header sealed].
  assert ((MAX_KEY_SIZE <? key_size (header r)) || (MAX_VALUE_SIZE <? value_size (header r))
          = true) as ->; [|done].
  apply orb_true_iff. destruct Hmax; [left|right]; by apply Z.ltb_lt.
Qed.

(** ** Properties *)

(** A small record used by the witnesses. *)
Definition rec_ex : Rec := make_record (bs "key") (bs "value") false (Some 1700000000000).

Lemma rec_ex_wf : rec_wf rec_ex.
Proof. apply make_record_wf. split; vm_compute; done. Defined.

(** C33: a record appended to a file of any contents is read back at the
    offset [append] returned, with key, value, flags and expiry intact,
    whatever is appended after it. *)
Theorem record_append_roundtrip (r : Rec) (file later : bytes) :
  rec_wf r ->
  let (offset, file') := append r file in
  read_record_at (file' ++ later) offset = Ok (sealed r).
Proof.
  intros Hwf. unfold append. rewrite <- app_assoc. by apply read_record_at_app.
Qed.

Lemma record_append_roundtrip_witness :
  read_record_at ((append rec_ex (bs "xyz")).2 ++ bs "later") 3 = Ok (sealed rec_ex).
Proof. exact (record_append_roundtrip rec_ex (bs "xyz") (bs "later") rec_ex_wf). Defined.

(** A record that was only partly written is reported as
    [UnexpectedEof], wherever the write stopped; it is never mistaken for a
    record nor for corrupt data. *)
Theorem record_torn_write (r : Rec) (n : nat) :
  rec_wf r -> (n < length (to_be_bytes r))%nat ->
  read_next (take n (to_be_bytes r)) = Err UnexpectedEof.
Proof.
  intros Hwf Hn. apply (read_next_torn r _ (drop n (to_be_bytes r))); [done| |].
  - by rewrite take_drop.
  - intros H. apply (f_equal length) in H. rewrite length_drop, length_nil in H. lia.
Qed.

Lemma record_torn_write_witness : read_next (take 20 (to_be_bytes rec_ex)) = Err UnexpectedEof.
Proof. apply record_torn_write; [exact rec_ex_wf | vm_compute; lia]. Defined.

(** C34: the record checksum catches every corruption confined to at most four
    consecutive bytes of the stored key and value. *)
Theorem record_corruption_detected (r : Rec) (x w w' y k' v' rest : bytes) :
  rec_wf r ->
  key r ++ value r = x ++ w ++ y -> k' ++ v' = x ++ w' ++ y ->
  length k' = length (key r) ->
  length w = length w' -> (length w <= 4)%nat -> w <> w' ->
  read_next (to_be 4 (crc32 (payload (header r) (key r) (value r)))
             ++ payload (header r) k' v' ++ rest) = Err InvalidData.
Proof.
  intros [Hk Hv Hkm Hvm Hf He Hfe _ _] Hxy Hxy' Hlk Hlw H4 Hne.
  assert (Hlv : length v' = length (value r)).
  { apply (f_equal length) in Hxy, Hxy'. rewrite !length_app in *. lia. }
  change (to_be 4 _) with (to_be 4 (crc32_field (header (sealed r)))).
  change (payload (header r) k' v') with (payload (header (sealed r)) k' v').
  unfold len in *.
  rewrite read_next_body; unfold len; cbn [crc32_field key_size value_size sealed header];
    try done; try lia; [|apply crc32_u32].
  change (crc32 (payload _ k' v')) with (crc32 (payload (header r) k' v')).
  rewrite (proj2 (Z.eqb_neq _ _)); [done|].
  unfold payload. rewrite Hxy, Hxy'. rewrite !(app_assoc (header_bytes (header r)) x).
  apply not_eq_sym, crc32_burst_ne; done.
Qed.

Lemma record_corruption_detected_witness :
  read_next (to_be 4 (crc32 (payload (header rec_ex) (bs "key") (bs "value")))
             ++ payload (header rec_ex) (bs "key") (bs "vXYue") ++ []) = Err InvalidData.
Proof.
  apply (record_corruption_detected rec_ex (bs "keyv") (bs "al") (bs "XY") (bs "ue")
           (bs "key") (bs "vXYue") []); try reflexivity;
    [exact rec_ex_wf | simpl; lia | discriminate].
Defined.

(** A record larger than the limits can be written but never read back:
    every reader rejects it with [InvalidInput]. *)
Theorem record_oversize_rejected (k v : str) (t : bool) (e : option Z) (rest : bytes) :
  is_u64 (len k) -> is_u64 (len v) -> expiry_ok e ->
  MAX_KEY_SIZE < len k \/ MAX_VALUE_SIZE < len v ->
  read_next (to_be_bytes (make_record k v t e) ++ rest) = Err InvalidInput.
Proof.
  intros Hk Hv He Hmax. apply read_next_oversize; try done; by destruct t, e.
Qed.

Lemma record_oversize_rejected_witness :
  exists k, len k = 1048577 /\
    read_next (to_be_bytes (make_record k [] false None) ++ []) = Err InvalidInput.
Proof.
  exists (replicate (Z.to_nat 1048577) (as_u8 97)).
  assert (H : len (replicate (Z.to_nat 1048577) (as_u8 97)) = 1048577)
    by (unfold len; rewrite length_replicate; lia).
  revert H. generalize (replicate (Z.to_nat 1048577) (as_u8 97)). intros k H.
  split; [exact H|]. apply (record_oversize_rejected k [] false None []).
  - unfold is_uint. rewrite H. lia.
  - unfold is_uint, len. simpl. lia.
  - exact I.
  - left. rewrite H. reflexivity.
Defined.

(** [size_on_disk] is the number of bytes [append] adds to the file. *)
Theorem size_on_disk_append (r : Rec) (file : bytes) :
  rec_wf r -> len (append r file).2 = len file + size_on_disk r.
Proof. intros Hwf. simpl. by rewrite len_app, size_on_disk_len. Qed.

Lemma size_on_disk_append_witness :
  len (append rec_ex (bs "xyz")).2 = len (bs "xyz") + size_on_disk rec_ex.
Proof. apply (size_on_disk_append rec_ex (bs "xyz") rec_ex_wf). Defined.

(** [set_ttl] stores an expiry without raising [FLAG_HAS_EXPIRY]: the record
    is written with eight bytes its header does not announce, and does not
    read back. *)
Lemma set_ttl_breaks_record :
  let r := make_record (bs "k") (bs "v") false None in
  let r' := mkRec (set_ttl (header r) 5) (key r) (value r) in
  read_next (to_be_bytes r') = Err InvalidData /\
  size_on_disk r' = len (to_be_bytes r').
Proof. vm_compute. done. Qed.
