(* ===== verification/Collections.v ===== *)
(** * [BTreeMap<String, V>]

    The standard library's ordered map, as the list of its entries in key
    order: what its iterators yield and what [insert], [get], [remove],
    [retain] and [range] do. *)

From S2P Require Import Prelude.
From Stdlib Require Export Sorted.

Section btree.
Context {V : Type}.
Implicit Types (m : list (str * V)) (k : str) (v : V).

Fixpoint bt_get (k : str) (m : list (str * V)) : option V :=
  match m with
  | [] => None
  | (k', v) :: m' => if decide (k = k') then Some v else bt_get k m'
  end.

Fixpoint bt_insert (k : str) (v : V) (m : list (str * V)) : list (str * V) :=
  match m with
  | [] => [(k, v)]
  | (k', v') :: m' =>
      match str_compare k k' with
      | Lt => (k, v) :: (k', v') :: m'
      | Eq => (k, v) :: m'
      | Gt => (k', v') :: bt_insert k v m'
      end
  end.

Definition bt_remove (k : str) (m : list (str * V)) : list (str * V) :=
  filter (fun p => p.1 <> k) m.

Definition bt_retain (f : str -> V -> bool) (m : list (str * V)) : list (str * V) :=
  filter (fun p => f p.1 p.2 = true) m.

(** [range((Included(lo), Included(hi)))]. *)
Definition bt_range (lo hi : str) (m : list (str * V)) : list (str * V) :=
  filter (fun p => str_leb lo p.1 = true /\ str_leb p.1 hi = true) m.

Definition bt_lt (p q : str * V) : Prop := str_lt p.1 q.1.

(** The representation invariant: strictly increasing keys. *)
Definition bt_wf (m : list (str * V)) : Prop := StronglySorted bt_lt m.

(** ** Lemmas *)

Lemma bt_get_insert_eq k v m : bt_get k (bt_insert k v m) = Some v.
Proof.
  induction m as [|[k' v'] m IH]; simpl; [by rewrite decide_True|].
  destruct (str_compare_spec k k') as [->|H|H]; simpl;
    rewrite ?decide_True by done; try done.
  rewrite decide_False; [done|]. intros ->. by apply str_lt_irrefl in H.
Qed.

Lemma bt_get_insert_ne k k' v m : k <> k' -> bt_get k (bt_insert k' v m) = bt_get k m.
Proof.
  intros Hne. induction m as [|[k1 v1] m IH]; simpl; [by rewrite decide_False|].
  destruct (str_compare_spec k' k1) as [->|H|H]; simpl.
  - by rewrite !(decide_False (P := k = k1)).
  - by rewrite decide_False.
  - by rewrite IH.
Qed.

Lemma bt_get_insert k k' v m :
  bt_get k (bt_insert k' v m) = if decide (k = k') then Some v else bt_get k m.
Proof.
  case_decide; subst; [apply bt_get_insert_eq | by apply bt_get_insert_ne].
Qed.

Lemma bt_get_remove k k' m :
  bt_get k (bt_remove k' m) = if decide (k = k') then None else bt_get k m.
Proof.
  induction m as [|[k1 v1] m IH]; simpl; [by case_decide|].
  unfold bt_remove in *. rewrite filter_cons. simpl.
  destruct (decide (k1 = k')) as [->|Hne].
  - rewrite decide_False by (by intros []). rewrite IH.
    destruct (decide (k = k')); done.
  - rewrite decide_True by done. simpl. rewrite IH.
    destruct (decide (k = k1)) as [->|]; [by rewrite decide_False|done].
Qed.

Lemma bt_get_In k v m : bt_get k m = Some v -> (k, v) ∈ m.
Proof.
  induction m as [|[k1 v1] m IH]; simpl; [done|].
  case_decide; subst; intros; simplify_eq; [left | right; auto].
Qed.

Lemma bt_wf_cons_inv p m :
  bt_wf (p :: m) -> bt_wf m /\ Forall (bt_lt p) m.
Proof. intros H. by apply StronglySorted_inv in H. Qed.

Lemma bt_get_lt k m : Forall (fun p => str_lt k p.1) m -> bt_get k m = None.
Proof.
  induction 1 as [|[k1 v1] m H _ IH]; simpl in *; [done|].
  rewrite decide_False; [done|]. intros ->. by apply str_lt_irrefl in H.
Qed.

Lemma bt_In_get k v m : bt_wf m -> (k, v) ∈ m -> bt_get k m = Some v.
Proof.
  induction m as [|[k1 v1] m IH]; intros Hwf Hin; [by apply not_elem_of_nil in Hin|].
  apply bt_wf_cons_inv in Hwf as [Hwf Hall]. simpl.
  apply elem_of_cons in Hin as [[= -> ->]|Hin]; [by rewrite decide_True|].
  rewrite Forall_forall in Hall. specialize (Hall _ Hin). unfold bt_lt in Hall. simpl in Hall.
  rewrite decide_False; [auto|]. intros ->. by apply str_lt_irrefl in Hall.
Qed.

Lemma bt_insert_Forall (P : str * V -> Prop) k v m :
  P (k, v) -> Forall P m -> Forall P (bt_insert k v m).
Proof.
  intros Hp. induction 1 as [|[k1 v1] m H1 H2 IH]; simpl; [by constructor|].
  destruct (str_compare k k1); repeat constructor; auto.
Qed.

Lemma bt_insert_wf k v m : bt_wf m -> bt_wf (bt_insert k v m).
Proof.
  induction m as [|[k1 v1] m IH]; intros Hwf; simpl; [by repeat constructor|].
  apply bt_wf_cons_inv in Hwf as [Hwf Hall].
  destruct (str_compare_spec k k1) as [->|H|H].
  - by constructor.
  - constructor; [by constructor|]. constructor; [done|].
    eapply Forall_impl; [exact Hall|]. intros p Hp. by apply (str_lt_trans k k1).
  - constructor; [by apply IH|]. by apply bt_insert_Forall.
Qed.

Lemma StronglySorted_filter {A} (R : A -> A -> Prop) (P : A -> Prop) `{!forall x, Decision (P x)} l :
  StronglySorted R l -> StronglySorted R (filter P l).
Proof.
  induction 1 as [|x l H1 IH H2]; [constructor|]. rewrite filter_cons.
  case_decide; [|done]. constructor; [done|].
  rewrite Forall_forall in *. intros y Hy. apply list_elem_of_filter in Hy as [_ Hy]. auto.
Qed.

Lemma bt_remove_wf k m : bt_wf m -> bt_wf (bt_remove k m).
Proof. apply StronglySorted_filter. Qed.

Lemma bt_retain_wf f m : bt_wf m -> bt_wf (bt_retain f m).
Proof. apply StronglySorted_filter. Qed.

Lemma bt_get_filter_wf k v (P : str * V -> Prop) `{!forall x, Decision (P x)} m :
  bt_wf m -> bt_get k (filter P m) = Some v <-> bt_get k m = Some v /\ P (k, v).
Proof.
  intros Hwf. split.
  - intros Hg. apply bt_get_In, list_elem_of_filter in Hg as [HP Hin].
    split; [by apply bt_In_get | done].
  - intros [Hg HP]. apply bt_In_get; [by apply StronglySorted_filter|].
    apply list_elem_of_filter. split; [done | by apply bt_get_In].
Qed.

(** Maps with the same contents are the same list. *)
Lemma bt_ext m1 m2 :
  bt_wf m1 -> bt_wf m2 -> (forall k, bt_get k m1 = bt_get k m2) -> m1 = m2.
Proof.
  revert m2. induction m1 as [|[k1 v1] m1 IH]; intros [|[k2 v2] m2] H1 H2 Hext.
  - done.
  - specialize (Hext k2). simpl in Hext. by rewrite decide_True in Hext.
  - specialize (Hext k1). simpl in Hext. by rewrite decide_True in Hext.
  - apply bt_wf_cons_inv in H1 as [H1 A1]; apply bt_wf_cons_inv in H2 as [H2 A2].
    assert (k1 = k2) as ->.
    { destruct (str_lt_trichotomy k1 k2) as [H|[H|H]]; [|done|]; exfalso.
      - specialize (Hext k1). simpl in Hext. rewrite decide_True in Hext by done.
        rewrite decide_False in Hext by (by apply str_lt_ne).
        rewrite bt_get_lt in Hext; [done|].
        eapply Forall_impl; [exact A2|]. intros p Hp. by apply (str_lt_trans k1 k2).
      - specialize (Hext k2). simpl in Hext.
        rewrite decide_False, (decide_True (P := k2 = k2)) in Hext by (auto using str_lt_ne).
        rewrite bt_get_lt in Hext; [done|].
        eapply Forall_impl; [exact A1|]. intros p Hp. by apply (str_lt_trans k2 k1). }
    assert (v1 = v2) as ->.
    { specialize (Hext k2). simpl in Hext. rewrite !decide_True in Hext by done. congruence. }
    f_equal. apply IH; [done | done |]. intros k. specialize (Hext k). simpl in Hext.
    destruct (decide (k = k2)) as [->|]; [|done].
    by rewrite !bt_get_lt.
Qed.

Lemma bt_get_nil_inv m : (forall k, bt_get k m = None) -> m = [].
Proof.
  destruct m as [|[k v] m]; [done|]. intros H. specialize (H k). simpl in H.
  by rewrite decide_True in H.
Qed.

End btree.

(** The fold that rebuilds a map from its own entries. *)
Lemma bt_wf_nil {V} : bt_wf ([] : list (str * V)).
Proof. constructor. Qed.

#[export] Hint Resolve bt_wf_nil bt_insert_wf bt_remove_wf bt_retain_wf : rkv.

(** ** [sort_by_key], a stable sort *)

Section sort.
Context {A : Type} (f : A -> Z).

Fixpoint insert_by_key (x : A) (l : list A) : list A :=
  match l with
  | [] => [x]
  | y :: l' => if f x <=? f y then x :: y :: l' else y :: insert_by_key x l'
  end.

Definition sort_by_key (l : list A) : list A := foldr insert_by_key [] l.

Definition key_le (x y : A) : Prop := f x <= f y.

Lemma insert_by_key_perm x l : insert_by_key x l ≡ₚ x :: l.
Proof.
  induction l as [|y l IH]; simpl; [done|]. case_match; [done|].
  rewrite IH. by constructor.
Qed.

Lemma sort_by_key_perm l : sort_by_key l ≡ₚ l.
Proof. induction l as [|x l IH]; simpl; [done|]. by rewrite insert_by_key_perm, IH. Qed.

Lemma insert_by_key_sorted x l :
  StronglySorted key_le l -> StronglySorted key_le (insert_by_key x l).
Proof.
  induction 1 as [|y l Hl IH Hy]; simpl; [by repeat constructor|].
  destruct (Z.leb_spec (f x) (f y)).
  - constructor; [by constructor|]. constructor; [done|].
    eapply Forall_impl; [exact Hy|]. unfold key_le. lia.
  - constructor; [done|]. rewrite insert_by_key_perm. constructor; [unfold key_le; lia | done].
Qed.

Lemma sort_by_key_sorted l : StronglySorted key_le (sort_by_key l).
Proof. induction l; simpl; [constructor | by apply insert_by_key_sorted]. Qed.

(** Sorted lists with distinct keys are determined by their elements. *)
Lemma sorted_unique (l k : list A) :
  StronglySorted key_le l -> StronglySorted key_le k -> NoDup (f <$> l) -> l ≡ₚ k -> l = k.
Proof.
  revert k. induction l as [|x l IH]; intros k Hl Hk Hnd Hp.
  { by apply Permutation_nil_l in Hp. }
  destruct k as [|y k]; [by symmetry in Hp; apply Permutation_nil_cons in Hp|].
  apply StronglySorted_inv in Hl as [Hl Hx]. apply StronglySorted_inv in Hk as [Hk Hy].
  rewrite fmap_cons, NoDup_cons in Hnd. destruct Hnd as [Hn Hnd].
  assert (x = y) as ->.
  { assert (Hx' : x ∈ y :: k) by (rewrite <- Hp; left).
    assert (Hy' : y ∈ x :: l) by (rewrite Hp; left).
    apply elem_of_cons in Hx' as [?|Hx']; [done|].
    apply elem_of_cons in Hy' as [?|Hy']; [done|]. exfalso.
    rewrite Forall_forall in Hx, Hy. specialize (Hx _ Hy'). specialize (Hy _ Hx').
    apply Hn. apply list_elem_of_fmap. exists y. split; [unfold key_le in *; lia | done]. }
  f_equal. apply IH; try done. by apply Permutation_cons_inv in Hp.
Qed.

(** Sorting gives the only sorted arrangement of elements with distinct keys. *)
Lemma sort_by_key_unique l k :
  StronglySorted key_le k -> NoDup (f <$> k) -> l ≡ₚ k -> sort_by_key l = k.
Proof.
  intros Hk Hnd Hp. symmetry. apply sorted_unique; [done | apply sort_by_key_sorted | done |].
  by rewrite sort_by_key_perm.
Qed.

(** Strictly increasing keys are sorted and distinct. *)
Lemma keys_lt_sorted l : StronglySorted Z.lt (f <$> l) -> StronglySorted key_le l /\ NoDup (f <$> l).
Proof.
  induction l as [|x l IH]; cbn; intros H; [split; constructor|].
  apply StronglySorted_inv in H as [H Hx]. destruct (IH H) as [H1 H2]. rewrite Forall_forall in Hx.
  split; constructor; try done.
  - apply Forall_forall. intros y Hy. unfold key_le. apply Z.lt_le_incl, Hx. by apply list_elem_of_fmap_2.
  - intros Hin. apply Hx in Hin. lia.
Qed.

(** What a directory listing gives when each entry of interest is the name of
    one of the elements of [l]. *)
Lemma listing_perm {B} (g : B -> option A) (h : A -> B) dir l :
  NoDup dir -> NoDup l ->
  (forall n x, n ∈ dir -> g n = Some x -> n = h x /\ x ∈ l) ->
  (forall x, x ∈ l -> h x ∈ dir /\ g (h x) = Some x) -> omap g dir ≡ₚ l.
Proof.
  intros Hd Hl H1 H2. apply NoDup_Permutation; [|done|].
  - clear Hl H2. induction Hd as [|n dir Hn Hd IH]; [constructor|]. cbn [omap list_omap].
    assert (IH' : NoDup (omap g dir)) by (apply IH; intros; apply H1; [by right | done]).
    destruct (g n) as [x|] eqn:E; [|done]. constructor; [|done].
    intros Hin. apply list_elem_of_omap in Hin as (n' & Hn' & E').
    destruct (H1 n x) as [-> _]; [by left | done |].
    destruct (H1 n' x) as [-> _]; [by right | done | done].
  - intros x. rewrite list_elem_of_omap. split.
    + intros (n & Hn & E). by destruct (H1 n x).
    + intros Hx. exists (h x). by apply H2.
Qed.

Lemma sorted_listing {B} (g : B -> option A) (h : A -> B) dir l :
  NoDup dir -> StronglySorted Z.lt (f <$> l) ->
  (forall n x, n ∈ dir -> g n = Some x -> n = h x /\ x ∈ l) ->
  (forall x, x ∈ l -> h x ∈ dir /\ g (h x) = Some x) -> sort_by_key (omap g dir) = l.
Proof.
  intros Hd Hl H1 H2. destruct (keys_lt_sorted l Hl) as [Hs Hnd].
  apply sort_by_key_unique; [done | done |]. eapply listing_perm; try done.
  by eapply NoDup_fmap_1.
Qed.
End sort.
