(* ===== verification/Memtable.v ===== *)
(** * The in-memory table (src/src/memtable.rs)

    Values and tombstones by key, in key order, and an estimate of their size
    that wraps like the [usize] it is. *)

From S2P Require Import Prelude Collections Record.

Record MemtableEntry := mkEntry {
  mvalue : option str;      (* [None] is a tombstone *)
  mexpiry : option Z
}.

Record Memtable := mkMem {
  entries : list (str * MemtableEntry);
  size_bytes : Z
}.

Definition mem_new : Memtable := mkMem [] 0.

Definition entry (m : Memtable) (k : str) : option MemtableEntry := bt_get k (entries m).

Definition value_len (e : MemtableEntry) : Z :=
  match mvalue e with Some v => len v | None => 0 end.

(** [Memtable::insert]. The counter is a [usize]: its updates wrap. *)
Definition mem_insert (m : Memtable) (k v : str) (e : option Z) : Memtable :=
  let ttl_bytes := expiry_len e in
  let added := wrap64 (len k + len v + ttl_bytes) in
  let size1 :=
    match bt_get k (entries m) with
    | Some old => wrap64 (wrap64 (size_bytes m - value_len old) - expiry_len (mexpiry old))
    | None => wrap64 (size_bytes m + len k)
    end in
  mkMem (bt_insert k (mkEntry (Some v) e) (entries m)) (wrap64 (size1 + wrap64 (added - len k))).

Definition mem_remove (m : Memtable) (k : str) : Memtable :=
  let size1 :=
    match bt_get k (entries m) with
    | Some old => wrap64 (size_bytes m - value_len old)
    | None => wrap64 (size_bytes m + len k)
    end in
  mkMem (bt_insert k (mkEntry None None) (entries m)) size1.

Definition mem_clear (m : Memtable) : Memtable := mkMem [] 0.

(** What an entry is counted for. *)
Definition weight (p : str * MemtableEntry) : Z :=
  len p.1 + value_len p.2 + expiry_len (mexpiry p.2).

Fixpoint footprint (l : list (str * MemtableEntry)) : Z :=
  match l with
  | [] => 0
  | p :: l' => weight p + footprint l'
  end.

Definition mem_drop_tombstones (m : Memtable) : Memtable :=
  let kept := bt_retain (fun _ e => bool_decide (is_Some (mvalue e))) (entries m) in
  mkMem kept (wrap64 (footprint kept)).

(** The writes a memtable receives. *)
Inductive mem_op :=
  | MInsert (k v : str) (e : option Z)
  | MRemove (k : str)
  | MClear
  | MDropTombstones.

Definition mem_step (m : Memtable) (op : mem_op) : Memtable :=
  match op with
  | MInsert k v e => mem_insert m k v e
  | MRemove k => mem_remove m k
  | MClear => mem_clear m
  | MDropTombstones => mem_drop_tombstones m
  end.

Definition mem_run (m : Memtable) (ops : list mem_op) : Memtable := fold_left mem_step ops m.

(** ** Lemmas *)

Lemma weight_nonneg p : 0 <= weight p.
Proof.
  unfold weight, value_len, expiry_len, TTL_LEN. pose proof (len_nonneg p.1).
  destruct (mvalue p.2) as [v|], (mexpiry p.2); try pose proof (len_nonneg v); lia.
Qed.

Lemma footprint_nonneg l : 0 <= footprint l.
Proof. induction l as [|p l IH]; simpl; [done|]. pose proof (weight_nonneg p). lia. Qed.

Lemma footprint_get k e l : bt_get k l = Some e -> weight (k, e) <= footprint l.
Proof.
  induction l as [|[k1 e1] l IH]; simpl; [done|].
  pose proof (footprint_nonneg l); pose proof (weight_nonneg (k1, e1)).
  case_decide; intros; simplify_eq; [lia|]. specialize (IH ltac:(done)). lia.
Qed.

Lemma footprint_insert k e l :
  bt_wf l ->
  footprint (bt_insert k e l) =
  footprint l + weight (k, e)
  - match bt_get k l with Some old => weight (k, old) | None => 0 end.
Proof.
  induction l as [|[k1 e1] l IH]; intros Hwf; simpl; [lia|].
  apply bt_wf_cons_inv in Hwf as [Hwf Hall].
  destruct (str_compare_spec k k1) as [->|H|H]; simpl.
  - rewrite decide_True by done. lia.
  - rewrite decide_False by (by apply str_lt_ne).
    rewrite bt_get_lt; [lia|].
    eapply Forall_impl; [exact Hall|]. intros p Hp. by apply (str_lt_trans k k1).
  - rewrite decide_False by (by apply not_eq_sym, str_lt_ne). rewrite IH by done. lia.
Qed.

Record mem_wf (m : Memtable) : Prop := {
  mem_sorted : bt_wf (entries m);
  mem_counted : footprint (entries m) <= size_bytes m;
  mem_fits : size_bytes m < 2 ^ 64
}.

(** Bytes the counter attributes to the table beyond its contents. *)
Definition drift (m : Memtable) : Z := size_bytes m - footprint (entries m).

(** The expiry bytes a removal forgets to subtract. *)
Definition remove_leak (m : Memtable) (k : str) : Z :=
  match entry m k with Some old => expiry_len (mexpiry old) | None => 0 end.

Lemma expiry_len_range e : 0 <= expiry_len e <= 8.
Proof. destruct e; simpl; unfold TTL_LEN; lia. Qed.

Lemma value_len_nonneg e : 0 <= value_len e.
Proof. unfold value_len. destruct (mvalue e) as [v|]; [apply len_nonneg | lia]. Qed.

Lemma mem_insert_spec m k v e :
  mem_wf m -> size_bytes m + len k + len v + 8 < 2 ^ 64 ->
  mem_wf (mem_insert m k v e) /\
  drift (mem_insert m k v e) = drift m /\
  size_bytes (mem_insert m k v e) <= size_bytes m + len k + len v + 8.
Proof.
  intros [Hs Hc Hf] Hroom.
  pose proof (len_nonneg k); pose proof (len_nonneg v); pose proof (expiry_len_range e).
  pose proof (footprint_nonneg (entries m)).
  pose proof (footprint_insert k (mkEntry (Some v) e) (entries m) Hs) as HF.
  assert (Hsize : size_bytes (mem_insert m k v e) =
    size_bytes m + weight (k, mkEntry (Some v) e)
    - match bt_get k (entries m) with Some old => weight (k, old) | None => 0 end).
  { unfold mem_insert, weight. cbn [size_bytes fst snd mexpiry].
    change (value_len (mkEntry (Some v) e)) with (len v).
    rewrite (wrap_small 64 (len k + len v + _)) by (unfold is_uint; lia).
    rewrite (wrap_small 64 (len k + len v + _ - len k)) by (unfold is_uint; lia).
    destruct (bt_get k (entries m)) as [old|] eqn:E.
    - pose proof (footprint_get _ _ _ E) as Hg. unfold weight in Hg. cbn [fst snd] in Hg.
      pose proof (value_len_nonneg old); pose proof (expiry_len_range (mexpiry old)).
      rewrite (wrap_small 64 (size_bytes m - value_len old)) by (unfold is_uint; lia).
      rewrite (wrap_small 64 (size_bytes m - value_len old - _)) by (unfold is_uint; lia).
      rewrite wrap_small by (unfold is_uint; lia). lia.
    - rewrite (wrap_small 64 (size_bytes m + len k)) by (unfold is_uint; lia).
      rewrite wrap_small by (unfold is_uint; lia). lia. }
  assert (Hw : weight (k, mkEntry (Some v) e) <= len k + len v + 8)
    by (unfold weight, value_len; simpl; lia).
  assert (0 <= match bt_get k (entries m) with Some old => weight (k, old) | None => 0 end)
    by (destruct (bt_get k (entries m)); [apply weight_nonneg | lia]).
  split; [split | split].
  - by apply bt_insert_wf.
  - rewrite Hsize. cbn [mem_insert entries]. lia.
  - lia.
  - unfold drift. rewrite Hsize. cbn [mem_insert entries]. lia.
  - lia.
Qed.

Lemma mem_remove_spec m k :
  mem_wf m -> size_bytes m + len k < 2 ^ 64 ->
  mem_wf (mem_remove m k) /\
  drift (mem_remove m k) = drift m + remove_leak m k /\
  size_bytes (mem_remove m k) <= size_bytes m + len k.
Proof.
  intros [Hs Hc Hf] Hroom.
  pose proof (len_nonneg k). pose proof (footprint_nonneg (entries m)).
  pose proof (footprint_insert k (mkEntry None None) (entries m) Hs) as HF.
  unfold drift, remove_leak, entry, mem_remove in *.
  unfold weight in HF. cbn [fst snd mexpiry] in HF.
  change (value_len (mkEntry None None)) with 0 in HF. change (expiry_len None) with 0 in HF.
  destruct (bt_get k (entries m)) as [old|] eqn:E.
  - pose proof (footprint_get _ _ _ E) as Hg. unfold weight in Hg. cbn [fst snd] in Hg.
    pose proof (value_len_nonneg old); pose proof (expiry_len_range (mexpiry old)).
    assert (Hwr : wrap64 (size_bytes m - value_len old) = size_bytes m - value_len old)
      by (apply wrap_small; unfold is_uint; lia).
    split; [split | split]; cbn [entries size_bytes]; rewrite ?Hwr; try lia; by apply bt_insert_wf.
  - assert (Hwr : wrap64 (size_bytes m + len k) = size_bytes m + len k)
      by (apply wrap_small; unfold is_uint; lia).
    split; [split | split]; cbn [entries size_bytes]; rewrite ?Hwr; try lia; by apply bt_insert_wf.
Qed.

Lemma footprint_filter P `{!forall x, Decision (P x)} l : footprint (filter P l) <= footprint l.
Proof.
  induction l as [|p l IH]; [done|]. rewrite filter_cons. simpl.
  pose proof (weight_nonneg p). case_decide; simpl; lia.
Qed.

Lemma mem_drop_tombstones_spec m :
  mem_wf m -> mem_wf (mem_drop_tombstones m) /\ drift (mem_drop_tombstones m) = 0 /\
    size_bytes (mem_drop_tombstones m) <= size_bytes m.
Proof.
  intros [Hs Hc Hf]. unfold mem_drop_tombstones, drift.
  set (kept := bt_retain _ _).
  pose proof (footprint_filter (fun p => bool_decide (is_Some (mvalue p.2)) = true) (entries m)).
  change (filter _ (entries m)) with kept in *. pose proof (footprint_nonneg kept).
  cbn [entries size_bytes]. rewrite wrap_small by (unfold is_uint; lia).
  split; [|split; lia]. split; cbn [entries size_bytes]; try lia. by apply bt_retain_wf.
Qed.

Lemma mem_new_wf : mem_wf mem_new.
Proof. split; simpl; [constructor | lia | lia]. Qed.

Lemma entry_insert m k v e k' :
  entry (mem_insert m k v e) k' =
  if decide (k' = k) then Some (mkEntry (Some v) e) else entry m k'.
Proof. apply bt_get_insert. Qed.

Lemma entry_remove m k k' :
  entry (mem_remove m k) k' =
  if decide (k' = k) then Some (mkEntry None None) else entry m k'.
Proof. apply bt_get_insert. Qed.

Lemma mem_insert_sorted m k v e : bt_wf (entries m) -> bt_wf (entries (mem_insert m k v e)).
Proof. apply bt_insert_wf. Qed.

Lemma mem_remove_sorted m k : bt_wf (entries m) -> bt_wf (entries (mem_remove m k)).
Proof. apply bt_insert_wf. Qed.

#[export] Hint Resolve mem_new_wf mem_insert_sorted mem_remove_sorted : rkv.

(** An upper bound on what a write adds to the counter. *)
Definition op_bytes (op : mem_op) : Z :=
  match op with
  | MInsert k v _ => len k + len v + 8
  | MRemove k => len k
  | _ => 0
  end.

Fixpoint ops_bytes (ops : list mem_op) : Z :=
  match ops with [] => 0 | op :: ops' => op_bytes op + ops_bytes ops' end.

Lemma op_bytes_nonneg op : 0 <= op_bytes op.
Proof.
  destruct op as [k v e|k| |]; simpl; try lia; pose proof (len_nonneg k); [|lia].
  pose proof (len_nonneg v). lia.
Qed.

Lemma ops_bytes_nonneg ops : 0 <= ops_bytes ops.
Proof. induction ops as [|op ops IH]; simpl; [lia|]. pose proof (op_bytes_nonneg op). lia. Qed.

Lemma mem_step_wf m op :
  mem_wf m -> size_bytes m + op_bytes op < 2 ^ 64 ->
  mem_wf (mem_step m op) /\ size_bytes (mem_step m op) <= size_bytes m + op_bytes op.
Proof.
  intros Hwf Hroom. destruct op as [k v e|k| |]; cbn [mem_step op_bytes] in *.
  - destruct (mem_insert_spec m k v e) as (? & _ & ?); [done | lia | split; [done | lia]].
  - destruct (mem_remove_spec m k) as (? & _ & ?); [done | lia | done].
  - pose proof (footprint_nonneg (entries m)); destruct Hwf. split; [apply mem_new_wf | simpl; lia].
  - destruct (mem_drop_tombstones_spec m Hwf) as (? & _ & ?). split; [done | lia].
Qed.

Lemma mem_run_wf ops m :
  mem_wf m -> size_bytes m + ops_bytes ops < 2 ^ 64 -> mem_wf (mem_run m ops).
Proof.
  revert m. induction ops as [|op ops IH]; intros m Hwf Hroom; [done|].
  simpl in *. pose proof (ops_bytes_nonneg ops).
  destruct (mem_step_wf m op Hwf) as [Hwf' Hs]; [lia|]. apply IH; [done | lia].
Qed.

(** The abstract table: a finite map from keys to entries. *)
Definition mem_abs (m : Memtable) : gmap str MemtableEntry := list_to_map (entries m).

Definition spec_step (t : gmap str MemtableEntry) (op : mem_op) : gmap str MemtableEntry :=
  match op with
  | MInsert k v e => <[k := mkEntry (Some v) e]> t
  | MRemove k => <[k := mkEntry None None]> t
  | MClear => ∅
  | MDropTombstones => filter (fun p => is_Some (mvalue p.2)) t
  end.

Lemma mem_abs_lookup m k : mem_abs m !! k = entry m k.
Proof.
  unfold mem_abs, entry. induction (entries m) as [|[k1 e1] l IH]; simpl; [done|].
  rewrite lookup_insert. case_decide as E1; case_decide as E2; congruence.
Qed.

Lemma mem_step_abs m op :
  bt_wf (entries m) ->
  bt_wf (entries (mem_step m op)) /\ mem_abs (mem_step m op) = spec_step (mem_abs m) op.
Proof.
  intros Hs. split.
  - destruct op; simpl; [by apply bt_insert_wf | by apply bt_insert_wf | constructor |
      by apply bt_retain_wf].
  - apply map_eq. intros k'. rewrite mem_abs_lookup.
    destruct op as [k v e|k| |]; simpl mem_step; simpl spec_step.
    + rewrite entry_insert, lookup_insert, mem_abs_lookup.
      by case_decide as E1; case_decide as E2; subst.
    + rewrite entry_remove, lookup_insert, mem_abs_lookup.
      by case_decide as E1; case_decide as E2; subst.
    + done.
    + apply option_eq. intros e. rewrite map_lookup_filter_Some, mem_abs_lookup.
      unfold entry at 1, mem_drop_tombstones, bt_retain. cbn [entries].
      rewrite bt_get_filter_wf by done. simpl. by rewrite bool_decide_eq_true.
Qed.

(** ** Properties *)

(** C35: the memtable refines a finite map: after any sequence of inserts,
    removals, clears and tombstone purges its entries are strictly sorted by
    key and hold exactly what the same sequence leaves in the map (a removal
    leaving a tombstone, not a hole). *)
Theorem memtable_refines_map (ops : list mem_op) :
  bt_wf (entries (mem_run mem_new ops)) /\
  mem_abs (mem_run mem_new ops) = fold_left spec_step ops ∅.
Proof.
  unfold mem_run. change (∅ : gmap str MemtableEntry) with (mem_abs mem_new).
  assert (H : bt_wf (entries mem_new)) by constructor. revert H.
  generalize mem_new. induction ops as [|op ops IH]; intros m Hs; [done|]. simpl.
  destruct (mem_step_abs m op Hs) as [Hs' <-]. by apply IH.
Qed.

(** The size counter never underflows and never undercounts: as long as
    the bytes written fit in a [usize], [size_bytes] is at least the size of
    what the table holds. *)
Theorem memtable_size_bounds (ops : list mem_op) :
  ops_bytes ops < 2 ^ 64 ->
  footprint (entries (mem_run mem_new ops)) <= size_bytes (mem_run mem_new ops) < 2 ^ 64.
Proof. intros H. destruct (mem_run_wf ops mem_new mem_new_wf H). lia. Qed.

Lemma memtable_size_bounds_witness :
  footprint (entries (mem_run mem_new [MInsert (bs "k") (bs "v") (Some 5); MRemove (bs "k")]))
  <= size_bytes (mem_run mem_new [MInsert (bs "k") (bs "v") (Some 5); MRemove (bs "k")]) < 2 ^ 64.
Proof. apply memtable_size_bounds. vm_compute. reflexivity. Defined.

(** The counter is not exact. Overwriting keeps the difference between
    counter and contents, but removing a key whose value carries an expiry
    leaves its eight expiry bytes counted: the difference grows by
    [expiry_len] at each such removal. *)
Theorem memtable_remove_leaks_expiry (m : Memtable) (k : str) :
  mem_wf m -> size_bytes m + len k < 2 ^ 64 ->
  size_bytes (mem_remove m k) - footprint (entries (mem_remove m k)) =
  size_bytes m - footprint (entries m)
  + match entry m k with Some old => expiry_len (mexpiry old) | None => 0 end.
Proof. intros Hwf Hroom. by destruct (mem_remove_spec m k Hwf Hroom) as (_ & ? & _). Qed.

Lemma memtable_remove_leaks_expiry_witness :
  let m := mem_insert mem_new (bs "k") (bs "v") (Some 5) in
  size_bytes (mem_remove m (bs "k")) - footprint (entries (mem_remove m (bs "k"))) = 8.
Proof.
  set (m := mem_insert mem_new (bs "k") (bs "v") (Some 5)).
  cbv zeta. rewrite (memtable_remove_leaks_expiry m (bs "k")); [reflexivity | | reflexivity].
  apply (mem_run_wf [MInsert (bs "k") (bs "v") (Some 5)] mem_new mem_new_wf). reflexivity.
Defined.
