(* ===== verification/Wal.v ===== *)
(** * The write-ahead log (src/src/wal.rs)

    The log is a file of records; an operation is a function of the contents
    of that file. *)

From S2P Require Import Prelude Utf8 Crc Collections Record Memtable.

(** [Wal::append]: the offset of the record and the new contents. *)
Definition wal_append (file : bytes) (k v : str) (tombstone : bool) (e : option Z)
    : Z * bytes :=
  append (make_record k v tombstone e) file.

(** The effect of one replayed record. *)
Definition replay_record (m : Memtable) (r : Rec) : Memtable :=
  if is_tombstone (header r) then mem_remove m (key r)
  else mem_insert m (key r) (value r) (expiry_ms (header r)).

(** The loop of [Wal::replay]. [rest] is what remains of the file, so the
    loop condition [stream_position < file_size] is that it is not empty.
    Each turn reads a record, hence at least one byte: as much fuel as there
    are bytes is enough, and running out is a panic no input produces. *)
Fixpoint replay_loop (fuel : nat) (rest : bytes) (m : Memtable) : result Memtable :=
  match rest with
  | [] => Ok m
  | _ :: _ =>
      match fuel with
      | O => Panic
      | S fuel' =>
          match read_next rest with
          | Ok (r, rest') => replay_loop fuel' rest' (replay_record m r)
          | Err UnexpectedEof | Err InvalidData => Ok m
          | Err e => Err e
          | Panic => Panic
          end
      end
  end.

Definition replay (file : bytes) : result Memtable :=
  replay_loop (length file) file mem_new.

(** [Wal::reset]. *)
Definition wal_reset (file : bytes) : bytes := [].

(** A logged write: the arguments of [Wal::append]. *)
Record wal_op := mkWalOp {
  wkey : str; wvalue : str; wtombstone : bool; wexpiry : option Z
}.

Definition wal_op_ok (o : wal_op) : Prop := kv_ok (wkey o) (wvalue o) (wexpiry o).

Definition wal_record (o : wal_op) : Rec :=
  make_record (wkey o) (wvalue o) (wtombstone o) (wexpiry o).

(** The log after a sequence of appends. *)
Definition wal_log (file : bytes) (ops : list wal_op) : bytes :=
  fold_left (fun f o => (wal_append f (wkey o) (wvalue o) (wtombstone o) (wexpiry o)).2)
    ops file.

(** The memtable write a logged operation stands for. *)
Definition wal_mem_op (o : wal_op) : mem_op :=
  if wtombstone o then MRemove (wkey o) else MInsert (wkey o) (wvalue o) (wexpiry o).

(** ** Lemmas *)

Lemma read_next_consumes l r k : read_next l = Ok (r, k) -> (length k < length l)%nat.
Proof.
  intros H. destruct (exact_read_next _ _ _ H) as (c & -> & Hc & _).
  destruct c as [|b c]; [|rewrite length_app; simpl; lia].
  specialize (Hc []). simpl in Hc. by vm_compute in Hc.
Qed.

Lemma replay_loop_step fuel l m r k :
  read_next l = Ok (r, k) -> (length l <= fuel)%nat ->
  exists fuel', (length k <= fuel')%nat /\
    replay_loop fuel l m = replay_loop fuel' k (replay_record m r).
Proof.
  intros H Hf. pose proof (read_next_consumes _ _ _ H).
  destruct fuel as [|fuel]; [lia|]. destruct l as [|b l]; [simpl in *; lia|].
  exists fuel. split; [lia|]. simpl. by rewrite H.
Qed.

Lemma replay_record_wal m o :
  replay_record m (sealed (wal_record o)) = mem_step m (wal_mem_op o).
Proof.
  unfold replay_record, wal_mem_op. rewrite sealed_tombstone.
  unfold wal_record at 1. rewrite make_record_tombstone. by destruct (wtombstone o).
Qed.

(** A tail the replay stops at. *)
Definition stops (tail : bytes) : Prop :=
  tail = [] \/ read_next tail = Err UnexpectedEof \/ read_next tail = Err InvalidData.

Lemma replay_loop_stops fuel tail m :
  stops tail -> (length tail <= fuel)%nat -> replay_loop fuel tail m = Ok m.
Proof.
  intros Hs Hf. destruct tail as [|b tail]; [by destruct fuel|].
  destruct fuel as [|fuel]; [simpl in Hf; lia|]. simpl.
  by destruct Hs as [?|[->| ->]].
Qed.

Definition log_bytes (ops : list wal_op) : bytes :=
  concat (map (fun o => to_be_bytes (wal_record o)) ops).

Lemma wal_log_bytes file ops : wal_log file ops = file ++ log_bytes ops.
Proof.
  unfold wal_log, log_bytes. revert file.
  induction ops as [|o ops IH]; intros file; simpl; [by rewrite app_nil_r|].
  rewrite IH. by rewrite <- app_assoc.
Qed.

Lemma replay_loop_log ops fuel tail m :
  Forall wal_op_ok ops -> (length (log_bytes ops ++ tail) <= fuel)%nat ->
  exists fuel', (length tail <= fuel')%nat /\
    replay_loop fuel (log_bytes ops ++ tail) m =
    replay_loop fuel' tail (mem_run m (map wal_mem_op ops)).
Proof.
  intros Hok. revert fuel m. induction Hok as [|o ops Ho _ IH]; intros fuel m Hf.
  { exists fuel. done. }
  change (log_bytes (o :: ops)) with (to_be_bytes (wal_record o) ++ log_bytes ops) in *.
  rewrite <- app_assoc in *.
  assert (Hr : read_next (to_be_bytes (wal_record o) ++ log_bytes ops ++ tail)
               = Ok (sealed (wal_record o), log_bytes ops ++ tail))
    by (by apply read_next_app, make_record_wf).
  destruct (replay_loop_step fuel _ m _ _ Hr Hf) as (f1 & Hf1 & ->).
  rewrite replay_record_wal. apply (IH f1). done.
Qed.

Lemma no_panic_replay_loop fuel l m :
  (length l <= fuel)%nat -> no_panic (replay_loop fuel l m).
Proof.
  revert l m. induction fuel as [|fuel IH]; intros [|b l] m Hf; simpl in *; try done; [lia|].
  destruct (read_next (b :: l)) as [[r k]|e|] eqn:E; [|by destruct e|].
  - apply IH. apply read_next_consumes in E. simpl in E. lia.
  - by apply total_read_next in E.
Qed.

Lemma replay_tail ops tail :
  Forall wal_op_ok ops -> stops tail ->
  replay (log_bytes ops ++ tail) = Ok (mem_run mem_new (map wal_mem_op ops)).
Proof.
  intros Hok Hs. unfold replay.
  destruct (replay_loop_log ops _ tail mem_new Hok (le_n _)) as (f & Hf & ->).
  by apply replay_loop_stops.
Qed.

(** ** Properties *)

Definition wal_ex : list wal_op :=
  [mkWalOp (bs "a") (bs "1") false None; mkWalOp (bs "b") (bs "2") false (Some 99);
   mkWalOp (bs "a") [] true None].

Lemma wal_ex_ok : Forall wal_op_ok wal_ex.
Proof. repeat constructor; vm_compute; done. Defined.

(** C18: crash recovery. After any sequence of appends from an empty log,
    followed by any tail on which a record read fails with [UnexpectedEof] or
    [InvalidData], replaying rebuilds exactly the memtable those writes
    produce. *)
Theorem wal_replay_recovers (ops : list wal_op) (tail : bytes) :
  Forall wal_op_ok ops -> stops tail ->
  replay (wal_log [] ops ++ tail) = Ok (mem_run mem_new (map wal_mem_op ops)).
Proof. intros. rewrite wal_log_bytes. by apply replay_tail. Qed.

Lemma wal_replay_recovers_witness :
  replay (wal_log [] wal_ex ++ bs "torn") = Ok (mem_run mem_new (map wal_mem_op wal_ex)).
Proof.
  apply (wal_replay_recovers wal_ex (bs "torn")); [exact wal_ex_ok | right; left; reflexivity].
Defined.

(** A torn final append is harmless: if the crash cuts the last record
    anywhere, the replay is the one of the writes before it. *)
Theorem wal_torn_append (ops : list wal_op) (o : wal_op) (n : nat) :
  Forall wal_op_ok ops -> wal_op_ok o ->
  (n < length (to_be_bytes (wal_record o)))%nat ->
  replay (wal_log [] ops ++ take n (to_be_bytes (wal_record o)))
  = Ok (mem_run mem_new (map wal_mem_op ops)).
Proof.
  intros Hok Ho Hn. rewrite wal_log_bytes. apply replay_tail; [done|]. right. left.
  apply (read_next_torn (wal_record o) _ (drop n (to_be_bytes (wal_record o)))).
  - by apply make_record_wf.
  - by rewrite take_drop.
  - intros H. apply (f_equal length) in H. rewrite length_drop, length_nil in H. lia.
Qed.

Lemma wal_torn_append_witness :
  let o := mkWalOp (bs "c") (bs "3") false None in
  replay (wal_log [] wal_ex ++ take 10 (to_be_bytes (wal_record o)))
  = Ok (mem_run mem_new (map wal_mem_op wal_ex)).
Proof.
  apply wal_torn_append; [exact wal_ex_ok | split; vm_compute; done | vm_compute; lia].
Defined.

(** A replay always ends, with a memtable or an I/O error: whatever bytes
    the log holds, it neither panics nor loops. *)
Theorem wal_replay_total (file : bytes) : no_panic (replay file).
Proof. by apply no_panic_replay_loop. Qed.

(** A record over the size limits poisons the log. [Wal::append] accepts
    it, and from then on replaying fails with [InvalidInput], however many
    good records come before and after it. *)
Theorem wal_oversize_poisons (ops : list wal_op) (o : wal_op) (later : bytes) :
  Forall wal_op_ok ops ->
  is_u64 (len (wkey o)) -> is_u64 (len (wvalue o)) -> expiry_ok (wexpiry o) ->
  MAX_KEY_SIZE < len (wkey o) \/ MAX_VALUE_SIZE < len (wvalue o) ->
  replay (wal_log [] (ops ++ [o]) ++ later) = Err InvalidInput.
Proof.
  intros Hok Hk Hv He Hmax. rewrite wal_log_bytes. cbn [app]. unfold replay, log_bytes.
  rewrite map_app, concat_app. cbn [map concat]. rewrite app_nil_r, <- app_assoc.
  change (concat _) with (log_bytes ops).
  edestruct (replay_loop_log ops) as (f & Hf & ->); [done | done |].
  assert (Hr : read_next (to_be_bytes (wal_record o) ++ later) = Err InvalidInput)
    by (apply read_next_oversize; try done; by destruct o as [? ? [] []]).
  destruct (to_be_bytes (wal_record o) ++ later) as [|b l] eqn:E; [done|].
  destruct f as [|f]; [simpl in Hf; lia|]. simpl. by rewrite Hr.
Qed.

Lemma wal_oversize_poisons_witness :
  exists v, len v = 5242881 /\
    replay (wal_log [] (wal_ex ++ [mkWalOp (bs "big") v false None]) ++ []) = Err InvalidInput.
Proof.
  exists (replicate (Z.to_nat 5242881) (as_u8 97)).
  assert (H : len (replicate (Z.to_nat 5242881) (as_u8 97)) = 5242881)
    by (unfold len; rewrite length_replicate; lia).
  revert H. generalize (replicate (Z.to_nat 5242881) (as_u8 97)). intros v H.
  split; [exact H|]. apply wal_oversize_poisons; cbn [wkey wvalue wexpiry].
  - exact wal_ex_ok.
  - unfold is_uint, len. simpl. lia.
  - unfold is_uint. rewrite H. lia.
  - exact I.
  - right. rewrite H. reflexivity.
Defined.
