(* ===== verification/Hint.v ===== *)
(** * Hint files (src/src/hint.rs)

    A hint file lists the live keys of a compacted segment with their offsets,
    so that a restart need not scan the segment. *)

From S2P Require Import Prelude Utf8 Record.

Record HintEntry := mkHint {
  hkey_size : Z;
  hoffset : Z;
  htombstone : bool;
  hexpiry : option Z;
  hkey : str
}.

Definition hint_flags (h : HintEntry) : Z :=
  Z.lor (if htombstone h then FLAG_TOMBSTONE else 0)
        (match hexpiry h with Some _ => FLAG_HAS_EXPIRY | None => 0 end).

Definition hint_bytes (h : HintEntry) : bytes :=
  to_be 8 (hkey_size h) ++ to_be 8 (hoffset h) ++ [as_u8 (hint_flags h)]
  ++ expiry_bytes (hexpiry h) ++ hkey h.

(** The contents of the file [Hint::write_file] leaves (it truncates first). *)
Definition hint_write_file (entries : list HintEntry) : bytes :=
  fold_left (fun file h => file ++ hint_bytes h) entries [].

(** One turn of the loop of [Hint::read_file]. A key size beyond [isize::MAX]
    makes [vec![0u8; key_size]] panic before anything is read. *)
Definition hint_read_entry : Reader HintEntry :=
  let! key_size := read_uint 8 in
  let! offset := read_uint 8 in
  let! flags := read_uint 1 in
  let! e := (if flag_set flags FLAG_HAS_EXPIRY
             then let! ms := read_uint 8 in rd_ret (Some ms)
             else rd_ret None) in
  let! _ := rd_lift (if 2 ^ 63 - 1 <? key_size then Panic else Ok tt) in
  let! key_buf := read_exact key_size in
  let! key := rd_lift (from_utf8 key_buf) in
  rd_ret (mkHint key_size offset (flag_set flags FLAG_TOMBSTONE) e key).

(** The loop: it ends when the position reaches the size of the file. Each
    turn consumes at least the 17 bytes of the fixed part. *)
Fixpoint hint_read_loop (fuel : nat) (rest : bytes) (acc : list HintEntry)
    : result (list HintEntry) :=
  match rest with
  | [] => Ok acc
  | _ :: _ =>
      match fuel with
      | O => Panic
      | S fuel' =>
          let? p := hint_read_entry rest in
          hint_read_loop fuel' p.2 (acc ++ [p.1])
      end
  end.

Definition hint_read_file (file : bytes) : result (list HintEntry) :=
  hint_read_loop (length file) file [].

Record hint_wf (h : HintEntry) : Prop := {
  hwf_size : hkey_size h = len (hkey h);
  hwf_max : hkey_size h < 2 ^ 63;
  hwf_offset : is_u64 (hoffset h);
  hwf_expiry : expiry_ok (hexpiry h);
  hwf_utf8 : utf8_valid (hkey h) = true
}.

(** ** Lemmas *)

Lemma hint_flags_spec h :
  is_u8 (hint_flags h) /\
  flag_set (hint_flags h) FLAG_TOMBSTONE = htombstone h /\
  flag_set (hint_flags h) FLAG_HAS_EXPIRY = bool_decide (is_Some (hexpiry h)).
Proof. unfold hint_flags. by destruct (htombstone h), (hexpiry h). Qed.

Lemma hint_read_entry_app h k :
  hint_wf h -> hint_read_entry (hint_bytes h ++ k) = Ok (h, k).
Proof.
  intros [Hs Hm Ho He Hu]. destruct (hint_flags_spec h) as (Hf & Ht & Hx).
  unfold hint_read_entry, hint_bytes. rewrite <- !app_assoc.
  assert (is_u64 (hkey_size h))
    by (pose proof (len_nonneg (hkey h)); unfold is_uint; lia).
  erewrite rd_bind_Ok by (by apply read_uint_app).
  erewrite rd_bind_Ok by (by apply read_uint_app).
  erewrite rd_bind_Ok by (by apply read_flag).
  rewrite Hx, Ht.
  erewrite rd_bind_Ok with (a := hexpiry h) (k := hkey h ++ k).
  2:{ destruct (hexpiry h) as [ms|]; [|done]. rewrite bool_decide_true by eauto.
      by erewrite rd_bind_Ok by (by apply read_uint_app). }
  rewrite (proj2 (Z.ltb_ge _ _)) by lia.
  erewrite rd_bind_Ok by done.
  erewrite rd_bind_Ok by (by apply read_exact_app).
  unfold from_utf8. rewrite Hu. erewrite rd_bind_Ok by done.
  unfold rd_ret. by destruct h.
Qed.

Lemma hint_bytes_nonempty h k : hint_bytes h ++ k <> [].
Proof. done. Qed.

Lemma hint_write_file_eq entries : hint_write_file entries = concat (map hint_bytes entries).
Proof.
  unfold hint_write_file.
  assert (H : forall l, fold_left (fun file h => file ++ hint_bytes h) entries l
                        = l ++ concat (map hint_bytes entries)); [|by rewrite H].
  induction entries as [|h hs IH]; intros l; simpl; [by rewrite app_nil_r|].
  by rewrite IH, <- app_assoc.
Qed.

Lemma hint_read_loop_app hs fuel acc :
  Forall hint_wf hs -> (length (concat (map hint_bytes hs)) <= fuel)%nat ->
  hint_read_loop fuel (concat (map hint_bytes hs)) acc = Ok (acc ++ hs).
Proof.
  intros Hwf. revert fuel acc. induction Hwf as [|h hs Hh _ IH]; intros fuel acc Hf.
  { destruct fuel; simpl; by rewrite app_nil_r. }
  cbn [map concat] in *.
  destruct fuel as [|fuel].
  { apply Nat.le_0_r, length_zero_iff_nil in Hf. by apply hint_bytes_nonempty in Hf. }
  assert (Hl : (length (concat (map hint_bytes hs)) <= fuel)%nat)
    by (rewrite length_app in Hf; unfold hint_bytes in Hf at 1;
        rewrite !length_app, length_to_be in Hf; lia).
  pose proof (hint_read_entry_app h (concat (map hint_bytes hs)) Hh) as Hr.
  cbn [hint_read_loop].
  destruct (hint_bytes h ++ _) eqn:E; [by apply hint_bytes_nonempty in E|].
  rewrite Hr. cbn [rbind fst snd]. rewrite IH by done. by rewrite <- app_assoc.
Qed.

(** ** Properties *)

(** What [write_file] writes, [read_file] reads back, entry for entry. *)
Theorem hint_file_roundtrip (entries : list HintEntry) :
  Forall hint_wf entries -> hint_read_file (hint_write_file entries) = Ok entries.
Proof.
  intros Hwf. unfold hint_read_file. rewrite hint_write_file_eq.
  rewrite hint_read_loop_app by done. done.
Qed.

Lemma hint_file_roundtrip_witness :
  let es := [mkHint 1 0 false None (bs "a"); mkHint 2 77 false (Some 5) (bs "bc");
             mkHint 1 120 true None (bs "z")] in
  hint_read_file (hint_write_file es) = Ok es.
Proof. apply hint_file_roundtrip. repeat constructor; vm_compute; done. Defined.
