(* ===== verification/Lz77.v ===== *)
(** * LZ77 block compression (src/src/lz77.rs)

    Positions and lengths ([usize]) are naturals, [u32] values are integers.
    An out-of-range index, an invalid token and an over-long shift are
    panics. *)

From S2P Require Import Prelude.

Definition SEARCH_WINDOW : nat := Z.to_nat 32768.
Definition LOOKAHEAD_WINDOW : nat := 258.
Definition MAX_CHAIN : nat := 128.
Definition HASH_SIZE : Z := 32768.
Definition H_SHIFT : Z := 5.
Definition U32_MAX : Z := 4294967295.

(** ** The code *)

Definition rolling_hash (prev : Z) (b : byte) : Z :=
  Z.land (Z.lxor (wrap32 (Z.shiftl prev H_SHIFT)) (u8 b)) (HASH_SIZE - 1).

(** The [while] loop of [encode_varint]; a [u32] has at most five groups of
    seven bits, so five turns are enough. *)
Fixpoint encode_varint_loop (fuel : nat) (v : Z) : bytes :=
  match fuel with
  | O => [as_u8 (Z.land v 127)]
  | S fuel' =>
      if 128 <=? v
      then as_u8 (Z.lor (Z.land v 127) 128) :: encode_varint_loop fuel' (Z.shiftr v 7)
      else [as_u8 (Z.land v 127)]
  end.

Definition encode_varint (v : Z) : bytes := encode_varint_loop 5 v.

(** The loop of [decode_varint] from index [i]; [encoded] is the slice from
    there on. Shifting a [u32] by 32 or more overflows. *)
Fixpoint decode_varint_loop (encoded : bytes) (value shift : Z) (i : nat)
    : result (Z * nat) :=
  match encoded with
  | [] => Panic
  | b :: rest =>
      if 32 <=? shift then Panic else
      let value' := Z.lor value (wrap32 (Z.shiftl (Z.land (u8 b) 127) shift)) in
      if Z.land (u8 b) 128 =? 0 then Ok (value', S i)
      else decode_varint_loop rest value' (shift + 7) (S i)
  end.

Definition decode_varint (encoded : bytes) : result (Z * nat) :=
  match encoded with
  | [] => Ok (0, 0%nat)
  | _ :: _ => decode_varint_loop encoded 0 0 0
  end.

(** The copy loop of [decode]: it reads bytes it has itself just pushed when
    the match overlaps its own output. *)
Fixpoint copy_match (n i source_start : nat) (output : bytes) : result bytes :=
  match n with
  | O => Ok output
  | S n' =>
      match output !! (source_start + i)%nat with
      | None => Panic
      | Some b => copy_match n' (S i) source_start (output ++ [b])
      end
  end.

(** The loop of [decode] on the slice from the current position on. *)
Fixpoint decode_loop (fuel : nat) (rest output : bytes) : result bytes :=
  match rest with
  | [] => Ok output
  | token :: rest1 =>
      match fuel with
      | O => Panic
      | S fuel' =>
          if u8 token =? 0 then
            match rest1 with
            | [] => Panic
            | b :: rest2 => decode_loop fuel' rest2 (output ++ [b])
            end
          else if u8 token =? 1 then
            let? ov := decode_varint rest1 in
            let rest2 := drop ov.2 rest1 in
            let? lv := decode_varint rest2 in
            let rest3 := drop lv.2 rest2 in
            let offset := Z.to_nat ov.1 in
            if (length output <? offset)%nat then Panic else
            let source_start := (length output - offset)%nat in
            let? output' := copy_match (Z.to_nat lv.1) 0 source_start output in
            decode_loop fuel' rest3 output'
          else Panic
      end
  end.

Definition decode (data : bytes) : result bytes := decode_loop (length data) data [].

Record Match := mkMatch { offset : nat; mlen : nat }.

(** [a.iter().zip(b.iter()).take_while(|(a, b)| a == b).count()]. *)
Fixpoint common_prefix (a b : bytes) : nat :=
  match a, b with
  | x :: a', y :: b' => if decide (x = y) then S (common_prefix a' b') else O
  | _, _ => O
  end.

(** The candidate loop of [find_longest_match], at most [n] more turns. *)
Fixpoint chain_loop (n : nat) (data : bytes) (pos search_start : nat) (lookahead : bytes)
    (chain : list (option nat)) (candidate : nat) (best : Match) : result Match :=
  match n with
  | O => Ok best
  | S n' =>
      if (pos <=? candidate)%nat then
        match chain !! candidate with
        | None => Panic
        | Some (Some prev) => chain_loop n' data pos search_start lookahead chain prev best
        | Some None => Ok best
        end
      else if (candidate <? search_start)%nat then Ok best
      else
        let l := common_prefix (drop candidate data) lookahead in
        let best' := if (mlen best <? l)%nat then mkMatch (pos - candidate) l else best in
        match chain !! candidate with
        | None => Panic
        | Some (Some prev) => chain_loop n' data pos search_start lookahead chain prev best'
        | Some None => Ok best'
        end
  end.

Definition find_longest_match (data : bytes) (pos : nat) (hash : Z) (table : list Z)
    (chain : list (option nat)) : result (option Match) :=
  let lookahead := take LOOKAHEAD_WINDOW (drop pos data) in
  let search_start := (pos - SEARCH_WINDOW)%nat in
  if (length lookahead <? 3)%nat then Ok None else
  match table !! Z.to_nat hash with
  | None => Panic
  | Some first =>
      if first =? U32_MAX then Ok None else
      let? best := chain_loop MAX_CHAIN data pos search_start lookahead chain
                     (Z.to_nat first) (mkMatch 0 0) in
      if (mlen best <? 3)%nat then Ok None else Ok (Some best)
  end.

(** The encoder's index of earlier positions. *)
Record Index := mkIndex { table : list Z; chain : list (option nat); hash : Z }.

(** [if p + 3 <= data.len() { ... }]: link position [p] in front of its hash
    bucket. *)
Definition insert_position (data : bytes) (p : nat) (ix : Index) : result Index :=
  if (p + 3 <=? length data)%nat then
    match table ix !! Z.to_nat (hash ix) with
    | None => Panic
    | Some old_head =>
        if (p <? length (chain ix))%nat || (old_head =? U32_MAX) then
          Ok (mkIndex (<[Z.to_nat (hash ix) := wrap32 (Z.of_nat p)]> (table ix))
                (if old_head =? U32_MAX then chain ix
                 else <[p := Some (Z.to_nat old_head)]> (chain ix))
                (hash ix))
        else Panic
    end
  else Ok ix.

(** [if n < data.len() { hash = rolling_hash(hash, data[n]) }]. *)
Definition roll (data : bytes) (n : nat) (ix : Index) : Index :=
  match data !! n with
  | Some b => mkIndex (table ix) (chain ix) (rolling_hash (hash ix) b)
  | None => ix
  end.

(** The [for i in 0..best_match.len] loop. *)
Definition insert_match (data : bytes) (pos n : nat) (ix : Index) : result Index :=
  rfold (fun ix i =>
           let? ix' := insert_position data (pos + i) ix in
           Ok (roll data (pos + i + 3) ix')) ix (seq 0 n).

(** The main loop of [encode]: [pos] grows by at least one per turn, so
    [data.len()] turns are enough. *)
Fixpoint encode_loop (fuel : nat) (data : bytes) (pos : nat) (ix : Index) (output : bytes)
    : result bytes :=
  match data !! pos with
  | None => Ok output
  | Some b =>
      match fuel with
      | O => Panic
      | S fuel' =>
          let ix1 := roll data (pos + 2) ix in
          let? m := find_longest_match data pos (hash ix1) (table ix1) (chain ix1) in
          match m with
          | Some best =>
              let output' := output ++ [as_u8 1]
                               ++ encode_varint (wrap32 (Z.of_nat (offset best)))
                               ++ encode_varint (wrap32 (Z.of_nat (mlen best))) in
              let? ix2 := insert_match data pos (mlen best) ix1 in
              encode_loop fuel' data (pos + mlen best) ix2 output'
          | None =>
              let? ix2 := insert_position data pos ix1 in
              encode_loop fuel' data (pos + 1) ix2 (output ++ [as_u8 0; b])
          end
      end
  end.

Definition encode (data : bytes) : result bytes :=
  let ix0 := mkIndex (replicate (Z.to_nat HASH_SIZE) U32_MAX)
               (replicate (length data) None) 0 in
  let ix1 := roll data 0 ix0 in
  let ix2 := if (2 <=? length data)%nat then roll data 1 ix1 else ix1 in
  encode_loop (length data) data 0 ix2 [].

(** ** Lemmas: varints *)

Lemma land_127 v : 0 <= v -> Z.land v 127 = v mod 128.
Proof. intros. change 127 with (Z.ones 7). by rewrite Z.land_ones by lia. Qed.

Lemma lor_128 v : 0 <= v < 128 -> Z.lor v 128 = v + 128.
Proof.
  intros Hv. rewrite <- Z.add_nocarry_lor; [done|].
  apply Z.bits_inj'. intros i Hi. rewrite Z.land_spec, Z.bits_0.
  change 128 with (2 ^ 7). rewrite Z.pow2_bits_eqb by lia.
  destruct (Z.eqb_spec 7 i) as [<-|]; [|by rewrite andb_false_r].
  rewrite <- (Z.mod_small v (2 ^ 7)) by lia. by rewrite Z.mod_pow2_bits_high.
Qed.

Lemma land_128_small v : 0 <= v < 128 -> Z.land v 128 = 0.
Proof.
  intros Hv. apply Z.bits_inj'. intros i Hi. rewrite Z.land_spec, Z.bits_0.
  change 128 with (2 ^ 7). rewrite Z.pow2_bits_eqb by lia.
  destruct (Z.eqb_spec 7 i) as [<-|]; [|by rewrite andb_false_r].
  rewrite <- (Z.mod_small v (2 ^ 7)) by lia. by rewrite Z.mod_pow2_bits_high.
Qed.

Lemma land_128_big v : 0 <= v < 128 -> Z.land (v + 128) 128 <> 0.
Proof.
  intros Hv H. apply (f_equal (fun z => Z.testbit z 7)) in H.
  rewrite Z.land_spec, Z.bits_0, <- lor_128, Z.lor_spec in H by done.
  by rewrite andb_true_r, orb_true_r in H.
Qed.

(** Or-ing a value into clear high bits adds it. *)
Lemma lor_shiftl_disjoint a b s : 0 <= s -> 0 <= a < 2 ^ s -> Z.lor a (Z.shiftl b s) = a + b * 2 ^ s.
Proof.
  intros Hs Ha. rewrite <- Z.add_nocarry_lor; [by rewrite Z.shiftl_mul_pow2 by lia|].
  apply Z.bits_inj'. intros i Hi. rewrite Z.land_spec, Z.bits_0.
  destruct (decide (i < s)).
  - rewrite Z.shiftl_spec, (Z.testbit_neg_r _ (i - s)) by lia. by rewrite andb_false_r.
  - rewrite <- (Z.mod_small a (2 ^ s)) by lia. by rewrite Z.mod_pow2_bits_high by lia.
Qed.

Lemma decode_varint_loop_app fuel v acc shift i k :
  0 <= v -> 0 <= shift -> 0 <= acc < 2 ^ shift ->
  v < 128 ^ (Z.of_nat fuel + 1) -> v * 2 ^ shift < 2 ^ 32 -> shift < 32 ->
  decode_varint_loop (encode_varint_loop fuel v ++ k) acc shift i =
  Ok (acc + v * 2 ^ shift, (i + length (encode_varint_loop fuel v))%nat).
Proof.
  revert v acc shift i. induction fuel as [|fuel IH]; intros v acc shift i Hv Hs Ha Hf Hw H32.
  - simpl in Hf. cbn [encode_varint_loop app decode_varint_loop length].
    rewrite (proj2 (Z.leb_gt _ _)) by lia.
    rewrite land_127, Z.mod_small, as_u8_small by lia.
    rewrite land_127, Z.mod_small, land_128_small by lia. simpl Z.eqb. cbv iota.
    rewrite (wrap_small 32) by (unfold is_uint; rewrite Z.shiftl_mul_pow2 by lia; nia).
    rewrite lor_shiftl_disjoint by lia. do 2 f_equal. lia.
  - cbn [encode_varint_loop]. destruct (Z.leb_spec 128 v) as [Hge|Hlt].
    + cbn [app decode_varint_loop length].
      rewrite (proj2 (Z.leb_gt _ _)) by lia.
      assert (Hm : 0 <= v mod 128 < 128) by (apply Z.mod_pos_bound; lia).
      rewrite (land_127 v), lor_128, as_u8_small by lia.
      rewrite (proj2 (Z.eqb_neq _ _)) by (by apply land_128_big).
      rewrite (land_127 (v mod 128 + 128)) by lia.
      replace ((v mod 128 + 128) mod 128) with (v mod 128)
        by (rewrite <- Z.add_mod_idemp_r, Z.mod_same, Z.add_0_r, Z.mod_mod by lia; done).
      assert (Hp : 0 < 2 ^ shift) by (apply Z.pow_pos_nonneg; lia).
      assert (Hdm : v = 128 * (v / 128) + v mod 128) by (apply Z.div_mod; lia).
      rewrite (wrap_small 32) by (unfold is_uint; rewrite Z.shiftl_mul_pow2 by lia; nia).
      rewrite lor_shiftl_disjoint by lia.
      rewrite Z.shiftr_div_pow2 by lia. change (2 ^ 7) with 128.
      assert (Hp7 : 2 ^ (shift + 7) = 128 * 2 ^ shift) by (rewrite Z.pow_add_r by lia; lia).
      assert (Hvd : 1 <= v / 128) by (apply Z.div_le_lower_bound; lia).
      rewrite IH.
      * do 2 f_equal; [rewrite Hp7; nia | lia].
      * lia.
      * lia.
      * rewrite Hp7. nia.
      * apply Z.div_lt_upper_bound; [lia|].
        replace (Z.of_nat (S fuel) + 1) with (1 + (Z.of_nat fuel + 1)) in Hf by lia.
        rewrite Z.pow_add_r in Hf by lia. lia.
      * rewrite Hp7. nia.
      * destruct (decide (shift + 7 < 32)); [done|]. exfalso.
        assert (2 ^ 32 <= 2 ^ (shift + 7)) by (apply Z.pow_le_mono_r; lia). nia.
    + cbn [app decode_varint_loop length]. rewrite (proj2 (Z.leb_gt _ _)) by lia.
      rewrite land_127, Z.mod_small, as_u8_small by lia.
      rewrite land_127, Z.mod_small, land_128_small by lia. simpl Z.eqb. cbv iota.
      rewrite (wrap_small 32) by (unfold is_uint; rewrite Z.shiftl_mul_pow2 by lia; nia).
      rewrite lor_shiftl_disjoint by lia. do 2 f_equal. lia.
Qed.

Lemma encode_varint_nonempty v : encode_varint v <> [].
Proof. unfold encode_varint. cbn [encode_varint_loop]. by destruct (128 <=? v). Qed.

Lemma decode_varint_app v k :
  is_u32 v -> decode_varint (encode_varint v ++ k) = Ok (v, length (encode_varint v)).
Proof.
  unfold is_uint. intros Hv. unfold decode_varint.
  destruct (encode_varint v ++ k) eqn:E.
  { apply app_nil in E as [E _]. by apply encode_varint_nonempty in E. }
  rewrite <- E. unfold encode_varint. rewrite decode_varint_loop_app; try lia.
  do 2 f_equal; lia.
Qed.

(** ** Lemmas: the decoder on what the encoder writes *)

(** [T] is a sequence of complete tokens that decodes to [out], whatever
    follows it. *)
Definition decodes_to (T out : bytes) : Prop :=
  forall rest fuel, (length (T ++ rest) <= fuel)%nat ->
    exists fuel', (length rest <= fuel')%nat /\
      decode_loop fuel (T ++ rest) [] = decode_loop fuel' rest out.

Lemma decodes_to_nil : decodes_to [] [].
Proof. intros rest fuel Hf. by exists fuel. Qed.

Lemma decodes_to_literal T out b :
  decodes_to T out -> decodes_to (T ++ [as_u8 0; b]) (out ++ [b]).
Proof.
  intros H rest fuel Hf. rewrite <- app_assoc in *.
  destruct (H _ _ Hf) as (f1 & Hf1 & ->). cbn [app length] in Hf1.
  destruct f1 as [|f1]; [lia|]. exists f1. split; [lia|].
  cbn [app decode_loop]. by rewrite as_u8_small by lia.
Qed.

Lemma decodes_to_match T out out' off n :
  decodes_to T out -> is_u32 (Z.of_nat off) -> is_u32 (Z.of_nat n) ->
  (off <= length out)%nat -> copy_match n 0 (length out - off) out = Ok out' ->
  decodes_to (T ++ [as_u8 1] ++ encode_varint (wrap32 (Z.of_nat off))
                ++ encode_varint (wrap32 (Z.of_nat n))) out'.
Proof.
  intros H Hoff Hn Hle Hcopy rest fuel Hf. rewrite <- !app_assoc in *.
  destruct (H _ _ Hf) as (f1 & Hf1 & ->). rewrite !length_app in Hf1. simpl length in Hf1.
  destruct f1 as [|f1]; [lia|]. exists f1. split; [lia|].
  rewrite !wrap_small by done. cbn [app decode_loop].
  rewrite as_u8_small by lia. simpl Z.eqb. cbv iota.
  rewrite decode_varint_app by done. cbn [rbind fst snd].
  rewrite drop_app_length, decode_varint_app by done. cbn [rbind fst snd].
  rewrite drop_app_length, !Nat2Z.id, (proj2 (Nat.ltb_ge _ _)) by done.
  by rewrite Hcopy.
Qed.

(** Copying a verified match extends the decoded prefix of the data. *)
Lemma copy_match_prefix (data : bytes) n i src pos :
  (src < pos)%nat -> (pos + i + n <= length data)%nat ->
  (forall j, (j < i + n)%nat -> data !! (src + j)%nat = data !! (pos + j)%nat) ->
  copy_match n i src (take (pos + i) data) = Ok (take (pos + i + n) data).
Proof.
  revert i. induction n as [|n IH]; intros i Hsrc Hlen Heq; simpl.
  { by rewrite Nat.add_0_r. }
  rewrite lookup_take_lt by lia. rewrite Heq by lia.
  destruct (lookup_lt_is_Some_2 data (pos + i)) as [b Hb]; [lia|]. rewrite Hb.
  rewrite <- take_S_r by done.
  replace (S (pos + i)) with (pos + S i)%nat by lia.
  rewrite IH; [do 2 f_equal; lia | lia | lia | intros j Hj; apply Heq; lia].
Qed.

(** ** Lemmas: the matches the encoder finds *)

Lemma common_prefix_spec (a b : bytes) :
  (common_prefix a b <= length b)%nat /\
  forall i, (i < common_prefix a b)%nat -> a !! i = b !! i.
Proof.
  revert b. induction a as [|x a IH]; intros [|y b]; simpl; try (split; [lia | lia]).
  case_decide as E; [|split; lia]. subst y. destruct (IH b) as [H1 H2].
  split; [lia|]. intros [|i] Hi; simpl; [done|]. apply H2. lia.
Qed.

(** A match at [pos] that the decoder can copy. *)
Record match_ok (data : bytes) (pos : nat) (m : Match) : Prop := {
  mo_back : (1 <= offset m <= pos)%nat;
  mo_window : (offset m <= SEARCH_WINDOW)%nat;
  mo_short : (mlen m <= LOOKAHEAD_WINDOW)%nat;
  mo_end : (pos + mlen m <= length data)%nat;
  mo_same : forall j, (j < mlen m)%nat ->
              data !! (pos - offset m + j)%nat = data !! (pos + j)%nat
}.

(** The index never points outside the data. *)
Record index_ok (data : bytes) (ix : Index) : Prop := {
  ix_table : length (table ix) = Z.to_nat HASH_SIZE;
  ix_chain : length (chain ix) = length data;
  ix_hash : 0 <= hash ix < HASH_SIZE;
  ix_heads : Forall (fun h => h = U32_MAX \/ (Z.to_nat h < length data)%nat) (table ix);
  ix_links : Forall (fun o => forall p, o = Some p -> (p < length data)%nat) (chain ix)
}.

Lemma lookahead_lookup (data : bytes) pos i :
  (i < LOOKAHEAD_WINDOW)%nat ->
  take LOOKAHEAD_WINDOW (drop pos data) !! i = data !! (pos + i)%nat.
Proof. intros. by rewrite lookup_take_lt, lookup_drop. Qed.

Lemma chain_loop_spec n (data : bytes) pos (ch : list (option nat)) cand best :
  (pos < length data)%nat -> length ch = length data ->
  Forall (fun o => forall p, o = Some p -> (p < length data)%nat) ch ->
  (cand < length data)%nat -> mlen best = 0%nat \/ match_ok data pos best ->
  exists m, chain_loop n data pos (pos - SEARCH_WINDOW)
              (take LOOKAHEAD_WINDOW (drop pos data)) ch cand best = Ok m /\
            (mlen m = 0%nat \/ match_ok data pos m).
Proof.
  intros Hpos Hch Hlinks. revert cand best.
  induction n as [|n IH]; intros cand best Hcand Hbest; cbn [chain_loop]; [eauto|].
  destruct (lookup_lt_is_Some_2 ch cand) as [link Hlink]; [lia|]. rewrite Hlink.
  assert (Hnext : forall p, link = Some p -> (p < length data)%nat)
    by (exact (proj1 (Forall_lookup _ _) Hlinks _ _ Hlink)).
  destruct (Nat.leb_spec pos cand) as [|Hlt]; [destruct link; eauto|].
  destruct (Nat.ltb_spec cand (pos - SEARCH_WINDOW)) as [|Hwin]; [eauto|].
  set (l := common_prefix _ _).
  assert (Hb : forall b, b = (if (mlen best <? l)%nat then mkMatch (pos - cand) l else best) ->
                         mlen b = 0%nat \/ match_ok data pos b).
  { intros b ->. case_match; [|done]. right. unfold l.
    destruct (common_prefix_spec (drop cand data) (take LOOKAHEAD_WINDOW (drop pos data)))
      as [Hc1 Hc2].
    rewrite length_take, length_drop in Hc1. split; cbn [offset mlen]; try lia.
    intros j Hj. rewrite <- (lookahead_lookup data pos j) by lia.
    rewrite <- Hc2, lookup_drop by lia. f_equal. lia. }
  destruct link; eauto.
Qed.

Lemma find_longest_match_spec (data : bytes) pos ix :
  (pos < length data)%nat -> index_ok data ix ->
  exists m, find_longest_match data pos (hash ix) (table ix) (chain ix) = Ok m /\
    forall best, m = Some best -> match_ok data pos best /\ (3 <= mlen best)%nat.
Proof.
  intros Hpos [Ht Hc Hh Hheads Hlinks]. unfold find_longest_match.
  case_match; [by eexists|].
  destruct (lookup_lt_is_Some_2 (table ix) (Z.to_nat (hash ix))) as [first Hfirst]; [lia|].
  rewrite Hfirst. destruct (Z.eqb_spec first U32_MAX) as [|Hne]; [by eexists|].
  pose proof (proj1 (Forall_lookup _ _) Hheads _ _ Hfirst) as Hf. cbv beta in Hf.
  edestruct (chain_loop_spec MAX_CHAIN data pos (chain ix) (Z.to_nat first) (mkMatch 0 0))
    as (m & -> & Hm); try done; [by destruct Hf | by left |].
  cbn [rbind]. destruct (Nat.ltb_spec (mlen m) 3); [by eexists|].
  eexists. split; [done|]. intros ? [= <-]. split; [|done]. destruct Hm; [lia | done].
Qed.

Lemma rolling_hash_range h b : 0 <= rolling_hash h b < HASH_SIZE.
Proof.
  unfold rolling_hash. change (HASH_SIZE - 1) with (Z.ones 15).
  rewrite Z.land_ones by lia. apply Z.mod_pos_bound. done.
Qed.

Lemma roll_ok data n ix : index_ok data ix -> index_ok data (roll data n ix).
Proof.
  intros []. unfold roll. case_match; [|done]. split; try done. apply rolling_hash_range.
Qed.

Lemma insert_position_ok data p ix :
  index_ok data ix -> exists ix', insert_position data p ix = Ok ix' /\ index_ok data ix'.
Proof.
  intros Hix. pose proof Hix as [Ht Hc Hh Hheads Hlinks]. unfold insert_position.
  destruct (Nat.leb_spec (p + 3) (length data)); [|eauto].
  destruct (lookup_lt_is_Some_2 (table ix) (Z.to_nat (hash ix))) as [old Hold]; [lia|].
  rewrite Hold, (proj2 (Nat.ltb_lt _ _)) by lia. simpl orb. cbv iota.
  eexists. split; [done|].
  pose proof (proj1 (Forall_lookup _ _) Hheads _ _ Hold) as Ho. cbv beta in Ho.
  assert (Hw : (Z.to_nat (wrap32 (Z.of_nat p)) < length data)%nat).
  { pose proof (Z.mod_le (Z.of_nat p) (2 ^ 32)). unfold wrap. lia. }
  split; cbn [table chain hash]; rewrite ?length_insert; try done.
  - destruct (old =? U32_MAX); [done | by rewrite length_insert].
  - apply Forall_insert; [done|]. by right.
  - destruct (Z.eqb_spec old U32_MAX); [done|]. apply Forall_insert; [done|].
    intros q [= <-]. by destruct Ho.
Qed.

Lemma insert_match_ok data pos n ix :
  index_ok data ix -> exists ix', insert_match data pos n ix = Ok ix' /\ index_ok data ix'.
Proof.
  unfold insert_match. generalize (seq 0 n) as rs. intros rs. revert ix.
  induction rs as [|i rs IH]; intros ix Hix; simpl; [eauto|].
  destruct (insert_position_ok data (pos + i) ix Hix) as (ix1 & -> & Hix1). simpl.
  apply IH. by apply roll_ok.
Qed.

(** ** Properties *)

Lemma encode_varint_loop_length fuel v n :
  0 <= v < 128 ^ Z.of_nat n -> (1 <= n)%nat -> (length (encode_varint_loop fuel v) <= n)%nat.
Proof.
  revert v n. induction fuel as [|fuel IH]; intros v n Hv Hn; cbn [encode_varint_loop]; [done|].
  destruct (Z.leb_spec 128 v); [|done]. cbn [length].
  destruct n as [|[|n]]; [lia | simpl in Hv; lia|].
  apply le_n_S, IH; [|lia]. rewrite Z.shiftr_div_pow2 by lia. change (2 ^ 7) with 128.
  split; [apply Z.div_pos; lia|]. apply Z.div_lt_upper_bound; [lia|].
  rewrite Nat2Z.inj_succ, Z.pow_succ_r in Hv by lia. lia.
Qed.

Lemma encode_loop_spec data fuel pos ix out :
  index_ok data ix -> (pos <= length data)%nat -> (length data - pos <= fuel)%nat ->
  decodes_to out (take pos data) -> (length out <= 2 * pos)%nat ->
  exists e, encode_loop fuel data pos ix out = Ok e /\ decodes_to e data /\
            (length e <= 2 * length data)%nat.
Proof.
  revert pos ix out. induction fuel as [|fuel IH]; intros pos ix out Hix Hpos Hf Hout Hlo.
  - simpl. rewrite lookup_ge_None_2 by lia. exists out. split; [done|].
    rewrite take_ge in Hout by lia. split; [done | lia].
  - cbn [encode_loop]. destruct (data !! pos) as [b|] eqn:Eb.
    2:{ apply lookup_ge_None in Eb. rewrite take_ge in Hout by lia.
        exists out. split_and!; [done | done | lia]. }
    pose proof (lookup_lt_Some _ _ _ Eb) as Hlt.
    pose proof (roll_ok data (pos + 2) ix Hix) as Hix1.
    destruct (find_longest_match_spec data pos _ Hlt Hix1) as ([best|] & -> & Hm); cbn [rbind].
    + destruct (Hm best eq_refl) as [[Hback Hwin Hshort Hend Hsame] H3].
      destruct (insert_match_ok data pos (mlen best) _ Hix1) as (ix2 & -> & Hix2). cbn [rbind].
      assert (HW : Z.of_nat SEARCH_WINDOW = 32768) by (unfold SEARCH_WINDOW; lia).
      assert (HL : Z.of_nat LOOKAHEAD_WINDOW = 258) by done.
      apply IH; [done | lia | lia | |].
      2:{ rewrite !length_app. unfold encode_varint.
          rewrite !wrap_small by (unfold is_uint; clear - Hwin HW Hshort HL; lia).
          pose proof (encode_varint_loop_length 5 (Z.of_nat (offset best)) 3) as H1.
          pose proof (encode_varint_loop_length 5 (Z.of_nat (mlen best)) 2) as H2.
          change (128 ^ Z.of_nat 3) with 2097152 in H1. change (128 ^ Z.of_nat 2) with 16384 in H2.
          specialize (H1 ltac:(clear - Hwin HW; lia) ltac:(lia)).
          specialize (H2 ltac:(clear - Hshort HL; lia) ltac:(lia)).
          cbn [length]. clear - H1 H2 H3 Hlo. lia. }
      apply decodes_to_match with (out := take pos data).
      * exact Hout.
      * unfold is_uint. clear - Hwin HW. lia.
      * unfold is_uint. clear - Hshort HL. lia.
      * rewrite length_take. lia.
      * rewrite length_take, Nat.min_l by lia.
        pose proof (copy_match_prefix data (mlen best) 0 (pos - offset best) pos) as Hc.
        rewrite !Nat.add_0_r in Hc. apply Hc; [lia | lia | intros; by apply Hsame].
    + destruct (insert_position_ok data pos _ Hix1) as (ix2 & -> & Hix2). cbn [rbind].
      apply IH; [done | lia | lia | | rewrite length_app; cbn [length]; lia].
      replace (pos + 1)%nat with (S pos) by lia. rewrite (take_S_r _ _ b) by done.
      by apply decodes_to_literal.
Qed.

Lemma index_init_ok data :
  index_ok data (mkIndex (replicate (Z.to_nat HASH_SIZE) U32_MAX) (replicate (length data) None) 0).
Proof.
  split; cbn [table chain hash]; rewrite ?length_replicate; try done.
  - apply Forall_replicate. by left.
  - apply Forall_replicate. done.
Qed.

Lemma encode_decode data :
  exists e, encode data = Ok e /\ decode e = Ok data /\ (length e <= 2 * length data)%nat.
Proof.
  unfold encode. set (ix1 := roll data 0 _).
  assert (H1 : index_ok data ix1) by (apply roll_ok, index_init_ok).
  destruct (encode_loop_spec data (length data) 0
              (if (2 <=? length data)%nat then roll data 1 ix1 else ix1) []) as (e & He & Hd & Hl).
  - case_match; auto using roll_ok.
  - lia.
  - lia.
  - apply decodes_to_nil.
  - done.
  - exists e. split; [done|]. split; [|done]. unfold decode.
    destruct (Hd [] (length e)) as (f & _ & Hdec); [by rewrite app_nil_r|].
    rewrite app_nil_r in Hdec. rewrite Hdec. by destruct f.
Qed.

(** C19: compression is lossless. On every input the encoder returns (no
    index is ever out of range) and decoding what it returns gives the input
    back, without reaching any of the decoder's panics; at worst the output
    is twice as long as the input. *)
Theorem lz77_roundtrip (data : bytes) :
  exists e, encode data = Ok e /\ decode e = Ok data /\ (length e <= 2 * length data)%nat.
Proof. apply encode_decode. Qed.

(** The hash of three bytes from a given state. *)
Definition trigram (s : Z) (a b c : byte) : Z :=
  rolling_hash (rolling_hash (rolling_hash s a) b) c.

Lemma rolling_hash_mod h b :
  rolling_hash h b = Z.lxor ((h * 32) mod HASH_SIZE) (u8 b).
Proof.
  unfold rolling_hash. change (HASH_SIZE - 1) with (Z.ones 15). change HASH_SIZE with (2 ^ 15).
  apply Z.bits_inj'. intros i Hi.
  rewrite Z.land_spec, !Z.lxor_spec. unfold wrap. rewrite Z.shiftl_mul_pow2 by (unfold H_SHIFT; lia).
  change (2 ^ H_SHIFT) with 32. rewrite Z.testbit_ones by lia.
  pose proof (u8_range b).
  destruct (decide (i < 15)).
  - rewrite !Z.mod_pow2_bits_low by lia.
    rewrite (proj2 (Z.leb_le 0 i)), (proj2 (Z.ltb_lt i 15)) by lia. btauto.
  - rewrite (Z.mod_pow2_bits_high _ 15) by lia.
    replace (u8 b) with (u8 b mod 2 ^ 8) by (apply Z.mod_small; lia).
    rewrite (Z.mod_pow2_bits_high (u8 b)) by lia.
    rewrite (proj2 (Z.leb_le 0 i)), (proj2 (Z.ltb_ge i 15)) by lia. btauto.
Qed.

Lemma lxor_mul_32_mod a b :
  (Z.lxor a b * 32) mod HASH_SIZE = Z.lxor ((a * 32) mod HASH_SIZE) ((b * 32) mod HASH_SIZE).
Proof.
  change HASH_SIZE with (2 ^ 15). change 32 with (2 ^ 5).
  rewrite <- !Z.shiftl_mul_pow2, Z.shiftl_lxor by lia.
  apply Z.bits_inj'. intros i Hi. rewrite Z.lxor_spec.
  destruct (decide (i < 15)).
  - by rewrite !Z.mod_pow2_bits_low, Z.lxor_spec by lia.
  - by rewrite !Z.mod_pow2_bits_high by lia.
Qed.

(** The rolling hash is a true three-byte window, as its comment says:
    after three bytes nothing of the earlier state is left. *)
Theorem rolling_hash_window (s s' : Z) (a b c : byte) :
  trigram s a b c = trigram s' a b c.
Proof.
  unfold trigram. rewrite !rolling_hash_mod, !lxor_mul_32_mod.
  assert (H : forall t, ((((t * 32) mod HASH_SIZE * 32) mod HASH_SIZE) * 32) mod HASH_SIZE = 0).
  { intros t. change HASH_SIZE with 32768. Z.div_mod_to_equations. lia. }
  by rewrite !H.
Qed.

(** The encoder misses matches right after a match. The loop over the
    matched bytes already feeds the byte that completes the next trigram, and
    the main loop feeds it again, so the next position is looked up (and
    stored) under another trigram's hash: here [xyz], seen at position 4 and
    again at 11 right after the match of [abc], is written as literals
    although the search started with its real hash finds it. *)
Theorem lz77_misses_match_after_match :
  encode (bs "abc1xyz2abcxyz") =
  Ok ([as_u8 0] ++ bs "a" ++ [as_u8 0] ++ bs "b" ++ [as_u8 0] ++ bs "c" ++ [as_u8 0] ++ bs "1"
      ++ [as_u8 0] ++ bs "x" ++ [as_u8 0] ++ bs "y" ++ [as_u8 0] ++ bs "z" ++ [as_u8 0] ++ bs "2"
      ++ [as_u8 1; as_u8 8; as_u8 3]
      ++ [as_u8 0] ++ bs "x" ++ [as_u8 0] ++ bs "y" ++ [as_u8 0] ++ bs "z") /\
  (exists ix, index_ok (bs "abc1xyz2abcxyz") ix /\
     hash ix = trigram 0 Byte.x78 Byte.x79 Byte.x7a /\
     find_longest_match (bs "abc1xyz2abcxyz") 11 (hash ix) (table ix) (chain ix)
     = Ok (Some (mkMatch 7 3))).
Proof.
  split; [vm_compute; reflexivity|].
  exists (mkIndex (<[Z.to_nat (trigram 0 Byte.x78 Byte.x79 Byte.x7a) := 4]>
                     (replicate (Z.to_nat HASH_SIZE) U32_MAX))
            (replicate 14 None) (trigram 0 Byte.x78 Byte.x79 Byte.x7a)).
  split_and!; [|done | vm_compute; reflexivity].
  pose proof (index_init_ok (bs "abc1xyz2abcxyz")) as [Ht Hc Hh Hheads Hlinks].
  split; cbn [table chain hash] in *; [by rewrite length_insert | done | | | done].
  - apply rolling_hash_range.
  - apply Forall_insert; [exact Hheads|]. right. vm_compute. lia.
Qed.
