(* ===== verification/Block.v ===== *)
(** * SSTable blocks (src/src/block.rs)

    Records are collected in a buffer, which is written as a block behind a
    nine-byte header, compressed when that is enabled. *)

From S2P Require Import Prelude Record Lz77.

Record BlockHeader := mkBlockHeader {
  uncompressed_size : Z;
  stored_size : Z;
  compression_flag : Z
}.

Definition header_to_bytes (h : BlockHeader) : bytes :=
  to_be 4 (uncompressed_size h) ++ to_be 4 (stored_size h) ++ [as_u8 (compression_flag h)].

(** [BlockHeader::from_bytes] of a [[u8; 9]]. *)
Definition header_from_bytes (b : bytes) : BlockHeader :=
  mkBlockHeader (from_be (take 4 b)) (from_be (take 4 (drop 4 b))) (from_be (drop 8 b)).

Record BlockWriter := mkWriter {
  target_block_size : Z;
  compression_enabled : bool;
  buffer : bytes
}.

Definition writer_new (target : Z) (compression : bool) : BlockWriter :=
  mkWriter target compression [].

(** The block [flush] makes of a buffer that is not empty. *)
Definition seal_block (compression : bool) (buf : bytes) : result bytes :=
  if compression then
    let? compressed := encode buf in
    Ok (header_to_bytes (mkBlockHeader (wrap32 (len buf)) (wrap32 (len compressed)) 1)
        ++ compressed)
  else
    Ok (header_to_bytes (mkBlockHeader (wrap32 (len buf)) (wrap32 (len buf)) 0) ++ buf).

Definition flush (w : BlockWriter) : result (option bytes * BlockWriter) :=
  match buffer w with
  | [] => Ok (None, w)
  | _ :: _ =>
      let? buf := seal_block (compression_enabled w) (buffer w) in
      Ok (Some buf, mkWriter (target_block_size w) (compression_enabled w) [])
  end.

Definition add_record (w : BlockWriter) (r : Rec) : result (option bytes * BlockWriter) :=
  let data := to_be_bytes r in
  let? p := (if target_block_size w <? len data + len (buffer w) then flush w
             else Ok (None, w)) in
  let w' := p.2 in
  Ok (p.1, mkWriter (target_block_size w') (compression_enabled w') (buffer w' ++ data)).

Definition read_block (h : BlockHeader) : Reader bytes :=
  if compression_flag h =? 0 then read_exact (stored_size h)
  else if compression_flag h =? 1 then
    let! buf := read_exact (stored_size h) in rd_lift (decode buf)
  else rd_lift (Err InvalidData).

(** A whole block: its nine header bytes, then its data. *)
Definition read_whole_block : Reader bytes :=
  let! b := read_exact 9 in read_block (header_from_bytes b).

(** ** Lemmas *)

Record header_wf (h : BlockHeader) : Prop := {
  bh_size : is_u32 (uncompressed_size h);
  bh_stored : is_u32 (stored_size h);
  bh_flag : is_u8 (compression_flag h)
}.

Lemma len_header_to_bytes h : len (header_to_bytes h) = 9.
Proof. unfold header_to_bytes. by simp_len. Qed.

Lemma from_be_single b : from_be [b] = u8 b.
Proof. rewrite from_be_cons, len_nil. change (from_be []) with 0. lia. Qed.

Lemma header_roundtrip h : header_wf h -> header_from_bytes (header_to_bytes h) = h.
Proof.
  intros [H1 H2 H3]. destruct h as [u s f]. unfold header_from_bytes, header_to_bytes in *.
  cbn [uncompressed_size stored_size compression_flag] in *.
  rewrite take_app_le, take_ge by (rewrite length_to_be; lia).
  replace (drop 8 _) with [as_u8 f].
  2:{ rewrite app_assoc, drop_app_length'; [done|]. by rewrite length_app, !length_to_be. }
  rewrite drop_app_length' by (by rewrite length_to_be).
  rewrite take_app_length' by (by rewrite length_to_be).
  rewrite from_be_single, as_u8_small, !from_be_to_be_small by done. done.
Qed.

(** Block data small enough for the [u32] size fields, compressed or not. *)
Definition block_fits (buf : bytes) : Prop := 2 * len buf < 2 ^ 32.

Lemma seal_block_spec c buf :
  block_fits buf ->
  exists b, seal_block c buf = Ok b /\ (9 <= length b)%nat /\
    forall rest, read_whole_block (b ++ rest) = Ok (buf, rest).
Proof.
  unfold block_fits. intros Hfit. pose proof (len_nonneg buf) as Hn.
  assert (Hread : forall h d rest, header_wf h -> stored_size h = len d ->
    read_whole_block ((header_to_bytes h ++ d) ++ rest) = read_block h (d ++ rest)).
  { intros h d rest Hh Hs. unfold read_whole_block. rewrite <- app_assoc.
    erewrite rd_bind_Ok by (apply read_exact_app; by rewrite len_header_to_bytes).
    by rewrite header_roundtrip. }
  assert (Hl9 : forall h d, (9 <= length (header_to_bytes h ++ d))%nat).
  { intros h d. pose proof (len_header_to_bytes h). unfold len in *. rewrite length_app. lia. }
  destruct c; unfold seal_block.
  - destruct (encode_decode buf) as (e & -> & Hd & Hle). cbn [rbind].
    assert (len e < 2 ^ 32) by (unfold len in *; lia). pose proof (len_nonneg e).
    eexists. split_and!; [done | apply Hl9 |]. intros rest.
    rewrite !wrap_small by (unfold is_uint; lia).
    rewrite Hread; [| by split; cbn; unfold is_uint; lia | done].
    unfold read_block. cbn [compression_flag stored_size Z.eqb Pos.eqb].
    erewrite rd_bind_Ok by (by apply read_exact_app).
    unfold rd_lift. by rewrite Hd.
  - eexists. split_and!; [done | apply Hl9 |]. intros rest.
    rewrite !wrap_small by (unfold is_uint; lia).
    rewrite Hread; [| by split; cbn; unfold is_uint; lia | done].
    unfold read_block. cbn [compression_flag stored_size Z.eqb Pos.eqb].
    by apply read_exact_app.
Qed.

#[export] Instance exact_read_block h : ExactReader (read_block h).
Proof. unfold read_block. repeat case_match; apply _. Qed.

#[export] Instance exact_read_whole_block : ExactReader read_whole_block.
Proof. unfold read_whole_block. apply _. Qed.

(** ** Properties *)

(** The block format is lossless. A block flushed from a buffer, with or
    without compression, is read back as that buffer, whatever follows it in
    the file; the writer is left empty. *)
Theorem block_roundtrip (w : BlockWriter) (rest : bytes) :
  block_fits (buffer w) -> buffer w <> [] ->
  exists b w', flush w = Ok (Some b, w') /\ buffer w' = [] /\
    read_whole_block (b ++ rest) = Ok (buffer w, rest).
Proof.
  intros Hfit Hne. destruct (seal_block_spec (compression_enabled w) _ Hfit) as (b & Hb & _ & Hr).
  exists b. unfold flush. destruct (buffer w) as [|x l] eqn:E; [done|].
  rewrite Hb. eexists. split_and!; [done | done | apply Hr].
Qed.

Lemma block_roundtrip_witness :
  exists b w', flush (mkWriter 4096 true (bs "abcabcabc")) = Ok (Some b, w') /\ buffer w' = [] /\
    read_whole_block (b ++ bs "next") = Ok (bs "abcabcabc", bs "next").
Proof.
  apply (block_roundtrip (mkWriter 4096 true (bs "abcabcabc")) (bs "next"));
    [reflexivity | discriminate].
Defined.
