(* ===== verification/Text.v ===== *)
(** * Text: decimal numbers and string splitting

    What the file names, the command line and the client use of the standard
    library: [Display] and [FromStr] of the unsigned integers,
    [strip_prefix]/[strip_suffix], [rsplit_once]. *)

From S2P Require Import Prelude.

Definition digit (d : Z) : byte := as_u8 (48 + d).
Definition is_digit (b : byte) : bool := (48 <=? u8 b) && (u8 b <=? 57).

(** Most significant digit first; twenty digits hold any [u64]. *)
Fixpoint dec_loop (fuel : nat) (z : Z) : str :=
  match fuel with
  | O => []
  | S fuel' => if z <? 10 then [digit z] else dec_loop fuel' (z / 10) ++ [digit (z mod 10)]
  end.

Definition dec (z : Z) : str := dec_loop 20 z.

Fixpoint digits_value (acc : Z) (s : str) : option Z :=
  match s with
  | [] => Some acc
  | b :: s' => if is_digit b then digits_value (acc * 10 + (u8 b - 48)) s' else None
  end.

(** [s.parse::<uN>()]: an optional [+], at least one digit, no overflow. *)
Definition parse_uint (w : Z) (s : str) : option Z :=
  let ds := match s with
            | b :: s' => if u8 b =? 43 then s' else s
            | [] => s
            end in
  match ds with
  | [] => None
  | _ :: _ =>
      match digits_value 0 ds with
      | Some z => if z <? 2 ^ w then Some z else None
      | None => None
      end
  end.

Fixpoint strip_prefix (p s : str) : option str :=
  match p, s with
  | [], _ => Some s
  | _ :: _, [] => None
  | a :: p', b :: s' => if decide (a = b) then strip_prefix p' s' else None
  end.

Definition strip_suffix (suf s : str) : option str :=
  match strip_prefix (rev suf) (rev s) with
  | Some r => Some (rev r)
  | None => None
  end.

(** [s.split_once(pat)] at the first occurrence of [pat]. *)
Fixpoint split_once (pat s : str) : option (str * str) :=
  match strip_prefix pat s with
  | Some rest => Some ([], rest)
  | None =>
      match s with
      | [] => None
      | b :: s' =>
          match split_once pat s' with
          | Some (x, y) => Some (b :: x, y)
          | None => None
          end
      end
  end.

(** [s.rsplit_once(pat)]: the last occurrence, found from the end. *)
Definition rsplit_once (pat s : str) : option (str * str) :=
  match split_once (rev pat) (rev s) with
  | Some (x, y) => Some (rev y, rev x)
  | None => None
  end.

(** ** Lemmas *)

Lemma u8_digit d : 0 <= d <= 9 -> u8 (digit d) = 48 + d.
Proof. intros. unfold digit. apply as_u8_small. lia. Qed.

Lemma is_digit_digit d : 0 <= d <= 9 -> is_digit (digit d) = true.
Proof.
  intros. unfold is_digit. rewrite u8_digit by done.
  by rewrite !(proj2 (Z.leb_le _ _)) by lia.
Qed.

Lemma digits_value_app s t acc :
  digits_value acc (s ++ t) =
  match digits_value acc s with Some z => digits_value z t | None => None end.
Proof.
  revert acc. induction s as [|b s IH]; intros acc; simpl; [done|].
  by destruct (is_digit b).
Qed.

Lemma dec_loop_spec fuel z :
  0 <= z < 10 ^ Z.of_nat fuel ->
  digits_value 0 (dec_loop fuel z) = Some z /\
  (fuel <> O -> dec_loop fuel z <> []) /\
  Forall (fun b => is_digit b = true) (dec_loop fuel z).
Proof.
  revert z. induction fuel as [|fuel IH]; intros z Hz; simpl dec_loop.
  { simpl in Hz. assert (z = 0) as -> by lia. by split_and!. }
  destruct (Z.ltb_spec z 10).
  - simpl. rewrite is_digit_digit, u8_digit by lia. split_and!; [f_equal; lia | done |].
    constructor; [by rewrite is_digit_digit by lia | constructor].
  - assert (Hq : 0 <= z / 10 < 10 ^ Z.of_nat fuel).
    { rewrite Nat2Z.inj_succ, Z.pow_succ_r in Hz by lia.
      split; [apply Z.div_pos; lia | apply Z.div_lt_upper_bound; lia]. }
    destruct (IH _ Hq) as (H1 & _ & H3).
    assert (Hm : 0 <= z mod 10 <= 9) by (pose proof (Z.mod_pos_bound z 10); lia).
    rewrite digits_value_app, H1. simpl. rewrite is_digit_digit, u8_digit by done.
    split_and!.
    + f_equal. pose proof (Z.div_mod z 10). lia.
    + intros _ Hn. by apply app_nil in Hn as [_ ?].
    + apply Forall_app. split; [done|]. constructor; [by apply is_digit_digit | constructor].
Qed.

Lemma u64_20_digits z : is_u64 z -> 0 <= z < 10 ^ Z.of_nat 20.
Proof.
  unfold is_uint. assert (2 ^ 64 < 10 ^ Z.of_nat 20) by done. lia.
Qed.

Lemma dec_digits z : is_u64 z -> Forall (fun b => is_digit b = true) (dec z).
Proof. intros Hz. apply dec_loop_spec. by apply u64_20_digits. Qed.

Lemma dec_nonempty z : is_u64 z -> dec z <> [].
Proof. intros Hz. apply dec_loop_spec; [by apply u64_20_digits | done]. Qed.

(** Printing then parsing a number gives it back. *)
Lemma parse_dec w z : is_u64 z -> z < 2 ^ w -> parse_uint w (dec z) = Some z.
Proof.
  intros Hz Hw. unfold parse_uint.
  pose proof (dec_digits z Hz) as Hd. pose proof (dec_nonempty z Hz) as Hn.
  destruct (dec_loop_spec 20 z (u64_20_digits z Hz)) as (Hv & _ & _).
  change (dec_loop 20 z) with (dec z) in Hv.
  destruct (dec z) as [|b s] eqn:E; [done|].
  inversion Hd as [|? ? Hb _]; subst.
  assert ((u8 b =? 43) = false) as ->.
  { unfold is_digit in Hb. apply andb_prop in Hb as [Hb _]. apply Z.leb_le in Hb.
    apply Z.eqb_neq. lia. }
  by rewrite Hv, (proj2 (Z.ltb_lt _ _)) by done.
Qed.

Lemma strip_prefix_app p s : strip_prefix p (p ++ s) = Some s.
Proof. induction p as [|a p IH]; simpl; [done|]. by rewrite decide_True. Qed.

Lemma strip_suffix_app s suf : strip_suffix suf (s ++ suf) = Some s.
Proof. unfold strip_suffix. by rewrite rev_app_distr, strip_prefix_app, rev_involutive. Qed.

Lemma strip_prefix_Some p s r : strip_prefix p s = Some r -> s = p ++ r.
Proof.
  revert s. induction p as [|a p IH]; intros [|b s]; simpl; try congruence.
  case_decide; [|done]. subst. intros H. f_equal. by apply IH.
Qed.

Lemma strip_suffix_Some suf s r : strip_suffix suf s = Some r -> s = r ++ suf.
Proof.
  unfold strip_suffix. destruct (strip_prefix _ _) as [t|] eqn:E; [|done].
  intros [= <-]. apply strip_prefix_Some in E.
  by rewrite <- (rev_involutive s), E, rev_app_distr, rev_involutive.
Qed.

Lemma split_once_char c x y :
  Forall (fun b => b <> c) x -> split_once [c] (x ++ c :: y) = Some (x, y).
Proof.
  induction 1 as [|b x Hb _ IH]; simpl.
  - by rewrite decide_True.
  - rewrite decide_False by done. by rewrite IH.
Qed.

(** Splitting at the last separator when what follows it has none. *)
Lemma rsplit_once_char c x y :
  Forall (fun b => b <> c) y -> rsplit_once [c] (x ++ c :: y) = Some (x, y).
Proof.
  intros Hy. unfold rsplit_once. simpl rev at 1. rewrite rev_app_distr. simpl.
  rewrite <- app_assoc. simpl. rewrite split_once_char.
  - by rewrite !rev_involutive.
  - by apply Forall_rev.
Qed.

Lemma digits_not_char c s :
  is_digit c = false -> Forall (fun b => is_digit b = true) s -> Forall (fun b => b <> c) s.
Proof. intros Hc H. eapply Forall_impl; [exact H|]. intros b Hb ->. congruence. Qed.

Lemma digits_value_nonneg s acc z : 0 <= acc -> digits_value acc s = Some z -> 0 <= z.
Proof.
  revert acc. induction s as [|b s IH]; intros acc Ha; simpl; [by intros [= <-]|].
  unfold is_digit. destruct (48 <=? u8 b) eqn:E; simpl; [|done].
  case_match; [|done]. apply IH. apply Z.leb_le in E. lia.
Qed.

Lemma parse_uint_nonneg w s z : parse_uint w s = Some z -> 0 <= z.
Proof.
  unfold parse_uint. repeat case_match; try done; intros [= <-];
    (eapply digits_value_nonneg; [|eassumption]); lia.
Qed.

Lemma parse_uint_range w s z : parse_uint w s = Some z -> is_uint w z.
Proof.
  intros H. split; [by eapply parse_uint_nonneg|]. unfold parse_uint in H.
  repeat case_match; simplify_eq; lia.
Qed.
