(* ===== verification/Words.v ===== *)
(** * Words of a line

    What the client's command line uses of [str]: [chars], [char::is_whitespace],
    [split_whitespace], [trim], [to_uppercase], [join] and [chunks_exact(2)]. A
    character is the string of its UTF-8 encoding. *)

From S2P Require Import Prelude Utf8 Text.

(** ** Characters *)

(** The characters of a string; the first byte of each says how long it is.
    Strings are valid UTF-8; what else [chars] does with the bytes of a string
    that is not does not matter. *)
Fixpoint chars (l : str) : list str :=
  match l with
  | [] => []
  | b0 :: l1 =>
      if u8 b0 <? 0x80 then [b0] :: chars l1 else
      match l1 with
      | [] => [[b0]]
      | b1 :: l2 =>
          if u8 b0 <? 0xE0 then [b0; b1] :: chars l2 else
          match l2 with
          | [] => [[b0; b1]]
          | b2 :: l3 =>
              if u8 b0 <? 0xF0 then [b0; b1; b2] :: chars l3 else
              match l3 with
              | [] => [[b0; b1; b2]]
              | b3 :: l4 => [b0; b1; b2; b3] :: chars l4
              end
          end
      end
  end.

(** The property White_Space of Unicode: U+0009 to U+000D, U+0020, U+0085,
    U+00A0, U+1680, U+2000 to U+200A, U+2028, U+2029, U+202F, U+205F, U+3000. *)
Definition is_whitespace (c : str) : bool :=
  match map u8 c with
  | [x] => ((9 <=? x) && (x <=? 13)) || (x =? 32)
  | [0xC2; x] => (x =? 0x85) || (x =? 0xA0)
  | [0xE1; 0x9A; 0x80] => true
  | [0xE2; 0x80; x] =>
      ((0x80 <=? x) && (x <=? 0x8A)) || (x =? 0xA8) || (x =? 0xA9) || (x =? 0xAF)
  | [0xE2; 0x81; 0x9F] => true
  | [0xE3; 0x80; 0x80] => true
  | _ => false
  end.

(** [char::to_uppercase], exact for the characters whose upper case is ASCII:
    the letters, U+00DF, U+0131, U+017F and the ligatures U+FB00 to U+FB06. The
    upper case of any other character holds a character that is not ASCII, as
    the character itself does; it is left as it is, which no comparison with an
    ASCII word can tell. *)
Definition upper_char (c : str) : str :=
  match map u8 c with
  | [x] => if (97 <=? x) && (x <=? 122) then [as_u8 (x - 32)] else c
  | [0xC3; 0x9F] => bs "SS"
  | [0xC4; 0xB1] => bs "I"
  | [0xC5; 0xBF] => bs "S"
  | [0xEF; 0xAC; 0x80] => bs "FF"
  | [0xEF; 0xAC; 0x81] => bs "FI"
  | [0xEF; 0xAC; 0x82] => bs "FL"
  | [0xEF; 0xAC; 0x83] => bs "FFI"
  | [0xEF; 0xAC; 0x84] => bs "FFL"
  | [0xEF; 0xAC; 0x85] => bs "ST"
  | [0xEF; 0xAC; 0x86] => bs "ST"
  | _ => c
  end.

Definition to_uppercase (s : str) : str := concat (map upper_char (chars s)).

(** ** Words *)

(** A word is closed by the next whitespace or the end, unless it is empty. *)
Definition close (cur : str) (ws : list str) : list str :=
  match cur with [] => ws | _ :: _ => cur :: ws end.

Fixpoint split_chars (cur : str) (cs : list str) : list str :=
  match cs with
  | [] => close cur []
  | c :: cs' => if is_whitespace c then close cur (split_chars [] cs') else split_chars (cur ++ c) cs'
  end.

Definition split_whitespace (line : str) : list str := split_chars [] (chars line).

Fixpoint skip_whitespace (cs : list str) : list str :=
  match cs with
  | [] => []
  | c :: cs' => if is_whitespace c then skip_whitespace cs' else cs
  end.

Definition trim (line : str) : str :=
  concat (rev (skip_whitespace (rev (skip_whitespace (chars line))))).

(** [words.join(sep)]. *)
Fixpoint join (sep : str) (ws : list str) : str :=
  match ws with
  | [] => []
  | [w] => w
  | w :: ws' => w ++ sep ++ join sep ws'
  end.

(** [l.chunks_exact(2)]: an element left over is dropped. *)
Fixpoint pairs {A} (l : list A) : list (A * A) :=
  match l with
  | a :: b :: l' => (a, b) :: pairs l'
  | _ => []
  end.

(** ** Lemmas: valid strings are the concatenation of valid characters *)

(** One encoded character. *)
Definition is_char (c : str) : Prop := utf8_valid c = true /\ chars c = [c].

Lemma is_char_nonempty c : is_char c -> c <> [].
Proof. by intros [_ H] ->. Qed.

Lemma utf8_split l : utf8_valid l = true -> l <> [] ->
  exists c r, l = c ++ r /\ is_char c /\ utf8_valid r = true /\
    (forall x, chars (c ++ x) = c :: chars x) /\ forall x, utf8_valid (c ++ x) = utf8_valid x.
Proof.
  intros Hv Hne. destruct l as [|b0 l1]; [done|]. cbn in Hv.
  destruct (u8 b0 <? 0x80) eqn:E0.
  { exists [b0], l1. unfold is_char. cbn. by rewrite E0. }
  destruct l1 as [|b1 l2]; [done|]. destruct (in_range 0xC2 0xDF b0) eqn:E1.
  { apply andb_true_iff in Hv as [Hc Hv]. exists [b0; b1], l2. unfold is_char. cbn.
    rewrite E0, E1, Hc. assert (E2 : (u8 b0 <? 0xE0) = true) by (unfold in_range in E1; lia).
    by rewrite E2. }
  destruct l2 as [|b2 l3]; [done|]. destruct (in_range 0xE0 0xEF b0) eqn:E2.
  { apply andb_true_iff in Hv as [Hc Hv]. exists [b0; b1; b2], l3. unfold is_char. cbn.
    rewrite E0, E1, E2, Hc.
    assert (E3 : (u8 b0 <? 0xE0) = false) by (unfold in_range in E2; lia).
    assert (E4 : (u8 b0 <? 0xF0) = true) by (unfold in_range in E2; lia). by rewrite E3, E4. }
  destruct l3 as [|b3 l4]; [done|]. apply andb_true_iff in Hv as [Hc Hv].
  exists [b0; b1; b2; b3], l4. unfold is_char. cbn. rewrite E0, E1, E2, Hc.
  assert (E3 : (u8 b0 <? 0xF0) = false).
  { unfold in_range in Hc. lia. }
  assert (E4 : (u8 b0 <? 0xE0) = false) by lia. by rewrite E3, E4.
Qed.

(** Induction on the characters of a valid string. *)
Lemma utf8_ind (P : str -> Prop) :
  P [] ->
  (forall c r, is_char c -> (forall x, chars (c ++ x) = c :: chars x) ->
     (forall x, utf8_valid (c ++ x) = utf8_valid x) -> utf8_valid r = true -> P r -> P (c ++ r)) ->
  forall l, utf8_valid l = true -> P l.
Proof.
  intros H0 Hc l. remember (length l) as n eqn:En. revert l En.
  induction (lt_wf n) as [n _ IH]. intros l -> Hv.
  destruct (decide (l = [])) as [->|Hne]; [done|].
  destruct (utf8_split l Hv Hne) as (c & r & -> & Hch & Hr & Hch' & Hval).
  apply Hc; try done. eapply IH; [|reflexivity | done]. rewrite length_app.
  apply is_char_nonempty in Hch. destruct c; [done | cbn; lia].
Qed.

Lemma utf8_valid_app a b : utf8_valid a = true -> utf8_valid (a ++ b) = utf8_valid b.
Proof.
  intros Ha. revert a Ha. apply (utf8_ind (fun a => utf8_valid (a ++ b) = utf8_valid b)); [done|].
  intros c r _ _ Hval _ IH. by rewrite <- app_assoc, Hval.
Qed.

Lemma chars_app a b : utf8_valid a = true -> chars (a ++ b) = chars a ++ chars b.
Proof.
  intros Ha. revert a Ha. apply (utf8_ind (fun a => chars (a ++ b) = chars a ++ chars b)); [done|].
  intros c r _ Hch _ _ IH. by rewrite <- app_assoc, !Hch, IH.
Qed.

Lemma concat_chars a : utf8_valid a = true -> concat (chars a) = a.
Proof.
  apply (utf8_ind (fun a => concat (chars a) = a)); [done|].
  intros c r _ Hch _ _ IH. rewrite Hch. cbn. by rewrite IH.
Qed.

Lemma chars_are_chars a : utf8_valid a = true -> Forall is_char (chars a).
Proof.
  apply (utf8_ind (fun a => Forall is_char (chars a))); [constructor|].
  intros c r Hc Hch _ _ IH. rewrite Hch. by constructor.
Qed.

Lemma chars_concat cs : Forall is_char cs -> chars (concat cs) = cs /\ utf8_valid (concat cs) = true.
Proof.
  induction 1 as [|c cs [Hv Hc] _ [IH1 IH2]]; [done|]. cbn. rewrite chars_app, utf8_valid_app by done.
  by rewrite Hc, IH1.
Qed.

(** ** Words and the spaces around them *)

Record is_word (w : str) : Prop := {
  word_valid : utf8_valid w = true;
  word_nonempty : w <> [];
  word_solid : Forall (fun c => is_whitespace c = false) (chars w);
}.

Record is_space (s : str) : Prop := {
  space_valid : utf8_valid s = true;
  space_blank : Forall (fun c => is_whitespace c = true) (chars s);
}.

(** The lines whose words are the given ones. *)
Inductive typed : list str -> str -> Prop :=
  | typed_end s : is_space s -> typed [] s
  | typed_last s w : is_space s -> is_word w -> typed [w] (s ++ w)
  | typed_word s w sep line ws :
      is_space s -> is_word w -> is_space sep -> sep <> [] -> typed ws line ->
      typed (w :: ws) (s ++ w ++ sep ++ line).

Lemma split_solid cur cs rest :
  Forall (fun c => is_whitespace c = false) cs ->
  split_chars cur (cs ++ rest) = split_chars (cur ++ concat cs) rest.
Proof.
  intros H. revert cur. induction H as [|c cs Hc _ IH]; intros cur; [by rewrite app_nil_r|].
  cbn. by rewrite Hc, IH, <- app_assoc.
Qed.

Lemma split_blank cs rest :
  Forall (fun c => is_whitespace c = true) cs -> split_chars [] (cs ++ rest) = split_chars [] rest.
Proof. induction 1 as [|c cs Hc _ IH]; [done|]. cbn. by rewrite Hc, IH. Qed.

Lemma split_blank_close cur cs rest :
  Forall (fun c => is_whitespace c = true) cs -> cs <> [] ->
  split_chars cur (cs ++ rest) = close cur (split_chars [] rest).
Proof. intros H Hne. destruct H as [|c cs Hc H]; [done|]. cbn. by rewrite Hc, split_blank. Qed.

Lemma close_nonempty cur ws : cur <> [] -> close cur ws = cur :: ws.
Proof. by destruct cur. Qed.

Lemma typed_split ws line : typed ws line -> split_whitespace line = ws.
Proof.
  unfold split_whitespace. induction 1 as [s [Hv Hb]|s w [Hv Hb] [Wv Wn Ws]|
    s w sep line ws [Hv Hb] [Wv Wn Ws] [Sv Sb] Sn Ht IH].
  - rewrite <- (app_nil_r (chars s)). by rewrite split_blank.
  - rewrite chars_app, split_blank by done. rewrite <- (app_nil_r (chars w)).
    rewrite split_solid, concat_chars by done. cbn. by rewrite close_nonempty.
  - rewrite chars_app, split_blank, chars_app, split_solid, concat_chars, chars_app by done.
    rewrite split_blank_close; [|done|].
    + cbn [app]. by rewrite IH, close_nonempty.
    + intros E. apply Sn. rewrite <- (concat_chars sep Sv). by rewrite E.
Qed.

Lemma is_space_app a b : is_space a -> is_space b -> is_space (a ++ b).
Proof.
  intros [Ha Ha'] [Hb Hb']. split; [by rewrite utf8_valid_app|].
  rewrite chars_app by done. by apply Forall_app.
Qed.

Lemma is_space_char c : is_char c -> is_whitespace c = true -> is_space c.
Proof. intros [Hv Hc] Hw. split; [done|]. rewrite Hc. by constructor. Qed.

Lemma typed_space s ws line : is_space s -> typed ws line -> typed ws (s ++ line).
Proof.
  intros Hs Ht. destruct Ht.
  - by apply typed_end, is_space_app.
  - rewrite app_assoc. apply typed_last; [by apply is_space_app | done].
  - rewrite app_assoc. apply typed_word; try done. by apply is_space_app.
Qed.

Lemma is_word_concat cur :
  Forall is_char cur -> cur <> [] -> Forall (fun c => is_whitespace c = false) cur ->
  is_word (concat cur).
Proof.
  intros Hc Hn Hs. destruct (chars_concat cur Hc) as [H1 H2]. split; [done | | by rewrite H1].
  intros E. rewrite E in H1. by apply Hn.
Qed.

Lemma is_space_nil : is_space [].
Proof. split; [done | constructor]. Qed.

(** Every line of valid UTF-8 is typed in this way. *)
Lemma split_typed cs : Forall is_char cs -> typed (split_chars [] cs) (concat cs) /\
  forall cur, Forall is_char cur -> cur <> [] -> Forall (fun c => is_whitespace c = false) cur ->
    typed (split_chars (concat cur) cs) (concat cur ++ concat cs).
Proof.
  pose proof is_space_nil as Hnil. induction 1 as [|c cs Hc Hcs [IH1 IH2]].
  { split; [by apply typed_end|]. intros cur Hc Hn Hs. cbn. rewrite app_nil_r.
    pose proof (is_word_concat cur Hc Hn Hs) as Hw. rewrite close_nonempty by apply Hw.
    by apply (typed_last []). }
  cbn [split_chars concat close]. destruct (is_whitespace c) eqn:Ew; split.
  - by apply typed_space; [apply is_space_char|].
  - intros cur Hcur Hn Hs. pose proof (is_word_concat cur Hcur Hn Hs) as Hw.
    rewrite close_nonempty by apply Hw.
    apply (typed_word []); try done; [by apply is_space_char | by eapply is_char_nonempty].
  - specialize (IH2 [c]). cbn [concat app] in *. rewrite app_nil_r in IH2.
    apply IH2; [by constructor | done | by constructor].
  - intros cur Hcur Hn Hs. specialize (IH2 (cur ++ [c])). rewrite concat_app in IH2.
    cbn [concat] in IH2. rewrite app_nil_r, <- app_assoc in IH2.
    apply IH2; [by apply Forall_app; split; [|constructor] | by destruct cur |].
    apply Forall_app. by split; [|constructor].
Qed.

(** [split_whitespace] finds the words of a line and nothing else. *)
Lemma split_whitespace_typed line ws :
  utf8_valid line = true -> split_whitespace line = ws <-> typed ws line.
Proof.
  intros Hv. split; [|apply typed_split]. intros <-.
  destruct (split_typed (chars line) (chars_are_chars line Hv)) as [H _].
  unfold split_whitespace. by rewrite concat_chars in H.
Qed.

(** Trimming a line keeps its words. *)
Lemma skip_whitespace_spec cs :
  exists blank, cs = blank ++ skip_whitespace cs /\ Forall (fun c => is_whitespace c = true) blank.
Proof.
  induction cs as [|c cs (b & E & Hb)]; [by exists []|]. cbn. destruct (is_whitespace c) eqn:Ew.
  - exists (c :: b). cbn. rewrite <- E. by split; [|constructor].
  - by exists [].
Qed.

Lemma split_blank_end cur cs blank :
  Forall (fun c => is_whitespace c = true) blank -> split_chars cur (cs ++ blank) = split_chars cur cs.
Proof.
  intros Hb. revert cur. induction cs as [|c cs IH]; intros cur; cbn.
  - destruct Hb as [|b blank Hw Hb]; [done|]. cbn. rewrite Hw, <- (app_nil_r blank), split_blank by done.
    by destruct cur.
  - by rewrite !IH.
Qed.

Lemma split_trim line : utf8_valid line = true -> split_whitespace (trim line) = split_whitespace line.
Proof.
  intros Hv. pose proof (chars_are_chars line Hv) as Hc. unfold split_whitespace, trim.
  destruct (skip_whitespace_spec (chars line)) as (b1 & E1 & H1).
  set (cs := skip_whitespace (chars line)) in *.
  destruct (skip_whitespace_spec (rev cs)) as (b2 & E2 & H2).
  set (ds := skip_whitespace (rev cs)) in *.
  assert (E : cs = rev ds ++ rev b2) by (rewrite <- rev_app_distr, <- E2; by rewrite rev_involutive).
  rewrite E1, split_blank by done. rewrite E, split_blank_end by (by apply Forall_rev).
  f_equal. apply chars_concat. rewrite E1, E in Hc. apply Forall_app in Hc as [_ Hc].
  by apply Forall_app in Hc as [Hc _].
Qed.

(** ** Words joined by a space *)

Lemma join_cons w w' ws : join (bs " ") (w :: w' :: ws) = w ++ bs " " ++ join (bs " ") (w' :: ws).
Proof. done. Qed.

Lemma is_space_blank : is_space (bs " ").
Proof. split; [done|]. repeat constructor. Qed.

Lemma typed_join ws : Forall is_word ws -> typed ws (join (bs " ") ws).
Proof.
  induction 1 as [|w ws Hw Hws IH]; [apply typed_end, is_space_nil|].
  destruct ws as [|w' ws]; [apply (typed_last []); [apply is_space_nil | done]|].
  rewrite join_cons. by apply (typed_word []); auto using is_space_nil, is_space_blank.
Qed.

Lemma typed_words ws line : typed ws line -> Forall is_word ws.
Proof. induction 1; [done | by constructor | by constructor]. Qed.

(** The words are no longer than the line, spaces between them counted. *)
Lemma typed_len ws line : typed ws line -> len (join (bs " ") ws) <= len line.
Proof.
  induction 1 as [s _|s w _ _|s w sep line ws _ _ _ Hn Ht IH]; cbn [join]; simp_len.
  - pose proof (len_nonneg s). cbn. lia.
  - pose proof (len_nonneg s). lia.
  - pose proof (len_nonneg s). assert (0 < len sep) by (destruct sep; [done | unfold len; cbn; lia]).
    destruct ws as [|w' ws]; simp_len; [pose proof (len_nonneg line); lia|].
    change (len (bs " ")) with 1. lia.
Qed.

Lemma join_valid ws : Forall is_word ws -> utf8_valid (join (bs " ") ws) = true.
Proof.
  induction 1 as [|w ws [Hw _ _] _ IH]; [done|]. destruct ws as [|w' ws]; [done|].
  rewrite join_cons, utf8_valid_app by done. by rewrite (utf8_valid_app (bs " ")).
Qed.

Lemma join_len ws w : w ∈ ws -> len w <= len (join (bs " ") ws).
Proof.
  induction 1 as [w ws|w w' ws Hin IH].
  - destruct ws as [|w' ws]; [cbn [join]; lia|]. rewrite join_cons, !len_app.
    pose proof (len_nonneg (join (bs " ") (w' :: ws))). pose proof (len_nonneg (bs " ")). lia.
  - destruct ws as [|w2 ws]; [by apply not_elem_of_nil in Hin|]. rewrite join_cons, !len_app.
    pose proof (len_nonneg w'). pose proof (len_nonneg (bs " ")). lia.
Qed.
