(* ===== verification/Segment.v ===== *)
(** * Segment files (src/src/segment.rs)

    Names of segments, and the list of the segments of a database found in a
    directory. A directory is the list of the names [read_dir] yields, in no
    particular order. *)

From S2P Require Import Prelude Collections Text.

Record Segment := mkSegment { segment_name : str; timestamp : Z }.

#[export] Instance Segment_eq_dec : EqDecision Segment.
Proof. solve_decision. Defined.

(** [Segment::new]: the clock reading in milliseconds is an argument. *)
Definition segment_new (name : str) (now_ms : Z) : Segment := mkSegment name (wrap64 now_ms).

Definition filename (s : Segment) : str :=
  segment_name s ++ bs "_" ++ dec (timestamp s) ++ bs ".db".

Definition hint_filename (s : Segment) : str :=
  segment_name s ++ bs "_" ++ dec (timestamp s) ++ bs ".hint".

Definition segment_parse (name : str) : option Segment :=
  match strip_suffix (bs ".db") name with
  | None => None
  | Some stem =>
      match rsplit_once (bs "_") stem with
      | None => None
      | Some (n, ts) =>
          match parse_uint 64 ts with
          | None => None
          | Some t => Some (mkSegment n t)
          end
      end
  end.

(** [sort_by_key(|s| s.timestamp)]. *)
Definition sort_by_ts (l : list Segment) : list Segment := sort_by_key timestamp l.

(** The closure of [filter_map]. *)
Definition db_segment (db_name name : str) : option Segment :=
  match segment_parse name with
  | Some s => if decide (segment_name s = db_name) then Some s else None
  | None => None
  end.

Definition get_segments (dir : list str) (db_name : str) : list Segment :=
  sort_by_ts (omap (db_segment db_name) dir).

Definition get_last_segment (dir : list str) (db_name : str) : option Segment :=
  last (get_segments dir db_name).

(** ** Lemmas *)

Lemma segment_parse_filename s : is_u64 (timestamp s) -> segment_parse (filename s) = Some s.
Proof.
  intros Hs. unfold segment_parse, filename. rewrite !app_assoc, strip_suffix_app.
  rewrite <- app_assoc. change (bs "_") with [Byte.x5f]. cbn [app].
  rewrite rsplit_once_char.
  - rewrite parse_dec by (done || apply Hs). by destruct s.
  - eapply digits_not_char; [|by apply dec_digits]. done.
Qed.

Lemma omap_segments db segs others :
  Forall (fun s => segment_name s = db /\ is_u64 (timestamp s)) segs ->
  Forall (fun n => forall s, segment_parse n = Some s -> segment_name s <> db) others ->
  omap (db_segment db) ((filename <$> segs) ++ others) = segs.
Proof.
  intros Hsegs Hothers. rewrite omap_app.
  assert (omap (db_segment db) others = []) as ->.
  { induction Hothers as [|n l Hn _ IH]; [done|]. cbn [omap list_omap]. rewrite IH.
    unfold db_segment. destruct (segment_parse n) as [s|] eqn:E; [|done].
    by rewrite decide_False by (by apply Hn). }
  rewrite app_nil_r. induction Hsegs as [|s segs [Hn Hu] _ IH]; [done|].
  cbn [fmap list_fmap omap list_omap]. rewrite IH. unfold db_segment.
  by rewrite segment_parse_filename, decide_True.
Qed.

(** ** Properties *)

(** The name of a segment file determines the segment: parsing the file
    name of any segment gives it back, underscores in the database name
    included. *)
Theorem segment_name_roundtrip (s : Segment) :
  is_u64 (timestamp s) -> segment_parse (filename s) = Some s.
Proof. apply segment_parse_filename. Qed.

Lemma segment_name_roundtrip_witness :
  segment_parse (filename (mkSegment (bs "my_db_7") 1700000000000))
  = Some (mkSegment (bs "my_db_7") 1700000000000).
Proof. apply segment_name_roundtrip. vm_compute. split; congruence. Defined.

(** [get_segments] does not depend on the order in which the directory
    is read: from any listing of the files of some segments, among files that
    are not segments of the database, it returns those segments in the order
    of their timestamps. *)
Theorem get_segments_canonical (dir : list str) (db : str) (segs : list Segment)
    (others : list str) :
  Forall (fun s => segment_name s = db /\ is_u64 (timestamp s)) segs ->
  Forall (fun n => forall s, segment_parse n = Some s -> segment_name s <> db) others ->
  NoDup (timestamp <$> segs) ->
  dir ≡ₚ (filename <$> segs) ++ others ->
  get_segments dir db = sort_by_ts segs.
Proof.
  intros Hsegs Hothers Hnd Hdir. unfold get_segments.
  assert (Hp : omap (db_segment db) dir ≡ₚ segs)
    by (by rewrite Hdir, omap_segments).
  unfold sort_by_ts. apply (sorted_unique timestamp); try apply sort_by_key_sorted;
    by rewrite !sort_by_key_perm, Hp.
Qed.

Lemma get_segments_canonical_witness :
  let s1 := mkSegment (bs "db") 5 in let s2 := mkSegment (bs "db") 70 in
  get_segments [bs "db.wal"; filename s2; bs "db_5.hint"; filename s1] (bs "db") = [s1; s2].
Proof.
  cbv zeta.
  rewrite (get_segments_canonical _ (bs "db") [mkSegment (bs "db") 70; mkSegment (bs "db") 5]
             [bs "db.wal"; bs "db_5.hint"]).
  - reflexivity.
  - repeat constructor; vm_compute; congruence.
  - repeat constructor; vm_compute; congruence.
  - vm_compute. repeat constructor; set_solver.
  - cbn [fmap list_fmap app]. solve_Permutation.
Defined.
