(* ===== verification/Utils.v ===== *)
(** * Expiry (src/src/utils.rs)

    The clock is an argument of every operation that reads it. *)

From S2P Require Import Prelude.

Definition is_expired (expiry_ms now_ms : Z) : bool := expiry_ms <=? now_ms.

(** [expiry.is_some_and(|e| is_expired(e, now))]. *)
Definition expired (e : option Z) (now_ms : Z) : bool :=
  match e with Some ms => is_expired ms now_ms | None => false end.

(** Once expired, always expired. *)
Lemma expired_mono e now now' : now <= now' -> expired e now = true -> expired e now' = true.
Proof.
  destruct e as [ms|]; simpl; [|done]. unfold is_expired. rewrite !Z.leb_le. lia.
Qed.
