(* ===== verification/Settings.v ===== *)
(** * Server settings (src/src/settings.rs)

    The configuration of the server and its command line. A value that does
    not parse makes the program panic ([expect], [unwrap]), which is what
    [Panic] stands for here. *)

From S2P Require Import Prelude Text.

Inductive FSyncStrategy :=
  | FsAlways
  | FsEveryN (n : Z)
  | FsPeriodic (secs : Z)
  | FsNever.

Inductive StorageStrategyKind := SkSizeTiered | SkLeveled.
Inductive BlockCompression := BcNone | BcLz77.
Inductive EngineType := EtKV | EtLsm.

#[export] Instance FSyncStrategy_eq_dec : EqDecision FSyncStrategy.
Proof. solve_decision. Defined.

(** [F] is the type of the compaction ratio, [f32] in the program. *)
Record Settings {F : Type} := mkSettings {
  db_file_path : str;
  tcp_addr : str;
  s_db_name : str;
  s_max_segment_bytes : Z;
  sync_strategy : FSyncStrategy;
  engine : EngineType;
  compaction_ratio : F;
  compaction_max_segment : Z;
  storage_strategy : StorageStrategyKind;
  leveled_num_levels : Z;
  leveled_l0_threshold : Z;
  leveled_l1_max_bytes : Z;
  block_size_kb : Z;
  block_compression : BlockCompression;
  read_timeout_secs : option Z;
  max_connections : Z;
  workers : option Z;
}.
Arguments Settings : clear implicits.

(** ** The parsers of the values; their error strings are not modelled *)

Definition parse_fsync (s : str) : option FSyncStrategy :=
  if decide (s = bs "always") then Some FsAlways
  else if decide (s = bs "never") then Some FsNever
  else
    match strip_prefix (bs "every:") s with
    | None => None
    | Some val =>
        match strip_suffix (bs "s") val with
        | Some secs_str =>
            match parse_uint 64 secs_str with
            | None => None
            | Some n => if n =? 0 then None else Some (FsPeriodic n)
            end
        | None =>
            match parse_uint 64 val with
            | None => None
            | Some n => if n =? 0 then None else Some (FsEveryN n)
            end
        end
    end.

Definition parse_engine (s : str) : option EngineType :=
  if decide (s = bs "kv") then Some EtKV
  else if decide (s = bs "lsm") then Some EtLsm
  else None.

Definition parse_storage_strategy (s : str) : option StorageStrategyKind :=
  if decide (s = bs "leveled") then Some SkLeveled
  else if decide (s = bs "size-tiered") then Some SkSizeTiered
  else None.

Definition parse_block_compression (s : str) : option BlockCompression :=
  if decide (s = bs "none") then Some BcNone
  else if decide (s = bs "lz77") then Some BcLz77
  else None.

(** [unwrap] and [expect]. *)
Definition unwrap {A} (o : option A) : result A :=
  match o with Some a => Ok a | None => Panic end.

(** The lines of [print_help]. *)
Definition print_help (prog_name : str) : list str :=
  [bs "Usage: " ++ prog_name ++ bs " <db_path> [OPTIONS]";
   [];
   bs "ARGUMENTS:";
   bs "  <db_path>              Path to the database directory";
   [];
   bs "OPTIONS:";
   bs "  -t, --tcp <ADDR>       TCP bind address (default: 0.0.0.0:6666)";
   bs "  -n, --name <NAME>      Database name prefix (default: segment)";
   bs "  -msb, --max-segments-bytes <BYTES>";
   bs "                         Max bytes per segment (default: 52428800)";
   bs "  -fsync, --fsync-interval <POLICY>";
   bs "                         Fsync strategy: 'always', 'never', 'every:N', 'every:Ns'";
   bs "                         (default: always)";
   bs "  -e, --engine <ENGINE>  Storage engine: 'kv' or 'lsm' (default: kv)";
   bs "  -cr, --compaction-ratio <RATIO>";
   bs "                         Auto-compact when dead/total bytes exceeds ratio (default: 0.0 = disabled)";
   bs "  -ss, --storage-strategy <STRATEGY>";
   bs "                         Storage strategy: 'size-tiered' or 'leveled' (default: size-tiered)";
   bs "  -lnl, --leveled-num-levels <N>";
   bs "                         Number of levels for leveled compaction (default: 4)";
   bs "  -ll0, --leveled-l0-threshold <N>";
   bs "                         L0 file count before compaction (default: 4)";
   bs "  -ll1, --leveled-l1-max-bytes <BYTES>";
   bs "                         L1 max size in bytes (default: 10485760)";
   bs "  -bsk, --block-size-kb <KB>";
   bs "                         Block size in KB for SSTable blocks (default: 4, range: 1-1024)";
   bs "  -bc, --block-compression <COMPRESSION>";
   bs "                         Block compression: 'none' or 'lz77' (default: lz77)";
   bs "  -rts, --read-timeout-secs <SECS>";
   bs "                         Read timeout per connection in seconds (default: 30, 0 = disabled)";
   bs "  -mc, --max-connections <N>";
   bs "                         Maximum concurrent connections (default: 1000, 0 = unlimited)";
   bs "  -w, --workers <N>";
   bs "                         Numbers of workers deployed (default: None, 0 = available parallelism)";
   bs "  -h, --help             Print this help message"].

Section CommandLine.

(** The parsers of the socket address (given back in its canonical form) and
    of the [f32] ratio. *)
Context {F : Type} (zero_ratio : F).
Context (parse_addr : str -> option str) (parse_ratio : str -> option F).

Definition default_settings (f_path : str) : Settings F :=
  mkSettings F f_path (bs "0.0.0.0:6666") (bs "segment") (1048576 * 50) FsAlways EtKV
    zero_ratio 0 SkSizeTiered 4 4 (10 * 1024 * 1024) 4 BcLz77 (Some 30) 1000 None.

Inductive Flag :=
  | Ftcp | Fname | Fmsb | Ffsync | Fengine | Fcr | Fcms | Fss | Flnl | Fll0 | Fll1
  | Fbsk | Fbc | Frts | Fmc | Fw.

Definition flag_names : list (str * Flag) :=
  [(bs "-t", Ftcp); (bs "--tcp", Ftcp);
   (bs "-n", Fname); (bs "--name", Fname);
   (bs "-msb", Fmsb); (bs "--max-segments-bytes", Fmsb);
   (bs "-fsync", Ffsync); (bs "--fsync-interval", Ffsync);
   (bs "-e", Fengine); (bs "--engine", Fengine);
   (bs "-cr", Fcr); (bs "--compaction-ratio", Fcr);
   (bs "-cms", Fcms); (bs "--compaction-max-segments", Fcms);
   (bs "-ss", Fss); (bs "--storage-strategy", Fss);
   (bs "-lnl", Flnl); (bs "--leveled-num-levels", Flnl);
   (bs "-ll0", Fll0); (bs "--leveled-l0-threshold", Fll0);
   (bs "-ll1", Fll1); (bs "--leveled-l1-max-bytes", Fll1);
   (bs "-bsk", Fbsk); (bs "--block-size-kb", Fbsk);
   (bs "-bc", Fbc); (bs "--block-compression", Fbc);
   (bs "-rts", Frts); (bs "--read-timeout-secs", Frts);
   (bs "-mc", Fmc); (bs "--max-connections", Fmc);
   (bs "-w", Fw); (bs "--workers", Fw)].

Fixpoint find_flag (arg : str) (l : list (str * Flag)) : option Flag :=
  match l with
  | [] => None
  | (n, f) :: l' => if decide (arg = n) then Some f else find_flag arg l'
  end.

(** The body of one arm of the [match]. *)
Definition apply_flag (s : Settings F) (f : Flag) (value : str) : result (Settings F) :=
  let 'mkSettings _ path addr nm msb fs eng cr cms ss lnl ll0 ll1 bsk bc rts mc w := s in
  match f with
  | Ftcp =>
      let? a := unwrap (parse_addr value) in
      Ok (mkSettings F path a nm msb fs eng cr cms ss lnl ll0 ll1 bsk bc rts mc w)
  | Fname =>
      Ok (mkSettings F path addr value msb fs eng cr cms ss lnl ll0 ll1 bsk bc rts mc w)
  | Fmsb =>
      let? n := unwrap (parse_uint 64 value) in
      Ok (mkSettings F path addr nm n fs eng cr cms ss lnl ll0 ll1 bsk bc rts mc w)
  | Ffsync =>
      let? p := unwrap (parse_fsync value) in
      Ok (mkSettings F path addr nm msb p eng cr cms ss lnl ll0 ll1 bsk bc rts mc w)
  | Fengine =>
      let? e := unwrap (parse_engine value) in
      Ok (mkSettings F path addr nm msb fs e cr cms ss lnl ll0 ll1 bsk bc rts mc w)
  | Fcr =>
      let? r := unwrap (parse_ratio value) in
      Ok (mkSettings F path addr nm msb fs eng r cms ss lnl ll0 ll1 bsk bc rts mc w)
  | Fcms =>
      let? n := unwrap (parse_uint 64 value) in
      Ok (mkSettings F path addr nm msb fs eng cr n ss lnl ll0 ll1 bsk bc rts mc w)
  | Fss =>
      let? k := unwrap (parse_storage_strategy value) in
      Ok (mkSettings F path addr nm msb fs eng cr cms k lnl ll0 ll1 bsk bc rts mc w)
  | Flnl =>
      let? n := unwrap (parse_uint 64 value) in
      Ok (mkSettings F path addr nm msb fs eng cr cms ss n ll0 ll1 bsk bc rts mc w)
  | Fll0 =>
      let? n := unwrap (parse_uint 64 value) in
      Ok (mkSettings F path addr nm msb fs eng cr cms ss lnl n ll1 bsk bc rts mc w)
  | Fll1 =>
      let? n := unwrap (parse_uint 64 value) in
      Ok (mkSettings F path addr nm msb fs eng cr cms ss lnl ll0 n bsk bc rts mc w)
  | Fbsk =>
      let? kb := unwrap (parse_uint 64 value) in
      if negb ((1 <=? kb) && (kb <=? 1024)) then Panic
      else Ok (mkSettings F path addr nm msb fs eng cr cms ss lnl ll0 ll1 kb bc rts mc w)
  | Fbc =>
      let? c := unwrap (parse_block_compression value) in
      Ok (mkSettings F path addr nm msb fs eng cr cms ss lnl ll0 ll1 bsk c rts mc w)
  | Frts =>
      let? n := unwrap (parse_uint 64 value) in
      let t := if n =? 0 then None else Some n in
      Ok (mkSettings F path addr nm msb fs eng cr cms ss lnl ll0 ll1 bsk bc t mc w)
  | Fmc =>
      let? n := unwrap (parse_uint 64 value) in
      Ok (mkSettings F path addr nm msb fs eng cr cms ss lnl ll0 ll1 bsk bc rts n w)
  | Fw =>
      let? n := unwrap (parse_uint 64 value) in
      let k := if n =? 0 then None else Some n in
      Ok (mkSettings F path addr nm msb fs eng cr cms ss lnl ll0 ll1 bsk bc rts mc k)
  end.

(** The loop over the arguments after the path: a known flag takes the next
    argument, if there is one; anything else is reported and skipped. *)
Fixpoint parse_args (s : Settings F) (args : list str) : result (Settings F) :=
  match args with
  | [] => Ok s
  | arg :: rest =>
      match find_flag arg flag_names with
      | None => parse_args s rest
      | Some f =>
          match rest with
          | [] => Ok s
          | value :: rest' => let? s' := apply_flag s f value in parse_args s' rest'
          end
      end
  end.

(** [None] when the program prints its help and exits. [args] has the name of
    the program first. *)
Definition get_from_args (args : list str) : result (option (Settings F)) :=
  match args with
  | _ :: f_path :: rest =>
      if existsb (fun a => bool_decide (a = bs "-h") || bool_decide (a = bs "--help")) args
      then Ok None
      else rmap Some (parse_args (default_settings f_path) rest)
  | _ => Ok None
  end.
End CommandLine.

(** ** Writing settings as a command line *)

Definition show_fsync (p : FSyncStrategy) : str :=
  match p with
  | FsAlways => bs "always"
  | FsNever => bs "never"
  | FsEveryN n => bs "every:" ++ dec n
  | FsPeriodic n => bs "every:" ++ dec n ++ bs "s"
  end.

Definition show_opt (o : option Z) : str := dec (default 0 o).

Definition render {F} (s : Settings F) (ratio : str) : list str :=
  [bs "-t"; tcp_addr s; bs "--name"; s_db_name s; bs "-msb"; dec (s_max_segment_bytes s);
   bs "-fsync"; show_fsync (sync_strategy s);
   bs "-e"; match engine s with EtKV => bs "kv" | EtLsm => bs "lsm" end;
   bs "-cr"; ratio; bs "-cms"; dec (compaction_max_segment s);
   bs "-ss"; match storage_strategy s with
             | SkSizeTiered => bs "size-tiered" | SkLeveled => bs "leveled" end;
   bs "-lnl"; dec (leveled_num_levels s); bs "-ll0"; dec (leveled_l0_threshold s);
   bs "-ll1"; dec (leveled_l1_max_bytes s); bs "-bsk"; dec (block_size_kb s);
   bs "-bc"; match block_compression s with BcNone => bs "none" | BcLz77 => bs "lz77" end;
   bs "-rts"; show_opt (read_timeout_secs s); bs "-mc"; dec (max_connections s);
   bs "--workers"; show_opt (workers s)].

Definition fsync_ok (p : FSyncStrategy) : Prop :=
  match p with FsEveryN n | FsPeriodic n => is_u64 n /\ n <> 0 | _ => True end.

Definition opt_ok (o : option Z) : Prop :=
  match o with Some n => is_u64 n /\ n <> 0 | None => True end.

Definition not_help (a : str) : Prop := a <> bs "-h" /\ a <> bs "--help".

Record settings_ok {F} (s : Settings F) : Prop := {
  so_name : not_help (s_db_name s);
  so_addr : not_help (tcp_addr s);
  so_path : not_help (db_file_path s);
  so_fsync : fsync_ok (sync_strategy s);
  so_msb : is_u64 (s_max_segment_bytes s);
  so_cms : is_u64 (compaction_max_segment s);
  so_lnl : is_u64 (leveled_num_levels s);
  so_ll0 : is_u64 (leveled_l0_threshold s);
  so_ll1 : is_u64 (leveled_l1_max_bytes s);
  so_bsk : 1 <= block_size_kb s <= 1024;
  so_rts : opt_ok (read_timeout_secs s);
  so_mc : is_u64 (max_connections s);
  so_w : opt_ok (workers s);
}.

(** ** Lemmas *)

Lemma unwrap_dec z : is_u64 z -> unwrap (parse_uint 64 (dec z)) = Ok z.
Proof. intros Hz. rewrite parse_dec; [done | done | apply Hz]. Qed.

Lemma digit_not_in_dec c z : is_u64 z -> is_digit c = false -> c ∉ dec z.
Proof.
  intros Hz Hc Hin. pose proof (dec_digits z Hz) as Hd. rewrite Forall_forall in Hd.
  apply Hd in Hin. congruence.
Qed.

Lemma parse_show_fsync p : fsync_ok p -> parse_fsync (show_fsync p) = Some p.
Proof.
  assert (Hev : forall v, parse_fsync (bs "every:" ++ v) =
    match strip_suffix (bs "s") v with
    | Some ss => match parse_uint 64 ss with
                 | None => None | Some n => if n =? 0 then None else Some (FsPeriodic n) end
    | None => match parse_uint 64 v with
              | None => None | Some n => if n =? 0 then None else Some (FsEveryN n) end
    end) by done.
  destruct p as [|n|n|]; [done | | |done]; intros [Hn Hn0]; cbn [show_fsync]; rewrite Hev.
  - destruct (strip_suffix (bs "s") (dec n)) as [r|] eqn:E.
    + apply strip_suffix_Some in E. exfalso.
      apply (digit_not_in_dec Byte.x73 n Hn eq_refl). rewrite E. apply elem_of_app.
      right. by left.
    + rewrite parse_dec by (done || apply Hn). by rewrite (proj2 (Z.eqb_neq _ _)).
  - rewrite strip_suffix_app, parse_dec by (done || apply Hn).
    by rewrite (proj2 (Z.eqb_neq _ _)).
Qed.

Lemma show_opt_ok o : opt_ok o ->
  exists n, is_u64 n /\ show_opt o = dec n /\ (if n =? 0 then None else Some n) = o.
Proof.
  destruct o as [n|]; simpl.
  - intros [Hn H0]. exists n. by rewrite (proj2 (Z.eqb_neq _ _)).
  - intros _. by exists 0.
Qed.

Lemma dec_not_help z : is_u64 z -> not_help (dec z).
Proof.
  intros Hz. pose proof (digit_not_in_dec Byte.x2d z Hz eq_refl) as Hd.
  split; intros E; rewrite E in Hd; apply Hd; by left.
Qed.

Lemma show_fsync_not_help p : not_help (show_fsync p).
Proof. by destruct p. Qed.

Lemma not_help_test l : Forall not_help l ->
  existsb (fun a => bool_decide (a = bs "-h") || bool_decide (a = bs "--help")) l = false.
Proof.
  induction 1 as [|a l [H1 H2] _ IH]; [done|]. cbn [existsb].
  by rewrite (bool_decide_eq_false_2 _ H1), (bool_decide_eq_false_2 _ H2), IH.
Qed.

Lemma render_not_help {F} (s : Settings F) ratio :
  settings_ok s -> not_help ratio -> Forall not_help (render s ratio).
Proof.
  intros [] Hr.
  assert (is_u64 (block_size_kb s)) by (split; lia).
  destruct (show_opt_ok _ so_rts0) as (? & ? & Hrts & _).
  destruct (show_opt_ok _ so_w0) as (? & ? & Hw & _).
  unfold render. rewrite Hrts, Hw.
  repeat constructor; try done; try (by apply dec_not_help); try apply show_fsync_not_help;
    try apply so_name0; try apply so_addr0; try apply Hr; by repeat case_match.
Qed.

Lemma parse_args_flag {F} pa pr (s s' : Settings F) arg f value rest :
  find_flag arg flag_names = Some f -> apply_flag pa pr s f value = Ok s' ->
  parse_args pa pr s (arg :: value :: rest) = parse_args pa pr s' rest.
Proof. intros H1 H2. cbn [parse_args]. by rewrite H1, H2. Qed.

Lemma parse_args_render {F} pa pr (s d : Settings F) ratio :
  settings_ok s -> db_file_path d = db_file_path s ->
  pa (tcp_addr s) = Some (tcp_addr s) -> pr ratio = Some (compaction_ratio s) ->
  parse_args pa pr d (render s ratio) = Ok s.
Proof.
  intros [] Hpath Ha Hr. unfold render.
  assert (Hb : is_u64 (block_size_kb s)) by (split; lia).
  destruct (show_opt_ok _ so_rts0) as (rts & Hrts1 & Hrts2 & Hrts3).
  destruct (show_opt_ok _ so_w0) as (w & Hw1 & Hw2 & Hw3).
  rewrite Hrts2, Hw2.
  destruct s, d; cbn [db_file_path tcp_addr s_db_name s_max_segment_bytes sync_strategy engine
    compaction_ratio compaction_max_segment storage_strategy leveled_num_levels
    leveled_l0_threshold leveled_l1_max_bytes block_size_kb block_compression
    read_timeout_secs max_connections workers] in *; subst.
  repeat (erewrite parse_args_flag; [|reflexivity|cbn [apply_flag];
    first [ rewrite Ha; reflexivity | rewrite Hr; reflexivity
          | rewrite parse_show_fsync by done; reflexivity
          | rewrite unwrap_dec by done; cbn [rbind];
            first [ rewrite (proj2 (Z.leb_le _ _) (proj1 so_bsk0)),
                      (proj2 (Z.leb_le _ _) (proj2 so_bsk0)); reflexivity
                  | reflexivity ]
          | by repeat case_match | reflexivity ]]).
  cbn [parse_args]. done.
Qed.

(** ** Theorems *)

(** C39: Every configuration can be given on the command line and is read back
    as given: the program started with the rendered options has exactly these
    settings, whatever the defaults, provided the numbers fit their types, the
    block size is in range and no value is itself a help flag. *)
Theorem settings_roundtrip {F} (zero : F) pa pr (s : Settings F) prog ratio :
  settings_ok s -> not_help prog -> not_help ratio ->
  pa (tcp_addr s) = Some (tcp_addr s) -> pr ratio = Some (compaction_ratio s) ->
  get_from_args zero pa pr (prog :: db_file_path s :: render s ratio) = Ok (Some s).
Proof.
  intros Hok Hp Hr Ha Hra. unfold get_from_args.
  rewrite not_help_test
    by (constructor; [done|]; constructor; [apply Hok | by apply render_not_help]).
  by rewrite (parse_args_render pa pr s).
Qed.

Definition example_settings : Settings Z :=
  mkSettings Z (bs "/data") (bs "127.0.0.1:7000") (bs "db") 4096 (FsPeriodic 5) EtLsm 50 3
    SkLeveled 5 4 1000 8 BcNone None 10 (Some 4).

Lemma settings_roundtrip_witness :
  get_from_args 0 Some (parse_uint 64)
    (bs "rustikv" :: bs "/data" :: render example_settings (bs "50"))
    = Ok (Some example_settings).
Proof.
  apply (settings_roundtrip 0 Some (parse_uint 64) example_settings);
    try done; constructor; cbn; try done; repeat split; try done; cbv; congruence.
Defined.

(** A fsync interval of zero, in writes or in seconds, is refused. *)
Theorem parse_fsync_nonzero s n :
  parse_fsync s = Some (FsEveryN n) \/ parse_fsync s = Some (FsPeriodic n) -> 0 < n.
Proof.
  assert (Hp : forall w t z, parse_uint w t = Some z -> (z =? 0) = false -> 0 < z).
  { intros w t z Hz H0. apply parse_uint_nonneg in Hz. apply Z.eqb_neq in H0. lia. }
  unfold parse_fsync. repeat case_match; intros [[=]|[=]]; subst; eauto.
Qed.

Lemma parse_fsync_nonzero_witness : 0 < 30.
Proof. apply (parse_fsync_nonzero (bs "every:30s")). right. reflexivity. Defined.

(** ** The help text *)

(** The words of a line of help: what spaces and commas separate. *)
Fixpoint help_words (acc line : str) : list str :=
  match line with
  | [] => [rev acc]
  | b :: l => if (u8 b =? 32) || (u8 b =? 44) then rev acc :: help_words [] l else help_words (b :: acc) l
  end.

Definition in_help (name : str) : bool :=
  existsb (fun line => bool_decide (name ∈ help_words [] line)) (print_help []).

(** The help names every option of the command line but one: the threshold of
    segments that starts a compaction is not mentioned. *)
Theorem help_misses_max_segments :
  map fst (List.filter (fun p => negb (in_help p.1)) flag_names) = [bs "-cms"; bs "--compaction-max-segments"].
Proof. vm_compute. reflexivity. Qed.
