(* ===== verification/HashIndex.v ===== *)
(** * The hash index (src/src/hash_index.rs)

    The in-memory index of the hash engine: where the newest record of each
    key is. A [HashMap] is a finite map; the order in which it iterates is not
    specified, so it is a parameter of what iterates over one. *)

From S2P Require Import Prelude Utf8 Record Wal.

Record IndexEntry := mkIndexEntry {
  segment_timestamp : Z;
  offset : Z;
  record_size : Z;
  i_expiry : option Z;
}.

#[export] Instance IndexEntry_eq_dec : EqDecision IndexEntry.
Proof. solve_decision. Defined.

Abbreviation HashIndex := (gmap str IndexEntry).

(** The order of [HashMap::keys]: some enumeration of the keys, each once. *)
Class HashOrder := {
  ls_keys : HashIndex -> list str;
  ls_keys_perm m : ls_keys m ≡ₚ (map_to_list m).*1;
}.

Definition hi_new : HashIndex := ∅.
Definition hi_get (h : HashIndex) (k : str) : option IndexEntry := h !! k.
Definition hi_contains (h : HashIndex) (k : str) : bool := bool_decide (is_Some (h !! k)).

(** [HashIndex::set] and [delete]: the entry that was there, and the index. *)
Definition hi_set (h : HashIndex) (k : str) (file_location ts size : Z) (e : option Z)
    : option IndexEntry * HashIndex :=
  (h !! k, <[k := mkIndexEntry ts file_location size e]> h).
Definition hi_delete (h : HashIndex) (k : str) : option IndexEntry * HashIndex :=
  (h !! k, delete k h).

(** The effect on the index of a record found at [off]. *)
Definition merge_record (ts : Z) (h : HashIndex) (off : Z) (r : Rec) : HashIndex :=
  if is_tombstone (header r) then delete (key r) h
  else <[key r := mkIndexEntry ts off 0 (expiry_ms (header r))]> h.

(** The loop of [merge_from_file] over the rest of a file of [size] bytes. A
    record takes at least one byte, so the length of the file is enough fuel. *)
Fixpoint merge_loop (fuel : nat) (size : Z) (rest : bytes) (ts : Z) (h : HashIndex)
    : result HashIndex :=
  match rest with
  | [] => Ok h
  | _ :: _ =>
      match fuel with
      | O => Panic
      | S fuel' =>
          let off := size - len rest in
          let? p := read_next rest in
          merge_loop fuel' size p.2 ts (merge_record ts h off p.1)
      end
  end.

Definition merge_from_file (h : HashIndex) (file : bytes) (ts : Z) : result HashIndex :=
  merge_loop (length file) (len file) file ts h.

Definition from_file (file : bytes) (ts : Z) : result HashIndex :=
  merge_from_file hi_new file ts.

(** ** Files of records *)

(** What scanning well-formed records does to an index. *)
Fixpoint merge_records (ts : Z) (h : HashIndex) (off : Z) (rs : list Rec) : HashIndex :=
  match rs with
  | [] => h
  | r :: rs' => merge_records ts (merge_record ts h off r) (off + len (to_be_bytes r)) rs'
  end.

(** ** Lemmas *)

Lemma recs_bytes_snoc rs r : recs_bytes (rs ++ [r]) = recs_bytes rs ++ to_be_bytes r.
Proof. rewrite recs_bytes_app. unfold recs_bytes at 2. simpl. by rewrite app_nil_r. Qed.

Lemma merge_records_snoc ts h off rs r :
  merge_records ts h off (rs ++ [r])
    = merge_record ts (merge_records ts h off rs) (off + len (recs_bytes rs)) r.
Proof.
  revert h off. induction rs as [|r' rs IH]; intros h off; cbn [app merge_records].
  { change (len (recs_bytes [])) with 0. f_equal. lia. }
  rewrite IH. f_equal.
  change (recs_bytes (r' :: rs)) with (to_be_bytes r' ++ recs_bytes rs).
  rewrite len_app. lia.
Qed.

Lemma merge_record_sealed ts h off r :
  merge_record ts h off (sealed r) = merge_record ts h off r.
Proof. done. Qed.

Lemma merge_loop_step fuel size rest ts h r k :
  read_next rest = Ok (r, k) -> (length rest <= fuel)%nat ->
  exists fuel', (length k <= fuel')%nat /\
    merge_loop fuel size rest ts h
      = merge_loop fuel' size k ts (merge_record ts h (size - len rest) r).
Proof.
  intros H Hf. pose proof (read_next_consumes _ _ _ H).
  destruct fuel as [|fuel]; [lia|]. destruct rest as [|b l]; [simpl in *; lia|].
  exists fuel. split; [lia|]. cbn [merge_loop]. by rewrite H.
Qed.

Lemma merge_loop_recs rs fuel size ts h :
  Forall rec_wf rs -> (length (recs_bytes rs) <= fuel)%nat ->
  merge_loop fuel size (recs_bytes rs) ts h
    = Ok (merge_records ts h (size - len (recs_bytes rs)) rs).
Proof.
  intros Hwf. revert fuel h. induction Hwf as [|r rs Hr Hrs IH]; intros fuel h Hf.
  { by destruct fuel. }
  change (recs_bytes (r :: rs)) with (to_be_bytes r ++ recs_bytes rs) in *.
  destruct (merge_loop_step fuel size (to_be_bytes r ++ recs_bytes rs) ts h (sealed r)
    (recs_bytes rs)) as (f & Hf' & ->); [by apply read_next_app | done |].
  rewrite IH by done. cbn [merge_records]. do 2 f_equal.
  rewrite len_app. lia.
Qed.

Lemma merge_from_file_recs rs ts h :
  Forall rec_wf rs -> merge_from_file h (recs_bytes rs) ts = Ok (merge_records ts h 0 rs).
Proof.
  intros. unfold merge_from_file. rewrite merge_loop_recs by done. by rewrite Z.sub_diag.
Qed.

Lemma ls_keys_elem `{HashOrder} h k : k ∈ ls_keys h <-> is_Some (h !! k).
Proof.
  rewrite ls_keys_perm. rewrite list_elem_of_fmap. split.
  - intros ([k' e] & -> & Hin). apply elem_of_map_to_list in Hin. eauto.
  - intros [e He]. exists (k, e). split; [done|]. by apply elem_of_map_to_list.
Qed.

Lemma ls_keys_nodup `{HashOrder} h : NoDup (ls_keys h).
Proof. rewrite ls_keys_perm. apply NoDup_fst_map_to_list. Qed.

(** An order there is. *)
Definition sorted_order : HashOrder.
Proof. refine {| ls_keys := fun m => (map_to_list m).*1 |}. done. Defined.
