(* ===== verification/World.v ===== *)
(** * The operating system: the database directory and the clock

    What the engines use of [std::fs] and [std::time]. The contents of the
    directory are a map from file names to bytes; [durable] is what [sync_all]
    has pushed to the device. The clock is an arbitrary sequence of readings,
    in milliseconds since the epoch: reading it takes the next one. *)

From S2P Require Import Prelude.

Record World := mkWorld {
  disk : files;
  durable : files;
  ticks : nat;
}.

Class Clock := clock : nat -> Z.

Definition with_disk (w : World) (d : files) : World := mkWorld d (durable w) (ticks w).

(** [SystemTime::now()]. *)
Definition read_clock `{Clock} : ST World Z := fun w =>
  (mkWorld (disk w) (durable w) (S (ticks w)), Ok (clock (ticks w))).

(** [utils::now_ms]: a clock before the epoch panics. *)
Definition now_ms `{Clock} : ST World Z :=
  let* t := read_clock in
  if t <? 0 then st_lift Panic else st_ret (wrap64 t).

(** [OpenOptions::new().create(true).truncate(false).open(name)]. *)
Definition open_create (name : str) : ST World unit :=
  st_modify (fun w => match disk w !! name with
                      | Some _ => w
                      | None => with_disk w (<[name := []]> (disk w))
                      end).

(** [File::open(name)] and what it reads. *)
Definition open_read (name : str) : ST World bytes := fun w =>
  (w, match disk w !! name with Some b => Ok b | None => Err NotFound end).

Definition write_file (name : str) (b : bytes) : ST World unit :=
  st_modify (fun w => with_disk w (<[name := b]> (disk w))).

(** [fs::remove_file]. *)
Definition remove_file (name : str) : ST World unit := fun w =>
  match disk w !! name with
  | Some _ => (with_disk w (delete name (disk w)), Ok tt)
  | None => (w, Err NotFound)
  end.

(** [fs::read_dir]: the names in the directory. *)
Definition read_dir : ST World (list str) := st_gets (fun w => (map_to_list (disk w)).*1).

(** [File::sync_all] on the file called [name]. *)
Definition sync_file (name : str) : ST World unit :=
  st_modify (fun w => match disk w !! name with
                      | Some b => mkWorld (disk w) (<[name := b]> (durable w)) (ticks w)
                      | None => w
                      end).

Lemma read_dir_elem (w : World) n : n ∈ (map_to_list (disk w)).*1 <-> is_Some (disk w !! n).
Proof.
  rewrite list_elem_of_fmap. split.
  - intros ([k b] & -> & Hin). apply elem_of_map_to_list in Hin. eauto.
  - intros [b Hb]. exists (n, b). split; [done|]. by apply elem_of_map_to_list.
Qed.

Lemma read_dir_nodup (w : World) : NoDup (map_to_list (disk w)).*1.
Proof. apply NoDup_fst_map_to_list. Qed.
