(* ===== verification/Background.v ===== *)
(** * The background worker (src/src/worker.rs)

    A thread that runs a job at intervals until its owner is dropped. The
    thread and the [drop] of the owner are step machines over the shared stop
    flag and the parking token; other threads may change what the job works on
    at any time. *)

From S2P Require Import Prelude World.

(** ** The machine *)

(** Where the thread is: before the test of the loop, parked, after the park,
    about to run the job, ended, or ended by a panic of the job. *)
Inductive Stage := Testing | Parked | Woken | Working | Exited | Crashed.

(** How far [drop] is: not called, the flag stored, the thread unparked and
    [join] waiting, returned, or ended by the panic of [join().unwrap()]. *)
Inductive Dropping := Alive | Stored | Joining | Dropped | DropPanicked.

Record BackgroundWorker {W : Type} := mkBackground {
  stop : bool;
  token : bool;
  stage : Stage;
  dropping : Dropping;
  jobs : nat;                  (* how often the job has been run *)
  shared : W;
}.
Arguments BackgroundWorker : clear implicits.

Section Worker.
Context {W : Type} (job : ST W unit).

Definition bg_spawn (w : W) : BackgroundWorker W := mkBackground W false false Testing Alive 0 w.

Definition at_stage (st : Stage) (b : BackgroundWorker W) : BackgroundWorker W :=
  mkBackground W (stop b) (token b) st (dropping b) (jobs b) (shared b).

(** One step of the spawned thread. [park_timeout] may return at any time, and
    takes the token if there is one. *)
Definition thread_step (b : BackgroundWorker W) : BackgroundWorker W :=
  match stage b with
  | Testing => at_stage (if stop b then Exited else Parked) b
  | Parked => mkBackground W (stop b) false Woken (dropping b) (jobs b) (shared b)
  | Woken => at_stage (if stop b then Exited else Working) b
  | Working =>
      let '(w, r) := job (shared b) in
      mkBackground W (stop b) (token b) (match r with Ok _ => Testing | _ => Crashed end)
        (dropping b) (S (jobs b)) w
  | Exited | Crashed => b
  end.

(** One step of [drop]; [join] blocks until the thread has ended. *)
Definition drop_step (b : BackgroundWorker W) : BackgroundWorker W :=
  match dropping b with
  | Alive => mkBackground W true (token b) (stage b) Stored (jobs b) (shared b)
  | Stored => mkBackground W (stop b) true (stage b) Joining (jobs b) (shared b)
  | Joining =>
      match stage b with
      | Exited => mkBackground W (stop b) (token b) (stage b) Dropped (jobs b) (shared b)
      | Crashed => mkBackground W (stop b) (token b) (stage b) DropPanicked (jobs b) (shared b)
      | _ => b
      end
  | Dropped | DropPanicked => b
  end.

Inductive bg_act := ByThread | ByDrop | ByOthers (f : W -> W).

Definition bg_step (a : bg_act) (b : BackgroundWorker W) : BackgroundWorker W :=
  match a with
  | ByThread => thread_step b
  | ByDrop => drop_step b
  | ByOthers f => mkBackground W (stop b) (token b) (stage b) (dropping b) (jobs b) (f (shared b))
  end.

Definition bg_run (l : list bg_act) (b : BackgroundWorker W) : BackgroundWorker W :=
  fold_left (fun b a => bg_step a b) l b.

(** ** The invariant *)

Definition ended (b : BackgroundWorker W) : Prop := stage b = Exited \/ stage b = Crashed.

Definition bg_inv (b : BackgroundWorker W) : Prop :=
  match dropping b with
  | Alive => stop b = false
  | Stored | Joining => stop b = true
  | Dropped => stop b = true /\ stage b = Exited
  | DropPanicked => stop b = true /\ stage b = Crashed
  end.

(** The steps of the thread until it ends, once the flag is up, and how often
    it may still run the job. *)
Definition to_exit (s : Stage) : nat :=
  match s with Parked | Working => 2 | Testing | Woken => 1 | Exited | Crashed => 0 end.

Definition last_job (s : Stage) : nat := match s with Working => 1 | _ => 0 end.

Fixpoint thread_steps (l : list bg_act) : nat :=
  match l with
  | [] => 0
  | ByThread :: l' => S (thread_steps l')
  | _ :: l' => thread_steps l'
  end.

(** ** Lemmas *)

Lemma bg_step_inv a b : bg_inv b -> bg_inv (bg_step a b).
Proof.
  intros Hi. unfold bg_inv, bg_step, thread_step, drop_step, at_stage in *.
  destruct b as [st tk sg dr n w], a; cbn in *; destruct sg, dr; cbn in *; try done;
    first [by destruct Hi | by destruct (job w)].
Qed.

Lemma bg_run_inv l b : bg_inv b -> bg_inv (bg_run l b).
Proof.
  revert b. induction l as [|a l IH]; intros b Hi; [done|]. cbn. by apply IH, bg_step_inv.
Qed.

(** Once the flag is up. *)
Lemma bg_step_stopped a b :
  stop b = true ->
  let b' := bg_step a b in
  stop b' = true /\ (jobs b' + last_job (stage b') <= jobs b + last_job (stage b))%nat /\
  (match a with ByThread => to_exit (stage b') <= pred (to_exit (stage b))
   | _ => stage b' = stage b end)%nat.
Proof.
  destruct b as [st tk sg dr n w]. cbn. intros ->.
  destruct a as [| |f]; cbn; unfold thread_step, drop_step, at_stage; cbn.
  - destruct sg; cbn; try (split_and!; [done | lia | lia]).
    destruct (job w) as [w' [| |]]; cbn; split_and!; try done; lia.
  - destruct dr, sg; cbn; split_and!; try done; lia.
  - split_and!; [done | lia | done].
Qed.

Lemma bg_run_stopped l b :
  stop b = true ->
  stop (bg_run l b) = true /\
  (jobs (bg_run l b) + last_job (stage (bg_run l b)) <= jobs b + last_job (stage b))%nat /\
  (to_exit (stage (bg_run l b)) <= to_exit (stage b) - thread_steps l)%nat.
Proof.
  revert b. induction l as [|a l IH]; intros b Hs; [cbn; split_and!; [done | lia | lia]|].
  destruct (bg_step_stopped a b Hs) as (Hs' & Hj & He).
  destruct (IH (bg_step a b) Hs') as (H1 & H2 & H3).
  change (bg_run (a :: l) b) with (bg_run l (bg_step a b)).
  split_and!; [done | lia |]. destruct a; cbn [thread_steps]; [lia | by rewrite He in H3 | exact H3].
Qed.

Lemma to_exit_ended b : to_exit (stage b) = 0%nat <-> ended b.
Proof. unfold ended. destruct (stage b); cbn; split; auto; try lia; intros [?|?]; done. Qed.

(** [join] waits, or has returned. *)
Definition joining (b : BackgroundWorker W) : Prop :=
  match dropping b with Alive | Stored => False | _ => True end.

Lemma bg_run_joining l b : joining b -> joining (bg_run l b).
Proof.
  revert b. induction l as [|a l IH]; intros b Hj; [done|]. cbn. apply IH.
  destruct b as [st tk sg dr n w], a; unfold joining, bg_step, thread_step, drop_step, at_stage in *;
    cbn in *; destruct sg, dr; cbn in *; try done; by destruct (job w).
Qed.

Lemma bg_run_healthy l b :
  (forall w, exists w', job w = (w', Ok tt)) -> stage b <> Crashed -> stage (bg_run l b) <> Crashed.
Proof.
  intros Hjob. revert b. induction l as [|a l IH]; intros b Hb; [done|]. cbn. apply IH.
  destruct b as [st tk sg dr n w], a; unfold bg_step, thread_step, drop_step, at_stage in *; cbn in *.
  - destruct sg; cbn; try done; [by destruct st | by destruct st |].
    destruct (Hjob w) as [w' ->]. done.
  - by destruct dr, sg.
  - done.
Qed.

(** ** Theorems *)

(** C25: Dropping a worker stops it. Whatever the interleaving of the thread, the
    [drop] and the rest of the program since the worker was spawned, once the
    stop flag is up the job is run at most once more, and only if the thread
    was past its last test; and when [drop] has returned the thread has ended
    and the job is never run again. *)
Theorem dropped_worker_is_silent w l l' :
  let b := bg_run l (bg_spawn w) in
  let b' := bg_run l' b in
  (stop b = true -> (jobs b' <= jobs b + last_job (stage b))%nat) /\
  (dropping b = Dropped -> stage b' = Exited /\ jobs b' = jobs b).
Proof.
  intros b b'. assert (Hi : bg_inv b) by (by apply bg_run_inv). split.
  - intros Hs. destruct (bg_run_stopped l' b Hs) as (_ & Hj & _). fold b' in Hj. lia.
  - intros Hd. unfold bg_inv in Hi. rewrite Hd in Hi. destruct Hi as [_ He].
    clear Hd. subst b'. revert He. generalize b. clear. intros b He. revert b He.
    induction l' as [|a l IH]; intros b He; [done|]. cbn.
    assert (Hb : stage (bg_step a b) = Exited /\ jobs (bg_step a b) = jobs b).
    { destruct b as [st tk sg dr n w], a; cbn in *; subst; unfold thread_step, drop_step; cbn;
        [done | by destruct dr | done]. }
    destruct Hb as [H1 H2]. destruct (IH _ H1) as [H3 H4]. split; [exact H3|]. by rewrite <- H2.
Qed.

(** C26: [drop] returns. Once it has stored the flag and unparked the thread, two
    more steps of the thread are enough for [join] to return at the next
    attempt, whatever else runs in between; and if the job does not panic,
    [drop] does not either. *)
Theorem drop_returns w l l' :
  let b := bg_run l (bg_spawn w) in
  dropping b = Joining -> (2 <= thread_steps l')%nat ->
  let b' := bg_step ByDrop (bg_run l' b) in
  (dropping b' = Dropped \/ dropping b' = DropPanicked) /\
  ((forall w, exists w', job w = (w', Ok tt)) -> dropping b' = Dropped).
Proof.
  intros b Hd Hl b'. assert (Hi : bg_inv b) by (by apply bg_run_inv).
  unfold bg_inv in Hi. rewrite Hd in Hi. destruct (bg_run_stopped l' b Hi) as (_ & _ & He).
  assert (H2 : (to_exit (stage b) <= 2)%nat) by (destruct (stage b); cbn; lia).
  assert (Hended : ended (bg_run l' b)) by (apply to_exit_ended; lia).
  assert (Hinv : bg_inv (bg_run l' b)) by (apply bg_run_inv; subst b; by apply bg_run_inv).
  assert (Hj : joining (bg_run l' b)) by (apply bg_run_joining; unfold joining; by rewrite Hd).
  assert (Hh : (forall w, exists w', job w = (w', Ok tt)) -> stage (bg_run l' b) <> Crashed).
  { intros Hjob. apply bg_run_healthy; [done|]. subst b. by apply bg_run_healthy. }
  subst b'. revert Hended Hinv Hj Hh. generalize (bg_run l' b). clear.
  intros [st tk sg dr n w]. unfold ended, bg_inv, joining, bg_step, drop_step. cbn.
  intros [->| ->] Hinv Hj Hh; destruct dr; cbn in *; try done; split; auto;
    try (destruct Hinv; done); intros Hjob; by destruct (Hh Hjob).
Qed.
End Worker.

(** ** Examples *)

(** The flag goes up while the thread is about to run its job. *)
Definition example_acts : list (bg_act (W := unit)) :=
  [ByThread; ByThread; ByThread; ByDrop; ByDrop].

Lemma drop_returns_witness :
  let b := bg_run (st_ret tt) example_acts (bg_spawn tt) in
  let b' := bg_step (st_ret tt) ByDrop (bg_run (st_ret tt) [ByDrop; ByThread; ByThread] b) in
  stage b = Working /\ jobs b' = 1%nat /\ dropping b' = Dropped.
Proof.
  split_and!; [reflexivity | reflexivity |].
  apply (drop_returns (st_ret tt) tt example_acts [ByDrop; ByThread; ByThread]);
    [reflexivity | cbn; lia | intros []; by exists tt].
Defined.
