(* ===== verification/Engine.v ===== *)
(** * The storage engine interface (src/src/engine.rs)

    What the server asks of an engine. [KvEngine] and [LsmEngine] are its
    instances; the dispatcher is written against it. *)

From S2P Require Import Prelude.

Inductive TtlOutcome := TtlSet | TtlPersisted | TtlNotFound.

(** The trait [StorageEngine], on the states [S] of an engine. [e_range] is
    [RangeScan::range], for the engine whose [as_any] downcasts to the one
    that implements it. *)
Class StorageEngine (S : Type) := {
  e_get : str -> ST S (option (str * str));
  e_delete : str -> ST S (option unit);
  e_compact : ST S unit;
  e_dead_bytes : ST S Z;
  e_total_bytes : ST S Z;
  e_segment_count : ST S Z;
  e_list_keys : ST S (list str);
  e_exists : str -> ST S bool;
  e_mget : list str -> ST S (list (str * option str));
  e_compact_step : ST S bool;
  e_ttl : str -> option Z -> ST S TtlOutcome;
  e_set_with_ttl : str -> str -> option Z -> ST S unit;
  e_mset_with_ttl : list (str * str * option Z) -> ST S unit;
  e_set : str -> str -> ST S unit;
  e_mset : list (str * str) -> ST S unit;
  e_range : option (str -> str -> ST S (list (str * str)));
}.

(** The default [compact_step]. *)
Definition default_compact_step {S} : ST S bool := st_ret false.
