(* ===== verification/KvEngine.v ===== *)
(** * The hash engine (src/src/kvengine.rs)

    A Bitcask-style store: an index in memory, records appended to the active
    segment file, a write-ahead log in front of it, compaction into fresh
    segments with hint files. Each operation is the code run by one thread with
    its locks held; the state it works on is the engine and the directory. *)

From S2P Require Import Prelude Utf8 Record Collections Memtable Wal Hint Text Segment Utils.
From S2P Require Import Settings HashIndex World Engine.

(** A file handle: a file of the directory, or one that was unlinked while it
    was open. *)
Inductive Handle := Linked (name : str) | Orphan (contents : bytes).

Record KVEngine := mkKV {
  index : HashIndex;
  active_file : Handle;
  fsync_handle : option (Z * str);
  active_segment : Segment;
  db_name : str;
  max_segment_bytes : Z;
  writes_since_fsync : Z;
  fsync_strategy : FSyncStrategy;
  dead_bytes : Z;
  total_bytes : Z;
  segment_count : Z;
}.

Record KvState := mkKvState { eng : KVEngine; world : World }.

(** ** Access to the state *)

Definition on_world {A} (m : ST World A) : ST KvState A := fun s =>
  let '(w, r) := m (world s) in (mkKvState (eng s) w, r).
Definition ask {A} (f : KVEngine -> A) : ST KvState A := st_gets (fun s => f (eng s)).
Definition upd (f : KVEngine -> KVEngine) : ST KvState unit :=
  st_modify (fun s => mkKvState (f (eng s)) (world s)).

Definition set_index (i : HashIndex) (e : KVEngine) : KVEngine :=
  mkKV i (active_file e) (fsync_handle e) (active_segment e) (db_name e) (max_segment_bytes e)
    (writes_since_fsync e) (fsync_strategy e) (dead_bytes e) (total_bytes e) (segment_count e).
Definition set_active (h : Handle) (fh : option (Z * str)) (seg : Segment) (e : KVEngine)
    : KVEngine :=
  mkKV (index e) h fh seg (db_name e) (max_segment_bytes e)
    (writes_since_fsync e) (fsync_strategy e) (dead_bytes e) (total_bytes e) (segment_count e).
Definition set_writes (n : Z) (e : KVEngine) : KVEngine :=
  mkKV (index e) (active_file e) (fsync_handle e) (active_segment e) (db_name e)
    (max_segment_bytes e) n (fsync_strategy e) (dead_bytes e) (total_bytes e) (segment_count e).
Definition set_counters (dead total : Z) (e : KVEngine) : KVEngine :=
  mkKV (index e) (active_file e) (fsync_handle e) (active_segment e) (db_name e)
    (max_segment_bytes e) (writes_since_fsync e) (fsync_strategy e) dead total (segment_count e).
Definition set_segment_count (n : Z) (e : KVEngine) : KVEngine :=
  mkKV (index e) (active_file e) (fsync_handle e) (active_segment e) (db_name e)
    (max_segment_bytes e) (writes_since_fsync e) (fsync_strategy e) (dead_bytes e)
    (total_bytes e) n.

(** Reading and replacing what the active file holds, through its handle. *)
Definition read_active : ST KvState bytes :=
  st_gets (fun s => match active_file (eng s) with
                    | Linked n => default [] (disk (world s) !! n)
                    | Orphan b => b
                    end).
Definition write_active (b : bytes) : ST KvState unit := fun s =>
  match active_file (eng s) with
  | Linked n => on_world (write_file n b) s
  | Orphan _ =>
      upd (fun e => set_active (Orphan b) (fsync_handle e) (active_segment e) e) s
  end.
Definition sync_active : ST KvState unit := fun s =>
  match active_file (eng s) with
  | Linked n => on_world (sync_file n) s
  | Orphan _ => (s, Ok tt)
  end.

(** ** The write-ahead log *)

Definition wal_name (db : str) : str := db ++ bs ".wal".

Definition wal_open (db : str) : ST World unit := open_create (wal_name db).

Definition kv_wal_append (k v : str) (tombstone : bool) (e : option Z) : ST KvState unit :=
  let* db := ask db_name in
  on_world (let* file := st_gets (fun w => default [] (disk w !! wal_name db)) in
            write_file (wal_name db) (wal_append file k v tombstone e).2).

Definition kv_wal_reset : ST KvState unit :=
  let* db := ask db_name in
  on_world (let* file := st_gets (fun w => default [] (disk w !! wal_name db)) in
            write_file (wal_name db) (wal_reset file)).

Section Engine.
Context `{HashOrder} `{Clock}.

(** ** Creating segments *)

Definition new_segment (name : str) : ST World Segment :=
  let* t := read_clock in
  if t <? 0 then st_lift (Err Other) else st_ret (segment_new name t).

Definition spawn_fsync_worker (p : FSyncStrategy) (path : str) : option (Z * str) :=
  match p with FsPeriodic d => Some (d, path) | _ => None end.

Definition kv_new (name : str) (max : Z) (p : FSyncStrategy) : ST World KVEngine :=
  let* seg := new_segment name in
  let* _ := open_create (filename seg) in
  let* _ := wal_open name in
  st_ret (mkKV hi_new (Linked (filename seg)) (spawn_fsync_worker p (filename seg)) seg name max
            0 p 0 0 1).

(** ** Lookup and append *)

Definition kv_lookup (idx : HashIndex) (name : str) (active : Segment) (k : str) (now : Z)
    (d : files) : result (option str) :=
  match hi_get idx k with
  | None => Ok None
  | Some e =>
      if expired (i_expiry e) now then Ok None
      else
        let seg := if segment_timestamp e =? timestamp active then active
                   else mkSegment name (segment_timestamp e) in
        match d !! filename seg with
        | None => Err NotFound
        | Some file =>
            let? r := read_record_at file (offset e) in
            Ok (Some (value r))
        end
  end.

Definition roll_active : ST KvState unit :=
  let* _ := sync_active in
  let* _ := upd (fun e => set_active (active_file e) None (active_segment e) e) in
  let* name := ask db_name in
  let* seg := on_world (new_segment name) in
  let* _ := on_world (open_create (filename seg)) in
  let* _ := upd (fun e => set_active (Linked (filename seg))
                            (spawn_fsync_worker (fsync_strategy e) (filename seg)) seg e) in
  let* _ := kv_wal_reset in
  upd (fun e => set_segment_count (wrap64 (segment_count e + 1)) e).

(** The size of the record written and that of the record it replaces. *)
Definition kv_append (k v : str) (expiry : option Z) : ST KvState (Z * option Z) :=
  let* _ := kv_wal_append k v false expiry in
  let record := make_record k v false expiry in
  let* contents := read_active in
  let* max := ask max_segment_bytes in
  let* _ := (if max <? len contents + size_on_disk record then roll_active else st_ret tt) in
  let* contents := read_active in
  let '(off, contents') := append record contents in
  let* _ := write_active contents' in
  let* ts := ask (fun e => timestamp (active_segment e)) in
  let* idx := ask index in
  let new_size := size_on_disk record in
  let '(old, idx') := hi_set idx k off ts new_size expiry in
  let* _ := upd (set_index idx') in
  st_ret (new_size, record_size <$> old).

Definition fsync : ST KvState unit :=
  let* n := ask writes_since_fsync in
  let writes := wrap64 (n + 1) in
  let* _ := upd (set_writes writes) in
  let* p := ask fsync_strategy in
  match p with
  | FsAlways => let* _ := upd (set_writes 0) in sync_active
  | FsNever => st_ret tt
  | FsEveryN n =>
      if n <=? writes then let* _ := upd (set_writes 0) in sync_active else st_ret tt
  | FsPeriodic _ => st_ret tt
  end.

Definition add_counters (dead total : Z) : ST KvState unit :=
  upd (fun e => set_counters (wrap64 (dead_bytes e + dead)) (wrap64 (total_bytes e + total)) e).

(** ** The operations of [StorageEngine] *)

Definition get (k : str) : ST KvState (option (str * str)) :=
  let* now := on_world now_ms in
  let* active := ask active_segment in
  let* idx := ask index in
  let* name := ask db_name in
  let* d := st_gets (fun s => disk (world s)) in
  let* v := st_lift (kv_lookup idx name active k now d) in
  st_ret ((fun v => (k, v)) <$> v).

Definition set_with_ttl (k v : str) (expiry : option Z) : ST KvState unit :=
  if (MAX_KEY_SIZE <? len k) || (MAX_VALUE_SIZE <? len v) then st_lift (Err InvalidInput)
  else
    let* p := kv_append k v expiry in
    let '(new_size, replaced) := p in
    let* _ := add_counters (default 0 replaced) new_size in
    fsync.

Definition kv_set (k v : str) : ST KvState unit :=
  if (MAX_KEY_SIZE <? len k) || (MAX_VALUE_SIZE <? len v) then st_lift (Err InvalidInput)
  else
    let* p := kv_append k v None in
    let '(new_size, replaced) := p in
    let* _ := add_counters (default 0 replaced) new_size in
    fsync.

Definition kv_delete (k : str) : ST KvState (option unit) :=
  if MAX_KEY_SIZE <? len k then st_lift (Err InvalidInput)
  else
    let* _ := kv_wal_append k [] true None in
    let* idx := ask index in
    let '(old, idx') := hi_delete idx k in
    let* _ := upd (set_index idx') in
    match old with
    | Some entry =>
        let record := make_record k [] true None in
        let* contents := read_active in
        let* _ := write_active (append record contents).2 in
        let* _ := fsync in
        let* _ := add_counters (record_size entry + size_on_disk record)
                    (size_on_disk record) in
        st_ret (Some tt)
    | None => st_ret None
    end.

Definition list_keys : ST KvState (list str) :=
  let* now := on_world now_ms in
  let* idx := ask index in
  st_ret (List.filter (fun k => negb (match hi_get idx k with
                                      | Some e => expired (i_expiry e) now
                                      | None => false
                                      end)) (ls_keys idx)).

(** The clock is read only when the key has an expiry. *)
Definition exists_key (k : str) : ST KvState bool :=
  let* idx := ask index in
  match hi_get idx k with
  | Some e =>
      match i_expiry e with
      | Some exp => let* now := on_world now_ms in st_ret (negb (is_expired exp now))
      | None => st_ret true
      end
  | None => st_ret false
  end.

Fixpoint mget (keys : list str) : ST KvState (list (str * option str)) :=
  match keys with
  | [] => st_ret []
  | k :: keys' =>
      let* r := get k in
      let* rest := mget keys' in
      st_ret (match r with Some (k', v) => (k', Some v) | None => (k, None) end :: rest)
  end.

Definition mset (items : list (str * str)) : ST KvState unit :=
  st_iter (fun '(k, v) => kv_set k v) items.

Definition mset_with_ttl (items : list (str * str * option Z)) : ST KvState unit :=
  st_iter (fun '(k, v, e) => set_with_ttl k v e) items.

Definition ttl (k : str) (expiry : option Z) : ST KvState TtlOutcome :=
  let* now := on_world now_ms in
  let* idx := ask index in
  let* name := ask db_name in
  let* active := ask active_segment in
  let* d := st_gets (fun s => disk (world s)) in
  let* found := st_lift (kv_lookup idx name active k now d) in
  match found with
  | None => st_ret TtlNotFound
  | Some v =>
      let* p := kv_append k v expiry in
      let '(new_size, replaced) := p in
      let* _ := add_counters (default 0 replaced) new_size in
      let* _ := fsync in
      st_ret (match expiry with Some _ => TtlSet | None => TtlPersisted end)
  end.

(** ** Compaction *)

(** Running an operation of another engine on the same directory. *)
Definition with_engine {A} (e : KVEngine) (m : ST KvState A) : ST World (KVEngine * A) := fun w =>
  let '(s, r) := m (mkKvState e w) in
  (world s, let? a := r in Ok (eng s, a)).

(** One turn of the loop that copies the live keys, and the loop. *)
Definition compact_copy (new_db : KVEngine) (k : str) (expiry : option Z) : ST KvState KVEngine :=
  let* found := get k in
  match found with
  | None => st_ret new_db
  | Some (_, v) =>
      let* p := on_world (with_engine new_db (set_with_ttl k v expiry)) in
      st_ret p.1
  end.

Fixpoint compact_loop (new_db : KVEngine) (l : list (str * option Z)) : ST KvState KVEngine :=
  match l with
  | [] => st_ret new_db
  | (k, expiry) :: l' =>
      let* new_db := compact_copy new_db k expiry in
      compact_loop new_db l'
  end.

Definition live_keys (idx : HashIndex) (now : Z) : list (str * option Z) :=
  omap (fun k => match hi_get idx k with
                 | Some e => if expired (i_expiry e) now then None else Some (k, i_expiry e)
                 | None => None
                 end) (ls_keys idx).

Definition hints_of (idx : HashIndex) (seg : Segment) : list HintEntry :=
  omap (fun k => match hi_get idx k with
                 | Some e =>
                     if segment_timestamp e =? timestamp seg
                     then Some (mkHint (len k) (offset e) false (i_expiry e) k)
                     else None
                 | None => None
                 end) (ls_keys idx).

(** [build_compacted] in three parts: up to the list of the keys to copy, the
    copying, and the hint files. *)
Definition compact_begin : ST KvState (KVEngine * list Segment * list (str * option Z)) :=
  let* name := ask db_name in
  let* dir := on_world read_dir in
  let old_segments := get_segments dir name in
  let* max := ask max_segment_bytes in
  let* p := ask fsync_strategy in
  let* new_db := on_world (kv_new name max p) in
  let* now := on_world now_ms in
  let* idx := ask index in
  st_ret (new_db, old_segments, live_keys idx now).

Definition compact_hints (new_db : KVEngine) (old_segments : list Segment) : ST KvState unit :=
  let* name := ask db_name in
  let* _ := on_world (with_engine new_db sync_active) in
  let* dir := on_world read_dir in
  let new_segments :=
    List.filter (fun s => negb (existsb (fun o => timestamp o =? timestamp s) old_segments))
      (get_segments dir name) in
  st_iter (fun seg => on_world (write_file (hint_filename seg)
                                  (hint_write_file (hints_of (index new_db) seg))))
    new_segments.

Definition build_compacted : ST KvState (KVEngine * list Segment) :=
  let* b := compact_begin in
  let* new_db := compact_loop b.1.1 b.2 in
  let* _ := compact_hints new_db b.1.2 in
  st_ret (new_db, b.1.2).

(** Unlinking a file of the directory; if it is the active file the handle
    keeps its contents. *)
Definition unlink (name : str) : ST KvState unit := fun s =>
  match active_file (eng s) with
  | Linked n =>
      if decide (n = name) then
        let b := default [] (disk (world s) !! n) in
        (let* _ := on_world (remove_file name) in
         upd (fun e => set_active (Orphan b) (fsync_handle e) (active_segment e) e)) s
      else on_world (remove_file name) s
  | Orphan _ => on_world (remove_file name) s
  end.

(** [let _ = fs::remove_file(..)]. *)
Definition ignore {A} (m : ST KvState A) : ST KvState unit := fun s => ((m s).1, Ok tt).

(** The span of [compact] with every lock held: the new engine takes over. *)
Definition install (new_db : KVEngine) : ST KvState unit :=
  let* _ := upd (set_active (active_file new_db) (fsync_handle new_db) (active_segment new_db)) in
  let* _ := upd (set_index (index new_db)) in
  let* _ := upd (set_writes 0) in
  let* _ := upd (set_segment_count 1) in
  kv_wal_reset.

(** One turn of the loop that deletes the old segments. *)
Definition remove_segment (seg : Segment) : ST KvState unit :=
  let* _ := unlink (filename seg) in ignore (unlink (hint_filename seg)).

Definition compact : ST KvState unit :=
  let* p := build_compacted in
  let* _ := install p.1 in
  st_iter remove_segment p.2.

(** ** Reopening a directory *)

(** One turn of the loop over the segments: the index and the running size. *)
Definition open_segment (acc : HashIndex * Z) (seg : Segment) : ST World (HashIndex * Z) :=
  let '(idx, size) := acc in
  let* file := open_read (filename seg) in
  let* hints := st_gets (fun w => match disk w !! hint_filename seg with
                                  | Some h => hint_read_file h
                                  | None => Err NotFound
                                  end) in
  let* idx' := st_lift
    match hints with
    | Ok hs =>
        Ok (fold_left (fun idx h => if htombstone h then idx
                                    else (hi_set idx (hkey h) (hoffset h) (timestamp seg) 0
                                            (hexpiry h)).2) hs idx)
    | Err _ => merge_from_file idx file (timestamp seg)
    | Panic => Panic
    end in
  st_ret (idx', size + len file).

Fixpoint open_segments (acc : HashIndex * Z) (segs : list Segment) : ST World (HashIndex * Z) :=
  match segs with
  | [] => st_ret acc
  | seg :: segs' => let* acc' := open_segment acc seg in open_segments acc' segs'
  end.

(** Re-applying one replayed write to the last segment. *)
Definition restore_entry (seg : Segment) (acc : HashIndex * Z) (p : str * MemtableEntry)
    : ST World (HashIndex * Z) :=
  let '(idx, size) := acc in
  let '(k, e) := p in
  let* file := open_read (filename seg) in
  match mvalue e with
  | Some v =>
      let record := make_record k v false (mexpiry e) in
      let '(off, file') := append record file in
      let* _ := write_file (filename seg) file' in
      st_ret ((hi_set idx k off (timestamp seg) (size_on_disk record) (mexpiry e)).2,
              size + size_on_disk record)
  | None =>
      let record := make_record k [] true None in
      let* _ := write_file (filename seg) (append record file).2 in
      st_ret ((hi_delete idx k).2, size + size_on_disk record)
  end.

Fixpoint restore_entries (seg : Segment) (acc : HashIndex * Z) (l : list (str * MemtableEntry))
    : ST World (HashIndex * Z) :=
  match l with
  | [] => st_ret acc
  | p :: l' => let* acc' := restore_entry seg acc p in restore_entries seg acc' l'
  end.

Definition from_dir (name : str) (max : Z) (p : FSyncStrategy) : ST World (option KVEngine) :=
  let* dir := read_dir in
  let segments := get_segments dir name in
  match last segments with
  | None => st_ret None
  | Some seg =>
      let* acc := open_segments (hi_new, 0) segments in
      let* _ := wal_open name in
      let* wal := open_read (wal_name name) in
      let* memtable := st_lift (replay wal) in
      let* acc := restore_entries seg acc (entries memtable) in
      let* wal := open_read (wal_name name) in
      let* _ := write_file (wal_name name) (wal_reset wal) in
      st_ret (Some (mkKV acc.1 (Linked (filename seg)) (spawn_fsync_worker p (filename seg)) seg
                      name max 0 p 0 acc.2 (len segments)))
  end.

#[export] Instance kv_storage_engine : StorageEngine KvState := {
  e_get := get;
  e_delete := kv_delete;
  e_compact := compact;
  e_dead_bytes := ask dead_bytes;
  e_total_bytes := ask total_bytes;
  e_segment_count := ask segment_count;
  e_list_keys := list_keys;
  e_exists := exists_key;
  e_mget := mget;
  e_compact_step := default_compact_step;
  e_ttl := ttl;
  e_set_with_ttl := set_with_ttl;
  e_mset_with_ttl := mset_with_ttl;
  e_set := kv_set;
  e_mset := mset;
  e_range := None;
}.

End Engine.
