(* ===== verification/KvLog.v ===== *)
(** * Logs: what the segment files of the hash engine mean

    The ghost state of the proofs about the engine: the records of each
    segment, oldest segment first. The map a log stands for is the effect of
    its records in order; an index agrees with it when every entry points at
    the record that gives its key its value. *)

From S2P Require Import Prelude Utf8 Record Collections Memtable Wal Hint Text Segment Utils.
From S2P Require Import HashIndex World Engine KvEngine.

Definition log : Type := list (Z * list Rec).

(** The abstract store: values with their expiry. *)
Abbreviation kvmap := (gmap str (str * option Z)).

Definition apply_rec (m : kvmap) (r : Rec) : kvmap :=
  if is_tombstone (header r) then delete (key r) m
  else <[key r := (value r, expiry_ms (header r))]> m.

Definition recs_map (m : kvmap) (rs : list Rec) : kvmap := fold_left apply_rec rs m.

Definition log_map (l : log) : kvmap := fold_left (fun m p => recs_map m p.2) l ∅.
Definition log_index (l : log) : HashIndex :=
  fold_left (fun h p => merge_records p.1 h 0 p.2) l ∅.

(** The index entry [e] points at the record [r] of the log. *)
Definition located (l : log) (e : IndexEntry) (r : Rec) : Prop :=
  exists pre post, (segment_timestamp e, pre ++ r :: post) ∈ l /\ offset e = len (recs_bytes pre).

Definition entry_for (l : log) (k : str) (e : IndexEntry) (vx : str * option Z) : Prop :=
  i_expiry e = vx.2 /\
  exists r, located l e r /\ key r = k /\ value r = vx.1 /\ expiry_ms (header r) = vx.2 /\
    is_tombstone (header r) = false.

Definition agree (l : log) (h : HashIndex) (m : kvmap) : Prop :=
  forall k, match h !! k, m !! k with
            | None, None => True
            | Some e, Some vx => entry_for l k e vx
            | _, _ => False
            end.

(** ** Lemmas: the map of a log *)

Lemma recs_map_app m rs rs' : recs_map m (rs ++ rs') = recs_map (recs_map m rs) rs'.
Proof. apply fold_left_app. Qed.

Lemma log_map_snoc l ts rs : log_map (l ++ [(ts, rs)]) = recs_map (log_map l) rs.
Proof. unfold log_map. by rewrite fold_left_app. Qed.

Lemma log_index_snoc l ts rs :
  log_index (l ++ [(ts, rs)]) = merge_records ts (log_index l) 0 rs.
Proof. unfold log_index. by rewrite fold_left_app. Qed.

Lemma log_map_snoc_rec l ts rs r :
  log_map (l ++ [(ts, rs ++ [r])]) = apply_rec (log_map (l ++ [(ts, rs)])) r.
Proof. rewrite !log_map_snoc, recs_map_app. done. Qed.

(** ** Lemmas: agreement *)

(** A log that only grew. *)
Definition extends (l l' : log) : Prop :=
  forall ts rs, (ts, rs) ∈ l -> exists more, (ts, rs ++ more) ∈ l'.

Lemma extends_refl l : extends l l.
Proof. intros ts rs H. exists []. by rewrite app_nil_r. Qed.

Lemma extends_new l p : extends l (l ++ [p]).
Proof. intros ts rs H. exists []. rewrite app_nil_r. apply elem_of_app. by left. Qed.

Lemma extends_snoc l ts rs r : extends (l ++ [(ts, rs)]) (l ++ [(ts, rs ++ [r])]).
Proof.
  intros ts' rs' H. apply elem_of_app in H as [H|H].
  - exists []. rewrite app_nil_r. apply elem_of_app. by left.
  - apply list_elem_of_singleton in H as [= -> ->]. exists [r]. apply elem_of_app.
    right. by apply list_elem_of_singleton.
Qed.

Lemma located_extends l l' e r : extends l l' -> located l e r -> located l' e r.
Proof.
  intros Hx (pre & post & Hin & Ho). destruct (Hx _ _ Hin) as [more Hm].
  exists pre, (post ++ more). split; [|done]. by rewrite <- app_assoc in Hm.
Qed.

Lemma entry_for_extends l l' k e vx : extends l l' -> entry_for l k e vx -> entry_for l' k e vx.
Proof.
  intros Hx (He & r & Hl & Hr). split; [done|]. exists r. eauto using located_extends.
Qed.

Lemma agree_extends l l' h m : extends l l' -> agree l h m -> agree l' h m.
Proof.
  intros Hx Ha k. specialize (Ha k). repeat case_match; eauto using entry_for_extends.
Qed.

Lemma agree_None l h m k : agree l h m -> h !! k = None <-> m !! k = None.
Proof. intros Ha. specialize (Ha k). repeat case_match; naive_solver. Qed.

Lemma agree_Some l h m k e :
  agree l h m -> h !! k = Some e -> exists vx, m !! k = Some vx /\ entry_for l k e vx.
Proof. intros Ha He. specialize (Ha k). rewrite He in Ha. case_match; naive_solver. Qed.

Lemma agree_delete l h m k : agree l h m -> agree l (delete k h) (delete k m).
Proof.
  intros Ha k'. destruct (decide (k = k')) as [->|Hne].
  - by rewrite !lookup_delete_eq.
  - rewrite !lookup_delete_ne by done. apply Ha.
Qed.

Lemma agree_insert l h m k e vx :
  agree l h m -> entry_for l k e vx -> agree l (<[k := e]> h) (<[k := vx]> m).
Proof.
  intros Ha He k'. destruct (decide (k = k')) as [->|Hne].
  - by rewrite !lookup_insert_eq.
  - rewrite !lookup_insert_ne by done. apply Ha.
Qed.

(** Appending a value record to the last segment and indexing it. *)
Lemma agree_append l ts rs h m r sz :
  agree (l ++ [(ts, rs)]) h m -> is_tombstone (header r) = false ->
  agree (l ++ [(ts, rs ++ [r])])
    (<[key r := mkIndexEntry ts (len (recs_bytes rs)) sz (expiry_ms (header r))]> h)
    (apply_rec m r).
Proof.
  intros Ha Ht. unfold apply_rec. rewrite Ht. apply agree_insert.
  - eapply agree_extends; [apply extends_snoc | done].
  - split; [done|]. exists r. split; [|done]. exists rs, []. split; [|done].
    apply elem_of_app. right. by apply list_elem_of_singleton.
Qed.

(** Appending a tombstone and dropping the key. *)
Lemma agree_tombstone l ts rs h m r :
  agree (l ++ [(ts, rs)]) h m -> is_tombstone (header r) = true ->
  agree (l ++ [(ts, rs ++ [r])]) (delete (key r) h) (apply_rec m r).
Proof.
  intros Ha Ht. unfold apply_rec. rewrite Ht. apply agree_delete.
  eapply agree_extends; [apply extends_snoc | done].
Qed.

Lemma agree_merge_record l ts rs h m r :
  agree (l ++ [(ts, rs)]) h m ->
  agree (l ++ [(ts, rs ++ [r])]) (merge_record ts h (len (recs_bytes rs)) r) (apply_rec m r).
Proof.
  intros Ha. unfold merge_record. destruct (is_tombstone (header r)) eqn:E.
  - by apply agree_tombstone.
  - by apply agree_append.
Qed.

(** Scanning a segment after the others. *)
Lemma agree_merge_records l ts h rs :
  agree l h (log_map l) ->
  agree (l ++ [(ts, rs)]) (merge_records ts h 0 rs) (log_map (l ++ [(ts, rs)])).
Proof.
  intros Ha. rewrite log_map_snoc. induction rs as [|r rs IH] using rev_ind.
  - cbn. eapply agree_extends; [apply extends_new | done].
  - rewrite merge_records_snoc, recs_map_app, Z.add_0_l. by apply agree_merge_record.
Qed.

(** The index a scan of all the segments builds agrees with the log. *)
Lemma agree_log_index l : agree l (log_index l) (log_map l).
Proof.
  induction l as [|[ts rs] l IH] using rev_ind.
  - intros k. cbn. by rewrite !lookup_empty.
  - rewrite log_index_snoc. by apply agree_merge_records.
Qed.

(** ** Lemmas: the names of the files *)

Lemma filename_inj db t t' :
  is_u64 t -> is_u64 t' -> filename (mkSegment db t) = filename (mkSegment db t') -> t = t'.
Proof.
  intros Ht Ht' E. pose proof (segment_parse_filename (mkSegment db t) Ht) as H1.
  pose proof (segment_parse_filename (mkSegment db t') Ht') as H2. congruence.
Qed.

Lemma last_byte_ne (a b : str) x y : x <> y -> a ++ [x] <> b ++ [y].
Proof. intros Hne E. apply app_inj_tail in E as [_ E]. done. Qed.

Lemma filename_last s : exists a, filename s = a ++ [Byte.x62].
Proof.
  exists (segment_name s ++ bs "_" ++ dec (timestamp s) ++ bs ".d").
  unfold filename. by rewrite <- !app_assoc.
Qed.
Lemma hint_filename_last s : exists a, hint_filename s = a ++ [Byte.x74].
Proof.
  exists (segment_name s ++ bs "_" ++ dec (timestamp s) ++ bs ".hin").
  unfold hint_filename. by rewrite <- !app_assoc.
Qed.
Lemma wal_name_last db : exists a, wal_name db = a ++ [Byte.x6c].
Proof. exists (db ++ bs ".wa"). unfold wal_name. by rewrite <- !app_assoc. Qed.

Lemma filename_ne_wal s db : filename s <> wal_name db.
Proof.
  destruct (filename_last s) as [a ->], (wal_name_last db) as [b ->]. by apply last_byte_ne.
Qed.
Lemma filename_ne_hint s s' : filename s <> hint_filename s'.
Proof.
  destruct (filename_last s) as [a ->], (hint_filename_last s') as [b ->]. by apply last_byte_ne.
Qed.
Lemma hint_ne_wal s db : hint_filename s <> wal_name db.
Proof.
  destruct (hint_filename_last s) as [a ->], (wal_name_last db) as [b ->]. by apply last_byte_ne.
Qed.

Lemma segment_parse_last a x : x <> Byte.x62 -> segment_parse (a ++ [x]) = None.
Proof.
  intros Hx. unfold segment_parse. destruct (strip_suffix _ _) as [r|] eqn:E; [|done].
  apply strip_suffix_Some in E. exfalso. revert E.
  change (bs ".db") with (bs ".d" ++ [Byte.x62]). rewrite app_assoc. by apply last_byte_ne.
Qed.

Lemma db_segment_wal db db' : db_segment db (wal_name db') = None.
Proof.
  unfold db_segment. destruct (wal_name_last db') as [a ->]. by rewrite segment_parse_last.
Qed.
Lemma db_segment_hint db s : db_segment db (hint_filename s) = None.
Proof.
  unfold db_segment. destruct (hint_filename_last s) as [a ->]. by rewrite segment_parse_last.
Qed.
Lemma db_segment_filename db t :
  is_u64 t -> db_segment db (filename (mkSegment db t)) = Some (mkSegment db t).
Proof.
  intros Ht. unfold db_segment. rewrite segment_parse_filename by done. by rewrite decide_True.
Qed.
#[export] Hint Resolve filename_ne_wal filename_ne_hint hint_ne_wal : rkv.
