(* ===== verification/KvInv.v ===== *)
(** * The invariant of the hash engine

    The segment files of the directory hold a log, the index agrees with the
    map of the log, and the write-ahead log holds nothing that contradicts that
    map. Every operation of the engine keeps this invariant. *)

From S2P Require Import Prelude Utf8 Record Collections Memtable Wal Hint Text Segment Utils.
From S2P Require Import Settings HashIndex World Engine KvEngine KvLog.

(** ** The directory *)

Record log_on_disk (name : str) (d : files) (l : log) : Prop := {
  lod_wf : Forall (fun p => Forall rec_wf p.2) l;
  lod_ts : Forall (fun p => is_u64 p.1) l;
  lod_sorted : StronglySorted Z.lt l.*1;
  lod_files ts rs : (ts, rs) ∈ l -> d !! filename (mkSegment name ts) = Some (recs_bytes rs);
  lod_only n s : is_Some (d !! n) -> db_segment name n = Some s ->
    n = filename s /\ timestamp s ∈ l.*1;
}.

(** What replaying one logged write does to the map. *)
Definition apply_op (m : kvmap) (o : wal_op) : kvmap :=
  if wtombstone o then delete (wkey o) m else <[wkey o := (wvalue o, wexpiry o)]> m.

(** The map already has the effect of everything the log would replay. *)
Definition wal_agrees (ops : list wal_op) (m : kvmap) : Prop :=
  forall k e, entry (mem_run mem_new (map wal_mem_op ops)) k = Some e ->
    m !! k = match mvalue e with Some v => Some (v, mexpiry e) | None => None end.

(** What is known of the log relative to the map; two instances are used:
    [wal_agrees], and nothing at all while a second engine shares the log. *)
Class WalPred (Wp : list wal_op -> kvmap -> Prop) : Prop := {
  wp_nil m : Wp [] m;
  wp_snoc ops o m : Wp ops m -> Wp (ops ++ [o]) (apply_op m o);
}.

Definition wal_ok (Wp : list wal_op -> kvmap -> Prop) (name : str) (d : files) (m : kvmap)
    : Prop :=
  exists ops, d !! wal_name name = Some (log_bytes ops) /\ Forall wal_op_ok ops /\ Wp ops m.

(** ** Lemmas: the directory *)

Lemma db_segment_name db n s : db_segment db n = Some s -> s = mkSegment db (timestamp s).
Proof.
  unfold db_segment. destruct (segment_parse n) as [s'|]; [|done].
  case_decide; [|done]. intros [= <-]. destruct s'. cbn in *. by subst.
Qed.

Lemma lod_ts_in name d l ts rs : log_on_disk name d l -> (ts, rs) ∈ l -> is_u64 ts.
Proof. intros H Hin. apply lod_ts in H. rewrite Forall_forall in H. by apply (H (ts, rs)). Qed.

Lemma lod_other name d l n b :
  log_on_disk name d l -> db_segment name n = None -> log_on_disk name (<[n := b]> d) l.
Proof.
  intros Hl Hn. destruct Hl as [H1 H2 H3 H4 H5]. split; try done.
  - intros ts rs Hin. rewrite lookup_insert_ne; [by apply H4|]. intros ->.
    rewrite db_segment_filename in Hn; [done|]. rewrite Forall_forall in H2.
    by apply (H2 (ts, rs)).
  - intros n' s Hn' Hs. destruct (decide (n = n')) as [->|Hne]; [congruence|].
    rewrite lookup_insert_ne in Hn' by done. by apply H5.
Qed.

Lemma lod_other_delete name d l n :
  log_on_disk name d l -> db_segment name n = None -> log_on_disk name (delete n d) l.
Proof.
  intros Hl Hn. destruct Hl as [H1 H2 H3 H4 H5]. split; try done.
  - intros ts rs Hin. rewrite lookup_delete_ne; [by apply H4|]. intros ->.
    rewrite db_segment_filename in Hn; [done|]. rewrite Forall_forall in H2.
    by apply (H2 (ts, rs)).
  - intros n' s Hn' Hs. destruct (decide (n = n')) as [->|Hne]; [congruence|].
    rewrite lookup_delete_ne in Hn' by done. by apply H5.
Qed.

Lemma sorted_snoc (l : list Z) t :
  StronglySorted Z.lt (l ++ [t]) <-> StronglySorted Z.lt l /\ Forall (fun x => x < t) l.
Proof.
  induction l as [|x l IH]; cbn.
  - split; intros _; repeat constructor.
  - split.
    + intros [Hs Hf]%StronglySorted_inv. apply IH in Hs as [Hs Hl].
      apply Forall_app in Hf as [Hf Hx]. inversion Hx; subst.
      split; constructor; auto.
    + intros [[Hs Hf]%StronglySorted_inv Hl]. inversion Hl; subst.
      constructor; [by apply IH|]. apply Forall_app. split; [done|]. by constructor.
Qed.

Lemma lod_fresh name d l ts :
  log_on_disk name d l -> is_u64 ts -> Forall (fun p => p.1 < ts) l ->
  d !! filename (mkSegment name ts) = None.
Proof.
  intros Hl Ht Hf. destruct (d !! _) eqn:E; [|done]. exfalso.
  destruct (lod_only _ _ _ Hl _ (mkSegment name ts) (ex_intro _ _ E)) as [_ Hin];
    [by apply db_segment_filename|].
  apply list_elem_of_fmap in Hin as ([t rs] & E' & Hin). cbn in E'. subst t.
  rewrite Forall_forall in Hf. apply Hf in Hin. cbn in Hin. lia.
Qed.

(** A fresh segment. *)
Lemma lod_new name d l ts :
  log_on_disk name d l -> is_u64 ts -> Forall (fun p => p.1 < ts) l ->
  log_on_disk name (<[filename (mkSegment name ts) := []]> d) (l ++ [(ts, [])]).
Proof.
  intros Hl Ht Hf. pose proof (lod_fresh _ _ _ _ Hl Ht Hf) as Hn.
  pose proof Hl as [H1 H2 H3 H4 H5]. split.
  - apply Forall_app. split; [done|]. by repeat constructor.
  - apply Forall_app. split; [done|]. by constructor.
  - rewrite fmap_app. cbn. apply sorted_snoc. split; [done|]. by apply Forall_fmap.
  - intros t rs Hin. apply elem_of_app in Hin as [Hin|Hin].
    + rewrite lookup_insert_ne; [by apply H4|]. intros E. apply filename_inj in E;
        [|done|by eapply lod_ts_in]. subst t. rewrite Forall_forall in Hf.
      apply Hf in Hin. cbn in Hin. lia.
    + apply list_elem_of_singleton in Hin as [= -> ->]. by rewrite lookup_insert_eq.
  - intros n s Hs Hp. rewrite fmap_app, elem_of_app. cbn.
    destruct (decide (filename (mkSegment name ts) = n)) as [<-|Hne].
    + rewrite db_segment_filename in Hp by done. injection Hp as <-. split; [done|]. right.
      by apply list_elem_of_singleton.
    + rewrite lookup_insert_ne in Hs by done. destruct (H5 n s Hs Hp). auto.
Qed.

(** A record appended to the last segment. *)
Lemma lod_append name d l ts rs r :
  log_on_disk name d (l ++ [(ts, rs)]) -> rec_wf r ->
  log_on_disk name (<[filename (mkSegment name ts) := recs_bytes rs ++ to_be_bytes r]> d)
    (l ++ [(ts, rs ++ [r])]).
Proof.
  intros Hl Hr. pose proof Hl as [H1 H2 H3 H4 H5]. rewrite <- recs_bytes_snoc.
  assert (Hts : is_u64 ts).
  { eapply lod_ts_in; [exact Hl|]. apply elem_of_app. right. by apply list_elem_of_singleton. }
  apply Forall_app in H1 as [H1 H1']. apply Forall_app in H2 as [H2 H2'].
  rewrite fmap_app in H3. cbn in H3. split.
  - apply Forall_app. split; [done|]. constructor; [|done]. cbn.
    apply Forall_app. inversion H1'; subst. split; [done|]. by constructor.
  - apply Forall_app. split; [done|]. by constructor.
  - by rewrite fmap_app.
  - intros t rs' Hin. apply elem_of_app in Hin as [Hin|Hin].
    + rewrite lookup_insert_ne; [apply H4; apply elem_of_app; by left|].
      intros E. apply filename_inj in E; [|done|rewrite Forall_forall in H2; by apply (H2 (t, rs'))].
      subst t. apply sorted_snoc in H3 as [_ H3]. rewrite Forall_forall in H3.
      specialize (H3 ts). ospecialize (H3 _); [|lia].
      apply list_elem_of_fmap. by exists (ts, rs').
    + apply list_elem_of_singleton in Hin as [= -> ->]. by rewrite lookup_insert_eq.
  - intros n s Hs Hp. rewrite fmap_app. cbn.
    destruct (decide (filename (mkSegment name ts) = n)) as [<-|Hne].
    + rewrite db_segment_filename in Hp by done. injection Hp as <-. split; [done|].
      rewrite elem_of_app. right. by apply list_elem_of_singleton.
    + rewrite lookup_insert_ne in Hs by done. destruct (H5 n s Hs Hp) as [? Hin].
      rewrite fmap_app in Hin. auto.
Qed.

(** ** Lemmas: the write-ahead log *)

Lemma mem_run_snoc ops o :
  mem_run mem_new (map wal_mem_op (ops ++ [o]))
    = mem_step (mem_run mem_new (map wal_mem_op ops)) (wal_mem_op o).
Proof. rewrite map_app. unfold mem_run. by rewrite fold_left_app. Qed.

Lemma wal_agrees_snoc ops o m : wal_agrees ops m -> wal_agrees (ops ++ [o]) (apply_op m o).
Proof.
  intros Ha k e. rewrite mem_run_snoc. unfold wal_mem_op, apply_op.
  destruct (wtombstone o); cbn [mem_step].
  - rewrite entry_remove. destruct (decide (k = wkey o)) as [->|Hne].
    + intros [= <-]. by rewrite lookup_delete_eq.
    + rewrite lookup_delete_ne by done. apply Ha.
  - rewrite entry_insert. destruct (decide (k = wkey o)) as [->|Hne].
    + intros [= <-]. by rewrite lookup_insert_eq.
    + rewrite lookup_insert_ne by done. apply Ha.
Qed.

Lemma wal_agrees_nil m : wal_agrees [] m.
Proof. by intros k e. Qed.

Lemma log_bytes_snoc ops o : log_bytes (ops ++ [o]) = log_bytes ops ++ to_be_bytes (wal_record o).
Proof. unfold log_bytes. rewrite map_app, concat_app. cbn. by rewrite app_nil_r. Qed.

#[export] Instance wal_agrees_pred : WalPred wal_agrees.
Proof. split; [exact wal_agrees_nil | intros; by apply wal_agrees_snoc]. Qed.

#[export] Instance wal_any_pred : WalPred (fun _ _ => True).
Proof. done. Qed.

Lemma wal_ok_other Wp name d m n b :
  wal_ok Wp name d m -> n <> wal_name name -> wal_ok Wp name (<[n := b]> d) m.
Proof.
  intros (ops & H1 & H2) Hn. exists ops. split; [|done]. by rewrite lookup_insert_ne.
Qed.

Lemma wal_ok_reset Wp `{!WalPred Wp} name d m : wal_ok Wp name (<[wal_name name := []]> d) m.
Proof.
  exists []. rewrite lookup_insert_eq. split_and!; [done | constructor | apply wp_nil].
Qed.

(** ** The clock *)

(** The first [N] readings are [u64]s and strictly increase: no two segments
    are created in the same millisecond. *)
Class GoodClock `{Clock} (N : nat) : Prop := {
  clock_range i : (i < N)%nat -> 0 <= clock i < 2 ^ 64;
  clock_incr i j : (i < j)%nat -> (j < N)%nat -> clock i < clock j;
}.

(** Operations only move the clock forward. *)
Class Ticking (St : Type) := ticks_of : St -> nat.
#[export] Instance ticking_world : Ticking World := ticks.
#[export] Instance ticking_kv : Ticking KvState := fun s => ticks (world s).

Class Mono {St} `{Ticking St} {A} (m : ST St A) : Prop :=
  mono s : (ticks_of s <= ticks_of (m s).1)%nat.

#[export] Instance mono_ret {St} `{Ticking St} {A} (a : A) : Mono (st_ret (S := St) a).
Proof. intros s. apply le_n. Qed.
#[export] Instance mono_lift {St} `{Ticking St} {A} (r : result A) : Mono (st_lift (S := St) r).
Proof. intros s. apply le_n. Qed.
#[export] Instance mono_gets {St} `{Ticking St} {A} (f : St -> A) : Mono (st_gets f).
Proof. intros s. apply le_n. Qed.
#[export] Instance mono_bind {St} `{Ticking St} {A B} (m : ST St A) (f : A -> ST St B) :
  Mono m -> (forall a, Mono (f a)) -> Mono (st_bind m f).
Proof.
  intros Hm Hf s. unfold st_bind. pose proof (Hm s) as H1.
  destruct (m s) as [s' [a| |]]; cbn in *; [|done|done]. specialize (Hf a s'). lia.
Qed.
#[export] Instance mono_iter {St} `{Ticking St} {A} (f : A -> ST St unit) l :
  (forall a, Mono (f a)) -> Mono (st_iter f l).
Proof. intros Hf. induction l; cbn; apply _. Qed.
#[export] Instance mono_on_world {A} (m : ST World A) : Mono m -> Mono (on_world m).
Proof.
  intros Hm s. unfold on_world. specialize (Hm (world s)). destruct (m (world s)). done.
Qed.
#[export] Instance mono_upd f : Mono (upd f).
Proof. intros s. apply le_n. Qed.
#[export] Instance mono_read_clock `{Clock} : Mono read_clock.
Proof. intros w. unfold ticks_of, ticking_world. cbn. lia. Qed.
#[export] Instance mono_open_create n : Mono (open_create n).
Proof. intros w. unfold open_create, st_modify. cbn. destruct (_ !! _); apply le_n. Qed.
#[export] Instance mono_open_read n : Mono (open_read n).
Proof. intros s. apply le_n. Qed.
#[export] Instance mono_write_file n b : Mono (write_file n b).
Proof. intros s. apply le_n. Qed.
#[export] Instance mono_remove_file n : Mono (remove_file n).
Proof. intros w. unfold remove_file. destruct (_ !! _); apply le_n. Qed.
#[export] Instance mono_sync_file n : Mono (sync_file n).
Proof. intros w. unfold sync_file, st_modify. cbn. destruct (_ !! _); apply le_n. Qed.
#[export] Instance mono_now_ms `{Clock} : Mono now_ms.
Proof. unfold now_ms. apply mono_bind; [apply _|]. intros. case_match; apply _. Qed.
#[export] Instance mono_new_segment `{Clock} n : Mono (new_segment n).
Proof. unfold new_segment. apply mono_bind; [apply _|]. intros. case_match; apply _. Qed.
#[export] Instance mono_write_active b : Mono (write_active b).
Proof.
  intros s. unfold write_active. destruct (active_file (eng s)); [|apply le_n].
  apply (mono_on_world _ (mono_write_file _ _)).
Qed.
#[export] Instance mono_sync_active : Mono sync_active.
Proof.
  intros s. unfold sync_active. destruct (active_file (eng s)); [|apply le_n].
  apply (mono_on_world _ (mono_sync_file _)).
Qed.
#[export] Instance mono_ask {A} (f : KVEngine -> A) : Mono (ask f).
Proof. intros s. apply le_n. Qed.
#[export] Instance mono_read_active : Mono read_active.
Proof. intros s. apply le_n. Qed.
#[export] Instance mono_read_dir : Mono read_dir.
Proof. intros s. apply le_n. Qed.
#[export] Instance mono_kv_wal_append k v t e : Mono (kv_wal_append k v t e).
Proof. unfold kv_wal_append. apply _. Qed.
#[export] Instance mono_kv_wal_reset : Mono kv_wal_reset.
Proof. unfold kv_wal_reset. apply _. Qed.
#[export] Instance mono_roll `{Clock} : Mono roll_active.
Proof. unfold roll_active. apply _. Qed.
#[export] Instance mono_kv_append `{Clock} k v e : Mono (kv_append k v e).
Proof.
  unfold kv_append. repeat (apply mono_bind; [try case_match; apply _ | intros]).
  unfold append, hi_set. apply _.
Qed.
#[export] Instance mono_fsync : Mono fsync.
Proof. unfold fsync. repeat (apply mono_bind; [apply _ | intros]). repeat case_match; apply _. Qed.
#[export] Instance mono_add_counters a b : Mono (add_counters a b).
Proof. intros s. apply le_n. Qed.
#[export] Instance mono_get `{Clock} k : Mono (get k).
Proof. unfold get. apply _. Qed.
#[export] Instance mono_set_with_ttl `{Clock} k v e : Mono (set_with_ttl k v e).
Proof.
  unfold set_with_ttl. case_match; [apply _|]. apply mono_bind; [apply _|]. intros [??]. apply _.
Qed.
#[export] Instance mono_kv_set `{Clock} k v : Mono (kv_set k v).
Proof.
  unfold kv_set. case_match; [apply _|]. apply mono_bind; [apply _|]. intros [??]. apply _.
Qed.
#[export] Instance mono_kv_delete k : Mono (kv_delete k).
Proof.
  unfold kv_delete. case_match; [apply _|]. do 2 (apply mono_bind; [apply _ | intros]).
  unfold hi_delete. apply mono_bind; [apply _ | intros]. case_match; apply _.
Qed.
#[export] Instance mono_exists `{Clock} k : Mono (exists_key k).
Proof. unfold exists_key. apply mono_bind; [apply _|]. intros. repeat case_match; apply _. Qed.
#[export] Instance mono_list_keys `{HashOrder} `{Clock} : Mono list_keys.
Proof. unfold list_keys. apply _. Qed.
#[export] Instance mono_ttl `{Clock} k e : Mono (ttl k e).
Proof.
  unfold ttl. repeat (apply mono_bind; [apply _ | intros]). case_match; [|apply _].
  apply mono_bind; [apply _|]. intros [??]. apply _.
Qed.
#[export] Instance mono_mget `{Clock} ks : Mono (mget ks).
Proof. induction ks; cbn; apply _. Qed.
#[export] Instance mono_mset_with_ttl `{Clock} l : Mono (mset_with_ttl l).
Proof. unfold mset_with_ttl. apply mono_iter. intros [[??]?]. apply _. Qed.
#[export] Instance mono_with_engine {A} e (m : ST KvState A) : Mono m -> Mono (with_engine e m).
Proof.
  intros Hm w. unfold with_engine. specialize (Hm (mkKvState e w)). by destruct (m _).
Qed.
#[export] Instance mono_kv_new `{Clock} n x p : Mono (kv_new n x p).
Proof. unfold kv_new, wal_open. apply _. Qed.
#[export] Instance mono_compact_copy `{Clock} db k e : Mono (compact_copy db k e).
Proof.
  unfold compact_copy. apply mono_bind; [apply _|]. intros. repeat case_match; apply _.
Qed.
#[export] Instance mono_compact_loop `{Clock} db l : Mono (compact_loop db l).
Proof. revert db. induction l as [|[k e] l IH]; intros db; cbn; apply _. Qed.
#[export] Instance mono_compact_begin `{HashOrder} `{Clock} : Mono compact_begin.
Proof. unfold compact_begin. apply _. Qed.
#[export] Instance mono_compact_hints `{HashOrder} db old : Mono (compact_hints db old).
Proof. unfold compact_hints. apply _. Qed.
#[export] Instance mono_build_compacted `{HashOrder} `{Clock} : Mono build_compacted.
Proof. unfold build_compacted. apply _. Qed.
#[export] Instance mono_unlink n : Mono (unlink n).
Proof.
  intros s. unfold unlink. repeat case_match; try apply (mono_on_world _ (mono_remove_file _)).
  apply (mono_bind _ _ _ _).
Qed.
#[export] Instance mono_ignore {A} (m : ST KvState A) : Mono m -> Mono (ignore m).
Proof. intros Hm s. apply Hm. Qed.
#[export] Instance mono_install db : Mono (install db).
Proof. unfold install. apply _. Qed.
#[export] Instance mono_remove_segment seg : Mono (remove_segment seg).
Proof. unfold remove_segment. apply _. Qed.
#[export] Instance mono_compact `{HashOrder} `{Clock} : Mono compact.
Proof. unfold compact. apply _. Qed.
