(* ===== verification/Spans.v ===== *)
(** * Programs cut where locks are released

    Operations that run beside others are programs: a sequence of spans, each
    a change of the shared state under the locks it holds, with the rest of the
    program as its outcome. [run_alone] is what a program does when nobody comes
    in between. Two predicates follow a program through any interference that
    keeps an abstract map: [neutral] programs leave the map alone, and programs
    that [perform] an operation change it once, at one of their spans. *)

From S2P Require Import Prelude World Engine KvEngine KvInv.

#[warnings="-register-all"]
Inductive Prog (S A : Type) :=
  | Halt (r : result A)
  | Span (f : S -> S * Prog S A).
#[global] Arguments Halt {S A} _.
#[global] Arguments Span {S A} _.

(** Induction through the spans. *)
Fixpoint prog_ind {S A} (P : Prog S A -> Prop) (HH : forall r, P (Halt r))
    (HS : forall f, (forall s, P (f s).2) -> P (Span f)) (p : Prog S A) : P p :=
  match p with
  | Halt r => HH r
  | Span f => HS f (fun s => match f s as q return P q.2 with (_, p') => prog_ind P HH HS p' end)
  end.

(** One span. *)
Definition atom {S A} (m : ST S A) : Prog S A :=
  Span (fun s => let '(s', r) := m s in (s', Halt r)).

Definition p_ret {S A} (a : A) : Prog S A := Halt (Ok a).

Fixpoint p_bind {S A B} (p : Prog S A) (k : A -> Prog S B) : Prog S B :=
  match p with
  | Halt (Ok a) => k a
  | Halt (Err e) => Halt (Err e)
  | Halt Panic => Halt Panic
  | Span f => Span (fun s => let '(s', p') := f s in (s', p_bind p' k))
  end.

Notation "'let~' x ':=' p 'in' k" := (p_bind p (fun x => k))
  (at level 10, x pattern, p at level 100, k at level 200,
   format "'let~'  x  ':='  p  'in' '//' k") : io_scope.

Fixpoint run_alone {S A} (p : Prog S A) (s : S) : S * result A :=
  match p with
  | Halt r => (s, r)
  | Span f => let '(s', p') := f s in run_alone p' s'
  end.

(** A program with its outcome as a value; a panic stays one. *)
Fixpoint p_try {S A} (p : Prog S A) : Prog S (result A) :=
  match p with
  | Halt Panic => Halt Panic
  | Halt r => Halt (Ok r)
  | Span f => Span (fun s => let '(s', p') := f s in (s', p_try p'))
  end.

(** A program over a part of the state. *)
Section Lift.
Context {S T A : Type} (get : T -> S) (put : S -> T -> T).

Fixpoint p_lift (p : Prog S A) : Prog T A :=
  match p with
  | Halt r => Halt r
  | Span f => Span (fun t => let '(s', p') := f (get t) in (put s' t, p_lift p'))
  end.
End Lift.

(** A loop over a list. *)
Fixpoint p_iter {S A} (f : A -> Prog S unit) (l : list A) : Prog S unit :=
  match l with
  | [] => p_ret tt
  | a :: l' => let~ _ := f a in p_iter f l'
  end.

(** ** Running alone *)

Section Alone.
Context {S : Type}.

Lemma run_atom {A} (m : ST S A) s : run_alone (atom m) s = m s.
Proof. cbn. by destruct (m s). Qed.

Lemma run_bind {A B} (p : Prog S A) (k : A -> Prog S B) s :
  run_alone (p_bind p k) s = st_bind (run_alone p) (fun a => run_alone (k a)) s.
Proof.
  revert s. induction p as [r|f IH] using prog_ind; intros s.
  - by destruct r.
  - unfold st_bind. cbn. specialize (IH s). destruct (f s) as [s' p']. cbn in IH. apply IH.
Qed.

(** A bind on one side follows a bind on the other. *)
Lemma run_bind_eq {A B} (p : Prog S A) (k : A -> Prog S B) (m : ST S A) (g : A -> ST S B) s :
  (forall s, run_alone p s = m s) -> (forall a s, run_alone (k a) s = g a s) ->
  run_alone (p_bind p k) s = st_bind m g s.
Proof.
  intros Hm Hg. rewrite run_bind. unfold st_bind. rewrite Hm. destruct (m s) as [s' [a| |]]; [|done|done].
  apply Hg.
Qed.

Lemma run_bind_atom {A B} (m : ST S A) (k : A -> Prog S B) s :
  run_alone (p_bind (atom m) k) s = st_bind m (fun a => run_alone (k a)) s.
Proof. rewrite run_bind. unfold st_bind. by rewrite run_atom. Qed.

Lemma run_bind_halt {A B} (r : result A) (k : A -> Prog S B) s :
  run_alone (p_bind (Halt r) k) s = st_bind (st_lift r) (fun a => run_alone (k a)) s.
Proof. by destruct r. Qed.

Lemma st_bind_ext {A B} (m : ST S A) (f g : A -> ST S B) s :
  (forall a s, f a s = g a s) -> st_bind m f s = st_bind m g s.
Proof. intros H. unfold st_bind. destruct (m s) as [s' [a| |]]; [apply H | done | done]. Qed.

Lemma st_bind_assoc {A B C} (m : ST S A) (f : A -> ST S B) (g : B -> ST S C) s :
  st_bind (st_bind m f) g s = st_bind m (fun a => st_bind (f a) g) s.
Proof. unfold st_bind. by destruct (m s) as [s' [a| |]]. Qed.

Lemma st_bind_ret {A B} (a : A) (f : A -> ST S B) s : st_bind (st_ret a) f s = f a s.
Proof. done. Qed.

Lemma run_try {A} (p : Prog S A) s :
  run_alone (p_try p) s
  = let '(s', r) := run_alone p s in (s', match r with Panic => Panic | r => Ok r end).
Proof.
  revert s. induction p as [r|f IH] using prog_ind; intros s; [by destruct r|].
  cbn. specialize (IH s). destruct (f s) as [s' p']. apply IH.
Qed.

Lemma run_lift {T A} (get : T -> S) (put : S -> T -> T) (p : Prog S A) t :
  (forall s t, get (put s t) = s) -> (forall s s' t, put s (put s' t) = put s t) ->
  (forall t, put (get t) t = t) ->
  run_alone (p_lift get put p) t = let '(s', r) := run_alone p (get t) in (put s' t, r).
Proof.
  intros H1 H2 H3. revert t. induction p as [r|f IH] using prog_ind; intros t; [by cbn; rewrite H3|].
  cbn. specialize (IH (get t)). destruct (f (get t)) as [s' p']. cbn in IH. rewrite IH, H1.
  destruct (run_alone p' s') as [s2 r]. by rewrite H2.
Qed.

Lemma run_iter {A} (f : A -> Prog S unit) (g : A -> ST S unit) l s :
  (forall a s, run_alone (f a) s = g a s) -> run_alone (p_iter f l) s = st_iter g l s.
Proof.
  intros H. revert s. induction l as [|a l IH]; intros s; [done|]. cbn.
  apply run_bind_eq; [apply H | intros _; apply IH].
Qed.
End Alone.

(** A program and an operation side by side. *)
Ltac alone_step :=
  first
    [ rewrite run_bind_atom | rewrite run_bind_halt | rewrite st_bind_assoc | rewrite st_bind_ret
    | lazymatch goal with
      | |- st_bind ?m _ _ = st_bind ?m _ _ => apply st_bind_ext; intros
      | |- run_alone (p_bind _ _) _ = st_bind _ _ _ => apply run_bind_eq; intros
      end
    | rewrite run_atom ].

(** ** What every span does *)

(** Every span of the program relates the states before and after it. *)
Inductive Steps {S A} (R : S -> S -> Prop) : Prog S A -> Prop :=
  | steps_halt r : Steps R (Halt r)
  | steps_span f : (forall s, R s (f s).1) -> (forall s, Steps R (f s).2) -> Steps R (Span f).
Existing Class Steps.

Section Steps.
Context {S : Type} (R : S -> S -> Prop).

#[export] Instance steps_of_halt {A} (r : result A) : Steps R (Halt r).
Proof. constructor. Qed.
#[export] Instance steps_ret {A} (a : A) : Steps R (p_ret a).
Proof. constructor. Qed.

Lemma steps_atom {A} (m : ST S A) : (forall s, R s (m s).1) -> Steps R (atom m).
Proof.
  intros Hm. constructor; intros s; [specialize (Hm s)|]; destruct (m s); [done | constructor].
Qed.

#[export] Instance steps_bind {A B} (p : Prog S A) (k : A -> Prog S B) :
  Steps R p -> (forall a, Steps R (k a)) -> Steps R (p_bind p k).
Proof.
  intros Hp Hk. induction Hp as [r|f Hf _ IH]; [destruct r; [apply Hk | constructor | constructor]|].
  cbn. constructor; intros s; specialize (Hf s); specialize (IH s); by destruct (f s).
Qed.

#[export] Instance steps_try {A} (p : Prog S A) : Steps R p -> Steps R (p_try p).
Proof.
  induction 1 as [r|f Hf _ IH]; [destruct r; constructor|].
  cbn. constructor; intros s; specialize (Hf s); specialize (IH s); by destruct (f s).
Qed.

#[export] Instance steps_iter {A} (f : A -> Prog S unit) l :
  (forall a, Steps R (f a)) -> Steps R (p_iter f l).
Proof. intros Hf. induction l; cbn; apply _. Qed.
End Steps.

Lemma steps_lift {S T A} (R : S -> S -> Prop) (R' : T -> T -> Prop) get put (p : Prog S A) :
  (forall s' t, R (get t) s' -> R' t (put s' t)) -> Steps R p -> Steps R' (p_lift get put p).
Proof.
  intros HR. induction 1 as [r|f Hf _ IH]; [constructor|]. cbn.
  constructor; intros t; specialize (Hf (get t)); specialize (IH (get t)); destruct (f (get t)); cbn in *;
    [by apply HR | done].
Qed.

(** The clock only moves forward. *)
Definition later {S} `{Ticking S} (s s' : S) : Prop := (ticks_of s <= ticks_of s')%nat.

#[export] Instance later_atom {S} `{Ticking S} {A} (m : ST S A) : Mono m -> Steps later (atom m).
Proof. intros Hm. apply steps_atom. exact Hm. Qed.

(** ** Programs and the map *)

Section Map.
Context {M S : Type} `{TK : Ticking S} (inv : S -> M -> Prop) (N : nat).

(** From any state that holds a map, at time [t] or later, the spans of the
    program leave the map as it is, and its value satisfies [Q]. Other programs
    may change the map between the spans. *)
#[warnings="-register-all"]
Inductive neutral {A} (Q : nat -> A -> Prop) : nat -> Prog S A -> Prop :=
  | neutral_halt t a : Q t a -> neutral Q t (Halt (Ok a))
  | neutral_span t f :
      (forall s m, inv s m -> (t <= ticks_of s)%nat -> (ticks_of (f s).1 <= N)%nat ->
         inv (f s).1 m /\ neutral Q (ticks_of (f s).1) (f s).2) ->
      neutral Q t (Span f).

(** One of the spans takes the map [m] to [m'] and fixes the value [a] of the
    program, with [R hi m a m'] where [hi] is the time at its end; the others
    leave the map alone. *)
#[warnings="-register-all"]
Inductive performs {A} (R : nat -> M -> A -> M -> Prop) : nat -> Prog S A -> Prop :=
  | performs_halt t a : (forall hi m, (t <= hi)%nat -> R hi m a m) -> performs R t (Halt (Ok a))
  | performs_span t f :
      (forall s m, inv s m -> (t <= ticks_of s)%nat -> (ticks_of (f s).1 <= N)%nat ->
         (inv (f s).1 m /\ performs R (ticks_of (f s).1) (f s).2) \/
         (exists a m', R (ticks_of (f s).1) m a m' /\ inv (f s).1 m' /\
            neutral (fun _ b => b = a) (ticks_of (f s).1) (f s).2)) ->
      performs R t (Span f).

Lemma neutral_impl {A} (Q Q' : nat -> A -> Prop) t p :
  (forall t a, Q t a -> Q' t a) -> neutral Q t p -> neutral Q' t p.
Proof.
  intros HQ. revert t. induction p as [r|f IH] using prog_ind; intros t Hp; inversion Hp as [? a Ha|? ? Hf]; subst.
  - constructor. by apply HQ.
  - constructor. intros s m Hi Hs Hn. destruct (Hf s m Hi Hs Hn) as [H1 H2]. split; [done | by apply IH].
Qed.

Lemma neutral_bind {A B} (Q : nat -> A -> Prop) (Q' : nat -> B -> Prop) t (p : Prog S A) (k : A -> Prog S B) :
  Steps later p -> neutral Q t p -> (forall t' a, (t <= t')%nat -> Q t' a -> neutral Q' t' (k a)) ->
  neutral Q' t (p_bind p k).
Proof.
  revert t. induction p as [r|f IH] using prog_ind; intros t Hm Hp Hk;
    inversion Hp as [? a Ha|? ? Hf]; subst; [by apply Hk|].
  inversion Hm as [|? Hm1 Hm2]; subst; unfold later in Hm1. cbn. constructor. intros s m Hi Hs Hn.
  specialize (IH s). specialize (Hf s m Hi Hs). specialize (Hm1 s). specialize (Hm2 s).
  destruct (f s) as [s' p']. cbn in *. destruct (Hf Hn) as [H1 H2]. split; [done|].
  apply IH; [done | done|]. intros t' a Ht'. apply Hk. lia.
Qed.

Lemma performs_bind_neutral {A B} (Q : nat -> A -> Prop) R t (p : Prog S A) (k : A -> Prog S B) :
  Steps later p -> neutral Q t p -> (forall t' a, (t <= t')%nat -> Q t' a -> performs R t' (k a)) ->
  performs R t (p_bind p k).
Proof.
  revert t. induction p as [r|f IH] using prog_ind; intros t Hm Hp Hk;
    inversion Hp as [? a Ha|? ? Hf]; subst; [by apply Hk|].
  inversion Hm as [|? Hm1 Hm2]; subst; unfold later in Hm1. cbn. constructor. intros s m Hi Hs Hn.
  specialize (IH s). specialize (Hf s m Hi Hs). specialize (Hm1 s). specialize (Hm2 s).
  destruct (f s) as [s' p']. cbn in *. destruct (Hf Hn) as [H1 H2]. left. split; [done|].
  apply IH; [done | done|]. intros t' a Ht'. apply Hk. lia.
Qed.

(** An operation that the program leaves for its end, whatever the map is. *)
Lemma neutral_performs {A} R t (p : Prog S A) b :
  Steps later p -> neutral (fun _ c => c = b) t p -> (forall hi m, (t <= hi)%nat -> R hi m b m) -> performs R t p.
Proof.
  intros Hm Hp HR. inversion Hp as [? c Hc|? f Hf]; subst; [by constructor|].
  inversion Hm as [|? Hm1 _]; subst; unfold later in Hm1. constructor. intros s m Hi Hs Hn. right.
  destruct (Hf s m Hi Hs Hn) as [H1 H2]. exists b, m. split_and!; [|done|done].
  apply HR. specialize (Hm1 s). lia.
Qed.

(** An operation followed by a program that only dresses up its value. *)
Lemma performs_bind {A B} (R0 : nat -> M -> A -> M -> Prop) (R : nat -> M -> B -> M -> Prop) (g : A -> B) t
    (p : Prog S A) (k : A -> Prog S B) :
  Steps later p -> (forall a, Steps later (k a)) -> performs R0 t p ->
  (forall hi m a m', R0 hi m a m' -> R hi m (g a) m') ->
  (forall t' a, (t <= t')%nat -> neutral (fun _ b => b = g a) t' (k a)) ->
  performs R t (p_bind p k).
Proof.
  intros Hm Hmk Hp HR. revert t Hp. induction p as [r|f IH] using prog_ind; intros t Hp Hk.
  - inversion Hp as [? a Ha|]; subst. cbn. apply (neutral_performs R t _ (g a)); [done | by apply Hk|].
    intros. by apply HR, Ha.
  - inversion Hp as [|? ? Hf]; subst. inversion Hm as [|? Hm1 Hm2]; subst; unfold later in Hm1. cbn. constructor.
    intros s m Hi Hs Hn. specialize (IH s). specialize (Hf s m Hi Hs). specialize (Hm1 s). specialize (Hm2 s).
    destruct (f s) as [s' p']. cbn in *. destruct (Hf Hn) as [[H1 H2]|(a & m' & Hr & H1 & H2)].
    + left. split; [done|]. apply IH; [done | done|]. intros t' a Ht'. apply Hk. lia.
    + right. exists (g a), m'. split_and!; [by apply HR | done|].
      eapply neutral_bind; [done | exact H2|]. intros t' b Ht' ->. apply Hk. lia.
Qed.

Lemma neutral_try {A} (Q : nat -> A -> Prop) t (p : Prog S A) :
  neutral Q t p -> neutral (fun t r => exists a, r = Ok a /\ Q t a) t (p_try p).
Proof.
  revert t. induction p as [r|f IH] using prog_ind; intros t Hp; inversion Hp as [? a Ha|? ? Hf]; subst.
  - constructor. eauto.
  - cbn. constructor. intros s m Hi Hs Hn. specialize (IH s). specialize (Hf s m Hi Hs).
    destruct (f s) as [s' p']. cbn in *. destruct (Hf Hn) as [H1 H2]. split; [done | by apply IH].
Qed.

(** The same of an operation that does not fail, with its outcome as a value. *)
Lemma performs_try_bind {A B} (R0 : nat -> M -> A -> M -> Prop) (R : nat -> M -> B -> M -> Prop) (g : A -> B) t
    (p : Prog S A) (k : result A -> Prog S B) :
  Steps later p -> (forall r, Steps later (k r)) -> performs R0 t p ->
  (forall hi m a m', R0 hi m a m' -> R hi m (g a) m') ->
  (forall t' a, (t <= t')%nat -> neutral (fun _ b => b = g a) t' (k (Ok a))) ->
  performs R t (p_bind (p_try p) k).
Proof.
  intros Hm Hmk Hp HR. revert t Hp. induction p as [r|f IH] using prog_ind; intros t Hp Hk.
  - inversion Hp as [? a Ha|]; subst. cbn. apply (neutral_performs R t _ (g a)); [done | by apply Hk|].
    intros. by apply HR, Ha.
  - inversion Hp as [|? ? Hf]; subst. inversion Hm as [|? Hm1 Hm2]; subst; unfold later in Hm1. cbn. constructor.
    intros s m Hi Hs Hn. specialize (IH s). specialize (Hf s m Hi Hs). specialize (Hm1 s). specialize (Hm2 s).
    destruct (f s) as [s' p']. cbn in *. destruct (Hf Hn) as [[H1 H2]|(a & m' & Hr & H1 & H2)].
    + left. split; [done|]. apply IH; [done | done|]. intros t' a Ht'. apply Hk. lia.
    + right. exists (g a), m'. split_and!; [by apply HR | done|].
      eapply neutral_bind; [by apply steps_try | by apply neutral_try|]. intros t' b Ht' (c & -> & ->). apply Hk. lia.
Qed.

Lemma neutral_atom {A} (Q : nat -> A -> Prop) t (c : ST S A) :
  (forall s m, inv s m -> (t <= ticks_of s)%nat -> (ticks_of (c s).1 <= N)%nat ->
     exists s' a, c s = (s', Ok a) /\ inv s' m /\ Q (ticks_of s') a) ->
  neutral Q t (atom c).
Proof.
  intros Hc. constructor. intros s m Hi Hs Hn. specialize (Hc s m Hi Hs). destruct (c s) as [s0 r].
  cbn in *. destruct (Hc Hn) as (s' & a & [= -> ->] & H1 & H2). split; [done | by constructor].
Qed.

Lemma performs_atom {A} (R : nat -> M -> A -> M -> Prop) t (c : ST S A) :
  (forall s m, inv s m -> (t <= ticks_of s)%nat -> (ticks_of (c s).1 <= N)%nat ->
     exists s' a m', c s = (s', Ok a) /\ inv s' m' /\ R (ticks_of s') m a m') ->
  performs R t (atom c).
Proof.
  intros Hc. constructor. intros s m Hi Hs Hn. specialize (Hc s m Hi Hs). destruct (c s) as [s0 r].
  cbn in *. destruct (Hc Hn) as (s' & a & m' & [= -> ->] & H1 & H2). right.
  exists a, m'. split_and!; [done | done | by constructor].
Qed.
End Map.

(** Over a part of the state. *)
Section LiftMap.
Context {M S T : Type} `{TS : Ticking S} `{TT : Ticking T} (inv : S -> M -> Prop) (N : nat).
Context (get : T -> S) (put : S -> T -> T).
Context (Hticks : forall t, ticks_of t = ticks_of (get t)) (Hget : forall s t, get (put s t) = s).

Lemma neutral_lift {A} (Q : nat -> A -> Prop) t (p : Prog S A) :
  neutral inv N Q t p -> neutral (fun x m => inv (get x) m) N Q t (p_lift get put p).
Proof.
  revert t. induction p as [r|f IH] using prog_ind; intros t Hp; inversion Hp as [? a Ha|? ? Hf]; subst;
    [by constructor|].
  cbn. constructor. intros x m Hi Hs Hn. rewrite Hticks in Hs. specialize (IH (get x)).
  specialize (Hf (get x) m Hi Hs). destruct (f (get x)) as [s' p']. cbn in *. rewrite Hticks, Hget in *.
  destruct (Hf Hn) as [H1 H2]. split; [done | by apply IH].
Qed.

Lemma performs_lift {A} (R : nat -> M -> A -> M -> Prop) t (p : Prog S A) :
  performs inv N R t p -> performs (fun x m => inv (get x) m) N R t (p_lift get put p).
Proof.
  revert t. induction p as [r|f IH] using prog_ind; intros t Hp; inversion Hp as [? a Ha|? ? Hf]; subst;
    [by constructor|].
  cbn. constructor. intros x m Hi Hs Hn. rewrite Hticks in Hs. specialize (IH (get x)).
  specialize (Hf (get x) m Hi Hs). pose proof (fun Q t => neutral_lift (A := A) Q t) as Hl.
  destruct (f (get x)) as [s' p']. cbn in *. rewrite Hticks, Hget in *.
  destruct (Hf Hn) as [[H1 H2]|(a & m' & Hr & H1 & H2)].
  - left. split; [done | by apply IH].
  - right. exists a, m'. split_and!; [done | done | by apply Hl].
Qed.
End LiftMap.

(** ** Engines as programs *)

(** The operations of an engine that a server calls, cut into spans, and a step
    of the engine's own background thread. *)
Class SpanEngine (S : Type) := {
  p_get : str -> Prog S (option (str * str));
  p_delete : str -> Prog S (option unit);
  p_list_keys : Prog S (list str);
  p_exists : str -> Prog S bool;
  p_mget : list str -> Prog S (list (str * option str));
  p_ttl : str -> option Z -> Prog S TtlOutcome;
  p_set_with_ttl : str -> str -> option Z -> Prog S unit;
  p_mset_with_ttl : list (str * str * option Z) -> Prog S unit;
  p_range : option (str -> str -> Prog S (list (str * str)));
  p_compact : Prog S unit;
  own_step : ST S unit;
}.

(** Alone, the programs are the operations. *)
Class SpanLaws (S : Type) `{StorageEngine S} `{SpanEngine S} : Prop := {
  alone_get k s : run_alone (p_get k) s = e_get k s;
  alone_delete k s : run_alone (p_delete k) s = e_delete k s;
  alone_list s : run_alone p_list_keys s = e_list_keys s;
  alone_exists k s : run_alone (p_exists k) s = e_exists k s;
  alone_mget ks s : run_alone (p_mget ks) s = e_mget ks s;
  alone_ttl k e s : run_alone (p_ttl k e) s = e_ttl k e s;
  alone_set k v e s : run_alone (p_set_with_ttl k v e) s = e_set_with_ttl k v e s;
  alone_mset l s : run_alone (p_mset_with_ttl l) s = e_mset_with_ttl l s;
  alone_range : match p_range, e_range with
    | Some p, Some r => forall lo hi s, run_alone (p lo hi) s = r lo hi s
    | None, None => True
    | _, _ => False
    end;
  alone_compact s : run_alone p_compact s = e_compact s;
}.
