(* ===== verification/KvOps.v ===== *)
(** * The operations of the hash engine keep its invariant

    For each operation: it returns, what it returns is what the abstract store
    says, and the invariant holds of the state it leaves, for the map the
    operation should produce. *)

From S2P Require Import Prelude Utf8 Record Collections Memtable Wal Hint Text Segment Utils.
From S2P Require Import Settings HashIndex World Engine KvEngine KvLog KvInv.

Section Inv.
Context `{HO : HashOrder} `{CK : Clock} (N : nat) `{GC : !GoodClock N}.
(** Segments of the directory that are not this engine's (those a compaction
    is about to delete), and what is known of the write-ahead log. *)
Context (base : log) (Wp : list wal_op -> kvmap -> Prop) `{WP : !WalPred Wp}.

(** The engine's part: the files of the segments and the index. *)
Record seg_inv (s : KvState) (l : log) (ts : Z) (rs : list Rec) : Prop := {
  si_disk : log_on_disk (db_name (eng s)) (disk (world s)) ((base ++ l) ++ [(ts, rs)]);
  si_seg : active_segment (eng s) = mkSegment (db_name (eng s)) ts;
  si_file : active_file (eng s) = Linked (filename (mkSegment (db_name (eng s)) ts));
  si_clock i : (ticks (world s) <= i < N)%nat ->
    Forall (fun p => p.1 < clock i) ((base ++ l) ++ [(ts, rs)]);
  si_agree : agree (l ++ [(ts, rs)]) (index (eng s)) (log_map (l ++ [(ts, rs)]));
}.

Definition kv_inv (s : KvState) (m : kvmap) : Prop :=
  exists l ts rs, seg_inv s l ts rs /\ m = log_map (l ++ [(ts, rs)]) /\
    wal_ok Wp (db_name (eng s)) (disk (world s)) m.

(** What no operation changes. *)
Definition same_cfg (e e' : KVEngine) : Prop :=
  db_name e' = db_name e /\ max_segment_bytes e' = max_segment_bytes e /\
  fsync_strategy e' = fsync_strategy e.

Lemma same_cfg_refl e : same_cfg e e.
Proof. done. Qed.
Lemma same_cfg_trans a b c : same_cfg a b -> same_cfg b c -> same_cfg a c.
Proof. intros (? & ? & ?) (? & ? & ?). split_and!; congruence. Qed.

Lemma si_ts s l ts rs : seg_inv s l ts rs -> is_u64 ts.
Proof.
  intros Hs. eapply lod_ts_in; [apply Hs|]. apply elem_of_app. right.
  by apply list_elem_of_singleton.
Qed.

Lemma si_contents s l ts rs : seg_inv s l ts rs ->
  disk (world s) !! filename (mkSegment (db_name (eng s)) ts) = Some (recs_bytes rs).
Proof.
  intros Hs. eapply lod_files; [apply Hs|]. apply elem_of_app. right.
  by apply list_elem_of_singleton.
Qed.

Lemma read_active_run s l ts rs :
  seg_inv s l ts rs -> read_active s = (s, Ok (recs_bytes rs)).
Proof.
  intros Hs. unfold read_active, st_gets. rewrite (si_file _ _ _ _ Hs).
  by rewrite (si_contents _ _ _ _ Hs).
Qed.

Lemma sync_active_run s l ts rs :
  seg_inv s l ts rs -> exists w', sync_active s = (mkKvState (eng s) w', Ok tt) /\
    disk w' = disk (world s) /\ ticks w' = ticks (world s).
Proof.
  intros Hs. unfold sync_active, on_world, sync_file, st_modify.
  rewrite (si_file _ _ _ _ Hs), (si_contents _ _ _ _ Hs). by eexists.
Qed.

(** Only the directory and the clock of the world matter, and only the fields
    of the engine the invariant names. *)
Lemma seg_inv_frame s s' l ts rs :
  seg_inv s l ts rs ->
  db_name (eng s') = db_name (eng s) -> active_segment (eng s') = active_segment (eng s) ->
  active_file (eng s') = active_file (eng s) -> index (eng s') = index (eng s) ->
  disk (world s') = disk (world s) -> (ticks (world s) <= ticks (world s'))%nat ->
  seg_inv s' l ts rs.
Proof.
  intros [H1 H2 H3 H4 H5] E1 E2 E3 E4 E5 E6.
  split; rewrite ?E1, ?E2, ?E3, ?E4, ?E5; auto. intros i Hi. apply H4. lia.
Qed.

(** A write to a file that is not a segment. *)
Lemma seg_inv_write s l ts rs n b :
  seg_inv s l ts rs -> db_segment (db_name (eng s)) n = None ->
  seg_inv (mkKvState (eng s) (with_disk (world s) (<[n := b]> (disk (world s))))) l ts rs.
Proof.
  intros [H1 H2 H3 H4 H5] Hn. split; cbn; auto. by apply lod_other.
Qed.

Lemma kv_wal_append_run s l ts rs m k v t e :
  seg_inv s l ts rs -> wal_ok Wp (db_name (eng s)) (disk (world s)) m -> kv_ok k v e ->
  exists s', kv_wal_append k v t e s = (s', Ok tt) /\ seg_inv s' l ts rs /\
    wal_ok Wp (db_name (eng s')) (disk (world s')) (apply_op m (mkWalOp k v t e)) /\
    eng s' = eng s /\ ticks (world s') = ticks (world s).
Proof.
  intros Hs (ops & Hf & Hok & Ha) Hkv.
  assert (E : kv_wal_append k v t e s =
    (mkKvState (eng s) (with_disk (world s)
       (<[wal_name (db_name (eng s)) :=
          default [] (disk (world s) !! wal_name (db_name (eng s)))
            ++ to_be_bytes (make_record k v t e)]> (disk (world s)))), Ok tt)) by reflexivity.
  rewrite Hf in E. cbn [from_option id] in E.
  eexists. split; [exact E|]. split_and!; try done; cbn [eng world with_disk disk].
  - apply seg_inv_write; [done | apply db_segment_wal].
  - exists (ops ++ [mkWalOp k v t e]). rewrite lookup_insert_eq, log_bytes_snoc.
    split_and!; [done | | by apply wp_snoc].
    apply Forall_app. split; [done|]. by constructor.
Qed.

Lemma kv_wal_reset_run s l ts rs :
  seg_inv s l ts rs ->
  exists s', kv_wal_reset s = (s', Ok tt) /\ seg_inv s' l ts rs /\
    (forall m, wal_ok Wp (db_name (eng s')) (disk (world s')) m) /\
    eng s' = eng s /\ ticks (world s') = ticks (world s).
Proof.
  intros Hs. eexists. split; [reflexivity|]. cbn. split_and!; try done.
  - apply seg_inv_write; [done | apply db_segment_wal].
  - intros m. exact (wal_ok_reset Wp _ _ m).
Qed.

(** A fresh segment: its name is new and its time is the latest. *)
Lemma new_segment_run w name :
  (ticks w < N)%nat ->
  new_segment name w =
    (mkWorld (disk w) (durable w) (S (ticks w)), Ok (mkSegment name (clock (ticks w)))) /\
  is_u64 (clock (ticks w)).
Proof.
  intros Ht. pose proof (clock_range _ Ht) as Hc. split; [|done].
  unfold new_segment, st_bind, read_clock.
  rewrite (proj2 (Z.ltb_ge _ _)) by lia. unfold segment_new. by rewrite wrap_small.
Qed.

Lemma now_ms_run w :
  (ticks w < N)%nat ->
  now_ms w = (mkWorld (disk w) (durable w) (S (ticks w)), Ok (clock (ticks w))).
Proof.
  intros Ht. pose proof (clock_range _ Ht) as Hc.
  unfold now_ms, st_bind, read_clock.
  rewrite (proj2 (Z.ltb_ge _ _)) by lia. by rewrite wrap_small.
Qed.

Lemma clock_later i j : (i < j)%nat -> (j < N)%nat -> clock i < clock j.
Proof. apply clock_incr. Qed.

(** The segment files and the index over a directory with one more, empty,
    segment. *)
Lemma seg_inv_roll s l ts rs e' w' t f :
  seg_inv s l ts rs -> (ticks (world s) < N)%nat ->
  t = clock (ticks (world s)) -> f = filename (mkSegment (db_name (eng s)) t) ->
  db_name e' = db_name (eng s) -> index e' = index (eng s) ->
  active_segment e' = mkSegment (db_name (eng s)) t -> active_file e' = Linked f ->
  disk w' = <[f := []]> (disk (world s)) -> ticks w' = S (ticks (world s)) ->
  disk (world s) !! f = None /\ seg_inv (mkKvState e' w') (l ++ [(ts, rs)]) t [].
Proof.
  intros Hs Ht Et Ef E1 E2 E3 E4 E5 E6. pose proof (clock_range _ Ht) as Hc.
  rewrite <- Et in Hc. subst f.
  assert (Hlt : Forall (fun p => p.1 < t) ((base ++ l) ++ [(ts, rs)])) by (rewrite Et; apply (si_clock _ _ _ _ Hs); lia).
  pose proof (si_disk _ _ _ _ Hs) as Hd.
  split; [by eapply lod_fresh|]. split; cbn; rewrite ?E1, ?E3, ?E4, ?E5; try done.
  - rewrite (app_assoc base). by apply lod_new.
  - rewrite E6, (app_assoc base). intros i Hi. apply Forall_app. split.
    + apply (si_clock _ _ _ _ Hs). lia.
    + constructor; [|done]. cbn. rewrite Et. apply clock_later; lia.
  - rewrite E2, log_map_snoc. eapply agree_extends; [apply extends_new | apply Hs].
Qed.

Lemma roll_active_run s l ts rs :
  seg_inv s l ts rs -> (ticks (world s) < N)%nat ->
  exists s' t, roll_active s = (s', Ok tt) /\ seg_inv s' (l ++ [(ts, rs)]) t [] /\
    (forall m, wal_ok Wp (db_name (eng s')) (disk (world s')) m) /\
    same_cfg (eng s) (eng s').
Proof.
  intros Hs Ht. destruct (sync_active_run _ _ _ _ Hs) as (w1 & E1 & Hd1 & Ht1).
  unfold roll_active. rewrite (st_bind_Ok _ _ _ _ _ E1). do 2 erewrite st_bind_Ok by reflexivity.
  cbn [eng world db_name set_active].
  destruct (new_segment_run w1 (db_name (eng s))) as [En Hu]; [by rewrite Ht1|].
  unfold on_world at 1. cbn [world eng].
  erewrite st_bind_Ok by (cbn [world]; rewrite En; reflexivity).
  rewrite Ht1 in *. remember (clock (ticks (world s))) as t eqn:Et.
  remember (filename (mkSegment (db_name (eng s)) t)) as f eqn:Ef.
  destruct (seg_inv_roll s l ts rs
    (set_active (Linked f) (spawn_fsync_worker (fsync_strategy (eng s)) f)
       (mkSegment (db_name (eng s)) t) (eng s))
    (mkWorld (<[f := []]> (disk (world s))) (durable w1) (S (ticks (world s)))) t f)
    as [Hfresh Hinv]; try done.
  erewrite st_bind_Ok
    by (unfold on_world, open_create, st_modify; cbn [world disk eng]; rewrite Hd1, Hfresh;
        reflexivity).
  erewrite st_bind_Ok by reflexivity.
  cbn [world eng with_disk disk durable ticks].
  destruct (kv_wal_reset_run _ _ _ _ Hinv) as (s2 & E2 & Hinv2 & Hw2 & He2 & Ht2).
  rewrite (st_bind_Ok _ _ _ _ _ E2).
  eexists _, t. split_and!; [reflexivity | | |].
  - eapply seg_inv_frame; [exact Hinv2 | done..].
  - exact Hw2.
  - cbn. by rewrite He2.
Qed.

(** ** Enough clock readings *)

Lemma bind_ticks_le {St} `{Ticking St} {A B} (m : ST St A) (f : A -> ST St B) s :
  (forall a, Mono (f a)) -> (ticks_of (m s).1 <= ticks_of (st_bind m f s).1)%nat.
Proof.
  intros Hf. unfold st_bind. destruct (m s) as [s' [a| |]]; cbn in *; try done. apply Hf.
Qed.

Lemma bind_ticks {St} `{Ticking St} {A B} (m : ST St A) (f : A -> ST St B) s n :
  (forall a, Mono (f a)) -> (ticks_of (st_bind m f s).1 <= n)%nat ->
  (ticks_of (m s).1 <= n)%nat.
Proof.
  intros Hf Hn. pose proof (bind_ticks_le m f s Hf). lia.
Qed.

Lemma on_world_run {A} (m : ST World A) s w r :
  m (world s) = (w, r) -> on_world m s = (mkKvState (eng s) w, r).
Proof. unfold on_world. by intros ->. Qed.

Lemma on_world_ticks {A} (m : ST World A) s :
  ticks_of (on_world m s).1 = ticks_of (m (world s)).1.
Proof. unfold on_world. by destruct (m (world s)). Qed.

Lemma now_ms_ticks w : ticks (now_ms w).1 = S (ticks w).
Proof. unfold now_ms, st_bind, read_clock. by case_match. Qed.

Lemma new_segment_ticks name w : ticks (new_segment name w).1 = S (ticks w).
Proof. unfold new_segment, st_bind, read_clock. by case_match. Qed.

(** An operation that starts by reading the clock. *)
Lemma now_bind {A} (f : Z -> ST KvState A) s :
  (ticks_of (st_bind (on_world now_ms) f s).1 <= N)%nat -> (forall a, Mono (f a)) ->
  (ticks (world s) < N)%nat /\
  st_bind (on_world now_ms) f s = f (clock (ticks (world s)))
    (mkKvState (eng s) (mkWorld (disk (world s)) (durable (world s)) (S (ticks (world s))))).
Proof.
  intros Hn Hf. apply bind_ticks in Hn; [|done].
  assert (Ht : (ticks (world s) < N)%nat).
  { unfold on_world, ticks_of, ticking_kv in Hn. pose proof (now_ms_ticks (world s)).
    destruct (now_ms (world s)). cbn in *. lia. }
  split; [done|]. apply st_bind_Ok. apply on_world_run. by apply now_ms_run.
Qed.

Lemma seg_inv_tick s l ts rs w :
  seg_inv s l ts rs -> disk w = disk (world s) -> (ticks (world s) <= ticks w)%nat ->
  seg_inv (mkKvState (eng s) w) l ts rs.
Proof. intros Hs Hd Ht. eapply seg_inv_frame; eauto. Qed.

Lemma roll_ticks s l ts rs :
  seg_inv s l ts rs -> (S (ticks (world s)) <= ticks_of (roll_active s).1)%nat.
Proof.
  intros Hs. destruct (sync_active_run _ _ _ _ Hs) as (w1 & E1 & Hd1 & Ht1).
  unfold roll_active. rewrite (st_bind_Ok _ _ _ _ _ E1). do 2 erewrite st_bind_Ok by reflexivity.
  cbn [eng world db_name set_active].
  cbn [eng].
  eapply Nat.le_trans; [|apply bind_ticks_le; intros; apply _].
  unfold on_world, ticks_of, ticking_kv. cbn [world].
  pose proof (new_segment_ticks (db_name (eng s)) w1). destruct (new_segment _ w1). cbn in *. lia.
Qed.

(** ** Appending *)

(** The end of [kv_append]: the record goes to the end of the active file and
    its place into the index. *)
Definition append_indexed (k v : str) (expiry : option Z) : ST KvState (Z * option Z) :=
  let record := make_record k v false expiry in
  let* contents := read_active in
  let '(off, contents') := append record contents in
  let* _ := write_active contents' in
  let* ts := ask (fun e => timestamp (active_segment e)) in
  let* idx := ask index in
  let new_size := size_on_disk record in
  let '(old, idx') := hi_set idx k off ts new_size expiry in
  let* _ := upd (set_index idx') in
  st_ret (new_size, record_size <$> old).

#[local] Instance mono_append_indexed k v e : Mono (append_indexed k v e).
Proof. unfold append_indexed, append, hi_set. apply _. Qed.

Lemma append_indexed_run s l ts rs k v e :
  seg_inv s l ts rs -> kv_ok k v e ->
  exists s' r, append_indexed k v e s = (s', Ok r) /\
    seg_inv s' l ts (rs ++ [make_record k v false e]) /\
    disk (world s') = <[filename (mkSegment (db_name (eng s)) ts) :=
                         recs_bytes rs ++ to_be_bytes (make_record k v false e)]>
                        (disk (world s)) /\
    same_cfg (eng s) (eng s').
Proof.
  intros Hs Hkv. unfold append_indexed. rewrite (st_bind_Ok _ _ _ _ _ (read_active_run _ _ _ _ Hs)).
  cbn [append].
  erewrite st_bind_Ok by (unfold write_active; rewrite (si_file _ _ _ _ Hs); reflexivity).
  do 2 (erewrite st_bind_Ok by reflexivity). cbn [hi_set].
  erewrite st_bind_Ok by reflexivity.
  pose proof (make_record_wf k v false e Hkv) as Hwf.
  eexists _, _. split; [reflexivity|]. split_and!; try done.
  destruct Hs as [H1 H2 H3 H4 H5]. split; cbn [eng world disk with_disk ticks set_index index
    active_segment active_file db_name]; try done.
  - by apply lod_append.
  - intros i Hi. specialize (H4 i Hi). apply Forall_app in H4 as [H4 H4'].
    apply Forall_app. split; [done|]. by inversion H4'; constructor.
  - rewrite H2. cbn [timestamp]. rewrite log_map_snoc_rec.
    change k with (key (make_record k v false e)) at 2.
    change e with (expiry_ms (header (make_record k v false e))) at 3.
    apply agree_append; [done|]. apply make_record_tombstone.
Qed.

Lemma make_record_apply m k v e :
  apply_rec m (make_record k v false e) = <[k := (v, e)]> m.
Proof. unfold apply_rec. by rewrite make_record_tombstone. Qed.

Lemma make_tombstone_apply m k :
  apply_rec m (make_record k [] true None) = delete k m.
Proof. unfold apply_rec. by rewrite make_record_tombstone. Qed.

Lemma kv_append_unfold k v e :
  kv_append k v e =
    let* _ := kv_wal_append k v false e in
    let* contents := read_active in
    let* max := ask max_segment_bytes in
    let* _ := (if max <? len contents + size_on_disk (make_record k v false e)
               then roll_active else st_ret tt) in
    append_indexed k v e.
Proof. reflexivity. Qed.

Lemma kv_append_run s m k v e :
  kv_inv s m -> kv_ok k v e -> (ticks_of (kv_append k v e s).1 <= N)%nat ->
  exists s' r, kv_append k v e s = (s', Ok r) /\ kv_inv s' (<[k := (v, e)]> m) /\
    same_cfg (eng s) (eng s').
Proof.
  intros (l & ts & rs & Hs & -> & Hw) Hkv Hn. rewrite kv_append_unfold in *.
  destruct (kv_wal_append_run _ _ _ _ _ k v false e Hs Hw Hkv)
    as (s1 & E1 & Hs1 & Hw1 & He1 & Ht1).
  rewrite (st_bind_Ok _ _ _ _ _ E1) in *.
  rewrite (st_bind_Ok _ _ _ _ _ (read_active_run _ _ _ _ Hs1)) in *.
  erewrite st_bind_Ok in * by reflexivity.
  rewrite <- He1.
  destruct (_ <? _).
  - assert (Ht : (ticks (world s1) < N)%nat).
    { apply bind_ticks in Hn; [|apply _]. pose proof (roll_ticks _ _ _ _ Hs1). lia. }
    destruct (roll_active_run _ _ _ _ Hs1 Ht) as (s2 & t & E2 & Hs2 & Hw2 & Hc2).
    rewrite (st_bind_Ok _ _ _ _ _ E2).
    destruct (append_indexed_run _ _ _ _ k v e Hs2 Hkv) as (s3 & r & E3 & Hs3 & Hd3 & Hc3).
    exists s3, r. split_and!; [done | | by eapply same_cfg_trans].
    eexists _, _, _. split_and!; [exact Hs3 | |].
    + by rewrite log_map_snoc_rec, make_record_apply, (log_map_snoc _ t).
    + destruct Hc3 as (-> & _). rewrite Hd3. apply wal_ok_other; [apply Hw2 | auto with rkv].
  - erewrite st_bind_Ok by reflexivity.
    destruct (append_indexed_run _ _ _ _ k v e Hs1 Hkv) as (s3 & r & E3 & Hs3 & Hd3 & Hc3).
    exists s3, r. split_and!; [done | | done].
    eexists _, _, _. split_and!; [exact Hs3 | |].
    + by rewrite log_map_snoc_rec, make_record_apply.
    + destruct Hc3 as (-> & _). rewrite Hd3. apply wal_ok_other; [exact Hw1 | auto with rkv].
Qed.

(** ** Reading *)

(** The value a key has at an instant. *)
Definition spec_get (m : kvmap) (k : str) (now : Z) : option str :=
  match m !! k with
  | Some (v, e) => if expired e now then None else Some v
  | None => None
  end.

(** The directory has every file of the log [l]. *)
Definition has_log (name : str) (d : files) (l : log) : Prop :=
  Forall (fun p => Forall rec_wf p.2) l /\
  forall ts rs, (ts, rs) ∈ l -> d !! filename (mkSegment name ts) = Some (recs_bytes rs).

Lemma has_log_sub name d l L :
  log_on_disk name d L -> (forall p, p ∈ l -> p ∈ L) -> has_log name d l.
Proof.
  intros [H1 _ _ H4 _] Hsub. split; [|intros ts rs Hin; apply H4; auto].
  rewrite Forall_forall in *. auto.
Qed.

Lemma kv_lookup_agree idx name ts l m k now d :
  agree l idx m -> has_log name d l ->
  kv_lookup idx name (mkSegment name ts) k now d = Ok (spec_get m k now).
Proof.
  intros Ha [Hwf Hf]. specialize (Ha k). unfold kv_lookup, hi_get, spec_get.
  destruct (idx !! k) as [e|], (m !! k) as [[v x]|]; try done.
  destruct Ha as (Hx & r & (pre & post & Hin & Ho) & Hk & Hv & He & Ht). cbn [fst snd] in *.
  rewrite Hx. destruct (expired x now); [done|].
  assert (Hseg : (if segment_timestamp e =? timestamp (mkSegment name ts) then mkSegment name ts
                  else mkSegment name (segment_timestamp e))
                 = mkSegment name (segment_timestamp e)).
  { cbn [timestamp]. destruct (Z.eqb_spec (segment_timestamp e) ts); by subst. }
  rewrite Hseg, (Hf _ _ Hin), recs_bytes_app.
  change (recs_bytes (r :: post)) with (to_be_bytes r ++ recs_bytes post).
  rewrite Ho, read_record_at_app; [cbn [rbind]; by rewrite sealed_value, Hv|].
  rewrite Forall_forall in Hwf. specialize (Hwf _ Hin). cbn in Hwf.
  apply Forall_app in Hwf as [_ Hwf]. by inversion Hwf.
Qed.

(** What a read relies on: the index leads to records of the directory that
    give the keys their values. *)
Definition readable (s : KvState) (m : kvmap) : Prop := exists l ts,
  agree l (index (eng s)) m /\ has_log (db_name (eng s)) (disk (world s)) l /\
  active_segment (eng s) = mkSegment (db_name (eng s)) ts.

Lemma inv_readable s m : kv_inv s m -> readable s m.
Proof.
  intros (l & ts & rs & Hs & -> & _). exists (l ++ [(ts, rs)]), ts. split_and!; try apply Hs.
  eapply has_log_sub; [apply Hs|]. intros p. rewrite <- app_assoc. rewrite (elem_of_app base). auto.
Qed.

Lemma readable_world s m w :
  readable s m -> disk w = disk (world s) -> readable (mkKvState (eng s) w) m.
Proof. intros (l & ts & H1 & H2 & H3) Hd. exists l, ts. cbn. by rewrite Hd. Qed.

Lemma kv_inv_tick s m w :
  kv_inv s m -> disk w = disk (world s) -> (ticks (world s) <= ticks w)%nat ->
  kv_inv (mkKvState (eng s) w) m.
Proof.
  intros (l & ts & rs & Hs & Hm & Hw) Hd Ht. exists l, ts, rs. split_and!; [|done|].
  - by apply seg_inv_tick.
  - cbn. by rewrite Hd.
Qed.

(** Changes of the engine the invariant does not see. *)
Lemma kv_inv_frame s m e' :
  kv_inv s m ->
  db_name e' = db_name (eng s) -> active_segment e' = active_segment (eng s) ->
  active_file e' = active_file (eng s) -> index e' = index (eng s) ->
  kv_inv (mkKvState e' (world s)) m.
Proof.
  intros (l & ts & rs & Hs & Hm & Hw) E1 E2 E3 E4. exists l, ts, rs. split_and!; [|done|].
  - by eapply seg_inv_frame.
  - cbn. by rewrite E1.
Qed.

(** The world after a reading of the clock. *)
Definition ticked (w : World) : World := mkWorld (disk w) (durable w) (S (ticks w)).

Lemma get_read s m k :
  readable s m -> (ticks_of (get k s).1 <= N)%nat ->
  (ticks (world s) < N)%nat /\
  get k s = (mkKvState (eng s) (ticked (world s)),
             Ok ((fun v => (k, v)) <$> spec_get m k (clock (ticks (world s))))).
Proof.
  intros (l & ts & Ha & Hl & Hseg) Hn. unfold get in *.
  destruct (now_bind _ s Hn ltac:(intros; apply _)) as [Ht ->]. split; [done|].
  do 4 (erewrite st_bind_Ok by reflexivity). cbn [eng world disk].
  unfold st_lift. rewrite Hseg, (kv_lookup_agree _ _ _ _ _ k _ _ Ha Hl). done.
Qed.

Lemma exists_read s m k :
  readable s m -> (ticks_of (exists_key k s).1 <= N)%nat ->
  exists w, exists_key k s = (mkKvState (eng s) w,
      Ok (bool_decide (is_Some (spec_get m k (clock (ticks (world s))))))) /\
    disk w = disk (world s) /\ (ticks (world s) <= ticks w)%nat.
Proof.
  destruct s as [self w0]. intros (l & ts & Ha & _ & _) Hn. specialize (Ha k).
  unfold exists_key in *. cbn [eng world] in *.
  erewrite st_bind_Ok in * by reflexivity. unfold hi_get, spec_get in *. cbn [eng] in *.
  destruct (index self !! k) as [e|], (m !! k) as [[v x]|]; try done.
  - destruct Ha as (Hx & _). cbn in Hx. rewrite Hx in *. destruct x as [x|].
    + destruct (now_bind _ _ Hn ltac:(intros; apply _)) as [Ht ->]. cbn [world].
      exists (ticked w0). split; [|split; [done | cbn; lia]]. cbn [expired].
      destruct (is_expired x (clock (ticks w0))); reflexivity.
    + eexists. split; [reflexivity|]. done.
  - eexists. split; [reflexivity|]. done.
Qed.

(** The keys of the index that have not expired. *)
Lemma unexpired_keys l idx m now :
  agree l idx m ->
  let ks := List.filter (fun k => negb (match hi_get idx k with Some e => expired (i_expiry e) now | None => false end))
              (ls_keys idx) in
  NoDup ks /\ forall k, k ∈ ks <-> is_Some (spec_get m k now).
Proof.
  intros Hag ks. split; [apply NoDup_ListNoDup, List.NoDup_filter, NoDup_ListNoDup, ls_keys_nodup|].
  intros k. unfold ks. rewrite list_elem_of_In, filter_In, <- list_elem_of_In, ls_keys_elem.
  pose proof (Hag k) as Ha. unfold hi_get, spec_get.
  destruct (idx !! k) as [e|], (m !! k) as [[v x]|]; try done.
  - destruct Ha as (Hx & _). cbn in Hx. rewrite Hx. destruct (expired x _); cbn;
      split; [intros [_ ?] | intros [??] | | intros _; split]; eauto; done.
  - split; [intros [[??] _] | intros [??]]; done.
Qed.

Lemma list_keys_read s m :
  readable s m -> (ticks_of (list_keys s).1 <= N)%nat ->
  exists ks, list_keys s = (mkKvState (eng s) (ticked (world s)), Ok ks) /\ NoDup ks /\
    (forall k, k ∈ ks <-> is_Some (spec_get m k (clock (ticks (world s))))).
Proof.
  intros (l & ts & Hag & _ & _) Hn. unfold list_keys in *.
  destruct (now_bind _ s Hn ltac:(intros; apply _)) as [Ht ->].
  erewrite st_bind_Ok by reflexivity. eexists. split; [reflexivity|]. by apply unexpired_keys with l.
Qed.

Lemma get_run s m k :
  kv_inv s m -> (ticks_of (get k s).1 <= N)%nat ->
  exists s', get k s = (s', Ok ((fun v => (k, v)) <$> spec_get m k (clock (ticks (world s))))) /\
    kv_inv s' m /\ eng s' = eng s /\ (ticks (world s) < N)%nat /\
    ticks (world s') = S (ticks (world s)).
Proof.
  intros Hi Hn. destruct (get_read s m k (inv_readable _ _ Hi) Hn) as [Ht E].
  eexists. split; [exact E|]. split_and!; try done. apply kv_inv_tick; cbn; auto.
Qed.

Lemma exists_run s m k :
  kv_inv s m -> (ticks_of (exists_key k s).1 <= N)%nat ->
  exists s', exists_key k s
    = (s', Ok (bool_decide (is_Some (spec_get m k (clock (ticks (world s))))))) /\
    kv_inv s' m /\ eng s' = eng s /\ (ticks (world s) <= ticks (world s'))%nat.
Proof.
  intros Hi Hn. destruct (exists_read s m k (inv_readable _ _ Hi) Hn) as (w & E & Hd & Ht).
  eexists. split; [exact E|]. split_and!; try done. by apply kv_inv_tick.
Qed.

Lemma list_keys_run s m :
  kv_inv s m -> (ticks_of (list_keys s).1 <= N)%nat ->
  exists s' ks, list_keys s = (s', Ok ks) /\ NoDup ks /\
    (forall k, k ∈ ks <-> is_Some (spec_get m k (clock (ticks (world s))))) /\
    kv_inv s' m /\ eng s' = eng s /\ (ticks (world s) <= ticks (world s'))%nat.
Proof.
  intros Hi Hn. destruct (list_keys_read s m (inv_readable _ _ Hi) Hn) as (ks & E & Hnd & Hk).
  eexists _, ks. split; [exact E|]. split_and!; try done; [apply kv_inv_tick; cbn; auto | cbn; lia].
Qed.

(** ** Writing *)

Lemma fsync_run s m :
  kv_inv s m -> exists s', fsync s = (s', Ok tt) /\ kv_inv s' m /\ same_cfg (eng s) (eng s') /\
    ticks (world s') = ticks (world s).
Proof.
  intros Hi. unfold fsync. do 3 (erewrite st_bind_Ok by reflexivity).
  assert (Hup : forall n, kv_inv (mkKvState (set_writes n (eng s)) (world s)) m)
    by (intros; by apply kv_inv_frame).
  assert (Hsync : forall n, exists s', sync_active (mkKvState (set_writes n (eng s)) (world s))
      = (s', Ok tt) /\ kv_inv s' m /\ same_cfg (eng s) (eng s') /\
        ticks (world s') = ticks (world s)).
  { intros n. pose proof (Hup n) as Hn. destruct Hn as (l & ts & rs & Hs & Hr).
    destruct (sync_active_run _ _ _ _ Hs) as (w' & -> & Hd & Ht).
    eexists. split; [reflexivity|]. split_and!; try done. cbn.
    apply (kv_inv_tick _ _ w' (Hup n)); [done | cbn in *; lia]. }
  cbn [eng fsync_strategy set_writes].
  destruct (fsync_strategy (eng s)).
  - erewrite st_bind_Ok by reflexivity. apply Hsync.
  - case_match; [erewrite st_bind_Ok by reflexivity; apply Hsync|].
    eexists. split; [reflexivity|]. split_and!; [apply Hup | done | done].
  - eexists. split; [reflexivity|]. split_and!; [apply Hup | done | done].
  - eexists. split; [reflexivity|]. split_and!; [apply Hup | done | done].
Qed.

(** What is left of a write once the record is in. *)
Lemma finish_write_run s m dead total :
  kv_inv s m ->
  exists s', (let* _ := add_counters dead total in fsync) s = (s', Ok tt) /\ kv_inv s' m /\
    same_cfg (eng s) (eng s') /\ ticks (world s') = ticks (world s).
Proof.
  intros Hi. erewrite st_bind_Ok by reflexivity.
  destruct (fsync_run (mkKvState (set_counters (wrap64 (dead_bytes (eng s) + dead))
      (wrap64 (total_bytes (eng s) + total)) (eng s)) (world s)) m ltac:(by apply kv_inv_frame))
    as (s' & E & Hr). by exists s'.
Qed.

Definition fits (k v : str) : bool :=
  negb ((MAX_KEY_SIZE <? len k) || (MAX_VALUE_SIZE <? len v)).

(** Strings, and a time of 64 bits: what the types of the arguments say. *)
Definition arg_ok (k v : str) (e : option Z) : Prop :=
  utf8_valid k = true /\ utf8_valid v = true /\ expiry_ok e.

Lemma fits_kv_ok k v e : arg_ok k v e -> fits k v = true -> kv_ok k v e.
Proof.
  intros (H1 & H2 & H3) Hf. unfold fits in Hf. apply negb_true_iff, orb_false_iff in Hf.
  destruct Hf as [Hf1 Hf2]. rewrite Z.ltb_ge in Hf1, Hf2. by split.
Qed.

Lemma set_with_ttl_run s m k v e :
  kv_inv s m -> arg_ok k v e -> (ticks_of (set_with_ttl k v e s).1 <= N)%nat ->
  exists s', set_with_ttl k v e s = (s', if fits k v then Ok tt else Err InvalidInput) /\
    kv_inv s' (if fits k v then <[k := (v, e)]> m else m) /\ same_cfg (eng s) (eng s').
Proof.
  intros Hi Ha Hn. pose proof (fits_kv_ok k v e Ha) as Hf. unfold set_with_ttl, fits in *.
  destruct (_ || _); cbn [negb] in *.
  { eexists. split; [reflexivity|]. split; [done | apply same_cfg_refl]. }
  destruct (kv_append_run s m k v e Hi (Hf eq_refl)) as (s1 & [sz old] & E1 & Hi1 & Hc1).
  { eapply bind_ticks; [|exact Hn]. intros [??]. apply _. }
  rewrite (st_bind_Ok _ _ _ _ _ E1).
  destruct (finish_write_run s1 _ (default 0 old) sz Hi1) as (s2 & E2 & Hi2 & Hc2 & _).
  exists s2. split_and!; [exact E2 | done | by eapply same_cfg_trans].
Qed.

Lemma kv_set_eq k v : kv_set k v = set_with_ttl k v None.
Proof. reflexivity. Qed.

(** A value the store holds can be written again. *)
Lemma live_value_ok s m k v e now :
  kv_inv s m -> spec_get m k now = Some v -> expiry_ok e -> kv_ok k v e.
Proof.
  intros (l & ts & rs & Hs & Hm & _) Eg He.
  unfold spec_get in Eg. destruct (m !! k) as [[v' x]|] eqn:Em; [|done].
  destruct (expired x _); [done|]. injection Eg as ->.
  pose proof (si_agree _ _ _ _ Hs k) as Ha. rewrite <- Hm, Em in Ha.
  destruct (index (eng s) !! k) as [ie|]; [|done].
  destruct Ha as (_ & r & (pre & post & Hin & _) & Hk & Hv & _).
  pose proof (lod_wf _ _ _ (si_disk _ _ _ _ Hs)) as Hwf. rewrite Forall_forall in Hwf.
  specialize (Hwf (_, _) ltac:(rewrite <- app_assoc; apply elem_of_app; right; exact Hin)).
  cbn in Hwf. apply Forall_app in Hwf as [_ Hwf].
  inversion Hwf as [|?? Hr _]; subst. cbn in Hv. rewrite <- Hv. destruct Hr. by split.
Qed.

Lemma ttl_run s m k e :
  kv_inv s m -> utf8_valid k = true -> expiry_ok e -> (ticks_of (ttl k e s).1 <= N)%nat ->
  exists s' out, ttl k e s = (s', Ok out) /\ same_cfg (eng s) (eng s') /\
    match spec_get m k (clock (ticks (world s))) with
    | None => out = TtlNotFound /\ kv_inv s' m
    | Some v => out = match e with Some _ => TtlSet | None => TtlPersisted end /\
                kv_inv s' (<[k := (v, e)]> m)
    end.
Proof.
  intros Hi Hu He Hn. unfold ttl in *.
  match type of Hn with context [st_bind _ ?f _] =>
    assert (Hmono : forall a, Mono (f a)) end.
  { intros. repeat (apply mono_bind; [apply _ | intros]).
    match goal with |- Mono (match ?x with _ => _ end) => destruct x end; [|apply _].
    apply mono_bind; [apply _|]. intros [??]. apply _. }
  pose proof (now_bind _ s Hn Hmono) as [Ht E]. rewrite E in *.
  pose proof Hi as (l & ts & rs & Hs & Hm & Hw).
  do 4 (erewrite st_bind_Ok in * by reflexivity). cbn [eng world disk] in *.
  unfold st_lift at 1 in Hn. unfold st_lift at 1.
  destruct (inv_readable _ _ Hi) as (lr & tr & Har & Hlr & Hsr).
  rewrite Hsr, (kv_lookup_agree _ _ _ _ _ k _ _ Har Hlr) in *.
  erewrite st_bind_Ok in * by reflexivity.
  set (s0 := mkKvState (eng s) _) in *.
  assert (Hi0 : kv_inv s0 m) by (apply kv_inv_tick; cbn; auto).
  destruct (spec_get m k (clock (ticks (world s)))) as [v|] eqn:Eg.
  - assert (Hkv : kv_ok k v e) by (by eapply live_value_ok).
    destruct (kv_append_run s0 m k v e Hi0 Hkv) as (s1 & [sz old] & E1 & Hi1 & Hc1).
    { eapply bind_ticks; [|exact Hn]. intros [??]. apply _. }
    rewrite (st_bind_Ok _ _ _ _ _ E1). erewrite st_bind_Ok by reflexivity.
    destruct (fsync_run (mkKvState (set_counters
        (wrap64 (dead_bytes (eng s1) + default 0 old)) (wrap64 (total_bytes (eng s1) + sz))
        (eng s1)) (world s1)) _ ltac:(by apply kv_inv_frame)) as (s2 & E2 & Hi2 & Hc2 & _).
    rewrite (st_bind_Ok _ _ _ _ _ E2). eexists _, _. split_and!; [reflexivity | | done | done].
    by eapply same_cfg_trans.
  - eexists _, _. split_and!; [reflexivity | done | done | done].
Qed.

Lemma tombstone_inv s l ts rs k :
  seg_inv s l ts rs -> kv_ok k [] None ->
  seg_inv (mkKvState (set_index (delete k (index (eng s))) (eng s))
    (with_disk (world s)
       (<[filename (mkSegment (db_name (eng s)) ts) :=
           recs_bytes rs ++ to_be_bytes (make_record k [] true None)]> (disk (world s)))))
    l ts (rs ++ [make_record k [] true None]).
Proof.
  intros [H1 H2 H3 H4 H5] Hkv. pose proof (make_record_wf k [] true None Hkv) as Hwf.
  split; cbn [eng world disk with_disk ticks set_index index active_segment active_file db_name];
    try done.
  - by apply lod_append.
  - intros i Hi. specialize (H4 i Hi). apply Forall_app in H4 as [H4 H4'].
    apply Forall_app. split; [done|]. by inversion H4'; constructor.
  - rewrite log_map_snoc_rec. change k with (key (make_record k [] true None)) at 2.
    apply agree_tombstone; [done|]. apply make_record_tombstone.
Qed.

Lemma kv_delete_run s m k :
  kv_inv s m -> utf8_valid k = true ->
  exists s', kv_delete k s =
    (s', if MAX_KEY_SIZE <? len k then Err InvalidInput
         else Ok (match m !! k with Some _ => Some tt | None => None end)) /\
    kv_inv s' (if MAX_KEY_SIZE <? len k then m else delete k m) /\ same_cfg (eng s) (eng s') /\
    ticks (world s') = ticks (world s).
Proof.
  intros (l & ts & rs & Hs & -> & Hw) Hu. unfold kv_delete.
  destruct (Z.ltb_spec MAX_KEY_SIZE (len k)) as [|Hk].
  { eexists. split; [reflexivity|]. split_and!; try done. by exists l, ts, rs. }
  assert (Hkv : kv_ok k [] None) by (by split).
  destruct (kv_wal_append_run _ _ _ _ _ k [] true None Hs Hw Hkv)
    as (s1 & E1 & Hs1 & Hw1 & He1 & Ht1).
  rewrite (st_bind_Ok _ _ _ _ _ E1). erewrite st_bind_Ok by reflexivity. cbn [hi_delete].
  erewrite st_bind_Ok by reflexivity. rewrite <- He1, <- Ht1.
  pose proof (agree_None _ _ _ k (si_agree _ _ _ _ Hs1)) as Hnone.
  destruct (index (eng s1) !! k) as [ie|] eqn:Ei.
  - destruct (log_map (l ++ [(ts, rs)]) !! k) as [vx|] eqn:Em; [|by destruct Hnone as [_ Hnone]; discriminate Hnone].
    pose proof (tombstone_inv _ _ _ _ k Hs1 Hkv) as Hs2.
    erewrite st_bind_Ok.
    2: { unfold read_active, st_gets. cbn [eng active_file set_index world].
         rewrite (si_file _ _ _ _ Hs1), (si_contents _ _ _ _ Hs1). reflexivity. }
    erewrite st_bind_Ok.
    2: { unfold write_active. cbn [eng active_file set_index].
         rewrite (si_file _ _ _ _ Hs1). reflexivity. }
    cbn [from_option id append snd eng world].
    match goal with |- context [st_bind fsync _ ?x] => set (s2 := x) in * end.
    assert (Hi2 : kv_inv s2 (delete k (log_map (l ++ [(ts, rs)])))).
    { eexists _, _, _. split_and!; [exact Hs2 | |].
      - by rewrite log_map_snoc_rec, make_tombstone_apply.
      - apply wal_ok_other; [exact Hw1 | apply filename_ne_wal]. }
    destruct (fsync_run s2 _ Hi2) as (s3 & E3 & Hi3 & Hc3 & Ht3).
    rewrite (st_bind_Ok _ _ _ _ _ E3). erewrite st_bind_Ok by reflexivity.
    eexists. split; [reflexivity|]. split_and!; [by apply kv_inv_frame | exact Hc3 | exact Ht3].
  - destruct (log_map (l ++ [(ts, rs)]) !! k) as [vx|] eqn:Em; [naive_solver|].
    eexists. split; [reflexivity|]. cbn [world].
    rewrite (delete_id _ _ Ei), (delete_id _ _ Em).
    split_and!; try done. exists l, ts, rs. split_and!; [|done|].
    + eapply seg_inv_frame; [exact Hs1 | done..].
    + cbn in Hw1 |- *. unfold apply_op in Hw1. cbn in Hw1. by rewrite (delete_id _ _ Em) in Hw1.
Qed.
End Inv.
