(* ===== verification/KvCompact.v ===== *)
(** * Compaction of the hash engine

    While a compaction runs the directory holds the segments of two engines,
    the old one and the one being built; at the end the old segments are
    removed. The abstract store is unchanged, except that keys that have
    expired may be gone. *)

From S2P Require Import Prelude Utf8 Record Collections Memtable Wal Hint Text Segment Utils.
From S2P Require Import Settings HashIndex World Engine KvEngine KvLog KvInv KvOps.

(** ** The segments of the directory *)

Lemma get_segments_lod name w l :
  log_on_disk name (disk w) l ->
  get_segments (map_to_list (disk w)).*1 name = (fun p => mkSegment name p.1) <$> l.
Proof.
  intros Hl. pose proof Hl as [H1 H2 H3 H4 H5].
  unfold get_segments, sort_by_ts. apply (sorted_listing timestamp (db_segment name) filename).
  - apply read_dir_nodup.
  - by rewrite <- list_fmap_compose.
  - intros n s Hn Hs. apply read_dir_elem in Hn. destruct (H5 n s Hn Hs) as [-> Hts]. split; [done|].
    apply list_elem_of_fmap in Hts as ([t rs] & Et & Hin). apply list_elem_of_fmap.
    exists (t, rs). split; [|done]. cbn in *. rewrite (db_segment_name _ _ _ Hs). by rewrite Et.
  - intros s. rewrite list_elem_of_fmap. intros ([t rs] & -> & Hin). cbn [fst].
    rewrite read_dir_elem, (H4 _ _ Hin). split; [eauto|].
    apply db_segment_filename. by eapply lod_ts_in.
Qed.

(** Removing the oldest segment. *)
Lemma lod_remove name d t rs l :
  log_on_disk name d ((t, rs) :: l) ->
  log_on_disk name (delete (filename (mkSegment name t)) d) l /\
  is_Some (d !! filename (mkSegment name t)) /\ Forall (fun p => p.1 <> t) l.
Proof.
  intros Hl. pose proof Hl as [H1 H2 H3 H4 H5].
  assert (Hne : Forall (fun p => p.1 <> t) l).
  { cbn in H3. apply StronglySorted_inv in H3 as [_ Hf]. rewrite Forall_fmap in Hf.
    eapply Forall_impl; [exact Hf|]. cbn. lia. }
  split_and!; [|by rewrite (H4 t rs) by (by left)|done].
  inversion H1; inversion H2; subst. cbn in H3. apply StronglySorted_inv in H3 as [H3 _].
  split; try done.
  - intros t' rs' Hin. rewrite lookup_delete_ne; [apply H4; by right|].
    intros E. apply filename_inj in E; [|done|eapply lod_ts_in; [exact Hl | by right]].
    rewrite Forall_forall in Hne. by apply (Hne _ Hin).
  - intros n s Hn Hs. assert (Hd : filename (mkSegment name t) <> n)
      by (intros <-; rewrite lookup_delete_eq in Hn; by destruct Hn).
    rewrite lookup_delete_ne in Hn by done. destruct (H5 n s Hn Hs) as [-> Hin].
    split; [done|]. cbn in Hin. apply elem_of_cons in Hin as [E|Hin]; [|done].
    exfalso. apply Hd. rewrite (db_segment_name _ _ _ Hs). by rewrite E.
Qed.

(** ** Reading through the old index while the new engine grows *)

Lemma agree_kv_ok name d l idx m k v x :
  agree l idx m -> has_log name d l -> m !! k = Some (v, x) -> kv_ok k v x.
Proof.
  intros Ha [Hwf _] Hm. specialize (Ha k). rewrite Hm in Ha.
  destruct (idx !! k); [|done].
  destruct Ha as (_ & r & (pre & post & Hin & _) & Hk & Hv & He & _).
  rewrite Forall_forall in Hwf. specialize (Hwf _ Hin). cbn in *.
  apply Forall_app in Hwf as [_ Hwf]. inversion Hwf as [|?? Hr _]; subst.
  destruct Hr. by split.
Qed.

(** ** Building the compacted engine *)

Abbreviation no_wal := (fun (_ : list wal_op) (_ : kvmap) => True).

Section Compact.
Context `{HO : HashOrder} `{CK : Clock} (N : nat) `{GC : !GoodClock N}.

(** [m'] is [m] without some keys that had expired at a reading of the clock
    between the two ticks. *)
Definition compacts (t0 t1 : nat) (m m' : kvmap) : Prop :=
  m' ⊆ m /\
  forall k v x, m !! k = Some (v, x) -> m' !! k = None ->
    exists i, (t0 <= i < t1)%nat /\ expired x (clock i) = true.

(** The old engine [self], whose log is [L] and whose map is [m], and the new
    engine [e] that has [m'] so far, in the directory of [w]. *)
Record building (self : KVEngine) (L : log) (m : kvmap) (w : World) (e : KVEngine) (m' : kvmap)
    : Prop := {
  b_agree : agree L (index self) m;
  b_seg : exists ts, active_segment self = mkSegment (db_name self) ts;
  b_new : kv_inv N L no_wal (mkKvState e w) m';
  b_cfg : same_cfg self e;
  b_sub : m' ⊆ m;
}.

Lemma b_has_log self L m w e m' :
  building self L m w e m' -> has_log (db_name self) (disk w) L.
Proof.
  intros [_ _ (l & ts & rs & Hs & _) (Hn & _) _]. rewrite <- Hn.
  pose proof (si_disk _ _ _ _ _ _ Hs) as Hd. cbn in Hd. rewrite <- app_assoc in Hd.
  eapply has_log_sub; [exact Hd|]. intros p Hp. apply elem_of_app. by left.
Qed.

Lemma kv_inv_world base Wp e m w w' :
  kv_inv N base Wp (mkKvState e w) m -> disk w' = disk w -> (ticks w <= ticks w')%nat ->
  kv_inv N base Wp (mkKvState e w') m.
Proof. intros Hi Hd Ht. by apply (kv_inv_tick N base Wp (mkKvState e w)). Qed.

Lemma building_world self L m w e m' w' :
  building self L m w e m' -> disk w' = disk w -> (ticks w <= ticks w')%nat ->
  building self L m w' e m'.
Proof.
  intros [H1 H2 H3 H4 H5] Hd Ht. split; try done. by eapply kv_inv_world.
Qed.

Lemma building_readable self L m w e m' :
  building self L m w e m' -> readable (mkKvState self w) m.
Proof.
  intros Hb. pose proof (b_has_log _ _ _ _ _ _ Hb) as Hl. destruct Hb as [Ha [ts Hseg] _ _ _].
  by exists L, ts.
Qed.

Lemma get_building self L m w e m' k :
  building self L m w e m' -> (ticks_of (get k (mkKvState self w)).1 <= N)%nat ->
  exists w', get k (mkKvState self w)
    = (mkKvState self w', Ok ((fun v => (k, v)) <$> spec_get m k (clock (ticks w)))) /\
    building self L m w' e m' /\ ticks w' = S (ticks w).
Proof.
  intros Hb Hn. destruct (get_read N _ m k (building_readable _ _ _ _ _ _ Hb) Hn) as [_ E].
  eexists. split; [exact E|]. split; [|done]. eapply building_world; [exact Hb | done | cbn; lia].
Qed.

Lemma set_building self L m w e m' k v x :
  building self L m w e m' -> m !! k = Some (v, x) ->
  (ticks_of (with_engine e (set_with_ttl k v x) w).1 <= N)%nat ->
  exists w' e', with_engine e (set_with_ttl k v x) w = (w', Ok (e', tt)) /\
    building self L m w' e' (<[k := (v, x)]> m').
Proof.
  intros Hb Hm Hn. pose proof Hb as [Ha Hseg Hnew Hc Hsub].
  assert (Hkv : kv_ok k v x) by (eapply agree_kv_ok; eauto using b_has_log).
  assert (Hf : fits k v = true).
  { unfold fits. destruct Hkv. by rewrite !(proj2 (Z.ltb_ge _ _)). }
  destruct (set_with_ttl_run N L no_wal (mkKvState e w) m' k v x Hnew) as (s' & E & Hi & Hc').
  { destruct Hkv. by repeat split. }
  { unfold with_engine in Hn. by destruct (set_with_ttl k v x (mkKvState e w)). }
  rewrite Hf in *. exists (world s'), (eng s'). split.
  { unfold with_engine. by rewrite E. }
  split; try done.
  - by destruct s'.
  - by eapply same_cfg_trans.
  - by apply insert_subseteq_l.
Qed.

(** One key copied, unless it has expired in the meantime. *)
Lemma compact_copy_run self L m k v x w e m' :
  building self L m w e m' -> m !! k = Some (v, x) ->
  (ticks_of (compact_copy e k x (mkKvState self w)).1 <= N)%nat ->
  exists w' e' m'', compact_copy e k x (mkKvState self w) = (mkKvState self w', Ok e') /\
    building self L m w' e' m'' /\ m' ⊆ m'' /\ (ticks w < ticks w')%nat /\
    (m'' !! k = m !! k \/ exists i, (ticks w <= i < ticks w')%nat /\ expired x (clock i) = true).
Proof.
  intros Hb Hv Hn. unfold compact_copy in *.
  destruct (get_building _ _ _ _ _ _ k Hb) as (w1 & E1 & Hb1 & Ht1).
  { eapply bind_ticks; [|exact Hn]. intros [[??]|]; apply _. }
  rewrite (st_bind_Ok _ _ _ _ _ E1) in Hn |- *. unfold spec_get in *. rewrite Hv in *.
  destruct (expired x (clock (ticks w))) eqn:Ex; cbn [fmap option_fmap option_map] in *.
  { exists w1, e, m'. split_and!; try done; [lia|]. right. exists (ticks w). split; [lia | done]. }
  destruct (set_building _ _ _ _ _ _ k v x Hb1 Hv) as (w2 & e2 & E2 & Hb2).
  { apply bind_ticks in Hn; [|intros; apply _]. by rewrite on_world_ticks in Hn. }
  assert (Hw : (ticks w1 <= ticks w2)%nat).
  { pose proof (mono (m := with_engine e (set_with_ttl k v x)) w1) as Hmn. by rewrite E2 in Hmn. }
  assert (E2' : on_world (with_engine e (set_with_ttl k v x)) (mkKvState self w1)
                = (mkKvState self w2, Ok (e2, tt))) by (by apply on_world_run).
  rewrite (st_bind_Ok _ _ _ _ _ E2'). eexists w2, e2, _.
  split_and!; [done | exact Hb2 | | lia | left; by rewrite lookup_insert_eq].
  apply map_subseteq_spec. intros k' vx Hk'.
  destruct (decide (k = k')) as [<-|Hne]; [|by rewrite lookup_insert_ne].
  rewrite lookup_insert_eq. pose proof (b_sub _ _ _ _ _ _ Hb1) as Hsub1.
  apply (lookup_weaken _ m) in Hk'; [congruence | done].
Qed.

Lemma compact_loop_run self L m ks w e m' :
  building self L m w e m' -> Forall (fun p => exists v, m !! p.1 = Some (v, p.2)) ks ->
  (ticks_of (compact_loop e ks (mkKvState self w)).1 <= N)%nat ->
  exists w' e' m'', compact_loop e ks (mkKvState self w) = (mkKvState self w', Ok e') /\
    building self L m w' e' m'' /\ m' ⊆ m'' /\ (ticks w <= ticks w')%nat /\
    (forall k x, (k, x) ∈ ks -> m'' !! k = m !! k \/
       exists i, (ticks w <= i < ticks w')%nat /\ expired x (clock i) = true).
Proof.
  intros Hb Hks. revert w e m' Hb. induction Hks as [|[k x] ks [v Hv] _ IH]; intros w e m' Hb Hn.
  { exists w, e, m'. split_and!; try done. intros k x Hin. by apply not_elem_of_nil in Hin. }
  cbn [compact_loop fst snd] in *.
  destruct (compact_copy_run _ _ _ k v x _ _ _ Hb Hv) as (w1 & e1 & m1 & E1 & Hb1 & Hs1 & Ht1 & Hk1).
  { eapply bind_ticks; [|exact Hn]. intros; apply _. }
  rewrite (st_bind_Ok _ _ _ _ _ E1) in Hn |- *.
  destruct (IH _ _ _ Hb1 Hn) as (w2 & e2 & m2 & E2 & Hb2 & Hs2 & Ht2 & Hk2).
  exists w2, e2, m2. split_and!; [done | done | by etrans | lia |].
  intros k' x' Hin. apply elem_of_cons in Hin as [[= -> ->]|Hin].
  - destruct Hk1 as [Hk1|(i & Hi & Hx)]; [left | right; exists i; split; [lia | done]].
    rewrite Hv in *. by eapply lookup_weaken.
  - destruct (Hk2 _ _ Hin) as [?|(i & Hi & ?)]; [by left|]. right. exists i. split; [lia | done].
Qed.

(** ** A fresh engine in a directory *)

Lemma kv_new_run Wp `{!WalPred Wp} w name max p L :
  log_on_disk name (disk w) L -> (ticks w < N)%nat ->
  (forall i, (ticks w <= i < N)%nat -> Forall (fun q => q.1 < clock i) L) ->
  wal_ok Wp name (disk w) ∅ \/ disk w !! wal_name name = None ->
  exists w' e, kv_new name max p w = (w', Ok e) /\ kv_inv N L Wp (mkKvState e w') ∅ /\
    db_name e = name /\ max_segment_bytes e = max /\ fsync_strategy e = p /\
    ticks w' = S (ticks w) /\ (forall n b, disk w !! n = Some b -> disk w' !! n = Some b).
Proof.
  intros Hd Ht Hc Hw. unfold kv_new.
  destruct (new_segment_run N w name Ht) as [E1 Hu]. rewrite (st_bind_Ok _ _ _ _ _ E1).
  remember (clock (ticks w)) as t eqn:Et. remember (filename (mkSegment name t)) as f eqn:Ef.
  assert (Hlt : Forall (fun q => q.1 < t) L) by (rewrite Et; apply Hc; lia).
  assert (Hfresh : disk w !! f = None) by (subst f; by eapply lod_fresh).
  assert (Hnew : log_on_disk name (<[f := []]> (disk w)) (L ++ [(t, [])]))
    by (subst f; by apply lod_new).
  erewrite st_bind_Ok
    by (unfold open_create, st_modify; cbn [disk]; rewrite Hfresh; reflexivity).
  assert (Hfw : f <> wal_name name) by (subst f; apply filename_ne_wal).
  assert (Hwal : exists w', wal_open name (with_disk (mkWorld (disk w) (durable w) (S (ticks w)))
      (<[f := []]> (disk w))) = (w', Ok tt) /\ ticks w' = S (ticks w) /\
      log_on_disk name (disk w') (L ++ [(t, [])]) /\ wal_ok Wp name (disk w') ∅ /\
      (forall n b, disk w !! n = Some b -> disk w' !! n = Some b)).
  { unfold wal_open, open_create, st_modify. cbn [with_disk disk durable ticks].
    rewrite lookup_insert_ne by done. destruct (disk w !! wal_name name) eqn:Ew.
    - eexists. split_and!; try done; cbn [disk with_disk].
      + destruct Hw as [Hw|Hw]; [by apply wal_ok_other | done].
      + intros n b Hn. rewrite lookup_insert_ne; [done | congruence].
    - eexists. split_and!; try done; cbn [disk with_disk].
      + apply lod_other; [done | apply db_segment_wal].
      + exact (wal_ok_reset Wp name _ ∅).
      + intros n b Hn. rewrite !lookup_insert_ne by congruence. done. }
  destruct Hwal as (w' & E2 & Ht' & Hl' & Hw' & Hk'). rewrite (st_bind_Ok _ _ _ _ _ E2).
  eexists _, _. split; [reflexivity|]. split_and!; try done.
  exists [], t, []. split_and!; [|done|done].
  split; cbn [eng world db_name active_segment active_file index];
    rewrite ?app_nil_r, ?app_nil_l; try done.
  - by rewrite Ef.
  - intros i Hi. apply Forall_app. split; [apply Hc; lia|]. constructor; [|done].
    cbn. rewrite Et. apply clock_incr; lia.
Qed.

(** ** The hints *)

Lemma write_hints_run self L m w e m' segs :
  building self L m w e m' ->
  exists w', st_iter (fun seg => on_world (write_file (hint_filename seg)
                                    (hint_write_file (hints_of (index e) seg)))) segs
      (mkKvState self w) = (mkKvState self w', Ok tt) /\
    building self L m w' e m' /\ ticks w' = ticks w.
Proof.
  revert w. induction segs as [|seg segs IH]; intros w Hb; [by exists w|].
  cbn [st_iter]. erewrite st_bind_Ok by reflexivity. cbn [eng world].
  destruct (IH (with_disk w (<[hint_filename seg := hint_write_file (hints_of (index e) seg)]>
    (disk w)))) as (w' & E & Hb' & Ht'); [|by exists w'].
  destruct Hb as [H1 H2 (l & ts & rs & Hs & Hm & Hw) H4 H5]. split; try done.
  exists l, ts, rs. split_and!; [|done|].
  - apply (seg_inv_write N L (mkKvState e w)); [done | apply db_segment_hint].
  - cbn. apply wal_ok_other; [done | apply hint_ne_wal].
Qed.

Lemma live_keys_spec idx m l now :
  agree l idx m ->
  Forall (fun p => exists v, m !! p.1 = Some (v, p.2)) (live_keys idx now) /\
  (forall k v x, m !! k = Some (v, x) -> expired x now = false -> (k, x) ∈ live_keys idx now).
Proof.
  intros Ha. unfold live_keys. split.
  - rewrite Forall_forall. intros [k x] Hin. apply list_elem_of_omap in Hin as (k' & _ & Hk).
    unfold hi_get in Hk. destruct (idx !! k') as [e|] eqn:E; [|done].
    destruct (expired _ _); [done|]. injection Hk as -> <-.
    destruct (agree_Some _ _ _ _ _ Ha E) as ([v y] & Hm & Hx & _). cbn in *. rewrite Hx. eauto.
  - intros k v x Hm Hx. apply list_elem_of_omap. exists k.
    assert (Hk : is_Some (idx !! k)).
    { destruct (idx !! k) eqn:E; [eauto|]. apply (agree_None _ _ _ _ Ha) in E. congruence. }
    rewrite ls_keys_elem. split; [done|]. destruct Hk as [e He]. unfold hi_get. rewrite He.
    destruct (agree_Some _ _ _ _ _ Ha He) as ([v' y] & Hm' & Hy & _).
    assert (y = x) as -> by congruence. cbn in Hy. by rewrite Hy, Hx.
Qed.

Lemma kv_new_ticks name max p w : (S (ticks w) <= ticks_of (kv_new name max p w).1)%nat.
Proof.
  unfold kv_new. eapply Nat.le_trans; [|apply bind_ticks_le; intros; unfold wal_open; apply _].
  unfold ticks_of, ticking_world. by rewrite new_segment_ticks.
Qed.

(** The beginning of a compaction: an empty engine beside the old one, and the
    keys that are not yet expired. *)
Lemma compact_begin_run s m :
  kv_inv N [] wal_agrees s m -> (ticks_of (compact_begin s).1 <= N)%nat ->
  exists L w e ks, compact_begin s
      = (mkKvState (eng s) w, Ok (e, (fun p => mkSegment (db_name (eng s)) p.1) <$> L, ks)) /\
    building (eng s) L m w e ∅ /\ (ticks (world s) < ticks w)%nat /\
    Forall (fun p => exists v, m !! p.1 = Some (v, p.2)) ks /\
    (forall k v x, m !! k = Some (v, x) -> (k, x) ∈ ks \/
       exists i, (ticks (world s) <= i < ticks w)%nat /\ expired x (clock i) = true).
Proof.
  destruct s as [self w0]. cbn [eng world] in *.
  intros (l & ts & rs & Hs & Hm & Hw) Hn. cbn [eng world] in *.
  set (L := l ++ [(ts, rs)]) in *. exists L.
  pose proof (si_disk _ _ _ _ _ _ Hs) as Hd. cbn [app eng world] in Hd. fold L in Hd.
  pose proof (si_agree _ _ _ _ _ _ Hs) as Ha. cbn [eng] in Ha. fold L in Ha. rewrite <- Hm in Ha.
  unfold compact_begin in *.
  do 4 (erewrite st_bind_Ok in Hn |- * by reflexivity).
  cbn [eng world] in *. rewrite (get_segments_lod _ _ _ Hd) in *.
  set (name := db_name self) in *. set (max := max_segment_bytes self) in *.
  set (p := fsync_strategy self) in *.
  assert (Ht : (ticks w0 < N)%nat).
  { apply bind_ticks in Hn; [|intros; apply _]. rewrite on_world_ticks in Hn.
    pose proof (kv_new_ticks name max p w0) as H1. cbn [world] in Hn.
    eapply Nat.lt_le_trans; [exact H1 | exact Hn]. }
  destruct (kv_new_run no_wal w0 name max p L Hd Ht) as
    (w1 & e1 & E1 & Hi1 & Hn1 & Hx1 & Hp1 & Ht1 & Hk1).
  { intros i Hi. apply (si_clock _ _ _ _ _ _ Hs i Hi). }
  { left. destruct Hw as (ops & Hf & Hok & _). by exists ops. }
  assert (E1' : on_world (kv_new name max p) (mkKvState self w0) = (mkKvState self w1, Ok e1))
    by (by apply on_world_run).
  rewrite (st_bind_Ok _ _ _ _ _ E1') in Hn |- *.
  assert (Hb1 : building self L m w1 e1 ∅).
  { split; [done | | done | done | apply map_empty_subseteq].
    eexists. apply (si_seg _ _ _ _ _ _ Hs). }
  destruct (now_bind N _ _ Hn ltac:(intros; apply _)) as [Ht2 E2]. rewrite E2.
  erewrite st_bind_Ok by reflexivity. cbn [eng world] in *.
  destruct (live_keys_spec (index self) m L (clock (ticks w1)) Ha) as [Hl1 Hl2].
  eexists _, e1, _. split; [reflexivity|]. cbn [ticks].
  split_and!; [eapply building_world; [exact Hb1 | done | cbn; lia] | lia | exact Hl1 |].
  intros k v x Hk. destruct (expired x (clock (ticks w1))) eqn:Ex; [|left; by eapply Hl2].
  right. exists (ticks w1). split; [lia | done].
Qed.

Lemma compact_hints_run self L m w e m' old :
  building self L m w e m' ->
  exists w', compact_hints e old (mkKvState self w) = (mkKvState self w', Ok tt) /\
    building self L m w' e m' /\ ticks w' = ticks w.
Proof.
  intros Hb. unfold compact_hints. erewrite st_bind_Ok by reflexivity.
  destruct (b_new _ _ _ _ _ _ Hb) as (nl & nts & nrs & Hns & _).
  destruct (sync_active_run N L _ _ _ _ Hns) as (w1 & E1 & Hd1 & Ht1). cbn [world] in *.
  erewrite st_bind_Ok
    by (apply on_world_run; unfold with_engine; cbn [world]; rewrite E1; reflexivity).
  erewrite st_bind_Ok by reflexivity.
  assert (Hb1 : building self L m w1 e m') by (eapply building_world; [exact Hb | done | lia]).
  match goal with |- context [st_iter _ ?segs] =>
    destruct (write_hints_run _ _ _ _ _ _ segs Hb1) as (w2 & E2 & Hb2 & Ht2) end.
  exists w2. split_and!; [exact E2 | done | lia].
Qed.

Lemma build_compacted_run s m :
  kv_inv N [] wal_agrees s m -> (ticks_of (build_compacted s).1 <= N)%nat ->
  exists L w' e' m', build_compacted s
      = (mkKvState (eng s) w', Ok (e', (fun p => mkSegment (db_name (eng s)) p.1) <$> L)) /\
    building (eng s) L m w' e' m' /\ compacts (ticks (world s)) (ticks w') m m' /\
    (ticks (world s) <= ticks w')%nat.
Proof.
  intros Hi Hn. unfold build_compacted in *.
  destruct (compact_begin_run s m Hi) as (L & w1 & e1 & ks & E1 & Hb1 & Ht1 & Hks & Hl).
  { eapply bind_ticks; [|exact Hn]. intros; apply _. }
  rewrite (st_bind_Ok _ _ _ _ _ E1) in Hn |- *. cbn [fst snd] in *.
  destruct (compact_loop_run _ _ _ _ _ _ _ Hb1 Hks) as (w2 & e2 & m2 & E2 & Hb2 & _ & Ht2 & Hk2).
  { eapply bind_ticks; [|exact Hn]. intros; apply _. }
  rewrite (st_bind_Ok _ _ _ _ _ E2).
  destruct (compact_hints_run _ _ _ _ _ _ ((fun p => mkSegment (db_name (eng s)) p.1) <$> L) Hb2)
    as (w3 & E3 & Hb3 & Ht3).
  rewrite (st_bind_Ok _ _ _ _ _ E3). exists L, w3, e2, m2. split_and!; [done | done | | lia].
  split; [by destruct Hb3|]. intros k v x Hk Hnone.
  destruct (Hl k v x Hk) as [Hin|(i & Hi' & Hx)]; [|exists i; split; [lia | done]].
  destruct (Hk2 k x Hin) as [Heq|(i & Hi' & Hx)]; [congruence|]. exists i. split; [lia | done].
Qed.

(** The new engine takes over; the old segments are the base of its log. *)
Lemma install_run self L m w e m' :
  building self L m w e m' ->
  exists s', install e (mkKvState self w) = (s', Ok tt) /\ kv_inv N L wal_agrees s' m' /\
    same_cfg self (eng s') /\ db_name (eng s') = db_name self /\ ticks (world s') = ticks w /\
    dead_bytes (eng s') = dead_bytes self /\ total_bytes (eng s') = total_bytes self.
Proof.
  intros [Ha _ (nl & nts & nrs & Hns & Hm & Hw) (Hcn & Hcm & Hcf) Hsub]. unfold install.
  do 4 (erewrite st_bind_Ok by reflexivity). cbn [eng world].
  match goal with |- context [kv_wal_reset ?x] => set (s2 := x) in * end.
  assert (Hs2 : seg_inv N L s2 nl nts nrs) by (eapply seg_inv_frame; [exact Hns | ..]; cbn; auto).
  destruct (kv_wal_reset_run N L wal_agrees _ _ _ _ Hs2) as (s3 & E3 & Hs3 & Hw3 & He3 & Ht3).
  exists s3. split_and!; [exact E3 | | | | | |]; try (by rewrite He3).
  - exists nl, nts, nrs. split_and!; [done | done |]. apply Hw3.
  - by rewrite Ht3.
Qed.

(** ** Removing the old segments *)

Lemma unlink_run Wp s t rs b nl nts nrs m :
  seg_inv N ((t, rs) :: b) s nl nts nrs -> wal_ok Wp (db_name (eng s)) (disk (world s)) m ->
  let seg := mkSegment (db_name (eng s)) t in
  exists s', remove_segment seg s = (s', Ok tt) /\
    seg_inv N b s' nl nts nrs /\ wal_ok Wp (db_name (eng s)) (disk (world s')) m /\
    eng s' = eng s /\ ticks (world s') = ticks (world s).
Proof.
  intros [H1 H2 H3 H4 H5] Hw seg. cbn [app] in H1. unfold remove_segment.
  destruct (lod_remove _ _ _ _ _ H1) as (Hd & [file Hfile] & Hne).
  change (mkSegment (db_name (eng s)) t) with seg in Hd, Hfile.
  assert (Hnf : filename (mkSegment (db_name (eng s)) nts) <> filename seg).
  { intros E. apply filename_inj in E.
    - rewrite Forall_forall in Hne. apply (Hne (nts, nrs)); [|done]. apply elem_of_app. right.
      by apply list_elem_of_singleton.
    - eapply lod_ts_in; [exact H1|]. right. apply elem_of_app. right.
      by apply list_elem_of_singleton.
    - eapply lod_ts_in; [exact H1|]. by left. }
  assert (E1 : unlink (filename seg) s =
    (mkKvState (eng s) (with_disk (world s) (delete (filename seg) (disk (world s)))), Ok tt)).
  { unfold unlink. rewrite H3, decide_False by done. apply on_world_run.
    unfold remove_file. by rewrite Hfile. }
  rewrite (st_bind_Ok _ _ _ _ _ E1). unfold ignore.
  assert (E2 : exists d', (unlink (hint_filename seg) (mkKvState (eng s)
      (with_disk (world s) (delete (filename seg) (disk (world s)))))).1
      = mkKvState (eng s) (with_disk (world s) d') /\
      log_on_disk (db_name (eng s)) d' ((b ++ nl) ++ [(nts, nrs)]) /\
      wal_ok Wp (db_name (eng s)) d' m).
  { assert (Hw1 : wal_ok Wp (db_name (eng s)) (delete (filename seg) (disk (world s))) m).
    { destruct Hw as (ops & Ho & Hr). exists ops.
      by rewrite lookup_delete_ne by apply filename_ne_wal. }
    unfold unlink. cbn [eng]. rewrite H3, decide_False by apply filename_ne_hint.
    unfold on_world, remove_file. cbn [world disk with_disk eng].
    destruct (delete (filename seg) (disk (world s)) !! hint_filename seg).
    - eexists. split; [reflexivity|]. split; cbn [fst].
      + apply lod_other_delete; [done | apply db_segment_hint].
      + destruct Hw1 as (ops & Ho & Hr). exists ops.
        by rewrite lookup_delete_ne by apply hint_ne_wal.
    - eexists. split; [reflexivity|]. done. }
  destruct E2 as (d' & -> & Hd' & Hw'). eexists. split; [reflexivity|].
  split_and!; try done. split; cbn [eng world disk with_disk ticks]; try done.
  intros i Hi. specialize (H4 i Hi). cbn in H4. by inversion H4.
Qed.

Lemma unlink_all_run Wp name b s nl nts nrs m :
  db_name (eng s) = name ->
  seg_inv N b s nl nts nrs -> wal_ok Wp name (disk (world s)) m ->
  exists s', st_iter remove_segment ((fun p => mkSegment name p.1) <$> b) s = (s', Ok tt) /\
    seg_inv N [] s' nl nts nrs /\ wal_ok Wp name (disk (world s')) m /\
    eng s' = eng s /\ ticks (world s') = ticks (world s).
Proof.
  intros <-. revert s. induction b as [|[t rs] b IH]; intros s Hs Hw; [by exists s|].
  destruct (unlink_run Wp _ _ _ _ _ _ _ _ Hs Hw) as (s1 & E1 & Hs1 & Hw1 & He1 & Ht1).
  cbn [fmap list_fmap st_iter]. cbn zeta in E1. cbn [fst].
  rewrite (st_bind_Ok _ _ _ _ _ E1). rewrite <- He1.
  destruct (IH s1 Hs1) as (s2 & E2 & Hs2 & Hw2 & He2 & Ht2); [by rewrite He1|].
  exists s2. split_and!; try done. lia.
Qed.

Lemma compact_run s m :
  kv_inv N [] wal_agrees s m -> (ticks_of (compact s).1 <= N)%nat ->
  exists s' m', compact s = (s', Ok tt) /\ kv_inv N [] wal_agrees s' m' /\
    compacts (ticks (world s)) (ticks (world s')) m m' /\ same_cfg (eng s) (eng s') /\
    dead_bytes (eng s') = dead_bytes (eng s) /\ total_bytes (eng s') = total_bytes (eng s).
Proof.
  intros Hi Hn. unfold compact in *.
  destruct (build_compacted_run s m Hi) as (L & w1 & e1 & m1 & E1 & Hb1 & Hc1 & Ht1).
  { eapply bind_ticks; [|exact Hn]. intros; apply _. }
  rewrite (st_bind_Ok _ _ _ _ _ E1). cbn [fst snd].
  destruct (install_run _ _ _ _ _ _ Hb1) as (s2 & E2 & (nl & nts & nrs & Hs2 & Hm & Hw2) & Hc2 & Hn2
    & Ht2 & Hd2 & Htb2).
  rewrite (st_bind_Ok _ _ _ _ _ E2).
  destruct (unlink_all_run wal_agrees (db_name (eng s)) L s2 nl nts nrs m1)
    as (s4 & E4 & Hs4 & Hw4 & He4 & Ht4); [done | done | by rewrite <- Hn2 |].
  exists s4, m1. split_and!; [exact E4 | | | | |]; try (by rewrite He4).
  - exists nl, nts, nrs. split_and!; [done | done |]. by rewrite He4, Hn2.
  - by rewrite Ht4, Ht2.
Qed.
End Compact.
