(* ===== verification/KvSpans.v ===== *)
(** * The operations of the hash engine as spans

    [KVEngine] (src/src/kvengine.rs) cut where its locks are released: a read
    takes the clock, a copy of the active segment and then the lock of the
    index; a write holds every lock for its record and comes back for the
    counters (both in one span) and the sync; a deletion takes the locks one after the other; MGET
    and MSET go key by key; a compaction holds no lock while it copies. Alone,
    each is the operation of [KvEngine]. *)

From S2P Require Import Prelude Utf8 Record Collections Memtable Wal Hint Text Segment Utils.
From S2P Require Import Settings HashIndex World Engine KvEngine KvLog KvInv Spans KvOps.

Section Spans.
Context `{HO : HashOrder} `{CK : Clock}.

Definition get_spans (k : str) : Prog KvState (option (str * str)) :=
  let~ now := atom (on_world now_ms) in
  let~ active := atom (ask active_segment) in
  let~ v := atom (let* idx := ask index in
                  let* name := ask db_name in
                  let* d := st_gets (fun s => disk (world s)) in
                  st_lift (kv_lookup idx name active k now d)) in
  p_ret ((fun v => (k, v)) <$> v).

(** The counter is a [fetch_add], then a load or a store; the file is synced
    under its lock. *)
Definition fsync_spans : Prog KvState unit :=
  let~ writes := atom (let* n := ask writes_since_fsync in
                       let* _ := upd (set_writes (wrap64 (n + 1))) in
                       st_ret (wrap64 (n + 1))) in
  let~ p := atom (ask fsync_strategy) in
  match p with
  | FsAlways => let~ _ := atom (upd (set_writes 0)) in atom sync_active
  | FsNever => p_ret tt
  | FsEveryN n =>
      let~ writes := atom (ask writes_since_fsync) in
      if n <=? writes then let~ _ := atom (upd (set_writes 0)) in atom sync_active else p_ret tt
  | FsPeriodic _ => p_ret tt
  end.

Definition set_spans (k v : str) (expiry : option Z) : Prog KvState unit :=
  if (MAX_KEY_SIZE <? len k) || (MAX_VALUE_SIZE <? len v) then Halt (Err InvalidInput)
  else
    let~ p := atom (kv_append k v expiry) in
    let~ _ := atom (add_counters (default 0 p.2) p.1) in
    fsync_spans.

Definition delete_spans (k : str) : Prog KvState (option unit) :=
  if MAX_KEY_SIZE <? len k then Halt (Err InvalidInput)
  else
    let record := make_record k [] true None in
    let~ _ := atom (kv_wal_append k [] true None) in
    let~ old := atom (let* idx := ask index in
                      let '(old, idx') := hi_delete idx k in
                      let* _ := upd (set_index idx') in
                      st_ret old) in
    match old with
    | Some entry =>
        let~ _ := atom (let* contents := read_active in write_active (append record contents).2) in
        let~ _ := fsync_spans in
        let~ _ := atom (add_counters (record_size entry + size_on_disk record) (size_on_disk record)) in
        p_ret (Some tt)
    | None => p_ret None
    end.

Definition list_spans : Prog KvState (list str) :=
  let~ now := atom (on_world now_ms) in
  atom (let* idx := ask index in
        st_ret (List.filter (fun k => negb (match hi_get idx k with
                                            | Some e => expired (i_expiry e) now
                                            | None => false
                                            end)) (ls_keys idx))).

Fixpoint mget_spans (keys : list str) : Prog KvState (list (str * option str)) :=
  match keys with
  | [] => p_ret []
  | k :: keys' =>
      let~ r := get_spans k in
      let~ rest := mget_spans keys' in
      p_ret (match r with Some (k', v) => (k', Some v) | None => (k, None) end :: rest)
  end.

(** The lookup and the append are under one hold of all the locks. *)
Definition ttl_spans (k : str) (expiry : option Z) : Prog KvState TtlOutcome :=
  let~ now := atom (on_world now_ms) in
  let~ written := atom (let* idx := ask index in
                        let* name := ask db_name in
                        let* active := ask active_segment in
                        let* d := st_gets (fun s => disk (world s)) in
                        let* found := st_lift (kv_lookup idx name active k now d) in
                        match found with
                        | None => st_ret None
                        | Some v => let* p := kv_append k v expiry in st_ret (Some p)
                        end) in
  match written with
  | None => p_ret TtlNotFound
  | Some p =>
      let~ _ := atom (add_counters (default 0 p.2) p.1) in
      let~ _ := fsync_spans in
      p_ret (match expiry with Some _ => TtlSet | None => TtlPersisted end)
  end.

(** [build_compacted]: the directory is listed, the new engine made, the time
    taken and the keys listed, each on its own; only the last needs a lock. *)
Definition begin_spans : Prog KvState (KVEngine * list Segment * list (str * option Z)) :=
  let~ old_segments := atom (let* name := ask db_name in
                             let* dir := on_world read_dir in
                             st_ret (get_segments dir name)) in
  let~ new_db := atom (let* name := ask db_name in
                       let* max := ask max_segment_bytes in
                       let* p := ask fsync_strategy in
                       on_world (kv_new name max p)) in
  let~ now := atom (on_world now_ms) in
  let~ keys := atom (let* idx := ask index in st_ret (live_keys idx now)) in
  p_ret (new_db, old_segments, keys).

Fixpoint copy_spans (new_db : KVEngine) (l : list (str * option Z)) : Prog KvState KVEngine :=
  match l with
  | [] => p_ret new_db
  | (k, expiry) :: l' =>
      let~ found := get_spans k in
      match found with
      | None => copy_spans new_db l'
      | Some (_, v) =>
          let~ r := atom (on_world (with_engine new_db (set_with_ttl k v expiry))) in
          copy_spans r.1 l'
      end
  end.

Definition hint_spans (new_db : KVEngine) (old_segments : list Segment) : Prog KvState unit :=
  let~ _ := atom (on_world (with_engine new_db sync_active)) in
  let~ new_segments := atom (let* name := ask db_name in
                             let* dir := on_world read_dir in
                             st_ret (List.filter
                               (fun s => negb (existsb (fun o => timestamp o =? timestamp s) old_segments))
                               (get_segments dir name))) in
  p_iter (fun seg => atom (on_world (write_file (hint_filename seg)
                                       (hint_write_file (hints_of (index new_db) seg))))) new_segments.

Definition compact_spans : Prog KvState unit :=
  let~ b := begin_spans in
  let~ new_db := copy_spans b.1.1 b.2 in
  let~ _ := hint_spans new_db b.1.2 in
  let~ _ := atom (install new_db) in
  p_iter (fun seg => atom (remove_segment seg)) b.1.2.

(** The periodic sync of the active segment, where one runs; without the file
    its thread ends, and nothing else happens. *)
Definition periodic_sync : ST KvState unit := fun s =>
  match fsync_handle (eng s) with
  | Some (_, path) =>
      match disk (world s) !! path with
      | Some _ => on_world (sync_file path) s
      | None => (s, Ok tt)
      end
  | None => (s, Ok tt)
  end.

#[export] Instance kv_span_engine : SpanEngine KvState := {
  p_get := get_spans;
  p_delete := delete_spans;
  p_list_keys := list_spans;
  p_exists k := atom (exists_key k);
  p_mget := mget_spans;
  p_ttl := ttl_spans;
  p_set_with_ttl := set_spans;
  p_mset_with_ttl l := p_iter (fun '(k, v, e) => set_spans k v e) l;
  p_range := None;
  p_compact := compact_spans;
  own_step := periodic_sync;
}.

(** ** Alone, the spans are the operations *)

Lemma alone_get_spans k s : run_alone (get_spans k) s = get k s.
Proof. unfold get_spans, get. repeat alone_step. done. Qed.

Lemma alone_fsync s : run_alone fsync_spans s = fsync s.
Proof.
  unfold fsync_spans, fsync. rewrite run_bind_atom, st_bind_assoc. apply st_bind_ext. intros n s1.
  rewrite st_bind_assoc. unfold st_bind, st_ret, upd, ask, st_modify, st_gets. cbn [eng].
  rewrite run_bind_atom. unfold st_bind, st_gets. cbn [eng fsync_strategy set_writes].
  destruct (fsync_strategy (eng s1)); try done.
  - rewrite run_bind_atom. unfold st_bind. cbn. by destruct (sync_active _).
  - rewrite run_bind_atom. unfold st_bind, st_gets. cbn [eng writes_since_fsync set_writes].
    destruct (_ <=? _); [|done]. rewrite run_bind_atom. unfold st_bind. cbn. by destruct (sync_active _).
Qed.

Lemma alone_set_spans k v e s : run_alone (set_spans k v e) s = set_with_ttl k v e s.
Proof.
  unfold set_spans, set_with_ttl. destruct (_ || _); [done|]. rewrite run_bind_atom.
  apply st_bind_ext. intros [sz old] s1. rewrite run_bind_atom. apply st_bind_ext. intros _ s2. apply alone_fsync.
Qed.

Lemma alone_delete_spans k s : run_alone (delete_spans k) s = kv_delete k s.
Proof.
  unfold delete_spans, kv_delete. destruct (_ <? _); [done|]. repeat alone_step.
  destruct (hi_delete _ k) as [old idx']. repeat alone_step. destruct old as [entry|]; [|done].
  repeat alone_step; [apply alone_fsync | done].
Qed.

Lemma alone_list_spans s : run_alone list_spans s = list_keys s.
Proof. unfold list_spans, list_keys. repeat alone_step. done. Qed.

Lemma alone_mget_spans ks s : run_alone (mget_spans ks) s = mget ks s.
Proof.
  revert s. induction ks as [|k ks IH]; intros s; [done|]. cbn [mget_spans mget].
  apply run_bind_eq; [intros; apply alone_get_spans|]. intros r s1. apply run_bind_eq; [exact IH | done].
Qed.

Lemma alone_ttl_spans k e s : run_alone (ttl_spans k e) s = ttl k e s.
Proof.
  unfold ttl_spans, ttl. repeat alone_step.
  match goal with |- context [match ?f with None => st_ret None | Some _ => _ end] => destruct f as [v|] end; [|done].
  rewrite st_bind_assoc. apply st_bind_ext. intros [sz old] s6. rewrite st_bind_ret, run_bind_atom.
  apply st_bind_ext. intros _ s7. apply run_bind_eq; [apply alone_fsync | done].
Qed.

(** Asking for a field changes nothing, so that it can be done again. *)
Lemma ask_bind {A B} (f : KVEngine -> A) (g : A -> ST KvState B) s : st_bind (ask f) g s = g (f (eng s)) s.
Proof. done. Qed.

Lemma alone_begin s : run_alone begin_spans s = compact_begin s.
Proof.
  unfold begin_spans, compact_begin, st_bind, ask, st_gets, on_world, read_dir, st_ret.
  cbn -[kv_new now_ms live_keys get_segments]. unfold st_gets. cbn -[kv_new now_ms live_keys get_segments].
  destruct (kv_new _ _ _ (world s)) as [w1 [e| |]]; cbn -[now_ms live_keys get_segments]; [|done|done].
  by destruct (now_ms w1) as [w2 [t| |]].
Qed.

Lemma alone_copy l : forall e s, run_alone (copy_spans e l) s = compact_loop e l s.
Proof.
  induction l as [|[k x] l IH]; intros e s; [done|]. cbn [copy_spans compact_loop]. unfold compact_copy.
  rewrite st_bind_assoc. apply run_bind_eq; [intros; apply alone_get_spans|]. intros [[k' v]|] s1; [|apply IH].
  rewrite run_bind_atom, st_bind_assoc. apply st_bind_ext. intros [e' u] s2. apply IH.
Qed.

Lemma alone_hints e old s : run_alone (hint_spans e old) s = compact_hints e old s.
Proof.
  unfold hint_spans, compact_hints. rewrite run_bind_atom, ask_bind. unfold st_bind at 1.
  destruct (on_world (with_engine e sync_active) s) as [s1 [r| |]] eqn:E.
  - rewrite (st_bind_Ok _ _ _ _ _ E), run_bind_atom, st_bind_assoc, ask_bind.
    assert (Heng : eng s1 = eng s)
      by (unfold on_world in E; destruct (with_engine e sync_active (world s)); by injection E as <- _).
    rewrite Heng, st_bind_assoc. apply st_bind_ext. intros dir s2. rewrite st_bind_ret.
    apply run_iter. intros. apply run_atom.
  - unfold st_bind. by rewrite E.
  - unfold st_bind. by rewrite E.
Qed.

Lemma alone_compact_spans s : run_alone compact_spans s = compact s.
Proof.
  unfold compact_spans, compact, build_compacted. rewrite st_bind_assoc.
  apply run_bind_eq; [apply alone_begin|]. intros b s1. rewrite st_bind_assoc. apply run_bind_eq; [intros; apply alone_copy|].
  intros e s2. rewrite st_bind_assoc. apply run_bind_eq; [intros; apply alone_hints|]. intros _ s3.
  rewrite st_bind_ret, run_bind_atom. cbn [fst snd]. apply st_bind_ext. intros _ s4.
  apply run_iter. intros. apply run_atom.
Qed.

#[export] Instance kv_span_laws : SpanLaws KvState.
Proof.
  split; try done.
  - apply alone_get_spans.
  - apply alone_delete_spans.
  - apply alone_list_spans.
  - intros. apply run_atom.
  - apply alone_mget_spans.
  - apply alone_ttl_spans.
  - apply alone_set_spans.
  - intros l s. apply run_iter. intros [[k v] e] s1. apply alone_set_spans.
  - apply alone_compact_spans.
Qed.
End Spans.
