(* ===== verification/KvSpec.v ===== *)
(** * The hash engine refines an abstract store with expiry

    The specification is a finite map from keys to values with an optional
    expiry, and a step relation that says what each operation may answer and
    which map it leaves. A step happens between two readings of the clock: the
    instant at which an operation looks at the time lies between them. *)

From S2P Require Import Prelude Utf8 Record Collections Memtable Wal Hint Text Segment Utils.
From S2P Require Import Settings HashIndex World Engine KvEngine KvLog KvInv KvOps KvCompact.

(** ** Operations and their answers *)

Inductive kv_op :=
  | KGet (k : str)
  | KSet (k v : str) (e : option Z)
  | KMset (items : list (str * str * option Z))
  | KDelete (k : str)
  | KTtl (k : str) (e : option Z)
  | KExists (k : str)
  | KMget (ks : list str)
  | KList
  | KCompact.

Inductive kv_out :=
  | OutPair (r : option (str * str))
  | OutUnit
  | OutDeleted (r : option unit)
  | OutTtl (r : TtlOutcome)
  | OutBool (b : bool)
  | OutPairs (l : list (str * option str))
  | OutKeys (l : list str).

Definition st_map {S A B} (f : A -> B) (m : ST S A) : ST S B := let* a := m in st_ret (f a).

Definition run_op `{HashOrder} `{Clock} (op : kv_op) : ST KvState kv_out :=
  match op with
  | KGet k => st_map OutPair (get k)
  | KSet k v e => st_map (fun _ => OutUnit) (set_with_ttl k v e)
  | KMset items => st_map (fun _ => OutUnit) (mset_with_ttl items)
  | KDelete k => st_map OutDeleted (kv_delete k)
  | KTtl k e => st_map OutTtl (ttl k e)
  | KExists k => st_map OutBool (exists_key k)
  | KMget ks => st_map OutPairs (mget ks)
  | KList => st_map OutKeys list_keys
  | KCompact => st_map (fun _ => OutUnit) compact
  end.

(** A client's sequence of operations; an error does not stop it. *)
Fixpoint run_ops `{HashOrder} `{Clock} (ops : list kv_op) (s : KvState)
    : KvState * list (result kv_out) :=
  match ops with
  | [] => (s, [])
  | op :: ops' =>
      let '(s1, r) := run_op op s in
      let '(s2, rs) := run_ops ops' s1 in
      (s2, r :: rs)
  end.

(** ** The specification *)

Section Spec.
Context `{CK : Clock}.

(** Items are written in order until one is too large. *)
Fixpoint spec_mset (m : kvmap) (items : list (str * str * option Z)) : kvmap * result kv_out :=
  match items with
  | [] => (m, Ok OutUnit)
  | (k, v, e) :: items' =>
      if fits k v then spec_mset (<[k := (v, e)]> m) items' else (m, Err InvalidInput)
  end.

Inductive spec_step (t0 t1 : nat) : kv_op -> result kv_out -> kvmap -> kvmap -> Prop :=
  | spec_KGet k m i : (t0 <= i <= t1)%nat ->
      spec_step t0 t1 (KGet k) (Ok (OutPair ((fun v => (k, v)) <$> spec_get m k (clock i)))) m m
  | spec_KSet k v e m : fits k v = true ->
      spec_step t0 t1 (KSet k v e) (Ok OutUnit) m (<[k := (v, e)]> m)
  | spec_KSet_large k v e m : fits k v = false ->
      spec_step t0 t1 (KSet k v e) (Err InvalidInput) m m
  | spec_KMset items m m' r : spec_mset m items = (m', r) ->
      spec_step t0 t1 (KMset items) r m m'
  | spec_KDelete k m : len k <= MAX_KEY_SIZE ->
      spec_step t0 t1 (KDelete k)
        (Ok (OutDeleted (match m !! k with Some _ => Some tt | None => None end))) m (delete k m)
  | spec_KDelete_large k m : MAX_KEY_SIZE < len k ->
      spec_step t0 t1 (KDelete k) (Err InvalidInput) m m
  | spec_KTtl k e m i v : (t0 <= i <= t1)%nat -> spec_get m k (clock i) = Some v ->
      spec_step t0 t1 (KTtl k e)
        (Ok (OutTtl (match e with Some _ => TtlSet | None => TtlPersisted end))) m
        (<[k := (v, e)]> m)
  | spec_KTtl_none k e m i : (t0 <= i <= t1)%nat -> spec_get m k (clock i) = None ->
      spec_step t0 t1 (KTtl k e) (Ok (OutTtl TtlNotFound)) m m
  | spec_KExists k m i : (t0 <= i <= t1)%nat ->
      spec_step t0 t1 (KExists k) (Ok (OutBool (bool_decide (is_Some (spec_get m k (clock i)))))) m m
  | spec_KMget ks m l :
      Forall2 (fun k p => p.1 = k /\ exists i, (t0 <= i <= t1)%nat /\ p.2 = spec_get m k (clock i))
        ks l ->
      spec_step t0 t1 (KMget ks) (Ok (OutPairs l)) m m
  | spec_KList m l i : (t0 <= i <= t1)%nat -> NoDup l ->
      (forall k, k ∈ l <-> is_Some (spec_get m k (clock i))) ->
      spec_step t0 t1 KList (Ok (OutKeys l)) m m
  | spec_KCompact m m' : compacts t0 t1 m m' ->
      spec_step t0 t1 KCompact (Ok OutUnit) m m'.

Inductive spec_run : nat -> nat -> list kv_op -> list (result kv_out) -> kvmap -> kvmap -> Prop :=
  | spec_run_nil t m : spec_run t t [] [] m m
  | spec_run_cons t0 t1 t2 op ops r rs m m1 m2 :
      (t0 <= t1)%nat -> spec_step t0 t1 op r m m1 -> spec_run t1 t2 ops rs m1 m2 ->
      spec_run t0 t2 (op :: ops) (r :: rs) m m2.

End Spec.

(** What the types of the arguments guarantee. *)
Definition op_ok (op : kv_op) : Prop :=
  match op with
  | KSet k v e => arg_ok k v e
  | KMset items => Forall (fun p => arg_ok p.1.1 p.1.2 p.2) items
  | KDelete k => utf8_valid k = true
  | KTtl k e => utf8_valid k = true /\ expiry_ok e
  | _ => True
  end.

(** ** Lemmas *)

Section Refine.
Context `{HO : HashOrder} `{CK : Clock} (N : nat) `{GC : !GoodClock N}.

(** The invariant of an engine that has the directory to itself. *)
Definition kv_good (s : KvState) (m : kvmap) : Prop := kv_inv N [] wal_agrees s m.

#[local] Instance mono_st_map {St} `{Ticking St} {A B} (f : A -> B) (m : ST St A) :
  Mono m -> Mono (st_map f m).
Proof. intros. unfold st_map. apply _. Qed.

#[export] Instance mono_run_op op : Mono (run_op op).
Proof. destruct op; cbn [run_op]; apply _. Qed.

Lemma run_ops_ticks ops s : (ticks (world s) <= ticks (world (run_ops ops s).1))%nat.
Proof.
  revert s. induction ops as [|op ops IH]; intros s; [done|]. cbn.
  pose proof (mono (m := run_op op) s) as H1. unfold ticks_of, ticking_kv in H1.
  destruct (run_op op s) as [s1 r]. specialize (IH s1). cbn in *.
  destruct (run_ops ops s1). cbn in *. lia.
Qed.

Lemma st_map_Ok {St A B} (f : A -> B) (m : ST St A) s s' a :
  m s = (s', Ok a) -> st_map f m s = (s', Ok (f a)).
Proof. intros E. unfold st_map. by rewrite (st_bind_Ok _ _ _ _ _ E). Qed.

Lemma st_map_Err {A B} (f : A -> B) (m : ST KvState A) s s' e :
  m s = (s', Err e) -> st_map f m s = (s', Err e).
Proof. intros E. unfold st_map, st_bind. by rewrite E. Qed.

Lemma st_map_ticks {St} `{Ticking St} {A B} (f : A -> B) (m : ST St A) s :
  ticks_of (st_map f m s).1 = ticks_of (m s).1.
Proof. unfold st_map, st_bind. by destruct (m s) as [s' [| |]]. Qed.

Lemma mset_run base items s m :
  kv_inv N base wal_agrees s m -> Forall (fun p => arg_ok p.1.1 p.1.2 p.2) items ->
  (ticks_of (mset_with_ttl items s).1 <= N)%nat ->
  exists s', st_map (fun _ => OutUnit) (mset_with_ttl items) s = (s', (spec_mset m items).2) /\
    kv_inv N base wal_agrees s' (spec_mset m items).1 /\ same_cfg (eng s) (eng s').
Proof.
  revert s m. induction items as [|[[k v] e] items IH]; intros s m Hi Hok Hn; [by eexists; eauto using same_cfg_refl|].
  inversion Hok as [|?? Ha Hok']; subst. cbn in Ha.
  change (mset_with_ttl ((k, v, e) :: items))
    with (let* _ := set_with_ttl k v e in mset_with_ttl items) in *.
  destruct (set_with_ttl_run N base wal_agrees s m k v e Hi Ha) as (s1 & E1 & Hi1 & Hc1).
  { eapply bind_ticks; [|exact Hn]. intros. apply _. }
  cbn [spec_mset]. destruct (fits k v).
  - rewrite (st_bind_Ok _ _ _ _ _ E1) in Hn. destruct (IH s1 _ Hi1 Hok' Hn) as (s2 & E2 & Hi2 & Hc2).
    exists s2. split; [|split; [done | by eapply same_cfg_trans]]. rewrite <- E2. unfold st_map. unfold st_bind at 1 2 3. by rewrite E1.
  - exists s1. split; [|done]. apply st_map_Err. unfold st_bind. by rewrite E1.
Qed.

Lemma mget_run base ks s m :
  kv_inv N base wal_agrees s m -> (ticks_of (mget ks s).1 <= N)%nat ->
  exists s' l, mget ks s = (s', Ok l) /\ kv_inv N base wal_agrees s' m /\ eng s' = eng s /\ (ticks (world s) <= ticks (world s'))%nat /\
    Forall2 (fun k p => p.1 = k /\
      exists i, (ticks (world s) <= i <= ticks (world s'))%nat /\ p.2 = spec_get m k (clock i)) ks l.
Proof.
  revert s. induction ks as [|k ks IH]; intros s Hi Hn.
  { exists s, []. split_and!; try done. }
  cbn [mget] in *. destruct (get_run N base wal_agrees s m k Hi) as (s1 & E1 & Hi1 & He1 & _ & Ht1).
  { eapply bind_ticks; [|exact Hn]. intros. apply _. }
  rewrite (st_bind_Ok _ _ _ _ _ E1) in Hn |- *.
  destruct (IH s1 Hi1) as (s2 & l & E2 & Hi2 & He2 & Ht2 & Hl).
  { eapply bind_ticks; [|exact Hn]. intros. apply _. }
  rewrite (st_bind_Ok _ _ _ _ _ E2). eexists _, _. split_and!; [reflexivity | done | congruence | lia |].
  constructor.
  - destruct (spec_get m k (clock (ticks (world s)))) as [v|] eqn:Eg; cbn; (split; [done|]);
      exists (ticks (world s)); (split; [lia | done]).
  - eapply Forall2_impl; [exact Hl|]. intros k' p (Hp & i & Hti & Hv). split; [done|].
    exists i. split; [lia | done].
Qed.

(** Every operation is a step of the specification; [base] are segments of the
    directory that no longer matter, as a compaction leaves them until it has
    deleted them. *)
Lemma run_op_step base op s m :
  (op = KCompact -> base = []) -> kv_inv N base wal_agrees s m -> op_ok op -> (ticks_of (run_op op s).1 <= N)%nat ->
  exists s' r m', run_op op s = (s', r) /\ kv_inv N base wal_agrees s' m' /\ same_cfg (eng s) (eng s') /\
    spec_step (ticks (world s)) (ticks (world s')) op r m m'.
Proof.
  intros Hbase Hi Hok Hn. pose proof (mono (m := run_op op) s) as Hmono.
  unfold ticks_of, ticking_kv in Hmono.
  destruct op as [k|k v e|items|k|k e|k|ks| |]; cbn [run_op op_ok] in *;
    rewrite ?st_map_ticks in Hn.
  - destruct (get_run N base wal_agrees s m k Hi Hn) as (s1 & E1 & Hi1 & He1 & _ & Ht1).
    rewrite (st_map_Ok _ _ _ _ _ E1). eexists _, _, _. split_and!; [reflexivity | done | by rewrite He1 |].
    apply spec_KGet. lia.
  - destruct (set_with_ttl_run N base wal_agrees s m k v e Hi Hok Hn) as (s1 & E1 & Hi1 & Hc1).
    destruct (fits k v) eqn:Ef.
    + rewrite (st_map_Ok _ _ _ _ _ E1). eexists _, _, _. split_and!; [reflexivity | done | done |].
      by apply spec_KSet.
    + rewrite (st_map_Err _ _ _ _ _ E1). eexists _, _, _. split_and!; [reflexivity | done | done |].
      by apply spec_KSet_large.
  - destruct (mset_run base items s m Hi Hok Hn) as (s1 & E1 & Hi1 & Hc1). rewrite E1.
    eexists _, _, _. split_and!; [reflexivity | done | done |]. apply spec_KMset.
    by destruct (spec_mset m items).
  - destruct (kv_delete_run N base wal_agrees s m k Hi Hok) as (s1 & E1 & Hi1 & Hc1 & _).
    destruct (Z.ltb_spec MAX_KEY_SIZE (len k)).
    + rewrite (st_map_Err _ _ _ _ _ E1). eexists _, _, _. split_and!; [reflexivity | done | done |].
      by apply spec_KDelete_large.
    + rewrite (st_map_Ok _ _ _ _ _ E1). eexists _, _, _. split_and!; [reflexivity | done | done |].
      by apply spec_KDelete.
  - destruct Hok as [Hu He].
    destruct (ttl_run N base wal_agrees s m k e Hi Hu He Hn) as (s1 & out & E1 & Hc1 & Hr).
    rewrite (st_map_Ok _ _ _ _ _ E1) in Hmono |- *. cbn [fst] in Hmono.
    destruct (spec_get m k (clock (ticks (world s)))) as [v|] eqn:Eg; destruct Hr as [-> Hi1];
      eexists _, _, _; (split_and!; [reflexivity | done | done |]).
    + eapply spec_KTtl; [|exact Eg]. lia.
    + eapply spec_KTtl_none; [|exact Eg]. lia.
  - destruct (exists_run N base wal_agrees s m k Hi Hn) as (s1 & E1 & Hi1 & He1 & Ht1).
    rewrite (st_map_Ok _ _ _ _ _ E1). eexists _, _, _. split_and!; [reflexivity | done | by rewrite He1 |].
    apply spec_KExists. lia.
  - destruct (mget_run base ks s m Hi Hn) as (s1 & l & E1 & Hi1 & He1 & Ht1 & Hl).
    rewrite (st_map_Ok _ _ _ _ _ E1). eexists _, _, _. split_and!; [reflexivity | done | by rewrite He1 |].
    by apply spec_KMget.
  - destruct (list_keys_run N base wal_agrees s m Hi Hn) as (s1 & ks & E1 & Hnd & Hks & Hi1 & He1 & Ht1).
    rewrite (st_map_Ok _ _ _ _ _ E1). eexists _, _, _. split_and!; [reflexivity | done | by rewrite He1 |].
    eapply spec_KList; [|done|exact Hks]. lia.
  - rewrite (Hbase eq_refl) in *. destruct (compact_run N s m Hi Hn) as (s1 & m1 & E1 & Hi1 & Hc1 & Hcfg & _).
    rewrite (st_map_Ok _ _ _ _ _ E1). eexists _, _, _. split_and!; [reflexivity | done | done |].
    by apply spec_KCompact.
Qed.

Lemma run_ops_refine ops s m :
  kv_good s m -> Forall op_ok ops -> (ticks (world (run_ops ops s).1) <= N)%nat ->
  exists m', kv_good (run_ops ops s).1 m' /\
    spec_run (ticks (world s)) (ticks (world (run_ops ops s).1)) ops (run_ops ops s).2 m m'.
Proof.
  intros Hi Hok. revert s m Hi. induction Hok as [|op ops Ho _ IH]; intros s m Hi Hn.
  { exists m. split; [done | constructor]. }
  cbn [run_ops] in *. pose proof (run_op_step [] op s m (fun _ => eq_refl) Hi Ho) as Hstep.
  pose proof (mono (m := run_op op) s) as Hmono.
  destruct (run_op op s) as [s1 r] eqn:E. cbn in Hmono.
  pose proof (run_ops_ticks ops s1) as Ht.
  destruct Hstep as (s1' & r' & m1 & E1 & Hi1 & _ & Hs1).
  { unfold ticks_of, ticking_kv. cbn. destruct (run_ops ops s1). cbn in *. lia. }
  injection E1 as <- <-. specialize (IH s1 m1 Hi1).
  destruct (run_ops ops s1) as [s2 rs]. cbn in *. destruct (IH Hn) as (m2 & Hi2 & Hr2).
  exists m2. split; [done|]. eapply spec_run_cons; eauto.
Qed.
End Refine.
