(* ===== verification/KvLinear.v ===== *)
(** * The hash engine between the spans of its operations

    What each operation of [KvSpans] does to the map the engine holds, whatever
    the other threads do in between: reads, listings and tests take effect at
    one of their spans and change nothing, a write and a TTL take effect at the
    span that appends the record; the other spans leave the map alone. This is
    without DELETE, MGET and MSET, which take effect at several spans. *)

From S2P Require Import Prelude Utf8 Record Collections Memtable Wal Hint Text Segment Utils.
From S2P Require Import Settings HashIndex World Engine KvEngine KvLog KvInv Spans KvOps KvSpans KvSpec.

Section Linear.
Context `{HO : HashOrder} `{CK : Clock} (N : nat) `{GC : !GoodClock N} (name : str).

(** The engine of the database [name] holds the map. *)
Definition kv_at (s : KvState) (m : kvmap) : Prop := kv_good N s m /\ db_name (eng s) = name.

Lemma kv_at_frame s m e' :
  kv_at s m -> db_name e' = db_name (eng s) -> active_segment e' = active_segment (eng s) ->
  active_file e' = active_file (eng s) -> index e' = index (eng s) -> kv_at (mkKvState e' (world s)) m.
Proof. intros [Hi Hn] E1 E2 E3 E4. split; [by apply kv_inv_frame | by rewrite <- Hn]. Qed.

Lemma kv_at_tick s m w :
  kv_at s m -> disk w = disk (world s) -> (ticks (world s) <= ticks w)%nat -> kv_at (mkKvState (eng s) w) m.
Proof. intros [Hi Hn] Hd Ht. split; [by apply kv_inv_tick | done]. Qed.

(** ** The clock *)

#[export] Instance later_fsync : Steps later fsync_spans.
Proof.
  unfold fsync_spans. apply steps_bind; [apply _ | intros n]. apply steps_bind; [apply _ | intros []]; try apply _.
  apply steps_bind; [apply _ | intros w]. case_match; apply _.
Qed.
#[export] Instance later_get k : Steps later (get_spans k).
Proof. unfold get_spans. apply _. Qed.
#[export] Instance later_set k v e : Steps later (set_spans k v e).
Proof. unfold set_spans. case_match; apply _. Qed.
#[export] Instance later_list : Steps later list_spans.
Proof. unfold list_spans. apply _. Qed.

(** The lookup and the append of a TTL. *)
Definition ttl_write (k : str) (expiry : option Z) (now : Z) : ST KvState (option (Z * option Z)) :=
  let* idx := ask index in
  let* name := ask db_name in
  let* active := ask active_segment in
  let* d := st_gets (fun s => disk (world s)) in
  let* found := st_lift (kv_lookup idx name active k now d) in
  match found with
  | None => st_ret None
  | Some v => let* p := kv_append k v expiry in st_ret (Some p)
  end.

#[export] Instance mono_ttl_write k e now : Mono (ttl_write k e now).
Proof. unfold ttl_write. repeat (apply mono_bind; [apply _ | intros]). case_match; apply _. Qed.
#[export] Instance later_ttl k e : Steps later (ttl_spans k e).
Proof.
  unfold ttl_spans. apply steps_bind; [apply _ | intros now]. fold (ttl_write k e now).
  apply steps_bind; [apply _ | intros [p|]]; apply _.
Qed.

(** ** Spans that leave the map alone *)

Lemma now_neutral t :
  neutral kv_at N (fun t' now => exists i, (t <= i <= t')%nat /\ now = clock i) t (atom (on_world now_ms)).
Proof.
  apply neutral_atom. intros s m Hi Hs Hn.
  assert (Ht : (ticks (world s) < N)%nat).
  { rewrite on_world_ticks in Hn. unfold ticks_of, ticking_world in Hn. rewrite now_ms_ticks in Hn. lia. }
  eexists _, _. split; [apply on_world_run, (now_ms_run N); done|]. split; [apply kv_at_tick; cbn; auto|].
  exists (ticks (world s)). unfold ticks_of, ticking_kv in *. cbn. auto with lia.
Qed.

Lemma ask_neutral {A} (f : KVEngine -> A) (Q : A -> Prop) t :
  (forall s m, kv_at s m -> Q (f (eng s))) -> neutral kv_at N (fun _ a => Q a) t (atom (ask f)).
Proof. intros HQ. apply neutral_atom. intros s m Hi _ _. eexists _, _. split; [reflexivity|]. eauto. Qed.

(** A copy of the active segment, which another may have replaced since. *)
Lemma active_neutral t :
  neutral kv_at N (fun _ a => exists ts, a = mkSegment name ts) t (atom (ask active_segment)).
Proof.
  apply (ask_neutral active_segment (fun a => exists ts, a = mkSegment name ts)).
  intros s m [(l & ts & rs & Hs & _) Hn]. exists ts. rewrite <- Hn. apply Hs.
Qed.

Lemma upd_neutral f t :
  (forall e, db_name (f e) = db_name e /\ active_segment (f e) = active_segment e /\
             active_file (f e) = active_file e /\ index (f e) = index e) ->
  neutral kv_at N (fun _ a => a = tt) t (atom (upd f)).
Proof.
  intros Hf. apply neutral_atom. intros s m Hi _ _. destruct (Hf (eng s)) as (H1 & H2 & H3 & H4).
  eexists _, _. split; [reflexivity|]. split; [by apply kv_at_frame | done].
Qed.

Lemma counters_neutral a b t : neutral kv_at N (fun _ a => a = tt) t (atom (add_counters a b)).
Proof.
  apply neutral_atom. intros s m Hi _ _. eexists _, _. split; [reflexivity|]. split; [by apply kv_at_frame | done].
Qed.

Lemma sync_neutral t : neutral kv_at N (fun _ a => a = tt) t (atom sync_active).
Proof.
  apply neutral_atom. intros s m Hi _ _. pose proof Hi as [(l & ts & rs & Hs & _) _].
  destruct (sync_active_run _ _ _ _ _ _ Hs) as (w' & -> & Hd & Ht).
  eexists _, _. split; [reflexivity|]. split; [|done]. apply kv_at_tick; [done | done | lia].
Qed.

Lemma fsync_neutral t : neutral kv_at N (fun _ a => a = tt) t fsync_spans.
Proof.
  unfold fsync_spans. eapply neutral_bind; [apply _ | |].
  - apply (neutral_atom _ _ (fun _ _ => True)). intros s m Hi _ _. eexists _, _. split; [reflexivity|].
    split; [by apply kv_at_frame | done].
  - intros t1 n _ _. eapply neutral_bind; [apply _ | by apply (ask_neutral _ (fun _ => True))|].
    assert (Hsync : forall t, neutral kv_at N (fun _ a => a = tt) t
      (let~ _ := atom (upd (set_writes 0)) in atom sync_active)).
    { intros t2. eapply neutral_bind; [apply _ | by apply upd_neutral|]. intros t3 _ _ _. apply sync_neutral. }
    intros t2 p _ _. destruct p; [apply Hsync | | by constructor | by constructor].
    eapply neutral_bind; [apply _ | by apply (ask_neutral _ (fun _ => True))|]. intros t3 w _ _.
    destruct (_ <=? w); [apply Hsync | by constructor].
Qed.

(** ** Operations *)

(** The value of [k] at some reading [i] of the clock since [t0]. *)
Definition got (t0 : nat) (k : str) (hi : nat) (m : kvmap) (a : option (str * str)) (m' : kvmap) : Prop :=
  m' = m /\ exists i, (t0 <= i <= hi)%nat /\ a = (fun v => (k, v)) <$> spec_get m k (clock i).

Lemma get_performs t k : performs kv_at N (got t k) t (get_spans k).
Proof.
  unfold get_spans. eapply performs_bind_neutral; [apply _ | apply now_neutral|].
  intros t1 now Ht1 (i & Hi & ->). eapply performs_bind_neutral; [apply _ | apply active_neutral|].
  intros t2 active Ht2 [ts ->].
  eapply (performs_bind _ _ (fun hi m v m' => m' = m /\ (t2 <= hi)%nat /\ v = spec_get m k (clock i)) _
    (fun v => (fun v => (k, v)) <$> v)); [apply _ | intros; apply _ | | |].
  - apply performs_atom. intros s m Hs Hle Hn. pose proof Hs as [Hg Hname].
    destruct (inv_readable _ _ _ _ _ Hg) as (l & ts' & Ha & Hl & _). rewrite Hname in Hl.
    exists s, (spec_get m k (clock i)), m. split; [|done].
    unfold st_bind, ask, st_gets. cbn. unfold st_lift. by rewrite Hname, (kv_lookup_agree _ _ _ _ _ _ _ _ Ha Hl).
  - intros hi m v m' (-> & Hhi & ->). split; [done|]. exists i. split; [lia | done].
  - intros t3 v Ht3. by constructor.
Qed.

Lemma set_performs t k v e :
  kv_ok k v e ->
  performs kv_at N (fun hi m a m' => (t <= hi)%nat /\ a = tt /\ m' = <[k := (v, e)]> m) t (set_spans k v e).
Proof.
  intros Hok. pose proof Hok as [H1 H2 _ _ _]. unfold set_spans.
  rewrite (proj2 (Z.ltb_ge MAX_KEY_SIZE _) H1), (proj2 (Z.ltb_ge MAX_VALUE_SIZE _) H2). cbn [orb].
  eapply (performs_bind _ _ (fun hi m _ m' => (t <= hi)%nat /\ m' = <[k := (v, e)]> m) _ (fun _ => tt));
    [apply _ | intros; apply _ | | by intros ? ? ? ? [? ?] |].
  - apply performs_atom. intros s m [Hg Hname] Hle Hn. pose proof (mono_kv_append k v e s) as Hm.
    destruct (kv_append_run N [] wal_agrees s m k v e Hg Hok Hn) as (s' & r & E & Hi' & Hc & _).
    rewrite E in Hm. cbn in Hm. exists s', r, (<[k := (v, e)]> m). split; [done|]. split; [split; [done | congruence]|].
    split; [lia | done].
  - intros t' a Ht'. eapply neutral_bind; [apply _ | apply counters_neutral|]. intros. apply fsync_neutral.
Qed.

Definition tested (t0 : nat) (k : str) (hi : nat) (m : kvmap) (a : bool) (m' : kvmap) : Prop :=
  m' = m /\ exists i, (t0 <= i <= hi)%nat /\ a = bool_decide (is_Some (spec_get m k (clock i))).

Lemma exists_performs t k : performs kv_at N (tested t k) t (atom (exists_key k)).
Proof.
  apply performs_atom. intros s m [Hg Hname] Hle Hn.
  destruct (exists_run N [] wal_agrees s m k Hg Hn) as (s' & E & Hi' & He & Ht).
  eexists s', _, m. split; [exact E|]. split; [split; [done | by rewrite He]|].
  split; [done|]. exists (ticks (world s)). unfold ticks_of, ticking_kv in *. auto.
Qed.

Definition listed (t0 hi : nat) (m : kvmap) (ks : list str) (m' : kvmap) : Prop :=
  m' = m /\ exists i, (t0 <= i <= hi)%nat /\ NoDup ks /\ forall k, k ∈ ks <-> is_Some (spec_get m k (clock i)).

Definition ttl_done (t0 : nat) (k : str) (e : option Z) (hi : nat) (m : kvmap) (a : TtlOutcome) (m' : kvmap) : Prop :=
  exists i, (t0 <= i <= hi)%nat /\
    match spec_get m k (clock i) with
    | None => a = TtlNotFound /\ m' = m
    | Some v => a = match e with Some _ => TtlSet | None => TtlPersisted end /\ m' = <[k := (v, e)]> m
    end.

Lemma list_performs t : performs kv_at N (listed t) t list_spans.
Proof.
  unfold list_spans. eapply performs_bind_neutral; [apply _ | apply now_neutral|].
  intros t1 now Ht1 (i & Hi & ->). apply performs_atom. intros s m [Hg Hname] Hle Hn.
  eexists s, _, m. split; [reflexivity|]. split; [done|]. split; [done|]. exists i.
  unfold ticks_of, ticking_kv in *. split; [lia|]. destruct (inv_readable _ _ _ _ _ Hg) as (l & ts & Hag & _).
  by apply unexpired_keys with l.
Qed.

Lemma ttl_write_run s m k e i :
  kv_at s m -> expiry_ok e -> (ticks_of (ttl_write k e (clock i) s).1 <= N)%nat ->
  exists s' r, ttl_write k e (clock i) s = (s', Ok r) /\
    match spec_get m k (clock i) with
    | None => r = None /\ s' = s
    | Some v => is_Some r /\ kv_at s' (<[k := (v, e)]> m)
    end.
Proof.
  intros [Hg Hname] He Hn. destruct (inv_readable _ _ _ _ _ Hg) as (l & ts & Ha & Hl & Hseg).
  unfold ttl_write in *. do 4 (erewrite st_bind_Ok in * by reflexivity). unfold st_lift in *.
  rewrite Hseg, (kv_lookup_agree _ _ _ _ _ k _ _ Ha Hl) in *. erewrite st_bind_Ok in * by reflexivity.
  destruct (spec_get m k (clock i)) as [v|] eqn:Eg; [|by eexists _, _].
  assert (Hok : kv_ok k v e) by (by eapply (live_value_ok N [] wal_agrees)).
  destruct (kv_append_run N [] wal_agrees s m k v e Hg Hok) as (s1 & r & E1 & Hi1 & Hc1 & _).
  { eapply bind_ticks; [|exact Hn]. apply _. }
  rewrite (st_bind_Ok _ _ _ _ _ E1). eexists _, _. split; [reflexivity|]. split; [done|]. split; [done | congruence].
Qed.

Lemma ttl_performs t k e : expiry_ok e -> performs kv_at N (ttl_done t k e) t (ttl_spans k e).
Proof.
  intros He. unfold ttl_spans. eapply performs_bind_neutral; [apply _ | apply now_neutral|].
  intros t1 now Ht1 (i & Hi & ->). fold (ttl_write k e (clock i)).
  eapply (performs_bind _ _ (fun hi m r m' => (t1 <= hi)%nat /\
      match spec_get m k (clock i) with
      | None => r = None /\ m' = m
      | Some v => is_Some r /\ m' = <[k := (v, e)]> m
      end) _
    (fun r => match r with Some _ => match e with Some _ => TtlSet | None => TtlPersisted end
              | None => TtlNotFound end)); [apply _ | intros []; apply _ | | |].
  - apply performs_atom. intros s m Hs Hle Hn. pose proof (mono_ttl_write k e (clock i) s) as Hm.
    destruct (ttl_write_run s m k e i Hs He Hn) as (s' & r & E & Hr). rewrite E in Hm. cbn in Hm.
    destruct (spec_get m k (clock i)) as [v|]; destruct Hr as [Hr Hs'].
    + eexists s', r, _. split; [done|]. split; [exact Hs'|]. split; [lia | done].
    + subst. eexists _, _, m. split; [done|]. split; [done|]. split; [lia | done].
  - intros hi m r m' [Hhi Hr]. exists i. split; [lia|].
    destruct (spec_get m k (clock i)) as [v|]; destruct Hr as [Hr ->]; [by destruct Hr as [? ->] | by subst].
  - intros t' [p|] Ht'; [|by constructor]. eapply neutral_bind; [apply _ | apply counters_neutral|].
    intros t2 _ _ _. eapply neutral_bind; [apply _ | apply fsync_neutral|]. intros. by constructor.
Qed.

(** The sync that the engine's own thread makes. *)
Lemma periodic_sync_at s m : kv_at s m -> kv_at (periodic_sync s).1 m /\ ticks_of (periodic_sync s).1 = ticks_of s.
Proof.
  intros Hs. unfold periodic_sync. destruct (fsync_handle (eng s)) as [[d path]|]; [|done].
  destruct (disk (world s) !! path) as [b|] eqn:E; [|done].
  unfold on_world, sync_file, st_modify. rewrite E. cbn. split; [|done]. by apply kv_at_tick.
Qed.
End Linear.
