(* ===== verification/KvRestart.v ===== *)
(** * Restarting the hash engine

    Reopening a directory rebuilds the index by scanning the segments in order
    and then re-applies what the write-ahead log holds. In a directory without
    hint files this gives back exactly the store the engine had. *)

From S2P Require Import Prelude Utf8 Record Collections Memtable Wal Hint Text Segment Utils.
From S2P Require Import Settings HashIndex World Engine KvEngine KvLog KvInv KvOps KvCompact.
From S2P Require Import KvSpec.

(** No hint file for any segment. *)
Definition no_hints (d : files) : Prop := forall s, d !! hint_filename s = None.

(** ** Lemmas: the replayed memtable *)

Lemma mem_step_sorted m op : bt_wf (entries m) -> bt_wf (entries (mem_step m op)).
Proof.
  intros Hm. destruct op; cbn [mem_step].
  - by apply mem_insert_sorted.
  - by apply mem_remove_sorted.
  - apply bt_wf_nil.
  - by apply bt_retain_wf.
Qed.

Lemma mem_run_sorted ops m : bt_wf (entries m) -> bt_wf (entries (mem_run m ops)).
Proof.
  revert m. induction ops as [|o ops IH]; intros m Hm; [done|].
  cbn. apply IH. by apply mem_step_sorted.
Qed.

(** The entry a logged write makes. *)
Definition logged_entry (o : wal_op) : MemtableEntry :=
  if wtombstone o then mkEntry None None else mkEntry (Some (wvalue o)) (wexpiry o).

Lemma replayed_snoc ops o k :
  entry (mem_run mem_new (map wal_mem_op (ops ++ [o]))) k
  = if decide (k = wkey o) then Some (logged_entry o)
    else entry (mem_run mem_new (map wal_mem_op ops)) k.
Proof.
  rewrite mem_run_snoc. unfold wal_mem_op, logged_entry.
  destruct (wtombstone o); cbn [mem_step]; [apply entry_remove | apply entry_insert].
Qed.

Lemma replayed_key ops k e :
  entry (mem_run mem_new (map wal_mem_op ops)) k = Some e ->
  exists o, o ∈ ops /\ wkey o = k /\ e = logged_entry o.
Proof.
  induction ops as [|o ops IH] using rev_ind; [done|]. rewrite replayed_snoc. intros He.
  case_decide as Hk; [injection He as <- | destruct (IH He) as (o' & Ho' & H)].
  - exists o. split_and!; [|done|done]. apply elem_of_app. right. by apply list_elem_of_singleton.
  - exists o'. split; [|done]. apply elem_of_app. by left.
Qed.

(** ** Lemmas: re-applying entries to a map *)

Definition entry_value (e : MemtableEntry) : option (str * option Z) :=
  match mvalue e with Some v => Some (v, mexpiry e) | None => None end.

Definition apply_entry (m : kvmap) (p : str * MemtableEntry) : kvmap :=
  match mvalue p.2 with Some v => <[p.1 := (v, mexpiry p.2)]> m | None => delete p.1 m end.

Definition entry_ok (p : str * MemtableEntry) : Prop :=
  match mvalue p.2 with Some v => kv_ok p.1 v (mexpiry p.2) | None => kv_ok p.1 [] None end.

Lemma lookup_apply_entry m p k :
  apply_entry m p !! k = if decide (k = p.1) then entry_value p.2 else m !! k.
Proof.
  unfold apply_entry, entry_value. destruct (mvalue p.2); case_decide as Hk; subst;
    rewrite ?lookup_insert_eq, ?lookup_delete_eq, ?lookup_insert_ne, ?lookup_delete_ne by done; done.
Qed.

Lemma lookup_apply_entries es : forall m k, bt_wf es ->
  fold_left apply_entry es m !! k = match bt_get k es with Some e => entry_value e | None => m !! k end.
Proof.
  induction es as [|[k0 e] es IH]; intros m k Hw; [done|]. cbn [fold_left].
  apply bt_wf_cons_inv in Hw as [Hw Hlt]. rewrite IH, lookup_apply_entry by done. cbn [bt_get fst snd].
  case_decide as Hk; [subst k0|done]. by rewrite (bt_get_lt k es).
Qed.

Lemma lookup_replayed ops m k :
  fold_left apply_op ops m !! k
  = match entry (mem_run mem_new (map wal_mem_op ops)) k with Some e => entry_value e | None => m !! k end.
Proof.
  induction ops as [|o ops IH] using rev_ind; [done|]. rewrite fold_left_app, replayed_snoc. cbn [fold_left].
  unfold apply_op, logged_entry, entry_value.
  destruct (wtombstone o) eqn:E; case_decide as Hk; subst; cbn [mvalue mexpiry];
    rewrite ?lookup_insert_eq, ?lookup_delete_eq, ?lookup_insert_ne, ?lookup_delete_ne by done; done.
Qed.

(** Replaying a log into a memtable and re-applying its entries is re-applying
    the log. *)
Lemma apply_replayed ops m :
  fold_left apply_entry (entries (mem_run mem_new (map wal_mem_op ops))) m = fold_left apply_op ops m.
Proof.
  apply map_eq. intros k. rewrite lookup_replayed, lookup_apply_entries; [done|].
  apply mem_run_sorted, bt_wf_nil.
Qed.

Lemma replay_agrees ops m : wal_agrees ops m -> fold_left apply_op ops m = m.
Proof.
  intros Ha. apply map_eq. intros k. rewrite lookup_replayed. destruct (entry _ k) eqn:E; [|done].
  symmetry. by apply Ha.
Qed.

Lemma replayed_ok ops :
  Forall wal_op_ok ops -> Forall entry_ok (entries (mem_run mem_new (map wal_mem_op ops))).
Proof.
  intros Hok. rewrite Forall_forall in Hok. apply Forall_forall. intros [k e] Hin.
  destruct (replayed_key ops k e) as (o & Ho & <- & ->).
  { apply bt_In_get; [|done]. apply mem_run_sorted, bt_wf_nil. }
  specialize (Hok o Ho). unfold entry_ok, logged_entry. cbn [snd fst].
  destruct (wtombstone o); cbn [mvalue mexpiry]; [|exact Hok]. destruct Hok. by split.
Qed.

(** ** Lemmas: scanning the segments *)

Section Restart.
Context `{HO : HashOrder} `{CK : Clock} (N : nat) `{GC : !GoodClock N}.

Lemma open_segments_run name w l l' idx size :
  has_log name (disk w) (l ++ l') -> no_hints (disk w) -> agree l idx (log_map l) ->
  exists idx' size', open_segments (idx, size) ((fun p => mkSegment name p.1) <$> l') w
      = (w, Ok (idx', size')) /\ agree (l ++ l') idx' (log_map (l ++ l')).
Proof.
  revert l idx size. induction l' as [|[t rs] l' IH]; intros l idx size Hl Hh Ha.
  { exists idx, size. by rewrite app_nil_r. }
  pose proof Hl as [Hwf Hf].
  assert (Hin : (t, rs) ∈ l ++ (t, rs) :: l') by (apply elem_of_app; right; left).
  assert (Hrs : Forall rec_wf rs).
  { rewrite Forall_forall in Hwf. by apply (Hwf _ Hin). }
  cbn [fmap list_fmap open_segments open_segment fst].
  assert (E : open_segment (idx, size) (mkSegment name t) w
    = (w, Ok (merge_records t idx 0 rs, size + len (recs_bytes rs)))).
  { unfold open_segment, open_read, st_bind, st_gets, st_lift, st_ret.
    rewrite (Hf _ _ Hin), Hh. cbn [timestamp]. by rewrite merge_from_file_recs. }
  rewrite (st_bind_Ok _ _ _ _ _ E).
  rewrite (cons_middle (t, rs) l l') in *. rewrite (app_assoc l [(t, rs)]) in *.
  apply IH; [done | done |]. by apply agree_merge_records.
Qed.

(** ** Lemmas: re-applying the log *)

Definition restored (name : str) (l : log) (ts : Z) (rs : list Rec) (m : kvmap)
    (w : World) (idx : HashIndex) : Prop :=
  log_on_disk name (disk w) (l ++ [(ts, rs)]) /\ agree (l ++ [(ts, rs)]) idx m /\
  log_map (l ++ [(ts, rs)]) = m.

Lemma restore_entry_run name l ts rs m w idx size p :
  restored name l ts rs m w idx -> entry_ok p ->
  exists w' idx' size' rs', restore_entry (mkSegment name ts) (idx, size) p w = (w', Ok (idx', size')) /\
    restored name l ts rs' (apply_entry m p) w' idx' /\ ticks w' = ticks w /\
    (forall n, n <> filename (mkSegment name ts) -> disk w' !! n = disk w !! n).
Proof.
  intros (Hd & Ha & Hm) Hp. destruct p as [k e]. unfold restore_entry, entry_ok, apply_entry in *.
  cbn [fst snd] in *.
  assert (Hf : disk w !! filename (mkSegment name ts) = Some (recs_bytes rs)).
  { eapply lod_files; [exact Hd|]. apply elem_of_app. right. by apply list_elem_of_singleton. }
  assert (E : open_read (filename (mkSegment name ts)) w = (w, Ok (recs_bytes rs)))
    by (unfold open_read; by rewrite Hf).
  rewrite (st_bind_Ok _ _ _ _ _ E). destruct (mvalue e) as [v|].
  - cbn [append]. erewrite st_bind_Ok by reflexivity.
    eexists _, _, _, (rs ++ [make_record k v false (mexpiry e)]). split; [reflexivity|].
    rewrite <- make_record_apply. split_and!; [split; [|split] | done |]; cbn [disk with_disk].
    + apply lod_append; [done | by apply make_record_wf].
    + cbn [hi_set snd timestamp]. change k with (key (make_record k v false (mexpiry e))) at 2.
      change (mexpiry e) with (expiry_ms (header (make_record k v false (mexpiry e)))) at 3.
      apply agree_append; [done | apply make_record_tombstone].
    + by rewrite log_map_snoc_rec, Hm.
    + intros n Hn. by rewrite lookup_insert_ne.
  - cbn [append snd]. erewrite st_bind_Ok by reflexivity.
    eexists _, _, _, (rs ++ [make_record k [] true None]). split; [reflexivity|].
    rewrite <- make_tombstone_apply. split_and!; [split; [|split] | done |]; cbn [disk with_disk].
    + apply lod_append; [done | by apply make_record_wf].
    + cbn [hi_delete snd]. change k with (key (make_record k [] true None)) at 2.
      apply agree_tombstone; [done | apply make_record_tombstone].
    + by rewrite log_map_snoc_rec, Hm.
    + intros n Hn. by rewrite lookup_insert_ne.
Qed.

Lemma restore_entries_run name l ts es : forall rs m w idx size,
  restored name l ts rs m w idx -> Forall entry_ok es ->
  exists w' idx' size' rs', restore_entries (mkSegment name ts) (idx, size) es w = (w', Ok (idx', size')) /\
    restored name l ts rs' (fold_left apply_entry es m) w' idx' /\ ticks w' = ticks w /\
    (forall n, n <> filename (mkSegment name ts) -> disk w' !! n = disk w !! n).
Proof.
  induction es as [|p es IH]; intros rs m w idx size Hr Hes.
  { exists w, idx, size, rs. done. }
  apply Forall_cons in Hes as [Hp Hes].
  destruct (restore_entry_run name l ts rs m w idx size p Hr Hp)
    as (w1 & idx1 & size1 & rs1 & E1 & Hr1 & Ht1 & Hn1).
  cbn [restore_entries]. rewrite (st_bind_Ok _ _ _ _ _ E1).
  destruct (IH rs1 _ w1 idx1 size1 Hr1 Hes) as (w2 & idx2 & size2 & rs2 & E2 & Hr2 & Ht2 & Hn2).
  exists w2, idx2, size2, rs2. split_and!; [done | done | lia |].
  intros n Hn. by rewrite Hn2, Hn1.
Qed.

Lemma last_fmap_snoc {A B} (f : A -> B) l x : last (f <$> (l ++ [x])) = Some (f x).
Proof. rewrite fmap_app. cbn. by rewrite last_snoc. Qed.

(** Opening the log, which creates it when it is missing. *)
Lemma wal_open_run name w :
  wal_open name w
  = (with_disk w (<[wal_name name := default [] (disk w !! wal_name name)]> (disk w)), Ok tt).
Proof.
  unfold wal_open, open_create, st_modify. destruct (disk w !! wal_name name) as [b|] eqn:E; [|done].
  cbn [default]. rewrite insert_id by done. by destruct w.
Qed.

(** Whatever a log left on disk holds, reopening re-applies it to the map of the
    segments. *)
Lemma from_dir_replay name max p w l ts rs ops tail :
  log_on_disk name (disk w) (l ++ [(ts, rs)]) -> no_hints (disk w) ->
  (forall i, (ticks w <= i < N)%nat -> Forall (fun q => q.1 < clock i) (l ++ [(ts, rs)])) ->
  default [] (disk w !! wal_name name) = log_bytes ops ++ tail -> Forall wal_op_ok ops -> stops tail ->
  exists e' w', from_dir name max p w = (w', Ok (Some e')) /\
    kv_good N (mkKvState e' w') (fold_left apply_op ops (log_map (l ++ [(ts, rs)]))) /\
    no_hints (disk w') /\ db_name e' = name /\ ticks w' = ticks w.
Proof.
  intros Hd Hh Hclock Hwf Hok Hst. unfold from_dir. erewrite st_bind_Ok by reflexivity.
  rewrite (get_segments_lod _ _ _ Hd). rewrite last_fmap_snoc. cbn [fst].
  destruct (open_segments_run name w [] (l ++ [(ts, rs)]) hi_new 0) as (idx & size & E1 & Ha);
    [split; [apply Hd | intros ???; by eapply lod_files] | done |
     intros k; unfold hi_new; by rewrite !lookup_empty |].
  cbn [app] in Ha. rewrite (st_bind_Ok _ _ _ _ _ E1), (st_bind_Ok _ _ _ _ _ (wal_open_run name w)).
  rewrite Hwf. set (b := log_bytes ops ++ tail). set (w0 := with_disk w _).
  assert (E3 : open_read (wal_name name) w0 = (w0, Ok b))
    by (unfold open_read, w0; cbn [disk with_disk]; by rewrite lookup_insert_eq).
  rewrite (st_bind_Ok _ _ _ _ _ E3). unfold st_lift at 1, b. rewrite (replay_tail ops tail Hok Hst).
  erewrite st_bind_Ok by reflexivity.
  destruct (restore_entries_run name l ts _ rs (log_map (l ++ [(ts, rs)])) w0 idx size
    ltac:(split_and!; [by apply lod_other, db_segment_wal | done | done]) (replayed_ok ops Hok))
    as (w1 & idx1 & size1 & rs1 & E5 & (Hd1 & Ha1 & Hm1) & Ht1 & Hn1).
  rewrite apply_replayed in *. rewrite (st_bind_Ok _ _ _ _ _ E5).
  assert (E6 : open_read (wal_name name) w1 = (w1, Ok b)).
  { unfold open_read. rewrite Hn1 by (intros E; by apply (filename_ne_wal (mkSegment name ts) name)).
    cbn. by rewrite lookup_insert_eq. }
  rewrite (st_bind_Ok _ _ _ _ _ E6). erewrite st_bind_Ok by reflexivity.
  eexists _, _. split; [reflexivity|]. split_and!; [| | done | done].
  - exists l, ts, rs1. split_and!; [|done|].
    + split; cbn [eng world db_name active_segment active_file index disk with_disk ticks app]; try done.
      * apply lod_other; [done | apply db_segment_wal].
      * rewrite Ht1. intros i Hi. specialize (Hclock i Hi). apply Forall_app in Hclock as [Hc Hc'].
        apply Forall_app. split; [done|]. inversion Hc'; subst. by constructor.
      * by rewrite Hm1.
    + exact (wal_ok_reset wal_agrees _ _ _).
  - intros sg. cbn [disk with_disk].
    rewrite lookup_insert_ne by (intros E; symmetry in E; by apply hint_ne_wal in E).
    rewrite Hn1 by (intros E; symmetry in E; by apply filename_ne_hint in E). cbn [disk with_disk w0].
    rewrite lookup_insert_ne by (intros E; symmetry in E; by apply hint_ne_wal in E). apply Hh.
Qed.

Lemma from_dir_run s m max p :
  kv_good N s m -> no_hints (disk (world s)) ->
  exists e' w', from_dir (db_name (eng s)) max p (world s) = (w', Ok (Some e')) /\
    kv_good N (mkKvState e' w') m /\ no_hints (disk w') /\ db_name e' = db_name (eng s) /\
    ticks w' = ticks (world s).
Proof.
  intros (l & ts & rs & Hs & Hm & (ops & Hwf & Hok & Hag)) Hh.
  destruct (from_dir_replay (db_name (eng s)) max p (world s) l ts rs ops []) as (e' & w' & E & Hg & H).
  - apply Hs.
  - done.
  - apply Hs.
  - by rewrite Hwf, app_nil_r.
  - done.
  - by left.
  - exists e', w'. rewrite <- Hm, (replay_agrees _ _ Hag) in Hg. done.
Qed.
End Restart.
