(* ===== verification/KvTheorems.v ===== *)
(** * Theorems about the hash engine

    What a client of the engine can rely on, across segment rolls, compactions
    and restarts, and where the engine falls short of it. *)

From S2P Require Import Prelude Utf8 Record Collections Memtable Wal Hint Text Segment Utils.
From S2P Require Import Settings HashIndex World Engine KvEngine KvLog KvInv KvOps KvCompact.
From S2P Require Import KvSpec KvRestart.

(** ** Lemmas: only compaction writes hint files *)

Class Keeps {St A} (P : St -> Prop) (m : ST St A) : Prop := keeps s : P s -> P (m s).1.

Section KeepsInstances.
Context {St : Type} (P : St -> Prop).

#[export] Instance keeps_ret {A} (a : A) : Keeps P (st_ret a).
Proof. by intros s. Qed.
#[export] Instance keeps_lift {A} (r : result A) : Keeps P (st_lift r).
Proof. by intros s. Qed.
#[export] Instance keeps_gets {A} (f : St -> A) : Keeps P (st_gets f).
Proof. by intros s. Qed.
#[export] Instance keeps_bind {A B} (m : ST St A) (f : A -> ST St B) :
  Keeps P m -> (forall a, Keeps P (f a)) -> Keeps P (st_bind m f).
Proof.
  intros Hm Hf s Hs. unfold st_bind. specialize (Hm s Hs).
  destruct (m s) as [s' [a| |]]; cbn in *; [by apply Hf | done | done].
Qed.
#[export] Instance keeps_iter {A} (f : A -> ST St unit) l :
  (forall a, Keeps P (f a)) -> Keeps P (st_iter f l).
Proof. intros Hf. induction l; cbn; apply _. Qed.
End KeepsInstances.

Definition world_plain (w : World) : Prop := no_hints (disk w).
Definition plain (name : str) (s : KvState) : Prop :=
  world_plain (world s) /\ db_name (eng s) = name /\
  exists seg, active_file (eng s) = Linked (filename seg).

Section Plain.
Context `{HO : HashOrder} `{CK : Clock} (name : str).

Lemma no_hints_insert d n b :
  no_hints d -> (forall s, n <> hint_filename s) -> no_hints (<[n := b]> d).
Proof. intros Hd Hn s. rewrite lookup_insert_ne; auto. Qed.

Lemma wal_ne_hint db s : wal_name db <> hint_filename s.
Proof. intros E. symmetry in E. by apply hint_ne_wal in E. Qed.

Instance keeps_on_world {A} (m : ST World A) : Keeps world_plain m -> Keeps (plain name) (on_world m).
Proof.
  intros Hm s [Hw Ha]. unfold on_world. specialize (Hm _ Hw). destruct (m (world s)). by split.
Qed.
Instance keeps_read_clock : Keeps world_plain read_clock.
Proof. by intros w. Qed.
Instance keeps_now : Keeps world_plain now_ms.
Proof. unfold now_ms. apply keeps_bind; [apply _|]. intros. case_match; apply _. Qed.
Instance keeps_new_segment n : Keeps world_plain (new_segment n).
Proof. unfold new_segment. apply keeps_bind; [apply _|]. intros. case_match; apply _. Qed.
Lemma keeps_write n b : (forall s, n <> hint_filename s) -> Keeps world_plain (write_file n b).
Proof. intros Hn w Hw. by apply no_hints_insert. Qed.
Lemma keeps_create n : (forall s, n <> hint_filename s) -> Keeps world_plain (open_create n).
Proof.
  intros Hn w Hw. unfold open_create, st_modify. cbn. destruct (_ !! _); [done|].
  by apply no_hints_insert.
Qed.
Instance keeps_sync n : Keeps world_plain (sync_file n).
Proof. intros w Hw. unfold sync_file, st_modify. cbn. by destruct (_ !! _). Qed.
Instance keeps_ask {A} (f : KVEngine -> A) : Keeps (plain name) (ask f).
Proof. by intros s. Qed.
Lemma keeps_upd f :
  (forall e, db_name (f e) = db_name e /\
     (active_file (f e) = active_file e \/
      exists seg, active_file (f e) = Linked (filename seg))) ->
  Keeps (plain name) (upd f).
Proof.
  intros Hf s [Hw [seg Ha]]. destruct (Hf (eng s)) as [Hn E]. split; [done|]. cbn.
  split; [congruence|]. destruct E as [E|E]; [|done]. rewrite E. eauto.
Qed.
Instance keeps_set_index i : Keeps (plain name) (upd (set_index i)).
Proof. apply keeps_upd. auto. Qed.
Instance keeps_set_writes n : Keeps (plain name) (upd (set_writes n)).
Proof. apply keeps_upd. auto. Qed.
Instance keeps_add_counters a b : Keeps (plain name) (add_counters a b).
Proof. apply keeps_upd. auto. Qed.
Instance keeps_write_active b : Keeps (plain name) (write_active b).
Proof.
  intros s [Hw [Hd [seg Ha]]]. unfold write_active. rewrite Ha.
  apply (keeps_on_world _ (keeps_write _ b (filename_ne_hint seg))). split_and!; eauto.
Qed.
Instance keeps_sync_active : Keeps (plain name) sync_active.
Proof.
  intros s [Hw [Hd [seg Ha]]]. unfold sync_active. rewrite Ha.
  apply (keeps_on_world _ (keeps_sync _)). split_and!; eauto.
Qed.
Instance keeps_read_active : Keeps (plain name) read_active.
Proof. by intros s. Qed.
Instance keeps_wal_append k v t e : Keeps (plain name) (kv_wal_append k v t e).
Proof.
  unfold kv_wal_append. apply keeps_bind; [apply _|]. intros. apply keeps_on_world, keeps_bind;
    [apply _|]. intros. apply keeps_write, wal_ne_hint.
Qed.
Instance keeps_wal_reset : Keeps (plain name) kv_wal_reset.
Proof.
  unfold kv_wal_reset. apply keeps_bind; [apply _|]. intros. apply keeps_on_world, keeps_bind;
    [apply _|]. intros. apply keeps_write, wal_ne_hint.
Qed.
Instance keeps_roll : Keeps (plain name) roll_active.
Proof.
  unfold roll_active. apply keeps_bind; [apply _ | intros].
  apply keeps_bind; [apply keeps_upd; auto | intros].
  do 2 (apply keeps_bind; [apply _ | intros]).
  apply keeps_bind; [apply keeps_on_world, keeps_create, filename_ne_hint | intros].
  apply keeps_bind; [apply keeps_upd; intros; split; [done | right; by eexists] | intros].
  apply keeps_bind; [apply _ | intros]. apply keeps_upd. auto.
Qed.
Instance keeps_append k v e : Keeps (plain name) (kv_append k v e).
Proof.
  rewrite kv_append_unfold. do 3 (apply keeps_bind; [apply _ | intros]).
  apply keeps_bind; [case_match; apply _ | intros]. unfold append_indexed, append, hi_set. apply _.
Qed.
Instance keeps_fsync : Keeps (plain name) fsync.
Proof.
  unfold fsync. repeat (apply keeps_bind; [apply _ | intros]). repeat case_match; apply _.
Qed.
Instance keeps_get k : Keeps (plain name) (get k).
Proof. unfold get. apply _. Qed.
Instance keeps_set k v e : Keeps (plain name) (set_with_ttl k v e).
Proof.
  unfold set_with_ttl. case_match; [apply _|]. apply keeps_bind; [apply _|]. intros [??]. apply _.
Qed.
Instance keeps_delete k : Keeps (plain name) (kv_delete k).
Proof.
  unfold kv_delete. case_match; [apply _|]. do 2 (apply keeps_bind; [apply _ | intros]).
  unfold hi_delete. apply keeps_bind; [apply _ | intros]. case_match; apply _.
Qed.
Instance keeps_ttl k e : Keeps (plain name) (ttl k e).
Proof.
  unfold ttl. repeat (apply keeps_bind; [apply _ | intros]). case_match; [|apply _].
  apply keeps_bind; [apply _|]. intros [??]. apply _.
Qed.
Instance keeps_exists k : Keeps (plain name) (exists_key k).
Proof. unfold exists_key. apply keeps_bind; [apply _|]. intros. repeat case_match; apply _. Qed.
Instance keeps_mget ks : Keeps (plain name) (mget ks).
Proof. induction ks; cbn; apply _. Qed.

Lemma keeps_run_op op : op <> KCompact -> Keeps (plain name) (run_op op).
Proof.
  intros Hop. destruct op; cbn [run_op]; unfold st_map, list_keys, mset_with_ttl; try done;
    try apply _.
  apply keeps_bind; [|intros; apply _]. apply keeps_iter. intros [[??]?]. apply _.
Qed.

Lemma run_ops_plain ops s :
  plain name s -> Forall (fun op => op <> KCompact) ops -> plain name (run_ops ops s).1.
Proof.
  intros Hs Hops. revert s Hs. induction Hops as [|op ops Hop _ IH]; intros s Hs; [done|].
  cbn [run_ops]. pose proof (keeps_run_op op Hop s Hs) as H1. destruct (run_op op s) as [s1 r].
  specialize (IH s1 H1). by destruct (run_ops ops s1).
Qed.
End Plain.

(** ** A fresh directory *)

Definition empty_world : World := mkWorld ∅ ∅ 0.

Lemma empty_lod name : log_on_disk name ∅ [].
Proof.
  split; try by constructor.
  - intros ts rs Hin. by apply not_elem_of_nil in Hin.
  - intros n s [b Hb]. by rewrite lookup_empty in Hb.
Qed.

Lemma fresh_engine_at `{HO : HashOrder} `{CK : Clock} N `{GC : !GoodClock N} t name max p :
  (t < N)%nat ->
  exists w e, kv_new name max p (mkWorld ∅ ∅ t) = (w, Ok e) /\ kv_good N (mkKvState e w) ∅ /\
    plain name (mkKvState e w) /\ ticks w = S t.
Proof.
  intros HN.
  destruct (kv_new_run N wal_agrees (mkWorld ∅ ∅ t) name max p []) as
    (w & e & E & Hi & Hn & _ & _ & Ht & _);
    [apply empty_lod | done | by intros; constructor | right; apply lookup_empty |].
  exists w, e. split_and!; try done. split; [|split; [done|]].
  - assert (Hk : Keeps world_plain (kv_new name max p)).
    { unfold kv_new, wal_open. apply keeps_bind; [apply keeps_new_segment | intros].
      apply keeps_bind; [apply keeps_create, filename_ne_hint | intros].
      apply keeps_bind; [apply keeps_create, wal_ne_hint | intros; apply _]. }
    specialize (Hk (mkWorld ∅ ∅ t)). rewrite E in Hk. apply Hk. intros s. apply lookup_empty.
  - destruct Hi as (l & ts & rs & Hs & _). eexists. apply Hs.
Qed.

Lemma fresh_engine `{HO : HashOrder} `{CK : Clock} N `{GC : !GoodClock N} name max p :
  (0 < N)%nat ->
  exists w e, kv_new name max p empty_world = (w, Ok e) /\ kv_good N (mkKvState e w) ∅ /\
    plain name (mkKvState e w) /\ ticks w = 1%nat.
Proof. exact (fresh_engine_at N 0 name max p). Qed.

(** ** The theorems *)

Section Theorems.
Context `{HO : HashOrder} `{CK : Clock} (N : nat) `{GC : !GoodClock N}.

(** C1: A fresh engine behaves as the abstract store with expiry: whatever
    operations a client performs, each returns without a panic or an I/O error,
    its answer is the one the specification gives for the map reached so far,
    and its effect on the map is the specified one, across any number of
    segment rolls and compactions. The clock must be increasing over the
    readings the run makes. *)
Theorem kv_refines name max p ops :
  (0 < N)%nat -> Forall op_ok ops ->
  exists w e, kv_new name max p empty_world = (w, Ok e) /\
    ((ticks (world (run_ops ops (mkKvState e w)).1) <= N)%nat ->
     exists m, spec_run 1 (ticks (world (run_ops ops (mkKvState e w)).1)) ops
       (run_ops ops (mkKvState e w)).2 ∅ m).
Proof.
  intros HN Hok. destruct (fresh_engine N name max p HN) as (w & e & E & Hi & _ & Ht).
  exists w, e. split; [done|]. intros Hn.
  destruct (run_ops_refine N ops (mkKvState e w) ∅ Hi Hok Hn) as (m & _ & Hr).
  exists m. cbn [world] in Hr. by rewrite Ht in Hr.
Qed.

(** Restart. Stop the engine after any operations other than a compaction
    and reopen its directory: the scan of the segments and the replay of the
    log succeed, and the new engine holds exactly the store the operations had
    produced: it answers every later operation as the specification does from
    that map. *)
Theorem kv_restart name max p max' p' ops ops' :
  (0 < N)%nat -> Forall op_ok ops -> Forall (fun op => op <> KCompact) ops -> Forall op_ok ops' ->
  exists w e, kv_new name max p empty_world = (w, Ok e) /\
    let s := (run_ops ops (mkKvState e w)).1 in
    ((ticks (world s) <= N)%nat ->
     exists m w' e', spec_run 1 (ticks (world s)) ops (run_ops ops (mkKvState e w)).2 ∅ m /\
       from_dir name max' p' (world s) = (w', Ok (Some e')) /\
       let s' := mkKvState e' w' in
       ((ticks (world (run_ops ops' s').1) <= N)%nat ->
        exists m', spec_run (ticks (world s)) (ticks (world (run_ops ops' s').1)) ops'
          (run_ops ops' s').2 m m')).
Proof.
  intros HN Hok Hnc Hok'.
  destruct (fresh_engine N name max p HN) as (w & e & E & Hi & Hp & Ht).
  exists w, e. split; [done|]. cbn zeta. intros Hn.
  destruct (run_ops_refine N ops (mkKvState e w) ∅ Hi Hok Hn) as (m & Hi' & Hr).
  pose proof (run_ops_plain name ops _ Hp Hnc) as (Hh & Hname & _).
  destruct (from_dir_run N _ m max' p' Hi' Hh) as (e' & w' & E' & Hi2 & _ & _ & Ht2).
  exists m, w', e'. cbn [world] in Hr. rewrite Ht in Hr. rewrite Hname in E'.
  split_and!; [done | done |]. intros Hn'.
  destruct (run_ops_refine N ops' (mkKvState e' w') m Hi2 Hok' Hn') as (m' & _ & Hr').
  exists m'. cbn [world] in Hr'. by rewrite Ht2 in Hr'.
Qed.

(** C14: A compaction is invisible to reads: afterwards every key has, at every
    later reading of the clock, the value it would have had without it; the
    old segment files are gone and the counters of dead and total bytes are
    what they were. *)
Theorem kv_compact_invisible s m :
  kv_good N s m -> (ticks_of (compact s).1 <= N)%nat ->
  exists s' m', compact s = (s', Ok tt) /\ kv_good N s' m' /\
    (forall k j, (ticks (world s') <= j < N)%nat ->
       spec_get m' k (clock j) = spec_get m k (clock j)) /\
    dead_bytes (eng s') = dead_bytes (eng s) /\ total_bytes (eng s') = total_bytes (eng s).
Proof.
  intros Hi Hn. destruct (compact_run N s m Hi Hn) as (s' & m' & E & Hi' & [Hsub Hexp] & _ & Hd & Ht).
  exists s', m'. split_and!; try done. intros k j Hj. unfold spec_get.
  destruct (m' !! k) as [[v x]|] eqn:Em'.
  { by rewrite (lookup_weaken _ _ _ _ Em' Hsub). }
  destruct (m !! k) as [[v x]|] eqn:Em; [|done].
  destruct (Hexp k v x Em Em') as (i & Hi1 & Hx).
  assert (Hc : clock i <= clock j) by (apply Z.lt_le_incl, (clock_incr (N := N)); lia).
  by rewrite (expired_mono x _ _ Hc Hx).
Qed.
End Theorems.

(** ** Examples *)

(** A clock that ticks every millisecond, and an order of the keys. *)
#[local] Instance example_clock : Clock := fun i => 1000 + Z.of_nat i.
#[local] Instance example_order : HashOrder := sorted_order.

Lemma example_clock_good N : (N < 1000)%nat -> GoodClock N.
Proof.
  intros HN. split; unfold clock, example_clock; [intros i Hi | intros i j Hi Hj]; lia.
Qed.

Definition example_ops : list kv_op :=
  [KSet (bs "a") (bs "1") None; KSet (bs "b") (bs "2") (Some 1004); KMget [bs "a"; bs "b"];
   KSet (bs "a") (bs "3") None; KDelete (bs "b"); KGet (bs "a"); KTtl (bs "a") (Some 5000);
   KList].

Lemma example_ops_ok : Forall op_ok example_ops.
Proof. repeat constructor; vm_compute; done. Qed.

(** The state after [kv_new] in an empty directory, and an engine that rolls
    its segment at every write. *)
Definition opened `{Clock} (name : str) (max : Z) (p : FSyncStrategy) : option KvState :=
  match kv_new name max p empty_world with
  | (w, Ok e) => Some (mkKvState e w)
  | _ => None
  end.

Definition state_or (o : option KvState) : KvState :=
  default (mkKvState (mkKV ∅ (Orphan []) None (mkSegment [] 0) [] 0 0 FsNever 0 0 0) empty_world) o.

Definition example_state : KvState := state_or (opened (bs "db") 30 FsAlways).

Definition example_ops2 : list kv_op := example_ops ++ [KCompact; KGet (bs "a"); KList].

Lemma example_ops2_ok : Forall op_ok example_ops2.
Proof. apply Forall_app. split; [apply example_ops_ok | repeat constructor]. Qed.

Lemma kv_refines_witness :
  exists m, spec_run 1 (ticks (world (run_ops example_ops2 example_state).1)) example_ops2
    (run_ops example_ops2 example_state).2 ∅ m.
Proof.
  destruct (kv_refines 100 (GC := example_clock_good 100 ltac:(lia)) (bs "db") 30 FsAlways
    example_ops2) as (w & e & E & Hr); [lia | apply example_ops2_ok|].
  assert (Hs : example_state = mkKvState e w)
    by (unfold example_state, opened, state_or; by rewrite E).
  rewrite <- Hs in Hr. apply Hr. apply Nat.leb_le. vm_compute. reflexivity.
Defined.

Lemma kv_restart_witness :
  exists m w' e', spec_run 1 (ticks (world (run_ops example_ops example_state).1)) example_ops
      (run_ops example_ops example_state).2 ∅ m /\
    from_dir (bs "db") 30 FsNever (world (run_ops example_ops example_state).1)
      = (w', Ok (Some e')).
Proof.
  destruct (kv_restart 100 (GC := example_clock_good 100 ltac:(lia)) (bs "db") 30 FsAlways
    30 FsNever example_ops [KGet (bs "a")]) as (w & e & E & Hr);
    [lia | apply example_ops_ok | repeat constructor; discriminate | repeat constructor|].
  assert (Hs : example_state = mkKvState e w)
    by (unfold example_state, opened, state_or; by rewrite E).
  rewrite <- Hs in Hr. destruct Hr as (m & w' & e' & H1 & H2 & _).
  { apply Nat.leb_le. vm_compute. reflexivity. }
  exists m, w', e'. split; [exact H1 | exact H2].
Defined.

Lemma kv_compact_invisible_witness :
  exists m s' m', compact (run_ops example_ops example_state).1 = (s', Ok tt) /\
    (forall k j, (ticks (world s') <= j < 100)%nat ->
       spec_get m' k (clock j) = spec_get m k (clock j)).
Proof.
  pose proof (example_clock_good 100 ltac:(lia)) as GC.
  destruct (fresh_engine 100 (bs "db") 30 FsAlways) as (w & e & E & Hi & _); [lia|].
  assert (Hs : example_state = mkKvState e w)
    by (unfold example_state, opened, state_or; by rewrite E).
  destruct (run_ops_refine 100 example_ops (mkKvState e w) ∅ Hi example_ops_ok) as (m & Hg & _).
  { rewrite <- Hs. apply Nat.leb_le. vm_compute. reflexivity. }
  rewrite <- Hs in Hg.
  destruct (kv_compact_invisible 100 _ m Hg) as (s' & m' & H1 & _ & H2 & _).
  { apply Nat.leb_le. vm_compute. reflexivity. }
  exists m, s', m'. split; [exact H1 | exact H2].
Defined.

(** ** Where the engine departs from the store *)

(** The state after a restart. *)
Definition reopened `{Clock} (name : str) (w : World) : KvState :=
  state_or match from_dir name 1000 FsAlways w with
           | (w', Ok (Some e)) => Some (mkKvState e w')
           | _ => None
           end.

(** A hint file outlives the writes that follow it. Compact, overwrite a key
    in the same segment, and restart twice: the first restart finds the new
    value in the log and empties it; the second trusts the hint file written by
    the compaction and serves the old value. *)
Theorem kv_stale_hint_loses_write :
  let s0 := state_or (opened (bs "db") 1000 FsAlways) in
  let s1 := (run_ops [KSet (bs "a") (bs "old") None; KCompact;
                      KSet (bs "a") (bs "new") None] s0).1 in
  let s2 := reopened (bs "db") (world s1) in
  let s3 := reopened (bs "db") (world s2) in
  (get (bs "a") s1).2 = Ok (Some (bs "a", bs "new")) /\
  (get (bs "a") s2).2 = Ok (Some (bs "a", bs "new")) /\
  (get (bs "a") s3).2 = Ok (Some (bs "a", bs "old")).
Proof. vm_compute. done. Qed.

(** Segments are named after the millisecond of their creation and the name
    is not checked to be new. A compaction within the millisecond in which the
    active segment was created writes into that very segment, then deletes it:
    the next read of a live key fails. *)
Theorem kv_same_millisecond_compaction :
  let ck : Clock := fun _ => 1000 in
  let s0 := state_or (opened (bs "db") 1000 FsAlways) in
  let s1 := (run_ops [KSet (bs "a") (bs "1") None] s0).1 in
  (get (bs "a") s1).2 = Ok (Some (bs "a", bs "1")) /\
  (compact s1).2 = Ok tt /\
  (get (bs "a") (compact s1).1).2 = Err NotFound.
Proof. vm_compute. done. Qed.

(** A key that has expired is absent for [get] and [exists], and present
    for [delete]: it answers that it deleted a key. *)
Theorem kv_delete_expired s m N `{!GoodClock N} k v x :
  kv_good N s m -> utf8_valid k = true -> len k <= MAX_KEY_SIZE ->
  m !! k = Some (v, Some x) -> x <= clock (ticks (world s)) ->
  (ticks_of (get k s).1 <= N)%nat ->
  (get k s).2 = Ok None /\ (kv_delete k s).2 = Ok (Some tt).
Proof.
  intros Hi Hu Hl Hm Hx Hn. split.
  - destruct (get_run N [] wal_agrees s m k Hi Hn) as (s' & -> & _). unfold spec_get.
    rewrite Hm. cbn [expired]. unfold is_expired. by rewrite (proj2 (Z.leb_le _ _) Hx).
  - destruct (kv_delete_run N [] wal_agrees s m k Hi Hu) as (s' & -> & _).
    rewrite (proj2 (Z.ltb_ge _ _) Hl), Hm. done.
Qed.

Lemma kv_delete_expired_witness :
  (get (bs "b") (run_ops [KSet (bs "b") (bs "2") (Some 1001)] example_state).1).2 = Ok None /\
  (kv_delete (bs "b") (run_ops [KSet (bs "b") (bs "2") (Some 1001)] example_state).1).2
    = Ok (Some tt).
Proof.
  pose proof (example_clock_good 100 ltac:(lia)) as GC.
  destruct (fresh_engine 100 (bs "db") 30 FsAlways) as (w & e & E & Hi & _); [lia|].
  assert (Hs : example_state = mkKvState e w)
    by (unfold example_state, opened, state_or; by rewrite E).
  assert (Ha : arg_ok (bs "b") (bs "2") (Some 1001)) by (vm_compute; repeat split; discriminate).
  rewrite <- Hs in Hi.
  destruct (set_with_ttl_run 100 [] wal_agrees example_state ∅ (bs "b") (bs "2") (Some 1001) Hi Ha)
    as (s' & E' & Hg & _).
  { apply Nat.leb_le. vm_compute. reflexivity. }
  assert (Hr : (run_ops [KSet (bs "b") (bs "2") (Some 1001)] example_state).1 = s').
  { change s' with (s', if fits (bs "b") (bs "2") then Ok tt else Err InvalidInput).1.
    rewrite <- E'. vm_compute. reflexivity. }
  rewrite Hr. change (fits (bs "b") (bs "2")) with true in Hg.
  apply (kv_delete_expired s' _ 100 (bs "b") (bs "2") 1001 Hg).
  - reflexivity.
  - vm_compute. discriminate.
  - apply lookup_insert_eq.
  - rewrite <- Hr. vm_compute. discriminate.
  - rewrite <- Hr. apply Nat.leb_le. vm_compute. reflexivity.
Defined.
