(* ===== verification/KvConcurrent.v ===== *)
(** * A compaction beside the clients of the hash engine

    [KVEngine::compact] (src/src/kvengine.rs) holds no lock while it copies the
    live keys, and the server runs it on a thread of its own. Here its thread
    advances by one step per span of locks, between the operations of clients:
    the list of the keys to copy, each key copied, the hint files, the exchange
    of the engines, each old segment deleted. *)

From S2P Require Import Prelude Utf8 Record Collections Memtable Wal Hint Text Segment Utils.
From S2P Require Import Settings HashIndex World Engine KvEngine KvLog KvInv KvOps KvCompact.
From S2P Require Import KvSpec KvTheorems.

(** ** The thread *)

(** Where a compaction is, with its local variables. *)
Inductive Job :=
  | Idle
  | Copying (new_db : KVEngine) (old_segments : list Segment) (keys : list (str * option Z))
  | Copied (new_db : KVEngine) (old_segments : list Segment)
  | Removing (old_segments : list Segment)
  | Failed.

Section Thread.
Context `{HashOrder} `{Clock}.

Definition job_body (j : Job) : ST KvState Job :=
  match j with
  | Idle => let* b := compact_begin in st_ret (Copying b.1.1 b.1.2 b.2)
  | Copying new_db old ((k, expiry) :: keys) =>
      let* new_db := compact_copy new_db k expiry in st_ret (Copying new_db old keys)
  | Copying new_db old [] => let* _ := compact_hints new_db old in st_ret (Copied new_db old)
  | Copied new_db old => let* _ := install new_db in st_ret (Removing old)
  | Removing (seg :: old) => let* _ := remove_segment seg in st_ret (Removing old)
  | Removing [] => st_ret Idle
  | Failed => st_ret Failed
  end.

(** An error or a panic ends the thread. *)
Definition job_step (c : KvState * Job) : KvState * Job :=
  match job_body c.2 c.1 with
  | (s, Ok j) => (s, j)
  | (s, _) => (s, Failed)
  end.

Inductive conc_act := ByClient (op : kv_op) | ByCompaction.

Fixpoint conc_run (l : list conc_act) (c : KvState * Job)
    : (KvState * Job) * list (result kv_out) :=
  match l with
  | [] => (c, [])
  | ByClient op :: l' =>
      let '(s1, r) := run_op op c.1 in
      let '(c2, rs) := conc_run l' (s1, c.2) in
      (c2, r :: rs)
  | ByCompaction :: l' => conc_run l' (job_step c)
  end.

(** ** What may run beside it *)

Definition read_only (op : kv_op) : bool :=
  match op with KGet _ | KExists _ | KMget _ | KList => true | _ => false end.

(** Between the list of the keys and the exchange, reads; otherwise anything
    but a second compaction. *)
Definition admitted (j : Job) (op : kv_op) : Prop :=
  match j with
  | Copying _ _ _ | Copied _ _ => read_only op = true
  | Idle | Removing _ | Failed => op <> KCompact
  end.

Fixpoint all_admitted (l : list conc_act) (c : KvState * Job) : Prop :=
  match l with
  | [] => True
  | ByClient op :: l' => op_ok op /\ admitted c.2 op /\ all_admitted l' ((run_op op c.1).1, c.2)
  | ByCompaction :: l' => all_admitted l' (job_step c)
  end.

(** ** The specification: clients see a store that only loses expired keys *)

Inductive conc_spec : nat -> nat -> list conc_act -> list (result kv_out) -> kvmap -> kvmap -> Prop :=
  | conc_spec_nil t m : conc_spec t t [] [] m m
  | conc_spec_client t0 t1 t2 op l r rs m m1 m2 :
      (t0 <= t1)%nat -> spec_step t0 t1 op r m m1 -> conc_spec t1 t2 l rs m1 m2 ->
      conc_spec t0 t2 (ByClient op :: l) (r :: rs) m m2
  | conc_spec_job t0 t1 t2 l rs m m1 m2 :
      (t0 <= t1)%nat -> compacts 0 t1 m m1 -> conc_spec t1 t2 l rs m1 m2 ->
      conc_spec t0 t2 (ByCompaction :: l) rs m m2.

(** The thread on its own. *)
Definition alone (c c' : KvState * Job) : Prop := c' = job_step c.

(** How [compact] ends, as the thread records it. *)
Definition ended {A} (f : A -> Job) (p : KvState * result A) : KvState * Job :=
  (p.1, match p.2 with Ok a => f a | _ => Failed end).

(** The steps the compaction makes in a schedule. *)
Fixpoint compaction_steps (l : list conc_act) : nat :=
  match l with
  | [] => 0
  | ByClient _ :: l' => compaction_steps l'
  | ByCompaction :: l' => S (compaction_steps l')
  end.

(** The steps a compaction has left. *)
Definition steps_left (j : Job) : nat :=
  match j with
  | Copying _ old keys => length keys + length old + 3
  | Copied _ old => length old + 2
  | Removing old => length old + 1
  | Idle | Failed => 0
  end.

End Thread.

(** ** Lemmas *)

Section Proofs.
Context `{HO : HashOrder} `{CK : Clock} (N : nat) `{GC : !GoodClock N}.

#[local] Instance mono_job_body j : Mono (job_body j).
Proof. destruct j as [|e old [|[k x] ks]|e old|[|seg old]|]; cbn [job_body]; apply _. Qed.

Lemma job_step_ticks c : (ticks (world c.1) <= ticks (world (job_step c).1))%nat.
Proof.
  pose proof (mono (m := job_body c.2) c.1) as Hm. unfold job_step.
  destruct (job_body c.2 c.1) as [s [| |]]; exact Hm.
Qed.

Lemma conc_run_ticks l c : (ticks (world c.1) <= ticks (world (conc_run l c).1.1))%nat.
Proof.
  revert c. induction l as [|[op|] l IH]; intros c; [done | |]; cbn [conc_run].
  - pose proof (run_ops_ticks [op] c.1) as Hm. cbn [run_ops] in Hm.
    destruct (run_op op c.1) as [s1 r]. cbn [fst] in Hm. specialize (IH (s1, c.2)).
    destruct (conc_run l (s1, c.2)) as [c2 rs]. cbn [fst] in *. lia.
  - pose proof (job_step_ticks c). specialize (IH (job_step c)). lia.
Qed.

(** Reads of a store whose index is sound. *)
Lemma mget_read ks s m :
  readable s m -> (ticks_of (mget ks s).1 <= N)%nat ->
  exists w l, mget ks s = (mkKvState (eng s) w, Ok l) /\ disk w = disk (world s) /\
    (ticks (world s) <= ticks w)%nat /\
    Forall2 (fun k p => p.1 = k /\
      exists i, (ticks (world s) <= i <= ticks w)%nat /\ p.2 = spec_get m k (clock i)) ks l.
Proof.
  revert s. induction ks as [|k ks IH]; intros s Hr Hn; [by exists (world s), []; destruct s|].
  cbn [mget] in *. destruct (get_read N s m k Hr) as [_ E1].
  { eapply bind_ticks; [|exact Hn]. intros. apply _. }
  rewrite (st_bind_Ok _ _ _ _ _ E1) in Hn |- *.
  destruct (IH _ (readable_world s m (ticked (world s)) Hr eq_refl)) as (w & l & E2 & Hd & Ht & Hl).
  { eapply bind_ticks; [|exact Hn]. intros. apply _. }
  rewrite (st_bind_Ok _ _ _ _ _ E2). cbn [world eng ticked disk ticks] in *.
  eexists _, _. split_and!; [reflexivity | done | lia |].
  constructor.
  - destruct (spec_get m k (clock (ticks (world s)))) as [v|] eqn:Eg; cbn; (split; [done|]);
      exists (ticks (world s)); (split; [lia | done]).
  - eapply Forall2_impl; [exact Hl|]. intros k' p (Hp & i & Hti & Hv). split; [done|].
    exists i. split; [lia | done].
Qed.

Lemma read_only_run op s m :
  read_only op = true -> readable s m -> (ticks_of (run_op op s).1 <= N)%nat ->
  exists w r, run_op op s = (mkKvState (eng s) w, r) /\ disk w = disk (world s) /\
    (ticks (world s) <= ticks w)%nat /\ spec_step (ticks (world s)) (ticks w) op r m m.
Proof.
  intros Ho Hr Hn. destruct op as [k| | | | |k|ks| |]; try done; cbn [run_op] in *;
    rewrite st_map_ticks in Hn.
  - destruct (get_read N s m k Hr Hn) as [_ E]. rewrite (st_map_Ok _ _ _ _ _ E).
    eexists _, _. split_and!; [reflexivity | done | cbn; lia |]. apply spec_KGet. cbn. lia.
  - destruct (exists_read N s m k Hr Hn) as (w & E & Hd & Ht). rewrite (st_map_Ok _ _ _ _ _ E).
    eexists _, _. split_and!; [reflexivity | done | done |]. apply spec_KExists. lia.
  - destruct (mget_read ks s m Hr Hn) as (w & l & E & Hd & Ht & Hl). rewrite (st_map_Ok _ _ _ _ _ E).
    eexists _, _. split_and!; [reflexivity | done | done |]. by apply spec_KMget.
  - destruct (list_keys_read N s m Hr Hn) as (ks & E & Hnd & Hk). rewrite (st_map_Ok _ _ _ _ _ E).
    eexists _, _. split_and!; [reflexivity | done | cbn; lia |].
    eapply spec_KList; [|done | exact Hk]. cbn. lia.
Qed.

(** ** The invariant *)

(** Every key of [m] is copied, still to be copied, or expired. *)
Definition covered (t : nat) (m m' : kvmap) (keys : list (str * option Z)) : Prop :=
  Forall (fun p => exists v, m !! p.1 = Some (v, p.2)) keys /\
  forall k v x, m !! k = Some (v, x) -> (k, x) ∈ keys \/ m' !! k = m !! k \/
    exists i, (i < t)%nat /\ expired x (clock i) = true.

Definition segs_of (s : KvState) (L : log) : list Segment :=
  (fun p => mkSegment (db_name (eng s)) p.1) <$> L.

Definition conc_inv (c : KvState * Job) (m : kvmap) : Prop :=
  let '(s, j) := c in
  match j with
  | Idle => kv_good N s m
  | Copying e old keys => exists L m', building N (eng s) L m (world s) e m' /\
      old = segs_of s L /\ covered (ticks (world s)) m m' keys
  | Copied e old => exists L m', building N (eng s) L m (world s) e m' /\
      old = segs_of s L /\ covered (ticks (world s)) m m' []
  | Removing old => exists L, kv_inv N L wal_agrees s m /\ old = segs_of s L
  | Failed => False
  end.

Lemma covered_later t t' m m' keys : covered t m m' keys -> (t <= t')%nat -> covered t' m m' keys.
Proof.
  intros [H1 H2] Ht. split; [done|]. intros k v x Hk.
  destruct (H2 k v x Hk) as [?|[?|(i & Hi & ?)]]; auto. right. right. exists i. split; [lia | done].
Qed.

Lemma compacts_refl t m : compacts 0 t m m.
Proof. split; [done|]. intros. congruence. Qed.

Lemma client_step op s j m :
  conc_inv (s, j) m -> op_ok op -> admitted j op -> (ticks_of (run_op op s).1 <= N)%nat ->
  exists s' r m', run_op op s = (s', r) /\ conc_inv (s', j) m' /\
    spec_step (ticks (world s)) (ticks (world s')) op r m m'.
Proof.
  intros Hi Hok Ha Hn. destruct s as [self w].
  destruct j as [|e old keys|e old|old|]; cbn [conc_inv admitted] in *; [| | | |done].
  - destruct (run_op_step N [] op _ m (fun _ => eq_refl) Hi Hok Hn)
      as (s' & r & m' & E & Hi' & _ & Hs).
    eauto 10.
  - destruct Hi as (L & m1 & Hb & -> & Hc).
    destruct (read_only_run op _ m Ha (building_readable _ _ _ _ _ _ _ Hb) Hn)
      as (w' & r & E & Hd & Ht & Hs).
    eexists _, r, m. split_and!; [exact E | | exact Hs]. exists L, m1. cbn [eng world] in *.
    split_and!; [by eapply building_world | done | by eapply covered_later].
  - destruct Hi as (L & m1 & Hb & -> & Hc).
    destruct (read_only_run op _ m Ha (building_readable _ _ _ _ _ _ _ Hb) Hn)
      as (w' & r & E & Hd & Ht & Hs).
    eexists _, r, m. split_and!; [exact E | | exact Hs]. exists L, m1. cbn [eng world] in *.
    split_and!; [by eapply building_world | done | by eapply covered_later].
  - destruct Hi as (L & Hi & ->).
    destruct (run_op_step N L op _ m (fun E => False_ind _ (Ha E)) Hi Hok Hn)
      as (s' & r & m' & E & Hi' & (Hname & _) & Hs).
    exists s', r, m'. split_and!; [done | | done]. exists L. split; [done|].
    unfold segs_of. cbn [eng] in *. by rewrite Hname.
Qed.

(** ** The steps of the compaction *)

(** A step that succeeds, and the one that follows from it. *)
Lemma job_step_Ok {A} (b : ST KvState A) (f : A -> Job) s j s' a :
  job_body j = (let* x := b in st_ret (f x)) -> b s = (s', Ok a) -> job_step (s, j) = (s', f a).
Proof. intros Hj E. unfold job_step. cbn [fst snd]. by rewrite Hj, (st_bind_Ok _ _ _ _ _ E). Qed.

Lemma job_step_body {A} (b : ST KvState A) (f : A -> Job) s j :
  job_body j = (let* x := b in st_ret (f x)) -> (ticks (world (job_step (s, j)).1) <= N)%nat ->
  (ticks_of (b s).1 <= N)%nat.
Proof.
  intros Hj. unfold job_step, ticks_of, ticking_kv. cbn [fst snd]. rewrite Hj. unfold st_bind.
  by destruct (b s) as [s' [| |]].
Qed.

Lemma covered_none t m m' :
  covered t m m' [] -> m' ⊆ m -> compacts 0 t m m'.
Proof.
  intros [_ Hc] Hsub. split; [done|]. intros k v x Hk Hnone.
  destruct (Hc k v x Hk) as [Hin|[Heq|(i & Hi & Hx)]]; [by apply not_elem_of_nil in Hin | congruence |].
  exists i. split; [lia | done].
Qed.

Lemma covered_copy t t' m m' m'' k v x keys :
  covered t m m' ((k, x) :: keys) -> m !! k = Some (v, x) -> m' ⊆ m'' -> (t <= t')%nat ->
  (m'' !! k = m !! k \/ exists i, (i < t')%nat /\ expired x (clock i) = true) ->
  covered t' m m'' keys.
Proof.
  intros [Hall Hc] Hk Hsub Ht Hcase. split; [by apply Forall_cons in Hall as [_ ?]|].
  intros k0 v0 x0 H0. destruct (Hc k0 v0 x0 H0) as [Hin|[Heq|(i & Hi & Hx)]].
  - apply elem_of_cons in Hin as [[= -> ->]|Hin]; [|by left]. right. exact Hcase.
  - right. left. rewrite H0 in *. by eapply lookup_weaken.
  - right. right. exists i. split; [lia | done].
Qed.

Lemma compaction_step s j m :
  conc_inv (s, j) m -> (ticks (world (job_step (s, j)).1) <= N)%nat ->
  exists s' j' m', job_step (s, j) = (s', j') /\ conc_inv (s', j') m' /\
    compacts 0 (ticks (world s')) m m' /\ (steps_left j' = pred (steps_left j) \/ j = Idle).
Proof.
  intros Hi Hn. destruct s as [self w].
  destruct j as [|e old [|[k x] keys]|e old|[|seg old]|]; cbn [conc_inv] in Hi; [| | | | | |done].
  - pose proof (job_step_body compact_begin _ _ Idle eq_refl Hn) as Hn1.
    destruct (compact_begin_run N _ m Hi Hn1) as (L & w1 & e1 & ks & E1 & Hb1 & Ht1 & Hks & Hl).
    eexists _, _, m. split_and!; [exact (job_step_Ok compact_begin _ _ Idle _ _ eq_refl E1) | |
      apply compacts_refl | by right].
    exists L, ∅. cbn [fst snd eng world] in *. split_and!; [exact Hb1 | done |]. split; [exact Hks|].
    intros k v x Hk. destruct (Hl k v x Hk) as [?|(i & Hi' & Hx)]; [by left|].
    right. right. exists i. split; [lia | done].
  - destruct Hi as (L & m1 & Hb & -> & Hc). cbn [eng world] in *.
    destruct (compact_hints_run N _ _ _ _ _ _ (segs_of (mkKvState self w) L) Hb) as (w1 & E1 & Hb1 & Ht1).
    eexists _, _, m.
    split_and!; [exact (job_step_Ok (compact_hints e _) _ _ (Copying e _ []) _ _ eq_refl E1) | |
      apply compacts_refl | left; cbn; lia].
    exists L, m1. split_and!; [exact Hb1 | done |]. eapply covered_later; [exact Hc | cbn; lia].
  - destruct Hi as (L & m1 & Hb & -> & Hc). cbn [eng world] in *.
    pose proof (job_step_body (compact_copy e k x) _ _ (Copying e _ ((k, x) :: keys)) eq_refl Hn) as Hn1.
    destruct (Hc) as [Hall _]. apply Forall_cons in Hall as [[v Hv] _]. cbn [fst snd] in Hv.
    destruct (compact_copy_run N _ _ _ _ _ _ _ _ _ Hb Hv Hn1) as (w1 & e1 & m2 & E1 & Hb1 & Hsub & Ht1 & Hk1).
    eexists _, _, m.
    split_and!; [exact (job_step_Ok (compact_copy e k x) _ _ (Copying e _ ((k, x) :: keys)) _ _ eq_refl E1)
      | | apply compacts_refl | left; cbn; lia].
    exists L, m2. split_and!; [exact Hb1 | done |]. cbn [world].
    eapply covered_copy; [exact Hc | exact Hv | done | lia |].
    destruct Hk1 as [?|(i & Hi & ?)]; [by left | right; exists i; split; [lia | done]].
  - destruct Hi as (L & m1 & Hb & -> & Hc). cbn [eng world] in *.
    destruct (install_run N _ _ _ _ _ _ Hb) as (s1 & E1 & Hi1 & _ & Hname & Ht1 & _).
    eexists _, _, m1.
    split_and!; [exact (job_step_Ok (install e) _ _ (Copied e _) _ _ eq_refl E1) | | |left; cbn; lia].
    + exists L. split; [exact Hi1|]. unfold segs_of. by rewrite Hname.
    + apply covered_none; [eapply covered_later; [exact Hc | lia] | by destruct Hb].
  - destruct Hi as ([|p L] & Hi & HL); [|done].
    eexists _, _, m. split_and!; [reflexivity | exact Hi | apply compacts_refl | left; cbn; lia].
  - destruct Hi as ([|[t rs] L] & (nl & nts & nrs & Hs & Hm & Hw) & HL); [done|].
    injection HL as -> ->. destruct (unlink_run N wal_agrees _ _ _ _ _ _ _ _ Hs Hw) as (s1 & E1 & Hs1 & Hw1 & He1 & Ht1).
    eexists _, _, m.
    split_and!; [exact (job_step_Ok (remove_segment _) _ _ (Removing (_ :: _)) _ _ eq_refl E1) | |
      apply compacts_refl | left; cbn; lia].
    exists L. split; [|unfold segs_of; by rewrite He1].
    exists nl, nts, nrs. split_and!; [done | done |]. by rewrite He1.
Qed.

(** ** Any interleaving *)

Lemma conc_run_refine l c m :
  conc_inv c m -> all_admitted l c -> (ticks (world (conc_run l c).1.1) <= N)%nat ->
  exists m', conc_inv (conc_run l c).1 m' /\
    conc_spec (ticks (world c.1)) (ticks (world (conc_run l c).1.1)) l (conc_run l c).2 m m'.
Proof.
  revert c m. induction l as [|[op|] l IH]; intros [s j] m Hi Ha Hn.
  - exists m. split; [done | constructor].
  - destruct Ha as (Hok & Hadm & Ha). cbn [conc_run fst snd] in *.
    pose proof (mono (m := run_op op) s) as Hmono. unfold ticks_of, ticking_kv in Hmono.
    destruct (run_op op s) as [s1 r] eqn:E. cbn [fst] in Hmono, Ha.
    pose proof (conc_run_ticks l (s1, j)) as Hts. cbn [fst] in Hts.
    destruct (conc_run l (s1, j)) as [c2 rs] eqn:E2. cbn [fst snd] in *.
    destruct (client_step op s j m Hi Hok Hadm) as (s1' & r' & m1 & E1 & Hi1 & Hs1).
    { rewrite E. unfold ticks_of, ticking_kv. cbn [fst]. lia. }
    rewrite E in E1. injection E1 as <- <-.
    destruct (IH (s1, j) m1 Hi1 Ha) as (m2 & Hi2 & Hs2); rewrite E2 in *; [done|].
    exists m2. split; [done|]. by eapply conc_spec_client.
  - cbn [all_admitted conc_run] in *. pose proof (conc_run_ticks l (job_step (s, j))) as Hts.
    pose proof (job_step_ticks (s, j)) as Hts1.
    destruct (compaction_step s j m Hi) as (s' & j' & m1 & E & Hi1 & Hc1 & _); [lia|].
    rewrite E in *. destruct (IH (s', j') m1 Hi1 Ha Hn) as (m2 & Hi2 & Hs2).
    exists m2. split; [done|]. by eapply conc_spec_job.
Qed.

Lemma fresh_conc_inv name max p :
  (0 < N)%nat ->
  exists w e, kv_new name max p empty_world = (w, Ok e) /\
    conc_inv (mkKvState e w, Idle) ∅ /\ ticks w = 1%nat.
Proof.
  intros HN. destruct (fresh_engine N name max p HN) as (w & e & E & Hi & _ & Ht). eauto.
Qed.

(** ** Progress *)

Lemma clients_keep_job l s j : compaction_steps l = 0%nat -> (conc_run l (s, j)).1.2 = j.
Proof.
  revert s. induction l as [|[op|] l IH]; intros s Hl; [done | |done].
  cbn [conc_run fst snd]. destruct (run_op op s) as [s1 r]. specialize (IH s1 Hl).
  by destruct (conc_run l (s1, j)).
Qed.

Lemma progress l c m :
  conc_inv c m -> all_admitted l c -> (ticks (world (conc_run l c).1.1) <= N)%nat ->
  c.2 <> Idle -> compaction_steps l = steps_left c.2 -> (conc_run l c).1.2 = Idle.
Proof.
  revert c m. induction l as [|[op|] l IH]; intros [s j] m Hi Ha Hn Hj Hl; cbn [fst snd] in *.
  - destruct j as [| | | |]; cbn in Hl; [done | lia | lia | lia | done].
  - destruct Ha as (Hok & Hadm & Ha). cbn [conc_run fst snd] in *.
    pose proof (conc_run_ticks l ((run_op op s).1, j)) as Hts. cbn [fst] in Hts.
    destruct (client_step op s j m Hi Hok Hadm) as (s1 & r & m1 & E1 & Hi1 & _).
    { destruct (run_op op s) as [s1 r]. cbn [fst] in *.
      destruct (conc_run l (s1, j)) as [c2 rs]. cbn [fst] in *. unfold ticks_of, ticking_kv. lia. }
    rewrite E1 in *. cbn [fst] in *.
    specialize (IH (s1, j) m1 Hi1 Ha). destruct (conc_run l (s1, j)) as [c2 rs]. by apply IH.
  - cbn [all_admitted conc_run] in *. pose proof (conc_run_ticks l (job_step (s, j))) as Hts.
    destruct (compaction_step s j m Hi) as (s' & j' & m1 & E & Hi1 & _ & [Hdec|Hidle]); [lia | |done].
    rewrite E in *. cbn [compaction_steps] in Hl.
    assert (Hc : j' = Idle \/ j' <> Idle) by (destruct j'; auto; by right).
    destruct Hc as [->|Hne]; [|apply (IH (s', j') m1); [done | done | done | done | cbn; lia]].
    apply clients_keep_job. cbn [steps_left] in Hdec. lia.
Qed.
End Proofs.

(** ** The steps make up [compact] *)

Section Alone.
Context `{HO : HashOrder} `{CK : Clock}.

Lemma step_alone {A} (b : ST KvState A) (f : A -> Job) s j :
  job_body j = (let* x := b in st_ret (f x)) -> alone (s, j) (ended f (b s)).
Proof.
  intros Hj. unfold alone, job_step. cbn [fst snd]. rewrite Hj. unfold st_bind.
  by destruct (b s) as [s' [| |]].
Qed.

(** If the first part ends as the thread does, so does what follows it. *)
Lemma alone_bind {A B} (b : ST KvState A) (g : A -> ST KvState B) (f : A -> Job) (h : B -> Job) s j :
  rtc alone (s, j) (ended f (b s)) ->
  (forall s' a, b s = (s', Ok a) -> rtc alone (s', f a) (ended h (g a s'))) ->
  rtc alone (s, j) (ended h ((let* a := b in g a) s)).
Proof.
  intros H1 H2. unfold st_bind. destruct (b s) as [s' [a|e|]]; [|exact H1 | exact H1].
  etrans; [exact H1 | by apply H2].
Qed.

Lemma copy_alone old keys : forall new_db s,
  rtc alone (s, Copying new_db old keys)
    (ended (fun e => Copying e old []) (compact_loop new_db keys s)).
Proof.
  induction keys as [|[k x] keys IH]; intros e s; cbn [compact_loop]; [done|].
  eapply (alone_bind _ _ (fun e' => Copying e' old keys)); [|intros; apply IH].
  apply rtc_once. by apply (step_alone (compact_copy e k x)).
Qed.

Lemma remove_alone old : forall s,
  rtc alone (s, Removing old) (ended (fun _ => Removing []) (st_iter remove_segment old s)).
Proof.
  induction old as [|seg old IH]; intros s; [done|]. cbn [st_iter].
  eapply (alone_bind _ _ (fun _ => Removing old)); [|intros; apply IH].
  apply rtc_once. by apply (step_alone (remove_segment seg)).
Qed.

(** Once begun, the thread does the rest of [build_compacted]. *)
Lemma build_alone s :
  rtc alone (s, Idle) (ended (fun p => Copied p.1 p.2) (build_compacted s)).
Proof.
  unfold build_compacted. eapply (alone_bind _ _ (fun b => Copying b.1.1 b.1.2 b.2)).
  { apply rtc_once. by apply (step_alone compact_begin). }
  intros s1 [[e old] ks] _. cbn [fst snd]. eapply alone_bind; [apply copy_alone|].
  intros s2 e2 _. eapply (alone_bind _ _ (fun _ => Copied e2 old)); [|done].
  apply rtc_once. by apply (step_alone (compact_hints e2 old)).
Qed.
End Alone.

(** ** The theorems *)

Section Theorems.
Context `{HO : HashOrder} `{CK : Clock}.

(** The steps of the thread, one after the other and alone, are [compact]:
    they reach the state it leaves, and the thread is idle again when it
    succeeds and stopped when it fails. *)
Theorem compaction_thread_is_compact s :
  tc alone (s, Idle) (ended (fun _ => Idle) (compact s)).
Proof.
  assert (H : rtc alone (s, Idle) (ended (fun _ => Removing []) (compact s))).
  { unfold compact. eapply alone_bind; [apply build_alone|]. intros s1 [e old] _. cbn [fst snd].
    eapply (alone_bind _ _ (fun _ => Removing old)); [|intros; apply remove_alone].
    apply rtc_once. by apply (step_alone (install e)). }
  destruct (compact s) as [s' [[]|e|]]; unfold ended in *; cbn [fst snd] in *.
  - eapply tc_rtc_l; [exact H|]. by apply tc_once.
  - apply rtc_inv in H as [H|(c & Hc & H)]; [done|].
    eapply tc_rtc_r; [by apply tc_once | exact H].
  - apply rtc_inv in H as [H|(c & Hc & H)]; [done|].
    eapply tc_rtc_r; [by apply tc_once | exact H].
Qed.

Context (N : nat) `{GC : !GoodClock N}.

(** C6: Clients of a fresh engine while compactions come and go: whatever the
    interleaving, as long as no client writes between the moment a compaction
    lists the keys and the moment it exchanges the engines, every answer is
    the one the specification gives for the map reached so far, a compaction
    step only drops keys whose expiry has passed, and no compaction fails. *)
Theorem concurrent_compaction_refines name max p l :
  (0 < N)%nat ->
  exists w e, kv_new name max p empty_world = (w, Ok e) /\
    let c := (mkKvState e w, Idle) in
    (all_admitted l c -> (ticks (world (conc_run l c).1.1) <= N)%nat ->
     (conc_run l c).1.2 <> Failed /\
     exists m, conc_spec 1 (ticks (world (conc_run l c).1.1)) l (conc_run l c).2 ∅ m).
Proof.
  intros HN. destruct (fresh_conc_inv N name max p HN) as (w & e & E & Hi & Ht).
  exists w, e. split; [done|]. cbn zeta. intros Ha Hn.
  destruct (conc_run_refine N l _ ∅ Hi Ha Hn) as (m & Hi' & Hs). cbn [fst world] in Hs.
  rewrite Ht in Hs. split; [|by exists m].
  destruct (conc_run l _) as [[s j] rs]. cbn [fst snd] in *. by destruct j.
Qed.

(** C20: A compaction that has begun ends. As long as clients only read between the
    moment it lists the keys and the moment it exchanges the engines, and start
    no compaction of their own, whatever else they do, it is over, without an
    error, after exactly the steps it had left: one for each key to copy and
    each segment to delete, and three. *)
Theorem concurrent_compaction_finishes name max p l l' :
  (0 < N)%nat ->
  exists w e, kv_new name max p empty_world = (w, Ok e) /\
    let c := (conc_run l (mkKvState e w, Idle)).1 in
    (all_admitted l (mkKvState e w, Idle) -> all_admitted l' c ->
     (ticks (world (conc_run l' c).1.1) <= N)%nat -> c.2 <> Idle ->
     compaction_steps l' = steps_left c.2 -> (conc_run l' c).1.2 = Idle).
Proof.
  intros HN. destruct (fresh_conc_inv N name max p HN) as (w & e & E & Hi & Ht).
  exists w, e. split; [done|]. cbn zeta. intros Ha Ha' Hn Hj Hl.
  pose proof (conc_run_ticks l' (conc_run l (mkKvState e w, Idle)).1).
  destruct (conc_run_refine N l _ ∅ Hi Ha) as (m & Hi' & _); [lia|].
  by eapply progress.
Qed.
End Theorems.

(** ** Examples *)

#[local] Existing Instance example_clock.
#[local] Existing Instance example_order.

(** Two keys in two segments, reads while both are copied, a write while the
    old segments are deleted. *)
Definition example_schedule : list conc_act :=
  [ByClient (KSet (bs "a") (bs "1") None); ByClient (KSet (bs "b") (bs "2") (Some 5000));
   ByCompaction; ByClient (KGet (bs "a")); ByCompaction; ByClient KList; ByCompaction;
   ByCompaction; ByClient (KMget [bs "a"; bs "b"]); ByCompaction;
   ByClient (KSet (bs "a") (bs "3") None)].

Definition example_rest : list conc_act :=
  [ByCompaction; ByClient (KDelete (bs "b")); ByCompaction; ByCompaction; ByClient KList].

Ltac schedule_admitted := vm_compute; repeat split; try done; by repeat constructor.

Lemma concurrent_compaction_refines_witness :
  let c := (example_state, Idle) in
  let l := example_schedule ++ example_rest in
  (conc_run l c).1.2 <> Failed /\
  exists m, conc_spec 1 (ticks (world (conc_run l c).1.1)) l (conc_run l c).2 ∅ m.
Proof.
  destruct (concurrent_compaction_refines 100 (GC := example_clock_good 100 ltac:(lia))
    (bs "db") 30 FsAlways (example_schedule ++ example_rest)) as (w & e & E & Hr); [lia|].
  assert (Hs : example_state = mkKvState e w)
    by (unfold example_state, opened, state_or; by rewrite E).
  rewrite <- Hs in Hr. apply Hr; [schedule_admitted|].
  apply Nat.leb_le. vm_compute. reflexivity.
Defined.

Lemma concurrent_compaction_finishes_witness :
  let c := (conc_run example_schedule (example_state, Idle)).1 in
  c.2 <> Idle /\ (conc_run example_rest c).1.2 = Idle.
Proof.
  destruct (concurrent_compaction_finishes 100 (GC := example_clock_good 100 ltac:(lia))
    (bs "db") 30 FsAlways example_schedule example_rest) as (w & e & E & Hr); [lia|].
  assert (Hs : example_state = mkKvState e w)
    by (unfold example_state, opened, state_or; by rewrite E).
  rewrite <- Hs in Hr. cbn zeta. split; [vm_compute; discriminate|].
  apply Hr; [schedule_admitted | schedule_admitted | | vm_compute; discriminate | vm_compute; reflexivity].
  apply Nat.leb_le. vm_compute. reflexivity.
Defined.

(** ** Where the engine departs from the store *)

(** A write that a client makes and the engine acknowledges after a compaction
    has copied its key is gone once the compaction has exchanged the engines:
    the old value is back, also after a restart, since the exchange empties the
    log. A deletion is undone in the same way. *)
Theorem write_during_compaction_lost :
  let key := bs "a" in
  let s0 := state_or (opened (bs "db") 1000 FsAlways) in
  let run op := conc_run [ByClient (KSet key (bs "old") None); ByCompaction; ByCompaction;
                          ByClient op; ByClient (KGet key); ByCompaction; ByCompaction;
                          ByCompaction; ByCompaction; ByClient (KGet key)] (s0, Idle) in
  let set := run (KSet key (bs "new") None) in
  let del := run (KDelete key) in
  set.2 = [Ok OutUnit; Ok OutUnit; Ok (OutPair (Some (key, bs "new")));
           Ok (OutPair (Some (key, bs "old")))] /\
  del.2 = [Ok OutUnit; Ok (OutDeleted (Some tt)); Ok (OutPair None);
           Ok (OutPair (Some (key, bs "old")))] /\
  set.1.2 = Idle /\
  (get key (reopened (bs "db") (world set.1.1))).2 = Ok (Some (key, bs "old")).
Proof. vm_compute. done. Qed.
