(* ===== verification/KvDelete.v ===== *)
(** * Deletions beside other clients of the hash engine

    [delete] (src/src/kvengine.rs) takes the locks of the log, of the index and
    of the active file one after the other and never two at a time; the other
    writers hold all of them at once. Here the operations of other clients come
    between the spans of a deletion. *)

From S2P Require Import Prelude Utf8 Record Collections Memtable Wal Hint Text Segment Utils.
From S2P Require Import Settings HashIndex World Engine KvEngine KvLog KvInv Spans KvOps KvSpans KvSpec KvTheorems.

(** One deletion, and other clients. *)
Inductive delete_act := ByDelete | ByOther (op : kv_op).

(** The state, what is left of the deletion, and the answers of the others. *)
Fixpoint delete_run `{HashOrder} `{Clock} (l : list delete_act) (s : KvState)
    (p : Prog KvState (option unit)) : KvState * Prog KvState (option unit) * list (result kv_out) :=
  match l with
  | [] => (s, p, [])
  | ByDelete :: l' =>
      match p with
      | Span f => let '(s', p') := f s in delete_run l' s' p'
      | Halt _ => delete_run l' s p
      end
  | ByOther op :: l' =>
      let '(s1, r) := run_op op s in
      let '(s2, p2, rs) := delete_run l' s1 p in
      (s2, p2, r :: rs)
  end.

Definition answer_of (p : Prog KvState (option unit)) : option (result (option unit)) :=
  match p with Halt r => Some r | Span _ => None end.

(** ** Where a deletion departs from the store *)

#[local] Existing Instances example_clock example_order.

(** A deleted key comes back. The log gets the deletion before a write of the
    key, or a change of its expiry, and the index and the segment get it after:
    the deletion is answered, the key is not found, and the next start, which
    replays the log over the segments, finds a value again. *)
Theorem delete_race_resurrects :
  let key := bs "a" in
  let run op := delete_run
    ([ByOther (KSet key (bs "old") None); ByDelete; ByOther op] ++ replicate 7 ByDelete ++ [ByOther (KGet key)])
    (state_or (opened (bs "db") 1000 FsAlways)) (delete_spans key) in
  let again op := (get key (reopened (bs "db") (world (run op).1.1))).2 in
  let set := KSet key (bs "new") None in
  let persist := KTtl key None in
  answer_of (run set).1.2 = Some (Ok (Some tt)) /\
  (run set).2 = [Ok OutUnit; Ok OutUnit; Ok (OutPair None)] /\
  again set = Ok (Some (key, bs "new")) /\
  answer_of (run persist).1.2 = Some (Ok (Some tt)) /\
  (run persist).2 = [Ok OutUnit; Ok (OutTtl TtlPersisted); Ok (OutPair None)] /\
  again persist = Ok (Some (key, bs "old")).
Proof. vm_compute. done. Qed.

(** A write is lost. It comes after the deletion has left the index and before
    it has written its tombstone, which then covers the value in the segment:
    the key is read until the segment is full, the log is emptied and the
    program starts again. *)
Theorem delete_race_loses_write :
  let key := bs "a" in
  let '(s, p, rs) := delete_run
    ([ByOther (KSet key (bs "old") None); ByDelete; ByDelete; ByOther (KSet key (bs "new") None)] ++
     replicate 6 ByDelete ++ [ByOther (KSet (bs "b") (replicate 100 (as_u8 0)) None); ByOther (KGet key)])
    (state_or (opened (bs "db") 150 FsAlways)) (delete_spans key) in
  answer_of p = Some (Ok (Some tt)) /\
  rs = [Ok OutUnit; Ok OutUnit; Ok OutUnit; Ok (OutPair (Some (key, bs "new")))] /\
  (get key (reopened (bs "db") (world s))).2 = Ok None.
Proof. vm_compute. done. Qed.
