(* ===== verification/KvFsync.v ===== *)
(** * The periodic fsync of the hash engine

    With [FsPeriodic] every active segment has a background worker
    (src/src/worker.rs) whose job opens the segment by its path and syncs it
    (src/src/kvengine.rs, [spawn_fsync_worker]); the job panics when the file
    is gone. The worker of a segment is replaced when the segment is. *)

From S2P Require Import Prelude Utf8 Record Collections Memtable Wal Hint Text Segment Utils.
From S2P Require Import Settings HashIndex World Engine KvEngine KvLog KvInv KvOps KvCompact.
From S2P Require Import KvSpec KvTheorems.

(** ** The job *)

Definition fsync_job (segment_path : str) : ST World unit := fun w =>
  match disk w !! segment_path with
  | Some _ => sync_file segment_path w
  | None => (w, Panic)
  end.

(** ** The worker of an engine is that of its active segment *)

Definition own_worker (e : KVEngine) : Prop :=
  match fsync_handle e with
  | Some (_, path) => path = filename (active_segment e)
  | None => True
  end.

(** Operations that keep a property of the state and yield values with
    another. *)
Class Yields {St A} (P : St -> Prop) (Q : A -> Prop) (m : ST St A) : Prop := yields s :
  P s -> P (m s).1 /\ forall a, (m s).2 = Ok a -> Q a.

Section Yields.
Context {St : Type} (P : St -> Prop).

Lemma yields_keeps {A} (Q : A -> Prop) (m : ST St A) : Yields P Q m -> Keeps P m.
Proof. intros H s Hs. by apply H. Qed.

Lemma keeps_yields {A} (m : ST St A) : Keeps P m -> Yields P (fun _ => True) m.
Proof. intros H s Hs. split; [by apply H | done]. Qed.

Lemma yields_ret {A} (Q : A -> Prop) a : Q a -> Yields P Q (st_ret a).
Proof. intros Ha s Hs. split; [done|]. by intros b [= <-]. Qed.

Lemma yields_bind {A B} (Q : A -> Prop) (R : B -> Prop) (m : ST St A) (f : A -> ST St B) :
  Yields P Q m -> (forall a, Q a -> Yields P R (f a)) -> Yields P R (st_bind m f).
Proof.
  intros Hm Hf s Hs. destruct (Hm s Hs) as [H1 H2]. unfold st_bind.
  destruct (m s) as [s' [a|e|]]; cbn in *; [by apply Hf; [apply H2|] | done | done].
Qed.

Lemma yields_skip {A B} (R : B -> Prop) (m : ST St A) (f : A -> ST St B) :
  Keeps P m -> (forall a, Yields P R (f a)) -> Yields P R (st_bind m f).
Proof. intros Hm Hf. eapply yields_bind; [by apply keeps_yields | auto]. Qed.
End Yields.

Definition own (s : KvState) : Prop := own_worker (eng s).

Section Own.
Context `{HO : HashOrder} `{CK : Clock}.

Instance own_world {A} (m : ST World A) : Keeps own (on_world m).
Proof. intros s Hs. unfold on_world. by destruct (m (world s)). Qed.
Instance own_ask {A} (f : KVEngine -> A) : Keeps own (ask f).
Proof. by intros s. Qed.
Lemma own_upd f : (forall e, own_worker e -> own_worker (f e)) -> Keeps own (upd f).
Proof. intros Hf s Hs. by apply Hf. Qed.
Instance own_index i : Keeps own (upd (set_index i)).
Proof. by apply own_upd. Qed.
Instance own_writes n : Keeps own (upd (set_writes n)).
Proof. by apply own_upd. Qed.
Instance own_counters a b : Keeps own (add_counters a b).
Proof. by apply own_upd. Qed.
Instance own_write b : Keeps own (write_active b).
Proof. intros s Hs. unfold write_active. destruct (active_file (eng s)); [by apply own_world | done]. Qed.
Instance own_sync : Keeps own sync_active.
Proof. intros s Hs. unfold sync_active. destruct (active_file (eng s)); [by apply own_world | done]. Qed.
Instance own_read : Keeps own read_active.
Proof. by intros s. Qed.
Instance own_wal_append k v t e : Keeps own (kv_wal_append k v t e).
Proof. unfold kv_wal_append. apply _. Qed.
Instance own_wal_reset : Keeps own kv_wal_reset.
Proof. unfold kv_wal_reset. apply _. Qed.

Lemma spawn_path p path x : spawn_fsync_worker p path = Some x -> x.2 = path.
Proof. destruct p; cbn; [done | done | by intros [= <-] | done]. Qed.

Lemma spawn_own e h p seg : own_worker (set_active h (spawn_fsync_worker p (filename seg)) seg e).
Proof.
  unfold own_worker. cbn. destruct (spawn_fsync_worker p (filename seg)) as [[d path]|] eqn:E; [|done].
  by apply spawn_path in E.
Qed.

(** A roll drops the worker of the old segment first. *)
Instance own_roll : Keeps own roll_active.
Proof.
  unfold roll_active. apply keeps_bind; [apply _ | intros].
  apply keeps_bind; [by apply own_upd | intros].
  do 3 (apply keeps_bind; [apply _ | intros]).
  apply keeps_bind; [apply own_upd; intros; apply spawn_own | intros].
  apply keeps_bind; [apply _ | intros]. by apply own_upd.
Qed.
Instance own_append k v e : Keeps own (kv_append k v e).
Proof.
  rewrite kv_append_unfold. do 3 (apply keeps_bind; [apply _ | intros]).
  apply keeps_bind; [case_match; apply _ | intros]. unfold append_indexed, append, hi_set. apply _.
Qed.
Instance own_fsync : Keeps own fsync.
Proof.
  unfold fsync. repeat (apply keeps_bind; [apply _ | intros]). repeat case_match; apply _.
Qed.
Instance own_get k : Keeps own (get k).
Proof. unfold get. apply _. Qed.
Instance own_set k v e : Keeps own (set_with_ttl k v e).
Proof.
  unfold set_with_ttl. case_match; [apply _|]. apply keeps_bind; [apply _|]. intros [??]. apply _.
Qed.
Instance own_delete k : Keeps own (kv_delete k).
Proof.
  unfold kv_delete. case_match; [apply _|]. do 2 (apply keeps_bind; [apply _ | intros]).
  unfold hi_delete. apply keeps_bind; [apply _ | intros]. case_match; apply _.
Qed.
Instance own_ttl k e : Keeps own (ttl k e).
Proof.
  unfold ttl. repeat (apply keeps_bind; [apply _ | intros]). case_match; [|apply _].
  apply keeps_bind; [apply _|]. intros [??]. apply _.
Qed.
Instance own_exists k : Keeps own (exists_key k).
Proof. unfold exists_key. apply keeps_bind; [apply _ | intros]. repeat case_match; apply _. Qed.

(** ** Compaction: the new engine comes with its own worker *)

Lemma kv_new_own name max p w w' e : kv_new name max p w = (w', Ok e) -> own_worker e.
Proof.
  unfold kv_new, st_bind. destruct (new_segment name w) as [w1 [seg| |]]; [|done|done].
  destruct (open_create _ w1) as [w2 [| |]]; [|done|done].
  destruct (wal_open name w2) as [w3 [| |]]; [|done|done]. intros [= _ <-].
  exact (spawn_own (mkKV hi_new (Linked (filename seg)) None seg name max 0 p 0 0 1)
    (Linked (filename seg)) p seg).
Qed.

Lemma with_engine_own {A} (m : ST KvState A) e :
  Keeps own m -> own_worker e -> Yields own (fun p => own_worker p.1) (on_world (with_engine e m)).
Proof.
  intros Hm He s Hs. split; [by apply own_world|]. intros p. unfold on_world, with_engine.
  specialize (Hm (mkKvState e (world s)) He). destruct (m _) as [s' [a| |]]; cbn in *; [|done|done].
  by intros [= <-].
Qed.

Lemma compact_copy_own e k x : own_worker e -> Yields own own_worker (compact_copy e k x).
Proof.
  intros He. unfold compact_copy. apply yields_skip; [apply _|]. intros [[k' v]|]; [|by apply yields_ret].
  eapply yields_bind; [by apply with_engine_own; [apply _|]|]. intros p Hp. by apply yields_ret.
Qed.

Lemma compact_loop_own l : forall e, own_worker e -> Yields own own_worker (compact_loop e l).
Proof.
  induction l as [|[k x] l IH]; intros e He; cbn [compact_loop]; [by apply yields_ret|].
  eapply yields_bind; [by apply compact_copy_own|]. exact IH.
Qed.

Lemma compact_begin_own : Yields own (fun b => own_worker b.1.1) compact_begin.
Proof.
  unfold compact_begin. do 4 (apply yields_skip; [apply _ | intros]).
  apply (yields_bind own own_worker).
  { intros s Hs. split; [by apply own_world|]. intros e. unfold on_world.
    destruct (kv_new _ _ _ (world s)) as [w' r] eqn:E. cbn. intros ->. by eapply kv_new_own. }
  intros e He. do 2 (apply yields_skip; [apply _ | intros]). by apply yields_ret.
Qed.

Instance compact_hints_own e old : Keeps own (compact_hints e old).
Proof. unfold compact_hints. apply _. Qed.

Lemma install_own e : own_worker e -> Keeps own (install e).
Proof.
  intros He. unfold install. apply keeps_bind; [by apply own_upd | intros].
  do 2 (apply keeps_bind; [apply _ | intros]). apply keeps_bind; [by apply own_upd | intros; apply _].
Qed.

Instance unlink_own name : Keeps own (unlink name).
Proof.
  intros s Hs. unfold unlink. destruct (active_file (eng s)); [|by apply own_world].
  case_decide; [|by apply own_world].
  apply (keeps_bind own (on_world _)); [apply _ | intros; by apply own_upd | done].
Qed.

Instance remove_segment_own seg : Keeps own (remove_segment seg).
Proof.
  unfold remove_segment. apply keeps_bind; [apply _|]. intros _ s Hs. unfold ignore. cbn.
  by apply unlink_own.
Qed.

Instance compact_own : Keeps own compact.
Proof.
  unfold compact, build_compacted. apply (yields_keeps own (fun _ => True)).
  apply (yields_bind own (fun p => own_worker p.1)).
  - eapply yields_bind; [apply compact_begin_own|]. intros b Hb.
    eapply yields_bind; [by apply compact_loop_own|]. intros e He.
    apply yields_skip; [apply _ | intros]. by apply yields_ret.
  - intros p Hp. apply keeps_yields, keeps_bind; [by apply install_own | intros; apply _].
Qed.

Instance mget_own ks : Keeps own (mget ks).
Proof. induction ks as [|k ks IH]; cbn [mget]; apply _. Qed.

Instance mset_own items : Keeps own (mset_with_ttl items).
Proof. unfold mset_with_ttl. apply keeps_iter. intros [[k v] e]. apply _. Qed.

Instance run_op_own op : Keeps own (run_op op).
Proof. destruct op; cbn [run_op]; unfold st_map; apply _. Qed.

Lemma run_ops_own ops s : own s -> own (run_ops ops s).1.
Proof.
  revert s. induction ops as [|op ops IH]; intros s Hs; [done|]. cbn [run_ops].
  pose proof (run_op_own op s Hs) as H1. destruct (run_op op s) as [s1 r]. cbn in H1.
  specialize (IH s1 H1). by destruct (run_ops ops s1).
Qed.
End Own.

(** ** The theorem *)

Section Result.
Context `{HO : HashOrder} `{CK : Clock} (N : nat) `{GC : !GoodClock N}.

(** C27: The periodic fsync works on the active segment. After any operations on a
    fresh engine, with every segment roll and compaction among them, the job of
    the background worker finds its file: it does not panic, it changes no
    contents, and it makes durable what the active segment holds. *)
Theorem fsync_job_safe name max p ops :
  (0 < N)%nat -> Forall op_ok ops ->
  exists w e, kv_new name max p empty_world = (w, Ok e) /\
    let s := (run_ops ops (mkKvState e w)).1 in
    ((ticks (world s) <= N)%nat ->
     forall d path, fsync_handle (eng s) = Some (d, path) ->
     active_file (eng s) = Linked path /\
     exists w', fsync_job path (world s) = (w', Ok tt) /\ disk w' = disk (world s) /\
       durable w' !! path = disk (world s) !! path).
Proof.
  intros HN Hok. destruct (fresh_engine N name max p HN) as (w & e & E & Hi & _).
  exists w, e. split; [done|]. cbn zeta. intros Hn d path Hh.
  pose proof (run_ops_own ops (mkKvState e w) (kv_new_own _ _ _ _ _ _ E)) as Hown.
  destruct (run_ops_refine N ops (mkKvState e w) ∅ Hi Hok Hn) as (m & (l & ts & rs & Hs & _) & _).
  unfold own, own_worker in Hown. rewrite Hh in Hown. destruct Hs as [Hd Hseg Hf _ _].
  rewrite Hseg in Hown. subst path. split; [done|].
  assert (Hb : disk (world (run_ops ops (mkKvState e w)).1) !! filename (mkSegment _ ts)
    = Some (recs_bytes rs)) by (eapply lod_files; [exact Hd|]; apply elem_of_app; right; by left).
  unfold fsync_job. rewrite Hb. unfold sync_file, st_modify. rewrite Hb.
  eexists. split_and!; [reflexivity | done |]. cbn. by rewrite lookup_insert_eq.
Qed.
End Result.

(** ** Example *)

#[local] Existing Instances example_clock example_order.

Definition periodic_state : KvState := state_or (opened (bs "db") 30 (FsPeriodic 1)).

Lemma fsync_job_safe_witness :
  let s := (run_ops example_ops2 periodic_state).1 in
  exists path w', active_file (eng s) = Linked path /\
    fsync_job path (world s) = (w', Ok tt) /\ durable w' !! path = disk (world s) !! path.
Proof.
  destruct (fsync_job_safe 100 (GC := example_clock_good 100 ltac:(lia)) (bs "db") 30 (FsPeriodic 1)
    example_ops2) as (w & e & E & Hr); [lia | apply example_ops2_ok|].
  assert (Hs : periodic_state = mkKvState e w)
    by (unfold periodic_state, opened, state_or; by rewrite E).
  rewrite <- Hs in Hr. cbn zeta in *.
  destruct (fsync_handle (eng (run_ops example_ops2 periodic_state).1)) as [[d path]|] eqn:Eh;
    [|by vm_compute in Eh].
  destruct (Hr) with (d := d) (path := path) as (H1 & w' & H2 & _ & H3);
    [apply Nat.leb_le; vm_compute; reflexivity | reflexivity |].
  exists path, w'. split; [exact H1|]. split; [exact H2 | exact H3].
Defined.
