(* ===== verification/KvPowerLoss.v ===== *)
(** * Losing power under the hash engine

    With [FsAlways] an operation of the engine (src/src/kvengine.rs) returns
    only once the segments are on the device. The write-ahead log
    (src/src/wal.rs) is never synced. Here power is lost after any operations
    without a compaction: a file that is still there keeps what was synced of
    it, and of the log, which is also truncated, nothing is assumed but that it
    is read as intact records before a torn tail. That the directory still has
    the entries of synced files is a hypothesis of its own
    ([entries_survive]). What the reopened engine then holds is the map of the
    operations, with the surviving log applied once more. *)

From S2P Require Import Prelude Utf8 Record Collections Memtable Wal Hint Text Segment Utils.
From S2P Require Import Settings HashIndex World Engine KvEngine KvLog KvInv KvOps KvCompact.
From S2P Require Import KvSpec KvRestart KvTheorems.

(** ** What survives *)

(** A file of the directory after a loss of power holds a prefix of what it held;
    a file whose removal had not reached the device may be back as it was
    synced. *)
Definition survivor_ok (w : World) (n : str) (b : bytes) : Prop :=
  match disk w !! n with Some b0 => b `prefix_of` b0 | None => durable w !! n = Some b end.

(** What [fsync] promises of the data of a file that is there. *)
Definition durable_kept (w : World) (d : files) (n : str) (b : bytes) : Prop :=
  match disk w !! n, d !! n with Some _, Some b' => b `prefix_of` b' | _, _ => True end.

(** The directory after a loss of power; [log], which is truncated without a
    sync, may hold anything. *)
Definition survives (log : str) (w : World) (d : files) : Prop :=
  map_Forall (survivor_ok w) (delete log d) /\ map_Forall (durable_kept w d) (delete log (durable w)).

(** The names of synced files are still in the directory. [fsync] on a file
    alone does not promise it: the engine does not sync the directory, and the
    file system must write the entry with the file. *)
Definition entry_kept (w : World) (d : files) (n : str) (_ : bytes) : Prop :=
  is_Some (disk w !! n) -> is_Some (d !! n).
Definition entries_survive (w : World) (d : files) : Prop := map_Forall (entry_kept w d) (durable w).

#[export] Instance survivor_ok_dec w n b : Decision (survivor_ok w n b).
Proof. unfold survivor_ok. destruct (disk w !! n); apply _. Defined.
#[export] Instance durable_kept_dec w d n b : Decision (durable_kept w d n b).
Proof. unfold durable_kept. destruct (disk w !! n), (d !! n); apply _. Defined.
#[export] Instance survives_dec log w d : Decision (survives log w d).
Proof. apply _. Defined.
#[export] Instance entry_kept_dec w d n b : Decision (entry_kept w d n b).
Proof. unfold entry_kept. apply _. Defined.
#[export] Instance entries_survive_dec w d : Decision (entries_survive w d).
Proof. apply _. Defined.

(** ** What is synced *)

(** Every file but [exempt] ones is on the device as it is, or empty. *)
Record synced (exempt : str -> Prop) (w : World) : Prop := {
  sy_files n b : ~ exempt n -> disk w !! n = Some b -> b = [] \/ durable w !! n = Some b;
  sy_dom n : is_Some (durable w !! n) -> is_Some (disk w !! n);
}.

(** Between operations only the log is behind; while one runs, the active
    segment may be as well. *)
Definition active_path (e : KVEngine) (n : str) : Prop := active_file e = Linked n.

Definition always (name : str) (s : KvState) : Prop :=
  db_name (eng s) = name /\ fsync_strategy (eng s) = FsAlways.

Definition clean (name : str) (s : KvState) : Prop :=
  always name s /\ synced (eq (wal_name name)) (world s).

Definition dirty (name : str) (s : KvState) : Prop :=
  always name s /\ synced (fun n => wal_name name = n \/ active_path (eng s) n) (world s).

Lemma synced_weaken (P Q : str -> Prop) w : (forall n, P n -> Q n) -> synced P w -> synced Q w.
Proof. intros H [H1 H2]. split; [|done]. intros n b Hn. apply H1. auto. Qed.

Lemma clean_dirty name s : clean name s -> dirty name s.
Proof. intros [H1 H2]. split; [done|]. eapply synced_weaken; [|exact H2]. auto. Qed.

Lemma synced_write (P : str -> Prop) w n b :
  synced P w -> P n \/ b = [] -> synced P (with_disk w (<[n := b]> (disk w))).
Proof.
  intros [H1 H2] Hn. split; cbn.
  - intros n' b' Hn'. destruct (decide (n = n')) as [->|].
    + rewrite lookup_insert_eq. intros [= <-]. destruct Hn; [done | by left].
    + rewrite lookup_insert_ne by done. by apply H1.
  - intros n' Hn'. destruct (decide (n = n')) as [->|]; [rewrite lookup_insert_eq; eauto|].
    rewrite lookup_insert_ne by done. auto.
Qed.

Lemma synced_sync (P : str -> Prop) w n :
  synced (fun n' => P n' \/ n' = n) w -> is_Some (disk w !! n) -> synced P (sync_file n w).1.
Proof.
  intros [H1 H2] [b Hb]. unfold sync_file, st_modify. rewrite Hb. split; cbn.
  - intros n' b' Hn' Hb'. destruct (decide (n' = n)) as [->|Hne].
    + right. rewrite lookup_insert_eq. congruence.
    + rewrite lookup_insert_ne by done. apply H1; [intros [?|?]; done | done].
  - intros n' Hn'. destruct (decide (n = n')) as [->|]; [eauto|]. rewrite lookup_insert_ne in Hn' by done. auto.
Qed.

(** ** Running *)

(** From a state with [P] the operation ends in one with [Q]; when it fails the
    state is clean. *)
Class Runs (name : str) {A} (P Q : KvState -> Prop) (m : ST KvState A) : Prop := runs s :
  P s -> match (m s).2 with Ok _ => Q (m s).1 | _ => clean name (m s).1 end.

Section Runs.
Context `{HO : HashOrder} `{CK : Clock} (name : str).

Lemma runs_bind {A B} P Q R (m : ST KvState A) (f : A -> ST KvState B) :
  Runs name P Q m -> (forall a, Runs name Q R (f a)) -> Runs name P R (st_bind m f).
Proof.
  intros Hm Hf s Hs. specialize (Hm s Hs). unfold st_bind.
  destruct (m s) as [s' [a| |]]; cbn in *; [by apply Hf | done | done].
Qed.

Lemma runs_ret {A} P (a : A) : Runs name P P (st_ret a).
Proof. by intros s. Qed.
Lemma runs_ask {A} P (f : KVEngine -> A) : Runs name P P (ask f).
Proof. by intros s. Qed.
Lemma runs_gets {A} P (f : KvState -> A) : Runs name P P (st_gets f).
Proof. by intros s. Qed.
Lemma runs_lift {A} (r : result A) : Runs name (clean name) (clean name) (st_lift r).
Proof. intros s Hs. by destruct r. Qed.

(** Changes of the engine other than of its name, strategy and active file. *)
Definition tame (f : KVEngine -> KVEngine) : Prop := forall e,
  db_name (f e) = db_name e /\ fsync_strategy (f e) = fsync_strategy e /\ active_file (f e) = active_file e.

Lemma runs_upd_clean f : tame f -> Runs name (clean name) (clean name) (upd f).
Proof.
  intros Hf s [[H1 H2] H3]. destruct (Hf (eng s)) as (E1 & E2 & _).
  split; [|done]. split; cbn; congruence.
Qed.
Lemma runs_upd_dirty f : tame f -> Runs name (dirty name) (dirty name) (upd f).
Proof.
  intros Hf s [[H1 H2] H3]. destruct (Hf (eng s)) as (E1 & E2 & E3). split; [split; cbn; congruence|].
  unfold active_path in *. cbn. by rewrite E3.
Qed.

(** What only reads the clock. *)
Lemma runs_clock {A} (m : ST World A) :
  (forall w, disk (m w).1 = disk w /\ durable (m w).1 = durable w) -> Runs name (clean name) (clean name) (on_world m).
Proof.
  intros Hm s [H1 [H2 H3]]. destruct (Hm (world s)) as [E1 E2]. unfold on_world.
  assert (Hc : clean name (mkKvState (eng s) (m (world s)).1)).
  { split; [exact H1|]. split; cbn; rewrite ?E1, ?E2; [exact H2 | exact H3]. }
  destruct (m (world s)) as [w' [a| |]]; exact Hc.
Qed.

Lemma runs_now : Runs name (clean name) (clean name) (on_world now_ms).
Proof. apply runs_clock. intros w. unfold now_ms, read_clock, st_bind. by destruct (_ <? _). Qed.
Lemma runs_new_segment n : Runs name (clean name) (clean name) (on_world (new_segment n)).
Proof. apply runs_clock. intros w. unfold new_segment, read_clock, st_bind. by destruct (_ <? _). Qed.

Lemma runs_create n : Runs name (clean name) (clean name) (on_world (open_create n)).
Proof.
  intros s [H1 H2]. unfold on_world, open_create, st_modify. cbn. split; [done|]. cbn.
  destruct (disk (world s) !! n); [done|]. apply synced_write; auto.
Qed.

(** ** Writing and syncing *)

Lemma runs_write_active b : Runs name (dirty name) (dirty name) (write_active b).
Proof.
  intros s [H1 H2]. unfold write_active. destruct (active_file (eng s)) as [n|] eqn:E; cbn.
  - split; [done|]. apply synced_write; [done|]. left. by right.
  - split; [done|]. eapply synced_weaken; [|exact H2]. unfold active_path. cbn. rewrite E.
    intros n [Hn|Hn]; [by left | done].
Qed.

Lemma runs_sync_active : Runs name (dirty name) (clean name) sync_active.
Proof.
  intros s [H1 H2]. unfold sync_active. destruct (active_file (eng s)) as [n|] eqn:E; cbn.
  - split; [done|]. cbn. unfold active_path in H2. rewrite E in H2. unfold sync_file, st_modify.
    assert (H2' : synced (fun n' => wal_name name = n' \/ n' = n) (world s)).
    { eapply synced_weaken; [|exact H2]. intros n' [?|[= ?]]; auto. }
    destruct (disk (world s) !! n) as [b|] eqn:Eb.
    + pose proof (synced_sync _ _ n H2') as H. unfold sync_file, st_modify in H. rewrite Eb in H. by apply H.
    + destruct H2' as [H3 H4]. split; [|done]. intros n' b Hn' Hb. apply H3; [|done].
      intros [?| ->]; [done | congruence].
  - split; [done|]. eapply synced_weaken; [|exact H2]. unfold active_path. rewrite E. by intros n [?|?].
Qed.

Lemma synced_wal w b :
  synced (eq (wal_name name)) w -> synced (eq (wal_name name)) (with_disk w (<[wal_name name := b]> (disk w))).
Proof. intros H. apply synced_write; auto. Qed.

Lemma runs_wal_append k v t e : Runs name (clean name) (clean name) (kv_wal_append k v t e).
Proof. intros s [[H1 H2] H3]. cbn. rewrite H1. split; [done|]. by apply synced_wal. Qed.
Lemma runs_wal_reset : Runs name (clean name) (clean name) kv_wal_reset.
Proof. intros s [[H1 H2] H3]. cbn. rewrite H1. split; [done|]. by apply synced_wal. Qed.

(** Making another file the active one. *)
Lemma runs_set_active h fh seg : Runs name (clean name) (clean name) (upd (fun e => set_active h (fh e) seg e)).
Proof. by intros s [[H1 H2] H3]. Qed.

Lemma runs_pre {A} P P' Q (m : ST KvState A) : (forall s, P s -> P' s) -> Runs name P' Q m -> Runs name P Q m.
Proof. intros H Hm s Hs. apply Hm. auto. Qed.

(** ** The operations *)

Ltac runs_step := first
  [ apply runs_ret | apply runs_ask | apply runs_gets | apply runs_lift | apply runs_now
  | apply runs_new_segment | apply runs_create | apply runs_wal_append | apply runs_wal_reset
  | apply runs_set_active | by apply runs_upd_clean | by apply runs_upd_dirty
  | apply runs_write_active | apply runs_sync_active ].

Lemma runs_roll : Runs name (clean name) (clean name) roll_active.
Proof.
  unfold roll_active. eapply runs_bind; [eapply runs_pre; [apply clean_dirty | runs_step] | intros].
  eapply runs_bind; [by apply runs_upd_clean | intros].
  repeat (eapply runs_bind; [runs_step | intros]). by apply runs_upd_clean.
Qed.

Lemma runs_append k v e : Runs name (clean name) (dirty name) (kv_append k v e).
Proof.
  rewrite kv_append_unfold. do 3 (eapply runs_bind; [runs_step | intros]).
  eapply runs_bind; [case_match; [apply runs_roll | runs_step] | intros].
  apply (runs_pre _ (dirty name)); [apply clean_dirty|]. unfold append_indexed, append, hi_set.
  repeat (eapply runs_bind; [runs_step | intros]). runs_step.
Qed.

Lemma runs_fsync : Runs name (dirty name) (clean name) fsync.
Proof.
  intros s Hs. unfold fsync. cbn -[sync_active]. destruct Hs as [[H1 H2] H3]. rewrite H2.
  by apply (runs_sync_active (mkKvState _ _)).
Qed.

Lemma runs_finish dead total : Runs name (dirty name) (clean name) (let* _ := add_counters dead total in fsync).
Proof. eapply runs_bind; [by apply runs_upd_dirty | intros; apply runs_fsync]. Qed.

Lemma runs_set k v e : Runs name (clean name) (clean name) (set_with_ttl k v e).
Proof.
  unfold set_with_ttl. case_match; [runs_step|].
  eapply runs_bind; [apply runs_append | intros [??]]. apply runs_finish.
Qed.

Lemma runs_delete k : Runs name (clean name) (clean name) (kv_delete k).
Proof.
  unfold kv_delete. case_match; [runs_step|]. do 2 (eapply runs_bind; [runs_step | intros]).
  unfold hi_delete. eapply runs_bind; [runs_step | intros]. case_match; [|runs_step].
  apply (runs_pre _ (dirty name)); [apply clean_dirty|].
  do 2 (eapply runs_bind; [runs_step | intros]). eapply runs_bind; [apply runs_fsync | intros].
  eapply runs_bind; [by apply runs_upd_clean | intros; runs_step].
Qed.

Lemma runs_get k : Runs name (clean name) (clean name) (get k).
Proof. unfold get. repeat (eapply runs_bind; [runs_step | intros]). runs_step. Qed.

Lemma runs_ttl k e : Runs name (clean name) (clean name) (ttl k e).
Proof.
  unfold ttl. repeat (eapply runs_bind; [runs_step | intros]). case_match; [|runs_step].
  eapply runs_bind; [apply runs_append | intros [??]].
  eapply runs_bind; [by apply runs_upd_dirty | intros]. eapply runs_bind; [apply runs_fsync | intros; runs_step].
Qed.

Lemma runs_exists k : Runs name (clean name) (clean name) (exists_key k).
Proof.
  unfold exists_key. eapply runs_bind; [runs_step | intros]. repeat case_match; try runs_step.
  eapply runs_bind; [runs_step | intros; runs_step].
Qed.

Lemma runs_mget ks : Runs name (clean name) (clean name) (mget ks).
Proof.
  induction ks as [|k ks IH]; cbn [mget]; [runs_step|].
  eapply runs_bind; [apply runs_get | intros]. eapply runs_bind; [exact IH | intros; runs_step].
Qed.

Lemma runs_mset items : Runs name (clean name) (clean name) (mset_with_ttl items).
Proof.
  unfold mset_with_ttl. induction items as [|[[k v] e] items IH]; cbn [st_iter]; [runs_step|].
  eapply runs_bind; [apply runs_set | intros; exact IH].
Qed.

Lemma runs_list : Runs name (clean name) (clean name) list_keys.
Proof. unfold list_keys. repeat (eapply runs_bind; [runs_step | intros]). runs_step. Qed.

Lemma run_op_clean op s : op <> KCompact -> clean name s -> clean name (run_op op s).1.
Proof.
  intros Hop Hs.
  assert (Hr : Runs name (clean name) (clean name) (run_op op)).
  { destruct op; cbn [run_op]; unfold st_map; try done;
      (eapply runs_bind; [|intros; runs_step]); auto using runs_get, runs_set, runs_mset, runs_delete,
        runs_ttl, runs_exists, runs_mget, runs_list. }
  specialize (Hr s Hs). by destruct (run_op op s) as [s' [a| |]].
Qed.

Lemma run_ops_clean ops : forall s,
  Forall (fun op => op <> KCompact) ops -> clean name s -> clean name (run_ops ops s).1.
Proof.
  induction ops as [|op ops IH]; intros s Hops Hs; [done|]. apply Forall_cons in Hops as [Hop Hops].
  cbn [run_ops]. pose proof (run_op_clean op s Hop Hs) as H1. destruct (run_op op s) as [s1 r].
  specialize (IH s1 Hops H1). by destruct (run_ops ops s1).
Qed.
End Runs.

(** ** The directory that survives *)

(** A prefix of the log is the log of the first writes and a torn record. *)
Lemma prefix_log ops : forall b,
  b `prefix_of` log_bytes ops -> Forall wal_op_ok ops ->
  exists j tail, b = log_bytes (take j ops) ++ tail /\ stops tail.
Proof.
  induction ops as [|o ops IH]; intros b Hb Hok.
  { apply prefix_nil_inv in Hb as ->. exists 0%nat, []. split; [done | by left]. }
  apply Forall_cons in Hok as [Ho Hok].
  change (log_bytes (o :: ops)) with (to_be_bytes (wal_record o) ++ log_bytes ops) in Hb.
  set (r := to_be_bytes (wal_record o)) in *. destruct Hb as [rest Hb].
  destruct (decide (length b < length r)%nat) as [Hl|Hl].
  - exists 0%nat, b. split; [done|]. right. left.
    apply (read_next_torn (wal_record o) b (drop (length b) r)); [by apply make_record_wf | |].
    + assert (Hb' : b = take (length b) r).
      { rewrite <- (take_app_le r (log_bytes ops)) by lia. rewrite Hb. by rewrite take_app_length. }
      rewrite Hb' at 1. symmetry. apply take_drop.
    + intros E. apply (f_equal length) in E. rewrite length_drop in E. cbn in E. lia.
  - assert (Hb' : b = r ++ drop (length r) b).
    { rewrite <- (take_drop (length r) b) at 1. f_equal.
      rewrite <- (take_app_le b rest) by lia. rewrite <- Hb. by rewrite take_app_length. }
    destruct (IH (drop (length r) b)) as (j & tail & E & Hs); [|done|].
    + exists rest. rewrite Hb', <- app_assoc in Hb. by apply app_inv_head in Hb.
    + exists (S j), tail. split; [|done]. rewrite Hb', E. cbn. by rewrite <- app_assoc.
Qed.

Section Survive.
Context (name : str) (w : World) (d : files) (Hsy : synced (eq (wal_name name)) w)
  (Hsv : survives (wal_name name) w d) (Hen : entries_survive w d).

Lemma survivor n b :
  n <> wal_name name -> d !! n = Some b -> exists b0, disk w !! n = Some b0 /\ b `prefix_of` b0.
Proof.
  intros Hn Hb. pose proof (proj1 Hsv n b) as H. rewrite lookup_delete_ne in H by done. specialize (H Hb).
  unfold survivor_ok in H. destruct (disk w !! n) as [b0|] eqn:E; [by exists b0|].
  destruct (sy_dom _ _ Hsy n) as [? ?]; [eauto | congruence].
Qed.

Lemma synced_survives n b : n <> wal_name name -> disk w !! n = Some b -> b <> [] -> d !! n = Some b.
Proof.
  intros Hn Hb Hne. destruct (sy_files _ _ Hsy n b) as [?|Hd]; [by intros ?| done | done |].
  pose proof (proj2 Hsv n b) as Hp. rewrite lookup_delete_ne in Hp by done. specialize (Hp Hd).
  unfold durable_kept in Hp. rewrite Hb in Hp.
  destruct (Hen n b Hd) as [b' Hb']; [by rewrite Hb|]. rewrite Hb' in *. f_equal.
  destruct (survivor n b' Hn Hb') as (b0 & Hb0 & Hp0). rewrite Hb in Hb0. injection Hb0 as <-.
  by apply (anti_symm prefix).
Qed.

(** The segments that are still there. *)
Definition kept_log (l : list (Z * list Rec)) : list (Z * list Rec) :=
  filter (fun p => is_Some (d !! filename (mkSegment name p.1))) l.

Lemma kept_forall (P : Z * list Rec -> Prop) l : Forall P l -> Forall P (kept_log l).
Proof.
  intros H. rewrite Forall_forall in H. apply Forall_forall. intros p [_ Hp]%list_elem_of_filter. by apply H.
Qed.

Lemma dropped_empty l ts rs :
  log_on_disk name (disk w) l -> (ts, rs) ∈ l -> d !! filename (mkSegment name ts) = None -> rs = [].
Proof.
  intros Hl Hin Hn. pose proof (lod_files _ _ _ Hl _ _ Hin) as Hf. destruct rs as [|r rs]; [done|].
  rewrite (synced_survives _ _ (filename_ne_wal _ _) Hf) in Hn; [done|].
  unfold recs_bytes. cbn. intros [E _]%app_nil. by apply to_be_bytes_nonempty in E.
Qed.

Lemma kept_log_map l : log_on_disk name (disk w) l -> log_map (kept_log l) = log_map l.
Proof.
  intros Hl. unfold log_map.
  assert (Hd : forall p, p ∈ l -> d !! filename (mkSegment name p.1) = None -> p.2 = [])
    by (intros [ts rs] Hin; by eapply dropped_empty).
  clear Hl. generalize (∅ : kvmap). induction l as [|p l IH]; intros m; [done|].
  unfold kept_log. rewrite filter_cons. fold (kept_log l). destruct (decide _) as [Hs|Hs]; cbn [fold_left].
  - apply IH. intros q Hq. apply Hd. by right.
  - rewrite IH by (intros q Hq; apply Hd; by right). f_equal.
    rewrite (Hd p) by (by left || by apply eq_None_not_Some). done.
Qed.

Lemma kept_log_on_disk l : log_on_disk name (disk w) l -> log_on_disk name d (kept_log l).
Proof.
  intros Hl. pose proof Hl as [H1 H2 H3 H4 H5]. split.
  - by apply kept_forall.
  - by apply kept_forall.
  - clear -H3. induction l as [|p l IH]; [constructor|]. cbn in H3. apply StronglySorted_inv in H3 as [H3 Hf].
    unfold kept_log. rewrite filter_cons. fold (kept_log l).
    case_decide; [|by apply IH]. rewrite fmap_cons. constructor; [by apply IH|].
    apply Forall_fmap, kept_forall. by apply (Forall_fmap fst (Z.lt p.1) l) in Hf.
  - intros ts rs [[b Hb] Hin]%list_elem_of_filter. cbn [fst] in Hb. rewrite Hb.
    destruct (survivor _ _ (filename_ne_wal _ _) Hb) as (b0 & Hb0 & Hp). rewrite (H4 _ _ Hin) in Hb0. injection Hb0 as <-.
    destruct rs as [|r rs]; [by apply prefix_nil_inv in Hp as ->|].
    rewrite <- Hb. apply synced_survives; [apply filename_ne_wal | by apply H4 |].
    unfold recs_bytes. cbn. intros [E _]%app_nil. by apply to_be_bytes_nonempty in E.
  - intros n s [b Hb] Hn. assert (Hnw : n <> wal_name name) by (intros ->; by rewrite db_segment_wal in Hn).
    destruct (survivor n b Hnw Hb) as (b0 & Hb0 & _).
    destruct (H5 n s) as [-> Hin]; [eauto | done |]. split; [done|].
    apply list_elem_of_fmap in Hin as ([ts rs] & E & Hin). cbn in E. apply list_elem_of_fmap.
    exists (ts, rs). split; [done|]. apply list_elem_of_filter. split; [|done]. cbn [fst].
    rewrite <- E, <- (db_segment_name _ _ _ Hn). eauto.
Qed.

Lemma survives_no_hints : no_hints (disk w) -> no_hints d.
Proof.
  intros Hh s. destruct (d !! hint_filename s) as [b|] eqn:E; [|done].
  destruct (survivor _ _ (hint_ne_wal _ _) E) as (b0 & Hb0 & _). by rewrite Hh in Hb0.
Qed.
End Survive.

(** ** The theorems *)

Section Theorems.
Context `{HO : HashOrder} `{CK : Clock} (N : nat) `{GC : !GoodClock N}.

(** The operations, their answers and the state they reach. *)
Lemma new_clean max w e :
  forall name, kv_new name max FsAlways empty_world = (w, Ok e) -> clean name (mkKvState e w).
Proof.
  intros name. unfold kv_new, new_segment, read_clock, st_bind. destruct (_ <? _); [done|].
  unfold st_ret, open_create, st_modify. cbn [disk empty_world with_disk].
  rewrite lookup_empty. rewrite wal_open_run. intros [= <- <-]. split; [done|]. cbn [world].
  apply synced_wal, synced_write; [|by right]. split; cbn.
  - intros n b _. by rewrite lookup_empty.
  - intros n [b Hb]. by rewrite lookup_empty in Hb.
Qed.

End Theorems.

(** ** Examples *)

#[local] Existing Instances example_clock example_order.

Definition always_state : KvState := state_or (opened (bs "db") 1000 FsAlways).

(** The state after the operations, and its directory with the log cut. *)
Definition after (ops : list kv_op) : KvState := (run_ops ops always_state).1.
Definition cut_log (n : nat) (s : KvState) : files := alter (take n) (wal_name (bs "db")) (disk (world s)).

Definition overwrite : list kv_op := [KSet (bs "a") (bs "1") None; KSet (bs "a") (bs "2") None].


(** Reopening the directory and reading a key. *)
Definition reopened_get (k : str) (w : World) : result (option (str * str)) :=
  match from_dir (bs "db") 1000 FsAlways w with
  | (w', Ok (Some e)) => (get k (mkKvState e w')).2
  | (_, Ok None) => Ok None
  | (_, Err e) => Err e
  | (_, Panic) => Panic
  end.

(** An acknowledged and synced write can be undone. The log is not synced: when
    its last record does not reach the device, reopening applies the older
    write that did over the newer one in the segment. *)
Theorem power_loss_reverts_synced_write :
  let s := after overwrite in
  let d := cut_log 23 s in
  (run_ops overwrite always_state).2 = [Ok OutUnit; Ok OutUnit] /\ survives (wal_name (bs "db")) (world s) d /\ entries_survive (world s) d /\
  (get (bs "a") s).2 = Ok (Some (bs "a", bs "2")) /\
  reopened_get (bs "a") (mkWorld d d (ticks (world s))) = Ok (Some (bs "a", bs "1")).
Proof.
  cbn zeta. split; [|split; [|split; [|split]]];
    [| apply (bool_decide_eq_true_1 (survives _ _ _)) | apply (bool_decide_eq_true_1 (entries_survive _ _)) | |];
    vm_compute; reflexivity.
Qed.
