(* ===== verification/Sstable.v ===== *)
(** * Sorted string tables (src/src/sstable.rs)

    A table is written once, from a memtable, as a sequence of blocks; it is
    read by scanning from the block the sparse index points to. The directory
    is a finite map from file names to contents. *)

From S2P Require Import Prelude Utils Utf8 Crc Bloom Collections Text Record Memtable Lz77 Block.

Definition BLOOM_BITS_PER_KEY : Z := 10.
Definition BLOOM_HASH_COUNT : Z := 7.

Record SSTable := mkSSTable {
  path : str;
  sst_timestamp : Z;
  name : str;
  level : option Z;
  sparse_index : list (str * Z);
  bloom : BloomFilter;
  sst_min : option (str * Z);
  sst_max : option (str * Z)
}.

(** ** The iterator *)

(** [file] is what remains of the file after the blocks read so far. *)
Record SSTableIter := mkIter {
  it_file : bytes;
  current_block : bytes;
  block_pos : nat;
  done_flag : bool
}.

(** The [loop] of [next]. A turn that does not return reads the nine bytes of
    a block header, so a turn per byte of the file is enough. *)
Fixpoint next_loop (fuel : nat) (it : SSTableIter) : option (result Rec) * SSTableIter :=
  match fuel with
  | O => (Some Panic, it)
  | S fuel' =>
      let stop r := (r, mkIter (it_file it) (current_block it) (block_pos it) true) in
      let next_block :=
        match read_exact 9 (it_file it) with
        | Err UnexpectedEof => stop None
        | Err e => stop (Some (Err e))
        | Panic => stop (Some Panic)
        | Ok (header_bytes, file1) =>
            match read_block (header_from_bytes header_bytes) file1 with
            | Ok (data, file2) => next_loop fuel' (mkIter file2 data 0 false)
            | Err e => stop (Some (Err e))
            | Panic => stop (Some Panic)
            end
        end in
      if (block_pos it <? length (current_block it))%nat then
        let slice := drop (block_pos it) (current_block it) in
        match read_next slice with
        | Ok (record, slice') =>
            (Some (Ok record),
             mkIter (it_file it) (current_block it)
               (block_pos it + (length slice - length slice')) false)
        | Err UnexpectedEof => next_block
        | Err e => stop (Some (Err e))
        | Panic => stop (Some Panic)
        end
      else next_block
  end.

Definition next (it : SSTableIter) : option (result Rec) * SSTableIter :=
  if done_flag it then (None, it) else next_loop (S (length (it_file it))) it.

Definition iter_from (file : bytes) (offset : Z) : SSTableIter :=
  mkIter (drop (Z.to_nat offset) file) [] 0 false.

(** [SSTable::iter]. *)
Definition sst_iter (file : bytes) : SSTableIter := iter_from file 0.

(** The sequence of items an iterator yields, computed block by block: the
    records of a block, stopping with [false] after an error. *)
Fixpoint block_items (fuel : nat) (slice : bytes) : list (result Rec) * bool :=
  match slice with
  | [] => ([], true)
  | _ :: _ =>
      match fuel with
      | O => ([Panic], false)
      | S fuel' =>
          match read_next slice with
          | Ok (r, slice') => let p := block_items fuel' slice' in (Ok r :: p.1, p.2)
          | Err UnexpectedEof => ([], true)
          | Err e => ([Err e], false)
          | Panic => ([Panic], false)
          end
      end
  end.

Fixpoint file_items (fuel : nat) (file : bytes) : list (result Rec) :=
  match fuel with
  | O => [Panic]
  | S fuel' =>
      match read_exact 9 file with
      | Err UnexpectedEof => []
      | Err e => [Err e]
      | Panic => [Panic]
      | Ok (header_bytes, file1) =>
          match read_block (header_from_bytes header_bytes) file1 with
          | Ok (data, file2) =>
              let p := block_items (length data) data in
              if p.2 then p.1 ++ file_items fuel' file2 else p.1
          | Err e => [Err e]
          | Panic => [Panic]
          end
      end
  end.

Definition sst_items (file : bytes) : list (result Rec) := file_items (S (length file)) file.

(** ** Writing a table *)

Definition sst_filename (name : str) (level : option Z) (ts : Z) : str :=
  match level with
  | Some l => name ++ bs "_L" ++ dec l ++ bs "_" ++ dec ts ++ bs ".sst"
  | None => name ++ bs "_" ++ dec ts ++ bs ".sst"
  end.

(** The record of a memtable entry: a tombstone has an empty value. *)
Definition entry_record (p : str * MemtableEntry) : Rec :=
  match mvalue p.2 with
  | Some v => make_record p.1 v false (mexpiry p.2)
  | None => make_record p.1 [] true (mexpiry p.2)
  end.

(** The loop state of [from_memtable]. [b_offset] is an offset in a file, which
    the operating system keeps far below the range of [u64]. *)
Record BuildState := mkBuild {
  b_sparse : list (str * Z);
  b_bloom : BloomFilter;
  b_last : option str;
  b_writer : BlockWriter;
  b_file : bytes;
  b_offset : Z;
  b_first : option str
}.

Definition build_step (b : BuildState) (p : str * MemtableEntry) : result BuildState :=
  let key := p.1 in
  let first := match b_first b with None => Some key | f => f end in
  let record := entry_record p in
  let? bloom := bloom_insert (b_bloom b) key in
  let? fw := add_record (b_writer b) record in
  match fw.1 with
  | Some block_bytes =>
      match first with
      | None => Panic
      | Some fk =>
          Ok (mkBuild (b_sparse b ++ [(fk, b_offset b)]) bloom (Some key) fw.2
                (b_file b ++ block_bytes) (b_offset b + len block_bytes) (Some key))
      end
  | None => Ok (mkBuild (b_sparse b) bloom (Some key) fw.2 (b_file b) (b_offset b) first)
  end.

(** [partition_point] on an index sorted by key: the number of entries whose
    key is at most [k]. *)
Fixpoint partition_point (k : str) (index : list (str * Z)) : nat :=
  match index with
  | [] => O
  | (sk, _) :: index' => if str_leb sk k then S (partition_point k index') else O
  end.

(** The offset of the last block whose first key is at most [k], or the start
    of the file: [get_offset], and the computation of [max]. *)
Definition index_offset (k : str) (index : list (str * Z)) : Z :=
  match partition_point k index with
  | O => 0
  | S pos => match index !! pos with Some p => p.2 | None => 0 end
  end.

Definition bloom_bytes (key_count : Z) : Z := (key_count * BLOOM_BITS_PER_KEY + 7) / 8.

(** [now_ns] is the reading of the clock, in nanoseconds since the epoch: one
    before it is an error. *)
Definition from_memtable (disk : files) (now_ns : Z) (nm : str) (m : Memtable)
    (lvl : option Z) (target : Z) (compression : bool) : result (SSTable * files) :=
  let ts := wrap64 now_ns in
  let p := sst_filename nm lvl ts in
  if now_ns <? 0 then Err Other
  else match disk !! p with
  | Some _ => Err AlreadyExists
  | None =>
      let bloom0 := bloom_new (Z.max (bloom_bytes (len (entries m))) 1) BLOOM_HASH_COUNT in
      let b0 := mkBuild [] bloom0 None (writer_new target compression) [] 0 None in
      let? b := rfold build_step b0 (entries m) in
      let? fl := flush (b_writer b) in
      let b' :=
        match fl.1 with
        | Some block_bytes =>
            (match b_first b with
             | Some key => b_sparse b ++ [(key, b_offset b)]
             | None => b_sparse b
             end, b_file b ++ block_bytes)
        | None => (b_sparse b, b_file b)
        end in
      Ok (mkSSTable p ts nm lvl b'.1 (b_bloom b) (head b'.1)
            (match b_last b with
             | Some k => Some (k, index_offset k b'.1)
             | None => None
             end),
          <[p := b'.2]> disk)
  end.

(** ** Reading a table *)

Definition get_offset (t : SSTable) (k : str) : Z := index_offset k (sparse_index t).

(** The [for] loop of [get] over the items of the iterator. *)
Fixpoint get_loop (items : list (result Rec)) (k : str) (now_ms : Z)
    : result (option (option str)) :=
  match items with
  | [] => Ok None
  | Err e :: _ => Err e
  | Panic :: _ => Panic
  | Ok record :: items' =>
      match str_compare (key record) k with
      | Gt => Ok None
      | Eq =>
          Ok (Some (if is_tombstone (header record) then None
                    else if expired (expiry_ms (header record)) now_ms then None
                    else Some (value record)))
      | Lt => get_loop items' k now_ms
      end
  end.

Definition sst_get (disk : files) (t : SSTable) (k : str) (now_ms : Z)
    : result (option (option str)) :=
  let? hit := might_contain (bloom t) k in
  if hit then
    match disk !! path t with
    | None => Err NotFound
    | Some file => get_loop (sst_items (drop (Z.to_nat (get_offset t k)) file)) k now_ms
    end
  else Ok None.

Definition sst_parse (filename : str) : option SSTable :=
  match strip_suffix (bs ".sst") filename with
  | None => None
  | Some stem =>
      match rsplit_once (bs "_") stem with
      | None => None
      | Some (name_and_maybe_level, ts) =>
          match parse_uint 64 ts with
          | None => None
          | Some t =>
              let nl :=
                match rsplit_once (bs "_L") name_and_maybe_level with
                | Some (n, l) =>
                    match parse_uint 64 l with
                    | Some lvl => (n, Some lvl)
                    | None => (name_and_maybe_level, None)
                    end
                | None => (name_and_maybe_level, None)
                end in
              Some (mkSSTable [] t nl.1 nl.2 [] (bloom_new 1 BLOOM_HASH_COUNT) None None)
          end
      end
  end.

(** The inner loop of [rebuild_index]: the keys of a block. *)
Fixpoint block_keys (fuel : nat) (slice : bytes) : result (list str) :=
  match fuel with
  | O => Panic
  | S fuel' =>
      match read_next slice with
      | Ok (r, slice') => let? ks := block_keys fuel' slice' in Ok (key r :: ks)
      | Err UnexpectedEof => Ok []
      | Err e => Err e
      | Panic => Panic
      end
  end.

(** The outer loop: sparse index and keys from the block at [offset] on. *)
Fixpoint rebuild_loop (fuel : nat) (file : bytes) (offset : Z)
    : result (list (str * Z) * list str) :=
  match fuel with
  | O => Panic
  | S fuel' =>
      match read_exact 9 file with
      | Err UnexpectedEof => Ok ([], [])
      | Err e => Err e
      | Panic => Panic
      | Ok (header_buf, file1) =>
          let? dr := read_block (header_from_bytes header_buf) file1 in
          let? ks := block_keys (S (length dr.1)) dr.1 in
          let? rest := rebuild_loop fuel' dr.2 (offset + (len file - len dr.2)) in
          Ok (match head ks with
              | Some k => (k, offset) :: rest.1
              | None => rest.1
              end, ks ++ rest.2)
      end
  end.

Definition rebuild_index (disk : files) (t : SSTable) : result SSTable :=
  match disk !! path t with
  | None => Err NotFound
  | Some file =>
      let? sk := rebuild_loop (S (length file)) file 0 in
      let? b := bloom_insert_all
                  (bloom_new (Z.max (bloom_bytes (len sk.2)) 1) BLOOM_HASH_COUNT) sk.2 in
      Ok (mkSSTable (path t) (sst_timestamp t) (name t) (level t) sk.1 b (head sk.1)
            (match last sk.2 with
             | Some k => Some (k, index_offset k sk.1)
             | None => None
             end))
  end.

Definition sst_size_on_disk (disk : files) (t : SSTable) : result Z :=
  match disk !! path t with Some file => Ok (len file) | None => Err NotFound end.

(** ** Lemmas: the iterator yields [sst_items] *)

Lemma read_block_shorter h l d k : read_block h l = Ok (d, k) -> (length k <= length l)%nat.
Proof.
  intros H. destruct (exact_read_block h _ _ _ H) as (c & -> & _). rewrite length_app. lia.
Qed.

Lemma read_9_shorter l b k : read_exact 9 l = Ok (b, k) -> (length k + 9 = length l)%nat.
Proof. intros H. apply read_exact_Ok in H as [-> H]. unfold len in H. rewrite length_app. lia. Qed.

Lemma read_next_shorter l r k : read_next l = Ok (r, k) -> (length k < length l)%nat.
Proof.
  intros H. destruct (exact_read_next _ _ _ H) as (c & -> & Hc & _).
  destruct c as [|b c]; [|rewrite length_app; simpl; lia].
  specialize (Hc []). by vm_compute in Hc.
Qed.

Lemma file_items_fuel fuel file :
  (length file < fuel)%nat -> file_items fuel file = sst_items file.
Proof.
  unfold sst_items. revert file. induction fuel as [|fuel IH]; intros file Hf; [lia|].
  cbn [file_items]. destruct (read_exact 9 file) as [[b f1]|[]|] eqn:E; try done.
  destruct (read_block _ f1) as [[d f2]| |] eqn:E2; try done.
  apply read_9_shorter in E. apply read_block_shorter in E2.
  case_match; [|done]. rewrite IH by lia.
  destruct (length file) as [|n] eqn:El; [lia|]. f_equal.
  assert (Hn : forall n m g, (length g < n)%nat -> (length g < m)%nat ->
                             file_items n g = file_items m g); [|apply Hn; lia].
  clear. induction n as [|n IHn]; intros m g H1 H2; [lia|]. destruct m as [|m]; [lia|].
  cbn [file_items]. destruct (read_exact 9 g) as [[b f1]|[]|] eqn:E; try done.
  destruct (read_block _ f1) as [[d f2]| |] eqn:E2; try done.
  apply read_9_shorter in E. apply read_block_shorter in E2.
  case_match; [|done]. f_equal. apply IHn; lia.
Qed.

Lemma block_items_fuel n m l :
  (length l <= n)%nat -> (length l <= m)%nat -> block_items n l = block_items m l.
Proof.
  revert m l. induction n as [|n IH]; intros m [|b l] Hn Hm;
    try (simpl in *; lia); try (by destruct m).
  destruct m as [|m]; [simpl in *; lia|].
  cbn [block_items]. destruct (read_next (b :: l)) as [[r k]|[]|] eqn:E; try done.
  apply read_next_shorter in E. simpl in *. by rewrite (IH m k) by lia.
Qed.

(** What an iterator has left to yield. *)
Definition it_items (it : SSTableIter) : list (result Rec) :=
  if done_flag it then [] else
  let slice := drop (block_pos it) (current_block it) in
  let p := block_items (length slice) slice in
  if p.2 then p.1 ++ sst_items (it_file it) else p.1.

Definition yields (o : option (result Rec)) (it' : SSTableIter) (l : list (result Rec)) : Prop :=
  match l with
  | [] => o = None /\ it_items it' = []
  | x :: xs => o = Some x /\ it_items it' = xs
  end.

Lemma next_loop_items fuel it :
  (length (it_file it) < fuel)%nat -> done_flag it = false ->
  yields (next_loop fuel it).1 (next_loop fuel it).2 (it_items it).
Proof.
  revert it. induction fuel as [|fuel IH]; intros [file blk pos dn] Hf Hdn; [lia|].
  cbn [it_file current_block block_pos done_flag] in *. subst dn.
  cbn [next_loop it_file current_block block_pos].
  unfold it_items at 1. cbn [done_flag it_file current_block block_pos].
  (* the rest of the file, once the current block yields nothing more *)
  assert (Hrest : forall (r := match read_exact 9 file with
      | Err UnexpectedEof => (None, mkIter file blk pos true)
      | Err e => (Some (Err e), mkIter file blk pos true)
      | Panic => (Some Panic, mkIter file blk pos true)
      | Ok (header_bytes, file1) =>
          match read_block (header_from_bytes header_bytes) file1 with
          | Ok (data, file2) => next_loop fuel (mkIter file2 data 0 false)
          | Err e => (Some (Err e), mkIter file blk pos true)
          | Panic => (Some Panic, mkIter file blk pos true)
          end
      end), yields r.1 r.2 (sst_items file)).
  { cbv zeta. rewrite <- (file_items_fuel (S fuel)) by lia. cbn [file_items].
    destruct (read_exact 9 file) as [[b f1]|[]|] eqn:E; try done.
    destruct (read_block _ f1) as [[d f2]| |] eqn:E2; try done.
    apply read_9_shorter in E. apply read_block_shorter in E2.
    specialize (IH (mkIter f2 d 0 false)). cbn [it_file done_flag] in IH.
    specialize (IH ltac:(lia) eq_refl). unfold it_items in IH at 1.
    cbn [done_flag it_file current_block block_pos] in IH.
    change (drop 0 d) with d in IH. by rewrite file_items_fuel by lia. }
  destruct (Nat.ltb_spec pos (length blk)) as [Hlt|Hge].
  2:{ rewrite drop_ge by lia. simpl block_items. cbn [fst snd app]. exact Hrest. }
  assert (Hl : (0 < length (drop pos blk))%nat) by (rewrite length_drop; lia).
  destruct (drop pos blk) as [|b slice] eqn:Es; [simpl in Hl; lia|].
  destruct (read_next (b :: slice)) as [[r k]|e|] eqn:E.
  - assert (Hk : k = drop (pos + (length (b :: slice) - length k)) blk).
    { destruct (exact_read_next _ _ _ E) as (c & Hc & _ & _).
      rewrite Hc, length_app. replace (length c + length k - length k)%nat with (length c) by lia.
      rewrite <- drop_drop, Es, Hc. by rewrite drop_app_length. }
    pose proof (read_next_shorter _ _ _ E) as Hsh.
    cbn [block_items length]. rewrite E. cbn [fst snd].
    rewrite (block_items_fuel (length slice) (length k)) by (simpl in Hsh; lia).
    cbn [length] in Hk. unfold it_items.
    destruct (block_items (length k) k) as [its go] eqn:Hbi. cbn [fst snd].
    destruct go; cbn [app yields]; (split; [done|]);
      unfold it_items; cbn [done_flag it_file current_block block_pos];
      by rewrite <- Hk, Hbi.
  - cbn [block_items length]. rewrite E. by destruct e.
  - cbn [block_items length]. by rewrite E.
Qed.

Lemma next_items it : yields (next it).1 (next it).2 (it_items it).
Proof.
  unfold next. destruct (done_flag it) eqn:E.
  - unfold it_items. rewrite E. simpl. unfold it_items. by rewrite E.
  - apply next_loop_items; [lia | done].
Qed.

(** Pulling [n] items. *)
Fixpoint pull (n : nat) (it : SSTableIter) : list (option (result Rec)) :=
  match n with
  | O => []
  | S n' => let p := next it in p.1 :: pull n' p.2
  end.

Lemma pull_items n it :
  pull n it = take n ((Some <$> it_items it) ++ replicate n None).
Proof.
  revert it. induction n as [|n IH]; intros it; [done|]. cbn [pull].
  pose proof (next_items it) as H. unfold yields in H.
  destruct (it_items it) as [|x xs] eqn:E; destruct H as [-> H]; rewrite IH, H; [done|].
  cbn [fmap list_fmap app take]. f_equal.
  rewrite !take_app. f_equal.
  rewrite !take_replicate. f_equal. lia.
Qed.
