(* ===== verification/SstableSpec.v ===== *)
(** * SSTables: what a table holds

    The layout [from_memtable] writes, and the theorems on reading it back:
    by scanning, by key, and after [rebuild_index]. *)

From S2P Require Import Prelude Utils Utf8 Crc Bloom Collections Text Record Memtable Lz77 Block Sstable.

Definition entry_ok (p : str * MemtableEntry) : Prop :=
  kv_ok p.1 (default [] (mvalue p.2)) (mexpiry p.2).

(** The largest block: the target size, or one record when it is larger. *)
Definition block_max (target : Z) : Z :=
  Z.max target (RECORD_HEADER_LEN + TTL_LEN + MAX_KEY_SIZE + MAX_VALUE_SIZE).

Record params_ok (target : Z) : Prop := { target_fits : 2 * block_max target < 2 ^ 32 }.

(** [laid_out c gs off file idx]: [file] is the sequence of the blocks of the
    groups of records [gs], [idx] maps the first key of each to its offset,
    the first block being at [off]. *)
Inductive laid_out (c : bool) : list (list Rec) -> Z -> bytes -> list (str * Z) -> Prop :=
  | laid_nil off : laid_out c [] off [] []
  | laid_cons r g gs off b file idx :
      Forall rec_wf (r :: g) -> block_fits (recs_bytes (r :: g)) ->
      seal_block c (recs_bytes (r :: g)) = Ok b ->
      laid_out c gs (off + len b) file idx ->
      laid_out c ((r :: g) :: gs) off (b ++ file) ((key r, off) :: idx).

(** ** Lemmas *)

Lemma recs_bytes_nil_inv rs : recs_bytes rs = [] -> rs = [].
Proof. destruct rs; [done|]. unfold recs_bytes. simpl. done. Qed.

Lemma recs_bytes_one r : recs_bytes [r] = to_be_bytes r.
Proof. unfold recs_bytes. simpl. by rewrite app_nil_r. Qed.

Lemma len_rec_max r : rec_wf r -> len (to_be_bytes r) <= block_max 0.
Proof.
  intros [_ _ Hk Hv _ _ _ _ _]. rewrite len_to_be_bytes. unfold block_max.
  pose proof (expiry_len_range (expiry_ms (header r))). unfold TTL_LEN. lia.
Qed.

Lemma laid_app c gs1 gs2 off f1 f2 i1 i2 :
  laid_out c gs1 off f1 i1 -> laid_out c gs2 (off + len f1) f2 i2 ->
  laid_out c (gs1 ++ gs2) off (f1 ++ f2) (i1 ++ i2).
Proof.
  induction 1 as [off|r g gs off b file idx Hwf Hfit Hs Hl IH]; intros H2.
  - by rewrite len_nil, Z.add_0_r in H2.
  - rewrite <- app_assoc. cbn [app]. constructor; try done. apply IH.
    rewrite len_app, Z.add_assoc in H2. done.
Qed.

Lemma laid_one c r g off b :
  Forall rec_wf (r :: g) -> block_fits (recs_bytes (r :: g)) ->
  seal_block c (recs_bytes (r :: g)) = Ok b -> laid_out c [r :: g] off b [(key r, off)].
Proof. intros. rewrite <- (app_nil_r b). apply laid_cons; try done. apply laid_nil. Qed.

Lemma block_items_recs rs fuel :
  Forall rec_wf rs -> (length (recs_bytes rs) <= fuel)%nat ->
  block_items fuel (recs_bytes rs) = ((fun r => Ok (sealed r)) <$> rs, true).
Proof.
  intros Hwf. revert fuel. induction Hwf as [|r rs Hr _ IH]; intros fuel Hf.
  { by destruct fuel. }
  change (recs_bytes (r :: rs)) with (to_be_bytes r ++ recs_bytes rs) in *.
  pose proof (read_next_app r (recs_bytes rs) Hr) as Hn.
  pose proof (read_next_shorter _ _ _ Hn) as Hsh.
  destruct (to_be_bytes r ++ recs_bytes rs) as [|b l] eqn:E; [simpl in Hsh; lia|].
  destruct fuel as [|fuel]; [simpl in Hf; lia|]. cbn [block_items].
  rewrite Hn, IH by (simpl in *; lia). done.
Qed.

Lemma read_whole_block_inv l d k :
  read_whole_block l = Ok (d, k) ->
  exists h f1, read_exact 9 l = Ok (h, f1) /\ read_block (header_from_bytes h) f1 = Ok (d, k).
Proof.
  unfold read_whole_block, rd_bind. destruct (read_exact 9 l) as [[h f1]| |]; try done.
  simpl. eauto.
Qed.

Lemma sst_items_laid c gs off file idx :
  laid_out c gs off file idx -> sst_items file = (fun r => Ok (sealed r)) <$> concat gs.
Proof.
  induction 1 as [off|r g gs off b file idx Hwf Hfit Hs Hl IH]; [done|].
  destruct (seal_block_spec c _ Hfit) as (b' & Hb' & Hb9 & Hread).
  assert (b' = b) as -> by congruence.
  destruct (read_whole_block_inv _ _ _ (Hread file)) as (h & f1 & H9 & Hb).
  unfold sst_items. cbn [file_items]. rewrite H9, Hb, block_items_recs by done. cbn [fst snd].
  rewrite file_items_fuel by (rewrite length_app; lia).
  rewrite IH. cbn [concat]. by rewrite fmap_app.
Qed.

(** *** The build loop *)

Definition keys_of (rs : list Rec) : list str := key <$> rs.

Record build_inv (c : bool) (target : Z) (bloom0 : BloomFilter) (rs : list Rec)
    (b : BuildState) (gs : list (list Rec)) (cur : list Rec) : Prop := {
  bi_records : concat gs ++ cur = rs;
  bi_laid : laid_out c gs 0 (b_file b) (b_sparse b);
  bi_offset : b_offset b = len (b_file b);
  bi_writer : b_writer b = mkWriter target c (recs_bytes cur);
  bi_first : b_first b = head (keys_of cur);
  bi_cur_wf : Forall rec_wf cur;
  bi_cur_max : len (recs_bytes cur) <= block_max target;
  bi_cur_empty : cur = [] -> gs = [];
  bi_last : b_last b = last (keys_of rs);
  bi_bloom : bloom_insert_all bloom0 (keys_of rs) = Ok (b_bloom b);
  bi_bloom_wf : bloom_wf (b_bloom b)
}.

Lemma entry_record_wf p : entry_ok p -> rec_wf (entry_record p).
Proof.
  unfold entry_ok, entry_record. destruct p as [k [[v|] e]]; simpl; apply make_record_wf.
Qed.

Lemma entry_record_key p : key (entry_record p) = p.1.
Proof. unfold entry_record. by destruct (mvalue p.2). Qed.

Lemma block_max_le target : block_max 0 <= block_max target.
Proof. unfold block_max, RECORD_HEADER_LEN, CRC_LEN, SIZE_FIELD_LEN, FLAGS_LEN, TTL_LEN,
  MAX_KEY_SIZE, MAX_VALUE_SIZE. lia. Qed.

Lemma build_step_inv c target bloom0 rs b gs cur p :
  params_ok target -> build_inv c target bloom0 rs b gs cur -> entry_ok p ->
  exists b' gs' cur', build_step b p = Ok b' /\
    build_inv c target bloom0 (rs ++ [entry_record p]) b' gs' cur' /\ cur' <> [].
Proof.
  intros [Hpar] [Hrecs Hlaid Hoff Hwr Hfirst Hwf Hmax Hemp Hlast Hbl Hblwf] Hp.
  pose proof (entry_record_wf p Hp) as Hr. set (r := entry_record p) in *.
  assert (Hkr : key r = p.1) by apply entry_record_key.
  unfold build_step. fold r. rewrite Hwr, Hfirst.
  destruct (bloom_insert_ok (b_bloom b) p.1 Hblwf) as (bl & Hbi & Hblwf' & _). rewrite Hbi.
  assert (Hbl' : bloom_insert_all bloom0 (keys_of (rs ++ [r])) = Ok bl).
  { unfold keys_of, bloom_insert_all in *. rewrite fmap_app, rfold_app, Hbl. simpl.
    by rewrite Hkr, Hbi. }
  assert (Hlast' : Some p.1 = last (keys_of (rs ++ [r]))).
  { unfold keys_of. rewrite fmap_app, last_app. simpl. by rewrite Hkr. }
  pose proof (len_rec_max r Hr) as Hrm. pose proof (block_max_le target) as Hbm.
  cbn [rbind]. unfold add_record. cbn [target_block_size compression_enabled buffer].
  destruct (Z.ltb_spec target (len (to_be_bytes r) + len (recs_bytes cur))) as [Hover|Hroom].
  - destruct cur as [|r0 cur0] eqn:Ecur.
    + (* flushing an empty buffer *)
      cbn [flush recs_bytes concat map buffer rbind fst snd target_block_size
        compression_enabled app keys_of fmap list_fmap head].
      eexists _, gs, [r]. split; [done|]. split; [|done].
      rewrite (Hemp eq_refl) in *.
      split; cbn [b_sparse b_bloom b_last b_writer b_file b_offset b_first]; try done.
      * simpl. by rewrite <- Hrecs.
      * by rewrite recs_bytes_one.
      * unfold keys_of. simpl. by rewrite Hkr.
      * by constructor.
      * rewrite recs_bytes_one. lia.
    + (* a full block goes out *)
      assert (Hfit : block_fits (recs_bytes (r0 :: cur0))) by (unfold block_fits; lia).
      destruct (seal_block_spec c _ Hfit) as (blk & Hblk & _ & _).
      unfold flush. cbn [buffer compression_enabled target_block_size].
      destruct (recs_bytes (r0 :: cur0)) as [|x l] eqn:Erb;
        [by apply recs_bytes_nil_inv in Erb|].
      rewrite Hblk. rewrite <- Erb in *.
      cbn [rbind fst snd target_block_size compression_enabled buffer app keys_of fmap
        list_fmap head].
      eexists _, (gs ++ [r0 :: cur0]), [r]. split; [done|]. split; [|done].
      split; cbn [b_sparse b_bloom b_last b_writer b_file b_offset b_first]; try done.
      * rewrite concat_app. simpl. by rewrite app_nil_r, <- Hrecs.
      * rewrite Hoff. apply laid_app; [done|]. simpl. by apply laid_one.
      * rewrite len_app, Hoff. done.
      * by rewrite recs_bytes_one.
      * unfold keys_of. simpl. by rewrite Hkr.
      * by constructor.
      * rewrite recs_bytes_one. lia.
  - cbn [rbind fst snd target_block_size compression_enabled buffer].
    eexists _, gs, (cur ++ [r]). split; [done|]. split; [|by destruct cur].
    split; cbn [b_sparse b_bloom b_last b_writer b_file b_offset b_first]; try done.
    + by rewrite app_assoc, Hrecs.
    + by rewrite recs_bytes_app, recs_bytes_one.
    + unfold keys_of. destruct cur; simpl; [by rewrite Hkr | done].
    + apply Forall_app. split; [done | by constructor].
    + rewrite recs_bytes_app, recs_bytes_one, len_app. unfold block_max. lia.
    + by destruct cur.
Qed.

Lemma build_loop_inv c target bloom0 ps rs b gs cur :
  params_ok target -> build_inv c target bloom0 rs b gs cur -> Forall entry_ok ps ->
  exists b' gs' cur', rfold build_step b ps = Ok b' /\
    build_inv c target bloom0 (rs ++ (entry_record <$> ps)) b' gs' cur'.
Proof.
  intros Hpar Hinv Hps. revert rs b gs cur Hinv.
  induction Hps as [|p ps Hp _ IH]; intros rs b gs cur Hinv; cbn [rfold fmap list_fmap].
  { rewrite app_nil_r. eauto 10. }
  destruct (build_step_inv c target bloom0 rs b gs cur p Hpar Hinv Hp)
    as (b1 & gs1 & cur1 & -> & Hinv1 & _).
  cbn [rbind]. destruct (IH _ _ _ _ Hinv1) as (b2 & gs2 & cur2 & -> & Hinv2).
  exists b2, gs2, cur2. split; [done|]. by rewrite <- app_assoc in Hinv2.
Qed.

(** What [from_memtable] produces. *)
Record built (m : Memtable) (c : bool) (t : SSTable) (file : bytes) (gs : list (list Rec))
    : Prop := {
  bt_records : concat gs = entry_record <$> entries m;
  bt_laid : laid_out c gs 0 file (sparse_index t);
  bt_bloom : bloom_insert_all (bloom_new (Z.max (bloom_bytes (len (entries m))) 1)
               BLOOM_HASH_COUNT) (fst <$> entries m) = Ok (bloom t);
  bt_min : sst_min t = head (sparse_index t);
  bt_max : sst_max t = match last (fst <$> entries m) with
                       | Some k => Some (k, index_offset k (sparse_index t))
                       | None => None
                       end
}.

Lemma keys_of_entries ps : keys_of (entry_record <$> ps) = fst <$> ps.
Proof.
  unfold keys_of. induction ps as [|p ps IH]; [done|]. cbn [fmap list_fmap].
  by rewrite entry_record_key, <- IH.
Qed.

Lemma from_memtable_built disk now nm m lvl target c :
  0 <= now -> params_ok target -> Forall entry_ok (entries m) ->
  disk !! sst_filename nm lvl (wrap64 now) = None ->
  exists t file gs,
    from_memtable disk now nm m lvl target c
      = Ok (t, <[sst_filename nm lvl (wrap64 now) := file]> disk) /\
    path t = sst_filename nm lvl (wrap64 now) /\
    sst_timestamp t = wrap64 now /\ name t = nm /\ level t = lvl /\
    built m c t file gs.
Proof.
  intros Hnow Hpar Hok Hfresh. unfold from_memtable.
  rewrite (proj2 (Z.ltb_ge _ _)) by done. rewrite Hfresh.
  set (bl0 := bloom_new _ _). set (b0 := mkBuild _ _ _ _ _ _ _).
  assert (Hinit : build_inv c target bl0 [] b0 [] []).
  { split; try done; [constructor | | apply bloom_new_wf; lia].
    unfold recs_bytes, block_max, RECORD_HEADER_LEN, CRC_LEN, SIZE_FIELD_LEN, FLAGS_LEN, TTL_LEN,
      MAX_KEY_SIZE, MAX_VALUE_SIZE. simpl. rewrite len_nil. lia. }
  destruct (build_loop_inv c target bl0 (entries m) [] b0 [] [] Hpar Hinit Hok)
    as (b & gs & cur & -> & Hinv). cbn [rbind app] in *.
  destruct Hinv as [Hrecs Hlaid Hoff Hwr Hfirst Hwf Hmax Hemp Hlast Hbl Hblwf].
  rewrite keys_of_entries in *. rewrite Hwr. unfold flush. cbn [buffer compression_enabled].
  destruct cur as [|r0 cur0] eqn:Ecur.
  - cbn [recs_bytes map concat rbind fst snd].
    eexists _, (b_file b), gs. split; [reflexivity|]. cbn [path sst_timestamp name level].
    rewrite app_nil_r in Hrecs. split_and!; try done.
    split; cbn [sparse_index bloom sst_min sst_max]; try done. by rewrite Hlast.
  - assert (Hfit : block_fits (recs_bytes (r0 :: cur0)))
      by (unfold block_fits; destruct Hpar; lia).
    destruct (seal_block_spec c _ Hfit) as (blk & Hblk & _ & _).
    destruct (recs_bytes (r0 :: cur0)) as [|x l] eqn:Erb; [by apply recs_bytes_nil_inv in Erb|].
    rewrite Hblk. cbn [rbind fst snd]. rewrite Hfirst. cbn [keys_of fmap list_fmap head].
    eexists _, (b_file b ++ blk), (gs ++ [r0 :: cur0]).
    split; [reflexivity|]. cbn [path sst_timestamp name level].
    split_and!; try done.
    split; cbn [sparse_index bloom sst_min sst_max]; try done.
    + rewrite concat_app. simpl. by rewrite app_nil_r.
    + rewrite Hoff. apply laid_app; [done|]. simpl. apply laid_one; [done| |]; by rewrite Erb.
    + by rewrite Hlast.
Qed.

(** *** Looking a key up *)

Definition rec_lt (a b : Rec) : Prop := str_lt (key a) (key b).

Lemma entries_sorted ps : bt_wf ps -> StronglySorted rec_lt (entry_record <$> ps).
Proof.
  induction 1 as [|p ps Hs IH Hp]; cbn [fmap list_fmap]; constructor; [done|].
  rewrite Forall_fmap. eapply Forall_impl; [exact Hp|].
  intros q Hq. unfold compose, rec_lt. by rewrite !entry_record_key.
Qed.

Lemma sorted_app_lt (a b : list Rec) x :
  StronglySorted rec_lt (a ++ x :: b) -> Forall (fun r => str_lt (key r) (key x)) a.
Proof.
  induction a as [|r a IH]; simpl; [constructor|]. intros H.
  apply StronglySorted_inv in H as [H1 H2]. constructor; [|by apply IH].
  rewrite Forall_app, Forall_cons in H2. by destruct H2 as (_ & ? & _).
Qed.

Lemma sorted_app_r (a b : list Rec) : StronglySorted rec_lt (a ++ b) -> StronglySorted rec_lt b.
Proof.
  induction a as [|r a IH]; simpl; [done|]. intros H. by apply StronglySorted_inv in H as [H _]; apply IH.
Qed.

Lemma get_loop_skip a items k now :
  Forall (fun r => str_lt (key r) k) a ->
  get_loop (((fun r => Ok (sealed r)) <$> a) ++ items) k now = get_loop items k now.
Proof.
  induction 1 as [|r a H _ IH]; [done|]. cbn [fmap list_fmap app get_loop].
  rewrite sealed_key. unfold str_lt in H. by rewrite H.
Qed.

(** The sparse index leads to a block boundary before which every key is
    smaller than the one sought. *)
Lemma index_split c gs off file idx k pos :
  laid_out c gs off file idx -> StronglySorted rec_lt (concat gs) ->
  partition_point k idx = S pos ->
  exists gs1 gs2 f1 f2 idx2 kk,
    idx !! pos = Some (kk, off + len f1) /\ gs = gs1 ++ gs2 /\ file = f1 ++ f2 /\
    laid_out c gs2 (off + len f1) f2 idx2 /\
    Forall (fun r => str_lt (key r) k) (concat gs1).
Proof.
  intros Hl. revert pos.
  induction Hl as [off|r g gs off b file idx Hwf Hfit Hs Hl IH]; intros pos Hsort Hpp; [done|].
  cbn [partition_point] in Hpp. destruct (str_leb (key r) k) eqn:Ele; [|done].
  injection Hpp as Hpp. destruct pos as [|pos].
  - exists [], ((r :: g) :: gs), [], (b ++ file), ((key r, off) :: idx), (key r).
    rewrite len_nil, Z.add_0_r. split_and!; try done. by constructor.
  - destruct (IH pos (sorted_app_r _ _ Hsort) Hpp)
      as (gs1 & gs2 & f1 & f2 & idx2 & kk & Hi & Hgs & Hf & Hl2 & Hlt).
    exists ((r :: g) :: gs1), gs2, (b ++ f1), f2, idx2, kk.
    rewrite len_app, Z.add_assoc. split_and!; try done.
    + by rewrite Hgs.
    + by rewrite Hf, app_assoc.
    + cbn [concat]. apply Forall_app. split; [|done].
      (* the next block starts at a key that is at most [k] *)
      inversion Hl as [|r' g' gs' off' b' file' idx' ? ? ? ? E1 E2 E3 E4]; subst; [done|].
      cbn [partition_point] in Hpp. destruct (str_leb (key r') k) eqn:Ele'; [|done].
      rewrite <- E1 in Hsort. cbn [concat] in Hsort.
      change ((r' :: g') ++ concat gs') with (r' :: (g' ++ concat gs')) in Hsort.
      pose proof (sorted_app_lt (r :: g) _ r' Hsort) as Hrg.
      eapply Forall_impl; [exact Hrg|]. intros x Hx. cbv beta in *.
      apply str_leb_le in Ele' as [Ele'| <-]; [by apply (str_lt_trans _ (key r')) | done].
Qed.

(** What a reader sees of an entry at time [now]. *)
Definition entry_value (now : Z) (e : MemtableEntry) : option str :=
  match mvalue e with
  | None => None
  | Some v => if expired (mexpiry e) now then None else Some v
  end.

Lemma get_loop_entries ps k now :
  bt_wf ps ->
  get_loop ((fun r => Ok (sealed r)) <$> (entry_record <$> ps)) k now
  = Ok (entry_value now <$> bt_get k ps).
Proof.
  induction 1 as [|[k1 e1] ps Hs IH Hp]; [done|].
  cbn [fmap list_fmap get_loop]. rewrite sealed_key, entry_record_key. cbn [fst bt_get].
  destruct (str_compare_spec k1 k) as [->|H|H].
  - rewrite decide_True by done. cbn [fmap option_fmap option_map]. do 2 f_equal.
    rewrite sealed_tombstone, sealed_expiry. unfold entry_record, entry_value. cbn [fst snd].
    destruct (mvalue e1); rewrite make_record_tombstone; done.
  - rewrite decide_False by (by apply not_eq_sym, str_lt_ne). exact IH.
  - rewrite decide_False by (by apply str_lt_ne).
    rewrite bt_get_lt; [done|]. eapply Forall_impl; [exact Hp|].
    intros q Hq. by apply (str_lt_trans _ k1).
Qed.

Lemma built_get m c t file gs disk k now :
  bt_wf (entries m) -> built m c t file gs -> disk !! path t = Some file ->
  sst_get disk t k now = Ok (entry_value now <$> bt_get k (entries m)).
Proof.
  intros Hs [Hrecs Hlaid Hbl _ _] Hfile. unfold sst_get.
  set (bl0 := bloom_new _ _) in Hbl.
  destruct (bloom_insert_all_ok bl0 (fst <$> entries m)) as (f & Hf & Hfwf & _ & _ & Hmem);
    [apply bloom_new_wf; lia|].
  assert (f = bloom t) as -> by congruence.
  destruct (might_contain_ok (bloom t) k Hfwf) as [hit Hhit]. rewrite Hhit. cbn [rbind].
  destruct hit.
  2:{ destruct (bt_get k (entries m)) as [e|] eqn:E; [|done]. exfalso.
      rewrite Forall_fmap, Forall_forall in Hmem.
      specialize (Hmem _ (bt_get_In _ _ _ E)). unfold compose in Hmem. simpl in Hmem. congruence. }
  rewrite Hfile. rewrite <- get_loop_entries, <- Hrecs by done.
  unfold get_offset, index_offset.
  destruct (partition_point k (sparse_index t)) as [|pos] eqn:Epp.
  { change (Z.to_nat 0) with 0%nat. rewrite drop_0. by rewrite (sst_items_laid _ _ _ _ _ Hlaid). }
  assert (Hsort : StronglySorted rec_lt (concat gs)) by (rewrite Hrecs; by apply entries_sorted).
  destruct (index_split _ _ _ _ _ _ _ Hlaid Hsort Epp)
    as (gs1 & gs2 & f1 & f2 & idx2 & kk & Hi & Hgs & Hf' & Hl2 & Hlt).
  rewrite Hi. cbn [snd]. rewrite Z.add_0_l, to_nat_len, Hf', drop_app_length.
  rewrite (sst_items_laid _ _ _ _ _ Hl2), Hgs, concat_app, fmap_app.
  by rewrite get_loop_skip.
Qed.

(** *** Rebuilding the index *)

Lemma block_keys_recs rs fuel :
  Forall rec_wf rs -> (length (recs_bytes rs) < fuel)%nat ->
  block_keys fuel (recs_bytes rs) = Ok (keys_of rs).
Proof.
  intros Hwf. revert fuel. induction Hwf as [|r rs Hr _ IH]; intros fuel Hf.
  { by destruct fuel; [lia|]. }
  change (recs_bytes (r :: rs)) with (to_be_bytes r ++ recs_bytes rs) in *.
  pose proof (read_next_app r (recs_bytes rs) Hr) as Hn.
  pose proof (read_next_shorter _ _ _ Hn) as Hsh.
  destruct fuel as [|fuel]; [lia|]. cbn [block_keys].
  rewrite Hn, IH by lia. done.
Qed.

Lemma rebuild_loop_laid c gs off file idx fuel :
  laid_out c gs off file idx -> (length file < fuel)%nat ->
  rebuild_loop fuel file off = Ok (idx, keys_of (concat gs)).
Proof.
  intros Hl. revert fuel.
  induction Hl as [off|r g gs off b file idx Hwf Hfit Hs Hl IH]; intros fuel Hf.
  { by destruct fuel; [simpl in Hf; lia|]. }
  destruct (seal_block_spec c _ Hfit) as (b' & Hb' & Hb9 & Hread).
  assert (b' = b) as -> by congruence.
  destruct (read_whole_block_inv _ _ _ (Hread file)) as (h & f1 & H9 & Hb).
  rewrite length_app in Hf.
  destruct fuel as [|fuel]; [lia|]. cbn [rebuild_loop]. rewrite H9, Hb. cbn [rbind fst snd].
  rewrite block_keys_recs by (done || lia). cbn [rbind].
  replace (off + (len (b ++ file) - len file)) with (off + len b) by (rewrite len_app; lia).
  rewrite IH by lia. cbn [rbind fst snd concat]. unfold keys_of. by rewrite fmap_app.
Qed.

(** Rebuilding from the file of a table whose name gave [stub]. *)
Lemma built_rebuild m c t file gs disk stub :
  built m c t file gs -> disk !! path t = Some file ->
  path stub = path t -> sst_timestamp stub = sst_timestamp t -> name stub = name t ->
  level stub = level t -> rebuild_index disk stub = Ok t.
Proof.
  intros [Hrecs Hlaid Hbl Hmin Hmax] Hf E1 E2 E3 E4. unfold rebuild_index. rewrite E1, Hf.
  rewrite (rebuild_loop_laid _ _ _ _ _ _ Hlaid) by lia. cbn [rbind fst snd].
  rewrite Hrecs, keys_of_entries.
  replace (len (fst <$> entries m)) with (len (entries m)) by (unfold len; by rewrite length_fmap).
  rewrite Hbl. cbn [rbind]. rewrite E2, E3, E4, <- Hmin, <- Hmax. by destruct t.
Qed.

(** ** Properties *)

Definition mem_ex : Memtable :=
  mem_run mem_new [MInsert (bs "b") (bs "2") None; MInsert (bs "a") (bs "1") (Some 50);
                   MInsert (bs "c") (bs "3") None; MRemove (bs "c")].

Lemma mem_ex_sorted : bt_wf (entries mem_ex).
Proof. vm_compute. repeat constructor. Defined.

Lemma mem_ex_ok : Forall entry_ok (entries mem_ex).
Proof. repeat constructor; vm_compute; done. Defined.

Lemma params_ex : params_ok 4096.
Proof. split. vm_compute. done. Defined.

(** C17: a flushed table answers point lookups exactly like the memtable it
    was written from: for every key, through the Bloom filter, the sparse
    index, decompression and the block scan, [get] reports the entry's value,
    a tombstone or an expired value as deleted, and an absent key as absent. *)
Theorem sstable_get_correct (disk : files) (now_ns : Z) (nm : str) (m : Memtable)
    (lvl : option Z) (target : Z) (compression : bool) :
  0 <= now_ns -> params_ok target -> bt_wf (entries m) -> Forall entry_ok (entries m) ->
  disk !! sst_filename nm lvl (wrap64 now_ns) = None ->
  exists t disk', from_memtable disk now_ns nm m lvl target compression = Ok (t, disk') /\
    forall k now, sst_get disk' t k now = Ok (entry_value now <$> entry m k).
Proof.
  intros Hnow Hpar Hs Hok Hfresh.
  destruct (from_memtable_built disk now_ns nm m lvl target compression Hnow Hpar Hok Hfresh)
    as (t & file & gs & -> & Hp & _ & _ & _ & Hb).
  eexists _, _. split; [done|]. intros k now. eapply built_get; [done | done |].
  rewrite Hp. apply lookup_insert_eq.
Qed.

Lemma sstable_get_correct_witness :
  exists t disk', from_memtable ∅ 7 (bs "db") mem_ex None 4096 true = Ok (t, disk') /\
    forall k now, sst_get disk' t k now = Ok (entry_value now <$> entry mem_ex k).
Proof.
  apply sstable_get_correct;
    [done | exact params_ex | exact mem_ex_sorted | exact mem_ex_ok | reflexivity].
Defined.

(** Scanning a flushed table yields the memtable's entries, all of them,
    in key order, and then ends without an error. *)
Theorem sstable_scan_correct (disk : files) (now_ns : Z) (nm : str) (m : Memtable)
    (lvl : option Z) (target : Z) (compression : bool) :
  0 <= now_ns -> params_ok target -> Forall entry_ok (entries m) ->
  disk !! sst_filename nm lvl (wrap64 now_ns) = None ->
  exists t disk' file, from_memtable disk now_ns nm m lvl target compression = Ok (t, disk') /\
    disk' !! path t = Some file /\
    sst_items file = (fun p => Ok (sealed (entry_record p))) <$> entries m.
Proof.
  intros Hnow Hpar Hok Hfresh.
  destruct (from_memtable_built disk now_ns nm m lvl target compression Hnow Hpar Hok Hfresh)
    as (t & file & gs & -> & Hp & _ & _ & _ & [Hrecs Hlaid _ _ _]).
  exists t, (<[path t := file]> disk), file. rewrite Hp. split; [done|].
  split; [apply lookup_insert_eq|].
  rewrite (sst_items_laid _ _ _ _ _ Hlaid), Hrecs. by rewrite <- list_fmap_compose.
Qed.

Lemma sstable_scan_correct_witness :
  exists t disk' file, from_memtable ∅ 7 (bs "db") mem_ex (Some 1) 4096 false = Ok (t, disk') /\
    disk' !! path t = Some file /\
    sst_items file = (fun p => Ok (sealed (entry_record p))) <$> entries mem_ex.
Proof. apply sstable_scan_correct; [done | exact params_ex | exact mem_ex_ok | reflexivity]. Defined.

(** C36: rebuilding the index of a table from its file, as a restart does,
    gives back the sparse index, the Bloom filter and the key range that were
    computed when the table was written. *)
Theorem sstable_rebuild_correct (disk : files) (now_ns : Z) (nm : str) (m : Memtable)
    (lvl : option Z) (target : Z) (compression : bool) (stub : SSTable) :
  0 <= now_ns -> params_ok target -> Forall entry_ok (entries m) ->
  disk !! sst_filename nm lvl (wrap64 now_ns) = None ->
  path stub = sst_filename nm lvl (wrap64 now_ns) -> sst_timestamp stub = wrap64 now_ns ->
  name stub = nm -> level stub = lvl ->
  exists t disk', from_memtable disk now_ns nm m lvl target compression = Ok (t, disk') /\
    rebuild_index disk' stub = Ok t.
Proof.
  intros Hnow Hpar Hok Hfresh E1 E2 E3 E4.
  destruct (from_memtable_built disk now_ns nm m lvl target compression Hnow Hpar Hok Hfresh)
    as (t & file & gs & -> & Hp & Ht & Hn & Hlv & Hb).
  eexists _, _. split; [done|]. eapply built_rebuild; [exact Hb | rewrite Hp | congruence..].
  apply lookup_insert_eq.
Qed.

Lemma sstable_rebuild_correct_witness :
  exists t disk', from_memtable ∅ 7 (bs "db") mem_ex None 4096 true = Ok (t, disk') /\
    rebuild_index disk' (mkSSTable (bs "db_7.sst") 7 (bs "db") None [] (bloom_new 1 7) None None)
    = Ok t.
Proof.
  apply sstable_rebuild_correct;
    [done | exact params_ex | exact mem_ex_ok | apply lookup_empty | reflexivity | reflexivity
    | reflexivity | reflexivity].
Defined.

(** [SSTableIter::next] yields exactly the items of the file, one per
    call, then [None] forever. *)
Theorem sstable_iter_next (file : bytes) (n : nat) :
  pull n (sst_iter file) = take n ((Some <$> sst_items file) ++ replicate n None).
Proof. rewrite pull_items. reflexivity. Qed.
