(* ===== verification/Float.v ===== *)
(** * IEEE 754 arithmetic

    What the program uses of [f32] and [f64]: conversions from and to integers,
    the four operations, rounding, absolute value and comparisons, as the executable
    specification of binary floating point in the Standard Library gives them
    (rounding to nearest, ties to even). *)

From S2P Require Import Prelude.
From Stdlib Require Export Floats.SpecFloat.

(** [z as f64] and [z as f32]. *)
Definition as_f64 (z : Z) : spec_float := binary_normalize 53 1024 z 0 false.
Definition as_f32 (z : Z) : spec_float := binary_normalize 24 128 z 0 false.

Definition f64_div (x y : spec_float) : spec_float := SFdiv 53 1024 x y.
Definition f64_sub (x y : spec_float) : spec_float := SFsub 53 1024 x y.
Definition f32_div (x y : spec_float) : spec_float := SFdiv 24 128 x y.

Definition f64_MAX : spec_float := S754_finite false (2 ^ 53 - 1) 971.
Definition f64_zero : spec_float := S754_zero false.
(** 0.5 and 1.5. *)
Definition f64_half : spec_float := f64_div (as_f64 1) (as_f64 2).
Definition f64_one_half : spec_float := f64_div (as_f64 3) (as_f64 2).

(** [x < y], [x > y], [x <= y] and [x != y] on floats. *)
Definition f_lt (x y : spec_float) : bool := SFltb x y.
Definition f_gt (x y : spec_float) : bool := SFltb y x.
Definition f_le (x y : spec_float) : bool := SFleb x y.
Definition f_ne (x y : spec_float) : bool := negb (SFeqb x y).
Definition f_eq (x y : spec_float) : bool := SFeqb x y.

Definition f64_mul (x y : spec_float) : spec_float := SFmul 53 1024 x y.
Definition f64_add (x y : spec_float) : spec_float := SFadd 53 1024 x y.

(** The integer part of [m * 2 ^ e], and [f64::round], which rounds half way
    cases away from zero. *)
Definition trunc_mantissa (m : positive) (e : Z) : Z := Z.shiftl (Zpos m) e.
Definition round_mantissa (m : positive) (e : Z) : Z :=
  if e <? 0 then Z.shiftr (Z.shiftr (Zpos m) (- e - 1) + 1) 1 else Z.shiftl (Zpos m) e.

Definition f64_round (x : spec_float) : spec_float :=
  match x with
  | S754_finite s m e =>
      if 0 <=? e then x
      else binary_normalize 53 1024 ((if s then -1 else 1) * round_mantissa m e) 0 s
  | _ => x
  end.

(** [x as uN]: truncation, saturating at the bounds; zero for NaN. *)
Definition f64_to_uint (w : Z) (x : spec_float) : Z :=
  match x with
  | S754_finite false m e => Z.min (2 ^ w - 1) (trunc_mantissa m e)
  | S754_infinity false => 2 ^ w - 1
  | _ => 0
  end.

(** A literal [n / d]. *)
Definition f64_lit (n d : Z) : spec_float := f64_div (as_f64 n) (as_f64 d).

(** [Duration::as_secs_f64] of a number of nanoseconds. *)
Definition as_secs_f64 (ns : Z) : spec_float :=
  f64_add (as_f64 (ns / 10 ^ 9)) (f64_div (as_f64 (ns mod 10 ^ 9)) (as_f64 (10 ^ 9))).
