(* ===== verification/Strategy.v ===== *)
(** * Storage strategies: the interface (src/src/storage_strategy.rs)

    How the LSM engine arranges its tables on disk. A strategy is a value with
    the operations of the trait; the two implementations are in [SizeTiered]
    and [Leveled]. The operations on tables they share are here: writing one,
    reading it, and listing those of a directory. *)

From S2P Require Import Prelude Utils Utf8 Bloom Collections Text Record Memtable Block.
From S2P Require Import Sstable World.

(** The clock in nanoseconds, read for the names of the tables. *)
Class Nanos := nanos : nat -> Z.

(** ** Tables in the directory *)

Section Tables.
Context `{Clock} `{Nanos}.

Definition read_nanos : ST World Z := fun w =>
  (mkWorld (disk w) (durable w) (S (ticks w)), Ok (nanos (ticks w))).

(** [SSTable::from_memtable] in the directory. *)
Definition write_table (nm : str) (m : Memtable) (lvl : option Z) (target : Z) (compression : bool)
    : ST World SSTable :=
  let* t := read_nanos in
  fun w =>
    match from_memtable (disk w) t nm m lvl target compression with
    | Ok (tbl, d) => (with_disk w d, Ok tbl)
    | Err e => (w, Err e)
    | Panic => (w, Panic)
    end.

(** [SSTable::get]: the clock is read once the file is open. *)
Definition table_get (t : SSTable) (k : str) : ST World (option (option str)) :=
  let* hit := st_lift (might_contain (bloom t) k) in
  if hit then
    let* file := open_read (path t) in
    let* now := now_ms in
    st_lift (get_loop (sst_items (drop (Z.to_nat (get_offset t k)) file)) k now)
  else st_ret None.

(** [SSTable::iter], as the items it yields. *)
Definition table_items (t : SSTable) : ST World (list (result Rec)) :=
  let* file := open_read (path t) in st_ret (sst_items file).

(** [SSTable::size_on_disk]. *)
Definition table_size (t : SSTable) : ST World Z :=
  let* file := open_read (path t) in st_ret (len file).
End Tables.

(** [for result in items { let record = result?; body }]. *)
Fixpoint scan {A} (body : A -> Rec -> A) (acc : A) (items : list (result Rec)) : result A :=
  match items with
  | [] => Ok acc
  | Ok r :: items' => scan body (body acc r) items'
  | Err e :: _ => Err e
  | Panic :: _ => Panic
  end.

(** ** The tables of a database *)

Definition with_path (t : SSTable) (p : str) : SSTable :=
  mkSSTable p (sst_timestamp t) (name t) (level t) (sparse_index t) (bloom t) (sst_min t) (sst_max t).

Definition db_table (db file_name : str) : option SSTable :=
  match sst_parse file_name with
  | None => None
  | Some t => if decide (name t = db) then Some (with_path t file_name) else None
  end.

(** [sort_by_key(|s| s.timestamp)]. *)
Definition sort_tables (l : list SSTable) : list SSTable := sort_by_key sst_timestamp l.

Fixpoint rebuild_all (l : list SSTable) : ST World (list SSTable) :=
  match l with
  | [] => st_ret []
  | t :: l' =>
      let* d := st_gets disk in
      let* t' := st_lift (rebuild_index d t) in
      let* rest := rebuild_all l' in
      st_ret (t' :: rest)
  end.

Definition get_sstables (db : str) : ST World (list SSTable) :=
  let* dir := read_dir in
  rebuild_all (sort_tables (omap (db_table db) dir)).

(** ** The trait *)

Definition lift_w {T A} (m : ST World A) : ST (T * World) A := fun s =>
  let '(w, r) := m s.2 in ((s.1, w), r).
Definition self {T A} (f : T -> A) : ST (T * World) A := st_gets (fun s => f s.1).
Definition set_self {T} (f : T -> T) : ST (T * World) unit := st_modify (fun s => (f s.1, s.2)).

(** [iter_for_key] filters lazily: an element is a table, or the panic of the
    filter on it. *)
Class StorageStrategy (T : Type) := {
  add_sstable : SSTable -> ST (T * World) unit;
  compact_if_needed : str -> ST (T * World) bool;
  compact_all : str -> ST (T * World) unit;
  iter_for_key : T -> str -> list (result SSTable);
  iter_files_for_range : T -> str -> str -> list SSTable;
  iter_all : T -> list SSTable;
  strategy_segment_count : T -> Z;
}.

(** [.filter(|sst| sst.bloom.might_contain(key))]. *)
Definition bloom_filter (k : str) (l : list SSTable) : list (result SSTable) :=
  omap (fun t => match might_contain (bloom t) k with
                 | Ok true => Some (Ok t)
                 | Ok false => None
                 | Err e => Some (Err e)
                 | Panic => Some Panic
                 end) l.

(** The body of [iter_files_for_range], which both strategies share. *)
Definition files_for_range (l : list SSTable) (start_key end_key : str) : list SSTable :=
  List.filter (fun t => match sst_min t, sst_max t with
                        | Some (mn, _), Some (mx, _) =>
                            negb (str_ltb mx start_key || str_ltb end_key mn)
                        | _, _ => false
                        end) l.
