(* ===== verification/SizeTiered.v ===== *)
(** * Size-tiered compaction (src/src/size_tiered.rs)

    Tables of similar size share a bucket; a bucket with enough tables is
    merged into one. *)

From S2P Require Import Prelude Utils Utf8 Bloom Collections Text Record Memtable Block.
From S2P Require Import Sstable World Float Strategy.

Record SizeTiered := mkSizeTiered {
  sstables : list (list SSTable);
  min_threshold : Z;
  max_threshold : Z;
  st_block_size : Z;
  st_compression : bool;
}.

Definition st_new (mn mx block : Z) (compression : bool) : SizeTiered :=
  mkSizeTiered [] mn mx block compression.

Definition set_sstables (l : list (list SSTable)) (s : SizeTiered) : SizeTiered :=
  mkSizeTiered l (min_threshold s) (max_threshold s) (st_block_size s) (st_compression s).

Definition MIN_TIER_COEFFICIENT : spec_float := f64_half.
Definition MAX_TIER_COEFFICIENT : spec_float := f64_one_half.

Section SizeTiered.
Context `{Clock} `{Nanos}.

(** The [try_fold] over the sizes of a bucket. *)
Fixpoint bucket_total (acc : Z) (bucket : list SSTable) : ST World Z :=
  match bucket with
  | [] => st_ret acc
  | t :: bucket' => let* s := table_size t in bucket_total (wrap64 (acc + s)) bucket'
  end.

(** The loop that looks for the closest bucket. *)
Fixpoint best_bucket (i : nat) (buckets : list (list SSTable)) (new_size : spec_float)
    (target_idx : option nat) (best_diff : spec_float) : ST World (option nat) :=
  match buckets with
  | [] => st_ret target_idx
  | bucket :: buckets' =>
      let* total := bucket_total 0 bucket in
      let avg := match bucket with
                 | [] => f64_zero
                 | _ => f64_div (as_f64 total) (as_f64 (len bucket))
                 end in
      let ratio := if f_ne new_size f64_zero then f64_div new_size avg else f64_zero in
      let diff := SFabs (f64_sub avg new_size) in
      if f_le MIN_TIER_COEFFICIENT ratio && f_le ratio MAX_TIER_COEFFICIENT && f_lt diff best_diff
      then best_bucket (S i) buckets' new_size (Some i) diff
      else best_bucket (S i) buckets' new_size target_idx best_diff
  end.

Definition st_add_sstable (t : SSTable) : ST (SizeTiered * World) unit :=
  let* size := lift_w (table_size t) in
  let* buckets := self sstables in
  let* target_idx := lift_w (best_bucket 0 buckets (as_f64 size) None f64_MAX) in
  match target_idx with
  | Some i => set_self (fun s => set_sstables (alter (fun b => b ++ [t]) i (sstables s)) s)
  | None => set_self (fun s => set_sstables (sstables s ++ [[t]]) s)
  end.

(** The body of the merge loops. *)
Definition st_merge_record (now : Z) (m : Memtable) (r : Rec) : Memtable :=
  match entry m (key r) with
  | Some _ => m
  | None =>
      if is_tombstone (header r) || expired (expiry_ms (header r)) now
      then mem_remove m (key r)
      else mem_insert m (key r) (value r) (expiry_ms (header r))
  end.

(** Merging tables, each removed once it has been read. *)
Fixpoint st_merge (now : Z) (m : Memtable) (l : list SSTable) : ST World Memtable :=
  match l with
  | [] => st_ret m
  | t :: l' =>
      let* items := table_items t in
      let* m' := st_lift (scan (st_merge_record now) m items) in
      let* _ := remove_file (path t) in
      st_merge now m' l'
  end.

(** The loop of [compact_if_needed] from bucket [i] on. *)
Fixpoint st_compact_from (db : str) (i : nat) (buckets : list (list SSTable))
    : ST (SizeTiered * World) bool :=
  match buckets with
  | [] => st_ret false
  | bucket :: buckets' =>
      let* mn := self min_threshold in
      let* mx := self max_threshold in
      if (len bucket <? mn) && (len bucket <? mx) then st_compact_from db (S i) buckets'
      else
        let* now := lift_w now_ms in
        let* m := lift_w (st_merge now mem_new bucket) in
        let* block := self st_block_size in
        let* c := self st_compression in
        let* t := lift_w (write_table db m None block c) in
        let* _ := set_self (fun s => set_sstables (<[i := [t]]> (sstables s)) s) in
        st_ret true
  end.

Definition st_compact_if_needed (db : str) : ST (SizeTiered * World) bool :=
  let* buckets := self sstables in st_compact_from db 0 buckets.

(** All the tables, buckets in order and tables in order, reversed. *)
Definition st_iter_all (s : SizeTiered) : list SSTable := rev (concat (sstables s)).

Definition st_compact_all (db : str) : ST (SizeTiered * World) unit :=
  let* now := lift_w now_ms in
  let* all := self st_iter_all in
  let* m := lift_w (st_merge now mem_new all) in
  let* block := self st_block_size in
  let* c := self st_compression in
  let* t := lift_w (write_table db (mem_drop_tombstones m) None block c) in
  set_self (set_sstables [[t]]).

Definition st_iter_for_key (s : SizeTiered) (k : str) : list (result SSTable) :=
  bloom_filter k (st_iter_all s).

Definition st_iter_files_for_range (s : SizeTiered) (start_key end_key : str) : list SSTable :=
  files_for_range (st_iter_all s) start_key end_key.

Definition st_segment_count (s : SizeTiered) : Z := len (concat (sstables s)).

#[export] Instance size_tiered_strategy : StorageStrategy SizeTiered := {
  add_sstable := st_add_sstable;
  compact_if_needed := st_compact_if_needed;
  compact_all := st_compact_all;
  iter_for_key := st_iter_for_key;
  iter_files_for_range := st_iter_files_for_range;
  iter_all := st_iter_all;
  strategy_segment_count := st_segment_count;
}.

(** [SizeTiered::load_from_dir]. *)
Fixpoint st_load_loop (l : list SSTable) : ST (SizeTiered * World) unit :=
  match l with
  | [] => st_ret tt
  | t :: l' =>
      let* d := lift_w (st_gets disk) in
      let* t' := st_lift (rebuild_index d t) in
      let* _ := st_add_sstable t' in
      st_load_loop l'
  end.

Definition st_load_from_dir (db : str) (mn mx block : Z) (compression : bool)
    : ST World SizeTiered :=
  let* tables := get_sstables db in
  fun w =>
    let '((s, w'), r) := st_load_loop tables (st_new mn mx block compression, w) in
    (w', let? _ := r in Ok s).

End SizeTiered.
