(* ===== verification/Leveled.v ===== *)
(** * Leveled compaction (src/src/leveled.rs)

    Level 0 holds the flushed tables, newest last; the tables of the other
    levels come from merging a level with the tables of the next it overlaps. *)

From S2P Require Import Prelude Utils Utf8 Bloom Collections Text Record Memtable Block.
From S2P Require Import Sstable World Strategy.

Record Level := mkLevel {
  lv_sstables : list SSTable;
  level_num : Z;
  max_bytes : Z;
  l0_threshold : Z;
  is_terminal : bool;
}.

Record Leveled := mkLeveled {
  levels : list Level;
  lv_block_size : Z;
  lv_compression : bool;
}.

Definition set_lv_sstables (l : list SSTable) (lv : Level) : Level :=
  mkLevel l (level_num lv) (max_bytes lv) (l0_threshold lv) (is_terminal lv).
Definition set_levels (l : list Level) (s : Leveled) : Leveled :=
  mkLeveled l (lv_block_size s) (lv_compression s).

Definition level_append (t : SSTable) (lv : Level) : Level :=
  set_lv_sstables (lv_sstables lv ++ [t]) lv.

(** [Level::iter]: newest first. *)
Definition level_iter (lv : Level) : list SSTable := rev (lv_sstables lv).

(** [Vec::min] and [Vec::max] of the keys. *)
Definition str_min (a b : str) : str := if str_leb a b then a else b.
Definition str_max (a b : str) : str := if str_leb a b then b else a.
Definition list_min (l : list str) : option str :=
  match l with [] => None | x :: l' => Some (fold_left str_min l' x) end.
Definition list_max (l : list str) : option str :=
  match l with [] => None | x :: l' => Some (fold_left str_max l' x) end.

Definition key_range (lv : Level) : option (str * str) :=
  match list_min (omap (fun t => fst <$> sst_min t) (lv_sstables lv)) with
  | None => None
  | Some mn =>
      match list_max (omap (fun t => fst <$> sst_max t) (lv_sstables lv)) with
      | None => None
      | Some mx => Some (mn, mx)
      end
  end.

Definition overlapping_files (lv : Level) (min_key max_key : str) : list SSTable :=
  List.filter (fun t => match sst_min t, sst_max t with
                        | Some (file_min, _), Some (file_max, _) =>
                            str_leb min_key file_max && str_leb file_min max_key
                        | _, _ => false
                        end) (lv_sstables lv).

Section Leveled.
Context `{Clock} `{Nanos}.

Fixpoint level_total (acc : Z) (l : list SSTable) : ST World Z :=
  match l with
  | [] => st_ret acc
  | t :: l' => let* s := table_size t in level_total (wrap64 (acc + s)) l'
  end.

Definition needs_compaction (lv : Level) : ST World bool :=
  if level_num lv =? 0 then st_ret (len (lv_sstables lv) =? l0_threshold lv)
  else let* total := level_total 0 (lv_sstables lv) in st_ret (max_bytes lv <=? total).

(** The body of the merge loops; [drop] when the result is a terminal level. *)
Definition lv_merge_record (drop : bool) (now : Z) (m : Memtable) (r : Rec) : Memtable :=
  match entry m (key r) with
  | Some _ => m
  | None =>
      if is_tombstone (header r) || expired (expiry_ms (header r)) now
      then if drop then m else mem_remove m (key r)
      else mem_insert m (key r) (value r) (expiry_ms (header r))
  end.

Fixpoint lv_merge (drop : bool) (now : Z) (m : Memtable) (l : list SSTable) : ST World Memtable :=
  match l with
  | [] => st_ret m
  | t :: l' =>
      let* items := table_items t in
      let* m' := st_lift (scan (lv_merge_record drop now) m items) in
      lv_merge drop now m' l'
  end.

(** The merge of [squash], which removes each table once it has been read. *)
Fixpoint squash_merge (drop : bool) (now : Z) (m : Memtable) (l : list SSTable)
    : ST World Memtable :=
  match l with
  | [] => st_ret m
  | t :: l' =>
      let* items := table_items t in
      let* m' := st_lift (scan (lv_merge_record drop now) m items) in
      let* _ := remove_file (path t) in
      squash_merge drop now m' l'
  end.

Definition get_level (i : nat) : ST (Leveled * World) (option Level) :=
  self (fun s => levels s !! i).
Definition alter_level (f : Level -> Level) (i : nat) : ST (Leveled * World) unit :=
  set_self (fun s => set_levels (alter f i (levels s)) s).

(** [self.levels[i].squash(..)], and the append of its result. *)
Definition squash (db : str) (i : nat) : ST (Leveled * World) unit :=
  let* o := get_level i in
  match o with
  | None => st_lift Panic
  | Some lv =>
      match lv_sstables lv with
      | [] => st_ret tt
      | _ :: _ =>
          let* now := lift_w now_ms in
          let* m := lift_w (squash_merge (is_terminal lv) now mem_new (level_iter lv)) in
          let* _ := alter_level (set_lv_sstables []) i in
          let* block := self lv_block_size in
          let* c := self lv_compression in
          let* t := lift_w (write_table db m (Some (level_num lv)) block c) in
          alter_level (level_append t) i
      end
  end.

Definition compact_levels (db : str) (source_id target_id : nat) : ST (Leveled * World) unit :=
  let* s := get_level source_id in
  let* t := get_level target_id in
  match s, t with
  | Some source, Some target =>
      if (target_id <=? source_id)%nat then st_lift (Err InvalidInput)
      else
        let* now := lift_w now_ms in
        match key_range source with
        | None => st_ret tt
        | Some (start_key, end_key) =>
            let overlap := overlapping_files target start_key end_key in
            let paths := path <$> overlap in
            let* m := lift_w (lv_merge (is_terminal target) now mem_new (level_iter source)) in
            let* m := lift_w (lv_merge (is_terminal target) now m overlap) in
            let* block := self lv_block_size in
            let* c := self lv_compression in
            let* tbl := lift_w (write_table db m (Some (level_num target)) block c) in
            let* _ := alter_level (fun lv =>
              level_append tbl (set_lv_sstables
                (List.filter (fun x => negb (bool_decide (path x ∈ paths))) (lv_sstables lv)) lv))
              target_id in
            let* _ := lift_w (st_iter remove_file (remove_dups paths)) in
            let* _ := lift_w (st_iter (fun x => remove_file (path x)) (level_iter source)) in
            alter_level (set_lv_sstables []) source_id
        end
  | _, _ => st_lift (Err InvalidInput)
  end.

Definition lv_add_sstable (t : SSTable) : ST (Leveled * World) unit :=
  let* l := self levels in
  match l with
  | [] => st_lift (Err Other)
  | _ :: _ => alter_level (level_append t) 0
  end.

(** The loops over the levels [i], [i + 1], ..., [i + n - 1]. *)
Fixpoint lv_compact_from (db : str) (i n : nat) : ST (Leveled * World) bool :=
  match n with
  | O => st_ret false
  | S n' =>
      let* o := get_level i in
      match o with
      | None => st_lift Panic
      | Some lv =>
          let* needs := lift_w (needs_compaction lv) in
          if needs then
            let* _ := (if is_terminal lv then squash db i else compact_levels db i (S i)) in
            st_ret true
          else lv_compact_from db (S i) n'
      end
  end.

Definition lv_compact_if_needed (db : str) : ST (Leveled * World) bool :=
  let* n := self (fun s => length (levels s)) in lv_compact_from db 0 n.

Fixpoint lv_compact_all_from (db : str) (i n : nat) : ST (Leveled * World) unit :=
  match n with
  | O => st_ret tt
  | S n' =>
      let* o := get_level i in
      match o with
      | None => st_lift Panic
      | Some lv =>
          let* _ := (if is_terminal lv then squash db i else compact_levels db i (S i)) in
          lv_compact_all_from db (S i) n'
      end
  end.

Definition lv_compact_all (db : str) : ST (Leveled * World) unit :=
  let* n := self (fun s => length (levels s)) in lv_compact_all_from db 0 n.

(** Levels in order, each newest first. *)
Definition lv_iter_all (s : Leveled) : list SSTable := concat (map level_iter (levels s)).

Definition lv_iter_for_key (s : Leveled) (k : str) : list (result SSTable) :=
  bloom_filter k (lv_iter_all s).

Definition lv_iter_files_for_range (s : Leveled) (start_key end_key : str) : list SSTable :=
  files_for_range (lv_iter_all s) start_key end_key.

Definition lv_segment_count (s : Leveled) : Z := len (lv_iter_all s).

#[export] Instance leveled_strategy : StorageStrategy Leveled := {
  add_sstable := lv_add_sstable;
  compact_if_needed := lv_compact_if_needed;
  compact_all := lv_compact_all;
  iter_for_key := lv_iter_for_key;
  iter_files_for_range := lv_iter_files_for_range;
  iter_all := lv_iter_all;
  strategy_segment_count := lv_segment_count;
}.

(** [Leveled::new]; the arithmetic on [u64] wraps, as in a release build. *)
Definition new_level (num_levels l0 l1_max : Z) (i : nat) : Level :=
  mkLevel [] (Z.of_nat i) (wrap64 (l1_max * 10 ^ Z.of_nat (i - 1))) l0
    (Z.of_nat i =? num_levels - 1).

Definition lv_new (num_levels l0 l1_max block : Z) (compression : bool) : Leveled :=
  mkLeveled (map (new_level num_levels l0 l1_max) (seq 0 (Z.to_nat num_levels))) block compression.

(** [Leveled::load_from_dir]. *)
Fixpoint lv_load_loop (l : list SSTable) : ST (Leveled * World) unit :=
  match l with
  | [] => st_ret tt
  | t :: l' =>
      let* d := lift_w (st_gets disk) in
      let* t' := st_lift (rebuild_index d t) in
      let* n := self (fun s => length (levels s)) in
      let lvl := Z.to_nat (default 0 (level t')) in
      let* _ := (if (lvl <? n)%nat then alter_level (level_append t') lvl
                 else match n with
                      | O => st_lift Panic
                      | S n' => alter_level (level_append t') n'
                      end) in
      lv_load_loop l'
  end.

Definition lv_load_from_dir (db : str) (num_levels l0 l1_max block : Z) (compression : bool)
    : ST World Leveled :=
  let* tables := get_sstables db in
  fun w =>
    let '((s, w'), r) := lv_load_loop tables (lv_new num_levels l0 l1_max block compression, w) in
    (w', let? _ := r in Ok s).

End Leveled.
