(* ===== verification/LsmEngine.v ===== *)
(** * The LSM engine (src/src/lsmengine.rs)

    Writes go to the log and to the active memtable; a full memtable becomes
    the immutable one, which a background thread writes out as a table and
    hands to the storage strategy. The clients' operations follow one another;
    the background thread advances between them by [bg_step], and [join] runs it
    to its end. An operation other than [list_keys] and [range] looks at the
    thread's work under one span of locks, or at a [join], so it is one step;
    those two release the lock on the tables before they look at the memtables,
    and their models take the steps the thread makes in between. After a panic
    only the poisoning of the locks that the background thread shares (the
    strategy's and the handle's) is followed. *)

From S2P Require Import Prelude Utils Utf8 Bloom Collections Text Record Memtable Wal Block.
From S2P Require Import Sstable HashIndex World Engine KvEngine Strategy.

(** The order in which a hash set of keys is traversed. *)
Class SetOrder := {
  set_keys : gset str -> list str;
  set_keys_perm s : set_keys s ≡ₚ elements s;
}.

(** Where the background thread is: it writes the table, adds it to the
    strategy, then clears the immutable memtable. [NoFlush] is an empty
    [flush_handle]. *)
Inductive Flush :=
  | NoFlush
  | Writing
  | Adding (t : SSTable)
  | Clearing
  | Finished
  | Panicked.

Record LsmEngine (T : Type) := mkLsm {
  active : Memtable;
  immutable : option Memtable;
  flush_handle : Flush;
  lsm_db : str;
  max_memtable_bytes : Z;
  storage_strategy : T;
  poisoned : bool;              (* the lock around the strategy *)
  block_size_bytes : Z;
  block_compression : bool;
}.
#[global] Arguments mkLsm {T} _ _ _ _ _ _ _ _ _.
#[global] Arguments active {T} _.
#[global] Arguments immutable {T} _.
#[global] Arguments flush_handle {T} _.
#[global] Arguments lsm_db {T} _.
#[global] Arguments max_memtable_bytes {T} _.
#[global] Arguments storage_strategy {T} _.
#[global] Arguments poisoned {T} _.
#[global] Arguments block_size_bytes {T} _.
#[global] Arguments block_compression {T} _.

Section Fields.
Context {T : Type}.
Definition set_active_mem (m : Memtable) (e : LsmEngine T) : LsmEngine T :=
  mkLsm m (immutable e) (flush_handle e) (lsm_db e) (max_memtable_bytes e) (storage_strategy e)
    (poisoned e) (block_size_bytes e) (block_compression e).
Definition set_immutable (m : option Memtable) (e : LsmEngine T) : LsmEngine T :=
  mkLsm (active e) m (flush_handle e) (lsm_db e) (max_memtable_bytes e) (storage_strategy e)
    (poisoned e) (block_size_bytes e) (block_compression e).
Definition set_flush (h : Flush) (e : LsmEngine T) : LsmEngine T :=
  mkLsm (active e) (immutable e) h (lsm_db e) (max_memtable_bytes e) (storage_strategy e)
    (poisoned e) (block_size_bytes e) (block_compression e).
Definition set_strategy (s : T) (p : bool) (e : LsmEngine T) : LsmEngine T :=
  mkLsm (active e) (immutable e) (flush_handle e) (lsm_db e) (max_memtable_bytes e) s
    p (block_size_bytes e) (block_compression e).
End Fields.

(** ** Reading *)

(** The two [match (entry.value, entry.expiry_ms)] of [lookup]. *)
Definition live_value (now : Z) (e : MemtableEntry) : option str :=
  match mvalue e, mexpiry e with
  | Some v, Some ms => if is_expired ms now then None else Some v
  | Some v, None => Some v
  | None, _ => None
  end.

Section Lsm.
Context `{Clock} `{Nanos} `{SetOrder} `{StorageStrategy T}.

Definition LsmState : Type := LsmEngine T * World.

(** The strategy behind its lock, for the operations that may change it. *)
Definition on_strategy {A} (m : ST (T * World) A) : ST LsmState A := fun s =>
  if poisoned s.1 then (s, Panic)
  else
    let '((t, w), r) := m (storage_strategy s.1, s.2) in
    ((set_strategy t (match r with Panic => true | _ => false end) s.1, w), r).

Definition read_strategy : ST LsmState T := fun s =>
  (s, if poisoned s.1 then Panic else Ok (storage_strategy s.1)).

(** The [for segment in strategy.iter_for_key(key)] loop. *)
Fixpoint lookup_tables (l : list (result SSTable)) (k : str) : ST World (option str) :=
  match l with
  | [] => st_ret None
  | x :: l' =>
      let* segment := st_lift x in
      let* r := table_get segment k in
      match r with
      | Some (Some v) => st_ret (Some v)
      | Some None => st_ret None
      | None => lookup_tables l' k
      end
  end.

Definition lookup (act : Memtable) (imm : option Memtable) (strategy : T) (k : str) (now : Z)
    : ST World (option str) :=
  match entry act k with
  | Some e => st_ret (live_value now e)
  | None =>
      match imm ≫= (fun m => entry m k) with
      | Some e => st_ret (live_value now e)
      | None => lookup_tables (iter_for_key strategy k) k
      end
  end.

Definition lsm_get (k : str) : ST LsmState (option (str * str)) :=
  let* now := lift_w now_ms in
  let* act := self active in
  let* imm := self immutable in
  let* strategy := read_strategy in
  let* r := lift_w (lookup act imm strategy k now) in
  st_ret (match r with Some v => Some (k, v) | None => None end).

(** ** The background flush *)

Definition bg_step : ST LsmState unit := fun s =>
  let e := s.1 in
  match flush_handle e with
  | Writing =>
      match immutable e with
      | None => ((set_flush Clearing e, s.2), Ok tt)
      | Some m =>
          match write_table (lsm_db e) m None (block_size_bytes e) (block_compression e) s.2 with
          | (w, Ok t) => ((set_flush (Adding t) e, w), Ok tt)
          | (w, _) => ((set_flush Panicked e, w), Ok tt)
          end
      end
  | Adding t =>
      if poisoned e then ((set_flush Panicked e, s.2), Ok tt)
      else
        match add_sstable t (storage_strategy e, s.2) with
        | ((s', w), Ok _) => ((set_flush Clearing (set_strategy s' false e), w), Ok tt)
        | ((s', w), _) => ((set_flush Panicked (set_strategy s' true e), w), Ok tt)
        end
  | Clearing => ((set_flush Finished (set_immutable None e), s.2), Ok tt)
  | NoFlush | Finished | Panicked => (s, Ok tt)
  end.

(** [if let Some(h) = handle.take() { h.join().unwrap() }]: the thread has at
    most three steps left. If it panicked, so does [unwrap], and the lock around
    the handle is poisoned: every later join panics too. *)
Definition join : ST LsmState unit :=
  let* _ := bg_step in
  let* _ := bg_step in
  let* _ := bg_step in
  let* h := self flush_handle in
  match h with Panicked => st_lift Panic | _ => set_self (set_flush NoFlush) end.

(** ** Writing *)

Definition lsm_wal_append (k v : str) (tombstone : bool) (e : option Z) : ST LsmState unit :=
  let* db := self lsm_db in
  lift_w (let* file := st_gets (fun w => default [] (disk w !! wal_name db)) in
          write_file (wal_name db) (wal_append file k v tombstone e).2).

Definition lsm_wal_reset : ST LsmState unit :=
  let* db := self lsm_db in
  lift_w (let* file := st_gets (fun w => default [] (disk w !! wal_name db)) in
          write_file (wal_name db) (wal_reset file)).

Definition apply_write (k : str) (v : option str) (expiry : option Z) : ST LsmState Z :=
  let* _ :=
    match v with
    | Some v =>
        let* _ := lsm_wal_append k v false expiry in
        set_self (fun e => set_active_mem (mem_insert (active e) k v expiry) e)
    | None =>
        let* _ := lsm_wal_append k [] true None in
        set_self (fun e => set_active_mem (mem_remove (active e) k) e)
    end in
  self (fun e => size_bytes (active e)).

Definition flush_memtable_async : ST LsmState unit :=
  let* _ := join in
  let* old := self active in
  let* _ := set_self (set_active_mem mem_new) in
  let* _ := set_self (set_immutable (Some old)) in
  let* _ := lsm_wal_reset in
  set_self (set_flush Writing).

Definition flush_if_full (size : Z) : ST LsmState unit :=
  let* max := self max_memtable_bytes in
  if max <=? size then flush_memtable_async else st_ret tt.

Definition lsm_set_with_ttl (k v : str) (expiry : option Z) : ST LsmState unit :=
  let* size := apply_write k (Some v) expiry in flush_if_full size.

Definition lsm_set (k v : str) : ST LsmState unit :=
  let* size := apply_write k (Some v) None in flush_if_full size.

Definition lsm_delete (k : str) : ST LsmState (option unit) :=
  let* found := lsm_get k in
  let* size := apply_write k None None in
  let* _ := flush_if_full size in
  st_ret (match found with Some _ => Some tt | None => None end).

Definition lsm_ttl (k : str) (expiry : option Z) : ST LsmState TtlOutcome :=
  let* now := lift_w now_ms in
  let* act := self active in
  let* imm := self immutable in
  let* strategy := read_strategy in
  let* r := lift_w (lookup act imm strategy k now) in
  match r with
  | None => st_ret TtlNotFound
  | Some v =>
      let* size := apply_write k (Some v) expiry in
      let* _ := flush_if_full size in
      st_ret (match expiry with Some _ => TtlSet | None => TtlPersisted end)
  end.

Definition lsm_exists (k : str) : ST LsmState bool := fun s =>
  match lsm_get k s with
  | (s', Ok o) => (s', Ok (match o with Some _ => true | None => false end))
  | (s', Err _) => (s', Ok false)
  | (s', Panic) => (s', Panic)
  end.

Fixpoint lsm_mget (keys : list str) : ST LsmState (list (str * option str)) :=
  match keys with
  | [] => st_ret []
  | k :: keys' =>
      let* r := lsm_get k in
      let* rest := lsm_mget keys' in
      st_ret (match r with Some (k', v) => (k', Some v) | None => (k, None) end :: rest)
  end.

Definition lsm_mset (items : list (str * str)) : ST LsmState unit :=
  st_iter (fun p => lsm_set p.1 p.2) items.

Definition lsm_mset_with_ttl (items : list (str * str * option Z)) : ST LsmState unit :=
  st_iter (fun p => lsm_set_with_ttl p.1.1 p.1.2 p.2) items.

(** ** Compaction *)

Definition lsm_compact : ST LsmState unit :=
  let* _ := join in
  let* _ := read_strategy in
  let* old := self active in
  let* _ := set_self (set_active_mem mem_new) in
  let* _ := set_self (set_immutable (Some old)) in
  let* db := self lsm_db in
  let* block := self block_size_bytes in
  let* c := self block_compression in
  let* _ := on_strategy (let* t := lift_w (write_table db old None block c) in add_sstable t) in
  let* _ := lsm_wal_reset in
  let* _ := set_self (set_immutable None) in
  on_strategy (compact_all db).

Definition lsm_compact_step : ST LsmState bool :=
  let* db := self lsm_db in on_strategy (compact_if_needed db).

Definition lsm_segment_count : ST LsmState Z :=
  let* s := read_strategy in st_ret (strategy_segment_count s).

(** ** Listing *)

(** One record, and one memtable entry, in the set of [list_keys]. *)
Definition keys_record (now : Z) (keys : gset str) (r : Rec) : gset str :=
  if is_tombstone (header r) then keys ∖ {[key r]}
  else if expired (expiry_ms (header r)) now then keys ∖ {[key r]}
  else keys ∪ {[key r]}.

Definition keys_entry (now : Z) (keys : gset str) (p : str * MemtableEntry) : gset str :=
  match live_value now p.2 with
  | Some _ => keys ∪ {[p.1]}
  | None => keys ∖ {[p.1]}
  end.

(** [for segment in tables { for result in segment.iter()? { .. } }]. *)
Fixpoint scan_tables {A} (body : A -> Rec -> A) (acc : A) (l : list SSTable) : ST World A :=
  match l with
  | [] => st_ret acc
  | t :: l' =>
      let* items := table_items t in
      let* acc' := st_lift (scan body acc items) in
      scan_tables body acc' l'
  end.

(** The three blocks of [list_keys], each under one lock. The background thread
    can advance between them: [n1] and [n2] are the numbers of its steps after
    the first and the second. *)
Definition list_tables (now : Z) : ST LsmState (gset str) :=
  let* strategy := read_strategy in
  lift_w (scan_tables (keys_record now) ∅ (iter_all strategy)).

Definition list_memtable (now : Z) (m : option Memtable) (keys : gset str) : gset str :=
  match m with
  | Some m => fold_left (keys_entry now) (entries m) keys
  | None => keys
  end.

Definition list_keys_with (n1 n2 : nat) : ST LsmState (list str) :=
  let* now := lift_w now_ms in
  let* keys := list_tables now in
  let* _ := st_iter (fun _ => bg_step) (repeat tt n1) in
  let* imm := self immutable in
  let keys := list_memtable now imm keys in
  let* _ := st_iter (fun _ => bg_step) (repeat tt n2) in
  let* act := self active in
  st_ret (set_keys (list_memtable now (Some act) keys)).

Definition lsm_list_keys : ST LsmState (list str) := list_keys_with 0 0.

(** ** Ranges *)

Definition range_record (lo hi : str) (now : Z) (b_map : list (str * str)) (r : Rec)
    : list (str * str) :=
  if str_ltb (key r) lo || str_ltb hi (key r) then b_map
  else if expired (expiry_ms (header r)) now then bt_remove (key r) b_map
  else if is_tombstone (header r) then bt_remove (key r) b_map
  else bt_insert (key r) (value r) b_map.

Definition range_entry (now : Z) (b_map : list (str * str)) (p : str * MemtableEntry)
    : list (str * str) :=
  match live_value now p.2 with
  | Some v => bt_insert p.1 v b_map
  | None => bt_remove p.1 b_map
  end.

Definition range_memtable (lo hi : str) (now : Z) (m : option Memtable) (b_map : list (str * str))
    : list (str * str) :=
  match m with
  | Some m => fold_left (range_entry now) (bt_range lo hi (entries m)) b_map
  | None => b_map
  end.

(** [range], with [n1] and [n2] steps of the background thread between its
    three blocks, as for [list_keys]. *)
Definition range_with (n1 n2 : nat) (lo hi : str) : ST LsmState (list (str * str)) :=
  if str_ltb hi lo then st_ret []
  else
    let* now := lift_w now_ms in
    let* strategy := read_strategy in
    let* b_map := lift_w (scan_tables (range_record lo hi now) []
                            (iter_files_for_range strategy lo hi)) in
    let* _ := st_iter (fun _ => bg_step) (repeat tt n1) in
    let* imm := self immutable in
    let b_map := range_memtable lo hi now imm b_map in
    let* _ := st_iter (fun _ => bg_step) (repeat tt n2) in
    let* act := self active in
    st_ret (range_memtable lo hi now (Some act) b_map).

Definition lsm_range (lo hi : str) : ST LsmState (list (str * str)) := range_with 0 0 lo hi.

(** ** Opening *)

Definition lsm_new (db : str) (max : Z) (s : T) (block : Z) (compression : bool)
    : ST World (LsmEngine T) :=
  let* _ := wal_open db in
  st_ret (mkLsm mem_new None NoFlush db max s false block compression).

Definition lsm_from_dir (db : str) (max : Z) (s : T) (block : Z) (compression : bool)
    : ST World (LsmEngine T) :=
  let* _ := wal_open db in
  let* file := open_read (wal_name db) in
  let* memtable := st_lift (replay file) in
  st_ret (mkLsm memtable None NoFlush db max s false block compression).

#[export] Instance lsm_storage_engine : StorageEngine LsmState := {
  e_get := lsm_get;
  e_delete := lsm_delete;
  e_compact := lsm_compact;
  e_dead_bytes := st_ret 0;
  e_total_bytes := st_ret 0;
  e_segment_count := lsm_segment_count;
  e_list_keys := lsm_list_keys;
  e_exists := lsm_exists;
  e_mget := lsm_mget;
  e_compact_step := lsm_compact_step;
  e_ttl := lsm_ttl;
  e_set_with_ttl := lsm_set_with_ttl;
  e_mset_with_ttl := lsm_mset_with_ttl;
  e_set := lsm_set;
  e_mset := lsm_mset;
  e_range := Some lsm_range;
}.

End Lsm.
#[global] Arguments LsmState : clear implicits.
