(* ===== verification/LsmSpans.v ===== *)
(** * The operations of the LSM engine as spans

    [LsmEngine] (src/src/lsmengine.rs) cut where its locks are released: a read
    holds the memtables and the strategy together; a write holds the log and the
    active memtable, and starts a flush, under the lock of its handle, only
    afterwards; a deletion reads first; a listing and a range take the tables,
    the immutable and the active memtable one after the other. The engine's own
    thread is the background flush; an operation that waits for it runs it to
    its end in the span in which it waits. Alone, each is the operation of
    [LsmEngine]. *)

From S2P Require Import Prelude Utf8 Bloom Collections Text Record Memtable Wal Block Utils.
From S2P Require Import Sstable World Engine KvEngine KvInv Spans Strategy LsmEngine.

Section Spans.
Context `{CK : Clock} `{NS : Nanos} `{SO : SetOrder} `{SS : StorageStrategy T}.

Definition find_span (k : str) (now : Z) : ST (LsmState T) (option str) :=
  let* act := self active in
  let* imm := self immutable in
  let* strategy := read_strategy in
  lift_w (lookup act imm strategy k now).

Definition lsm_get_spans (k : str) : Prog (LsmState T) (option (str * str)) :=
  let~ now := atom (lift_w now_ms) in
  let~ r := atom (find_span k now) in
  p_ret (match r with Some v => Some (k, v) | None => None end).

Definition flush_spans (size : Z) : Prog (LsmState T) unit :=
  let~ max := atom (self max_memtable_bytes) in
  if max <=? size then atom flush_memtable_async else p_ret tt.

Definition lsm_set_spans (k v : str) (expiry : option Z) : Prog (LsmState T) unit :=
  let~ size := atom (apply_write k (Some v) expiry) in flush_spans size.

Definition lsm_delete_spans (k : str) : Prog (LsmState T) (option unit) :=
  let~ found := lsm_get_spans k in
  let~ size := atom (apply_write k None None) in
  let~ _ := flush_spans size in
  p_ret (match found with Some _ => Some tt | None => None end).

(** The lookup and the write are under one hold of the locks. *)
Definition lsm_ttl_spans (k : str) (expiry : option Z) : Prog (LsmState T) TtlOutcome :=
  let~ now := atom (lift_w now_ms) in
  let~ written := atom (let* found := find_span k now in
                        match found with
                        | None => st_ret None
                        | Some v => let* size := apply_write k (Some v) expiry in st_ret (Some size)
                        end) in
  match written with
  | None => p_ret TtlNotFound
  | Some size =>
      let~ _ := flush_spans size in
      p_ret (match expiry with Some _ => TtlSet | None => TtlPersisted end)
  end.

Definition lsm_exists_spans (k : str) : Prog (LsmState T) bool :=
  let~ r := p_try (lsm_get_spans k) in
  p_ret (match r with Ok (Some _) => true | _ => false end).

Fixpoint lsm_mget_spans (keys : list str) : Prog (LsmState T) (list (str * option str)) :=
  match keys with
  | [] => p_ret []
  | k :: keys' =>
      let~ r := lsm_get_spans k in
      let~ rest := lsm_mget_spans keys' in
      p_ret (match r with Some (k', v) => (k', Some v) | None => (k, None) end :: rest)
  end.

Definition lsm_list_spans : Prog (LsmState T) (list str) :=
  let~ now := atom (lift_w now_ms) in
  let~ keys := atom (list_tables now) in
  let~ imm := atom (self immutable) in
  let~ act := atom (self active) in
  p_ret (set_keys (list_memtable now (Some act) (list_memtable now imm keys))).

Definition lsm_range_spans (lo hi : str) : Prog (LsmState T) (list (str * str)) :=
  if str_ltb hi lo then p_ret []
  else
    let~ now := atom (lift_w now_ms) in
    let~ b_map := atom (let* strategy := read_strategy in
                        lift_w (scan_tables (range_record lo hi now) []
                                  (iter_files_for_range strategy lo hi))) in
    let~ imm := atom (self immutable) in
    let~ act := atom (self active) in
    p_ret (range_memtable lo hi now (Some act) (range_memtable lo hi now imm b_map)).

(** Everything after the wait for the flush is under the lock of the strategy.
    The other locks are released before the merge of the tables; a write that
    comes in there does not touch the tables, and the merge is part of the
    span. *)
Definition compact_span : ST (LsmState T) unit :=
  let* _ := read_strategy in
  let* old := self active in
  let* _ := set_self (set_active_mem mem_new) in
  let* _ := set_self (set_immutable (Some old)) in
  let* db := self lsm_db in
  let* block := self block_size_bytes in
  let* c := self block_compression in
  let* _ := on_strategy (let* t := lift_w (write_table db old None block c) in add_sstable t) in
  let* _ := lsm_wal_reset in
  let* _ := set_self (set_immutable None) in
  on_strategy (compact_all db).

#[export] Instance lsm_span_engine : SpanEngine (LsmState T) := {
  p_get := lsm_get_spans;
  p_delete := lsm_delete_spans;
  p_list_keys := lsm_list_spans;
  p_exists := lsm_exists_spans;
  p_mget := lsm_mget_spans;
  p_ttl := lsm_ttl_spans;
  p_set_with_ttl := lsm_set_spans;
  p_mset_with_ttl l := p_iter (fun p => lsm_set_spans p.1.1 p.1.2 p.2) l;
  p_range := Some lsm_range_spans;
  p_compact := let~ _ := atom join in atom compact_span;
  own_step := bg_step;
}.

(** ** Alone, the spans are the operations *)

Lemma alone_lsm_get k s : run_alone (lsm_get_spans k) s = lsm_get k s.
Proof. unfold lsm_get_spans, find_span, lsm_get. by repeat alone_step. Qed.

Lemma alone_flush size s : run_alone (flush_spans size) s = flush_if_full size s.
Proof. unfold flush_spans, flush_if_full. repeat alone_step. destruct (_ <=? _); [apply run_atom | done]. Qed.

Lemma alone_lsm_set k v e s : run_alone (lsm_set_spans k v e) s = lsm_set_with_ttl k v e s.
Proof. unfold lsm_set_spans, lsm_set_with_ttl. repeat alone_step. apply alone_flush. Qed.

Lemma alone_lsm_mget ks s : run_alone (lsm_mget_spans ks) s = lsm_mget ks s.
Proof.
  revert s. induction ks as [|k ks IH]; intros s; [done|]. cbn [lsm_mget_spans lsm_mget].
  apply run_bind_eq; [intros; apply alone_lsm_get|]. intros r s1. apply run_bind_eq; [exact IH | done].
Qed.

Lemma alone_lsm_ttl k e s : run_alone (lsm_ttl_spans k e) s = lsm_ttl k e s.
Proof.
  unfold lsm_ttl_spans, find_span, lsm_ttl. repeat alone_step.
  match goal with |- context [match ?f with None => st_ret None | Some _ => _ end] => destruct f as [v|] end; [|done].
  repeat alone_step; [apply alone_flush | done].
Qed.

Lemma alone_lsm_delete k s : run_alone (lsm_delete_spans k) s = lsm_delete k s.
Proof.
  unfold lsm_delete_spans, lsm_delete. apply run_bind_eq; [intros; apply alone_lsm_get|]. intros r s1.
  repeat alone_step; [apply alone_flush | done].
Qed.

Lemma alone_lsm_exists k s : run_alone (lsm_exists_spans k) s = lsm_exists k s.
Proof.
  unfold lsm_exists_spans, lsm_exists. rewrite run_bind. unfold st_bind. rewrite run_try, alone_lsm_get.
  by destruct (lsm_get k s) as [s' [[|]| |]].
Qed.

Lemma alone_lsm_list s : run_alone lsm_list_spans s = lsm_list_keys s.
Proof. unfold lsm_list_spans, lsm_list_keys, list_keys_with. cbn [repeat st_iter]. by repeat alone_step. Qed.

Lemma alone_lsm_range lo hi s : run_alone (lsm_range_spans lo hi) s = lsm_range lo hi s.
Proof.
  unfold lsm_range_spans, lsm_range, range_with. destruct (str_ltb hi lo); [done|]. cbn [repeat st_iter].
  by repeat alone_step.
Qed.

#[export] Instance lsm_span_laws : SpanLaws (LsmState T).
Proof.
  split.
  - apply alone_lsm_get.
  - apply alone_lsm_delete.
  - apply alone_lsm_list.
  - apply alone_lsm_exists.
  - apply alone_lsm_mget.
  - apply alone_lsm_ttl.
  - apply alone_lsm_set.
  - intros l s. apply run_iter. intros [[k v] e] s1. apply alone_lsm_set.
  - intros lo hi s. apply alone_lsm_range.
  - intros s. cbn [p_compact lsm_span_engine]. unfold e_compact, lsm_storage_engine, lsm_compact, compact_span.
    repeat alone_step. done.
Qed.
End Spans.
