(* ===== verification/TableInv.v ===== *)
(** * Tables on disk and what a search through them finds

    [holds d t m]: the file of table [t] in the directory [d] is the one
    written from the memtable [m]. A list of tables is then a list of
    memtables, and a search that takes the first table that knows the key finds
    [first_entry]. *)

From S2P Require Import Prelude Utils Utf8 Bloom Collections Text Record Memtable Wal Block.
From S2P Require Import Sstable SstableSpec HashIndex World Engine KvEngine KvLog KvInv KvOps.
From S2P Require Import Strategy LsmEngine.

Definition mem_ok (m : Memtable) : Prop := bt_wf (entries m) /\ Forall entry_ok (entries m).

Definition holds (d : files) (t : SSTable) (m : Memtable) : Prop :=
  mem_ok m /\ exists c file gs, built m c t file gs /\ d !! path t = Some file.

(** The first memtable that has an entry for the key. *)
Fixpoint first_entry (ms : list Memtable) (k : str) : option MemtableEntry :=
  match ms with
  | [] => None
  | m :: ms' => match entry m k with Some e => Some e | None => first_entry ms' k end
  end.

(** What a reader sees of an entry: the value and its expiry. *)
Definition entry_binding (o : option MemtableEntry) : option (str * option Z) :=
  match o with
  | Some e => match mvalue e with Some v => Some (v, mexpiry e) | None => None end
  | None => None
  end.

(** The clock reads as a [u64] over the first [N] readings, and no two
    tables get the same nanosecond. *)
Class GoodTime `{Clock} `{Nanos} (N : nat) : Prop := {
  time_range i : (i < N)%nat -> 0 <= clock i < 2 ^ 64;
  nanos_range i : (i < N)%nat -> 0 <= nanos i;
  nanos_distinct i j : (i < j)%nat -> (j < N)%nat -> wrap64 (nanos i) <> wrap64 (nanos j);
}.

(** ** Names *)

Lemma sst_filename_ts nm lvl ts nm' lvl' ts' :
  is_u64 ts -> is_u64 ts' -> sst_filename nm lvl ts = sst_filename nm' lvl' ts' -> ts = ts'.
Proof.
  intros H1 H2 E.
  assert (Hs : forall n l t, exists p, sst_filename n l t = (p ++ bs "_" ++ dec t) ++ bs ".sst").
  { intros n [l|] t; [exists (n ++ bs "_L" ++ dec l) | exists n];
      unfold sst_filename; by rewrite <- !app_assoc. }
  destruct (Hs nm lvl ts) as [p Hp], (Hs nm' lvl' ts') as [q Hq].
  rewrite Hp, Hq in E. apply app_inv_tail in E.
  assert (Hr : forall p t, is_u64 t -> rsplit_once (bs "_") (p ++ bs "_" ++ dec t) = Some (p, dec t)).
  { intros r t Ht. apply (rsplit_once_char _ r (dec t)).
    apply digits_not_char; [done | by apply dec_digits]. }
  pose proof (Hr p ts H1) as R. rewrite E, Hr in R by done. injection R as _ R.
  pose proof (parse_dec 64 ts H1 (proj2 H1)) as P1.
  pose proof (parse_dec 64 ts' H2 (proj2 H2)) as P2. congruence.
Qed.

Lemma sst_filename_not_wal nm lvl ts db : sst_filename nm lvl ts <> wal_name db.
Proof.
  intros E. apply (f_equal last) in E. unfold wal_name in E.
  destruct lvl as [l|]; unfold sst_filename in E;
    rewrite ?app_assoc, !last_app in E; by vm_compute in E.
Qed.

(** ** [holds] *)

Lemma holds_insert d t m n b : d !! n = None \/ path t <> n -> holds d t m -> holds (<[n := b]> d) t m.
Proof.
  intros Hn (Hok & c & file & gs & Hb & Hf). split; [done|]. exists c, file, gs. split; [done|].
  destruct (decide (path t = n)) as [<-|Hne]; [destruct Hn; congruence|].
  by rewrite lookup_insert_ne.
Qed.

Lemma holds_delete d t m n : path t <> n -> holds d t m -> holds (delete n d) t m.
Proof.
  intros Hn (Hok & c & file & gs & Hb & Hf). split; [done|]. exists c, file, gs. split; [done|].
  by rewrite lookup_delete_ne.
Qed.

Lemma holds_get d t m k now : holds d t m -> sst_get d t k now = Ok (entry_value now <$> entry m k).
Proof. intros ([Hs _] & c & file & gs & Hb & Hf). by eapply built_get. Qed.

Lemma holds_items d t m :
  holds d t m -> exists file, d !! path t = Some file /\
    sst_items file = (fun p => Ok (sealed (entry_record p))) <$> entries m.
Proof.
  intros (_ & c & file & gs & [Hr Hl _ _ _] & Hf). exists file. split; [done|].
  by rewrite (sst_items_laid _ _ _ _ _ Hl), Hr, <- list_fmap_compose.
Qed.

(** The filter of a table answers, and only skips a table that lacks the key. *)
Lemma holds_bloom d t m k :
  holds d t m -> might_contain (bloom t) k = Ok true \/
    (might_contain (bloom t) k = Ok false /\ entry m k = None).
Proof.
  intros Hh. pose proof (holds_get d t m k 0 Hh) as Hg. unfold sst_get in Hg.
  destruct (might_contain (bloom t) k) as [[]| |]; cbn in Hg; [by left | right | done | done].
  split; [done|]. by destruct (entry m k).
Qed.

Lemma live_value_entry now e : live_value now e = entry_value now e.
Proof. unfold live_value, entry_value, expired. by destruct (mvalue e), (mexpiry e). Qed.

Lemma entry_value_binding o now :
  (o ≫= entry_value now) = match entry_binding o with
                           | Some (v, e) => if expired e now then None else Some v
                           | None => None
                           end.
Proof. unfold entry_binding. destruct o as [e|]; [|done]. unfold entry_value. cbn. by destruct (mvalue e). Qed.

Lemma first_entry_app a b k :
  first_entry (a ++ b) k = match first_entry a k with Some e => Some e | None => first_entry b k end.
Proof. induction a as [|m a IH]; cbn; [done|]. by destruct (entry m k). Qed.

Lemma bloom_filter_cons k t l :
  bloom_filter k (t :: l) = match might_contain (bloom t) k with
                            | Ok true => Ok t :: bloom_filter k l
                            | Ok false => bloom_filter k l
                            | Err e => Err e :: bloom_filter k l
                            | Panic => Panic :: bloom_filter k l
                            end.
Proof. unfold bloom_filter. cbn. by destruct (might_contain (bloom t) k) as [[]| |]. Qed.

(** Time only advances; the goal that a prefix stays within the bound of [H]. *)
Ltac solve_mono :=
  intros; repeat first [apply _ | apply mono_bind; [|intros] | case_match].
Ltac within H := etrans; [|exact H]; apply bind_ticks_le; solve_mono.

(** ** Running *)

Section Run.
Context `{CK : Clock} `{NS : Nanos} (N : nat) `{GT : !GoodTime N}.

#[export] Instance ticking_pair {T} : Ticking (T * World) := fun s => ticks s.2.
#[export] Instance mono_lift_w {T A} (m : ST World A) : Mono m -> Mono (lift_w (T := T) m).
Proof. intros Hm s. unfold lift_w. specialize (Hm s.2). by destruct (m s.2). Qed.
#[export] Instance mono_self {T A} (f : T -> A) : Mono (self f).
Proof. intros s. apply le_n. Qed.
#[export] Instance mono_set_self {T} (f : T -> T) : Mono (set_self f).
Proof. intros s. apply le_n. Qed.
#[export] Instance mono_write_table nm m lvl b c : Mono (write_table nm m lvl b c).
Proof.
  intros w. unfold write_table, st_bind, read_nanos. unfold ticks_of, ticking_world.
  cbn -[from_memtable]. destruct (from_memtable _ _ _ _ _ _ _) as [[]| |]; cbn; lia.
Qed.
#[export] Instance mono_table_get t k : Mono (table_get t k).
Proof.
  unfold table_get. apply mono_bind; [apply _|]. intros []; apply _.
Qed.
#[export] Instance mono_lookup_tables l k : Mono (lookup_tables l k).
Proof.
  induction l as [|x l IH]; cbn; [apply _|]. apply mono_bind; [apply _|]. intros t.
  apply mono_bind; [apply _|]. intros [[]|]; apply _.
Qed.

Lemma now_run w : (ticks w < N)%nat ->
  now_ms w = (mkWorld (disk w) (durable w) (S (ticks w)), Ok (clock (ticks w))).
Proof.
  intros Ht. unfold now_ms, st_bind, read_clock.
  pose proof (time_range (N := N) _ Ht) as Hr.
  rewrite (proj2 (Z.ltb_ge _ _)) by lia. unfold st_ret. by rewrite wrap_small by done.
Qed.

(** A table that answers, for the clock of the moment it is read. *)
Lemma table_get_run t k w m :
  holds (disk w) t m -> (ticks (table_get t k w).1 <= N)%nat ->
  exists w', table_get t k w = (w', Ok (entry_value (clock (ticks w)) <$> entry m k)) /\
    disk w' = disk w /\ (ticks w <= ticks w')%nat.
Proof.
  intros Hh Ht. pose proof (holds_get _ _ _ k (clock (ticks w)) Hh) as Hg.
  unfold sst_get in Hg. unfold table_get, st_lift in *.
  destruct (holds_bloom _ _ _ k Hh) as [E|[E Hn]]; rewrite E in *; cbn [rbind] in Hg.
  - destruct (holds_items _ _ _ Hh) as (file & Hf & _). rewrite Hf in Hg.
    rewrite (st_bind_Ok _ _ _ w true) in * by done.
    assert (Ho : open_read (path t) w = (w, Ok file)) by (unfold open_read; by rewrite Hf).
    rewrite (st_bind_Ok _ _ _ _ _ Ho) in *.
    rewrite (st_bind_Ok _ _ _ _ _ (now_run w ltac:(pose proof (now_ms_ticks w) as Hw;
      unfold st_bind in Ht; destruct (now_ms w) as [w1 [n| |]]; cbn in *; lia))).
    eexists. split; [by rewrite Hg|]. split; [done|]. cbn. lia.
  - exists w. rewrite (st_bind_Ok _ _ _ w false) by done. by rewrite Hn.
Qed.

Lemma lookup_tables_run l ms k w :
  Forall2 (holds (disk w)) l ms ->
  (ticks (lookup_tables (bloom_filter k l) k w).1 <= N)%nat ->
  exists w' i, lookup_tables (bloom_filter k l) k w
      = (w', Ok (first_entry ms k ≫= entry_value (clock i))) /\
    disk w' = disk w /\ (ticks w <= i <= ticks w')%nat.
Proof.
  revert ms w. induction l as [|t l IH]; intros ms w HF Ht.
  { inversion HF; subst. exists w, (ticks w). split; [done|]. split; [done | lia]. }
  inversion HF as [|? m ? ms' Hh HF']; subst. rewrite bloom_filter_cons in *.
  destruct (holds_bloom _ _ _ k Hh) as [E|[E Hn]]; rewrite E in *;
    cbn [first_entry lookup_tables] in *; [|rewrite Hn; by apply IH].
  destruct (table_get_run t k w m Hh) as (w1 & E1 & Hd & Hw).
  { etrans; [|exact Ht]. unfold st_lift, st_bind.
    destruct (table_get t k w) as [w1 [[[]|]| |]]; cbn; try lia.
    apply (mono_lookup_tables (bloom_filter k l) k w1). }
  unfold st_lift in *. rewrite (st_bind_Ok _ _ _ w t) in * by done.
  rewrite (st_bind_Ok _ _ _ _ _ E1) in *.
  destruct (entry m k) as [e|]; cbn [fmap option_fmap option_map] in *.
  - exists w1, (ticks w). cbn. destruct (entry_value _ e); repeat split; auto; lia.
  - destruct (IH ms' w1) as (w' & i & E2 & Hd2 & Hi); [by rewrite Hd | done |].
    exists w', i. repeat split; [done | congruence | lia | lia].
Qed.

Lemma write_table_run nm m lvl b c w :
  (ticks w < N)%nat -> params_ok b -> mem_ok m ->
  disk w !! sst_filename nm lvl (wrap64 (nanos (ticks w))) = None ->
  exists t file, write_table nm m lvl b c w
      = (mkWorld (<[path t := file]> (disk w)) (durable w) (S (ticks w)), Ok t) /\
    path t = sst_filename nm lvl (wrap64 (nanos (ticks w))) /\
    sst_timestamp t = wrap64 (nanos (ticks w)) /\ name t = nm /\ level t = lvl /\
    holds (<[path t := file]> (disk w)) t m.
Proof.
  intros Htk Hp Hok Hf. unfold write_table, st_bind, read_nanos. cbn [disk].
  destruct (from_memtable_built (disk w) (nanos (ticks w)) nm m lvl b c (nanos_range _ Htk) Hp
              (proj2 Hok) Hf)
    as (t & file & gs & E & Hpath & Hts & Hn & Hl & Hb).
  rewrite E. exists t, file. rewrite Hpath. repeat split; try done; try apply Hok.
  exists c, file, gs. split; [done|]. rewrite Hpath. apply lookup_insert_eq.
Qed.
End Run.

(** A clock that advances by one millisecond, and one nanosecond, per reading. *)
Module ExTime.
Definition ck : Clock := fun i => 1000 + Z.of_nat i.
Definition ns : Nanos := fun i => Z.of_nat i.

Lemma good : @GoodTime ck ns 1000.
Proof.
  split.
  - intros i Hi. unfold clock, ck. lia.
  - intros i Hi. unfold nanos, ns. lia.
  - intros i j Hij Hj. unfold nanos, ns. rewrite !wrap_small by (unfold is_uint; lia). lia.
Defined.
End ExTime.
