(* ===== verification/MergeInv.v ===== *)
(** * Merging tables: what a compaction keeps

    The merge loops of both strategies take the first entry they meet for each
    key. This file says which entries the merged memtable has and that the
    loops return on tables that are on disk. *)

From S2P Require Import Prelude Utils Utf8 Bloom Collections Text Record Memtable Wal Block.
From S2P Require Import Sstable SstableSpec HashIndex World Engine KvEngine KvLog KvInv KvOps.
From S2P Require Import Strategy Float SizeTiered Leveled LsmEngine TableInv.

(** An entry no reader sees at [now] or later. *)
Definition dead (now : Z) (e : MemtableEntry) : bool :=
  match mvalue e with None => true | Some _ => expired (mexpiry e) now end.

(** What a merge that keeps tombstones makes of an entry. *)
Definition purge (now : Z) (e : MemtableEntry) : MemtableEntry :=
  if dead now e then mkEntry None None else e.

(** The first entry for the key that is not dead. *)
Fixpoint first_live (now : Z) (ms : list Memtable) (k : str) : option MemtableEntry :=
  match ms with
  | [] => None
  | m :: ms' =>
      match entry m k with
      | Some e => if dead now e then first_live now ms' k else Some e
      | None => first_live now ms' k
      end
  end.

(** The value a search through tables with these contents finds. *)
Definition visible (ms : list Memtable) (k : str) (t : Z) : option str :=
  first_entry ms k ≫= entry_value t.

(** What the merge finds for a key after the contents [ms]. *)
Definition merged (drop : bool) (now : Z) (ms : list Memtable) (k : str) : option MemtableEntry :=
  if drop then first_live now ms k else purge now <$> first_entry ms k.

(** ** Lemmas *)

Lemma dead_mono now t e : now <= t -> dead now e = true -> entry_value t e = None.
Proof.
  unfold dead, entry_value. destruct (mvalue e); [|done]. intros Ht Hd.
  by rewrite (expired_mono _ now t).
Qed.

Lemma purge_value now t e : now <= t -> entry_value t (purge now e) = entry_value t e.
Proof. intros Ht. unfold purge. destruct (dead now e) eqn:E; [|done]. by rewrite (dead_mono now t e). Qed.

Lemma purge_ok now k e : entry_ok (k, e) -> entry_ok (k, purge now e).
Proof.
  unfold purge. destruct (dead now e); [|done]. unfold entry_ok. cbn. intros []. by split.
Qed.

Lemma entry_record_dead now k e :
  let r := sealed (entry_record (k, e)) in
  is_tombstone (header r) || expired (expiry_ms (header r)) now = dead now e.
Proof.
  cbn zeta. rewrite sealed_tombstone. unfold entry_record, dead. cbn [fst snd].
  destruct (mvalue e); rewrite make_record_tombstone; [|done]. done.
Qed.

(** One record of a merge. *)
Lemma lv_merge_record_entry drop now m k e k' :
  entry (lv_merge_record drop now m (sealed (entry_record (k, e)))) k'
  = match entry m k' with
    | Some x => Some x
    | None => if decide (k' = k) then merged drop now [mkMem [(k, e)] 0] k else None
    end.
Proof.
  unfold lv_merge_record. cbn zeta. rewrite entry_record_dead.
  change (key (sealed (entry_record (k, e)))) with (key (entry_record (k, e))).
  rewrite entry_record_key. cbn [fst].
  assert (Hm : merged drop now [mkMem [(k, e)] 0] k
               = if dead now e then (if drop then None else Some (mkEntry None None)) else Some e).
  { unfold merged. cbn. rewrite decide_True by done. cbn. unfold purge. by destruct drop, (dead now e). }
  rewrite Hm. destruct (entry m k) as [x|] eqn:Ek.
  { destruct (entry m k') eqn:E'; [done|]. case_decide; [congruence | done]. }
  destruct (dead now e) eqn:Ed.
  - destruct drop; [by destruct (entry m k'), (decide (k' = k))|]. rewrite entry_remove.
    case_decide; [subst; by rewrite Ek | by destruct (entry m k')].
  - rewrite entry_insert. unfold dead in Ed. destruct (mvalue e) as [v|] eqn:Ev; [|done].
    assert (Hr : sealed (entry_record (k, e)) = sealed (make_record k v false (mexpiry e)))
      by (unfold entry_record; cbn [fst snd]; by rewrite Ev).
    rewrite Hr. cbn. case_decide; [|by destruct (entry m k')]. subst. rewrite Ek.
    destruct e as [ve xe]. cbn in *. by subst ve.
Qed.

Lemma lv_merge_record_ok drop now m k e :
  mem_ok m -> entry_ok (k, e) ->
  mem_ok (lv_merge_record drop now m (sealed (entry_record (k, e)))).
Proof.
  intros [Hs Hf] He. unfold lv_merge_record.
  change (key (sealed (entry_record (k, e)))) with (key (entry_record (k, e))).
  rewrite entry_record_key. cbn [fst]. destruct (entry m k); [done|].
  cbn zeta. rewrite entry_record_dead. destruct (dead now e) eqn:Ed.
  - destruct drop; [done|]. split; [by apply bt_insert_wf|]. apply bt_insert_Forall; [|done].
    pose proof (purge_ok now k e He) as Hp. unfold purge in Hp. by rewrite Ed in Hp.
  - unfold dead in Ed. destruct (mvalue e) as [v|] eqn:Ev; [|done].
    assert (Hr : sealed (entry_record (k, e)) = sealed (make_record k v false (mexpiry e)))
      by (unfold entry_record; cbn [fst snd]; by rewrite Ev).
    rewrite Hr. split; [by apply bt_insert_wf|]. apply bt_insert_Forall; [|done].
    unfold entry_ok in *. cbn in *. by rewrite Ev in He.
Qed.

(** One table. *)
Lemma scan_merge drop now ps m :
  bt_wf ps -> Forall entry_ok ps -> mem_ok m ->
  exists m', scan (lv_merge_record drop now) m ((fun p => Ok (sealed (entry_record p))) <$> ps) = Ok m' /\
    mem_ok m' /\
    forall k, entry m' k = match entry m k with
                           | Some x => Some x
                           | None => merged drop now [mkMem ps 0] k
                           end.
Proof.
  intros Hs Hf. revert m. induction ps as [|[k e] ps IH]; intros m Hm.
  { exists m. split; [done|]. split; [done|]. intros k. destruct (entry m k); [done|]. by destruct drop. }
  apply bt_wf_cons_inv in Hs as [Hs Hall]. inversion Hf as [|? ? He Hf']; subst.
  destruct (IH Hs Hf' (lv_merge_record drop now m (sealed (entry_record (k, e)))))
    as (m' & E & Hok & Hen); [by apply lv_merge_record_ok|].
  exists m'. split; [exact E|]. split; [done|]. intros k'. rewrite Hen, lv_merge_record_entry.
  destruct (entry m k') as [x|]; [done|].
  unfold merged, first_live, first_entry, entry. cbn [entries bt_get].
  case_decide as Hk; [|done]. subst k'.
  assert (Hn : bt_get k ps = None) by (apply bt_get_lt; eapply Forall_impl; [exact Hall|]; done).
  rewrite Hn, decide_True by done. destruct drop; [by destruct (dead now e)|done].
Qed.

Lemma merged_cons drop now m ms k :
  merged drop now (m :: ms) k = match merged drop now [m] k with
                                | Some x => Some x
                                | None => merged drop now ms k
                                end.
Proof.
  unfold merged. cbn. destruct drop, (entry m k) as [e|]; try done. by destruct (dead now e).
Qed.

Lemma merged_app drop now a b k :
  merged drop now (a ++ b) k = match merged drop now a k with
                               | Some x => Some x
                               | None => merged drop now b k
                               end.
Proof.
  induction a as [|m a IH]; [by destruct drop|]. cbn [app].
  rewrite merged_cons, IH, (merged_cons _ _ _ a). by destruct (merged drop now [m] k).
Qed.

(** A merge that keeps tombstones is seen like the tables it merges. *)
Lemma merged_keep_visible now t ms k :
  now <= t -> merged false now ms k ≫= entry_value t = visible ms k t.
Proof.
  intros Ht. unfold merged, visible. destruct (first_entry ms k); [|done]. cbn. by apply purge_value.
Qed.

Section Run.
Context `{CK : Clock} `{NS : Nanos} (N : nat) `{GT : !GoodTime N}.

Lemma table_items_run t m w : holds (disk w) t m ->
  table_items t w = (w, Ok ((fun p => Ok (sealed (entry_record p))) <$> entries m)).
Proof.
  intros Hh. destruct (holds_items _ _ _ Hh) as (file & Hf & Hi).
  unfold table_items, st_bind, open_read. rewrite Hf. unfold st_ret. by rewrite Hi.
Qed.

Lemma remove_file_run n w : is_Some (disk w !! n) ->
  remove_file n w = (with_disk w (delete n (disk w)), Ok tt).
Proof. intros [b Hb]. unfold remove_file. by rewrite Hb. Qed.

(** Deleting a list of files. *)
Definition delete_all (l : list str) (d : files) : files := foldr delete d l.

Lemma delete_all_lookup l d n :
  delete_all l d !! n = if decide (n ∈ l) then None else d !! n.
Proof.
  induction l as [|x l IH]; [by rewrite decide_False by apply not_elem_of_nil|].
  change (delete_all (x :: l) d) with (delete x (delete_all l d)).
  destruct (decide (x = n)) as [->|Hne].
  - rewrite lookup_delete_eq, decide_True; [done | left].
  - rewrite lookup_delete_ne, IH by done.
    destruct (decide (n ∈ l)); [rewrite decide_True by (by right); done|].
    rewrite decide_False; [done|]. rewrite elem_of_cons. naive_solver.
Qed.

Lemma holds_delete_all d t m l : path t ∉ l -> holds d t m -> holds (delete_all l d) t m.
Proof.
  induction l as [|x l IH]; intros Hn Hh; [done|]. rewrite not_elem_of_cons in Hn.
  change (delete_all (x :: l) d) with (delete x (delete_all l d)).
  apply holds_delete; [naive_solver|]. apply IH; [naive_solver | done].
Qed.

Lemma holds_all_impl d d' l ms :
  (forall t, t ∈ l -> forall m, holds d t m -> holds d' t m) ->
  Forall2 (holds d) l ms -> Forall2 (holds d') l ms.
Proof.
  intros Hi HF. induction HF as [|t m l ms Hh _ IH]; constructor.
  - apply Hi; [left | done].
  - apply IH. intros. apply Hi; [by right | done].
Qed.

Lemma holds_on_disk d l ms t : Forall2 (holds d) l ms -> t ∈ l -> is_Some (d !! path t).
Proof.
  induction 1 as [|t' m l ms (_ & c & file & gs & _ & Hf) _ IH]; intros Hin;
    [by apply not_elem_of_nil in Hin|].
  apply elem_of_cons in Hin as [->|Hin]; eauto.
Qed.

Lemma elem_of_rev {A} (x : A) l : x ∈ rev l <-> x ∈ l.
Proof. by rewrite !list_elem_of_In, <- in_rev. Qed.

Lemma holds_ok d l ms : Forall2 (holds d) l ms -> Forall mem_ok ms.
Proof. induction 1 as [|t m l ms [Hok _] _ IH]; by constructor. Qed.

(** The merge that leaves the files alone. *)
Lemma lv_merge_run drop now l ms m w :
  Forall2 (holds (disk w)) l ms -> mem_ok m ->
  exists m', lv_merge drop now m l w = (w, Ok m') /\ mem_ok m' /\
    forall k, entry m' k = match entry m k with
                           | Some x => Some x
                           | None => merged drop now ms k
                           end.
Proof.
  intros HF. revert m. induction HF as [|t tm l ms Hh _ IH]; intros m Hm.
  { exists m. split; [done|]. split; [done|]. intros k. destruct (entry m k); by destruct drop. }
  pose proof Hh as ([Hs Hf] & _).
  destruct (scan_merge drop now (entries tm) m Hs Hf Hm) as (m1 & E1 & Hm1 & He1).
  destruct (IH m1 Hm1) as (m' & E & Hm' & He'). exists m'. split.
  { cbn [lv_merge]. rewrite (st_bind_Ok _ _ _ _ _ (table_items_run t tm w Hh)).
    unfold st_lift. rewrite E1. by rewrite (st_bind_Ok _ _ _ w m1). }
  split; [done|]. intros k. rewrite He', He1. destruct (entry m k); [done|].
  by rewrite (merged_cons _ _ tm).
Qed.

(** The merges that remove each file they have read. *)
Lemma squash_merge_run drop now l ms m w :
  Forall2 (holds (disk w)) l ms -> NoDup (path <$> l) -> mem_ok m ->
  exists m', squash_merge drop now m l w
      = (with_disk w (delete_all (rev (path <$> l)) (disk w)), Ok m') /\ mem_ok m' /\
    forall k, entry m' k = match entry m k with
                           | Some x => Some x
                           | None => merged drop now ms k
                           end.
Proof.
  intros HF. revert w ms m HF. induction l as [|t l IH]; intros w ms m HF Hnd Hm.
  { inversion HF; subst. exists m. split; [by destruct w|]. split; [done|].
    intros k. destruct (entry m k); by destruct drop. }
  inversion HF as [|? tm ? ms' Hh HF']; subst. pose proof Hh as ([Hs Hf] & c & file & gs & _ & Hfile).
  cbn in Hnd. apply NoDup_cons in Hnd as [Hnin Hnd].
  destruct (scan_merge drop now (entries tm) m Hs Hf Hm) as (m1 & E1 & Hm1 & He1).
  set (w1 := with_disk w (delete (path t) (disk w))).
  destruct (IH w1 ms' m1) as (m' & E & Hm' & He'); [|done|done|].
  { cbn. eapply holds_all_impl; [|exact HF']. intros t' Ht' tm' Hh'. apply holds_delete; [|done].
    intros Heq. apply Hnin. rewrite <- Heq. by apply list_elem_of_fmap_2. }
  exists m'. split.
  { cbn [squash_merge]. rewrite (st_bind_Ok _ _ _ _ _ (table_items_run t tm w Hh)).
    unfold st_lift. rewrite E1. rewrite (st_bind_Ok _ _ _ w m1) by done.
    rewrite (st_bind_Ok _ _ _ _ _ (remove_file_run (path t) w (ex_intro _ _ Hfile))).
    etrans; [exact E|]. unfold w1, with_disk. cbn. unfold delete_all. by rewrite foldr_app. }
  split; [done|]. intros k. rewrite He', He1. destruct (entry m k); [done|].
  by rewrite (merged_cons _ _ tm).
Qed.

Lemma st_merge_squash now m l w : st_merge now m l w = squash_merge false now m l w.
Proof.
  revert m w. induction l as [|t l IH]; intros m w; [done|]. cbn [st_merge squash_merge].
  unfold st_bind, st_lift. destruct (table_items t w) as [w1 [items| |]]; try done.
  change (scan (st_merge_record now)) with (scan (lv_merge_record false now)).
  destruct (scan _ m items) as [m2| |]; try done.
  destruct (remove_file (path t) w1) as [w3 [[]| |]]; done.
Qed.
End Run.
