(* ===== verification/LeveledInv.v ===== *)
(** * The leveled strategy: invariant and compaction

    Below level 0 the tables of a level share no key. Merging a level into the
    next keeps that, and changes no read as long as no tombstone or expired
    value is merged into the last level. *)

From S2P Require Import Prelude Utils Utf8 Bloom Collections Text Record Memtable Wal Block.
From S2P Require Import Sstable SstableSpec HashIndex World Engine KvEngine KvLog KvInv KvOps.
From S2P Require Import Strategy Leveled LsmEngine TableInv MergeInv.

(** ** Contents that share no key *)

Fixpoint disj (ms : list Memtable) : Prop :=
  match ms with
  | [] => True
  | m :: ms' => (forall k, entry m k = None \/ first_entry ms' k = None) /\ disj ms'
  end.

Lemma first_entry_None ms k : first_entry ms k = None <-> Forall (fun m => entry m k = None) ms.
Proof.
  induction ms as [|m ms IH]; cbn; [by split|]. rewrite Forall_cons, <- IH.
  destruct (entry m k); naive_solver.
Qed.

Lemma first_entry_None_perm a b k : a ≡ₚ b -> first_entry a k = None <-> first_entry b k = None.
Proof. intros H. by rewrite !first_entry_None, H. Qed.

Lemma disj_perm a b : a ≡ₚ b -> disj a -> disj b /\ forall k, first_entry a k = first_entry b k.
Proof.
  induction 1 as [|m a b Hab IH|m1 m2 a|a b c Hab IH1 Hbc IH2]; cbn; intros Hd.
  - done.
  - destruct Hd as [Hm Hd]. destruct (IH Hd) as [Hd' Hf]. split.
    + split; [|done]. intros k. by rewrite <- Hf.
    + intros k. by rewrite Hf.
  - destruct Hd as (H1 & H2 & Hd). split.
    + split_and!; [|intros k|done].
      * intros k. specialize (H1 k). specialize (H2 k). cbn in H1.
        destruct (entry m1 k), (entry m2 k), (first_entry a k); naive_solver.
      * specialize (H1 k). cbn in H1. destruct (entry m1 k), (entry m2 k); naive_solver.
    + intros k. specialize (H1 k). cbn in H1.
      destruct (entry m1 k), (entry m2 k), (first_entry a k); naive_solver.
  - destruct (IH1 Hd) as [Hb E1]. destruct (IH2 Hb) as [Hc E2]. split; [done|].
    intros k. by rewrite E1.
Qed.

Lemma disj_app a b : disj (a ++ b) ->
  disj a /\ disj b /\ forall k, first_entry a k = None \/ first_entry b k = None.
Proof.
  induction a as [|m a IH]; cbn; [by auto|]. intros [Hm Hd]. destruct (IH Hd) as (Ha & Hb & Hab).
  split_and!; try done.
  - intros k. specialize (Hm k). rewrite first_entry_app in Hm.
    destruct (entry m k), (first_entry a k); naive_solver.
  - intros k. specialize (Hm k). specialize (Hab k). rewrite first_entry_app in Hm.
    destruct (entry m k), (first_entry a k), (first_entry b k); naive_solver.
Qed.

(** In contents that share no key, a dead entry hides nothing. *)
Lemma disj_first_live now ms k : disj ms ->
  first_live now ms k = match first_entry ms k with
                        | Some e => if dead now e then None else Some e
                        | None => None
                        end.
Proof.
  induction ms as [|m ms IH]; cbn; [done|]. intros [Hm Hd]. specialize (Hm k).
  rewrite (IH Hd). destruct (entry m k); [|done]. destruct Hm as [|Hm]; [done|]. by rewrite Hm.
Qed.

(** ** Ranges of keys *)

Definition str_le (a b : str) : Prop := str_leb a b = true.

Lemma str_le_refl a : str_le a a.
Proof. unfold str_le. apply str_leb_le. by right. Qed.

Lemma str_le_trans a b c : str_le a b -> str_le b c -> str_le a c.
Proof.
  unfold str_le. rewrite !str_leb_le. intros [H1| ->] [H2| ->]; auto. left. by eapply str_lt_trans.
Qed.

Lemma str_le_total a b : str_leb a b = false -> str_le b a.
Proof. rewrite str_leb_gt. unfold str_le. rewrite str_leb_le. auto. Qed.

Lemma fold_min l x : let r := fold_left str_min l x in str_le r x /\ Forall (str_le r) l.
Proof.
  cbn zeta. revert x. induction l as [|y l IH]; intros x; cbn; [split; [apply str_le_refl | done]|].
  destruct (IH (str_min x y)) as [H1 H2].
  assert (Hm : str_le (str_min x y) x /\ str_le (str_min x y) y).
  { unfold str_min. destruct (str_leb x y) eqn:E; [by split; [apply str_le_refl|]|].
    split; [by apply str_le_total | apply str_le_refl]. }
  destruct Hm as [Hx Hy]. split; [by eapply str_le_trans|]. constructor; [by eapply str_le_trans | done].
Qed.

Lemma fold_max l x : let r := fold_left str_max l x in str_le x r /\ Forall (fun y => str_le y r) l.
Proof.
  cbn zeta. revert x. induction l as [|y l IH]; intros x; cbn; [split; [apply str_le_refl | done]|].
  destruct (IH (str_max x y)) as [H1 H2].
  assert (Hm : str_le x (str_max x y) /\ str_le y (str_max x y)).
  { unfold str_max. destruct (str_leb x y) eqn:E; [by split; [|apply str_le_refl]|].
    split; [apply str_le_refl | by apply str_le_total]. }
  destruct Hm as [Hx Hy]. split; [by eapply str_le_trans|]. constructor; [by eapply str_le_trans | done].
Qed.

Lemma list_min_le l r x : list_min l = Some r -> x ∈ l -> str_le r x.
Proof.
  destruct l as [|y l]; [done|]. intros [= <-] Hin. destruct (fold_min l y) as [H1 H2].
  apply elem_of_cons in Hin as [->|Hin]; [done|]. rewrite Forall_forall in H2. by apply H2.
Qed.

Lemma list_max_le l r x : list_max l = Some r -> x ∈ l -> str_le x r.
Proof.
  destruct l as [|y l]; [done|]. intros [= <-] Hin. destruct (fold_max l y) as [H1 H2].
  apply elem_of_cons in Hin as [->|Hin]; [done|]. rewrite Forall_forall in H2. by apply H2.
Qed.

Lemma list_min_None l : list_min l = None -> l = [].
Proof. by destruct l. Qed.
Lemma list_max_None l : list_max l = None -> l = [].
Proof. by destruct l. Qed.

(** The index of a written table starts with its first key. *)
Lemma laid_out_head c gs off file idx :
  laid_out c gs off file idx ->
  fst <$> head idx = key <$> head (concat gs).
Proof. destruct 1; done. Qed.

Lemma sorted_head_le (ps : list (str * MemtableEntry)) k e : bt_wf ps -> bt_get k ps = Some e ->
  exists k0, (fst <$> head ps) = Some k0 /\ str_le k0 k.
Proof.
  destruct ps as [|[k0 e0] ps]; [done|]. intros Hs Hg. exists k0. split; [done|].
  apply bt_wf_cons_inv in Hs as [_ Hall]. apply bt_get_In in Hg.
  apply elem_of_cons in Hg as [[= -> _]|Hin]; [apply str_le_refl|].
  rewrite Forall_forall in Hall. specialize (Hall _ Hin). unfold str_le. rewrite str_leb_le. by left.
Qed.

Lemma sorted_last_le (ps : list (str * MemtableEntry)) k e : bt_wf ps -> bt_get k ps = Some e ->
  exists k1, last (fst <$> ps) = Some k1 /\ str_le k k1.
Proof.
  revert k e. induction ps as [|[k0 e0] ps IH]; [done|]. intros k e Hs Hg.
  apply bt_wf_cons_inv in Hs as [Hs Hall]. cbn in Hg.
  destruct ps as [|[k2 e2] ps].
  { case_decide; [|done]. subst. exists k0. split; [done | apply str_le_refl]. }
  assert (Hl : last (fst <$> (k0, e0) :: (k2, e2) :: ps) = last (fst <$> (k2, e2) :: ps)) by done.
  rewrite Hl. case_decide as Ek; [|by apply (IH k e)]. subst k0.
  destruct (IH k2 e2 Hs) as (k1 & E & Hle); [cbn; by rewrite decide_True|].
  exists k1. split; [done|]. eapply str_le_trans; [|exact Hle].
  inversion Hall as [|? ? Hlt _]; subst. unfold str_le. rewrite str_leb_le. by left.
Qed.

(** The bounds a table declares contain its keys. *)
Lemma holds_range d t m k e : holds d t m -> entry m k = Some e ->
  exists mn o1 mx o2, sst_min t = Some (mn, o1) /\ sst_max t = Some (mx, o2) /\
    str_le mn k /\ str_le k mx.
Proof.
  intros ([Hs _] & c & file & gs & [Hr Hl _ Hmin Hmax] & _) He.
  destruct (sorted_head_le _ _ _ Hs He) as (k0 & Hk0 & Hle0).
  destruct (sorted_last_le _ _ _ Hs He) as (k1 & Hk1 & Hle1).
  pose proof (laid_out_head _ _ _ _ _ Hl) as Hh. rewrite Hr in Hh.
  rewrite Hk1 in Hmax. destruct (entries m) as [|[k' e'] ps]; [done|]. cbn in Hh, Hk0.
  rewrite entry_record_key in Hh. cbn in Hh. injection Hk0 as ->.
  rewrite <- Hmin in Hh. destruct (sst_min t) as [[mn o1]|]; [|done]. injection Hh as ->.
  by eexists _, _, _, _.
Qed.

Lemma key_range_covers d lv ms a b k e :
  Forall2 (holds d) (level_iter lv) ms -> key_range lv = Some (a, b) ->
  first_entry ms k = Some e -> str_le a k /\ str_le k b.
Proof.
  intros HF Hr Hf. unfold key_range in Hr.
  destruct (list_min _) as [mn|] eqn:Emin; [|done]. destruct (list_max _) as [mx|] eqn:Emax; [|done].
  injection Hr as <- <-.
  assert (Ht : exists t m, t ∈ lv_sstables lv /\ holds d t m /\ entry m k = Some e).
  { assert (Hin : forall t, t ∈ level_iter lv -> t ∈ lv_sstables lv) by (intros t; apply elem_of_rev).
    revert Hin Hf. induction HF as [|t m l ms' Hh _ IH]; [done|]. cbn. intros Hin.
    destruct (entry m k) as [e'|] eqn:Ee; [intros [= ->]; exists t, m; split_and!; try done; apply Hin; left|].
    intros Hf. apply IH; [|done]. intros. apply Hin. by right. }
  destruct Ht as (t & m & Hin & Hh & He).
  destruct (holds_range _ _ _ _ _ Hh He) as (m1 & o1 & m2 & o2 & E1 & E2 & H1 & H2).
  split.
  - eapply str_le_trans; [|exact H1]. eapply list_min_le; [exact Emin|].
    apply list_elem_of_omap. exists t. by rewrite E1.
  - eapply str_le_trans; [exact H2|]. eapply list_max_le; [exact Emax|].
    apply list_elem_of_omap. exists t. by rewrite E2.
Qed.

(** A level whose tables declare no bounds is empty of keys. *)
Lemma key_range_None d lv ms k :
  Forall2 (holds d) (level_iter lv) ms -> key_range lv = None -> first_entry ms k = None.
Proof.
  intros HF Hr. apply first_entry_None.
  assert (Hno : forall t m, t ∈ level_iter lv -> holds d t m -> entry m k = None).
  { intros t m Hin Hh. destruct (entry m k) as [e|] eqn:He; [|done]. exfalso.
    destruct (holds_range _ _ _ _ _ Hh He) as (m1 & o1 & m2 & o2 & E1 & E2 & _).
    apply (elem_of_rev t (lv_sstables lv)) in Hin. unfold key_range in Hr.
    assert (Hmn : m1 ∈ omap (fun t => fst <$> sst_min t) (lv_sstables lv))
      by (apply list_elem_of_omap; exists t; by rewrite E1).
    assert (Hmx : m2 ∈ omap (fun t => fst <$> sst_max t) (lv_sstables lv))
      by (apply list_elem_of_omap; exists t; by rewrite E2).
    destruct (list_min _) eqn:F1; [|apply list_min_None in F1; rewrite F1 in Hmn; by apply not_elem_of_nil in Hmn].
    destruct (list_max _) eqn:F2; [done|]. apply list_max_None in F2. rewrite F2 in Hmx.
    by apply not_elem_of_nil in Hmx. }
  revert Hno. generalize (level_iter lv) HF. clear. intros l HF.
  induction HF as [|t m l ms Hh _ IH]; intros Hno; constructor.
  - apply (Hno t m); [left | done].
  - apply IH. intros. eapply Hno; [by right | done].
Qed.

(** The tables selected for a merge, as a predicate. *)
Definition overlaps (a b : str) (t : SSTable) : bool :=
  match sst_min t, sst_max t with
  | Some (file_min, _), Some (file_max, _) => str_leb a file_max && str_leb file_min b
  | _, _ => false
  end.

Lemma overlapping_filter lv a b : overlapping_files lv a b = List.filter (overlaps a b) (lv_sstables lv).
Proof. done. Qed.

Lemma holds_overlaps d t m a b k e :
  holds d t m -> entry m k = Some e -> str_le a k -> str_le k b -> overlaps a b t = true.
Proof.
  intros Hh He Ha Hb. destruct (holds_range _ _ _ _ _ Hh He) as (m1 & o1 & m2 & o2 & E1 & E2 & H1 & H2).
  unfold overlaps. rewrite E1, E2. apply andb_true_iff. split.
  - by eapply str_le_trans.
  - by eapply str_le_trans.
Qed.

(** ** The merge of two levels *)

Lemma first_live_None now ms k : first_entry ms k = None -> first_live now ms k = None.
Proof.
  induction ms as [|m ms IH]; cbn; [done|]. by destruct (entry m k).
Qed.

Lemma merged_Some drop now ms k e : merged drop now ms k = Some e -> first_entry ms k <> None.
Proof.
  unfold merged. destruct drop.
  - intros Hl Hn. by rewrite first_live_None in Hl.
  - by destruct (first_entry ms k).
Qed.

Section Merge.
Context (drop : bool) (now : Z) (M : Memtable) (src tgt ovl R : list Memtable).
Hypothesis Hdisj : disj tgt.
Hypothesis Hperm : tgt ≡ₚ ovl ++ R.
Hypothesis HM : forall k, entry M k = merged drop now (src ++ ovl) k.

Lemma merge_visible post k x :
  (drop = true -> post = [] /\ forall e, first_entry src k = Some e -> dead now e = false) ->
  now <= x ->
  first_entry (M :: R ++ post) k ≫= entry_value x
  = first_entry (src ++ tgt ++ post) k ≫= entry_value x.
Proof.
  intros Hdrop Hx. destruct (disj_perm _ _ Hperm Hdisj) as [Hd Hf].
  destruct (disj_app _ _ Hd) as (Ho & Hr & Hor). specialize (Hor k).
  cbn [first_entry]. rewrite HM, !first_entry_app, Hf, first_entry_app, merged_app.
  unfold merged. destruct drop.
  - destruct (Hdrop eq_refl) as [-> Hlive]. rewrite (disj_first_live now ovl) by done. cbn [first_entry].
    destruct (first_entry src k) as [e|] eqn:Es.
    + assert (Hl : first_live now src k = Some e).
      { specialize (Hlive e eq_refl). clear -Es Hlive. revert Es.
        induction src as [|m l IH]; [done|]. cbn. destruct (entry m k) as [e'|]; [|exact IH].
        intros [= ->]. by rewrite Hlive. }
      by rewrite Hl.
    + rewrite first_live_None by done. destruct (first_entry ovl k) as [e|]; [|done].
      destruct (dead now e) eqn:Ed; [|done]. destruct Hor as [|Hor]; [done|]. rewrite Hor. cbn.
      by rewrite (dead_mono now x e).
  - destruct (first_entry src k) as [e|]; cbn; [by apply purge_value|].
    destruct (first_entry ovl k) as [e|]; cbn; [by apply purge_value|]. done.
Qed.

Lemma merge_disj :
  (forall k, first_entry src k <> None -> first_entry R k = None) -> disj (M :: R).
Proof.
  intros Hr. destruct (disj_perm _ _ Hperm Hdisj) as [Hd _].
  destruct (disj_app _ _ Hd) as (_ & HR & Hor). cbn. split; [|done].
  intros k. rewrite HM. destruct (merged _ _ _ _) as [e|] eqn:Em; [right | by left].
  apply merged_Some in Em. rewrite first_entry_app in Em. specialize (Hr k). specialize (Hor k).
  destruct (first_entry src k); [by apply Hr|]. naive_solver.
Qed.
End Merge.

(** ** Lists *)

Lemma Forall2_filter_split {A B} (P : A -> B -> Prop) (p : A -> bool) l ms :
  Forall2 P l ms -> exists a b, Forall2 P (List.filter p l) a /\
    Forall2 P (List.filter (fun x => negb (p x)) l) b /\ ms ≡ₚ a ++ b.
Proof.
  induction 1 as [|x y l ms Hxy _ (a & b & Ha & Hb & Hp)]; [exists [], []; by repeat constructor|].
  cbn. destruct (p x); cbn.
  - exists (y :: a), b. split_and!; [by constructor | done | by rewrite Hp].
  - exists a, (y :: b). split_and!; [done | by constructor |]. rewrite Hp. apply Permutation_middle.
Qed.

Lemma Forall2_rev {A B} (P : A -> B -> Prop) l ms : Forall2 P l ms -> Forall2 P (rev l) (rev ms).
Proof. induction 1; cbn; [constructor|]. apply Forall2_app; [done | by constructor]. Qed.

Lemma filter_rev {A} (p : A -> bool) l : List.filter p (rev l) = rev (List.filter p l).
Proof.
  induction l as [|x l IH]; [done|]. cbn. rewrite List.filter_app, IH. cbn.
  destruct (p x); [done | by rewrite app_nil_r].
Qed.

Lemma alter_middle {A} (f : A -> A) a x b : alter f (length a) (a ++ x :: b) = a ++ f x :: b.
Proof. induction a as [|y a IH]; cbn; [done|]. f_equal. exact IH. Qed.

Lemma st_iter_fmap {S A B} (g : A -> B) (f : B -> ST S unit) l s :
  st_iter (fun x => f (g x)) l s = st_iter f (g <$> l) s.
Proof.
  revert s. induction l as [|x l IH]; intros s; cbn; [done|]. unfold st_bind.
  by destruct (f (g x) s) as [s1 [[]| |]].
Qed.

Lemma remove_files_run l w :
  NoDup l -> (forall n, n ∈ l -> is_Some (disk w !! n)) ->
  st_iter remove_file l w = (with_disk w (delete_all (rev l) (disk w)), Ok tt).
Proof.
  revert w. induction l as [|n l IH]; intros w Hnd Hin; [by destruct w|].
  apply NoDup_cons in Hnd as [Hn Hnd]. cbn [st_iter].
  rewrite (st_bind_Ok _ _ _ _ _ (remove_file_run n w (Hin n ltac:(left)))).
  rewrite IH; [|done|].
  - unfold with_disk, delete_all. cbn. by rewrite foldr_app.
  - intros n' Hn'. cbn. rewrite lookup_delete_ne by (intros ->; done). apply Hin. by right.
Qed.

(** ** The invariant *)

(** [mss] has the contents of the levels, newest table first. *)
Record lv_inv (s : Leveled) (d : files) (mss : list (list Memtable)) : Prop := {
  li_tables : Forall2 (fun lv ms => Forall2 (holds d) (level_iter lv) ms) (levels s) mss;
  li_paths : NoDup (path <$> lv_iter_all s);
  li_disj i ms : mss !! S i = Some ms -> disj ms;
  li_last i lv : levels s !! i = Some lv -> is_terminal lv = true -> S i = length (levels s);
}.

Lemma lv_iter_split L0 a b L1 blk c :
  lv_iter_all (mkLeveled (L0 ++ a :: b :: L1) blk c)
  = concat (map level_iter L0) ++ level_iter a ++ level_iter b ++ concat (map level_iter L1).
Proof. unfold lv_iter_all. cbn. rewrite map_app, concat_app. done. Qed.

Lemma levels_holds_impl d d' L mss :
  (forall t, t ∈ concat (map level_iter L) -> forall m, holds d t m -> holds d' t m) ->
  Forall2 (fun lv ms => Forall2 (holds d) (level_iter lv) ms) L mss ->
  Forall2 (fun lv ms => Forall2 (holds d') (level_iter lv) ms) L mss.
Proof.
  intros Hi HF. induction HF as [|lv ms L mss Hlv _ IH]; constructor.
  - eapply holds_all_impl; [|exact Hlv]. intros t Ht. apply Hi. cbn. apply elem_of_app. by left.
  - apply IH. intros t Ht. apply Hi. cbn. apply elem_of_app. by right.
Qed.

Lemma filter_path_eq (l : list SSTable) (p : SSTable -> bool) :
  NoDup (path <$> l) ->
  List.filter (fun x => negb (bool_decide (path x ∈ path <$> List.filter p l))) l
  = List.filter (fun x => negb (p x)) l.
Proof.
  intros Hnd. apply List.filter_ext_in. intros x Hx. f_equal. apply eq_true_iff_eq.
  rewrite bool_decide_eq_true, list_elem_of_fmap. split.
  - intros (y & Hxy & Hy). apply list_elem_of_In, List.filter_In in Hy as [Hy Hp].
    assert (x = y) as ->; [|done]. apply list_elem_of_In in Hx, Hy.
    clear -Hnd Hxy Hx Hy. induction l as [|z l IH]; [by apply not_elem_of_nil in Hx|].
    cbn in Hnd. apply NoDup_cons in Hnd as [Hz Hnd].
    apply elem_of_cons in Hx as [->|Hx], Hy as [->|Hy]; try done.
    + destruct Hz. rewrite Hxy. by apply list_elem_of_fmap_2.
    + destruct Hz. rewrite <- Hxy. by apply list_elem_of_fmap_2.
    + by apply IH.
  - intros Hp. exists x. split; [done|]. apply list_elem_of_In, List.filter_In. done.
Qed.

(** The tables of the target level, split by the range of the source. *)
Lemma target_split d (target : Level) tgt a b :
  Forall2 (holds d) (level_iter target) tgt -> NoDup (path <$> level_iter target) ->
  let overlap := overlapping_files target a b in
  let rest := List.filter (fun x => negb (bool_decide (path x ∈ path <$> overlap))) (lv_sstables target) in
  exists ovl R, Forall2 (holds d) overlap ovl /\ Forall2 (holds d) (rev rest) R /\
    tgt ≡ₚ ovl ++ R /\
    (forall k, str_le a k -> str_le k b -> first_entry R k = None) /\
    (forall t, t ∈ overlap -> t ∈ level_iter target) /\
    (forall t, t ∈ rev rest -> t ∈ level_iter target /\ path t ∉ (path <$> overlap)).
Proof.
  intros HF Hnd overlap rest. apply Forall2_rev in HF. unfold level_iter in HF, Hnd.
  rewrite rev_involutive in HF.
  assert (Hnd' : NoDup (path <$> lv_sstables target)).
  { unfold fmap in *. rewrite <- (Permutation_rev (lv_sstables target)) in Hnd. exact Hnd. }
  assert (Hrest : rest = List.filter (fun x => negb (overlaps a b x)) (lv_sstables target))
    by (apply filter_path_eq; done).
  destruct (Forall2_filter_split _ (overlaps a b) _ _ HF) as (ovl & R' & Ho & HR & Hp).
  exists ovl, (rev R'). split_and!.
  - exact Ho.
  - rewrite Hrest. by apply Forall2_rev.
  - rewrite <- (Permutation_rev R'), <- Hp. apply Permutation_rev.
  - intros k Ha Hb. apply first_entry_None, Forall_rev.
    clear -HR Ha Hb. remember (List.filter (fun x => negb (overlaps a b x)) _) as l eqn:El.
    assert (Hl : forall t, t ∈ l -> overlaps a b t = false).
    { intros t Ht. subst l. apply list_elem_of_In, List.filter_In in Ht as [_ Ht].
      by apply negb_true_iff. }
    clear El. induction HR as [|t m l R' Hh _ IH]; constructor.
    + destruct (entry m k) as [e|] eqn:He; [|done].
      pose proof (holds_overlaps _ _ _ _ _ _ _ Hh He Ha Hb) as Hov. rewrite Hl in Hov; [done | left].
    + apply IH. intros. apply Hl. by right.
  - intros t Ht. apply (elem_of_rev t (lv_sstables target)). apply list_elem_of_In, List.filter_In in Ht.
    apply list_elem_of_In, Ht.
  - intros t Ht. apply (elem_of_rev t rest) in Ht. apply list_elem_of_In, List.filter_In in Ht as [H1 H2].
    split; [apply (elem_of_rev t (lv_sstables target)); by apply list_elem_of_In|].
    by apply negb_true_iff, bool_decide_eq_false in H2.
Qed.

Section Compact.
Context `{CK : Clock} `{NS : Nanos} (N : nat) `{GT : !GoodTime N}.

(** What one merge does, on the tables of the two levels. [paths] are those of
    the tables of the target level that take part. *)
Lemma merge_levels_run db (source target : Level) blk c d dur ticks0 src tgt a b now :
  Forall2 (holds d) (level_iter source) src -> Forall2 (holds d) (level_iter target) tgt ->
  NoDup (path <$> level_iter source ++ level_iter target) ->
  disj tgt -> key_range source = Some (a, b) -> params_ok blk -> (ticks0 < N)%nat ->
  d !! sst_filename db (Some (level_num target)) (wrap64 (nanos ticks0)) = None ->
  let w := mkWorld d dur ticks0 in
  let overlap := overlapping_files target a b in
  let rest := List.filter (fun x => negb (bool_decide (path x ∈ path <$> overlap))) (lv_sstables target) in
  exists m1 m2 tbl file ovl R d',
    lv_merge (is_terminal target) now mem_new (level_iter source) w = (w, Ok m1) /\
    lv_merge (is_terminal target) now m1 overlap w = (w, Ok m2) /\
    write_table db m2 (Some (level_num target)) blk c w
      = (mkWorld (<[path tbl := file]> d) dur (S ticks0), Ok tbl) /\
    (let* _ := st_iter remove_file (remove_dups (path <$> overlap)) in
     st_iter (fun x => remove_file (path x)) (level_iter source))
      (mkWorld (<[path tbl := file]> d) dur (S ticks0)) = (mkWorld d' dur (S ticks0), Ok tt) /\
    path tbl = sst_filename db (Some (level_num target)) (wrap64 (nanos ticks0)) /\
    Forall2 (holds d') (tbl :: rev rest) (m2 :: R) /\
    tgt ≡ₚ ovl ++ R /\
    (forall k, entry m2 k = merged (is_terminal target) now (src ++ ovl) k) /\
    (forall k, first_entry src k <> None -> first_entry R k = None) /\
    (forall n, n <> path tbl -> n ∉ (path <$> level_iter source ++ level_iter target) ->
       d' !! n = d !! n).
Proof.
  intros Hsrc Htgt Hnd Hdisj Hrange Hpar Htk Hfresh w overlap rest.
  rewrite fmap_app in Hnd. apply NoDup_app in Hnd as (Hnd1 & Hsep & Hnd2).
  destruct (target_split d target tgt a b Htgt Hnd2) as (ovl & R & Ho & HR & Hp & Hout & Hin & Hrest).
  fold overlap in Ho, Hin, Hrest. fold rest in HR, Hrest.
  destruct (lv_merge_run (is_terminal target) now _ _ mem_new w Hsrc) as (m1 & E1 & Hm1 & He1);
    [split; constructor|].
  destruct (lv_merge_run (is_terminal target) now _ _ m1 w Ho Hm1) as (m2 & E2 & Hm2 & He2).
  destruct (write_table_run N db m2 (Some (level_num target)) blk c w Htk Hpar Hm2 Hfresh)
    as (tbl & file & E3 & Hpt & _ & _ & _ & Hh).
  cbn [disk durable World.ticks w] in *.
  assert (Hd1 : forall t, t ∈ level_iter source -> is_Some (d !! path t))
    by (intros t; by apply (holds_on_disk d _ src)).
  assert (Hd2 : forall t, t ∈ level_iter target -> is_Some (d !! path t))
    by (intros t; by apply (holds_on_disk d _ tgt)).
  assert (Hnew : forall t, is_Some (d !! path t) -> path t <> path tbl)
    by (intros t [x Hx] Heq; rewrite Heq, Hpt in Hx; congruence).
  set (d1 := <[path tbl := file]> d).
  set (gone := remove_dups (path <$> overlap)).
  assert (Hgone : forall n, n ∈ gone -> exists t, t ∈ level_iter target /\ n = path t).
  { intros n Hn. apply elem_of_remove_dups, list_elem_of_fmap in Hn as (t & -> & Ht). eauto. }
  set (d2 := delete_all (rev gone) d1).
  set (d' := delete_all (rev (path <$> level_iter source)) d2).
  assert (Hkeep : forall t m, holds d1 t m -> path t ∉ gone -> path t ∉ (path <$> level_iter source) ->
    holds d' t m).
  { intros t m Ht H1 H2. unfold d', d2. apply holds_delete_all; [by rewrite elem_of_rev|].
    apply holds_delete_all; [by rewrite elem_of_rev | done]. }
  exists m1, m2, tbl, file, ovl, R, d'. split_and!; try done.
  - rewrite (st_bind_Ok _ _ _ (mkWorld d2 dur (S ticks0)) tt).
    + rewrite st_iter_fmap. rewrite remove_files_run; [done | done |]. cbn [disk].
      intros n Hn. apply list_elem_of_fmap in Hn as (t & -> & Ht). unfold d2, d1.
      rewrite delete_all_lookup, decide_False.
      * rewrite lookup_insert_ne by (apply not_eq_sym; auto). auto.
      * rewrite elem_of_rev. intros Hg. destruct (Hgone _ Hg) as (t' & Ht' & Heq).
        apply (Hsep (path t)); [by apply list_elem_of_fmap_2|]. rewrite Heq. by apply list_elem_of_fmap_2.
    + rewrite remove_files_run; [done | apply NoDup_remove_dups |]. cbn [disk]. intros n Hn.
      destruct (Hgone _ Hn) as (t & Ht & ->). unfold d1.
      rewrite lookup_insert_ne by (apply not_eq_sym; auto). auto.
  - constructor.
    + apply Hkeep; [done | |].
      * intros Hg. destruct (Hgone _ Hg) as (t' & Ht' & Heq). by apply (Hnew t'); [auto|].
      * intros Hg. apply list_elem_of_fmap in Hg as (t' & Heq & Ht'). by apply (Hnew t'); [auto|].
    + eapply holds_all_impl; [|exact HR]. intros t Ht m Htm. destruct (Hrest t Ht) as [Ht1 Ht2].
      apply Hkeep.
      * apply holds_insert; [right; auto | done].
      * unfold gone. by rewrite elem_of_remove_dups.
      * intros Hs. apply (Hsep _ Hs). by apply list_elem_of_fmap_2.
  - intros k. rewrite He2, He1, merged_app. by change (entry mem_new k) with (@None MemtableEntry).
  - intros k Hk. destruct (first_entry src k) as [e|] eqn:Es; [|done].
    destruct (key_range_covers d source src a b k e Hsrc Hrange Es). by apply Hout.
  - intros n Hn1 Hn2. rewrite fmap_app, not_elem_of_app in Hn2. destruct Hn2 as [Hn2 Hn3].
    unfold d', d2, d1. rewrite !delete_all_lookup, !decide_False, lookup_insert_ne; try done.
    + rewrite elem_of_rev. intros Hg. destruct (Hgone _ Hg) as (t' & Ht' & Heq). subst n.
      apply Hn3. by apply list_elem_of_fmap_2.
    + by rewrite elem_of_rev.
Qed.
(** The guard and the merge of [compact_levels], on levels split around the
    two it works on. *)
Lemma compact_levels_merges db L0 source target L1 blk c w src tgt a b :
  let s := mkLeveled (L0 ++ source :: target :: L1) blk c in
  Forall2 (holds (disk w)) (level_iter source) src ->
  Forall2 (holds (disk w)) (level_iter target) tgt ->
  NoDup (path <$> level_iter source ++ level_iter target) ->
  disj tgt -> key_range source = Some (a, b) -> params_ok blk -> (S (ticks w) < N)%nat ->
  disk w !! sst_filename db (Some (level_num target)) (wrap64 (nanos (S (ticks w)))) = None ->
  exists tbl M ovl R rest d',
    compact_levels db (length L0) (S (length L0)) (s, w)
    = ((mkLeveled (L0 ++ set_lv_sstables [] source ::
          level_append tbl (set_lv_sstables rest target) :: L1) blk c,
        mkWorld d' (durable w) (S (S (ticks w)))), Ok tt) /\
    path tbl = sst_filename db (Some (level_num target)) (wrap64 (nanos (S (ticks w)))) /\
    rest = List.filter (fun x => negb (bool_decide (path x ∈ path <$> overlapping_files target a b)))
             (lv_sstables target) /\
    Forall2 (holds d') (tbl :: rev rest) (M :: R) /\ tgt ≡ₚ ovl ++ R /\
    (forall k, entry M k = merged (is_terminal target) (clock (ticks w)) (src ++ ovl) k) /\
    (forall k, first_entry src k <> None -> first_entry R k = None) /\
    (forall n, n <> path tbl -> n ∉ (path <$> level_iter source ++ level_iter target) ->
       d' !! n = disk w !! n).
Proof.
  intros s Hsrc Htgt Hnd Hdisj Hrange Hpar HN Hfresh.
  destruct (merge_levels_run db source target blk c (disk w) (durable w) (S (ticks w)) src tgt a b
    (clock (ticks w)) Hsrc Htgt Hnd Hdisj Hrange Hpar HN Hfresh)
    as (m1 & m2 & tbl & file & ovl & R & d' & E1 & E2 & E3 & E4 & Hpt & HF & Hp & HM & Hout & Hfr).
  eexists tbl, m2, ovl, R, _, d'. split; [|done].
  assert (Hs1 : levels s !! length L0 = Some source)
    by (cbn; by rewrite lookup_app_r, Nat.sub_diag by lia).
  assert (Hs2 : levels s !! S (length L0) = Some target)
    by (cbn; rewrite lookup_app_r by lia; by replace (S (length L0) - length L0)%nat with 1%nat by lia).
  unfold compact_levels, get_level.
  erewrite (st_bind_Ok (self _)) by reflexivity. erewrite (st_bind_Ok (self _)) by reflexivity.
  cbn [fst]. rewrite Hs1, Hs2, (proj2 (Nat.leb_gt _ _)) by lia.
  erewrite st_bind_Ok by (unfold lift_w; cbn [fst snd]; by rewrite (now_run N w) by lia).
  rewrite Hrange.
  erewrite st_bind_Ok by (unfold lift_w; cbn [fst snd]; by rewrite E1).
  erewrite st_bind_Ok by (unfold lift_w; cbn [fst snd]; by rewrite E2).
  do 2 (erewrite (st_bind_Ok (self _)) by reflexivity). cbn [fst lv_block_size lv_compression s].
  erewrite st_bind_Ok by (unfold lift_w; cbn [fst snd]; by rewrite E3).
  erewrite (st_bind_Ok (alter_level _ _)) by reflexivity.
  unfold st_bind at 1 in E4. unfold lift_w at 1, st_bind at 1. cbn [fst snd].
  destruct (st_iter remove_file _ _) as [w3 [[]| |]]; [|done|done].
  unfold lift_w, st_bind. cbn [fst snd]. rewrite E4. unfold alter_level, set_self, st_modify.
  cbn [fst snd levels set_levels s]. unfold set_levels. cbn [lv_block_size lv_compression levels].
  do 3 f_equal. replace (S (length L0)) with (length (L0 ++ [source])) by (rewrite length_app; cbn; lia).
  change (L0 ++ source :: target :: L1) with (L0 ++ [source] ++ target :: L1).
  rewrite app_assoc, alter_middle, <- app_assoc. cbn [app]. by rewrite alter_middle.
Qed.
Lemma two_levels {A} (l : list A) i x y : l !! i = Some x -> l !! S i = Some y ->
  exists L0 L1, l = L0 ++ x :: y :: L1 /\ length L0 = i.
Proof.
  revert i. induction l as [|z l IH]; intros i H1 H2; [done|]. destruct i as [|i].
  - injection H1 as ->. destruct l as [|y' l]; [done|]. injection H2 as ->. by exists [], l.
  - destruct (IH i H1 H2) as (L0 & L1 & -> & <-). by exists (z :: L0), L1.
Qed.

Lemma levels_on_disk d L mss t :
  Forall2 (fun lv ms => Forall2 (holds d) (level_iter lv) ms) L mss ->
  t ∈ concat (map level_iter L) -> is_Some (d !! path t).
Proof.
  induction 1 as [|lv ms L mss Hlv _ IH]; cbn; [by intros ?%not_elem_of_nil|].
  intros [Hin|Hin]%elem_of_app; [by eapply holds_on_disk | by apply IH].
Qed.

(** Replacing the tables of two levels by a selection of the second's and a
    new one. *)
Lemma merged_nodup (A0 S0 T0 B0 : list SSTable) (P : SSTable -> bool) tbl :
  NoDup (path <$> A0 ++ S0 ++ T0 ++ B0) -> path tbl ∉ (path <$> A0 ++ T0 ++ B0) ->
  NoDup (path <$> A0 ++ (tbl :: List.filter P T0) ++ B0).
Proof.
  intros Hnd Hnew.
  assert (Hsub : sublist (List.filter P T0) T0)
    by (clear; induction T0 as [|t l IH]; cbn; [|destruct (P t)]; by constructor).
  assert (Hl : sublist (path <$> A0 ++ List.filter P T0 ++ B0) (path <$> A0 ++ S0 ++ T0 ++ B0)).
  { rewrite !fmap_app. apply sublist_app; [done|]. apply sublist_inserts_l.
    apply sublist_app; [|done]. by apply fmap_sublist. }
  rewrite fmap_app. cbn [app]. rewrite fmap_cons. rewrite <- Permutation_middle.
  rewrite <- fmap_app. apply NoDup_cons. split.
  - intros Hin. apply Hnew. revert Hin. rewrite !fmap_app, !elem_of_app.
    assert (Hin' : path tbl ∈ path <$> List.filter P T0 -> path tbl ∈ path <$> T0)
      by (intros Hx; eapply elem_of_sublist; [exact Hx | by apply fmap_sublist]).
    tauto.
  - by eapply sublist_NoDup.
Qed.

(** The invariant after the merge of two levels. *)
Lemma merged_levels_inv L0 source target L1 blk c d d' M0 src tgt M1 tbl M R (P : SSTable -> bool) :
  let rest := List.filter P (lv_sstables target) in
  lv_inv (mkLeveled (L0 ++ source :: target :: L1) blk c) d (M0 ++ src :: tgt :: M1) ->
  length L0 = length M0 ->
  d !! path tbl = None ->
  Forall2 (holds d') (tbl :: rev rest) (M :: R) -> disj (M :: R) ->
  (forall n, n <> path tbl -> n ∉ (path <$> level_iter source ++ level_iter target) -> d' !! n = d !! n) ->
  lv_inv (mkLeveled (L0 ++ set_lv_sstables [] source ::
            level_append tbl (set_lv_sstables rest target) :: L1) blk c) d'
    (M0 ++ [] :: (M :: R) :: M1).
Proof.
  intros rest [HF Hnd Hdisj Hlast] Hlen Hnew HR HMR Hfr.
  cbn [levels] in HF. apply Forall2_app_inv in HF as [HF0 HF']; [|done].
  inversion HF' as [|? ? ? ? Hs HF'']; subst. inversion HF'' as [|? ? ? ? Ht HF1]; subst.
  rewrite lv_iter_split in Hnd. set (A := concat (map level_iter L0)) in *.
  set (B := concat (map level_iter L1)) in *.
  assert (Hframe : forall t m, t ∈ A \/ t ∈ B -> holds d t m -> holds d' t m).
  { rewrite !fmap_app in Hnd. apply NoDup_app in Hnd as (_ & Hsep0 & Hnd).
    apply NoDup_app in Hnd as (_ & Hseps & Hnd). apply NoDup_app in Hnd as (_ & Hsept & _).
    intros t m Hin (Hok & cc & file & gs & Hb & Hf). split; [done|]. exists cc, file, gs.
    split; [done|]. rewrite Hfr; [done | congruence |].
    rewrite fmap_app, not_elem_of_app. destruct Hin as [Hin|Hin]; apply (list_elem_of_fmap_2 path) in Hin.
    - specialize (Hsep0 _ Hin). rewrite !not_elem_of_app in Hsep0. naive_solver.
    - split; intros Hx; [apply (Hseps _ Hx), elem_of_app; by right | by apply (Hsept _ Hx)]. }
  split.
  - cbn [levels]. apply Forall2_app; [|constructor; [constructor | constructor]].
    + eapply levels_holds_impl; [|exact HF0]. intros t Hin m. apply Hframe. by left.
    + unfold level_iter, level_append, set_lv_sstables. cbn [lv_sstables].
      rewrite rev_app_distr. exact HR.
    + eapply levels_holds_impl; [|exact HF1]. intros t Hin m. apply Hframe. by right.
  - rewrite lv_iter_split. fold A B. unfold level_iter at 1 2, level_append, set_lv_sstables.
    cbn [lv_sstables rev app]. rewrite rev_app_distr. cbn [rev app]. unfold rest. rewrite <- filter_rev.
    apply (merged_nodup A _ (level_iter target) B P tbl Hnd).
    intros Hin. apply list_elem_of_fmap in Hin as (t & Heq & Hin).
    assert (Hd : is_Some (d !! path t)); [|rewrite <- Heq, Hnew in Hd; by destruct Hd].
    apply elem_of_app in Hin as [Hin|[Hin|Hin]%elem_of_app];
      [by apply (levels_on_disk d L0 M0) | by apply (holds_on_disk d _ _ _ Ht) |
       by apply (levels_on_disk d L1 M1)].
  - intros i ms. rewrite lookup_app. destruct (M0 !! S i) as [m0|] eqn:E0.
    + intros [= <-]. apply (Hdisj i). by rewrite lookup_app, E0.
    + intros Hi. destruct (S i - length M0)%nat as [|[|j]] eqn:Ej; cbn in Hi; [by simplify_eq| |].
      * by simplify_eq.
      * apply (Hdisj i). rewrite lookup_app, E0, Ej. done.
  - cbn [levels] in *. intros i lv Hi Hterm.
    assert (Hex : exists lv0, (L0 ++ source :: target :: L1) !! i = Some lv0 /\
              is_terminal lv0 = is_terminal lv).
    { rewrite lookup_app in Hi |- *. destruct (L0 !! i); [eauto|].
      destruct (i - length L0)%nat as [|[|j]]; cbn in Hi |- *; simplify_eq; eauto. }
    destruct Hex as (lv0 & Hlv0 & Heq). rewrite <- Heq in Hterm.
    specialize (Hlast i lv0 Hlv0 Hterm). rewrite length_app in *. cbn in *. lia.
Qed.
End Compact.
