(* ===== verification/CompactTheorems.v ===== *)
(** * Compaction: what it preserves

    Merging the tables of a strategy changes no later read: the full compaction
    of the size-tiered strategy, and a merge of one level into the next, as long
    as it drops no tombstone and no expired value. *)

From S2P Require Import Prelude Utils Utf8 Bloom Collections Text Record Memtable Wal Block.
From S2P Require Import Sstable SstableSpec HashIndex World Engine KvEngine KvLog KvInv KvOps.
From S2P Require Import Strategy Float SizeTiered Leveled LsmEngine TableInv MergeInv.
From S2P Require Import LeveledInv.

Lemma entry_drop_tombstones m k e : mem_ok m ->
  entry (mem_drop_tombstones m) k = Some e <-> entry m k = Some e /\ is_Some (mvalue e).
Proof.
  intros [Hs _]. unfold entry at 1, mem_drop_tombstones, bt_retain. cbn [entries].
  rewrite bt_get_filter_wf by done. cbn. by rewrite bool_decide_eq_true.
Qed.

Lemma drop_tombstones_ok m : mem_ok m -> mem_ok (mem_drop_tombstones m).
Proof.
  intros [Hs Hf]. unfold mem_drop_tombstones, bt_retain. split; cbn [entries].
  - by apply StronglySorted_filter.
  - rewrite Forall_forall in *. intros p Hp. apply list_elem_of_filter in Hp as [_ Hp]. by apply Hf.
Qed.

Section Theorems.
Context `{CK : Clock} `{NS : Nanos} (N : nat) `{GT : !GoodTime N}.

(** The full merge of the size-tiered strategy, up to the clock readings. *)
Lemma st_compact_all_run (s : SizeTiered) (w : World) (db : str) ms :
  Forall2 (holds (disk w)) (st_iter_all s) ms -> NoDup (path <$> st_iter_all s) ->
  params_ok (st_block_size s) -> (S (ticks w) < N)%nat ->
  disk w !! sst_filename db None (wrap64 (nanos (S (ticks w)))) = None ->
  exists t file m, st_compact_all db (s, w)
      = ((set_sstables [[t]] s,
          mkWorld (<[path t := file]> (delete_all (rev (path <$> st_iter_all s)) (disk w)))
            (durable w) (S (S (ticks w)))), Ok tt) /\
    path t = sst_filename db None (wrap64 (nanos (S (ticks w)))) /\
    holds (<[path t := file]> (delete_all (rev (path <$> st_iter_all s)) (disk w))) t m /\
    (forall k e, entry m k = Some e <->
       first_entry ms k = Some e /\ dead (clock (ticks w)) e = false).
Proof.
  intros HF Hnd Hpar Ht Hfresh. set (now := clock (ticks w)).
  set (w1 := mkWorld (disk w) (durable w) (S (ticks w))).
  assert (E1 : lift_w (T := SizeTiered) now_ms (s, w) = ((s, w1), Ok now))
    by (unfold lift_w; cbn [fst snd]; by rewrite (now_run N w) by lia).
  destruct (squash_merge_run false now (st_iter_all s) ms mem_new w1) as (m & E2 & Hm & He);
    [done | done | split; constructor |].
  rewrite <- st_merge_squash in E2.
  set (w2 := with_disk w1 (delete_all (rev (path <$> st_iter_all s)) (disk w1))) in *.
  destruct (write_table_run N db (mem_drop_tombstones m) None (st_block_size s) (st_compression s) w2)
    as (t & file & E3 & Hp & _ & _ & _ & Hh).
  { done. } { done. } { by apply drop_tombstones_ok. }
  { cbn. rewrite delete_all_lookup. by destruct (decide _). }
  exists t, file, (mem_drop_tombstones m). split_and!; [|exact Hp | exact Hh|].
  - unfold st_compact_all. rewrite (st_bind_Ok _ _ _ _ _ E1).
    erewrite (st_bind_Ok (self st_iter_all)) by reflexivity. cbn [fst].
    erewrite st_bind_Ok by (unfold lift_w; cbn [fst snd]; by rewrite E2).
    do 2 (erewrite (st_bind_Ok (self _)) by reflexivity). cbn [fst].
    erewrite st_bind_Ok by (unfold lift_w; cbn [fst snd]; by rewrite E3). done.
  - intros k e. rewrite entry_drop_tombstones by done. rewrite He.
    change (entry mem_new k) with (@None MemtableEntry). cbn. unfold merged.
    destruct (first_entry ms k) as [x|]; cbn; [|naive_solver].
    unfold purge. destruct (dead now x) eqn:Ed; split.
    + intros [[= <-] [? [=]]].
    + intros [[= ->] Hd]. congruence.
    + intros [[= ->] _]. done.
    + intros [[= ->] _]. split; [done|]. unfold dead in Ed. destruct (mvalue e); [eauto | done].
Qed.

(** C13: the full compaction of the size-tiered strategy changes no read. The
    tables are merged into one, from which every key has, at any later time,
    the value it had from the tables in the order reads search them;
    tombstones and expired values are gone from it, the old files are deleted
    and no other file is touched. *)
Theorem size_tiered_compact_all_visible (s : SizeTiered) (w : World) (db : str) ms :
  Forall2 (holds (disk w)) (st_iter_all s) ms -> NoDup (path <$> st_iter_all s) ->
  params_ok (st_block_size s) -> (S (ticks w) < N)%nat ->
  disk w !! sst_filename db None (wrap64 (nanos (S (ticks w)))) = None ->
  exists s' w' t m, st_compact_all db (s, w) = ((s', w'), Ok tt) /\
    st_iter_all s' = [t] /\ holds (disk w') t m /\
    (forall k x, clock (ticks w) <= x -> visible [m] k x = visible ms k x) /\
    (forall k e, entry m k = Some e -> dead (clock (ticks w)) e = false) /\
    (forall t0, t0 ∈ st_iter_all s -> disk w' !! path t0 = None) /\
    (forall n, n <> path t -> n ∉ (path <$> st_iter_all s) -> disk w' !! n = disk w !! n).
Proof.
  intros HF Hnd Hpar Ht Hfresh.
  destruct (st_compact_all_run s w db ms HF Hnd Hpar Ht Hfresh) as (t & file & m & E & Hp & Hh & He).
  eexists _, _, t, m. split; [exact E|]. split; [done|]. split; [exact Hh|]. split_and!.
  - intros k x Hx. unfold visible. cbn [first_entry].
    destruct (entry m k) as [e|] eqn:Em; [apply He in Em as [-> _]; done|].
    destruct (first_entry ms k) as [e|] eqn:Ef; [|done]. cbn. symmetry.
    apply (dead_mono (clock (ticks w))); [done|]. destruct (dead _ e) eqn:Ed; [done|].
    rewrite (proj2 (He k e)) in Em; done.
  - intros k e Hk. by apply He in Hk as [_ ?].
  - intros t0 Ht0. cbn [disk]. apply list_elem_of_fmap_2 with (f := path) in Ht0 as Hin.
    rewrite lookup_insert_ne.
    + rewrite delete_all_lookup, decide_True; [done|]. by rewrite elem_of_rev.
    + rewrite Hp. intros Heq. pose proof (holds_on_disk _ _ _ _ HF Ht0) as [b Hb]. congruence.
  - intros n Hn1 Hn2. cbn [disk]. rewrite lookup_insert_ne by done.
    rewrite delete_all_lookup, decide_False; [done|]. by rewrite elem_of_rev.
Qed.
(** C12: merging a level into the next changes no read. The merge succeeds, and
    afterwards every key has, at any later time, the value it had before in
    the order reads search the levels; below level 0 the tables of a level
    still share no key, and every table is still backed by its file. The
    exception is a merge into the last level, which is only correct when no
    tombstone or expired value is the newest entry of a key in the source. *)
Theorem leveled_compaction_visible db (s : Leveled) (w : World) mss i source target :
  lv_inv s (disk w) mss -> levels s !! i = Some source -> levels s !! S i = Some target ->
  params_ok (lv_block_size s) -> (S (ticks w) < N)%nat ->
  disk w !! sst_filename db (Some (level_num target)) (wrap64 (nanos (S (ticks w)))) = None ->
  (is_terminal target = true -> forall src k e, mss !! i = Some src ->
     first_entry src k = Some e -> dead (clock (ticks w)) e = false) ->
  exists s' w' mss', compact_levels db i (S i) (s, w) = ((s', w'), Ok tt) /\
    lv_inv s' (disk w') mss' /\
    forall k x, clock (ticks w) <= x -> visible (concat mss') k x = visible (concat mss) k x.
Proof.
  intros Hinv Hi1 Hi2 Hpar HN Hfresh Hdrop. destruct s as [lvs blk c]. cbn [levels lv_block_size] in *.
  destruct (two_levels lvs i source target Hi1 Hi2) as (L0 & L1 & -> & <-).
  pose proof Hinv as [HF Hnd Hdisj Hlast]. cbn [levels] in HF.
  apply Forall2_app_inv_l in HF as (M0 & M' & HF0 & HF' & ->).
  inversion HF' as [|? src ? M'' Hs HF'']; subst. inversion HF'' as [|? tgt ? M1 Ht HF1]; subst.
  pose proof (Forall2_length _ _ _ HF0) as Hlen.
  assert (Hd : disj tgt)
    by (apply (Hdisj (length M0)); rewrite lookup_app_r by lia;
        by replace (S (length M0) - length M0)%nat with 1%nat by lia).
  destruct (key_range source) as [[a b]|] eqn:Er.
  2: { eexists _, (mkWorld (disk w) (durable w) (S (ticks w))), _.
       split; [|split; [exact Hinv | done]].
       unfold compact_levels, get_level. do 2 (erewrite (st_bind_Ok (self _)) by reflexivity).
       cbn [fst levels]. rewrite Hi1, Hi2, (proj2 (Nat.leb_gt _ _)) by lia.
       erewrite st_bind_Ok by (unfold lift_w; cbn [fst snd]; by rewrite (now_run N w) by lia).
       by rewrite Er. }
  assert (Hnd2 : NoDup (path <$> level_iter source ++ level_iter target)).
  { eapply sublist_NoDup; [exact Hnd|]. rewrite lv_iter_split. apply fmap_sublist, sublist_inserts_l.
    rewrite app_assoc. by apply sublist_inserts_r. }
  destruct (compact_levels_merges N db L0 source target L1 blk c w src tgt a b Hs Ht Hnd2 Hd Er Hpar HN
    Hfresh) as (tbl & M & ovl & R & rest & d' & E & Hpt & Hrest & HR & Hp & HM & Hout & Hfr).
  eexists _, _, (M0 ++ [] :: (M :: R) :: M1). split; [exact E|]. split.
  - subst rest. eapply merged_levels_inv; [exact Hinv | done | by rewrite Hpt | exact HR | | exact Hfr].
    by eapply merge_disj.
  - intros k x Hx. unfold visible. rewrite !concat_app. cbn [concat]. rewrite app_nil_l.
    change ((M :: R) ++ concat M1) with (M :: R ++ concat M1).
    rewrite !(first_entry_app (concat M0)).
    destruct (first_entry (concat M0) k) as [e0|]; [done|].
    eapply merge_visible; [exact Hd | exact Hp | exact HM | | exact Hx].
    intros Hterm. split.
    + specialize (Hlast _ _ Hi2 Hterm). cbn [levels] in Hlast. rewrite length_app in Hlast. cbn in Hlast.
      assert (length L1 = 0%nat) as HL1 by lia. destruct L1; [|done]. by inversion HF1; subst.
    + intros e. apply (Hdrop Hterm src k e). rewrite lookup_app_r by lia.
      by replace (length L0 - length M0)%nat with 0%nat by lia.
Qed.
End Theorems.

(** ** Concrete tables *)

#[local] Existing Instances ExTime.ck ExTime.ns ExTime.good.

(** A newer memtable over the example one: a key deleted, a key added. *)
Definition mem_ex2 : Memtable := mem_insert (mem_remove mem_new (bs "a")) (bs "z") (bs "9") None.

Lemma mem_ok_ex : mem_ok mem_ex.
Proof. split; [exact mem_ex_sorted | exact mem_ex_ok]. Defined.

Lemma mem_ok_ex2 : mem_ok mem_ex2.
Proof. split; vm_compute; repeat constructor; done. Defined.

(** Two tables in a directory, the second newer. *)
Lemma two_tables : exists t1 t2 w,
  ticks w = 2%nat /\ Forall2 (holds (disk w)) [t2; t1] [mem_ex2; mem_ex] /\
  NoDup (path <$> [t2; t1]) /\
  (forall lvl, disk w !! sst_filename (bs "db") lvl (wrap64 (nanos 3)) = None).
Proof.
  destruct (write_table_run 1000 (bs "db") mem_ex None 4096 false (mkWorld ∅ ∅ 0)
    ltac:(cbn; lia) params_ex mem_ok_ex ltac:(apply lookup_empty)) as (t1 & f1 & _ & P1 & _ & _ & _ & H1). cbn [disk ticks durable] in *.
  assert (Hne : forall i j lvl lvl', (i < j < 1000)%nat ->
    sst_filename (bs "db") lvl (wrap64 (nanos i)) <> sst_filename (bs "db") lvl' (wrap64 (nanos j))).
  { intros i j lvl lvl' Hij E. apply sst_filename_ts in E; try (by apply is_uint_wrap).
    apply (nanos_distinct (N := 1000) i j); [lia | lia | done]. }
  destruct (write_table_run 1000 (bs "db") mem_ex2 None 4096 false
    (mkWorld (<[path t1 := f1]> ∅) ∅ 1) ltac:(cbn; lia) params_ex mem_ok_ex2) as (t2 & f2 & _ & P2 & _ & _ & _ & H2).
  { cbn [disk ticks]. rewrite P1, lookup_insert_ne; [apply lookup_empty | apply Hne; lia]. }
  cbn [disk ticks durable] in *.
  exists t1, t2, (mkWorld (<[path t2 := f2]> (<[path t1 := f1]> ∅)) ∅ 2). cbn [disk ticks].
  assert (Hpp : path t1 <> path t2) by (rewrite P1, P2; apply Hne; lia).
  split_and!; [done | | |].
  - constructor; [exact H2|]. constructor; [|constructor]. apply holds_insert; [by right | exact H1].
  - cbn. repeat constructor; set_solver.
  - intros lvl. rewrite P1, P2, !lookup_insert_ne; [apply lookup_empty | apply Hne; lia | apply Hne; lia].
Qed.

Lemma size_tiered_compact_all_visible_witness :
  exists t1 t2 w s' w' t m,
    st_compact_all (bs "db") (mkSizeTiered [[t1; t2]] 4 32 4096 false, w) = ((s', w'), Ok tt) /\
    st_iter_all s' = [t] /\ holds (disk w') t m /\
    (forall k x, clock (ticks w) <= x -> visible [m] k x = visible [mem_ex2; mem_ex] k x).
Proof.
  destruct two_tables as (t1 & t2 & w & Ht & HF & Hnd & Hfr). exists t1, t2, w.
  destruct (size_tiered_compact_all_visible 1000 (mkSizeTiered [[t1; t2]] 4 32 4096 false) w (bs "db")
    [mem_ex2; mem_ex]) as (s' & w' & t & m & E & Hi & Hh & Hv & _).
  - exact HF.
  - exact Hnd.
  - exact params_ex.
  - rewrite Ht. lia.
  - rewrite Ht. apply Hfr.
  - by exists s', w', t, m.
Defined.

Lemma leveled_compaction_visible_witness :
  exists t1 t2 w s' w' mss',
    let lv i ts := mkLevel ts i 1000 4 (i =? 2) in
    compact_levels (bs "db") 0 1 (mkLeveled [lv 0 [t2]; lv 1 [t1]; lv 2 []] 4096 false, w)
      = ((s', w'), Ok tt) /\
    lv_inv s' (disk w') mss' /\
    forall k x, clock (ticks w) <= x -> visible (concat mss') k x = visible [mem_ex2; mem_ex] k x.
Proof.
  destruct two_tables as (t1 & t2 & w & Ht & HF & Hnd & Hfr). exists t1, t2, w.
  set (lv i ts := mkLevel ts i 1000 4 (i =? 2)).
  inversion HF as [|? ? ? ? H2 HF']; subst. inversion HF' as [|? ? ? ? H1 _]; subst.
  destruct (leveled_compaction_visible 1000 (bs "db") (mkLeveled [lv 0 [t2]; lv 1 [t1]; lv 2 []] 4096 false)
    w [[mem_ex2]; [mem_ex]; []] 0 (lv 0 [t2]) (lv 1 [t1])) as (s' & w' & mss' & E & Hi & Hv).
  - split.
    + constructor; [constructor; [exact H2 | constructor]|].
      constructor; [constructor; [exact H1 | constructor]|]. by repeat constructor.
    + exact Hnd.
    + intros [|[|i]] ms [= <-]; cbn; split_and?; try done. intros k. by right.
    + intros [|[|[|i]]] l; cbn; intros [= <-]; done.
  - done.
  - done.
  - exact params_ex.
  - rewrite Ht. lia.
  - rewrite Ht. apply Hfr.
  - done.
  - by exists s', w', mss'.
Defined.
