(* ===== verification/LsmInv.v ===== *)
(** * The LSM engine: invariant and the lemmas of its operations

    [FlushLaws] is what the engine needs of a storage strategy when it hands it
    a table: that the table comes first from then on. Everything here is proved
    against that interface. The invariant relates the engine to the map a client
    expects: the first memtable or table that knows a key knows its binding; the
    log is the sequence of writes the active memtable holds; the background
    thread is at a point where nothing is missing from view. *)

From S2P Require Import Prelude Utils Utf8 Bloom Collections Text Record Memtable Wal Block.
From S2P Require Import Sstable SstableSpec HashIndex World Engine KvEngine KvLog KvInv KvOps.
From S2P Require Import Strategy LsmEngine TableInv.

(** Every entry of a memtable satisfies [P]. *)
Definition mem_all (P : MemtableEntry -> Prop) (m : Memtable) : Prop :=
  forall k e, entry m k = Some e -> P e.

(** What a strategy promises to an engine that flushes into it, as long as the
    engine only writes entries that satisfy [fl_entry]. [fl_inv s d tabs] is
    what the strategy keeps of its tables, whose contents in the directory [d]
    are [tabs]. *)
Class FlushLaws (T : Type) `{StorageStrategy T} := {
  fl_entry : MemtableEntry -> Prop;
  fl_inv : T -> files -> list Memtable -> Prop;
  fl_for_key s k : iter_for_key s k = bloom_filter k (iter_all s);
  fl_frame s d tabs n b : fl_inv s d tabs ->
    d !! n = None \/ Forall (fun t => path t <> n) (iter_all s) -> fl_inv s (<[n := b]> d) tabs;
  fl_add s w tabs t m : fl_inv s (disk w) tabs -> holds (disk w) t m -> mem_all fl_entry m ->
    path t ∉ (path <$> iter_all s) ->
    exists s', add_sstable t (s, w) = ((s', w), Ok tt) /\
      iter_all s' = t :: iter_all s /\ fl_inv s' (disk w) (m :: tabs);
  fl_mono t :: Mono (add_sstable t);
}.

(** A strategy that takes any entry. *)
Class AnyEntry (T : Type) `{FlushLaws T} : Prop := any_entry e : fl_entry e.

Section Inv.
Context `{CK : Clock} `{NS : Nanos} `{SO : SetOrder} (N : nat) `{GT : !GoodTime N}
  (db : str).
Context {T : Type} `{SS : StorageStrategy T} `{FL : !FlushLaws T}.

Implicit Types (s : LsmState T) (e : LsmEngine T) (m : kvmap).

(** Everything a read consults, in order. *)
Definition layers e (tabs : list Memtable) : list Memtable :=
  active e :: option_list (immutable e) ++ tabs.

Definition flush_ok (d : files) e (tabs : list Memtable) : Prop :=
  match flush_handle e, immutable e with
  | NoFlush, None | Finished, None => True
  | Writing, Some im => mem_ok im /\ mem_all fl_entry im
  | Adding t, Some im => holds d t im /\ path t <> wal_name (lsm_db e) /\ mem_all fl_entry im /\
      path t ∉ (path <$> iter_all (storage_strategy e))
  | Clearing, Some im => head tabs = Some im
  | _, _ => False
  end.

(** The entry a logged write makes. *)
Definition op_entry (o : wal_op) : MemtableEntry :=
  if wtombstone o then mkEntry None None else mkEntry (Some (wvalue o)) (wexpiry o).

Record lsm_inv s m (ops : list wal_op) (tabs : list Memtable) : Prop := {
  inv_strategy : fl_inv (storage_strategy s.1) (disk s.2) tabs;
  inv_lock : poisoned s.1 = false;
  inv_block : params_ok (block_size_bytes s.1);
  inv_tables : Forall2 (holds (disk s.2)) (iter_all (storage_strategy s.1)) tabs;
  inv_paths : Forall (fun t => path t <> wal_name (lsm_db s.1)) (iter_all (storage_strategy s.1));
  inv_flush : flush_ok (disk s.2) s.1 tabs;
  inv_wal : disk s.2 !! wal_name (lsm_db s.1) = Some (log_bytes ops);
  inv_ops : Forall wal_op_ok ops;
  inv_active : active s.1 = mem_run mem_new (map wal_mem_op ops);
  inv_view k : m !! k = entry_binding (first_entry (layers s.1 tabs) k);
  inv_fresh i lvl : (ticks s.2 <= i)%nat -> (i < N)%nat ->
    disk s.2 !! sst_filename (lsm_db s.1) lvl (wrap64 (nanos i)) = None;
  inv_name : lsm_db s.1 = db;
  inv_entries : Forall (fun o => fl_entry (op_entry o)) ops;
}.

(** ** Monotonicity of the clock *)

#[export] Instance mono_read_strategy : Mono (read_strategy (T := T)).
Proof. intros s. apply le_n. Qed.
#[export] Instance mono_lookup act imm (st : T) k now : Mono (lookup act imm st k now).
Proof. unfold lookup. repeat case_match; apply _. Qed.
#[export] Instance mono_lsm_get k : Mono (lsm_get k).
Proof. unfold lsm_get. apply _. Qed.
#[export] Instance mono_bg_step : Mono bg_step.
Proof.
  intros [e w]. unfold bg_step. cbn [fst snd]. unfold ticks_of, ticking_pair.
  destruct (flush_handle e) as [| |t| | |]; try apply le_n.
  - destruct (immutable e) as [im|]; [|apply le_n].
    pose proof (mono_write_table (lsm_db e) im None (block_size_bytes e) (block_compression e) w) as Hw.
    unfold ticks_of, ticking_world in Hw. destruct (write_table _ _ _ _ _ w) as [w' []]; done.
  - destruct (poisoned e); [apply le_n|].
    pose proof (fl_mono t (storage_strategy e, w)) as Hw. unfold ticks_of, ticking_pair in Hw.
    destruct (add_sstable t _) as [[s' w'] []]; done.
Qed.
#[export] Instance mono_join : Mono join.
Proof. unfold join. repeat (apply mono_bind; [apply _ | intros]). case_match; apply _. Qed.
#[export] Instance mono_lsm_wal_append k v t x : Mono (lsm_wal_append (T := T) k v t x).
Proof. unfold lsm_wal_append. apply _. Qed.
#[export] Instance mono_lsm_wal_reset : Mono (lsm_wal_reset (T := T)).
Proof. unfold lsm_wal_reset. apply _. Qed.
#[export] Instance mono_apply_write k v x : Mono (apply_write (T := T) k v x).
Proof. unfold apply_write. apply mono_bind; [destruct v; apply _ | apply _]. Qed.
#[export] Instance mono_flush_async : Mono flush_memtable_async.
Proof. unfold flush_memtable_async. apply _. Qed.
#[export] Instance mono_flush_if_full z : Mono (flush_if_full z).
Proof. unfold flush_if_full. apply mono_bind; [apply _|]. intros. case_match; apply _. Qed.
#[export] Instance mono_lsm_set_with_ttl k v x : Mono (lsm_set_with_ttl k v x).
Proof. unfold lsm_set_with_ttl. apply _. Qed.
#[export] Instance mono_lsm_delete k : Mono (lsm_delete k).
Proof. unfold lsm_delete. apply _. Qed.
#[export] Instance mono_lsm_ttl k x : Mono (lsm_ttl k x).
Proof. unfold lsm_ttl. repeat (apply mono_bind; [apply _ | intros]). case_match; apply _. Qed.
#[export] Instance mono_lsm_exists k : Mono (lsm_exists k).
Proof.
  intros s. unfold lsm_exists. pose proof (mono_lsm_get k s) as Hg.
  by destruct (lsm_get k s) as [s' []].
Qed.
#[export] Instance mono_lsm_mget ks : Mono (lsm_mget ks).
Proof. induction ks; cbn; apply _. Qed.
#[export] Instance mono_lsm_mset_with_ttl items : Mono (lsm_mset_with_ttl items).
Proof. unfold lsm_mset_with_ttl. apply _. Qed.

(** ** The background thread *)

(** Steps left to the background thread. *)
Definition flush_left (h : Flush) : nat :=
  match h with Writing => 3 | Adding _ => 2 | Clearing => 1 | _ => 0 end.

Lemma tables_on_disk d l tabs :
  Forall2 (holds d) l tabs -> Forall (fun t => is_Some (d !! path t)) l.
Proof.
  induction 1 as [|t tm l tabs (_ & c & f & gs & _ & Hf) _ IH]; constructor; eauto.
Qed.

Lemma fresh_path t l tabs d :
  Forall2 (holds d) l tabs -> d !! path t = None -> path t ∉ (path <$> l).
Proof.
  intros HF Hn Hin. apply list_elem_of_fmap in Hin as (u & Eu & Hu).
  apply tables_on_disk in HF. rewrite Forall_forall in HF. destruct (HF u Hu) as [b Hb]. congruence.
Qed.

Lemma holds_all_insert d l tabs n b :
  d !! n = None \/ Forall (fun t => path t <> n) l ->
  Forall2 (holds d) l tabs -> Forall2 (holds (<[n := b]> d)) l tabs.
Proof.
  intros Hn HF. induction HF as [|t tm l tabs Hh _ IH]; constructor.
  - apply holds_insert; [|done]. destruct Hn as [|Hn]; [by left | right; by inversion Hn].
  - apply IH. destruct Hn as [|Hn]; [by left | right; by inversion Hn].
Qed.

Lemma fresh_insert (nm : str) (d : files) i t0 (b : bytes) (lvl0 : option Z) :
  (t0 < i)%nat -> (i < N)%nat ->
  (forall lvl, d !! sst_filename nm lvl (wrap64 (nanos i)) = None) ->
  forall lvl, <[sst_filename nm lvl0 (wrap64 (nanos t0)) := b]> d
    !! sst_filename nm lvl (wrap64 (nanos i)) = None.
Proof.
  intros Hlt Hi Hf lvl. rewrite lookup_insert_ne; [done|]. intros E.
  apply sst_filename_ts in E; try (by apply is_uint_wrap).
  by apply (nanos_distinct (N := N) t0 i).
Qed.

Lemma bg_step_run s m ops tabs :
  lsm_inv s m ops tabs -> (ticks_of (bg_step s).1 <= N)%nat ->
  exists s' tabs', bg_step s = (s', Ok tt) /\ lsm_inv s' m ops tabs' /\
    flush_left (flush_handle s'.1) = Nat.pred (flush_left (flush_handle s.1)) /\
    (flush_handle s.1 = NoFlush -> s' = s).
Proof.
  destruct s as [e w]. intros Hi Ht. pose proof Hi as [H1 H2 H3 H4 H5 H6 H7 H8 H9 H10 H11].
  unfold bg_step in *. cbn [fst snd] in *. unfold flush_ok in H6.
  destruct (flush_handle e) as [| |t| | |] eqn:Eh; cbn [flush_left Nat.pred];
    destruct (immutable e) as [im|] eqn:Eim; try done;
    try (eexists _, tabs; split; [done|]; split; [exact Hi|]; cbn; by rewrite Eh).
  - pose proof (mono_write_table (lsm_db e) im None (block_size_bytes e) (block_compression e) w) as Hm.
    assert (HN : (ticks w < N)%nat).
    { unfold write_table, st_bind, read_nanos in Ht. cbn [disk] in Ht.
      unfold ticks_of, ticking_pair in Ht.
      destruct (from_memtable _ _ _ _ _ _ _) as [[]| |]; cbn in Ht; lia. }
    destruct (write_table_run N (lsm_db e) im None (block_size_bytes e) (block_compression e) w)
      as (t & file & -> & Hp & _ & _ & _ & Hh); [done | done | apply H6 | by apply H11 |].
    eexists _, tabs. split; [done|]. split; [|done].
    assert (Hw : path t <> wal_name (lsm_db e)) by (rewrite Hp; apply sst_filename_not_wal).
    assert (Hnone : disk w !! path t = None) by (rewrite Hp; by apply H11).
    split; cbn -[wal_name]; try done.
    + apply fl_frame; [done | by left].
    + apply holds_all_insert; [by left | done].
    + unfold flush_ok. cbn -[wal_name]. rewrite Eim. split_and!; [done | done | apply H6 |].
      by apply (fresh_path _ _ tabs (disk w)).
    + by rewrite lookup_insert_ne.
    + intros i lvl Hti Hin. rewrite Hp. apply fresh_insert; [lia | done |]. intros. apply H11; lia.
  - rewrite H2 in *. destruct H6 as (Hh & Hpw & Hen & Hpn).
    destruct (fl_add (storage_strategy e) w tabs t im) as (s' & -> & Hall & Hfl); [done..|].
    eexists _, (im :: tabs). split; [done|]. split; [|done].
    split; cbn -[wal_name]; rewrite ?Hall; try done; try (by constructor).
    + unfold flush_ok. cbn. by rewrite Eim.
    + intros k. rewrite H10. unfold layers. cbn. rewrite Eim. cbn.
      destruct (entry (active e) k), (entry im k); done.
  - eexists _, tabs. split; [done|]. split; [|done]. split; cbn -[wal_name]; try done.
    intros k. rewrite H10. unfold layers. rewrite Eim. cbn.
    destruct tabs as [|tb tabs]; [done|]. injection H6 as ->. cbn.
    destruct (entry (active e) k), (entry im k); done.
Qed.

Lemma join_run s m ops tabs :
  lsm_inv s m ops tabs -> (ticks_of (join s).1 <= N)%nat ->
  exists s' tabs', join s = (s', Ok tt) /\ lsm_inv s' m ops tabs' /\
    flush_handle s'.1 = NoFlush /\ immutable s'.1 = None.
Proof.
  intros Hi Ht. unfold join in *.
  destruct (bg_step_run s m ops tabs Hi) as (s1 & tb1 & E1 & Hi1 & Hl1 & _);
    [within Ht|].
  rewrite (st_bind_Ok _ _ _ _ _ E1) in *.
  destruct (bg_step_run s1 m ops tb1 Hi1) as (s2 & tb2 & E2 & Hi2 & Hl2 & _);
    [within Ht|].
  rewrite (st_bind_Ok _ _ _ _ _ E2) in *.
  destruct (bg_step_run s2 m ops tb2 Hi2) as (s3 & tb3 & E3 & Hi3 & Hl3 & _);
    [within Ht|].
  rewrite (st_bind_Ok _ _ _ _ _ E3) in *.
  assert (Hl : flush_left (flush_handle s3.1) = 0%nat)
    by (rewrite Hl3, Hl2, Hl1; by destruct (flush_handle s.1)).
  clear -Hi3 Hl. destruct s3 as [e w]. destruct Hi3 as [H1 H2 H3 H4 H5 H6 H7 H8 H9 H10 H11].
  unfold flush_ok in H6. cbn [fst snd] in *. erewrite st_bind_Ok by reflexivity.
  destruct (flush_handle e) eqn:Eh; try done; destruct (immutable e) eqn:Eim; try done;
    (eexists (_, _), tb3; split; [cbn; rewrite Eh; reflexivity|]); (split; [split; cbn -[wal_name]; try done | done]);
    unfold flush_ok; cbn; by rewrite Eim.
Qed.

(** ** Writes *)

Lemma first_entry_mem_step act rest o k :
  entry_binding (first_entry (mem_step act (wal_mem_op o) :: rest) k)
  = if decide (k = wkey o) then (if wtombstone o then None else Some (wvalue o, wexpiry o))
    else entry_binding (first_entry (act :: rest) k).
Proof.
  unfold wal_mem_op. destruct (wtombstone o); cbn [first_entry mem_step];
    rewrite ?entry_insert, ?entry_remove; by case_decide.
Qed.

Lemma apply_op_lookup m o k :
  apply_op m o !! k
  = if decide (k = wkey o) then (if wtombstone o then None else Some (wvalue o, wexpiry o))
    else m !! k.
Proof.
  unfold apply_op. destruct (wtombstone o); case_decide; subst;
    rewrite ?lookup_insert_eq, ?lookup_delete_eq, ?lookup_insert_ne, ?lookup_delete_ne by done; done.
Qed.

(** The write of [apply_write] as a logged operation. *)
Definition write_op (k : str) (v : option str) (x : option Z) : wal_op :=
  match v with Some v => mkWalOp k v false x | None => mkWalOp k [] true None end.

Lemma apply_write_run s m ops tabs k v x :
  lsm_inv s m ops tabs -> wal_op_ok (write_op k v x) -> fl_entry (op_entry (write_op k v x)) ->
  exists s' z, apply_write k v x s = (s', Ok z) /\
    lsm_inv s' (apply_op m (write_op k v x)) (ops ++ [write_op k v x]) tabs /\
    ticks s'.2 = ticks s.2.
Proof.
  destruct s as [e w]. intros [H1 H2 H3 H4 H5 H6 H7 H8 H9 H10 H11 H12 H13] Ho He. cbn [fst snd] in *.
  set (o := write_op k v x) in *.
  set (e' := set_active_mem (mem_step (active e) (wal_mem_op o)) e).
  set (w' := with_disk w (<[wal_name (lsm_db e) := log_bytes (ops ++ [o])]> (disk w))).
  exists (e', w'), (size_bytes (active e')). split.
  { assert (Hl : log_bytes (ops ++ [o])
                 = (wal_append (log_bytes ops) (wkey o) (wvalue o) (wtombstone o) (wexpiry o)).2).
    { unfold log_bytes. rewrite map_app, concat_app. cbn. by rewrite app_nil_r. }
    unfold w'. rewrite Hl. unfold apply_write, lsm_wal_append, st_bind, lift_w, self, st_gets, set_self,
      st_modify, write_file, with_disk.
    destruct v as [v|]; cbn [fst snd disk]; rewrite H7; reflexivity. }
  split; [|done]. split; cbn -[wal_name]; try done.
  - apply fl_frame; [done | by right].
  - apply holds_all_insert; [by right | done].
  - unfold flush_ok in *. cbn -[wal_name]. destruct (flush_handle e), (immutable e); try done.
    destruct H6 as (Hh & Hp & ?). split; [|done]. apply holds_insert; [by right | done].
  - apply lookup_insert_eq.
  - apply Forall_app. split; [done | by constructor].
  - rewrite H9. unfold mem_run. by rewrite map_app, fold_left_app.
  - intros k'. transitivity (entry_binding (first_entry
      (mem_step (active e) (wal_mem_op o) :: option_list (immutable e) ++ tabs) k')); [|done].
    rewrite first_entry_mem_step, apply_op_lookup. case_decide; [done|]. apply H10.
  - intros i lvl Hi HN. rewrite lookup_insert_ne; [by apply H11|].
    apply not_eq_sym, sst_filename_not_wal.
  - apply Forall_app. split; [done | by constructor].
Qed.

Lemma log_mem_all (P : MemtableEntry -> Prop) ops :
  Forall (fun o => P (op_entry o)) ops -> mem_all P (mem_run mem_new (map wal_mem_op ops)).
Proof.
  induction ops as [|o ops IH] using rev_ind; intros Hf k e; [done|].
  apply Forall_app in Hf as [Hf Ho]. apply Forall_inv in Ho. rewrite mem_run_snoc.
  unfold wal_mem_op, op_entry in *. destruct (wtombstone o); cbn [mem_step];
    rewrite ?entry_insert, ?entry_remove; case_decide; try (by intros [= <-]); by apply IH.
Qed.

Lemma log_mem_ok ops : Forall wal_op_ok ops -> mem_ok (mem_run mem_new (map wal_mem_op ops)).
Proof.
  assert (H : mem_ok mem_new) by (split; constructor). revert H. unfold mem_run. generalize mem_new.
  induction ops as [|o ops IH]; intros mt [Hs Hf] Hok; [done|]. cbn.
  inversion Hok as [|? ? Ho Hok']; subst. apply IH; [|done].
  unfold wal_mem_op. destruct (wtombstone o) eqn:Et; cbn [mem_step]; split.
  - by apply bt_insert_wf.
  - apply bt_insert_Forall; [|done]. destruct Ho. by split.
  - by apply bt_insert_wf.
  - apply bt_insert_Forall; [|done]. exact Ho.
Qed.

Lemma flush_run s m ops tabs :
  lsm_inv s m ops tabs -> (ticks_of (flush_memtable_async s).1 <= N)%nat ->
  exists s' tabs', flush_memtable_async s = (s', Ok tt) /\ lsm_inv s' m [] tabs' /\
    flush_handle s'.1 = Writing.
Proof.
  intros Hi Ht. unfold flush_memtable_async in *.
  destruct (join_run s m ops tabs Hi) as ([e w] & tb & E & [H1 H2 H3 H4 H5 H6 H7 H8 H9 H10 H11 H12 H13] & Eh & Eim);
    [within Ht|].
  rewrite (st_bind_Ok _ _ _ _ _ E). cbn [fst snd] in *.
  eexists (_, _), tb. split.
  { reflexivity. }
  split; [|done]. split; cbn -[wal_name]; try done.
  - apply fl_frame; [done | by right].
  - apply holds_all_insert; [by right | done].
  - unfold flush_ok. cbn. rewrite H9. split; [by apply log_mem_ok | by apply log_mem_all].
  - apply lookup_insert_eq.
  - intros k. rewrite H10. unfold layers. cbn. by rewrite Eim.
  - intros i lvl Hi' HN. rewrite lookup_insert_ne; [by apply H11|].
    apply not_eq_sym, sst_filename_not_wal.
Qed.

Lemma flush_if_full_run s m ops tabs z :
  lsm_inv s m ops tabs -> (ticks_of (flush_if_full z s).1 <= N)%nat ->
  exists s' ops' tabs', flush_if_full z s = (s', Ok tt) /\ lsm_inv s' m ops' tabs'.
Proof.
  intros Hi. unfold flush_if_full, self, st_gets. rewrite (st_bind_Ok _ _ _ s (max_memtable_bytes s.1)) by done.
  destruct (_ <=? _); [|by exists s, ops, tabs].
  intros Ht. destruct (flush_run s m ops tabs Hi Ht) as (s' & tb & E & Hi' & _). eauto.
Qed.

(** ** Reads *)

Lemma lookup_run s m ops tabs k now :
  lsm_inv s m ops tabs ->
  (ticks (lookup (active s.1) (immutable s.1) (storage_strategy s.1) k now s.2).1 <= N)%nat ->
  exists w' t, lookup (active s.1) (immutable s.1) (storage_strategy s.1) k now s.2
      = (w', Ok (spec_get m k t)) /\
    disk w' = disk s.2 /\ (ticks s.2 <= ticks w')%nat /\
    (t = now \/ exists i, (ticks s.2 <= i <= ticks w')%nat /\ t = clock i).
Proof.
  destruct s as [e w]. intros [_ _ _ Htb _ _ _ _ _ Hv _] Ht. cbn [fst snd] in *. specialize (Hv k).
  assert (Hs : forall t, spec_get m k t = first_entry (layers e tabs) k ≫= entry_value t)
    by (intros t; rewrite entry_value_binding; unfold spec_get; by rewrite Hv).
  unfold lookup, layers in *. cbn [first_entry] in Hs. rewrite first_entry_app in Hs.
  assert (Him : first_entry (option_list (immutable e)) k = immutable e ≫= (fun im => entry im k))
    by (destruct (immutable e) as [im|]; cbn; [by destruct (entry im k) | done]).
  rewrite Him in Hs.
  destruct (entry (active e) k) as [en|].
  { exists w, now. rewrite live_value_entry, Hs. auto with lia. }
  destruct (immutable e ≫= _) as [en|].
  { exists w, now. rewrite live_value_entry, Hs. auto with lia. }
  rewrite fl_for_key in *.
  destruct (lookup_tables_run N _ _ k w Htb Ht) as (w' & i & E & Hd & Hi).
  exists w', (clock i). rewrite Hs. split; [exact E|]. split; [done|]. split; [lia|]. right.
  by exists i.
Qed.

End Inv.
