(* ===== verification/PlainLevels.v ===== *)
(** * Full compaction of the leveled strategy on plain tables

    A table is plain when it holds values without an expiry only. Merging plain
    tables drops nothing, into whichever level they go, so the whole of
    [compact_all] (src/src/leveled.rs), level by level down to the squash of the
    last one, leaves every key with the entry it had. *)

From S2P Require Import Prelude Utils Utf8 Bloom Collections Text Record Memtable Wal Block.
From S2P Require Import Sstable SstableSpec HashIndex World Engine KvEngine KvLog KvInv KvOps.
From S2P Require Import Strategy Float SizeTiered Leveled LsmEngine TableInv MergeInv.
From S2P Require Import LeveledInv LsmInv.

Definition plain_entry (e : MemtableEntry) : Prop := is_Some (mvalue e) /\ mexpiry e = None.
Abbreviation plain_mem := (mem_all plain_entry).

(** ** What merging keeps *)

Lemma plain_alive now e : plain_entry e -> dead now e = false.
Proof. intros [[v Hv] Hx]. unfold dead. by rewrite Hv, Hx. Qed.

Lemma first_entry_all P ms k e :
  Forall (mem_all P) ms -> first_entry ms k = Some e -> P e.
Proof.
  induction 1 as [|m ms Hm _ IH]; cbn; [done|]. destruct (entry m k) eqn:E; [|done].
  intros [= <-]. by eapply Hm.
Qed.

Lemma plain_merged drop now ms k :
  Forall plain_mem ms -> merged drop now ms k = first_entry ms k.
Proof.
  intros Hp. unfold merged. destruct drop.
  - induction Hp as [|m ms Hm Hp IH]; cbn; [done|]. rewrite <- IH.
    destruct (entry m k) as [e|] eqn:E; [|done]. by rewrite (plain_alive now e) by (by eapply Hm).
  - destruct (first_entry ms k) as [e|] eqn:E; [|done]. cbn. unfold purge.
    by rewrite (plain_alive now e) by (by eapply first_entry_all).
Qed.

Lemma plain_of_first m ms :
  Forall plain_mem ms -> (forall k, entry m k = first_entry ms k) -> plain_mem m.
Proof. intros Hp He k e Hk. rewrite He in Hk. by eapply first_entry_all. Qed.

(** ** Clock *)

Section Mono.
Context `{CK : Clock} `{NS : Nanos}.

#[export] Instance mono_table_items t : Mono (table_items t).
Proof. unfold table_items. apply _. Qed.
#[export] Instance mono_lv_merge d now m l : Mono (lv_merge d now m l).
Proof. revert m. induction l; intros m; cbn; apply _. Qed.
#[export] Instance mono_squash_merge d now m l : Mono (squash_merge d now m l).
Proof. revert m. induction l; intros m; cbn; apply _. Qed.
#[export] Instance mono_get_level i : Mono (get_level i).
Proof. unfold get_level. apply _. Qed.
#[export] Instance mono_alter_level f i : Mono (alter_level f i).
Proof. unfold alter_level. apply _. Qed.
#[export] Instance mono_squash db i : Mono (squash db i).
Proof. unfold squash. solve_mono. Qed.
#[export] Instance mono_compact_levels db i j : Mono (compact_levels db i j).
Proof. unfold compact_levels. solve_mono. Qed.
#[export] Instance mono_compact_all_from db i n : Mono (lv_compact_all_from db i n).
Proof. revert i. induction n; intros i; cbn; solve_mono. Qed.
#[export] Instance mono_lv_compact_all db : Mono (lv_compact_all db).
Proof. unfold lv_compact_all. apply _. Qed.

Lemma now_ticks_bound {T A} N (f : Z -> ST (T * World) A) s w :
  (forall a, Mono (f a)) -> (ticks_of ((let* now := lift_w now_ms in f now) (s, w)).1 <= N)%nat ->
  (ticks w < N)%nat.
Proof.
  intros Hf Ht. assert (H : (ticks_of (lift_w (T := T) now_ms (s, w)).1 <= N)%nat)
    by (etrans; [|exact Ht]; by apply bind_ticks_le).
  unfold lift_w, ticks_of, ticking_pair in H. pose proof (now_ms_ticks w) as Hw. cbn [fst snd] in H.
  destruct (now_ms w) as [w' r]. cbn in *. lia.
Qed.

Lemma write_ticks_bound {A} N (f : SSTable -> ST (Leveled * World) A) nm m lvl b c s w :
  (forall a, Mono (f a)) ->
  (ticks_of ((let* t := lift_w (write_table nm m lvl b c) in f t) (s, w)).1 <= N)%nat -> (ticks w < N)%nat.
Proof.
  intros Hf Ht.
  assert (H : (ticks_of (lift_w (T := Leveled) (write_table nm m lvl b c) (s, w)).1 <= N)%nat)
    by (etrans; [|exact Ht]; by apply bind_ticks_le).
  unfold lift_w, ticks_of, ticking_pair, write_table, st_bind, read_nanos in H. cbn [fst snd disk] in H.
  destruct (from_memtable _ _ _ _ _ _ _) as [[]| |]; cbn in H; lia.
Qed.
End Mono.

(** ** A step of a compaction *)

Section Step.
Context `{CK : Clock} `{NS : Nanos} (N : nat) `{GT : !GoodTime N} (db : str).

(** Names of tables that the readings from [t0] to [t1] can give. *)
Definition new_name (t0 t1 : nat) (n : str) : Prop :=
  exists lvl i, (t0 <= i < t1)%nat /\ n = sst_filename db lvl (wrap64 (nanos i)).

(** No file has a name that a later reading will give. *)
Definition future_free (w : World) : Prop := forall i lvl,
  (ticks w <= i)%nat -> (i < N)%nat -> disk w !! sst_filename db lvl (wrap64 (nanos i)) = None.

(** The last level, and no other, is the terminal one. *)
Definition shape (s : Leveled) : list bool * Z := (is_terminal <$> levels s, lv_block_size s).

Definition last_terminal (s : Leveled) : Prop :=
  forall i lv, levels s !! i = Some lv -> S i = length (levels s) -> is_terminal lv = true.

Record plain_levels (s : Leveled) (d : files) (mss : list (list Memtable)) : Prop := {
  pl_inv : lv_inv s d mss;
  pl_plain : Forall plain_mem (concat mss);
  pl_last : last_terminal s;
  pl_block : params_ok (lv_block_size s);
}.

(** What a compaction does to the tables of a directory. *)
Record kept (s : Leveled) (w : World) (mss : list (list Memtable))
    (s' : Leveled) (w' : World) (mss' : list (list Memtable)) : Prop := {
  kp_levels : plain_levels s' (disk w') mss';
  kp_first k : first_entry (concat mss') k = first_entry (concat mss) k;
  kp_shape : shape s' = shape s;
  kp_ticks : (ticks w <= ticks w')%nat;
  kp_frame n : n ∉ (path <$> lv_iter_all s) -> ~ new_name (ticks w) (ticks w') n ->
    disk w' !! n = disk w !! n;
  kp_paths t : t ∈ lv_iter_all s' ->
    t ∈ lv_iter_all s \/ new_name (ticks w) (ticks w') (path t);
}.

Lemma new_name_mono t0 t1 t0' t1' n :
  new_name t0 t1 n -> (t0' <= t0)%nat -> (t1 <= t1')%nat -> new_name t0' t1' n.
Proof. intros (lvl & i & Hi & ->) H1 H2. exists lvl, i. split; [lia | done]. Qed.

Lemma kept_refl s w mss : plain_levels s (disk w) mss -> kept s w mss s w mss.
Proof. intros H. split; try done. by left. Qed.

Lemma kept_trans s w mss s1 w1 mss1 s2 w2 mss2 :
  kept s w mss s1 w1 mss1 -> kept s1 w1 mss1 s2 w2 mss2 -> kept s w mss s2 w2 mss2.
Proof.
  intros [A1 A2 A3 A4 A5 A6] [B1 B2 B3 B4 B5 B6]. split.
  - done.
  - intros k. by rewrite B2.
  - congruence.
  - lia.
  - intros n Hn Hnew. rewrite B5, A5; [done | done | | |].
    + intros H. apply Hnew. by eapply new_name_mono.
    + intros Hin. apply list_elem_of_fmap in Hin as (t & -> & Ht).
      destruct (A6 t Ht) as [Ht'|Ht']; [by apply Hn, list_elem_of_fmap_2|].
      apply Hnew. by eapply new_name_mono.
    + intros H. apply Hnew. by eapply new_name_mono.
  - intros t Ht. destruct (B6 t Ht) as [Ht'|Ht'].
    + destruct (A6 t Ht') as [?|?]; [by left | right; by eapply new_name_mono].
    + right. by eapply new_name_mono.
Qed.

Lemma kept_free s w mss s' w' mss' :
  plain_levels s (disk w) mss -> kept s w mss s' w' mss' -> future_free w -> future_free w'.
Proof.
  intros [[Ht _ _ _] _ _ _] [_ _ _ K4 K5 _] Hf i lvl Hi HN. rewrite K5.
  - apply Hf; [lia | done].
  - intros Hin. apply list_elem_of_fmap in Hin as (t & Et & Hin).
    pose proof (levels_on_disk _ _ _ _ Ht Hin) as [b Hb]. rewrite <- Et, Hf in Hb; [done | lia | done].
  - intros (lvl' & j & Hj & E). apply sst_filename_ts in E; try (by apply is_uint_wrap).
    apply (nanos_distinct (N := N) j i); [lia | done | done].
Qed.

Lemma shape_length s s' : shape s' = shape s -> length (levels s') = length (levels s).
Proof.
  intros H. apply (f_equal fst) in H. cbn in H. apply (f_equal length) in H. by rewrite !length_fmap in H.
Qed.

Lemma shape_last s s' : shape s' = shape s -> last_terminal s -> last_terminal s'.
Proof.
  intros H Hl i lv Hi Hlen. rewrite (shape_length _ _ H) in Hlen. apply (f_equal fst) in H. cbn in H.
  apply (f_equal (fun l => l !! i)) in H. rewrite !list_lookup_fmap, Hi in H.
  destruct (levels s !! i) as [lv0|] eqn:E; cbn in H; [|done]. injection H as ->. by eapply Hl.
Qed.

(** ** Merging a level into the next *)

Lemma merge_first M src tgt ovl R post k :
  disj tgt -> tgt ≡ₚ ovl ++ R -> (forall k, entry M k = first_entry (src ++ ovl) k) ->
  first_entry (M :: R ++ post) k = first_entry (src ++ tgt ++ post) k.
Proof.
  intros Hd Hp HM. destruct (disj_perm _ _ Hp Hd) as [_ Hf]. cbn [first_entry].
  rewrite HM, !first_entry_app, Hf, first_entry_app.
  by destruct (first_entry src k), (first_entry ovl k).
Qed.

Lemma compact_levels_start s w i source target :
  levels s !! i = Some source -> levels s !! S i = Some target ->
  compact_levels db i (S i) (s, w)
  = (let* now := lift_w now_ms in
     match key_range source with
     | None => st_ret tt
     | Some (start_key, end_key) =>
         let overlap := overlapping_files target start_key end_key in
         let paths := path <$> overlap in
         let* m := lift_w (lv_merge (is_terminal target) now mem_new (level_iter source)) in
         let* m := lift_w (lv_merge (is_terminal target) now m overlap) in
         let* block := self lv_block_size in
         let* c := self lv_compression in
         let* tbl := lift_w (write_table db m (Some (level_num target)) block c) in
         let* _ := alter_level (fun lv =>
           level_append tbl (set_lv_sstables
             (List.filter (fun x => negb (bool_decide (path x ∈ paths))) (lv_sstables lv)) lv)) (S i) in
         let* _ := lift_w (st_iter remove_file (remove_dups paths)) in
         let* _ := lift_w (st_iter (fun x => remove_file (path x)) (level_iter source)) in
         alter_level (set_lv_sstables []) i
     end) (s, w).
Proof.
  intros Hi1 Hi2. unfold compact_levels, get_level.
  do 2 (erewrite (st_bind_Ok (self _)) by reflexivity).
  cbn [fst]. by rewrite Hi1, Hi2, (proj2 (Nat.leb_gt _ _)) by lia.
Qed.

Lemma compact_levels_now s w i source target :
  levels s !! i = Some source -> levels s !! S i = Some target ->
  (ticks_of (compact_levels db i (S i) (s, w)).1 <= N)%nat -> (ticks w < N)%nat.
Proof.
  intros Hi1 Hi2. rewrite (compact_levels_start _ _ _ _ _ Hi1 Hi2). apply now_ticks_bound. solve_mono.
Qed.

Lemma compact_levels_ticks s w i source target src tgt a b :
  levels s !! i = Some source -> levels s !! S i = Some target ->
  Forall2 (holds (disk w)) (level_iter source) src -> Forall2 (holds (disk w)) (level_iter target) tgt ->
  NoDup (path <$> level_iter source ++ level_iter target) -> key_range source = Some (a, b) ->
  (ticks_of (compact_levels db i (S i) (s, w)).1 <= N)%nat -> (S (ticks w) < N)%nat.
Proof.
  intros Hi1 Hi2 Hs Htg Hnd Er Ht. pose proof (compact_levels_now _ _ _ _ _ Hi1 Hi2 Ht) as HN.
  rewrite (compact_levels_start _ _ _ _ _ Hi1 Hi2) in Ht.
  destruct (target_split _ target tgt a b Htg) as (ovl & R & Ho & _);
    [rewrite fmap_app in Hnd; by apply NoDup_app in Hnd as (_ & _ & ?)|].
  destruct (lv_merge_run (is_terminal target) (clock (ticks w)) _ _ mem_new
    (mkWorld (disk w) (durable w) (S (ticks w))) Hs) as (m1 & E1 & Hm1 & _); [split; constructor|].
  destruct (lv_merge_run (is_terminal target) (clock (ticks w)) _ _ m1
    (mkWorld (disk w) (durable w) (S (ticks w))) Ho Hm1) as (m2 & E2 & _).
  erewrite st_bind_Ok in Ht by (unfold lift_w; cbn [fst snd]; by rewrite (now_run N w) by lia).
  rewrite Er in Ht.
  erewrite st_bind_Ok in Ht by (unfold lift_w; cbn [fst snd]; by rewrite E1).
  erewrite st_bind_Ok in Ht by (unfold lift_w; cbn [fst snd]; by rewrite E2).
  do 2 (erewrite (st_bind_Ok (self _)) in Ht by reflexivity).
  eapply write_ticks_bound in Ht; [exact Ht|]. solve_mono.
Qed.

Lemma compact_levels_kept s w mss i source target :
  plain_levels s (disk w) mss -> future_free w ->
  levels s !! i = Some source -> levels s !! S i = Some target ->
  (ticks_of (compact_levels db i (S i) (s, w)).1 <= N)%nat ->
  exists s' w' mss', compact_levels db i (S i) (s, w) = ((s', w'), Ok tt) /\ kept s w mss s' w' mss'.
Proof.
  intros Hpl Hfree Hi1 Hi2 Ht. pose proof Hpl as [Hinv Hplain Hlast Hpar].
  destruct s as [lvs blk c]. cbn [levels lv_block_size] in *.
  destruct (two_levels lvs i source target Hi1 Hi2) as (L0 & L1 & -> & <-).
  pose proof Hinv as [HF Hnd Hdisj Hli]. cbn [levels] in HF.
  apply Forall2_app_inv_l in HF as (M0 & M' & HF0 & HF' & ->).
  inversion HF' as [|? src ? M'' Hs HF'']; subst. inversion HF'' as [|? tgt ? M1 Htg HF1]; subst.
  pose proof (Forall2_length _ _ _ HF0) as Hlen.
  assert (Hd : disj tgt)
    by (apply (Hdisj (length M0)); rewrite lookup_app_r by lia;
        by replace (S (length M0) - length M0)%nat with 1%nat by lia).
  pose proof (compact_levels_now (mkLeveled _ blk c) w _ _ _ Hi1 Hi2 Ht) as HN.
  destruct (key_range source) as [[a b]|] eqn:Er.
  2: { eexists _, (mkWorld (disk w) (durable w) (S (ticks w))), _. split.
       - rewrite (compact_levels_start (mkLeveled _ blk c) w _ _ _ Hi1 Hi2).
         erewrite st_bind_Ok by (unfold lift_w; cbn [fst snd]; by rewrite (now_run N w) by lia).
         by rewrite Er.
       - split; [exact Hpl | done | done | cbn; lia | done | by left]. }
  assert (Hnd2 : NoDup (path <$> level_iter source ++ level_iter target)).
  { eapply sublist_NoDup; [exact Hnd|]. rewrite lv_iter_split. apply fmap_sublist, sublist_inserts_l.
    rewrite app_assoc. by apply sublist_inserts_r. }
  pose proof (compact_levels_ticks (mkLeveled _ blk c) w _ _ _ _ _ _ _ Hi1 Hi2 Hs Htg Hnd2 Er Ht) as HN2.
  destruct (compact_levels_merges N db L0 source target L1 blk c w src tgt a b Hs Htg Hnd2 Hd Er Hpar HN2)
    as (tbl & M & ovl & R & rest & d' & E & Hpt & Hrest & HR & Hp & HM & Hout & Hfr);
    [by apply Hfree; [lia|]|].
  rewrite concat_app in Hplain. cbn [concat] in Hplain. rewrite !Forall_app in Hplain.
  destruct Hplain as (P0 & Psrc & Ptgt & P1).
  assert (Pov : Forall plain_mem ovl /\ Forall plain_mem R) by (rewrite Hp, Forall_app in Ptgt; done).
  destruct Pov as [Povl PR].
  assert (HM' : forall k, entry M k = first_entry (src ++ ovl) k)
    by (intros k; rewrite HM; by apply plain_merged, Forall_app).
  eexists _, _, (M0 ++ [] :: (M :: R) :: M1). split; [exact E|]. split; cbn [disk ticks].
  - split.
    + subst rest. eapply merged_levels_inv; [exact Hinv | done | | exact HR | | exact Hfr].
      * rewrite Hpt. by apply Hfree; [lia|].
      * by eapply merge_disj.
    + rewrite concat_app. cbn [concat app]. rewrite Forall_app, Forall_cons, Forall_app. split_and!; try done.
      eapply plain_of_first; [|exact HM']. by apply Forall_app.
    + eapply shape_last; [|exact Hlast]. unfold shape. cbn. by rewrite !fmap_app.
    + done.
  - intros k. rewrite !concat_app. cbn [concat]. rewrite app_nil_l.
    change ((M :: R) ++ concat M1) with (M :: R ++ concat M1).
    rewrite !(first_entry_app (concat M0)). by rewrite (merge_first M src tgt ovl R).
  - unfold shape. cbn. by rewrite !fmap_app.
  - lia.
  - intros n Hn Hnew. apply Hfr.
    + intros ->. apply Hnew. exists (Some (level_num target)), (S (ticks w)). split; [lia | exact Hpt].
    + intros Hin. apply Hn. rewrite lv_iter_split. revert Hin. rewrite !fmap_app, !elem_of_app. tauto.
  - intros t. rewrite !lv_iter_split. unfold level_iter at 2 3, level_append, set_lv_sstables.
    cbn [lv_sstables rev app]. rewrite rev_app_distr. cbn [rev app]. rewrite !elem_of_app, elem_of_cons.
    intros [H|[->|[H|H]%elem_of_app]]; [by left; left | | |by left; tauto].
    + right. exists (Some (level_num target)), (S (ticks w)). split; [lia | exact Hpt].
    + left. right. right. left. subst rest. apply (elem_of_rev t (lv_sstables target)).
      apply elem_of_rev, list_elem_of_In, List.filter_In in H as [H _]. by apply list_elem_of_In.
Qed.

(** ** The squash of a level *)

Lemma lv_iter_one L0 a L1 blk c :
  lv_iter_all (mkLeveled (L0 ++ a :: L1) blk c)
  = concat (map level_iter L0) ++ level_iter a ++ concat (map level_iter L1).
Proof. unfold lv_iter_all. cbn. by rewrite map_app, concat_app. Qed.

(** One level replaced by a single new table. *)
Lemma squashed_inv L0 lv L1 blk c d M0 ms M1 t M file :
  lv_inv (mkLeveled (L0 ++ lv :: L1) blk c) d (M0 ++ ms :: M1) -> length L0 = length M0 ->
  d !! path t = None ->
  let d' := <[path t := file]> (delete_all (rev (path <$> level_iter lv)) d) in
  holds d' t M ->
  lv_inv (mkLeveled (L0 ++ level_append t (set_lv_sstables [] lv) :: L1) blk c) d' (M0 ++ [M] :: M1).
Proof.
  intros [HF Hnd Hdisj Hlast] Hlen Hnew d' Hh. cbn [levels] in HF.
  apply Forall2_app_inv in HF as [HF0 HF']; [|done]. inversion HF' as [|? ? ? ? Hs HF1]; subst.
  rewrite lv_iter_one in Hnd. pose proof Hnd as Hnd0. rewrite !fmap_app in Hnd.
  apply NoDup_app in Hnd as (_ & Hsep0 & Hnd). apply NoDup_app in Hnd as (_ & Hsep1 & _).
  assert (Hframe : forall u m, u ∈ concat (map level_iter L0) \/ u ∈ concat (map level_iter L1) ->
    holds d u m -> holds d' u m).
  { intros u m Hin Hu. apply holds_insert; [right; intros E|].
    - destruct Hu as (_ & ? & f & ? & _ & Hf). rewrite E, Hnew in Hf. done.
    - apply holds_delete_all; [|done]. rewrite elem_of_rev. intros Hx.
      destruct Hin as [Hin|Hin]; apply (list_elem_of_fmap_2 path) in Hin;
        [apply (Hsep0 _ Hin), elem_of_app; by left | by apply (Hsep1 _ Hx)]. }
  assert (Hout : (path t ∉ (path <$> concat (map level_iter L0))) /\
                 (path t ∉ (path <$> concat (map level_iter L1)))).
  { split; intros Hin; apply list_elem_of_fmap in Hin as (u & E & Hu);
      [destruct (levels_on_disk _ _ _ _ HF0 Hu) as [x Hx] | destruct (levels_on_disk _ _ _ _ HF1 Hu) as [x Hx]];
      by rewrite <- E, Hnew in Hx. }
  split.
  - cbn [levels]. apply Forall2_app; [|constructor].
    + eapply levels_holds_impl; [|exact HF0]. intros u Hu m. apply Hframe. by left.
    + cbn. constructor; [exact Hh | constructor].
    + eapply levels_holds_impl; [|exact HF1]. intros u Hu m. apply Hframe. by right.
  - rewrite lv_iter_one.
    change (level_iter (level_append t (set_lv_sstables [] lv))) with [t].
    rewrite !fmap_app in Hnd0. rewrite !fmap_app. apply NoDup_app in Hnd0 as (N0 & S0 & N1).
    apply NoDup_app in N1 as (_ & _ & N1).
    apply NoDup_app. split_and!; [done | |].
    + intros n Hn. rewrite not_elem_of_app. split.
      * intros ->%list_elem_of_singleton. by apply (proj1 Hout).
      * specialize (S0 n Hn). rewrite not_elem_of_app in S0. apply S0.
    + apply NoDup_app. split_and!; [apply NoDup_singleton | | done].
      intros n ->%list_elem_of_singleton. apply Hout.
  - intros i ms'. rewrite lookup_app. destruct (M0 !! S i) as [m0|] eqn:E0.
    + intros [= <-]. apply (Hdisj i). by rewrite lookup_app, E0.
    + intros Hi. destruct (S i - length M0)%nat as [|j] eqn:Ej; cbn in Hi.
      * injection Hi as <-. cbn. split; [|done]. intros k. by right.
      * apply (Hdisj i). by rewrite lookup_app, E0, Ej.
  - cbn [levels] in *. intros i l Hi Hterm.
    assert (Hex : exists l0, (L0 ++ lv :: L1) !! i = Some l0 /\ is_terminal l0 = is_terminal l).
    { rewrite lookup_app in Hi |- *. destruct (L0 !! i); [eauto|].
      destruct (i - length L0)%nat; cbn in Hi |- *; simplify_eq; eauto. }
    destruct Hex as (l0 & Hl0 & Heq). rewrite <- Heq in Hterm.
    specialize (Hlast i l0 Hl0 Hterm). rewrite length_app in *. cbn in *. lia.
Qed.

Lemma squash_start s w i lv t0 ts :
  levels s !! i = Some lv -> lv_sstables lv = t0 :: ts ->
  squash db i (s, w)
  = (let* now := lift_w now_ms in
     let* m := lift_w (squash_merge (is_terminal lv) now mem_new (level_iter lv)) in
     let* _ := alter_level (set_lv_sstables []) i in
     let* block := self lv_block_size in
     let* c := self lv_compression in
     let* t := lift_w (write_table db m (Some (level_num lv)) block c) in
     alter_level (level_append t) i) (s, w).
Proof.
  intros Hi Hl. unfold squash, get_level. erewrite (st_bind_Ok (self _)) by reflexivity.
  cbn [fst]. by rewrite Hi, Hl.
Qed.

(** What a squash leaves, given the table it has written. *)
Lemma squashed_kept L0 lv L1 blk c w w' M0 ms M1 t M file :
  plain_levels (mkLeveled (L0 ++ lv :: L1) blk c) (disk w) (M0 ++ ms :: M1) -> length L0 = length M0 ->
  disk w !! path t = None ->
  path t = sst_filename db (Some (level_num lv)) (wrap64 (nanos (S (ticks w)))) ->
  disk w' = <[path t := file]> (delete_all (rev (path <$> level_iter lv)) (disk w)) ->
  ticks w' = S (S (ticks w)) -> holds (disk w') t M -> (forall k, entry M k = first_entry ms k) ->
  kept (mkLeveled (L0 ++ lv :: L1) blk c) w (M0 ++ ms :: M1)
    (mkLeveled (L0 ++ level_append t (set_lv_sstables [] lv) :: L1) blk c) w' (M0 ++ [M] :: M1).
Proof.
  intros [Hinv Hplain Hlast Hpar] Hlen Hnone Hp Hd Htick Hh HM'. rewrite Hd in Hh.
  rewrite concat_app in Hplain. cbn [concat] in Hplain. rewrite !Forall_app in Hplain.
  destruct Hplain as (P0 & Pms & P1). split; rewrite ?Hd.
  - split.
    + eapply squashed_inv; [exact Hinv | done | done | exact Hh].
    + rewrite concat_app. cbn [concat app]. rewrite Forall_app, Forall_cons. split_and!; try done.
      by apply (plain_of_first _ ms).
    + eapply shape_last; [|exact Hlast]. unfold shape. cbn. by rewrite !fmap_app.
    + done.
  - intros k. rewrite !concat_app. cbn [concat]. rewrite !first_entry_app. cbn [first_entry].
    rewrite HM'. destruct (first_entry (concat M0) k), (first_entry ms k); done.
  - unfold shape. cbn. by rewrite !fmap_app.
  - lia.
  - intros n Hn Hnew. rewrite lookup_insert_ne, delete_all_lookup, decide_False; [done | |].
    + rewrite elem_of_rev. intros Hin. apply Hn. rewrite lv_iter_one, !fmap_app, !elem_of_app. tauto.
    + intros <-. apply Hnew. exists (Some (level_num lv)), (S (ticks w)). split; [lia | exact Hp].
  - intros u. rewrite !lv_iter_one. unfold level_append, set_lv_sstables, level_iter at 2.
    cbn [lv_sstables rev app]. rewrite !elem_of_app, elem_of_cons. intros [H|[->|H]].
    + by left; left.
    + right. exists (Some (level_num lv)), (S (ticks w)). split; [lia | exact Hp].
    + by left; right; right.
Qed.

Lemma squash_kept s w mss i lv :
  plain_levels s (disk w) mss -> future_free w -> levels s !! i = Some lv ->
  (ticks_of (squash db i (s, w)).1 <= N)%nat ->
  exists s' w' mss', squash db i (s, w) = ((s', w'), Ok tt) /\ kept s w mss s' w' mss'.
Proof.
  intros Hpl Hfree Hi Ht. pose proof Hpl as [Hinv Hplain Hlast Hpar].
  destruct (lv_sstables lv) as [|t0 ts] eqn:El.
  { exists s, w, mss. split; [|by apply kept_refl]. unfold squash, get_level.
    erewrite (st_bind_Ok (self _)) by reflexivity. cbn [fst]. by rewrite Hi, El. }
  rewrite (squash_start s w i lv t0 ts Hi El) in Ht |- *.
  assert (HN : (ticks w < N)%nat) by (eapply now_ticks_bound; [|exact Ht]; solve_mono).
  destruct s as [lvs blk c]. cbn [levels lv_block_size] in *.
  apply list_elem_of_split_length in Hi as (L0 & L1 & -> & Elen). subst i.
  pose proof Hinv as [HF Hnd _ _]. cbn [levels] in HF.
  apply Forall2_app_inv_l in HF as (M0 & M' & HF0 & HF' & ->). inversion HF' as [|? ms ? M1 Hs HF1]; subst.
  pose proof (Forall2_length _ _ _ HF0) as Hlen. rewrite lv_iter_one in Hnd.
  assert (Hnd2 : NoDup (path <$> level_iter lv)).
  { rewrite !fmap_app in Hnd. apply NoDup_app in Hnd as (_ & _ & Hnd). by apply NoDup_app in Hnd as (? & _). }
  destruct (squash_merge_run (is_terminal lv) (clock (ticks w)) (level_iter lv) ms mem_new
    (mkWorld (disk w) (durable w) (S (ticks w))) Hs Hnd2) as (M & E2 & HMok & HM); [split; constructor|].
  rewrite concat_app in Hplain. cbn [concat] in Hplain. rewrite !Forall_app in Hplain.
  destruct Hplain as (P0 & Pms & P1).
  assert (HM' : forall k, entry M k = first_entry ms k)
    by (intros k; rewrite HM; by apply (plain_merged (is_terminal lv) (clock (ticks w)))).
  erewrite st_bind_Ok in Ht |- * by (unfold lift_w; cbn [fst snd]; by rewrite (now_run N w) by lia).
  erewrite st_bind_Ok in Ht |- * by (unfold lift_w; cbn [fst snd]; by rewrite E2).
  unfold alter_level at 1 in Ht. unfold alter_level at 1.
  erewrite st_bind_Ok in Ht |- * by reflexivity.
  do 2 (erewrite (st_bind_Ok (self _)) in Ht |- * by reflexivity).
  cbn [fst snd lv_block_size lv_compression set_levels levels] in Ht |- *.
  apply write_ticks_bound in Ht as HN2; [|solve_mono]. cbn [ticks with_disk] in HN2.
  assert (Hfr : disk w !! sst_filename db (Some (level_num lv)) (wrap64 (nanos (S (ticks w)))) = None)
    by (by apply Hfree; [lia|]).
  destruct (write_table_run N db M (Some (level_num lv)) blk c
      (with_disk (mkWorld (disk w) (durable w) (S (ticks w)))
        (delete_all (rev (path <$> level_iter lv)) (disk w))))
    as (t & file & E3 & Hp & _ & _ & _ & Hh);
    [done | done | done | cbn; rewrite delete_all_lookup; by destruct (decide _) |].
  cbn [disk ticks durable with_disk] in E3, Hp, Hh.
  erewrite st_bind_Ok by (unfold lift_w; cbn [fst snd disk]; by rewrite E3).
  unfold alter_level, set_self, st_modify. cbn [fst snd levels set_levels lv_block_size lv_compression].
  unfold set_levels. cbn [levels lv_block_size lv_compression]. rewrite !alter_middle.
  eexists _, _, (M0 ++ [M] :: M1). split; [reflexivity|].
  eapply squashed_kept; [exact Hpl | done | by rewrite Hp | exact Hp | reflexivity | reflexivity | exact Hh | exact HM'].
Qed.

(** ** The whole of [compact_all] *)

Lemma compact_all_from_kept n : forall i s w mss,
  plain_levels s (disk w) mss -> future_free w -> (i + n)%nat = length (levels s) ->
  (ticks_of (lv_compact_all_from db i n (s, w)).1 <= N)%nat ->
  exists s' w' mss', lv_compact_all_from db i n (s, w) = ((s', w'), Ok tt) /\ kept s w mss s' w' mss'.
Proof.
  induction n as [|n IH]; intros i s w mss Hpl Hfree Hin Ht; cbn [lv_compact_all_from] in *.
  { exists s, w, mss. split; [done | by apply kept_refl]. }
  destruct (lookup_lt_is_Some_2 (levels s) i) as [lv Hlv]; [lia|].
  unfold get_level in *. erewrite (st_bind_Ok (self _)) in Ht |- * by reflexivity. cbn [fst] in *.
  rewrite Hlv in *.
  assert (Hone : exists s1 w1 mss1,
    (if is_terminal lv then squash db i else compact_levels db i (S i)) (s, w) = ((s1, w1), Ok tt) /\
    kept s w mss s1 w1 mss1).
  { assert (Hb : (ticks_of ((if is_terminal lv then squash db i else compact_levels db i (S i)) (s, w)).1
      <= N)%nat) by (etrans; [|exact Ht]; apply bind_ticks_le; solve_mono).
    destruct (is_terminal lv) eqn:Eterm; [by eapply squash_kept|].
    destruct (lookup_lt_is_Some_2 (levels s) (S i)) as [tg Htg].
    { destruct (decide (S i = length (levels s))) as [E|]; [|lia].
      pose proof (pl_last _ _ _ Hpl i lv Hlv E). congruence. }
    by eapply compact_levels_kept. }
  destruct Hone as (s1 & w1 & mss1 & E1 & K1). rewrite (st_bind_Ok _ _ _ _ _ E1) in *.
  destruct (IH (S i) s1 w1 mss1) as (s2 & w2 & mss2 & E2 & K2).
  - apply K1.
  - by eapply kept_free.
  - rewrite (shape_length _ _ (kp_shape _ _ _ _ _ _ K1)). lia.
  - done.
  - exists s2, w2, mss2. split; [done | by eapply kept_trans].
Qed.

Lemma compact_all_kept s w mss :
  plain_levels s (disk w) mss -> future_free w ->
  (ticks_of (lv_compact_all db (s, w)).1 <= N)%nat ->
  exists s' w' mss', lv_compact_all db (s, w) = ((s', w'), Ok tt) /\ kept s w mss s' w' mss'.
Proof.
  intros Hpl Hfree Ht. unfold lv_compact_all in *.
  erewrite (st_bind_Ok (self _)) in Ht |- * by reflexivity. by apply compact_all_from_kept.
Qed.
End Step.

(** ** A new strategy *)

Lemma lv_new_ok n l0 l1 b c : 0 < n -> levels (lv_new n l0 l1 b c) <> [].
Proof. intros Hn. cbn. destruct (Z.to_nat n) eqn:E; [lia | done]. Qed.

Lemma lv_new_iter n l0 l1 b c : lv_iter_all (lv_new n l0 l1 b c) = [].
Proof.
  unfold lv_iter_all, lv_new, level_iter. cbn. rewrite map_map.
  induction (seq _ _) as [|i l IH]; [done | exact IH].
Qed.

Lemma lv_new_lookup n l0 l1 b c i lv :
  levels (lv_new n l0 l1 b c) !! i = Some lv ->
  lv = new_level n l0 l1 i /\ (i < Z.to_nat n)%nat.
Proof.
  cbn. rewrite list_lookup_fmap. destruct (seq 0 _ !! i) as [j|] eqn:E; [|done].
  apply lookup_seq in E as [-> Hi]. by intros [= <-].
Qed.

Lemma lv_new_plain n l0 l1 b c d :
  0 < n -> params_ok b -> exists mss, plain_levels (lv_new n l0 l1 b c) d mss /\ concat mss = [].
Proof.
  intros Hn Hb. exists (replicate (Z.to_nat n) []).
  assert (Hcat : forall j, concat (replicate j (@nil Memtable)) = []) by (induction j; done).
  split; [|done]. split; [split| | |done].
  - cbn. generalize 0%nat. induction (Z.to_nat n) as [|j IH]; intros i; cbn; constructor; [constructor | apply IH].
  - rewrite lv_new_iter. constructor.
  - intros i ms Hi. apply lookup_replicate in Hi as [-> _]. done.
  - intros i lv Hi. destruct (lv_new_lookup _ _ _ _ _ _ _ Hi) as [-> Hlt]. cbn [levels lv_new].
    rewrite length_map, length_seq. unfold new_level. cbn [is_terminal]. lia.
  - rewrite Hcat. constructor.
  - intros i lv Hi. destruct (lv_new_lookup _ _ _ _ _ _ _ Hi) as [-> Hlt]. cbn [levels lv_new].
    rewrite length_map, length_seq. unfold new_level. cbn [is_terminal]. lia.
Qed.
