(* ===== verification/LsmSpec.v ===== *)
(** * The LSM engine refines an abstract store with expiry

    The same store as the one of the hash engine: a finite map from keys to
    values with an optional expiry. A history interleaves the operations of a
    client with steps of the background flush. *)

From S2P Require Import Prelude Utils Utf8 Bloom Collections Text Record Memtable Wal Block.
From S2P Require Import Sstable SstableSpec HashIndex World Engine KvEngine KvLog KvInv KvOps.
From S2P Require Import KvSpec Strategy LsmEngine TableInv LsmInv.

(** An operation of the [StorageEngine] trait. *)
Definition engine_op {S} `{StorageEngine S} (op : kv_op) : ST S kv_out :=
  match op with
  | KGet k => st_map OutPair (e_get k)
  | KSet k v e => st_map (fun _ => OutUnit) (e_set_with_ttl k v e)
  | KMset items => st_map (fun _ => OutUnit) (e_mset_with_ttl items)
  | KDelete k => st_map OutDeleted (e_delete k)
  | KTtl k e => st_map OutTtl (e_ttl k e)
  | KExists k => st_map OutBool (e_exists k)
  | KMget ks => st_map OutPairs (e_mget ks)
  | KList => st_map OutKeys e_list_keys
  | KCompact => st_map (fun _ => OutUnit) e_compact
  end.

(** A client's operation, or a step of the background thread. *)
Inductive lsm_act := Client (op : kv_op) | Background.

Section Run.
Context `{CK : Clock} `{NS : Nanos} `{SO : SetOrder} {T : Type} `{SS : StorageStrategy T}.

Definition run_act (a : lsm_act) : ST (LsmState T) kv_out :=
  match a with
  | Client op => engine_op op
  | Background => st_map (fun _ => OutUnit) bg_step
  end.

Fixpoint run_acts (l : list lsm_act) (s : LsmState T) : LsmState T * list (result kv_out) :=
  match l with
  | [] => (s, [])
  | a :: l' =>
      let '(s1, r) := run_act a s in
      let '(s2, rs) := run_acts l' s1 in
      (s2, r :: rs)
  end.
End Run.

Section Spec.
Context `{CK : Clock}.

(** What an action may answer between the readings [t0] and [t1] of the
    clock, and the map it leaves. *)
Inductive lsm_step (t0 t1 : nat) : lsm_act -> result kv_out -> kvmap -> kvmap -> Prop :=
  | ls_get k m i : (t0 <= i <= t1)%nat ->
      lsm_step t0 t1 (Client (KGet k))
        (Ok (OutPair ((fun v => (k, v)) <$> spec_get m k (clock i)))) m m
  | ls_set k v e m :
      lsm_step t0 t1 (Client (KSet k v e)) (Ok OutUnit) m (<[k := (v, e)]> m)
  | ls_mset items m :
      lsm_step t0 t1 (Client (KMset items)) (Ok OutUnit) m
        (fold_left (fun m p => <[p.1.1 := (p.1.2, p.2)]> m) items m)
  | ls_delete k m i : (t0 <= i <= t1)%nat ->
      lsm_step t0 t1 (Client (KDelete k))
        (Ok (OutDeleted ((fun _ => tt) <$> spec_get m k (clock i)))) m (delete k m)
  | ls_ttl k e m i v : (t0 <= i <= t1)%nat -> spec_get m k (clock i) = Some v ->
      lsm_step t0 t1 (Client (KTtl k e))
        (Ok (OutTtl (match e with Some _ => TtlSet | None => TtlPersisted end))) m
        (<[k := (v, e)]> m)
  | ls_ttl_none k e m i : (t0 <= i <= t1)%nat -> spec_get m k (clock i) = None ->
      lsm_step t0 t1 (Client (KTtl k e)) (Ok (OutTtl TtlNotFound)) m m
  | ls_exists k m i : (t0 <= i <= t1)%nat ->
      lsm_step t0 t1 (Client (KExists k))
        (Ok (OutBool (bool_decide (is_Some (spec_get m k (clock i)))))) m m
  | ls_mget ks m l :
      Forall2 (fun k p => p.1 = k /\ exists i, (t0 <= i <= t1)%nat /\ p.2 = spec_get m k (clock i))
        ks l ->
      lsm_step t0 t1 (Client (KMget ks)) (Ok (OutPairs l)) m m
  | ls_background m :
      lsm_step t0 t1 Background (Ok OutUnit) m m.

Inductive lsm_run : nat -> nat -> list lsm_act -> list (result kv_out) -> kvmap -> kvmap -> Prop :=
  | lr_nil t m : lsm_run t t [] [] m m
  | lr_cons t0 t1 t2 a l r rs m m1 m2 :
      (t0 <= t1)%nat -> lsm_step t0 t1 a r m m1 -> lsm_run t1 t2 l rs m1 m2 ->
      lsm_run t0 t2 (a :: l) (r :: rs) m m2.
End Spec.

(** Arguments within the limits of the record format (the engine does not
    check them), and no listing and no compaction. *)
Definition act_ok (a : lsm_act) : Prop :=
  match a with
  | Client (KSet k v e) => kv_ok k v e
  | Client (KMset items) => Forall (fun p => kv_ok p.1.1 p.1.2 p.2) items
  | Client (KDelete k) => kv_ok k [] None
  | Client (KTtl k e) => expiry_ok e
  | Client KList | Client KCompact => False
  | Client _ | Background => True
  end.

(** The entries an action writes satisfy [P]. *)
Definition act_entries (P : MemtableEntry -> Prop) (a : lsm_act) : Prop :=
  match a with
  | Client (KSet k v e) => P (mkEntry (Some v) e)
  | Client (KMset items) => Forall (fun p => P (mkEntry (Some p.1.2) p.2)) items
  | Client (KDelete k) => P (mkEntry None None)
  | Client (KTtl k e) => forall v, P (mkEntry (Some v) e)
  | _ => True
  end.

(** ** Lemmas *)

Section Refine.
Context `{CK : Clock} `{NS : Nanos} `{SO : SetOrder} (N : nat) `{GT : !GoodTime N}
  (db : str).
Context {T : Type} `{SS : StorageStrategy T} `{FL : !FlushLaws T}.

Implicit Types (s : LsmState T) (m : kvmap).

#[local] Abbreviation inv := (lsm_inv N db).

Lemma mono_lsm_map {St} `{Ticking St} {A B} (f : A -> B) (c : ST St A) :
  Mono c -> Mono (st_map f c).
Proof. intros. unfold st_map. apply _. Qed.

Lemma lsm_inv_tick e w w' m ops tabs :
  inv (e, w) m ops tabs -> disk w' = disk w -> (ticks w <= ticks w')%nat ->
  inv (e, w') m ops tabs.
Proof.
  intros [] Hd Ht. split; cbn [fst snd] in *; rewrite ?Hd; auto. intros i lvl Hi HN. apply inv_fresh; lia.
Qed.

(** The clock, then the lookup: what [get] and [ttl] start with. *)
Lemma read_run {A} s m ops tabs k (f : option str -> ST (LsmState T) A) :
  inv s m ops tabs -> (forall x, Mono (f x)) ->
  let c := let* now := lift_w now_ms in
           let* act := self active in
           let* imm := self immutable in
           let* strategy := read_strategy in
           let* r := lift_w (lookup act imm strategy k now) in f r in
  (ticks_of (c s).1 <= N)%nat ->
  exists w' i, c s = f (spec_get m k (clock i)) (s.1, w') /\
    inv (s.1, w') m ops tabs /\ (ticks s.2 <= i <= ticks w')%nat.
Proof.
  intros Hi Hf c Ht. destruct s as [e w]. subst c. cbn [fst snd] in *.
  assert (HN : (ticks w < N)%nat).
  { assert (H : (ticks_of (lift_w (T := LsmEngine T) now_ms (e, w)).1 <= N)%nat)
      by (etrans; [|exact Ht]; apply bind_ticks_le; solve_mono).
    unfold lift_w in H. pose proof (now_ms_ticks w) as Hw. unfold ticks_of, ticking_pair in H.
    cbn [fst snd] in H. destruct (now_ms w) as [w1 r1]. cbn in *. lia. }
  set (w1 := mkWorld (disk w) (durable w) (S (ticks w))).
  assert (E1 : lift_w (T := LsmEngine T) now_ms (e, w) = ((e, w1), Ok (clock (ticks w))))
    by (unfold lift_w; cbn [fst snd]; by rewrite (now_run N w HN)).
  rewrite (st_bind_Ok _ _ _ _ _ E1) in *.
  assert (Hi1 : inv (e, w1) m ops tabs) by (eapply lsm_inv_tick; [done | done | cbn; lia]).
  do 2 (erewrite (st_bind_Ok (self _)) in * by reflexivity; cbn [fst snd] in * ).
  assert (E2 : read_strategy (e, w1) = ((e, w1), Ok (storage_strategy e)))
    by (unfold read_strategy; by rewrite (inv_lock _ _ _ _ _ _ Hi1)).
  rewrite (st_bind_Ok _ _ _ _ _ E2) in *.
  destruct (lookup_run N db (e, w1) m ops tabs k (clock (ticks w)) Hi1) as (w2 & t & E & Hd & Hw & Htm).
  { assert (H : (ticks_of (lift_w (T := LsmEngine T) (lookup (active e) (immutable e)
        (storage_strategy e) k (clock (ticks w))) (e, w1)).1 <= N)%nat)
      by (etrans; [|exact Ht]; apply bind_ticks_le; solve_mono).
    unfold lift_w, ticks_of, ticking_pair in H. cbn [fst snd] in *.
    by destruct (lookup _ _ _ _ _ w1). }
  cbn [fst snd] in *.
  assert (E3 : lift_w (T := LsmEngine T) (lookup (active e) (immutable e) (storage_strategy e) k
      (clock (ticks w))) (e, w1) = ((e, w2), Ok (spec_get m k t)))
    by (unfold lift_w; cbn [fst snd]; by rewrite E).
  rewrite (st_bind_Ok _ _ _ _ _ E3) in *.
  assert (Hi2 : inv (e, w2) m ops tabs) by (eapply lsm_inv_tick; [exact Hi1 | done | done]).
  destruct Htm as [->|(i & Hrange & ->)]; eexists w2, _;
    (split; [reflexivity|]; split; [done|]); cbn in *; lia.
Qed.

Lemma lsm_get_run s m ops tabs k :
  inv s m ops tabs -> (ticks_of (lsm_get k s).1 <= N)%nat ->
  exists s' i, lsm_get k s = (s', Ok ((fun v => (k, v)) <$> spec_get m k (clock i))) /\
    inv s' m ops tabs /\ (ticks s.2 <= i <= ticks s'.2)%nat.
Proof.
  intros Hi Ht. unfold lsm_get in *.
  destruct (read_run s m ops tabs k
    (fun r => st_ret (match r with Some v => Some (k, v) | None => None end)) Hi
    ltac:(intros; apply _) Ht) as (w' & i & E & Hi' & Hr).
  exists (s.1, w'), i. split; [|done]. etrans; [exact E|]. by destruct (spec_get m k (clock i)).
Qed.

Lemma write_run s m ops tabs k v x :
  inv s m ops tabs -> wal_op_ok (write_op k v x) -> fl_entry (op_entry (write_op k v x)) ->
  let c := let* size := apply_write k v x in flush_if_full size in
  (ticks_of (c s).1 <= N)%nat ->
  exists s' ops' tabs', c s = (s', Ok tt) /\ inv s' (apply_op m (write_op k v x)) ops' tabs'.
Proof.
  intros Hi Ho He c Ht. subst c.
  destruct (apply_write_run N db s m ops tabs k v x Hi Ho He) as (s1 & z & E & Hi1 & _).
  rewrite (st_bind_Ok _ _ _ _ _ E) in *. by eapply flush_if_full_run.
Qed.

Lemma lsm_set_run s m ops tabs k v x :
  inv s m ops tabs -> kv_ok k v x -> fl_entry (mkEntry (Some v) x) ->
  (ticks_of (lsm_set_with_ttl k v x s).1 <= N)%nat ->
  exists s' ops' tabs', lsm_set_with_ttl k v x s = (s', Ok tt) /\
    inv s' (<[k := (v, x)]> m) ops' tabs'.
Proof. intros Hi Hok He Ht. by apply (write_run s m ops tabs k (Some v) x). Qed.

Lemma lsm_mset_run items s m ops tabs :
  inv s m ops tabs -> Forall (fun p => kv_ok p.1.1 p.1.2 p.2) items ->
  Forall (fun p => fl_entry (mkEntry (Some p.1.2) p.2)) items ->
  (ticks_of (lsm_mset_with_ttl items s).1 <= N)%nat ->
  exists s' ops' tabs', lsm_mset_with_ttl items s = (s', Ok tt) /\
    inv s' (fold_left (fun m p => <[p.1.1 := (p.1.2, p.2)]> m) items m) ops' tabs'.
Proof.
  unfold lsm_mset_with_ttl. revert s m ops tabs.
  induction items as [|[[k v] x] items IH]; intros s m ops tabs Hi Hok He Ht; [by exists s, ops, tabs|].
  apply Forall_cons in Hok as [Hk Hok], He as [Hek He]. cbn [st_iter fst snd] in *.
  destruct (lsm_set_run s m ops tabs k v x Hi Hk Hek) as (s1 & o1 & t1 & E & Hi1); [within Ht|].
  rewrite (st_bind_Ok _ _ _ _ _ E) in Ht |- *. exact (IH s1 _ o1 t1 Hi1 Hok He Ht).
Qed.

Lemma lsm_delete_run s m ops tabs k :
  inv s m ops tabs -> kv_ok k [] None -> fl_entry (mkEntry None None) ->
  (ticks_of (lsm_delete k s).1 <= N)%nat ->
  exists s' i ops' tabs', lsm_delete k s
      = (s', Ok ((fun _ => tt) <$> spec_get m k (clock i))) /\
    inv s' (delete k m) ops' tabs' /\ (ticks s.2 <= i <= ticks s'.2)%nat.
Proof.
  intros Hi Hok He Ht. unfold lsm_delete in *.
  destruct (lsm_get_run s m ops tabs k Hi) as (s1 & i & E & Hi1 & Hr); [within Ht|].
  rewrite (st_bind_Ok _ _ _ _ _ E) in *.
  destruct (apply_write_run N db s1 m ops tabs k None None Hi1 Hok He) as (s2 & z & E2 & Hi2 & Ht2).
  rewrite (st_bind_Ok _ _ _ _ _ E2) in *.
  destruct (flush_if_full_run N db s2 _ _ _ z Hi2) as (s3 & o3 & t3 & E3 & Hi3); [within Ht|].
  pose proof (mono_flush_if_full z s2) as Hm. rewrite E3 in Hm.
  rewrite (st_bind_Ok _ _ _ _ _ E3) in *.
  exists s3, i, o3, t3. split; [by destruct (spec_get m k (clock i))|]. split; [exact Hi3|].
  unfold ticks_of, ticking_pair in Hm. cbn in *. lia.
Qed.

(** Every memtable a read consults is well formed. *)
Lemma layers_ok s m ops tabs : inv s m ops tabs -> Forall mem_ok (layers s.1 tabs).
Proof.
  intros [_ _ _ H4 _ H6 _ H8 H9 _ _ _ _].
  assert (Htabs : Forall mem_ok tabs) by (clear -H4; induction H4 as [|? ? ? ? Hh]; constructor; [apply Hh | done]).
  constructor; [rewrite H9; by apply log_mem_ok|]. apply Forall_app. split; [|done].
  unfold flush_ok in H6. destruct (immutable s.1) as [im|]; [|constructor].
  constructor; [|constructor]. destruct (flush_handle s.1); try done; [apply H6 | apply H6|].
  destruct tabs; [done|]. injection H6 as ->. by inversion Htabs.
Qed.

(** The bindings in view fit the record format. *)
Lemma inv_binding_ok s m ops tabs k v x :
  inv s m ops tabs -> m !! k = Some (v, x) -> kv_ok k v x.
Proof.
  intros Hi Hm. rewrite (inv_view _ _ _ _ _ _ Hi) in Hm.
  pose proof (layers_ok _ _ _ _ Hi) as Hall.
  revert Hall Hm. generalize (layers s.1 tabs). induction l as [|mt l IH]; [done|].
  intros Hall. inversion Hall as [|? ? Hmt Hl]; subst. cbn [first_entry].
  destruct (entry mt k) as [en|] eqn:E; [|by apply IH]. unfold entry_binding.
  destruct (mvalue en) as [v'|] eqn:Ev; [|done]. intros [= <- <-].
  destruct Hmt as [_ Hf]. rewrite Forall_forall in Hf.
  specialize (Hf _ (bt_get_In _ _ _ E)). unfold entry_ok in Hf. cbn in Hf. by rewrite Ev in Hf.
Qed.

Lemma lsm_ttl_run s m ops tabs k x :
  inv s m ops tabs -> expiry_ok x -> (forall v, fl_entry (mkEntry (Some v) x)) ->
  (ticks_of (lsm_ttl k x s).1 <= N)%nat ->
  exists s' i ops' tabs', (ticks s.2 <= i <= ticks s'.2)%nat /\
    match spec_get m k (clock i) with
    | Some v => lsm_ttl k x s
          = (s', Ok (match x with Some _ => TtlSet | None => TtlPersisted end)) /\
        inv s' (<[k := (v, x)]> m) ops' tabs'
    | None => lsm_ttl k x s = (s', Ok TtlNotFound) /\ inv s' m ops' tabs'
    end.
Proof.
  intros Hi Hx He Ht. unfold lsm_ttl in *.
  destruct (read_run s m ops tabs k (fun r => match r with
    | None => st_ret TtlNotFound
    | Some v =>
        let* size := apply_write k (Some v) x in
        let* _ := flush_if_full size in
        st_ret (match x with Some _ => TtlSet | None => TtlPersisted end)
    end) Hi ltac:(solve_mono) Ht) as (w' & i & E & Hi' & Hr).
  assert (Ht' := Nat.le_trans _ _ _ (Nat.eq_le_incl _ _
    (eq_sym (f_equal (fun r => ticks_of r.1) E))) Ht). clear Ht. rename Ht' into Ht.
  destruct (spec_get m k (clock i)) as [v|] eqn:Eg; [|exists (s.1, w'), i, ops, tabs; rewrite Eg; split; [done|];
    split; [exact E | done]].
  assert (Hv : kv_ok k v x).
  { unfold spec_get in Eg. destruct (m !! k) as [[v' x']|] eqn:Em; [|done].
    destruct (expired x' _); [done|]. injection Eg as ->.
    destruct (inv_binding_ok _ _ _ _ _ _ _ Hi Em). by split. }
  destruct (apply_write_run N db (s.1, w') m ops tabs k (Some v) x Hi' Hv (He v)) as (s2 & z & E2 & Hi2 & Ht2).
  rewrite (st_bind_Ok _ _ _ _ _ E2) in Ht, E.
  destruct (flush_if_full_run N db s2 _ _ _ z Hi2) as (s3 & o3 & t3 & E3 & Hi3); [within Ht|].
  pose proof (mono_flush_if_full z s2) as Hm. rewrite E3 in Hm.
  rewrite (st_bind_Ok _ _ _ _ _ E3) in E.
  exists s3, i, o3, t3. rewrite Eg. split; [|split; [exact E | exact Hi3]].
  unfold ticks_of, ticking_pair in Hm. cbn in *. lia.
Qed.

Lemma lsm_mget_run ks s m ops tabs :
  inv s m ops tabs -> (ticks_of (lsm_mget ks s).1 <= N)%nat ->
  exists s' l, lsm_mget ks s = (s', Ok l) /\ inv s' m ops tabs /\
    Forall2 (fun k p => p.1 = k /\ exists i, (ticks s.2 <= i <= ticks s'.2)%nat /\
      p.2 = spec_get m k (clock i)) ks l.
Proof.
  revert s. induction ks as [|k ks IH]; intros s Hi Ht; [by exists s, []|]. cbn [lsm_mget] in *.
  destruct (lsm_get_run s m ops tabs k Hi) as (s1 & i & E & Hi1 & Hr); [within Ht|].
  rewrite (st_bind_Ok _ _ _ _ _ E) in *.
  destruct (IH s1 Hi1) as (s2 & l & E2 & Hi2 & HF); [within Ht|].
  pose proof (mono_lsm_mget ks s1) as Hm. rewrite E2 in Hm.
  unfold ticks_of, ticking_pair in Hm. cbn in Hm.
  rewrite (st_bind_Ok _ _ _ _ _ E2) in *. exists s2. eexists. split; [reflexivity|]. split; [done|].
  constructor.
  - split; [by destruct (spec_get m k (clock i))|]. exists i. split; [lia|].
    by destruct (spec_get m k (clock i)).
  - eapply Forall2_impl; [exact HF|]. intros k' p (Hk & j & Hj & Hp). split; [done|].
    exists j. split; [lia | done].
Qed.

Lemma lsm_exists_run s m ops tabs k :
  inv s m ops tabs -> (ticks_of (lsm_exists k s).1 <= N)%nat ->
  exists s' i, lsm_exists k s = (s', Ok (bool_decide (is_Some (spec_get m k (clock i))))) /\
    inv s' m ops tabs /\ (ticks s.2 <= i <= ticks s'.2)%nat.
Proof.
  intros Hi Ht. unfold lsm_exists in *.
  destruct (lsm_get_run s m ops tabs k Hi) as (s1 & i & E & Hi1 & Hr).
  { by destruct (lsm_get k s) as [? []]. }
  rewrite E. exists s1, i. split; [|done]. f_equal. f_equal. by destruct (spec_get m k (clock i)).
Qed.
Lemma mono_run_act a : act_ok a -> Mono (run_act a).
Proof. destruct a as [[]|]; intros Ha; try done; apply mono_lsm_map; apply _. Qed.

#[local] Ltac refines E Hi :=
  erewrite st_map_Ok by exact E; do 5 eexists; split; [done|]; split; [exact Hi|];
  by econstructor.

Lemma run_act_refine a s m ops tabs :
  inv s m ops tabs -> act_ok a -> act_entries fl_entry a -> (ticks_of (run_act a s).1 <= N)%nat ->
  exists s' r m' ops' tabs', run_act a s = (s', r) /\ inv s' m' ops' tabs' /\
    lsm_step (ticks s.2) (ticks s'.2) a r m m'.
Proof.
  intros Hi Ha He Ht. destruct a as [op|]; [destruct op|]; cbn [run_act act_ok act_entries] in *; try done;
    unfold engine_op in *; cbn in Ht |- *; rewrite st_map_ticks in Ht.
  - destruct (lsm_get_run _ _ _ _ k Hi Ht) as (s' & i & E & Hi' & Hr).
    refines E Hi'.
  - destruct (lsm_set_run _ _ _ _ k v e Hi Ha He Ht) as (s' & o' & t' & E & Hi').
    refines E Hi'.
  - destruct (lsm_mset_run items _ _ _ _ Hi Ha He Ht) as (s' & o' & t' & E & Hi').
    refines E Hi'.
  - destruct (lsm_delete_run _ _ _ _ k Hi Ha He Ht) as (s' & i & o' & t' & E & Hi' & Hr).
    refines E Hi'.
  - destruct (lsm_ttl_run _ _ _ _ k e Hi Ha He Ht) as (s' & i & o' & t' & Hr & Hc).
    destruct (spec_get m k (clock i)) as [v|] eqn:Eg; destruct Hc as [E Hi'].
    + refines E Hi'.
    + erewrite st_map_Ok by exact E. do 5 eexists. split; [done|]. split; [exact Hi'|].
      by eapply ls_ttl_none.
  - destruct (lsm_exists_run _ _ _ _ k Hi Ht) as (s' & i & E & Hi' & Hr).
    refines E Hi'.
  - destruct (lsm_mget_run ks _ _ _ _ Hi Ht) as (s' & l & E & Hi' & HF).
    refines E Hi'.
  - destruct (bg_step_run N db _ _ _ _ Hi Ht) as (s' & t' & E & Hi' & _).
    refines E Hi'.
Qed.

Lemma run_acts_ticks l s :
  Forall act_ok l -> (ticks_of s <= ticks_of (run_acts l s).1)%nat.
Proof.
  revert s. induction l as [|a l IH]; intros s Hl; [apply le_n|]. inversion Hl as [|? ? Ha Hl']; subst.
  cbn. pose proof (mono_run_act a Ha s) as H1. destruct (run_act a s) as [s1 r].
  specialize (IH s1 Hl'). destruct (run_acts l s1) as [s2 rs]. cbn in *. lia.
Qed.

Lemma run_acts_refine l s m ops tabs :
  inv s m ops tabs -> Forall act_ok l -> Forall (act_entries fl_entry) l ->
  (ticks_of (run_acts l s).1 <= N)%nat ->
  exists m' ops' tabs', inv (run_acts l s).1 m' ops' tabs' /\
    lsm_run (ticks s.2) (ticks (run_acts l s).1.2) l (run_acts l s).2 m m'.
Proof.
  revert s m ops tabs. induction l as [|a l IH]; intros s m ops tabs Hi Hl He Ht.
  { exists m, ops, tabs. split; [done | constructor]. }
  apply Forall_cons in Hl as [Ha Hl'], He as [Hea He'].
  destruct (run_act_refine a s m ops tabs Hi Ha Hea) as (s1 & r & m1 & o1 & t1 & E & Hi1 & Hst).
  { etrans; [|exact Ht]. cbn. destruct (run_act a s) as [s1 r].
    pose proof (run_acts_ticks l s1 Hl'). by destruct (run_acts l s1). }
  pose proof (mono_run_act a Ha s) as Hm. rewrite E in Hm.
  cbn in Ht |- *. rewrite E in Ht |- *.
  destruct (IH s1 m1 o1 t1 Hi1 Hl' He') as (m2 & o2 & t2 & Hi2 & Hr);
    destruct (run_acts l s1) as [s2 rs]; [done|].
  exists m2, o2, t2. split; [exact Hi2|]. econstructor; [exact Hm | exact Hst | exact Hr].
Qed.

(** A fresh engine on an empty strategy. *)
Lemma lsm_new_inv max st block c w :
  fl_inv st (disk w) [] -> iter_all st = [] -> params_ok block -> disk w = ∅ ->
  exists s, lsm_new db max st block c w = (s.2, Ok s.1) /\ inv s ∅ [] [] /\ ticks s.2 = ticks w.
Proof.
  intros Hst Hall Hb Hd. unfold lsm_new, wal_open, open_create, st_bind, st_modify. cbn -[wal_name].
  assert (Hn : disk w !! wal_name db = None) by (rewrite Hd; apply lookup_empty).
  rewrite Hn. eexists (_, _). split; [reflexivity|]. split; [|done].
  split; cbn -[wal_name]; rewrite ?Hall; try done; try (by constructor).
  - apply fl_frame; [done | by left].
  - apply lookup_insert_eq.
  - intros i lvl _ _. rewrite Hd. rewrite lookup_insert_ne; [apply lookup_empty|].
    apply not_eq_sym, sst_filename_not_wal.
Qed.
End Refine.
