(* ===== verification/LsmInserts.v ===== *)
(** * Listing and compacting an LSM engine that is only written to

    With deletions or expiries in its tables, the engine over the leveled
    strategy lists keys it no longer has and brings deleted keys back when it is
    compacted (see [LsmTheorems]). Here are the histories in which it does
    not: as long as a client writes values without an expiry, any mixture of
    writes, reads, listings and full compactions behaves as the abstract map.
    The leveled strategy keeps the interface [FlushLaws] for plain entries with
    the invariant of [PlainLevels], so every lemma of [LsmInv] and [LsmSpec]
    applies; only the two operations that read or rewrite the tables are new. *)

From S2P Require Import Prelude Utils Utf8 Bloom Collections Text Record Memtable Wal Block.
From S2P Require Import Sstable SstableSpec HashIndex World Engine KvEngine KvLog KvInv KvOps.
From S2P Require Import KvSpec Strategy Float SizeTiered Leveled LsmEngine TableInv MergeInv LeveledInv.
From S2P Require Import LsmInv PlainLevels LsmSpec.

(** ** The strategy, for plain entries *)

Section Strategy.
Context `{CK : Clock} `{NS : Nanos}.

Definition plain_inv (s : Leveled) (d : files) (tabs : list Memtable) : Prop :=
  levels s <> [] /\ exists mss, plain_levels s d mss /\ tabs = concat mss.

Lemma plain_frame s d tabs n b :
  plain_inv s d tabs -> d !! n = None \/ Forall (fun t => path t <> n) (lv_iter_all s) ->
  plain_inv s (<[n := b]> d) tabs.
Proof.
  intros (Hne & mss & [[H1 H2 H3 H4] H5 H6 H7] & ->) Hn. split; [done|]. exists mss. split; [|done].
  split; [split|..]; try done. eapply levels_holds_impl; [|exact H1]. intros t Ht m Hm.
  apply holds_insert; [|done]. destruct Hn as [Hn|Hn]; [by left|]. right.
  by apply (proj1 (Forall_forall _ _) Hn).
Qed.

Lemma level_iter_append t lv : level_iter (level_append t lv) = t :: level_iter lv.
Proof. unfold level_iter, level_append. cbn. by rewrite rev_app_distr. Qed.

Lemma plain_add s w tabs t m :
  plain_inv s (disk w) tabs -> holds (disk w) t m -> plain_mem m ->
  path t ∉ (path <$> lv_iter_all s) ->
  exists s', lv_add_sstable t (s, w) = ((s', w), Ok tt) /\
    lv_iter_all s' = t :: lv_iter_all s /\ plain_inv s' (disk w) (m :: tabs).
Proof.
  destruct s as [[|lv ls] b c]; intros (Hne & mss & [[H1 H2 H3 H4] H5 H6 H7] & ->) Hh Hm Hp; [done|].
  cbn [levels] in H1. inversion H1 as [|? ms ? M1 Hl HF]; subst.
  assert (Hit : lv_iter_all (mkLeveled (level_append t lv :: ls) b c)
                = t :: lv_iter_all (mkLeveled (lv :: ls) b c))
    by (unfold lv_iter_all; cbn [levels map concat]; by rewrite level_iter_append).
  eexists. split; [reflexivity|]. split; [exact Hit|]. split; [done|].
  exists ((m :: ms) :: M1). split; [|done]. split; [split|..].
  - constructor; [|done]. rewrite level_iter_append. by constructor.
  - change (NoDup (path <$> lv_iter_all (mkLeveled (level_append t lv :: ls) b c))). rewrite Hit. by constructor.
  - intros i ms' Hi. by apply (H3 i).
  - intros i l Hi Hterm. destruct i as [|i].
    + injection Hi as <-. by apply (H4 0%nat lv).
    + by apply (H4 (S i) l).
  - cbn [concat app] in H5 |- *. by constructor.
  - intros i l Hi Hlen. destruct i as [|i].
    + injection Hi as <-. by apply (H6 0%nat lv).
    + by apply (H6 (S i) l).
  - exact H7.
Qed.

#[local] Instance plain_leveled : FlushLaws Leveled.
Proof.
  refine {| fl_entry := plain_entry; fl_inv := plain_inv |}.
  - done.
  - apply plain_frame.
  - apply plain_add.
  - intros t [s w]. cbn. unfold lv_add_sstable, st_bind, self, st_gets. cbn.
    destruct (levels s); apply le_n.
Defined.
End Strategy.
#[local] Existing Instance plain_leveled.

(** ** The abstract store *)

Section Spec.
Context `{CK : Clock}.

(** [lsm_step] with the listing, which gives each key that has a value once, and
    the compaction, which changes nothing. *)
Inductive full_step (t0 t1 : nat) : lsm_act -> result kv_out -> kvmap -> kvmap -> Prop :=
  | fs_step a r m m' : lsm_step t0 t1 a r m m' -> full_step t0 t1 a r m m'
  | fs_list m l i : (t0 <= i <= t1)%nat -> NoDup l ->
      (forall k, k ∈ l <-> is_Some (spec_get m k (clock i))) ->
      full_step t0 t1 (Client KList) (Ok (OutKeys l)) m m
  | fs_compact m : full_step t0 t1 (Client KCompact) (Ok OutUnit) m m.

Inductive full_run : nat -> nat -> list lsm_act -> list (result kv_out) -> kvmap -> kvmap -> Prop :=
  | fr_nil t m : full_run t t [] [] m m
  | fr_cons t0 t1 t2 a l r rs m m1 m2 :
      (t0 <= t1)%nat -> full_step t0 t1 a r m m1 -> full_run t1 t2 l rs m1 m2 ->
      full_run t0 t2 (a :: l) (r :: rs) m m2.
End Spec.

(** What a client may do that never deletes and never sets an expiry. *)
Definition insert_ok (a : lsm_act) : Prop :=
  (act_ok a \/ a = Client KList \/ a = Client KCompact) /\ act_entries plain_entry a.

Section Inserts.
Context `{CK : Clock} `{NS : Nanos} `{SO : SetOrder} (N : nat) `{GT : !GoodTime N} (db : str).

Implicit Types (s : LsmState Leveled) (m : kvmap).
#[local] Abbreviation inv := (lsm_inv N db).

(** ** Listing *)

Lemma layers_plain s m ops tabs : inv s m ops tabs -> Forall plain_mem (layers s.1 tabs).
Proof.
  intros [(_ & mss & Hpl & ->) _ _ _ _ Hfl _ _ Ha _ _ _ He]. apply pl_plain in Hpl.
  constructor; [rewrite Ha; by apply log_mem_all|]. apply Forall_app. split; [|done].
  unfold flush_ok in Hfl. destruct (immutable s.1) as [im|]; [|constructor].
  constructor; [|constructor]. destruct (flush_handle s.1); try done; [apply Hfl | apply Hfl|].
  destruct (concat mss); [done|]. injection Hfl as ->. by apply Forall_inv in Hpl.
Qed.

Lemma plain_keys_entry now keys k e :
  plain_entry e -> keys_entry now keys (k, e) = keys ∪ {[k]}.
Proof. intros [[v Hv] Hx]. unfold keys_entry, live_value. cbn. by rewrite Hv, Hx. Qed.

Lemma plain_keys_record now keys k e :
  plain_entry e -> keys_record now keys (sealed (entry_record (k, e))) = keys ∪ {[k]}.
Proof. destruct e as [v x]. intros [[v' Hv] Hx]. cbn in Hv, Hx. by subst. Qed.

(** The keys of a memtable. *)
Definition mem_keys (mt : Memtable) : gset str := list_to_set (entries mt).*1.

Lemma elem_of_mem_keys mt k : k ∈ mem_keys mt <-> is_Some (entry mt k).
Proof.
  unfold mem_keys, entry. rewrite elem_of_list_to_set.
  induction (entries mt) as [|[k1 e1] ps IH]; cbn.
  - split; [by intros ?%not_elem_of_nil | by intros []].
  - rewrite elem_of_cons, IH. case_decide; naive_solver.
Qed.

Lemma plain_pairs mt : mem_ok mt -> plain_mem mt -> Forall (fun p => plain_entry p.2) (entries mt).
Proof.
  intros [Hs _] Hp. apply Forall_forall. intros [k e] Hin. apply (Hp k e). by apply bt_In_get.
Qed.

Lemma fold_keys now mt keys : mem_ok mt -> plain_mem mt ->
  fold_left (keys_entry now) (entries mt) keys = keys ∪ mem_keys mt.
Proof.
  intros Hok Hp. pose proof (plain_pairs mt Hok Hp) as Hall. unfold mem_keys. revert keys.
  induction Hall as [|[k e] ps He _ IH]; intros keys; cbn; [set_solver|].
  rewrite IH, plain_keys_entry by done. set_solver.
Qed.

Lemma scan_keys now mt keys : mem_ok mt -> plain_mem mt ->
  scan (keys_record now) keys ((fun p => Ok (sealed (entry_record p))) <$> entries mt)
  = Ok (keys ∪ mem_keys mt).
Proof.
  intros Hok Hp. pose proof (plain_pairs mt Hok Hp) as Hall. unfold mem_keys. revert keys.
  induction Hall as [|[k e] ps He _ IH]; intros keys; cbn; [f_equal; set_solver|].
  rewrite IH, plain_keys_record by done. f_equal. set_solver.
Qed.

Lemma is_Some_orelse {A} (x y : option A) :
  is_Some (match x with Some a => Some a | None => y end) <-> is_Some x \/ is_Some y.
Proof. destruct x; [|by split; [right | intros [[]|]]]. split; [by left | by eexists]. Qed.

Lemma scan_tables_keys now l tabs w keys :
  Forall2 (holds (disk w)) l tabs -> Forall plain_mem tabs ->
  exists keys', scan_tables (keys_record now) keys l w = (w, Ok keys') /\
    forall k, k ∈ keys' <-> k ∈ keys \/ is_Some (first_entry tabs k).
Proof.
  intros HF. revert keys. induction HF as [|t mt l tabs Hh _ IH]; intros keys Hp.
  { exists keys. split; [done|]. cbn. intros k. split; [by left | by intros [?|[]]]. }
  apply Forall_cons in Hp as [Hm Hp]. destruct (IH (keys ∪ mem_keys mt) Hp) as (keys' & E & Hk).
  exists keys'. split.
  - cbn [scan_tables]. rewrite (st_bind_Ok _ _ _ _ _ (table_items_run t mt w Hh)).
    rewrite scan_keys by (done || apply Hh). by rewrite (st_bind_Ok _ _ _ w (keys ∪ mem_keys mt)).
  - intros k. rewrite Hk, elem_of_union, elem_of_mem_keys. cbn [first_entry].
    rewrite is_Some_orelse. tauto.
Qed.

Lemma plain_view s m ops tabs k t :
  inv s m ops tabs -> is_Some (spec_get m k t) <-> is_Some (first_entry (layers s.1 tabs) k).
Proof.
  intros Hi. pose proof (layers_plain _ _ _ _ Hi) as Hp. unfold spec_get. rewrite (inv_view _ _ _ _ _ _ Hi).
  destruct (first_entry _ k) as [en|] eqn:E; cbn; [|done].
  destruct (first_entry_all _ _ _ _ Hp E) as [[v Hv] Hx]. unfold entry_binding. cbn. rewrite Hv. cbn. by rewrite Hx.
Qed.

#[export] Instance mono_scan_tables {A} (body : A -> Rec -> A) acc l : Mono (scan_tables body acc l).
Proof. revert acc. induction l; intros acc; cbn; solve_mono. Qed.
#[export] Instance mono_list_keys : Mono (lsm_list_keys (T := Leveled)).
Proof. unfold lsm_list_keys, list_keys_with, list_tables. cbn. solve_mono. Qed.

Lemma lsm_list_run s m ops tabs :
  inv s m ops tabs -> (ticks_of (lsm_list_keys s).1 <= N)%nat ->
  exists s' l, lsm_list_keys s = (s', Ok l) /\ inv s' m ops tabs /\ NoDup l /\
    forall k, k ∈ l <-> is_Some (spec_get m k (clock (ticks s.2))).
Proof.
  destruct s as [e w]. intros Hi Ht. unfold lsm_list_keys, list_keys_with in *. cbn [st_iter repeat] in *.
  assert (HN : (ticks w < N)%nat) by (eapply now_ticks_bound; [|exact Ht]; unfold list_tables; solve_mono).
  set (w1 := mkWorld (disk w) (durable w) (S (ticks w))).
  assert (Hi1 : inv (e, w1) m ops tabs) by (eapply lsm_inv_tick; [exact Hi | done | cbn; lia]).
  erewrite st_bind_Ok by (unfold lift_w; cbn [fst snd]; by rewrite (now_run N w) by lia).
  pose proof (layers_plain _ _ _ _ Hi1) as Hp. pose proof (layers_ok _ _ _ _ _ _ Hi1) as Hok.
  pose proof Hi1 as [_ Hlock _ Htb _ _ _ _ _ _ _]. cbn [fst snd] in *.
  unfold layers in Hp, Hok. apply Forall_cons in Hp as [Hpa Hp], Hok as [Hoka Hok].
  apply Forall_app in Hp as [Hpi Hpt], Hok as [Hoki _].
  destruct (scan_tables_keys (clock (ticks w)) _ _ w1 ∅ Htb Hpt) as (keys & E & Hk).
  assert (El : list_tables (clock (ticks w)) (e, w1) = ((e, w1), Ok keys)).
  { unfold list_tables. rewrite (st_bind_Ok _ _ _ (e, w1) (storage_strategy e)) by
      (unfold read_strategy; cbn [fst]; by rewrite Hlock). unfold lift_w. cbn [fst snd]. by rewrite E. }
  rewrite (st_bind_Ok _ _ _ _ _ El). do 4 (erewrite st_bind_Ok by reflexivity). cbn [fst].
  eexists (e, w1), _. split; [reflexivity|]. split; [done|]. split.
  - rewrite set_keys_perm. apply NoDup_elements.
  - intros k. rewrite (plain_view _ _ _ _ k _ Hi). unfold layers. cbn [fst first_entry list_memtable].
    rewrite set_keys_perm, elem_of_elements, fold_keys, elem_of_union, elem_of_mem_keys by done.
    rewrite first_entry_app, !is_Some_orelse. specialize (Hk k). rewrite elem_of_empty in Hk.
    destruct (immutable e) as [im|]; cbn [list_memtable option_list first_entry] in *.
    + apply Forall_inv in Hpi, Hoki. rewrite fold_keys, elem_of_union, elem_of_mem_keys, Hk by done.
      pose proof (@is_Some_None MemtableEntry). change (option_list (Some im)) with [im].
      cbn [first_entry]. destruct (entry im k); tauto.
    + rewrite Hk. change (option_list (@None Memtable)) with (@nil Memtable). cbn [first_entry].
      pose proof (@is_Some_None MemtableEntry). tauto.
Qed.

(** ** Compaction *)

Lemma on_strategy_Ok {A} (c : ST (Leveled * World) A) e w t w' a :
  poisoned e = false -> c (storage_strategy e, w) = ((t, w'), Ok a) ->
  on_strategy c (e, w) = ((set_strategy t false e, w'), Ok a).
Proof. intros Hp Hc. unfold on_strategy. cbn [fst snd]. by rewrite Hp, Hc. Qed.

Lemma on_strategy_ticks {A} (c : ST (Leveled * World) A) e w :
  poisoned e = false ->
  ticks_of (on_strategy c (e, w)).1 = ticks_of (c (storage_strategy e, w)).1.
Proof.
  intros Hp. unfold on_strategy. cbn [fst snd]. rewrite Hp.
  by destruct (c _) as [[t w'] r].
Qed.

#[export] Instance mono_on_strategy {A} (c : ST (Leveled * World) A) : Mono c -> Mono (on_strategy c).
Proof.
  intros Hc [e w]. destruct (poisoned e) eqn:Hp.
  - unfold on_strategy. cbn. rewrite Hp. apply le_n.
  - rewrite (on_strategy_ticks _ _ _ Hp). apply (Hc (storage_strategy e, w)).
Qed.

#[export] Instance mono_compact : Mono (lsm_compact (T := Leveled)).
Proof.
  assert (forall nm, Mono (compact_all (T := Leveled) nm)) by apply _.
  unfold lsm_compact. solve_mono.
Qed.

(** The memtable made a table, the log emptied. *)
Lemma seal_run e w m ops tabs :
  inv (e, w) m ops tabs -> immutable e = None -> flush_handle e = NoFlush -> (ticks w < N)%nat ->
  exists st w1,
    (let* t := lift_w (write_table (lsm_db e) (active e) None (block_size_bytes e) (block_compression e)) in
     add_sstable t) (storage_strategy e, w) = ((st, w1), Ok tt) /\
    inv (set_immutable None (set_strategy st false (set_active_mem mem_new e)),
         with_disk w1 (<[wal_name (lsm_db e) := []]> (disk w1))) m [] (active e :: tabs).
Proof.
  intros [H1 H2 H3 H4 H5 H6 H7 H8 H9 H10 H11 H12 H13] Him Hfl HN. cbn [fst snd] in *.
  assert (Hmok : mem_ok (active e)) by (rewrite H9; by apply log_mem_ok).
  assert (Hmall : plain_mem (active e)) by (rewrite H9; by apply log_mem_all).
  destruct (write_table_run N (lsm_db e) (active e) None (block_size_bytes e) (block_compression e) w)
    as (t & file & E & Hp & _ & _ & _ & Hh); [done | done | done | by apply H11 |].
  assert (Hw : path t <> wal_name (lsm_db e)) by (rewrite Hp; apply sst_filename_not_wal).
  assert (Hnone : disk w !! path t = None) by (rewrite Hp; by apply H11).
  set (w1 := mkWorld (<[path t := file]> (disk w)) (durable w) (S (ticks w))) in *.
  destruct (fl_add (storage_strategy e) w1 tabs t (active e)) as (st & Ea & Hall & Hst);
    [by apply fl_frame; [|left] | done | done | by apply (fresh_path _ _ tabs (disk w)) |].
  exists st, w1. split; [erewrite st_bind_Ok by (unfold lift_w; cbn [fst snd]; by rewrite E); exact Ea|].
  assert (Hpaths : Forall (fun t0 => path t0 <> wal_name (lsm_db e)) (iter_all st)) by (rewrite Hall; by constructor).
  split; cbn -[wal_name]; try done.
  - by apply plain_frame; [|right].
  - apply holds_all_insert; [by right|]. cbn in Hall. rewrite Hall. constructor; [done|].
    apply holds_all_insert; [by left | done].
  - unfold flush_ok. cbn. by rewrite Hfl.
  - apply lookup_insert_eq.
  - intros k. rewrite H10. unfold layers. by rewrite Him.
  - intros i lvl Hi' HiN. rewrite lookup_insert_ne by (apply not_eq_sym, sst_filename_not_wal).
    rewrite Hp. apply (fresh_insert N); [lia | done |]. intros. apply H11; lia.
Qed.

Lemma levels_holds_concat d L mss :
  Forall2 (fun lv ms => Forall2 (holds d) (level_iter lv) ms) L mss ->
  Forall2 (holds d) (concat (map level_iter L)) (concat mss).
Proof. induction 1; cbn; [constructor | by apply Forall2_app]. Qed.

(** The strategy compacted, with no flush under way. *)
Lemma compact_strategy_run e w m ops tabs :
  inv (e, w) m ops tabs -> immutable e = None -> flush_handle e = NoFlush ->
  (ticks_of (on_strategy (compact_all (lsm_db e)) (e, w)).1 <= N)%nat ->
  exists s' tabs', on_strategy (compact_all (lsm_db e)) (e, w) = (s', Ok tt) /\ inv s' m ops tabs'.
Proof.
  intros [H1 H2 H3 H4 H5 H6 H7 H8 H9 H10 H11 H12 H13] Him Hfl Ht. cbn [fst snd] in *.
  rewrite on_strategy_ticks in Ht by done. destruct H1 as (Hne & mss & Hpl & ->).
  assert (Hfree : future_free N (lsm_db e) w) by (intros i lvl ??; by apply H11).
  destruct (compact_all_kept N (lsm_db e) (storage_strategy e) w mss Hpl Hfree Ht) as (st & w' & mss' & E & K).
  pose proof (kept_free _ _ _ _ _ _ _ _ Hpl K Hfree) as Hfree'. destruct K as [K1 K2 K3 K4 K5 K6].
  assert (Hnw : forall t0 t1, ~ new_name (lsm_db e) t0 t1 (wal_name (lsm_db e)))
    by (intros t0 t1 (lvl & i & _ & E'); symmetry in E'; revert E'; apply sst_filename_not_wal).
  eexists _, (concat mss'). split; [by apply on_strategy_Ok|]. split; cbn -[wal_name]; try done.
  - split; [|by exists mss']. intros E'. apply Hne, nil_length_inv.
    rewrite <- (shape_length _ _ K3), E'. done.
  - apply (levels_holds_concat _ _ _ (li_tables _ _ _ (pl_inv _ _ _ K1))).
  - apply Forall_forall. intros t Hin Heq. destruct (K6 t Hin) as [Hold|Hnew].
    + by apply (proj1 (Forall_forall _ _) H5 t Hold).
    + rewrite Heq in Hnew. by apply Hnw in Hnew.
  - unfold flush_ok. cbn. by rewrite Hfl, Him.
  - rewrite K5; [done | | apply Hnw]. intros Hin. apply list_elem_of_fmap in Hin as (t & Heq & Hin).
    by apply (proj1 (Forall_forall _ _) H5 t Hin).
  - intros k. rewrite H10. unfold layers. cbn [active immutable set_strategy first_entry].
    by rewrite !first_entry_app, K2.
Qed.

Lemma lsm_compact_run s m ops tabs :
  inv s m ops tabs -> (ticks_of (lsm_compact s).1 <= N)%nat ->
  exists s' tabs', lsm_compact s = (s', Ok tt) /\ inv s' m [] tabs'.
Proof.
  intros Hi Ht. unfold lsm_compact in *.
  assert (Hmc : forall nm, Mono (compact_all (T := Leveled) nm)) by apply _.
  destruct (join_run N db s m ops tabs Hi) as ([e w] & tb & E & Hi1 & Hfl & Him);
    [etrans; [|exact Ht]; apply bind_ticks_le; solve_mono|].
  rewrite (st_bind_Ok _ _ _ _ _ E) in *. cbn [fst snd] in *.
  pose proof (inv_lock _ _ _ _ _ _ Hi1) as Hlock. cbn [fst] in Hlock.
  erewrite (st_bind_Ok read_strategy) in Ht |- * by (unfold read_strategy; cbn [fst]; by rewrite Hlock).
  do 6 (erewrite st_bind_Ok in Ht |- * by reflexivity).
  cbn [fst snd set_immutable set_active_mem lsm_db block_size_bytes block_compression active] in Ht |- *.
  destruct (seal_run e w m ops tb Hi1 Him Hfl) as (st & w1 & E1 & Hi2).
  { eapply write_ticks_bound; [intros; apply fl_mono|]. etrans; [|exact Ht].
    etrans; [|apply bind_ticks_le; solve_mono]. by rewrite on_strategy_ticks. }
  erewrite (st_bind_Ok (on_strategy _)) in Ht |- * by (by apply on_strategy_Ok; [|exact E1]).
  do 2 (erewrite st_bind_Ok in Ht |- * by reflexivity).
  destruct (compact_strategy_run _ _ _ _ _ Hi2) as (s' & tb' & E2 & Hi3); [done | done | exact Ht |].
  by exists s', tb'.
Qed.

(** ** Histories *)

Lemma mono_insert_act a : insert_ok a -> Mono (run_act (T := Leveled) a).
Proof.
  intros [[Ha|[Ha|Ha]] _]; [by apply mono_run_act | subst a..]; apply mono_lsm_map; cbn; apply _.
Qed.

Lemma insert_act_refine a s m ops tabs :
  inv s m ops tabs -> insert_ok a -> (ticks_of (run_act a s).1 <= N)%nat ->
  exists s' r m' ops' tabs', run_act a s = (s', r) /\ inv s' m' ops' tabs' /\
    full_step (ticks s.2) (ticks s'.2) a r m m'.
Proof.
  intros Hi Hok Ht. pose proof (mono_insert_act a Hok s) as Hm.
  destruct Hok as [[Ha|[Ha|Ha]] He]; [|subst a..]; unfold run_act, engine_op in *; cbn in Ht, Hm |- *;
    [| rewrite st_map_ticks in Ht, Hm..].
  - destruct (run_act_refine N db a s m ops tabs Hi Ha He Ht) as (s' & r & m' & o & t & E & Hi' & Hst).
    do 5 eexists. split; [exact E|]. split; [exact Hi' | by constructor].
  - destruct (lsm_list_run _ _ _ _ Hi Ht) as (s' & l & E & Hi' & Hnd & Hl). rewrite E in Hm.
    erewrite st_map_Ok by exact E. do 5 eexists. split; [done|]. split; [exact Hi'|].
    eapply fs_list; [|exact Hnd | exact Hl]. split; [done | exact Hm].
  - destruct (lsm_compact_run _ _ _ _ Hi Ht) as (s' & t & E & Hi').
    erewrite st_map_Ok by exact E. do 5 eexists. split; [done|]. split; [exact Hi' | apply fs_compact].
Qed.

Lemma insert_acts_ticks l s :
  Forall insert_ok l -> (ticks_of s <= ticks_of (run_acts l s).1)%nat.
Proof.
  revert s. induction l as [|a l IH]; intros s Hl; [apply le_n|]. apply Forall_cons in Hl as [Ha Hl].
  cbn. pose proof (mono_insert_act a Ha s) as H1. destruct (run_act a s) as [s1 r].
  specialize (IH s1 Hl). destruct (run_acts l s1) as [s2 rs]. cbn in *. lia.
Qed.

Lemma insert_acts_refine l s m ops tabs :
  inv s m ops tabs -> Forall insert_ok l -> (ticks_of (run_acts l s).1 <= N)%nat ->
  exists m', full_run (ticks s.2) (ticks (run_acts l s).1.2) l (run_acts l s).2 m m'.
Proof.
  revert s m ops tabs. induction l as [|a l IH]; intros s m ops tabs Hi Hl Ht.
  { exists m. constructor. }
  apply Forall_cons in Hl as [Ha Hl].
  destruct (insert_act_refine a s m ops tabs Hi Ha) as (s1 & r & m1 & o1 & t1 & E & Hi1 & Hst).
  { etrans; [|exact Ht]. cbn. destruct (run_act a s) as [s1 r].
    pose proof (insert_acts_ticks l s1 Hl). by destruct (run_acts l s1). }
  pose proof (mono_insert_act a Ha s) as Hm. rewrite E in Hm.
  cbn in Ht |- *. rewrite E in Ht |- *.
  destruct (IH s1 m1 o1 t1 Hi1 Hl) as (m2 & Hr); destruct (run_acts l s1) as [s2 rs]; [done|].
  exists m2. econstructor; [exact Hm | exact Hst | exact Hr].
Qed.

(** C5: on a database that is only written to, listing and compacting are
    right as well. Whatever mixture of writes without an expiry and with
    arguments within the limits, reads, listings and full compactions a client
    makes, and wherever the background flush gets to between two of them, every
    operation succeeds and answers as the abstract map does: a listing has
    exactly the keys with a value, each once, and a compaction, which rewrites
    the tables of every level down to the last one, changes no answer. The flush
    makes no step inside a listing: one that ends between its reading of the
    tables and of the memtables makes it miss keys
    ([list_keys_misses_flushed]). *)
Theorem lsm_inserts_refine max n l0 l1 block c l :
  0 < n -> params_ok block -> Forall insert_ok l ->
  exists w e, lsm_new db max (lv_new n l0 l1 block c) block c (mkWorld ∅ ∅ 0) = (w, Ok e) /\
    ((ticks (run_acts l (e, w)).1.2 <= N)%nat ->
     exists m, full_run 0 (ticks (run_acts l (e, w)).1.2) l (run_acts l (e, w)).2 ∅ m).
Proof.
  intros Hn Hb Hl. destruct (lv_new_plain n l0 l1 block c ∅ Hn Hb) as (mss & Hpl & Hcat).
  destruct (lsm_new_inv N db max (lv_new n l0 l1 block c) block c (mkWorld ∅ ∅ 0)) as ([e w] & E & Hi & Ht);
    [split; [by apply lv_new_ok | by exists mss] | apply lv_new_iter | done | done |].
  exists w, e. split; [exact E|]. intros HN.
  destruct (insert_acts_refine l (e, w) ∅ [] [] Hi Hl HN) as (m & Hr).
  exists m. cbn [snd ticks] in Ht, Hr. by rewrite Ht in Hr.
Qed.
End Inserts.

(** ** A concrete run *)

#[local] Existing Instances ExTime.ck ExTime.ns ExTime.good.

#[local] Instance ex_order : SetOrder := {| set_keys := elements; set_keys_perm s := reflexivity _ |}.

Lemma lsm_inserts_refine_witness :
  let l := [Client (KSet (bs "a") (bs "1") None); Background; Client (KSet (bs "b") (bs "2") None);
            Client KCompact; Client (KSet (bs "a") (bs "3") None); Client KCompact; Client KList;
            Client (KGet (bs "a"))] in
  exists w e, lsm_new (bs "db") 1 (lv_new 3 4 1000 4096 false) 4096 false (mkWorld ∅ ∅ 0) = (w, Ok e) /\
    exists m, full_run 0 (ticks (run_acts l (e, w)).1.2) l (run_acts l (e, w)).2 ∅ m.
Proof.
  intros l.
  destruct (lsm_inserts_refine 1000 (bs "db") 1 3 4 1000 4096 false l) as (w & e & E & Href);
    [lia | exact params_ex | |].
  { repeat constructor; try done; by (left; repeat split) || by (right; tauto). }
  exists w, e. split; [exact E|]. apply Href. vm_compute in E. injection E as <- <-.
  vm_compute. lia.
Defined.
