(* ===== verification/LsmPowerLoss.v ===== *)
(** * Losing power under the LSM engine

    No call of [sync_all] stands in src/src/lsmengine.rs, src/src/sstable.rs,
    src/src/size_tiered.rs or src/src/leveled.rs: whatever the engine does, the
    device is told of nothing, and the fsync strategy of the settings has no
    effect on it. *)

From S2P Require Import Prelude Utils Utf8 Bloom Collections Text Record Memtable Wal Block.
From S2P Require Import Sstable HashIndex World Engine KvEngine KvInv KvOps KvSpec KvTheorems KvPowerLoss.
From S2P Require Import Strategy SizeTiered Leveled LsmEngine TableInv LsmInv LsmSpec.

(** ** Operations that sync nothing *)

Section Unsynced.
Context (D : files) `{CK : Clock} `{NS : Nanos} `{SO : SetOrder}.

Definition untouched (w : World) : Prop := durable w = D.
Definition untouched2 {T} (s : T * World) : Prop := durable s.2 = D.

#[export] Instance dry_clock : Keeps untouched read_clock.
Proof. by intros w. Qed.
#[export] Instance dry_nanos : Keeps untouched read_nanos.
Proof. by intros w. Qed.
#[export] Instance dry_now : Keeps untouched now_ms.
Proof. unfold now_ms. apply keeps_bind; [apply _ | intros]. case_match; apply _. Qed.
#[export] Instance dry_write n b : Keeps untouched (write_file n b).
Proof. by intros w. Qed.
#[export] Instance dry_create n : Keeps untouched (open_create n).
Proof. intros w Hw. unfold open_create, st_modify. cbn. by destruct (_ !! _). Qed.
#[export] Instance dry_read n : Keeps untouched (open_read n).
Proof. by intros w. Qed.
#[export] Instance dry_remove n : Keeps untouched (remove_file n).
Proof. intros w Hw. unfold remove_file. by destruct (_ !! _). Qed.
#[export] Instance dry_table nm m lvl target c : Keeps untouched (write_table nm m lvl target c).
Proof.
  unfold write_table. apply keeps_bind; [apply _ | intros t w Hw].
  by destruct (from_memtable _ _ _ _ _ _ _) as [[? ?]| |].
Qed.
#[export] Instance dry_get t k : Keeps untouched (table_get t k).
Proof. unfold table_get. apply keeps_bind; [apply _ | intros []; apply _]. Qed.
#[export] Instance dry_items t : Keeps untouched (table_items t).
Proof. unfold table_items. apply _. Qed.
#[export] Instance dry_size t : Keeps untouched (table_size t).
Proof. unfold table_size. apply _. Qed.

#[export] Instance dry_lift {T A} (m : ST World A) : Keeps untouched m -> Keeps (untouched2 (T := T)) (lift_w m).
Proof. intros Hm s Hs. unfold lift_w. specialize (Hm s.2 Hs). by destruct (m s.2). Qed.
#[export] Instance dry_self {T A} (f : T -> A) : Keeps (untouched2 (T := T)) (self f).
Proof. by intros s. Qed.
#[export] Instance dry_set {T} (f : T -> T) : Keeps (untouched2 (T := T)) (set_self f).
Proof. by intros s. Qed.

(** ** The strategies *)

Class DryStrategy (T : Type) `{StorageStrategy T} : Prop := {
  dry_add t :: Keeps untouched2 (add_sstable t);
  dry_if_needed db :: Keeps untouched2 (compact_if_needed db);
  dry_all db :: Keeps untouched2 (compact_all db);
}.

Ltac dry := repeat first [apply _ | apply keeps_bind; [|intros] | case_match].

#[export] Instance dry_st_merge now l : forall m, Keeps untouched (st_merge now m l).
Proof. induction l as [|t l IH]; intros m; cbn [st_merge]; dry. Qed.
#[export] Instance dry_st_compact_from db l : forall i, Keeps untouched2 (st_compact_from db i l).
Proof. induction l as [|b l IH]; intros i; cbn [st_compact_from]; dry. Qed.

#[export] Instance dry_bucket_total l : forall acc, Keeps untouched (bucket_total acc l).
Proof. induction l as [|t l IH]; intros acc; cbn [bucket_total]; dry. Qed.
#[export] Instance dry_best l new_size : forall i idx diff, Keeps untouched (best_bucket i l new_size idx diff).
Proof. induction l as [|t l IH]; intros i idx diff; cbn [best_bucket]; dry. Qed.

#[export] Instance dry_size_tiered : DryStrategy SizeTiered.
Proof.
  split; intros; cbn [add_sstable compact_if_needed compact_all size_tiered_strategy];
    unfold st_add_sstable, st_compact_if_needed, st_compact_all; dry.
Qed.

#[export] Instance dry_total l : forall acc, Keeps untouched (level_total acc l).
Proof. induction l as [|t l IH]; intros acc; cbn [level_total]; dry. Qed.
#[export] Instance dry_lv_merge drop now l : forall m, Keeps untouched (lv_merge drop now m l).
Proof. induction l as [|t l IH]; intros m; cbn [lv_merge]; dry. Qed.
#[export] Instance dry_squash_merge drop now l : forall m, Keeps untouched (squash_merge drop now m l).
Proof. induction l as [|t l IH]; intros m; cbn [squash_merge]; dry. Qed.
#[export] Instance dry_squash db i : Keeps untouched2 (squash db i).
Proof. unfold squash, get_level, alter_level. dry. Qed.
#[export] Instance dry_compact_levels db i j : Keeps untouched2 (compact_levels db i j).
Proof. unfold compact_levels, get_level, alter_level. dry. Qed.
#[export] Instance dry_compact_from db n : forall i, Keeps untouched2 (lv_compact_from db i n).
Proof. induction n as [|n IH]; intros i; cbn [lv_compact_from]; unfold get_level, needs_compaction; dry. Qed.
#[export] Instance dry_compact_all_from db n : forall i, Keeps untouched2 (lv_compact_all_from db i n).
Proof. induction n as [|n IH]; intros i; cbn [lv_compact_all_from]; unfold get_level; dry. Qed.

#[export] Instance dry_leveled : DryStrategy Leveled.
Proof.
  split; intros; cbn [add_sstable compact_if_needed compact_all leveled_strategy];
    unfold lv_add_sstable, lv_compact_if_needed, lv_compact_all, alter_level; dry.
Qed.

(** ** The engine *)

Context {T : Type} `{SS : StorageStrategy T} `{DS : !DryStrategy T}.

Instance dry_on_strategy {A} (m : ST (T * World) A) : Keeps untouched2 m -> Keeps untouched2 (on_strategy m).
Proof.
  intros Hm s Hs. unfold on_strategy. destruct (poisoned s.1); [done|].
  specialize (Hm (LsmEngine.storage_strategy s.1, s.2) Hs). by destruct (m _) as [[? ?] ?].
Qed.
Instance dry_strategy : Keeps untouched2 (read_strategy (T := T)).
Proof. by intros s. Qed.
Instance dry_lookup_tables l k : Keeps untouched (lookup_tables l k).
Proof. induction l as [|x l IH]; cbn [lookup_tables]; dry. Qed.
Instance dry_lookup act imm (st : T) k now : Keeps untouched (lookup act imm st k now).
Proof. unfold lookup. dry. Qed.
Instance dry_lsm_get k : Keeps untouched2 (lsm_get (T := T) k).
Proof. unfold lsm_get. dry. Qed.

Instance dry_bg_step : Keeps untouched2 (bg_step (T := T)).
Proof.
  intros s Hs. unfold bg_step. destruct (flush_handle s.1) as [| |t| | |]; try done.
  - destruct (immutable s.1); [|done].
    pose proof (dry_table (lsm_db s.1) m None (block_size_bytes s.1) (LsmEngine.block_compression s.1) s.2 Hs) as H.
    by destruct (write_table _ _ _ _ _ _) as [w [t| |]].
  - destruct (poisoned s.1); [done|].
    pose proof (dry_add t (LsmEngine.storage_strategy s.1, s.2) Hs) as H.
    by destruct (add_sstable _ _) as [[? ?] [| |]].
Qed.
Instance dry_join : Keeps untouched2 (join (T := T)).
Proof. unfold join. dry. Qed.
Instance dry_wal_append k v t e : Keeps untouched2 (lsm_wal_append (T := T) k v t e).
Proof. unfold lsm_wal_append. dry. Qed.
Instance dry_wal_reset : Keeps untouched2 (lsm_wal_reset (T := T)).
Proof. unfold lsm_wal_reset. dry. Qed.
Instance dry_apply k v e : Keeps untouched2 (apply_write (T := T) k v e).
Proof. unfold apply_write. dry. Qed.
Instance dry_flush size : Keeps untouched2 (flush_if_full (T := T) size).
Proof. unfold flush_if_full, flush_memtable_async. dry. Qed.
Instance dry_scan {A} (body : A -> Rec -> A) l : forall acc, Keeps untouched (scan_tables body acc l).
Proof. induction l as [|t l IH]; intros acc; cbn [scan_tables]; dry. Qed.
Instance dry_mget ks : Keeps untouched2 (lsm_mget (T := T) ks).
Proof. induction ks as [|k ks IH]; cbn [lsm_mget]; dry. Qed.
Instance dry_exists k : Keeps untouched2 (lsm_exists (T := T) k).
Proof.
  intros s Hs. unfold lsm_exists. pose proof (dry_lsm_get k s Hs) as H. by destruct (lsm_get k s) as [? [| |]].
Qed.
Instance dry_set_ttl k v e : Keeps untouched2 (lsm_set_with_ttl (T := T) k v e).
Proof. unfold lsm_set_with_ttl. dry. Qed.

Lemma run_act_dry a : Keeps untouched2 (run_act (T := T) a).
Proof.
  destruct a as [op|]; cbn [run_act]; [|unfold st_map; dry].
  destruct op; cbn; unfold st_map, lsm_mset_with_ttl, lsm_delete, lsm_ttl, lsm_list_keys, list_keys_with,
    list_tables, lsm_compact; dry.
Qed.

Lemma run_acts_dry l : forall s : LsmState T, untouched2 s -> untouched2 (run_acts l s).1.
Proof.
  induction l as [|a l IH]; intros s Hs; [done|]. cbn [run_acts]. pose proof (run_act_dry a s Hs) as H1.
  destruct (run_act a s) as [s1 r]. specialize (IH s1 H1). by destruct (run_acts l s1).
Qed.
End Unsynced.

(** ** The theorem *)

(** What was never synced may be gone. *)
Lemma survives_nothing log w : durable w = ∅ -> survives log w ∅ /\ entries_survive w ∅.
Proof.
  intros Hd. unfold survives, entries_survive. rewrite Hd, !delete_empty. split_and!; apply map_Forall_empty.
Qed.

(** The LSM engine promises nothing when power is lost. Whatever a client and the
    background thread do, compactions included, nothing is ever synced: from a
    directory where nothing was, a loss of power may leave an empty directory.
    This holds for any strategy that syncs nothing, as both of the program do. *)
Theorem lsm_power_loss_loses_all `{CK : Clock} `{NS : Nanos} `{SO : SetOrder} {T} `{SS : StorageStrategy T}
    `{DS : !DryStrategy ∅ T} db max st block c w l :
  durable w = ∅ ->
  exists w1 e, lsm_new db max st block c w = (w1, Ok e) /\
    survives (wal_name db) (run_acts l (e, w1)).1.2 ∅ /\ entries_survive (run_acts l (e, w1)).1.2 ∅.
Proof.
  intros Hd. unfold lsm_new. destruct (wal_open db w) as [w1 r] eqn:E.
  assert (H1 : r = Ok tt /\ durable w1 = ∅).
  { unfold wal_open, open_create, st_modify in E. injection E as <- <-. by destruct (_ !! _). }
  destruct H1 as [-> H1]. rewrite (st_bind_Ok _ _ _ _ _ E). eexists _, _. split; [reflexivity|].
  apply survives_nothing. by apply (run_acts_dry ∅ l).
Qed.

(** ** Example *)

#[local] Existing Instances ExTime.ck ExTime.ns.

Definition any_order : SetOrder := {| set_keys := elements; set_keys_perm s := reflexivity _ |}.
#[local] Existing Instance any_order.

(** A write, the flush it starts run to its end, and a compaction. *)
Lemma lsm_power_loss_loses_all_witness :
  let l := [Client (KSet (bs "k") (bs "v") None); Background; Background; Background; Client KCompact] in
  exists w e, lsm_new (bs "db") 1 (lv_new 2 4 1000 4096 false) 4096 false (mkWorld ∅ ∅ 0) = (w, Ok e) /\
    survives (wal_name (bs "db")) (run_acts l (e, w)).1.2 ∅ /\ entries_survive (run_acts l (e, w)).1.2 ∅.
Proof. intros l. apply (lsm_power_loss_loses_all (bs "db") 1 (lv_new 2 4 1000 4096 false)); reflexivity. Defined.
