(* ===== verification/LsmTheorems.v ===== *)
(** * The LSM engine: the theorems

    The leveled strategy keeps the interface of [LsmInv]; the engine over it
    refines the abstract store and recovers its active memtable. Then concrete
    runs in which the engine does not do what it should. *)

From S2P Require Import Prelude Utils Utf8 Bloom Collections Text Record Memtable Wal Block.
From S2P Require Import Sstable SstableSpec HashIndex World Engine KvEngine KvLog KvInv KvOps.
From S2P Require Import KvSpec Strategy Float SizeTiered Leveled LsmEngine TableInv LsmInv.
From S2P Require Import LeveledInv PlainLevels LsmSpec.

(** ** The leveled strategy keeps the interface of [LsmInv] *)

#[export] Instance leveled_flush `{Clock} `{Nanos} : FlushLaws Leveled.
Proof.
  refine {| fl_entry := fun _ => True; fl_inv := fun s _ _ => levels s <> [] |}.
  - done.
  - done.
  - intros [[|lv ls] b c] w tabs t m Hne _ _ _; [done|]. eexists. split; [reflexivity|]. split; [|done].
    cbn. unfold lv_iter_all, level_iter. cbn. by rewrite rev_app_distr.
  - intros t [s w]. cbn. unfold lv_add_sstable, st_bind, self, st_gets. cbn.
    destruct (levels s); apply le_n.
Defined.

#[export] Instance leveled_any `{Clock} `{Nanos} : AnyEntry Leveled.
Proof. done. Qed.

Lemma any_acts {T} `{FL : FlushLaws T} `{!AnyEntry T} l : Forall (act_entries fl_entry) l.
Proof.
  apply Forall_true. intros [[]|]; cbn; intros; try done; try apply any_entry.
  apply Forall_true. intros. apply any_entry.
Qed.

(** Reopening the directory of an engine in good order. *)
Lemma reopen_run `{Clock} `{Nanos} N db {T T'} `{StorageStrategy T} `{!FlushLaws T}
    (e : LsmEngine T) w m ops tabs max' (st' : T') block' c' :
  lsm_inv N db (e, w) m ops tabs ->
  lsm_from_dir db max' st' block' c' w
  = (w, Ok (mkLsm (active e) None NoFlush db max' st' false block' c')).
Proof.
  intros [_ _ _ _ _ _ Hw Hok Ha _ _ Hdb]. cbn [fst snd] in *. rewrite Hdb in Hw.
  unfold lsm_from_dir, wal_open, open_create, st_bind, st_modify, open_read. cbn -[wal_name].
  rewrite Hw. rewrite Hw. rewrite <- (app_nil_r (log_bytes ops)).
  rewrite (replay_tail ops []) by (try done; by left). by rewrite Ha.
Qed.

Section Theorems.
Context `{CK : Clock} `{NS : Nanos} `{SO : SetOrder} (N : nat) `{GT : !GoodTime N}.

(** C3: the LSM engine over the leveled strategy behaves as the abstract store
    with expiry, listings and compactions apart. Whatever GET, SET, MGET, MSET,
    DELETE, TTL and EXISTS a client makes with arguments within the limits of
    the record format, and wherever the background flush gets to between two of
    them, each operation returns without a panic or an I/O error, answers as
    the specification does for the map reached so far, and changes it as
    specified. There is at least one level, and the nanosecond clock does not
    repeat within the run. LIST and COMPACT are excluded: they do depart from
    the store ([list_keys_resurrects], [leveled_compaction_resurrects]). *)
Theorem lsm_leveled_refines db max n l0 l1 block c l :
  0 < n -> params_ok block -> Forall act_ok l ->
  exists w e, lsm_new db max (lv_new n l0 l1 block c) block c (mkWorld ∅ ∅ 0) = (w, Ok e) /\
    ((ticks (run_acts l (e, w)).1.2 <= N)%nat ->
     exists m, lsm_run 0 (ticks (run_acts l (e, w)).1.2) l (run_acts l (e, w)).2 ∅ m).
Proof.
  intros Hn Hb Hl.
  destruct (lsm_new_inv N db max (lv_new n l0 l1 block c) block c (mkWorld ∅ ∅ 0)) as ([e w] & E & Hi & Ht);
    [by apply lv_new_ok | apply lv_new_iter | done | done |].
  exists w, e. split; [exact E|]. intros HN.
  destruct (run_acts_refine N db l (e, w) ∅ [] [] Hi Hl (any_acts l) HN) as (m & _ & _ & _ & Hr).
  exists m. cbn [snd] in Ht. cbn [ticks] in Ht. cbn [snd] in Hr. by rewrite Ht in Hr.
Qed.
(** C15: crash recovery. Wherever a history without listings and compactions, with
    arguments within the limits of the record format, stops, and wherever the
    background flush is, opening the directory again replays the log into
    exactly the memtable that was active: no write since the last flush began
    is lost, reordered or duplicated. (An oversize argument poisons the log:
    [wal_oversize_poisons].) *)
Theorem lsm_crash_keeps_active {T' : Type} db max n l0 l1 block c l max' (st' : T') block' c' :
  0 < n -> params_ok block -> Forall act_ok l ->
  exists w e, lsm_new db max (lv_new n l0 l1 block c) block c (mkWorld ∅ ∅ 0) = (w, Ok e) /\
    forall e1 w1, (run_acts l (e, w)).1 = (e1, w1) -> (ticks w1 <= N)%nat ->
    lsm_from_dir db max' st' block' c' w1
    = (w1, Ok (mkLsm (active e1) None NoFlush db max' st' false block' c')).
Proof.
  intros Hn Hb Hl.
  destruct (lsm_new_inv N db max (lv_new n l0 l1 block c) block c (mkWorld ∅ ∅ 0)) as ([e w] & E & Hi & Ht);
    [by apply lv_new_ok | apply lv_new_iter | done | done |].
  exists w, e. split; [exact E|]. intros e1 w1 E1 HN.
  destruct (run_acts_refine N db l (e, w) ∅ [] [] Hi Hl (any_acts l)) as (m & ops & tb & Hi1 & _); [by rewrite E1|].
  rewrite E1 in Hi1. by eapply reopen_run.
Qed.
End Theorems.

(** ** Concrete runs *)

#[local] Existing Instances ExTime.ck ExTime.ns ExTime.good.

Module Ex.
#[export] Instance so : SetOrder := {| set_keys := elements; set_keys_perm s := reflexivity _ |}.

Definition w0 : World := mkWorld ∅ ∅ 0.
Definition k : str := bs "k".

(** The answers of a fresh engine, and the state it ends in; a memtable limit of
    one byte makes every write start a flush. *)
Definition play {T} `{StorageStrategy T} (st : T) (max : Z) (l : list lsm_act)
    : option (LsmState T) * list (result kv_out) :=
  match lsm_new (bs "db") max st 4096 false w0 with
  | (w, Ok e) => let '(s, rs) := run_acts l (e, w) in (Some s, rs)
  | _ => (None, [])
  end.

Definition leveled : Leveled := lv_new 2 4 1000 4096 false.
Definition tiered : SizeTiered := st_new 4 32 4096 false.

(** A write and the background flush it starts, run to its end. *)
Definition flushed (op : kv_op) : list lsm_act := [Client op; Background; Background; Background].

Definition value (n : nat) (c : Z) : str := replicate n (as_u8 c).
End Ex.

#[local] Existing Instance Ex.so.

Lemma lsm_leveled_refines_witness :
  let l := [Client (KSet Ex.k (bs "v") None); Background; Client (KDelete Ex.k); Background;
            Client (KGet Ex.k)] in
  exists w e, lsm_new (bs "db") 1 Ex.leveled 4096 false (mkWorld ∅ ∅ 0) = (w, Ok e) /\
    exists m, lsm_run 0 (ticks (run_acts l (e, w)).1.2) l (run_acts l (e, w)).2 ∅ m.
Proof.
  intros l.
  destruct (lsm_leveled_refines 1000 (bs "db") 1 2 4 1000 4096 false l) as (w & e & E & Href);
    [lia | exact params_ex | repeat constructor; vm_compute; done |].
  exists w, e. split; [exact E|]. apply Href. vm_compute in E. injection E as <- <-.
  vm_compute. lia.
Defined.

Lemma lsm_crash_keeps_active_witness :
  let l := [Client (KSet Ex.k (bs "v") None); Background; Client (KDelete Ex.k)] in
  exists w e e1 w1, lsm_new (bs "db") 1 Ex.leveled 4096 false (mkWorld ∅ ∅ 0) = (w, Ok e) /\
    (run_acts l (e, w)).1 = (e1, w1) /\
    lsm_from_dir (bs "db") 7 tt 4096 true w1
    = (w1, Ok (mkLsm (active e1) None NoFlush (bs "db") 7 tt false 4096 true)).
Proof.
  intros l.
  destruct (lsm_crash_keeps_active 1000 (bs "db") 1 2 4 1000 4096 false l 7 tt 4096 true)
    as (w & e & E & Hc); [lia | exact params_ex | repeat constructor; vm_compute; done |].
  destruct (run_acts l (e, w)).1 as [e1 w1] eqn:E1. exists w, e, e1, w1.
  split; [exact E|]. split; [exact E1|]. apply Hc; [reflexivity|].
  vm_compute in E. injection E as <- <-. apply (f_equal (fun s => ticks s.2)) in E1.
  cbn [snd] in E1. rewrite <- E1. vm_compute. lia.
Defined.

(** Under the leveled strategy, COMPACT brings deleted keys back. A key is
    written and compacted to the last level, then deleted: a read finds
    nothing. The next compaction drops the tombstone on its way into the last
    level without removing what it covers, and the read after it finds the old
    value again. *)
Theorem leveled_compaction_resurrects :
  (Ex.play Ex.leveled 1000
     [Client (KSet Ex.k (bs "v") None); Client KCompact; Client (KDelete Ex.k);
      Client (KGet Ex.k); Client KCompact; Client (KGet Ex.k)]).2
  = [Ok OutUnit; Ok OutUnit; Ok (OutDeleted (Some tt));
     Ok (OutPair None); Ok OutUnit; Ok (OutPair (Some (Ex.k, bs "v")))].
Proof. vm_compute. reflexivity. Qed.

(** Under the size-tiered strategy a read can return a value older than the
    last one written. The third flush joins the first bucket, whose tables are
    of its size, while the second value sits in a later bucket, which reads
    search first. *)
Theorem size_tiered_stale_read :
  (Ex.play Ex.tiered 1
     (Ex.flushed (KSet Ex.k (Ex.value 100 97) None) ++ Ex.flushed (KSet Ex.k (bs "old") None) ++
      Ex.flushed (KSet Ex.k (Ex.value 100 98) None) ++ [Client (KGet Ex.k)])).2 !! 12%nat
  = Some (Ok (OutPair (Some (Ex.k, bs "old")))).
Proof. vm_compute. reflexivity. Qed.

(** LIST shows deleted keys. The tables are visited newest first and each
    record overrides what was collected before, so an older table's value
    reinstates a key that a newer tombstone had removed, though reads of that
    key find nothing. *)
Theorem list_keys_resurrects :
  list.drop 8 (Ex.play Ex.leveled 1
     (Ex.flushed (KSet Ex.k (bs "v") None) ++ Ex.flushed (KDelete Ex.k) ++
      [Client (KGet Ex.k); Client KList])).2
  = [Ok (OutPair None); Ok (OutKeys [Ex.k])].
Proof. vm_compute. reflexivity. Qed.

(** LIST misses keys while a flush ends. It releases the lock on the tables
    before it looks at the immutable memtable; if the background thread adds the
    table and clears the memtable in between, the keys are seen in neither,
    though a read finds them before and after. *)
Theorem list_keys_misses_flushed :
  match (Ex.play Ex.leveled 1 [Client (KSet Ex.k (bs "v") None)]).1 with
  | Some s =>
      ((lsm_get Ex.k s).2, (list_keys_with 3 0 s).2, (lsm_get Ex.k (list_keys_with 3 0 s).1).2)
  | None => (Panic, Panic, Panic)
  end = (Ok (Some (Ex.k, bs "v")), Ok [], Ok (Some (Ex.k, bs "v"))).
Proof. vm_compute. reflexivity. Qed.

(** The same for RANGE: the value of the oldest table wins. *)
Theorem range_returns_oldest :
  match (Ex.play Ex.leveled 1
     (Ex.flushed (KSet Ex.k (bs "v1") None) ++ Ex.flushed (KSet Ex.k (bs "v2") None))).1 with
  | Some s => ((lsm_get Ex.k s).2, (lsm_range Ex.k Ex.k s).2)
  | None => (Panic, Panic)
  end = (Ok (Some (Ex.k, bs "v2")), Ok [(Ex.k, bs "v1")]).
Proof. vm_compute. reflexivity. Qed.

(** A crash during a flush loses acknowledged writes. The flush empties the
    log before the background thread writes the table: if the process stops in
    between, the directory holds neither, and the restarted engine does not
    find the key. *)
Theorem flush_crash_loses_writes :
  match Ex.play Ex.leveled 1 [Client (KSet Ex.k (bs "v") None); Client (KGet Ex.k)] with
  | (Some (_, w), rs) =>
      rs = [Ok OutUnit; Ok (OutPair (Some (Ex.k, bs "v")))] /\
      match lv_load_from_dir (bs "db") 2 4 1000 4096 false w with
      | (w1, Ok st) =>
          match lsm_from_dir (bs "db") 1 st 4096 false w1 with
          | (w2, Ok e) => (lsm_get Ex.k (e, w2)).2 = Ok None
          | _ => False
          end
      | _ => False
      end
  | _ => False
  end.
Proof. vm_compute. split; reflexivity. Qed.

(** The log of a process that died [n] bytes into an append; recovered, written
    to once more, and opened again: what the last recovery finds of that
    write. *)
Definition after_torn_append (n : nat) : result (option MemtableEntry) :=
  let torn := list.take n (to_be_bytes (wal_record (mkWalOp (bs "x") (bs "y") false None))) in
  match lsm_from_dir (bs "db") 1000 Ex.leveled 4096 false
          (mkWorld {[wal_name (bs "db") := torn]} ∅ 0) with
  | (w, Ok e) =>
      match lsm_set Ex.k (bs "v") (e, w) with
      | ((e1, w1), Ok _) =>
          let? e2 := (lsm_from_dir (bs "db") 1000 Ex.leveled 4096 false w1).2 in
          Ok (entry (active e2) Ex.k)
      | _ => Panic
      end
  | _ => Panic
  end.

(** A torn log tail ruins what is written after the recovery. Replaying
    stops at the torn record but leaves it in the file, and later records are
    appended behind it. Depending on where the tear was, the next replay
    either stops at it again, so that the acknowledged write is lost, or reads
    a nonsensical size across it and refuses to open the database at all. *)
Theorem torn_log_ruins_later_writes :
  after_torn_append 0 = Ok (Some (mkEntry (Some (bs "v")) None)) /\
  after_torn_append 20 = Ok None /\
  after_torn_append 10 = Err InvalidInput.
Proof. vm_compute. repeat split. Qed.
