(* ===== verification/LsmRestart.v ===== *)
(** * Restarting the LSM engine

    The tables that a directory holds for a database are the ones the engine
    works with, in the order of their timestamps: every operation but a
    compaction keeps this ([tidy]). Loading the directory into a fresh leveled
    strategy (src/src/leveled.rs, [load_from_dir]) and replaying the log
    (src/src/lsmengine.rs, [from_dir]) then gives back the store, unless the
    process stopped after the log had been emptied for a flush and before its
    table was written. *)

From S2P Require Import Prelude Utils Utf8 Bloom Collections Text Record Memtable Wal Block.
From S2P Require Import Sstable SstableSpec HashIndex World Engine KvEngine KvLog KvInv KvOps.
From S2P Require Import KvSpec KvTheorems Strategy Leveled LsmEngine TableInv LsmInv LsmSpec.
From S2P Require Import LsmTheorems.

(** ** Names *)

(** A database name that does not end like the name of a level: the parser of
    file names takes [_L<n>] at its end for the level of a table. *)
Definition flat_name (db : str) : bool :=
  match rsplit_once (bs "_L") db with
  | Some (_, l) => match parse_uint 64 l with Some _ => false | None => true end
  | None => true
  end.

(** What the name of a table of level 0 says of it. *)
Definition stub (db : str) (ts : Z) : SSTable :=
  mkSSTable (sst_filename db None ts) ts db None [] (bloom_new 1 BLOOM_HASH_COUNT) None None.

Lemma db_table_filename db ts :
  flat_name db = true -> is_u64 ts -> db_table db (sst_filename db None ts) = Some (stub db ts).
Proof.
  intros Hf Hu. unfold db_table, sst_parse.
  assert (E : strip_suffix (bs ".sst") (sst_filename db None ts) = Some (db ++ bs "_" ++ dec ts)).
  { unfold sst_filename. rewrite !app_assoc. apply strip_suffix_app. }
  assert (E2 : rsplit_once (bs "_") (db ++ bs "_" ++ dec ts) = Some (db, dec ts)).
  { apply (rsplit_once_char _ db (dec ts)). apply digits_not_char; [done | by apply dec_digits]. }
  rewrite E, E2, parse_dec by (done || apply Hu). unfold flat_name in Hf.
  destruct (rsplit_once (bs "_L") db) as [[n l]|]; cbn [fst snd].
  - destruct (parse_uint 64 l); [done|]. cbn [fst snd name]. by rewrite decide_True.
  - cbn [name fst snd]. by rewrite decide_True.
Qed.

Lemma db_table_path db n t : db_table db n = Some t -> path t = n.
Proof.
  unfold db_table. destruct (sst_parse n); [|done]. case_decide; [|done]. by intros [= <-].
Qed.

Lemma db_table_other db n : strip_suffix (bs ".sst") n = None -> db_table db n = None.
Proof. intros H. unfold db_table, sst_parse. by rewrite H. Qed.

Lemma db_table_wal db db' : db_table db (wal_name db') = None.
Proof.
  apply db_table_other. destruct (strip_suffix _ _) as [r|] eqn:E; [|done]. exfalso.
  apply strip_suffix_Some in E. unfold wal_name in E. apply (f_equal last) in E.
  rewrite !last_app in E. by vm_compute in E.
Qed.

(** ** The tables of the directory *)

Section Tidy.
Context `{CK : Clock} `{NS : Nanos} `{SO : SetOrder} (db : str).

(** Table [t] was flushed at reading [i] of the clock. *)
Record flushed_at (t : SSTable) (i : nat) : Prop := {
  fa_time : sst_timestamp t = wrap64 (nanos i);
  fa_name : name t = db;
  fa_level : level t = None;
  fa_path : path t = sst_filename db None (wrap64 (nanos i));
}.

(** The tables of the directory are [ts], newest first. *)
Definition dir_ok (ts : list SSTable) (w : World) : Prop :=
  (exists ixs, Forall2 flushed_at ts ixs /\ StronglySorted gt ixs /\
    Forall (fun i => i < ticks w)%nat ixs) /\
  forall n t, is_Some (disk w !! n) -> db_table db n = Some t -> n ∈ path <$> ts.

Lemma dir_ok_grow ts w w' :
  dir_ok ts w -> (ticks w <= ticks w')%nat ->
  (forall n t, is_Some (disk w' !! n) -> db_table db n = Some t -> is_Some (disk w !! n)) ->
  dir_ok ts w'.
Proof.
  intros [(ixs & H1 & H2 & H3) H4] Ht Hd. split.
  - exists ixs. split_and!; [done | done |]. eapply Forall_impl; [exact H3|]. cbn. lia.
  - intros n t Hn Et. eapply H4; [by eapply Hd | done].
Qed.

#[export] Instance dir_now ts : Keeps (dir_ok ts) now_ms.
Proof.
  unfold now_ms. apply keeps_bind; [|intros t; destruct (t <? 0); apply _].
  intros w Hw. eapply dir_ok_grow; [exact Hw | cbn; lia | done].
Qed.
#[export] Instance dir_open_read ts n : Keeps (dir_ok ts) (open_read n).
Proof. by intros w. Qed.
#[export] Instance dir_write_wal ts db' b : Keeps (dir_ok ts) (write_file (wal_name db') b).
Proof.
  intros w Hw. eapply dir_ok_grow; [exact Hw | cbn; lia |]. cbn. intros n t Hn Et.
  destruct (decide (n = wal_name db')) as [->|]; [by rewrite db_table_wal in Et|].
  by rewrite lookup_insert_ne in Hn.
Qed.
#[export] Instance dir_table_get ts t k : Keeps (dir_ok ts) (table_get t k).
Proof. unfold table_get. apply keeps_bind; [apply _|]. intros []; apply _. Qed.
#[export] Instance dir_lookup_tables ts l k : Keeps (dir_ok ts) (lookup_tables l k).
Proof.
  induction l as [|x l IH]; cbn; [apply _|]. apply keeps_bind; [apply _|]. intros t.
  apply keeps_bind; [apply _|]. intros [[]|]; apply _.
Qed.
#[export] Instance dir_lookup {T} `{StorageStrategy T} ts act imm (st : T) k now :
  Keeps (dir_ok ts) (lookup act imm st k now).
Proof. unfold lookup. repeat case_match; apply _. Qed.

(** ** Every operation but a compaction keeps the directory tidy *)

(** The tables of an engine: the one the background thread has written and not
    yet added comes first. *)
Definition tables_of (e : LsmEngine Leveled) : list SSTable :=
  match flush_handle e with Adding t => [t] | _ => [] end ++ lv_iter_all (storage_strategy e).

Record tidy (s : LsmState Leveled) : Prop := {
  tidy_db : lsm_db s.1 = db;
  tidy_lock : poisoned s.1 = false;
  tidy_levels : levels (storage_strategy s.1) <> [];
  tidy_dir : dir_ok (tables_of s.1) s.2;
}.

#[export] Instance tidy_lift_w {A} (m : ST World A) :
  (forall ts, Keeps (dir_ok ts) m) -> Keeps tidy (lift_w m).
Proof.
  intros Hm [e w] [H1 H2 H3 H4]. unfold lift_w. cbn [fst snd] in *. specialize (Hm _ w H4).
  destruct (m w) as [w' r]. by split.
Qed.
#[export] Instance tidy_read_strategy : Keeps tidy read_strategy.
Proof. by intros s. Qed.
#[export] Instance tidy_self {A} (f : LsmEngine Leveled -> A) : Keeps tidy (self f).
Proof. by intros s. Qed.

(** Changes of the memtables. *)
#[export] Instance tidy_set_active f : Keeps tidy (set_self (fun e => set_active_mem (f e) e)).
Proof. intros s [H1 H2 H3 H4]. by split. Qed.
#[export] Instance tidy_set_immutable m : Keeps tidy (set_self (set_immutable m)).
Proof. intros s [H1 H2 H3 H4]. by split. Qed.
#[export] Instance tidy_wal_append k v t x : Keeps tidy (lsm_wal_append k v t x).
Proof. unfold lsm_wal_append. apply _. Qed.
#[export] Instance tidy_wal_reset : Keeps tidy lsm_wal_reset.
Proof. unfold lsm_wal_reset. apply _. Qed.
#[export] Instance tidy_apply_write k v x : Keeps tidy (apply_write k v x).
Proof. unfold apply_write. apply keeps_bind; [destruct v|]; apply _. Qed.
#[export] Instance tidy_get k : Keeps tidy (lsm_get k).
Proof. unfold lsm_get. apply _. Qed.

(** A new table. *)
Lemma write_table_tidy ts m b c w w' t :
  dir_ok ts w -> write_table db m None b c w = (w', Ok t) -> dir_ok (t :: ts) w'.
Proof.
  intros [(ixs & H1 & H2 & H3) H4]. unfold write_table, st_bind, read_nanos. cbn [disk].
  destruct (from_memtable _ _ _ _ _ _ _) as [[t' d]| |] eqn:E; try done. intros [= <- <-].
  assert (Hf : flushed_at t' (ticks w) /\ exists file, d = <[path t' := file]> (disk w)).
  { unfold from_memtable in E. case_match; [done|]. case_match; [done|].
    destruct (rfold _ _ _) as [b1| |]; cbn [rbind] in E; try done.
    destruct (flush _) as [fl| |]; cbn [rbind] in E; try done. injection E as <- <-.
    split; [by split | by eexists]. }
  destruct Hf as [Hf [file ->]]. split; cbn [disk ticks with_disk].
  - exists (ticks w :: ixs). split_and!; constructor; try done; try lia.
    eapply Forall_impl; [exact H3|]. cbn. lia.
  - intros n t Hn Et. destruct (decide (n = path t')) as [->|Hne]; [by left|].
    rewrite lookup_insert_ne in Hn by done. right. by eapply H4.
Qed.

Lemma write_table_failed ts m b c w :
  dir_ok ts w -> match write_table db m None b c w with (w', Ok _) => True | (w', _) => dir_ok ts w' end.
Proof.
  intros H. unfold write_table, st_bind, read_nanos. cbn [disk].
  destruct (from_memtable _ _ _ _ _ _ _) as [[]| |]; [done|..];
    (eapply dir_ok_grow; [exact H | cbn; lia | done]).
Qed.

#[export] Instance tidy_bg_step : Keeps tidy bg_step.
Proof.
  intros [e w] [H1 H2 H3 H4]. unfold bg_step. cbn [fst snd] in *. unfold tables_of in H4.
  destruct (flush_handle e) as [| |t| | |] eqn:Eh; 
    try (split; [exact H1 | exact H2 | exact H3 | unfold tables_of; cbn; rewrite ?Eh; exact H4]).
  - destruct (immutable e) as [m|]; [|by split]. rewrite H1.
    pose proof (write_table_failed _ m (block_size_bytes e) (block_compression e) w H4) as Hf.
    destruct (write_table _ _ _ _ _ w) as [w' [t| |]] eqn:Ew; split; try done.
    eapply write_table_tidy in Ew; [exact Ew | exact H4].
  - rewrite H2. unfold add_sstable, leveled_strategy, lv_add_sstable, self, st_gets, st_bind. cbn [fst].
    destruct (storage_strategy e) as [[|lv ls] b c] eqn:Es; [done|]. cbn.
    split; try done. unfold tables_of, lv_iter_all, level_iter in *. cbn in *. by rewrite rev_app_distr.
Qed.

(** Once the thread has been joined nothing is left of it. *)
Lemma bg_step_left (s : LsmState Leveled) :
  bg_step s = ((bg_step s).1, Ok tt) /\
  (flush_left (flush_handle (bg_step s).1.1) <= Nat.pred (flush_left (flush_handle s.1)))%nat.
Proof.
  destruct s as [e w]. unfold bg_step. cbn [fst snd].
  destruct (flush_handle e) as [| |t| | |] eqn:Eh; try (split; [done|]; cbn; rewrite ?Eh; cbn; lia).
  - destruct (immutable e); [|split; [done | cbn; lia]].
    destruct (write_table (lsm_db e) _ _ _ _ w) as [? []]; (split; [done | cbn; lia]).
  - destruct (poisoned e); [split; [done | cbn; lia]|].
    destruct (add_sstable t _) as [[? ?] []]; (split; [done | cbn; lia]).
Qed.

Lemma join_ends s s' : join s = (s', Ok tt) -> flush_handle s'.1 = NoFlush.
Proof.
  unfold join.
  do 3 (rewrite (st_bind_Ok _ _ _ _ _ (proj1 (bg_step_left _)))). unfold self, st_gets. erewrite st_bind_Ok by reflexivity.
  case_match; intros [= <-]; done.
Qed.

#[export] Instance tidy_join : Keeps tidy join.
Proof.
  intros s Hs. unfold join.
  pose proof (tidy_bg_step _ (tidy_bg_step _ (tidy_bg_step _ Hs))) as H3.
  pose proof (proj2 (bg_step_left s)) as L1. pose proof (proj2 (bg_step_left (bg_step s).1)) as L2.
  pose proof (proj2 (bg_step_left (bg_step (bg_step s).1).1)) as L3.
  assert (L : (flush_left (flush_handle s.1) <= 3)%nat) by (by destruct (flush_handle s.1); cbn; lia).
  do 3 (rewrite (st_bind_Ok _ _ _ _ _ (proj1 (bg_step_left _)))). revert H3 L3. set (s3 := (bg_step _).1).
  intros [H1 H2 H3 H4] L3. unfold tables_of in H4.
  unfold self, st_gets. erewrite st_bind_Ok by reflexivity.
  destruct (flush_handle s3.1) eqn:Eh; cbn in L3; try lia; split; try done;
    unfold tables_of; cbn; rewrite ?Eh; exact H4.
Qed.

#[export] Instance tidy_flush_async : Keeps tidy flush_memtable_async.
Proof.
  intros s Hs. unfold flush_memtable_async. pose proof (tidy_join s Hs) as Hj.
  destruct (join s) as [s1 [[]| |]] eqn:E; unfold st_bind at 1; rewrite E; [|exact Hj..].
  apply join_ends in E. cbn [fst] in Hj.
  assert (Hk : Keeps tidy (let* old := self active in let* _ := set_self (set_active_mem mem_new) in
    let* _ := set_self (set_immutable (Some old)) in lsm_wal_reset)).
  { apply keeps_bind; [apply _|]. intros old. apply keeps_bind; [|intros; apply _].
    apply (tidy_set_active (fun _ => mem_new)). }
  pose proof (Hk s1 Hj) as [H1 H2 H3 H4]. destruct s1 as [e w]. cbn in E.
  split; [exact H1 | exact H2 | exact H3 |]. unfold tables_of in *. cbn in H4 |- *.
  by rewrite E in H4.
Qed.

#[export] Instance tidy_flush_if_full z : Keeps tidy (flush_if_full z).
Proof. unfold flush_if_full. apply keeps_bind; [apply _|]. intros. case_match; apply _. Qed.
#[export] Instance tidy_set_with_ttl k v x : Keeps tidy (lsm_set_with_ttl k v x).
Proof. unfold lsm_set_with_ttl. apply _. Qed.
#[export] Instance tidy_delete k : Keeps tidy (lsm_delete k).
Proof. unfold lsm_delete. apply _. Qed.
#[export] Instance tidy_ttl k x : Keeps tidy (lsm_ttl k x).
Proof. unfold lsm_ttl. repeat (apply keeps_bind; [apply _ | intros]). case_match; apply _. Qed.
#[export] Instance tidy_exists k : Keeps tidy (lsm_exists k).
Proof.
  intros s Hs. unfold lsm_exists. pose proof (tidy_get k s Hs) as Hg.
  by destruct (lsm_get k s) as [s' []].
Qed.
#[export] Instance tidy_mget ks : Keeps tidy (lsm_mget ks).
Proof. induction ks; cbn; apply _. Qed.
#[export] Instance tidy_mset_with_ttl items : Keeps tidy (lsm_mset_with_ttl items).
Proof. unfold lsm_mset_with_ttl. apply _. Qed.

Lemma tidy_run_acts l s : tidy s -> Forall act_ok l -> tidy (run_acts l s).1.
Proof.
  revert s. induction l as [|a l IH]; intros s Hs Hl; [done|]. apply Forall_cons in Hl as [Ha Hl].
  assert (Hk : Keeps tidy (run_act a)).
  { destruct a as [[]|]; try done; unfold run_act, engine_op, st_map; cbn; apply _. }
  specialize (Hk s Hs). cbn. destruct (run_act a s) as [s1 r].
  specialize (IH s1 Hk Hl). by destruct (run_acts l s1).
Qed.
End Tidy.

(** ** Loading the directory *)

(** Later tables have larger timestamps. *)
Class RisingTime `{Clock} `{Nanos} (N : nat) : Prop :=
  nanos_rising i j : (i < j)%nat -> (j < N)%nat -> wrap64 (nanos i) < wrap64 (nanos j).

Section Load.
Context `{CK : Clock} `{NS : Nanos} `{SO : SetOrder} (N : nat) `{GT : !GoodTime N} `{RT : !RisingTime N}.
Context (db : str) (Hflat : flat_name db = true).

Lemma flushed_sorted ts ixs :
  Forall2 (flushed_at db) ts ixs -> StronglySorted gt ixs -> Forall (fun i => i < N)%nat ixs ->
  StronglySorted Z.lt (sst_timestamp <$> rev ts).
Proof.
  intros HF. induction HF as [|t i ts ixs Ht HF IH]; intros Hs Hn; [constructor|].
  apply StronglySorted_inv in Hs as [Hs Hi]. apply Forall_cons in Hn as [Hin Hn].
  cbn [rev]. rewrite fmap_app. cbn. apply sorted_snoc. split; [by apply IH|].
  apply Forall_fmap, Forall_rev, Forall_lookup. intros p u Hu.
  destruct (Forall2_lookup_l _ _ _ _ _ HF Hu) as (j & Hj & [Hts _ _ _]). cbn.
  rewrite Hts, (fa_time _ _ _ Ht). rewrite Forall_lookup in Hi. specialize (Hi p j Hj).
  apply nanos_rising; [lia | done].
Qed.

Definition stub_of (t : SSTable) : SSTable := stub db (sst_timestamp t).

Lemma get_sstables_sort ts ms w :
  dir_ok db ts w -> Forall2 (holds (disk w)) ts ms -> (ticks w <= N)%nat ->
  sort_tables (omap (db_table db) (map_to_list (disk w)).*1) = stub_of <$> rev ts.
Proof.
  intros [(ixs & HF & Hs & Hi) Hd] Hh HN.
  assert (Hn : forall t, t ∈ ts -> path t = path (stub_of t) /\
    db_table db (path t) = Some (stub_of t) /\ is_Some (disk w !! path t)).
  { intros t Ht. apply list_elem_of_lookup in Ht as [p Ht].
    destruct (Forall2_lookup_l _ _ _ _ _ HF Ht) as (i & Ei & [H1 H2 H3 H4]).
    destruct (Forall2_lookup_l _ _ _ _ _ Hh Ht) as (m & _ & _ & c & f & gs & _ & Hf).
    unfold stub_of. rewrite H1, H4 in *. split_and!; [done | | by eexists].
    apply db_table_filename; [done | apply is_uint_wrap; lia]. }
  apply (sorted_listing sst_timestamp (db_table db) path).
  - apply read_dir_nodup.
  - rewrite <- list_fmap_compose. eapply (flushed_sorted ts ixs); [done | done |].
    eapply Forall_impl; [exact Hi|]. cbn. lia.
  - intros n x Hx Ex. apply read_dir_elem in Hx. split; [symmetry; by eapply db_table_path|].
    specialize (Hd n x Hx Ex). apply list_elem_of_fmap in Hd as (t & -> & Ht).
    destruct (Hn t Ht) as (_ & E & _). rewrite E in Ex. injection Ex as <-.
    apply list_elem_of_fmap. exists t. split; [done|]. by rewrite <- (Permutation_rev ts).
  - intros x Hx. apply list_elem_of_fmap in Hx as (t & -> & Ht). rewrite <- (Permutation_rev ts) in Ht.
    destruct (Hn t Ht) as (E & E' & Hp). rewrite <- E. split; [by apply read_dir_elem | done].
Qed.

Lemma rebuild_all_run ts ms w :
  Forall2 (holds (disk w)) ts ms -> Forall (fun t => exists i, flushed_at db t i) ts ->
  rebuild_all (stub_of <$> ts) w = (w, Ok ts).
Proof.
  intros Hh. induction Hh as [|t m ts ms (_ & c & f & gs & Hb & Hf) _ IH]; intros Ha; [done|].
  apply Forall_cons in Ha as [[i [H1 H2 H3 H4]] Ha]. cbn [fmap list_fmap rebuild_all].
  unfold st_gets. erewrite st_bind_Ok by reflexivity.
  assert (E : rebuild_index (disk w) (stub_of t) = Ok t).
  { apply (built_rebuild m c t f gs); try done. unfold stub_of. cbn. by rewrite H1, H4. }
  unfold st_lift. rewrite E. erewrite st_bind_Ok by reflexivity.
  rewrite (st_bind_Ok _ _ _ _ _ (IH Ha)). done.
Qed.

(** The loop over the tables, which rebuilds each once more. *)
Lemma lv_load_loop_run ts ms w lv ls b c :
  Forall2 (holds (disk w)) ts ms -> Forall (fun t => level t = None) ts ->
  lv_load_loop ts (mkLeveled (lv :: ls) b c, w)
  = ((mkLeveled (set_lv_sstables (lv_sstables lv ++ ts) lv :: ls) b c, w), Ok tt).
Proof.
  intros Hh. revert lv. induction Hh as [|t m ts ms (_ & c' & f & gs & Hb & Hf) _ IH]; intros lv Hl.
  { rewrite app_nil_r. by destruct lv. }
  apply Forall_cons in Hl as [Ht Hl]. cbn [lv_load_loop].
  unfold lift_w at 1, st_gets. erewrite st_bind_Ok by reflexivity. cbn [snd].
  unfold st_lift. rewrite (built_rebuild m c' t f gs) by done. erewrite st_bind_Ok by reflexivity.
  unfold self, st_gets. erewrite st_bind_Ok by reflexivity. rewrite Ht. cbn.
  change (Z.to_nat 0) with 0%nat. cbn [Nat.leb].
  rewrite (st_bind_Ok _ _ _ (mkLeveled (level_append t lv :: ls) b c, w) tt) by done.
  rewrite IH by done. unfold level_append. cbn.
  by rewrite <- app_assoc.
Qed.

Lemma lv_load_run ts ms w n l0 l1 b c :
  dir_ok db ts w -> Forall2 (holds (disk w)) ts ms -> (ticks w <= N)%nat -> 0 < n ->
  exists s, lv_load_from_dir db n l0 l1 b c w = (w, Ok s) /\ lv_iter_all s = ts /\ levels s <> [].
Proof.
  intros Hd Hh HN Hn. pose proof Hd as [(ixs & HF & _) _].
  assert (Ha : Forall (fun t => exists i, flushed_at db t i) ts).
  { apply Forall_lookup. intros p t Ht.
    destruct (Forall2_lookup_l _ _ _ _ _ HF Ht) as (i & _ & Hi). eauto. }
  assert (Hr : Forall2 (holds (disk w)) (rev ts) (rev ms)) 
    by (rewrite !rev_alt; by apply Forall2_reverse).
  assert (Hg : get_sstables db w = (w, Ok (rev ts))).
  { unfold get_sstables, read_dir, st_gets. erewrite st_bind_Ok by reflexivity.
    rewrite (get_sstables_sort ts ms) by done. by apply (rebuild_all_run _ (rev ms)), Forall_rev. }
  unfold lv_load_from_dir. rewrite (st_bind_Ok _ _ _ _ _ Hg).
  unfold lv_new. destruct (Z.to_nat n) as [|n'] eqn:En; [lia|]. cbn [seq map].
  rewrite (lv_load_loop_run _ _ _ _ _ _ _ Hr).
  - eexists. split; [reflexivity|]. split; [|done]. unfold lv_iter_all, level_iter. cbn.
    rewrite rev_involutive, map_map. rewrite <- (app_nil_r ts) at 2. f_equal.
    induction (seq 1 n') as [|i l IH]; [done | exact IH].
  - apply Forall_rev. eapply Forall_impl; [exact Ha|]. intros t [i Hi]. apply Hi.
Qed.

(** ** Opening again *)

(** What the tables of the directory hold, and that the map is the same with
    the active memtable in front of them. *)
Lemma tables_of_view (e : LsmEngine Leveled) w m ops tabs :
  lsm_inv N db (e, w) m ops tabs -> flush_handle e <> Writing ->
  exists tabs', Forall2 (holds (disk w)) (tables_of e) tabs' /\
    Forall (fun t => path t <> wal_name db) (tables_of e) /\
    forall k, m !! k = entry_binding (first_entry (active e :: tabs') k).
Proof.
  intros [_ _ _ H4 H5 H6 _ _ _ H10 _ Hdb] Hw. cbn [fst snd] in *. rewrite Hdb in *.
  unfold flush_ok, layers, tables_of in *.
  destruct (flush_handle e) as [| |t| | |], (immutable e) as [im|]; try done.
  - by exists tabs.
  - destruct H6 as (Hh & Hp & _). rewrite Hdb in Hp. exists (im :: tabs). split_and!; [by constructor | by constructor | done].
  - exists tabs. split_and!; [done | done |]. intros k. rewrite H10.
    destruct tabs as [|tb tabs]; [done|]. injection H6 as ->. cbn.
    by destruct (entry (active e) k), (entry im k).
  - by exists tabs.
Qed.

(** A directory whose engine stopped anywhere but before the table of a flush
    was written opens as an engine of the same map. *)
Lemma reopen_tidy (e : LsmEngine Leveled) w m ops tabs max n l0 l1 b c :
  lsm_inv N db (e, w) m ops tabs -> tidy db (e, w) -> flush_handle e <> Writing ->
  (ticks w <= N)%nat -> 0 < n -> params_ok b ->
  exists st e', lv_load_from_dir db n l0 l1 b c w = (w, Ok st) /\
    lsm_from_dir db max st b c w = (w, Ok e') /\
    (exists tabs', lsm_inv N db (e', w) m ops tabs') /\ tidy db (e', w) /\
    flush_handle e' = NoFlush.
Proof.
  intros Hi [_ _ _ Hd] Hw HN Hn Hb.
  destruct (tables_of_view e w m ops tabs Hi Hw) as (tabs' & Hh & Hp & Hv). cbn [fst snd] in *.
  destruct (lv_load_run _ _ w n l0 l1 b c Hd Hh HN Hn) as (st & E & Hall & Hne).
  eexists st, _. split; [exact E|]. split; [by eapply reopen_run|].
  destruct Hi as [_ _ _ _ _ _ H7 H8 H9 _ H11 Hdb]. cbn [fst snd] in *. rewrite Hdb in *.
  split_and!; [|split; cbn; try done; unfold tables_of; cbn; by rewrite Hall | done].
  exists tabs'. split; cbn -[wal_name]; rewrite ?Hall; done.
Qed.
End Load.

(** ** Example: a database name that ends like a level *)

#[local] Existing Instances ExTime.ck ExTime.ns ExTime.good Ex.so.

(** Write a key, let the flush end, start again, and read the key. *)
Definition read_after_restart (db : str) : result (option (str * str)) :=
  match lsm_new db 1 Ex.leveled 4096 false Ex.w0 with
  | (w, Ok e) =>
      let '((_, w1), _) := run_acts (Ex.flushed (KSet Ex.k (bs "v") None)) (e, w) in
      match lv_load_from_dir db 2 4 1000 4096 false w1 with
      | (w2, Ok st) =>
          match lsm_from_dir db 1 st 4096 false w2 with
          | (w3, Ok e') => (lsm_get Ex.k (e', w3)).2
          | _ => Panic
          end
      | _ => Panic
      end
  | _ => Panic
  end.

(** A database called [db_L1] loses its flushed keys at every start: the parser
    of file names takes the end of the name for a level, and the tables for
    those of a database called [db]. *)
Theorem level_suffix_loses_tables :
  read_after_restart (bs "db") = Ok (Some (Ex.k, bs "v")) /\
  read_after_restart (bs "db_L1") = Ok None.
Proof. vm_compute. split; reflexivity. Qed.
