(* ===== verification/Bffp.v ===== *)
(** * The wire protocol

    The binary frames of [src/src/bffp.rs]: the commands a client sends, the
    responses of the server, and both directions of both encodings. A frame is
    a big-endian [u32] length followed by that many bytes, the first of which
    is the operation code or the response status. *)

From S2P Require Import Prelude Utf8.

(** ** Data *)

Definition FLAGS_LEN : Z := 1.
Definition FRAME_LEN_SIZE : Z := 4.
Definition OP_CODE_SIZE : Z := 1.
Definition KEY_LEN_SIZE : Z := 2.
Definition VALUE_LEN_SIZE : Z := 4.
Definition PAYLOAD_LEN_SIZE : Z := 4.
Definition TTL_LEN_SIZE : Z := 4.
Definition FLAG_HAS_TTL : Z := 1.

Inductive Command :=
  | CInvalid (op : byte)
  | CRead (key : str)
  | CWrite (key value : str) (ttl : option Z)
  | CDelete (key : str)
  | CCompact
  | CStats
  | CList
  | CExists (key : str)
  | CPing
  | CMget (keys : list str)
  | CMset (items : list (str * str * option Z))
  | CRange (start_key end_key : str)
  | CTtl (key : str) (seconds : Z).

Inductive OpCode :=
  | OpRead | OpWrite | OpDelete | OpCompact | OpStats | OpList | OpExists
  | OpPing | OpMget | OpMset | OpRange | OpTtl.

(** [op as u8]: the discriminants of the [repr(u8)] enum. *)
Definition op_code (o : OpCode) : byte :=
  as_u8 match o with
  | OpRead => 1 | OpWrite => 2 | OpDelete => 3 | OpCompact => 4
  | OpStats => 5 | OpList => 6 | OpExists => 7 | OpPing => 8
  | OpMget => 9 | OpMset => 10 | OpRange => 11 | OpTtl => 12
  end.

Definition op_try_from (b : byte) : result OpCode :=
  match u8 b with
  | 1 => Ok OpRead
  | 2 => Ok OpWrite
  | 3 => Ok OpDelete
  | 4 => Ok OpCompact
  | 5 => Ok OpStats
  | 6 => Ok OpList
  | 7 => Ok OpExists
  | 8 => Ok OpPing
  | 9 => Ok OpMget
  | 10 => Ok OpMset
  | 11 => Ok OpRange
  | 12 => Ok OpTtl
  | _ => Err InvalidData
  end.

Inductive ResponseStatus := StOk | StNotFound | StError | StNoop.

Definition status_code (s : ResponseStatus) : byte :=
  as_u8 match s with StOk => 0 | StNotFound => 1 | StError => 2 | StNoop => 3 end.

Definition status_try_from (b : byte) : result ResponseStatus :=
  match u8 b with
  | 0 => Ok StOk
  | 1 => Ok StNotFound
  | 2 => Ok StError
  | 3 => Ok StNoop
  | _ => Err InvalidData
  end.

Record DecodedResponse := mkDecodedResponse {
  resp_payload : list str;
  resp_status : ResponseStatus;
}.

(** ** Field readers *)

(** The reader of a length-prefixed string; a prefix of a width other than
    the two the protocol has is the [unreachable!] arm. *)
Definition read_string (len_bytes : Z) : Reader str :=
  let! n := (if len_bytes =? KEY_LEN_SIZE then read_uint 2
             else if len_bytes =? VALUE_LEN_SIZE then read_uint 4
             else rd_lift Panic) in
  let! buf := read_exact n in
  rd_lift (from_utf8 buf).

Definition read_key : Reader str := read_string KEY_LEN_SIZE.
Definition read_value : Reader str := read_string VALUE_LEN_SIZE.
Definition read_ttl : Reader Z := read_uint 4.
Definition read_flags : Reader Z := read_uint 1.

(** The body shared by a [WRITE] and by one item of an [MSET]. *)
Definition read_item : Reader (str * str * option Z) :=
  let! flag := read_flags in
  let! key := read_key in
  let! value := read_value in
  let! ttl := (if negb (Z.land flag FLAG_HAS_TTL =? 0)
               then (let! t := read_ttl in rd_ret (Some t))
               else rd_ret None) in
  rd_ret (key, value, ttl).

(** One string of a response. *)
Definition read_payload : Reader str :=
  let! payload_size := read_uint 4 in
  let! buf := read_exact payload_size in
  rd_lift (from_utf8 buf).

(** [while cur.position() < limit { items.push(R(cur)?) }] over a cursor on
    [size] bytes, whose position is [size] minus what remains. Each item takes
    at least one byte, so a fuel of the length of the buffer is enough
    ([read_while_total]); running out of it is a panic of the model. *)
Fixpoint read_while {A} (fuel : nat) (R : Reader A) (size limit : Z)
    : Reader (list A) := fun rest =>
  if size - len rest <? limit then
    match fuel with
    | O => Panic
    | S fuel =>
        (let! x := R in
         let! xs := read_while fuel R size limit in
         rd_ret (x :: xs)) rest
    end
  else Ok ([], rest).

(** ** Decoding *)

Definition decode_input_body (op : byte) (size total_len : Z) : Reader Command :=
  let limit := total_len + FRAME_LEN_SIZE in
  let fuel := S (Z.to_nat size) in
  match op_try_from op with
  | Ok OpRead => let! k := read_key in rd_ret (CRead k)
  | Ok OpWrite => let! it := read_item in rd_ret (let '(k, v, t) := it in CWrite k v t)
  | Ok OpDelete => let! k := read_key in rd_ret (CDelete k)
  | Ok OpCompact => rd_ret CCompact
  | Ok OpStats => rd_ret CStats
  | Ok OpList => rd_ret CList
  | Ok OpExists => let! k := read_key in rd_ret (CExists k)
  | Ok OpPing => rd_ret CPing
  | Ok OpMget =>
      let! items := read_while fuel read_key size limit in rd_ret (CMget items)
  | Ok OpMset =>
      let! items := read_while fuel read_item size limit in rd_ret (CMset items)
  | Ok OpRange =>
      let! s := read_key in
      let! e := read_key in
      rd_ret (CRange s e)
  | Ok OpTtl =>
      let! k := read_key in
      let! t := read_ttl in
      rd_ret (CTtl k t)
  | _ => rd_ret (CInvalid op)
  end.

Definition decode_input_frame (buffer : bytes) : result Command :=
  rmap fst
    ((let! total_len := read_uint 4 in
      let! op := read_uint 1 in
      decode_input_body (as_u8 op) (len buffer) total_len) buffer).

Definition decode_response_frame (buffer : bytes) : result DecodedResponse :=
  let size := len buffer in
  rmap fst
    ((let! total_len := read_uint 4 in
      let! op := read_uint 1 in
      let! responses :=
        read_while (S (Z.to_nat size)) read_payload size (total_len + FRAME_LEN_SIZE) in
      let! status := rd_lift (status_try_from (as_u8 op)) in
      rd_ret (mkDecodedResponse responses status)) buffer).

(** ** Encoding *)

Definition encode_frame (status : ResponseStatus) (responses : list str) : bytes :=
  let payload :=
    status_code status ::
    concat (map (fun res => to_be 4 (wrap32 (len res)) ++ res) responses) in
  to_be 4 (wrap32 (len payload)) ++ payload.

(** [u16]-prefixed key and [u32]-prefixed value. *)
Definition put_key (k : str) : bytes := to_be 2 (wrap16 (len k)) ++ k.
Definition put_value (v : str) : bytes := to_be 4 (wrap32 (len v)) ++ v.

(** [match ttl { Some(s) => (FLAG_HAS_TTL, Some(s)), None => (0, None) }] and
    the fields of one written item. *)
Definition ttl_flags (ttl : option Z) : Z :=
  match ttl with Some _ => FLAG_HAS_TTL | None => 0 end.
Definition ttl_size (ttl : option Z) : Z :=
  match ttl with Some _ => TTL_LEN_SIZE | None => 0 end.
Definition put_item (it : str * str * option Z) : bytes :=
  let '(k, v, ttl) := it in
  to_be 1 (ttl_flags ttl) ++ put_key k ++ put_value v ++
  match ttl with Some secs => to_be 4 secs | None => [] end.

Definition sum_len {A} (f : A -> Z) (l : list A) : Z :=
  fold_left (fun acc a => acc + f a) l 0.

Definition encode_command (c : Command) : result bytes :=
  match c with
  | CRead key =>
      Ok (to_be 4 (wrap32 (OP_CODE_SIZE + KEY_LEN_SIZE + len key)) ++
          op_code OpRead :: put_key key)
  | CWrite key value ttl =>
      Ok (to_be 4 (wrap32 (OP_CODE_SIZE + FLAGS_LEN + KEY_LEN_SIZE + VALUE_LEN_SIZE
                           + len key + len value + ttl_size ttl)) ++
          op_code OpWrite :: put_item (key, value, ttl))
  | CDelete key =>
      Ok (to_be 4 (wrap32 (OP_CODE_SIZE + KEY_LEN_SIZE + len key)) ++
          op_code OpDelete :: put_key key)
  | CCompact => Ok (to_be 4 OP_CODE_SIZE ++ [op_code OpCompact])
  | CStats => Ok (to_be 4 OP_CODE_SIZE ++ [op_code OpStats])
  | CList => Ok (to_be 4 OP_CODE_SIZE ++ [op_code OpList])
  | CExists key =>
      Ok (to_be 4 (wrap32 (OP_CODE_SIZE + KEY_LEN_SIZE + len key)) ++
          op_code OpExists :: put_key key)
  | CPing => Ok (to_be 4 OP_CODE_SIZE ++ [op_code OpPing])
  | CInvalid _ => Panic
  | CMget keys =>
      let total_len := OP_CODE_SIZE + KEY_LEN_SIZE * len keys + sum_len len keys in
      Ok (to_be 4 (wrap32 total_len) ++ op_code OpMget :: concat (map put_key keys))
  | CMset items =>
      let total_len :=
        OP_CODE_SIZE + (FLAGS_LEN + KEY_LEN_SIZE + VALUE_LEN_SIZE) * len items +
        sum_len (fun '(k, v, ttl) => len k + len v + ttl_size ttl) items in
      Ok (to_be 4 (wrap32 total_len) ++ op_code OpMset :: concat (map put_item items))
  | CRange start_key end_key =>
      let total_len :=
        OP_CODE_SIZE + KEY_LEN_SIZE * 2 + wrap16 (len start_key) + wrap16 (len end_key) in
      Ok (to_be 4 total_len ++ op_code OpRange :: put_key start_key ++ put_key end_key)
  | CTtl key expiry =>
      Ok (to_be 4 (wrap32 (OP_CODE_SIZE + KEY_LEN_SIZE + len key + TTL_LEN_SIZE)) ++
          op_code OpTtl :: put_key key ++ to_be 4 expiry)
  end.

(** ** The commands a client can send *)

Definition key_ok (k : str) : Prop := utf8_valid k = true /\ len k < 2 ^ 16.
Definition val_ok (v : str) : Prop := utf8_valid v = true /\ len v < 2 ^ 32.
Definition ttl_ok (t : option Z) : Prop :=
  match t with Some s => is_u32 s | None => True end.
Definition item_ok (it : str * str * option Z) : Prop :=
  let '(k, v, t) := it in key_ok k /\ val_ok v /\ ttl_ok t.

Definition command_ok (c : Command) : Prop :=
  match c with
  | CInvalid _ => False
  | CRead k | CDelete k | CExists k => key_ok k
  | CWrite k v t => item_ok (k, v, t)
  | CMget ks => Forall key_ok ks
  | CMset its => Forall item_ok its
  | CRange s e => key_ok s /\ key_ok e
  | CTtl k t => key_ok k /\ is_u32 t
  | _ => True
  end.

(** The bytes after the length and the operation code. *)
Definition command_op (c : Command) : OpCode :=
  match c with
  | CRead _ => OpRead | CWrite _ _ _ => OpWrite | CDelete _ => OpDelete
  | CStats => OpStats | CList => OpList | CExists _ => OpExists
  | CPing => OpPing | CMget _ => OpMget | CMset _ => OpMset
  | CRange _ _ => OpRange | CTtl _ _ => OpTtl
  | CCompact | CInvalid _ => OpCompact
  end.

Definition command_body (c : Command) : bytes :=
  match c with
  | CRead k | CDelete k | CExists k => put_key k
  | CWrite k v t => put_item (k, v, t)
  | CMget ks => concat (map put_key ks)
  | CMset its => concat (map put_item its)
  | CRange s e => put_key s ++ put_key e
  | CTtl k t => put_key k ++ to_be 4 t
  | _ => []
  end.

(** The frame is addressable: its length fits the [u32] prefix. *)
Definition frame_fits (c : Command) : Prop := 1 + len (command_body c) < 2 ^ 32.

(** ** Lemmas: the loops *)

(** Items of at least one byte never exhaust the fuel. *)
Definition progressive {A} (R : Reader A) : Prop :=
  forall l a k, R l = Ok (a, k) -> len k < len l.

Lemma read_while_total {A} (R : Reader A) fuel size limit l :
  TotalReader R -> progressive R -> len l < Z.of_nat fuel ->
  no_panic (read_while fuel R size limit l).
Proof.
  intros HR HP. revert l. induction fuel as [|fuel IH]; intros l Hl.
  { pose proof (len_nonneg l). lia. }
  simpl. case_match; [|done]. unfold rd_bind. apply no_panic_bind; [apply HR|].
  intros [a k] Ha. apply HP in Ha. apply no_panic_bind; [apply IH; simpl; lia|].
  intros [??] _. done.
Qed.

(** A sequence of written items is read back: the loop ends where the items
    end, whatever follows. *)
Lemma read_while_concat {A} (R : Reader A) (put : A -> bytes) (good : A -> Prop) :
  (forall a k, good a -> R (put a ++ k) = Ok (a, k)) ->
  (forall a, 0 < len (put a)) ->
  forall items fuel size limit rest,
    Forall good items ->
    len (concat (map put items)) < Z.of_nat fuel ->
    size = limit + len rest ->
    read_while fuel R size limit (concat (map put items) ++ rest) = Ok (items, rest).
Proof.
  intros HR Hput items fuel. revert items.
  induction fuel as [|fuel IH]; intros items size limit rest Hg Hf Hs.
  { pose proof (len_nonneg (concat (map put items))). lia. }
  destruct items as [|it items]; simpl.
  - rewrite (proj2 (Z.ltb_ge _ _)) by lia. done.
  - inversion Hg as [|?? Hit Hits]; subst. cbn [map concat] in Hf. simp_len.
    pose proof (Hput it) as Hp. pose proof (len_nonneg (concat (map put items))).
    rewrite (proj2 (Z.ltb_lt _ _)) by lia.
    rewrite <- app_assoc, (rd_bind_Ok _ _ _ _ _ (HR it _ Hit)).
    erewrite rd_bind_Ok by (apply IH; [done | lia | done]). done.
Qed.

(** ** Lemmas: the fields *)

Lemma read_string_key k rest :
  key_ok k -> read_key (put_key k ++ rest) = Ok (k, rest).
Proof.
  intros [Hu Hl]. unfold read_key, read_string, put_key. cbn [Z.eqb KEY_LEN_SIZE].
  pose proof (len_nonneg k). rewrite wrap_small by (split; lia).
  rewrite <- app_assoc. erewrite rd_bind_Ok by (apply read_uint_app; lia).
  erewrite rd_bind_Ok by (by apply read_exact_app).
  unfold rd_lift. by rewrite from_utf8_valid.
Qed.

Lemma read_key_raw n a b :
  0 <= n < 2 ^ 16 -> n = len a ->
  read_key (to_be 2 n ++ a ++ b) = rmap (fun s => (s, b)) (from_utf8 a).
Proof.
  intros Hn ->. unfold read_key, read_string. cbn [Z.eqb KEY_LEN_SIZE].
  erewrite rd_bind_Ok by (by apply read_uint_app).
  by erewrite rd_bind_Ok by (by apply read_exact_app).
Qed.

Lemma read_string_value v rest :
  val_ok v -> read_value (put_value v ++ rest) = Ok (v, rest).
Proof.
  intros [Hu Hl]. unfold read_value, read_string, put_value.
  change (VALUE_LEN_SIZE =? KEY_LEN_SIZE) with false.
  change (VALUE_LEN_SIZE =? VALUE_LEN_SIZE) with true.
  pose proof (len_nonneg v). rewrite wrap_small by (split; lia).
  rewrite <- app_assoc. erewrite rd_bind_Ok by (apply read_uint_app; lia).
  erewrite rd_bind_Ok by (by apply read_exact_app).
  unfold rd_lift. by rewrite from_utf8_valid.
Qed.

Lemma read_item_put it rest :
  item_ok it -> read_item (put_item it ++ rest) = Ok (it, rest).
Proof.
  destruct it as [[k v] t]. intros (Hk & Hv & Ht). unfold read_item, put_item.
  rewrite <- !app_assoc.
  erewrite rd_bind_Ok by (apply read_uint_app; destruct t; cbv; split; congruence).
  erewrite rd_bind_Ok by (by apply read_string_key).
  erewrite rd_bind_Ok by (by apply read_string_value).
  destruct t as [s|]; cbn [ttl_flags].
  - change (negb (Z.land FLAG_HAS_TTL FLAG_HAS_TTL =? 0)) with true.
    assert (Hr : read_ttl (to_be 4 s ++ rest) = Ok (s, rest)) by (apply read_uint_app; exact Ht).
    unfold rd_bind. rewrite Hr. done.
  - done.
Qed.

Lemma put_key_len k : len (put_key k) = 2 + len k.
Proof. unfold put_key. simp_len. lia. Qed.

Lemma put_value_len v : len (put_value v) = 4 + len v.
Proof. unfold put_value. simp_len. lia. Qed.

Lemma put_item_len k v t : len (put_item (k, v, t)) = 7 + len k + len v + ttl_size t.
Proof.
  unfold put_item. simp_len. rewrite put_key_len, put_value_len.
  destruct t; simp_len; cbn [ttl_size]; unfold TTL_LEN_SIZE; lia.
Qed.

#[export] Hint Rewrite put_key_len put_value_len put_item_len : len.

Lemma put_key_pos k : 0 < len (put_key k).
Proof. rewrite put_key_len. pose proof (len_nonneg k). lia. Qed.

Lemma put_item_pos it : 0 < len (put_item it).
Proof.
  destruct it as [[k v] t]. rewrite put_item_len.
  pose proof (len_nonneg k); pose proof (len_nonneg v).
  destruct t; cbn; unfold TTL_LEN_SIZE; lia.
Qed.

Lemma sum_len_acc {A} (f : A -> Z) l acc :
  fold_left (fun acc a => acc + f a) l acc = acc + sum_len f l.
Proof.
  unfold sum_len. revert acc. induction l as [|a l IH]; intros acc;
    cbn [fold_left]; [lia|].
  rewrite IH, (IH (0 + f a)). lia.
Qed.

Lemma sum_len_cons {A} (f : A -> Z) a l : sum_len f (a :: l) = f a + sum_len f l.
Proof. unfold sum_len at 1. simpl. apply sum_len_acc. Qed.

(** The running [total_len] of an encoder is the number of bytes it writes. *)
Lemma sum_len_concat {A} (f : A -> Z) (put : A -> bytes) (c : Z) l :
  (forall a, len (put a) = c + f a) ->
  len (concat (map put l)) = c * len l + sum_len f l.
Proof.
  intros Hp. induction l as [|a l IH]; [simpl; unfold sum_len; simp_len; simpl; lia|].
  cbn [map concat]. rewrite sum_len_cons. simp_len. rewrite IH, Hp. lia.
Qed.

Lemma op_try_from_code o : op_try_from (op_code o) = Ok o.
Proof. by destruct o. Qed.

Lemma status_try_from_code s : status_try_from (status_code s) = Ok s.
Proof. by destruct s. Qed.

Lemma read_uint_byte b k : read_uint 1 (b :: k) = Ok (u8 b, k).
Proof.
  pose proof (u8_range b) as Hb. change (b :: k) with ([b] ++ k).
  replace [b] with (to_be 1 (u8 b)).
  - apply read_uint_app. simpl. lia.
  - rewrite <- (to_be_from_be [b]). cbn [length]. by rewrite from_be_cons, Z.mul_1_r, Z.add_0_r.
Qed.

(** ** Lemmas: the frame of a command *)

Lemma encode_command_frame c :
  command_ok c -> frame_fits c ->
  encode_command c =
    Ok (to_be 4 (1 + len (command_body c)) ++ op_code (command_op c) :: command_body c).
Proof.
  assert (W : forall a b, a = b -> 0 <= b < 2 ^ 32 -> wrap32 a = b)
    by (intros a b ->; apply wrap_small).
  assert (E : forall n m op b, n = m -> Ok (to_be 4 n ++ op :: b) = Ok (to_be 4 m ++ op :: b))
    by (by intros ? ? ? ? ->).
  unfold frame_fits. intros Hok Hf.
  pose proof (len_nonneg (command_body c)) as Hn.
  destruct c; cbn [command_ok encode_command command_body command_op] in *; try done;
    apply E; try (apply W; [|lia]);
    unfold OP_CODE_SIZE, KEY_LEN_SIZE, FLAGS_LEN, VALUE_LEN_SIZE, TTL_LEN_SIZE;
    try (simp_len; lia).
  - rewrite (sum_len_concat len put_key 2) by apply put_key_len. lia.
  - rewrite (sum_len_concat (fun '(k, v, t) => len k + len v + ttl_size t) put_item 7);
      [lia|]. intros [[k v] t]. rewrite put_item_len. lia.
  - destruct Hok as [[_ Hs] [_ He]].
    pose proof (len_nonneg start_key); pose proof (len_nonneg end_key).
    rewrite !wrap_small by (split; lia). simp_len. lia.
Qed.

Lemma decode_body_put c size rest :
  command_ok c -> frame_fits c ->
  size = 4 + (1 + len (command_body c)) + len rest ->
  decode_input_body (op_code (command_op c)) size (1 + len (command_body c))
    (command_body c ++ rest) = Ok (c, rest).
Proof.
  intros Hok Hf Hs. unfold decode_input_body. rewrite op_try_from_code.
  pose proof (len_nonneg (command_body c)); pose proof (len_nonneg rest).
  unfold FRAME_LEN_SIZE.
  destruct c; cbn [command_op command_body] in *; try done;
    try (erewrite rd_bind_Ok by (by apply read_string_key); done).
  - erewrite rd_bind_Ok by (by apply read_item_put). done.
  - erewrite rd_bind_Ok; [done|].
    apply (read_while_concat _ put_key key_ok);
      auto using read_string_key, put_key_pos; lia.
  - erewrite rd_bind_Ok; [done|].
    apply (read_while_concat _ put_item item_ok);
      auto using read_item_put, put_item_pos; lia.
  - rewrite <- app_assoc. destruct Hok.
    erewrite rd_bind_Ok by (by apply read_string_key).
    erewrite rd_bind_Ok by (by apply read_string_key). done.
  - rewrite <- app_assoc. destruct Hok as [? Ht].
    erewrite rd_bind_Ok by (by apply read_string_key).
    erewrite rd_bind_Ok by (apply read_uint_app; exact Ht). done.
Qed.

Lemma decode_encode_frame c frame rest :
  command_ok c -> frame_fits c -> encode_command c = Ok frame ->
  decode_input_frame (frame ++ rest) = Ok c.
Proof.
  intros Hok Hf. rewrite encode_command_frame by done. intros <-%Ok_inj.
  unfold decode_input_frame. rewrite <- app_assoc. cbn [app].
  pose proof (len_nonneg (command_body c)).
  erewrite rd_bind_Ok by (apply read_uint_app; unfold frame_fits in Hf; lia).
  erewrite rd_bind_Ok by apply read_uint_byte. rewrite as_u8_u8.
  rewrite decode_body_put; [done | done | done |]. simp_len. lia.
Qed.

Lemma encode_frame_len c frame :
  command_ok c -> frame_fits c -> encode_command c = Ok frame ->
  exists body, frame = to_be 4 (len body) ++ body /\ len body = 1 + len (command_body c).
Proof.
  intros Hok Hf. rewrite encode_command_frame by done. intros <-%Ok_inj.
  exists (op_code (command_op c) :: command_body c).
  rewrite len_cons. split; [|lia]. do 2 f_equal. lia.
Qed.

(** ** Lemmas: totality *)

Lemma total_read_string n : n = KEY_LEN_SIZE \/ n = VALUE_LEN_SIZE -> TotalReader (read_string n).
Proof.
  intros Hn. unfold read_string. apply total_bind.
  - destruct Hn; subst; apply _.
  - intros. apply total_bind; [apply _|]. intros. apply total_lift, no_panic_from_utf8.
Qed.

#[export] Instance total_read_key : TotalReader read_key.
Proof. apply total_read_string. by left. Qed.
#[export] Instance total_read_value : TotalReader read_value.
Proof. apply total_read_string. by right. Qed.
#[export] Instance total_read_item : TotalReader read_item.
Proof.
  unfold read_item, read_flags, read_ttl.
  repeat (apply total_bind; [try case_match; apply _ | intros]); apply _.
Qed.
#[export] Instance total_read_payload : TotalReader read_payload.
Proof.
  unfold read_payload. repeat (apply total_bind; [apply _ | intros]).
  apply total_lift, no_panic_from_utf8.
Qed.

Lemma progressive_bind_l {A B} (R : Reader A) (f : A -> Reader B) :
  progressive R -> (forall a, ExactReader (f a)) -> progressive (rd_bind R f).
Proof.
  intros HR Hf l b k. unfold rd_bind. destruct (R l) as [[a k1]| |] eqn:E; simpl; try done.
  intros H. apply HR in E. destruct (Hf a _ _ _ H) as (c & -> & _).
  simp_len. pose proof (len_nonneg c). lia.
Qed.

Lemma progressive_uint n : (0 < n)%nat -> progressive (read_uint n).
Proof. intros Hn l a k [-> _]%read_uint_Ok. simp_len. lia. Qed.

#[export] Instance exact_read_string n : ExactReader (read_string n).
Proof.
  unfold read_string. apply exact_bind; [repeat case_match; apply _|].
  intros. apply _.
Qed.

Lemma progressive_read_string n : progressive (read_string n).
Proof.
  unfold read_string. apply progressive_bind_l; [|intros; apply _].
  destruct (n =? KEY_LEN_SIZE); [by apply progressive_uint; lia|].
  destruct (n =? VALUE_LEN_SIZE); [by apply progressive_uint; lia|]. by intros ???.
Qed.

Lemma progressive_read_item : progressive read_item.
Proof.
  unfold read_item. apply progressive_bind_l; [apply progressive_uint; lia|].
  intros. unfold read_key, read_value, read_ttl.
  repeat (apply exact_bind; [try case_match; apply _ | intros]); apply _.
Qed.

Lemma progressive_read_payload : progressive read_payload.
Proof. apply progressive_bind_l; [apply progressive_uint; lia | intros; apply _]. Qed.

Lemma no_panic_rmap {A B} (f : A -> B) r : no_panic r -> no_panic (rmap f r).
Proof. intros. by apply no_panic_bind. Qed.

(** What a cursor has left is never more than the buffer. *)
Lemma no_panic_two_uints {A} (f : Z -> Z -> Reader A) buffer :
  (forall a b l, len l <= len buffer -> no_panic (f a b l)) ->
  no_panic ((let! a := read_uint 4 in let! b := read_uint 1 in f a b) buffer).
Proof.
  intros Hf. apply no_panic_bind; [auto with rkv|]. intros [a k] Ha.
  apply read_uint_Ok in Ha as [-> _].
  apply no_panic_bind; [auto with rkv|]. intros [b k'] Hb. simpl in Hb.
  apply read_uint_Ok in Hb as [-> _]. apply Hf. simp_len. simpl. lia.
Qed.

Lemma no_panic_status b : no_panic (status_try_from b).
Proof. unfold status_try_from. repeat case_match; done. Qed.

Lemma no_panic_decode_body op size total_len l :
  0 <= size -> len l <= size -> no_panic (decode_input_body op size total_len l).
Proof.
  intros Hs Hl. unfold decode_input_body.
  assert (Hw : forall A (R : Reader A), TotalReader R -> progressive R ->
    no_panic (read_while (S (Z.to_nat size)) R size (total_len + FRAME_LEN_SIZE) l)).
  { intros A R HR HP. apply read_while_total; auto. lia. }
  repeat case_match; try done;
    try (apply no_panic_bind; [|by intros [??]]);
    try (by apply total_read_key); try (by apply total_read_item);
    try (apply Hw; [apply _|]).
  - apply progressive_read_string.
  - apply progressive_read_item.
  - apply total_bind; [apply _|]. intros. apply total_bind; apply _.
  - apply total_bind; [apply _|]. intros. unfold read_ttl. apply total_bind; apply _.
Qed.

Lemma decode_total_input buffer : no_panic (decode_input_frame buffer).
Proof.
  pose proof (len_nonneg buffer). apply no_panic_rmap, no_panic_two_uints.
  intros a b l Hl. by apply no_panic_decode_body.
Qed.

(** *** Responses *)

Definition put_row (res : str) : bytes := to_be 4 (wrap32 (len res)) ++ res.

Lemma put_rows_len rows : len (concat (map put_row rows)) = sum_len (fun r => 4 + len r) rows.
Proof.
  erewrite (sum_len_concat (fun r => 4 + len r) put_row 0); [lia|].
  intros r. unfold put_row. simp_len. lia.
Qed.

Lemma rows_small rows :
  1 + sum_len (fun r : str => 4 + len r) rows < 2 ^ 32 -> Forall (fun r => len r < 2 ^ 32) rows.
Proof.
  rewrite <- put_rows_len. induction rows as [|r rows IH]; [constructor|]. cbn [map concat].
  rewrite len_app. pose proof (len_nonneg (concat (map put_row rows))). unfold put_row at 1. simp_len.
  pose proof (len_nonneg r). intros Hl. constructor; [lia|]. apply IH. lia.
Qed.

(** The frame of a response: its length, then its status and its rows. *)
Lemma encode_frame_parts status rows :
  1 + sum_len (fun r => 4 + len r) rows < 2 ^ 32 ->
  let payload := status_code status :: concat (map put_row rows) in
  encode_frame status rows = to_be 4 (len payload) ++ payload /\ len payload < 2 ^ 32.
Proof.
  intros Hl payload. rewrite <- put_rows_len in Hl. pose proof (len_nonneg (concat (map put_row rows))).
  assert (Hp : 0 <= len payload < 2 ^ 32) by (subst payload; rewrite len_cons; lia).
  split; [|lia]. unfold encode_frame. change (fun res => _ ++ _) with put_row. cbn zeta. fold payload.
  by rewrite wrap_small.
Qed.

Lemma response_decoded status responses rest :
  Forall (fun r => utf8_valid r = true) responses ->
  1 + sum_len (fun r => 4 + len r) responses < 2 ^ 32 ->
  decode_response_frame (encode_frame status responses ++ rest)
    = Ok (mkDecodedResponse responses status).
Proof.
  intros Hu Hl. destruct (encode_frame_parts status responses Hl) as [-> Hlen]. unfold decode_response_frame.
  assert (Hsmall : Forall (fun r => utf8_valid r = true /\ len r < 2 ^ 32) responses)
    by (apply Forall_and; split; [done | by apply rows_small]).
  pose proof (len_nonneg (concat (map put_row responses))) as Hn.
  cbn zeta in *. rewrite <- app_assoc. cbn [app]. rewrite len_cons in *.
  erewrite rd_bind_Ok by (apply read_uint_app; lia).
  erewrite rd_bind_Ok by apply read_uint_byte. rewrite as_u8_u8.
  erewrite rd_bind_Ok.
  2: { apply (read_while_concat read_payload put_row (fun r => utf8_valid r = true /\ len r < 2 ^ 32)).
       - intros r k [Hr Hrl]. unfold read_payload, put_row. rewrite <- app_assoc.
         pose proof (len_nonneg r). rewrite wrap_small by (split; lia).
         erewrite rd_bind_Ok by (apply read_uint_app; lia).
         erewrite rd_bind_Ok by (by apply read_exact_app).
         unfold rd_lift. by rewrite from_utf8_valid.
       - intros r. unfold put_row. simp_len. pose proof (len_nonneg r). lia.
       - done.
       - simp_len. pose proof (len_nonneg rest). lia.
       - simp_len. unfold FRAME_LEN_SIZE. lia. }
  unfold rd_bind, rd_lift. by rewrite status_try_from_code.
Qed.

(** ** Theorems *)

(** C31: A command whose keys are UTF-8 strings of less than 2^16 bytes and
    whose frame is addressable is encoded without a panic, and decoding the
    frame gives the command back whatever bytes follow it in the buffer. *)
Theorem command_roundtrip c rest :
  command_ok c -> frame_fits c ->
  exists frame, encode_command c = Ok frame /\ decode_input_frame (frame ++ rest) = Ok c.
Proof.
  intros Hok Hf. eexists. split; [by apply encode_command_frame|].
  eapply decode_encode_frame; eauto using encode_command_frame.
Qed.

Lemma command_roundtrip_witness :
  exists frame,
    encode_command (CMset [(bs "k", bs "v", Some 60); (bs "a", bs "", None)]) = Ok frame /\
    decode_input_frame (frame ++ bs "next")
      = Ok (CMset [(bs "k", bs "v", Some 60); (bs "a", bs "", None)]).
Proof.
  apply command_roundtrip.
  - repeat constructor; cbv; congruence.
  - vm_compute. reflexivity.
Defined.

(** A response frame is decoded to the status and the strings it was
    encoded from, when the strings are UTF-8 and the frame is addressable. *)
Theorem response_roundtrip status responses rest :
  Forall (fun r => utf8_valid r = true) responses ->
  1 + sum_len (fun r => 4 + len r) responses < 2 ^ 32 ->
  decode_response_frame (encode_frame status responses ++ rest)
    = Ok (mkDecodedResponse responses status).
Proof. apply response_decoded. Qed.

Lemma response_roundtrip_witness :
  decode_response_frame (encode_frame StOk [bs "PONG"; bs ""] ++ [])
    = Ok (mkDecodedResponse [bs "PONG"; bs ""] StOk).
Proof. apply response_roundtrip; [repeat constructor | vm_compute; reflexivity]. Defined.

(** Decoding a request or a response never panics and never runs away, on
    any bytes a peer may send: it ends in a value or in an I/O error. *)
Theorem decode_total buffer :
  no_panic (decode_input_frame buffer) /\ no_panic (decode_response_frame buffer).
Proof.
  split; [apply decode_total_input|].
  pose proof (len_nonneg buffer). apply no_panic_rmap, no_panic_two_uints.
  intros a b l Hl. apply no_panic_bind.
  { apply read_while_total; [apply _ | apply progressive_read_payload | lia]. }
  intros [rs k] _. apply no_panic_bind; [|by intros [??]].
  apply no_panic_bind; [apply no_panic_status | done].
Qed.

(** An operation code outside the table is not an error of the decoder: it
    becomes the [Invalid] command that carries it. *)
Theorem decode_unknown_op total_len op rest :
  is_u32 total_len -> u8 op = 0 \/ 12 < u8 op ->
  decode_input_frame (to_be 4 total_len ++ op :: rest) = Ok (CInvalid op).
Proof.
  intros Ht Hop. unfold decode_input_frame.
  erewrite rd_bind_Ok by (apply read_uint_app; exact Ht).
  erewrite rd_bind_Ok by apply read_uint_byte. rewrite as_u8_u8.
  unfold decode_input_body, op_try_from. pose proof (u8_range op).
  destruct (u8 op) as [|p|p] eqn:E; [done | | lia].
  do 4 (destruct p as [p|p|]; try done; try lia).
Qed.

Lemma decode_unknown_op_witness :
  decode_input_frame (to_be 4 1 ++ as_u8 200 :: []) = Ok (CInvalid (as_u8 200)).
Proof. apply decode_unknown_op; [cbv; split; congruence | right; vm_compute; reflexivity]. Defined.

(** The length of a key is sent in two bytes and the encoder does not check
    it: a [READ] of a key of any length is decoded as a [READ] of its first
    [len mod 2^16] bytes, so a key of 65 536 bytes or more is never asked for. *)
Theorem read_key_truncated k :
  len k < 2 ^ 32 ->
  exists frame, encode_command (CRead k) = Ok frame /\
    decode_input_frame frame
      = rmap CRead (from_utf8 (take (Z.to_nat (len k mod 2 ^ 16)) k)).
Proof.
  intros Hk. eexists. split; [reflexivity|]. unfold decode_input_frame.
  erewrite rd_bind_Ok by apply read_uint_wrap.
  erewrite rd_bind_Ok by apply read_uint_byte. rewrite as_u8_u8.
  unfold decode_input_body. rewrite op_try_from_code. unfold put_key.
  pose proof (Z.mod_pos_bound (len k) (2 ^ 16)).
  pose proof (Z.mod_le (len k) (2 ^ 16) (len_nonneg k)).
  pose proof (take_drop (Z.to_nat (len k mod 2 ^ 16)) k) as Hsplit.
  unfold rd_bind. rewrite <- Hsplit at 2. rewrite read_key_raw.
  - by destruct (from_utf8 _).
  - unfold wrap. lia.
  - unfold wrap, len in *. rewrite length_take. lia.
Qed.

Definition long_key : str := repeat Byte.x61 (Z.to_nat 65539).

Lemma read_key_truncated_witness :
  exists frame, encode_command (CRead long_key) = Ok frame /\
    decode_input_frame frame
      = rmap CRead (from_utf8 (take (Z.to_nat (len long_key mod 2 ^ 16)) long_key)).
Proof. apply read_key_truncated. vm_compute. reflexivity. Defined.
