(* ===== verification/Cli.v ===== *)
(** * The client's command line (src/src/cli.rs)

    [parse_command] turns a line into a command. The grammar it accepts, the
    lines that give a command back, and the commands it can produce. *)

From S2P Require Import Prelude Utf8 Text Words Bffp.

Inductive ParseResult :=
  | PCmd (c : Command)
  | PQuit
  | PInvalidInput (msg : str).

(** The arms that take a single key. *)
Definition one_key (cmd : str -> Command) (usage : str) (args : list str) : ParseResult :=
  match args with
  | [k] => PCmd (cmd k)
  | _ => PInvalidInput usage
  end.

Definition parse_write (args : list str) : ParseResult :=
  match args with
  | k :: ((_ :: _) as v) => PCmd (CWrite k (join (bs " ") v) None)
  | _ => PInvalidInput (bs "Usage: WRITE <key> <value>")
  end.

Definition parse_mget (args : list str) : ParseResult :=
  match args with
  | [] => PInvalidInput (bs "Usage: MGET <key1> <key2> <keyn>")
  | _ :: _ => PCmd (CMget args)
  end.

Definition parse_mset (args : list str) : ParseResult :=
  match args with
  | _ :: _ :: _ => PCmd (CMset (map (fun '(k, v) => (k, v, None)) (pairs args)))
  | _ => PInvalidInput (bs "Usage: MSET <key1> <value1> <keyn> <valuen>")
  end.

Definition parse_range (args : list str) : ParseResult :=
  match args with
  | [s; e] => PCmd (CRange s e)
  | _ => PInvalidInput (bs "Usage: RANGE <start> <end>")
  end.

Definition parse_ttl (args : list str) : ParseResult :=
  match args with
  | [k; n] =>
      match parse_uint 32 n with
      | Some expiry => PCmd (CTtl k expiry)
      | None => PInvalidInput (bs "Invalid expiry time")
      end
  | _ => PInvalidInput (bs "Usage: TTL <key> <seconds>")
  end.

Definition parse_writettl (args : list str) : ParseResult :=
  match args with
  | k :: n :: ((_ :: _) as v) =>
      match parse_uint 32 n with
      | Some expiry =>
          if expiry =? 0
          then PInvalidInput (bs "Usage: WRITETTL <key> <seconds> <value> (seconds must be >= 1)")
          else PCmd (CWrite k (join (bs " ") v) (Some expiry))
      | None => PInvalidInput (bs "Invalid expiry time")
      end
  | _ => PInvalidInput (bs "Usage: WRITETTL <key> <seconds> <value>")
  end.

Definition parse_mwritettl (args : list str) : ParseResult :=
  match args with
  | n :: ((_ :: _ :: _) as items) =>
      if negb (Nat.even (length items))
      then PInvalidInput (bs "Usage: MWRITETTL <seconds> <key1> <value1> <keyn> <valuen>")
      else
      match parse_uint 32 n with
      | Some expiry =>
          if expiry =? 0
          then PInvalidInput (bs "Usage: MWRITETTL <seconds> <key1> <value1> <keyn> <valuen> (seconds must be >= 1)")
          else PCmd (CMset (map (fun '(k, v) => (k, v, Some expiry)) (pairs items)))
      | None => PInvalidInput (bs "Invalid expiry time")
      end
  | _ => PInvalidInput (bs "Usage: MWRITETTL <seconds> <key1> <value1> <keyn> <valuen>")
  end.

Inductive Verb :=
  | VWrite | VRead | VDelete | VExists | VCompact | VStats | VList | VPing | VQuit
  | VMget | VMset | VRange | VTtl | VWritettl | VMwritettl.

Definition verb_name (v : Verb) : str :=
  match v with
  | VWrite => bs "WRITE" | VRead => bs "READ" | VDelete => bs "DELETE" | VExists => bs "EXISTS"
  | VCompact => bs "COMPACT" | VStats => bs "STATS" | VList => bs "LIST" | VPing => bs "PING"
  | VQuit => bs "QUIT" | VMget => bs "MGET" | VMset => bs "MSET" | VRange => bs "RANGE"
  | VTtl => bs "TTL" | VWritettl => bs "WRITETTL" | VMwritettl => bs "MWRITETTL"
  end.

Definition verbs : list Verb :=
  [VWrite; VRead; VDelete; VExists; VCompact; VStats; VList; VPing; VQuit; VMget; VMset; VRange;
   VTtl; VWritettl; VMwritettl].

(** The arm of the [match] a word selects. *)
Definition verb_of (word : str) : option Verb :=
  find (fun v => bool_decide (to_uppercase word = verb_name v)) verbs.

Definition parse_verb (v : Verb) (args : list str) : ParseResult :=
  match v with
  | VWrite => parse_write args
  | VRead => one_key CRead (bs "Usage: READ <key>") args
  | VDelete => one_key CDelete (bs "Usage: DELETE <key>") args
  | VExists => one_key CExists (bs "Usage: EXISTS <key>") args
  | VCompact => PCmd CCompact
  | VStats => PCmd CStats
  | VList => PCmd CList
  | VPing => PCmd CPing
  | VQuit => PQuit
  | VMget => parse_mget args
  | VMset => parse_mset args
  | VRange => parse_range args
  | VTtl => parse_ttl args
  | VWritettl => parse_writettl args
  | VMwritettl => parse_mwritettl args
  end.

Definition parse_command (line : str) : ParseResult :=
  match split_whitespace line with
  | [] => PInvalidInput []
  | w :: args =>
      match verb_of w with
      | Some v => parse_verb v args
      | None => PInvalidInput (bs "Unknown command: " ++ w)
      end
  end.

(** Case analysis on what the arguments of a verb are parsed to. *)
Ltac parse_cases H := cbn [parse_verb] in H;
  unfold parse_write, one_key, parse_mget, parse_mset, parse_range, parse_ttl, parse_writettl,
    parse_mwritettl in H; repeat case_match; simplify_eq.

(** ** The grammar *)

Definition flatten {A} (l : list (A * A)) : list A := concat (map (fun '(a, b) => [a; b]) l).

Definition with_ttl (t : option Z) (its : list (str * str)) : list (str * str * option Z) :=
  map (fun '(k, v) => (k, v, t)) its.

(** What the words of a line after its verb mean. *)
Inductive arguments : Verb -> list str -> Command -> Prop :=
  | a_write k v : v <> [] -> arguments VWrite (k :: v) (CWrite k (join (bs " ") v) None)
  | a_read k : arguments VRead [k] (CRead k)
  | a_delete k : arguments VDelete [k] (CDelete k)
  | a_exists k : arguments VExists [k] (CExists k)
  | a_compact args : arguments VCompact args CCompact
  | a_stats args : arguments VStats args CStats
  | a_list args : arguments VList args CList
  | a_ping args : arguments VPing args CPing
  | a_mget ks : ks <> [] -> arguments VMget ks (CMget ks)
  | a_mset its extra : its <> [] -> (length extra <= 1)%nat ->
      arguments VMset (flatten its ++ extra) (CMset (with_ttl None its))
  | a_range s e : arguments VRange [s; e] (CRange s e)
  | a_ttl k n t : parse_uint 32 n = Some t -> arguments VTtl [k; n] (CTtl k t)
  | a_writettl k n t v : parse_uint 32 n = Some t -> 0 < t -> v <> [] ->
      arguments VWritettl (k :: n :: v) (CWrite k (join (bs " ") v) (Some t))
  | a_mwritettl n t its : parse_uint 32 n = Some t -> 0 < t -> its <> [] ->
      arguments VMwritettl (n :: flatten its) (CMset (with_ttl (Some t) its)).

(** ** The words of a command *)

(** The lines a user types for a command: the value of a write is given by
    its words, seconds are at least one, and one lifetime serves all pairs. *)
Inductive phrase : Command -> list str -> Prop :=
  | ph_read k : phrase (CRead k) [bs "READ"; k]
  | ph_write k v : v <> [] -> phrase (CWrite k (join (bs " ") v) None) (bs "WRITE" :: k :: v)
  | ph_writettl k v t : v <> [] -> is_u32 t -> t <> 0 ->
      phrase (CWrite k (join (bs " ") v) (Some t)) (bs "WRITETTL" :: k :: dec t :: v)
  | ph_delete k : phrase (CDelete k) [bs "DELETE"; k]
  | ph_compact : phrase CCompact [bs "COMPACT"]
  | ph_stats : phrase CStats [bs "STATS"]
  | ph_list : phrase CList [bs "LIST"]
  | ph_exists k : phrase (CExists k) [bs "EXISTS"; k]
  | ph_ping : phrase CPing [bs "PING"]
  | ph_mget ks : ks <> [] -> phrase (CMget ks) (bs "MGET" :: ks)
  | ph_mset its : its <> [] -> phrase (CMset (with_ttl None its)) (bs "MSET" :: flatten its)
  | ph_mwritettl its t : its <> [] -> is_u32 t -> t <> 0 ->
      phrase (CMset (with_ttl (Some t) its)) (bs "MWRITETTL" :: dec t :: flatten its)
  | ph_range s e : phrase (CRange s e) [bs "RANGE"; s; e]
  | ph_ttl k t : is_u32 t -> phrase (CTtl k t) [bs "TTL"; k; dec t].

(** ** Lemmas *)

Lemma flatten_cons {A} (p : A * A) l : flatten (p :: l) = p.1 :: p.2 :: flatten l.
Proof. by destruct p. Qed.

Lemma pairs_flatten {A} (l : list (A * A)) extra :
  (length extra <= 1)%nat -> pairs (flatten l ++ extra) = l.
Proof.
  intros He. induction l as [|[a b] l IH].
  - by destruct extra as [|x [|y extra]]; [| | cbn in He; lia].
  - rewrite flatten_cons. cbn. by rewrite IH.
Qed.

Lemma pairs_spec {A} (l : list A) :
  exists extra, l = flatten (pairs l) ++ extra /\ length extra = (length l mod 2)%nat.
Proof.
  assert (H : forall n (l : list A), (length l <= n)%nat ->
    exists extra, l = flatten (pairs l) ++ extra /\ length extra = (length l mod 2)%nat).
  { induction n as [|n IH]; intros [|a [|b k]] Hn; cbn in Hn; try lia;
      [by exists [] | by exists [] | by exists [a] |].
    destruct (IH k) as (x & E & Hx); [lia|]. exists x. cbn [pairs].
    split; [rewrite flatten_cons; cbn [app fst snd]; by rewrite <- E|].
    rewrite Hx. cbn [length]. replace (S (S (length k))) with (length k + 1 * 2)%nat by lia.
    by rewrite Nat.Div0.mod_add. }
  by eapply H.
Qed.

Lemma length_flatten {A} (l : list (A * A)) : length (flatten l) = (2 * length l)%nat.
Proof. induction l as [|p l IH]; [done|]. rewrite flatten_cons. cbn [length]. lia. Qed.

Lemma verb_of_name v w : to_uppercase w = verb_name v -> verb_of w = Some v.
Proof. intros E. unfold verb_of. rewrite E. by destruct v. Qed.

Lemma verb_of_Some w v : verb_of w = Some v <-> to_uppercase w = verb_name v.
Proof.
  split; [|apply verb_of_name]. unfold verb_of. intros H. apply find_some in H as [_ H].
  by apply bool_decide_eq_true in H.
Qed.

Lemma pairs_odd {A} (a b : A) l :
  exists p its extra, a :: b :: l = flatten (p :: its) ++ extra /\ pairs (a :: b :: l) = p :: its /\
    length extra = (length (a :: b :: l) mod 2)%nat.
Proof.
  destruct (pairs_spec (a :: b :: l)) as (x & E & Hx). cbn [pairs] in E.
  by exists (a, b), (pairs l), x.
Qed.

Lemma mset_arguments a b l :
  arguments VMset (a :: b :: l) (CMset (with_ttl None (pairs (a :: b :: l)))).
Proof.
  destruct (pairs_odd a b l) as (p & its & x & E & -> & Hx). rewrite E. constructor; [done|].
  rewrite Hx. pose proof (Nat.mod_upper_bound (length (a :: b :: l)) 2). lia.
Qed.

Lemma mwritettl_arguments n t a b l :
  parse_uint 32 n = Some t -> t <> 0 -> Nat.even (length (a :: b :: l)) = true ->
  arguments VMwritettl (n :: a :: b :: l) (CMset (with_ttl (Some t) (pairs (a :: b :: l)))).
Proof.
  intros Hn Ht He. destruct (pairs_odd a b l) as (p & its & x & E & -> & Hx).
  assert (x = []) as ->.
  { apply length_zero_iff_nil. rewrite Hx. apply Nat.even_spec in He as [k ->].
    by rewrite Nat.mul_comm, Nat.Div0.mod_mul. }
  rewrite app_nil_r in E. rewrite E. apply parse_uint_nonneg in Hn as Hp. constructor; [done | lia | done].
Qed.

Lemma parse_verb_sound v args c : parse_verb v args = PCmd c -> arguments v args c.
Proof.
  intros H. destruct v; parse_cases H; try (by constructor).
  - apply mset_arguments.
  - constructor; [done | | done].
    match goal with H : parse_uint _ _ = Some _ |- _ => apply parse_uint_nonneg in H end. lia.
  - apply mwritettl_arguments; [done | lia |].
    match goal with H : negb _ = false |- _ => by apply negb_false_iff in H end.
Qed.

Lemma parse_verb_complete v args c : arguments v args c -> parse_verb v args = PCmd c.
Proof.
  destruct 1 as [k [|w v] Hv| | | | | | |
    |[|k ks] Hk|[|p its] extra Hi He| |k n t Hn|k n t [|w v] Hn Ht Hv|n t [|p its] Hn Ht Hi]; try done.
  - rewrite flatten_cons. cbn [app parse_verb parse_mset].
    change (p.1 :: p.2 :: flatten its ++ extra) with ((p.1 :: p.2 :: flatten its) ++ extra).
    by rewrite <- flatten_cons, pairs_flatten.
  - cbn. by rewrite Hn.
  - cbn [parse_verb parse_writettl]. by rewrite Hn, (proj2 (Z.eqb_neq _ _)) by lia.
  - rewrite flatten_cons. cbn [parse_verb parse_mwritettl]. rewrite <- flatten_cons, length_flatten.
    rewrite Nat.even_mul. cbn [Nat.even orb negb]. rewrite Hn, (proj2 (Z.eqb_neq _ _)) by lia.
    pose proof (pairs_flatten (p :: its) [] ltac:(cbn; lia)) as E. rewrite app_nil_r in E. by rewrite E.
Qed.

Lemma parse_verb_quit v args : parse_verb v args = PQuit -> v = VQuit.
Proof.
  intros H. by destruct v; parse_cases H.
Qed.

Lemma parse_verb_message v args : parse_verb v args <> PInvalidInput [].
Proof.
  intros H. by destruct v; parse_cases H.
Qed.

Lemma parse_command_arguments line c :
  parse_command line = PCmd c <->
  exists w args v, split_whitespace line = w :: args /\ to_uppercase w = verb_name v /\
    arguments v args c.
Proof.
  unfold parse_command. destruct (split_whitespace line) as [|w args].
  { split; [done|]. by intros (? & ? & ? & ? & _). }
  split.
  - destruct (verb_of w) as [v|] eqn:E; [|done]. apply verb_of_Some in E.
    intros H. exists w, args, v. by split_and!; [| |apply parse_verb_sound].
  - intros (? & ? & v & [= <- <-] & Hw & Ha). rewrite (verb_of_name v) by done.
    by apply parse_verb_complete.
Qed.

(** *** The size of a command *)

(** The bytes of the words, each with a space. *)
Definition spaced (ws : list str) : Z := sum_len (fun w => len w + 1) ws.

Lemma spaced_cons w ws : spaced (w :: ws) = len w + 1 + spaced ws.
Proof. exact (sum_len_cons (fun w => len w + 1) w ws). Qed.

Lemma spaced_nonneg ws : 0 <= spaced ws.
Proof.
  induction ws as [|w ws IH]; [done|]. rewrite spaced_cons. pose proof (len_nonneg w). lia.
Qed.

Lemma spaced_app a b : spaced (a ++ b) = spaced a + spaced b.
Proof. induction a as [|w a IH]; [done|]. cbn [app]. rewrite !spaced_cons. lia. Qed.

Lemma spaced_join ws : ws <> [] -> spaced ws = len (join (bs " ") ws) + 1.
Proof.
  induction ws as [|w ws IH]; [done|]. intros _. rewrite spaced_cons.
  destruct ws as [|w' ws]; [cbn; lia|]. rewrite IH, join_cons, !len_app by done.
  change (len (bs " ")) with 1. lia.
Qed.

Lemma put_keys_len ks : len (concat (map put_key ks)) <= 6 * spaced ks.
Proof.
  induction ks as [|k ks IH]; [done|]. cbn [map concat]. rewrite len_app, put_key_len, spaced_cons.
  pose proof (len_nonneg k). lia.
Qed.

Lemma put_item_le k v t : len (put_item (k, v, t)) <= 6 * spaced [k; v].
Proof.
  rewrite put_item_len, !spaced_cons. change (spaced []) with 0.
  pose proof (len_nonneg k). pose proof (len_nonneg v). unfold ttl_size, TTL_LEN_SIZE. destruct t; lia.
Qed.

Lemma put_items_len t its : len (concat (map put_item (with_ttl t its))) <= 6 * spaced (flatten its).
Proof.
  induction its as [|[k v] its IH]; [done|]. cbn [with_ttl map concat]. rewrite len_app, flatten_cons.
  pose proof (put_item_le k v t) as H. rewrite !spaced_cons in *. cbn [fst snd] in *.
  change (spaced []) with 0 in H. unfold with_ttl in IH. lia.
Qed.

Lemma arguments_size v args c : arguments v args c -> len (command_body c) <= 6 * spaced args.
Proof.
  intros Ha. destruct Ha as [k ws Hv|k|k|k|args|args|args|args|ks _|its extra _ _|s e|k n t _|
    k n t ws _ _ Hv|n t its _ _ _]; cbn [command_body];
    rewrite ?put_key_len, ?len_app, ?put_key_len, ?spaced_cons; change (spaced []) with 0;
    try (pose proof (len_nonneg k)); try (change (len []) with 0; pose proof (spaced_nonneg args); lia);
    try lia.
  - pose proof (put_item_le k (join (bs " ") ws) None) as Hp. rewrite !spaced_cons in Hp.
    rewrite spaced_join by done. change (spaced []) with 0 in Hp. lia.
  - apply put_keys_len.
  - rewrite spaced_app. pose proof (spaced_nonneg extra). pose proof (put_items_len None its). lia.
  - pose proof (len_nonneg s). pose proof (len_nonneg e). lia.
  - simp_len. pose proof (len_nonneg n). cbn. lia.
  - pose proof (put_item_le k (join (bs " ") ws) (Some t)) as Hp. rewrite !spaced_cons in Hp.
    rewrite spaced_join by done. change (spaced []) with 0 in Hp. pose proof (len_nonneg n). lia.
  - pose proof (put_items_len (Some t) its). pose proof (len_nonneg n). lia.
Qed.

Lemma arguments_ok v args c :
  arguments v args c -> Forall is_word args -> Forall (fun w => len w < 2 ^ 16) args ->
  spaced args < 2 ^ 28 -> command_ok c.
Proof.
  intros Ha Hw Hl Hs.
  assert (Hkey : Forall key_ok args).
  { rewrite Forall_forall in *. intros w Hin. split; [by apply word_valid, Hw | by apply Hl]. }
  assert (Hval : forall w, key_ok w -> val_ok w) by (intros w [? ?]; split; [done | lia]).
  assert (Hjoin : forall ws, Forall is_word ws -> spaced ws < 2 ^ 28 -> ws <> [] -> val_ok (join (bs " ") ws)).
  { intros ws Hws Hlen Hne. split; [by apply join_valid|]. rewrite spaced_join in Hlen by done. lia. }
  assert (Hits : forall t its, ttl_ok t -> Forall key_ok (flatten its) -> Forall item_ok (with_ttl t its)).
  { intros t its Ht. induction its as [|[k x] its IH]; [constructor|]. rewrite flatten_cons.
    intros Hk. inversion_clear Hk as [|? ? H1 Hk']. inversion_clear Hk' as [|? ? H2 H3].
    constructor; [split_and!; auto | by apply IH]. }
  destruct Ha as [k ws Hv|k|k|k|args|args|args|args|ks _|its extra _ _|s e|k n t Hn|
    k n t ws Hn _ Hv|n t its Hn _ _]; cbn [command_ok]; rewrite ?Forall_cons in *;
    rewrite ?spaced_cons in Hs; try done; try (by apply Hkey).
  - pose proof (len_nonneg k). split_and!; [by apply Hkey | apply Hjoin; [apply Hw | lia | done] | done].
  - apply Hits; [done|]. by apply Forall_app in Hkey as [? _].
  - split; [by apply Hkey | by apply Hkey].
  - split; [by apply Hkey | by eapply parse_uint_range].
  - pose proof (len_nonneg k). pose proof (len_nonneg n).
    split_and!; [by apply Hkey | apply Hjoin; [apply Hw | lia | done] | by eapply parse_uint_range].
  - apply Hits; [by eapply parse_uint_range | by apply Hkey].
Qed.

Lemma parsed_size line c :
  utf8_valid line = true -> parse_command line = PCmd c -> len (command_body c) <= 6 * len line.
Proof.
  intros Hv Hp. apply parse_command_arguments in Hp as (w & args & v & E & _ & Ha).
  pose proof (proj1 (split_whitespace_typed line _ Hv) E) as Ht.
  pose proof (typed_words _ _ Ht) as Hw. apply typed_len in Ht. apply Forall_cons in Hw as [Hw _].
  pose proof (arguments_size _ _ _ Ha). pose proof (spaced_join (w :: args) ltac:(done)) as H1.
  rewrite spaced_cons in H1. pose proof (len_nonneg w). lia.
Qed.

Lemma parsed_well_formed line c :
  utf8_valid line = true -> len line < 2 ^ 28 ->
  Forall (fun w => len w < 2 ^ 16) (split_whitespace line) ->
  parse_command line = PCmd c -> command_ok c /\ frame_fits c /\ exists frame, encode_command c = Ok frame.
Proof.
  intros Hv Hl Hs Hp.
  apply parse_command_arguments in Hp as (w & args & v & E & _ & Ha).
  pose proof (proj1 (split_whitespace_typed line _ Hv) E) as Ht.
  pose proof (typed_words _ _ Ht) as Hw. apply typed_len in Ht. rewrite E in Hs.
  apply Forall_cons in Hw as [Hw0 Hw]. apply Forall_cons in Hs as [_ Hs].
  assert (Hsp : spaced args < 2 ^ 28).
  { pose proof (spaced_join (w :: args) ltac:(done)) as H. rewrite spaced_cons in H.
    assert (0 < len w) by (destruct w; [by destruct Hw0 | unfold len; cbn; lia]). lia. }
  pose proof (arguments_ok _ _ _ Ha Hw Hs Hsp) as Hok.
  assert (Hf : frame_fits c) by (unfold frame_fits; pose proof (arguments_size _ _ _ Ha); lia).
  split_and!; [done | done |]. eexists. by apply encode_command_frame.
Qed.

Lemma parse_phrase c ws line :
  phrase c ws -> typed ws line -> parse_command line = PCmd c.
Proof.
  intros Hp Ht. apply typed_split in Ht.
  assert (Hdec : forall t, is_u32 t -> parse_uint 32 (dec t) = Some t).
  { intros t Ht'. apply parse_dec; unfold is_uint in *; lia. }
  apply parse_command_arguments. rewrite Ht. clear Ht.
  assert (Hu : forall v c args, arguments v args c ->
    exists w args' v', verb_name v :: args = w :: args' /\ to_uppercase w = verb_name v' /\
      arguments v' args' c).
  { intros v c' args Ha. exists (verb_name v), args, v. split_and!; [done | by destruct v | done]. }
  destruct Hp;
    first [ apply (Hu VRead) | apply (Hu VWrite) | apply (Hu VWritettl) | apply (Hu VDelete)
          | apply (Hu VCompact) | apply (Hu VStats) | apply (Hu VList) | apply (Hu VExists)
          | apply (Hu VPing) | apply (Hu VMget) | apply (Hu VMset) | apply (Hu VMwritettl)
          | apply (Hu VRange) | apply (Hu VTtl) ]; try (by constructor).
  - constructor; [by apply Hdec | unfold is_uint in *; lia | done].
  - rewrite <- (app_nil_r (flatten its)). by apply a_mset; [|cbn; lia].
  - constructor; [by apply Hdec | unfold is_uint in *; lia | done].
  - constructor. by apply Hdec.
Qed.

(** ** Theorems *)

(** C28: The parser accepts exactly the grammar: a line gives a command when its
    first word is a verb, in any case, and the words after it are arguments of
    that verb, and it gives no other command. [QUIT] leaves whatever follows
    it. *)
Theorem parse_command_grammar line c :
  (parse_command line = PCmd c <->
   exists w args v, split_whitespace line = w :: args /\ to_uppercase w = verb_name v /\
     arguments v args c) /\
  (parse_command line = PQuit <->
   exists w args, split_whitespace line = w :: args /\ to_uppercase w = bs "QUIT").
Proof.
  split; [apply parse_command_arguments|]. unfold parse_command.
  destruct (split_whitespace line) as [|w args]; split; try done; [by intros (? & ? & ? & _) | |].
  - destruct (verb_of w) as [v|] eqn:E; [|done]. apply verb_of_Some in E. intros H.
    apply parse_verb_quit in H as ->. by exists w, args.
  - intros (? & ? & [= <- <-] & Hw). by rewrite (verb_of_name VQuit).
Qed.

(** A command is read back from any line its words are typed in. *)
Theorem parse_command_roundtrip c ws line :
  phrase c ws -> typed ws line -> parse_command line = PCmd c.
Proof. apply parse_phrase. Qed.

(** C29: The commands of the parser are well-formed: from a line of valid UTF-8
    below 2^28 bytes whose words are below 2^16 bytes it makes a command whose
    keys, values and lifetimes fit the fields of the protocol and whose frame
    fits its length prefix; the encoder does not panic on it. *)
Theorem parse_command_well_formed line c :
  utf8_valid line = true -> len line < 2 ^ 28 ->
  Forall (fun w => len w < 2 ^ 16) (split_whitespace line) ->
  parse_command line = PCmd c -> command_ok c /\ frame_fits c /\ exists frame, encode_command c = Ok frame.
Proof. apply parsed_well_formed. Qed.

(** C38: Refusals. A line is answered with silence exactly when it has no words;
    any other line is refused, with a message, exactly when it is not QUIT and
    its words are no command of the grammar. Nothing is sent for it. *)
Theorem parse_command_refuses line :
  (parse_command line = PInvalidInput [] <-> split_whitespace line = []) /\
  forall w args, split_whitespace line = w :: args ->
    ((exists msg, parse_command line = PInvalidInput msg /\ msg <> []) <->
     to_uppercase w <> bs "QUIT" /\ forall v c, to_uppercase w = verb_name v -> ~ arguments v args c).
Proof.
  unfold parse_command. destruct (split_whitespace line) as [|w0 args0]; [by split|]. split.
  { split; [|done]. destruct (verb_of w0) as [v|]; [|done]. intros H. by apply parse_verb_message in H. }
  intros w args [= <- <-]. destruct (verb_of w0) as [v|] eqn:Ev.
  - apply verb_of_Some in Ev. split.
    + intros (msg & Hm & _). split.
      * intros Eq. rewrite Ev in Eq. destruct v; try done.
      * intros v' c Ev' Ha. assert (v' = v) as -> by (apply verb_of_Some in Ev, Ev'; congruence).
        apply parse_verb_complete in Ha. congruence.
    + intros [Hq Hno]. destruct (parse_verb v args0) as [c| |msg] eqn:Ep.
      * apply parse_verb_sound in Ep. by destruct (Hno v c Ev).
      * apply parse_verb_quit in Ep as ->. done.
      * exists msg. split; [done|]. intros ->. by apply parse_verb_message in Ep.
  - split; [|by intros _; eexists; split]. intros _. split.
    + intros Eq. by rewrite (verb_of_name VQuit) in Ev.
    + intros v c Ev' _. by rewrite (verb_of_name v) in Ev.
Qed.

Lemma parse_command_roundtrip_witness :
  parse_command (bs "  MWRITETTL 60   k1 v1 k2	v2 ")
    = PCmd (CMset [(bs "k1", bs "v1", Some 60); (bs "k2", bs "v2", Some 60)]).
Proof.
  apply (parse_command_roundtrip _
    (bs "MWRITETTL" :: dec 60 :: flatten [(bs "k1", bs "v1"); (bs "k2", bs "v2")])).
  - apply (ph_mwritettl [(bs "k1", bs "v1"); (bs "k2", bs "v2")] 60); [done | by split | done].
  - apply split_whitespace_typed; reflexivity.
Defined.

Lemma parse_command_well_formed_witness :
  command_ok (CWrite (bs "k") (bs "a b") (Some 5)) /\ frame_fits (CWrite (bs "k") (bs "a b") (Some 5)) /\
  exists frame, encode_command (CWrite (bs "k") (bs "a b") (Some 5)) = Ok frame.
Proof.
  apply (parse_command_well_formed (bs "writettl k 5 a b")); [reflexivity | reflexivity | | reflexivity].
  by repeat constructor.
Defined.
