(* ===== verification/Connection.v ===== *)
(** * Connections

    [src/src/server/connection.rs]: the incremental frame parser, and the two
    event handlers that move bytes between a non-blocking socket and the
    buffers of a connection. The socket itself belongs to the operating
    system: each handler takes the outcomes of its successive system calls as
    a list, an exhausted list being a socket that would block. *)

From S2P Require Import Prelude Record Bffp.

Definition MAX_REQUEST_BYTES : Z := MAX_KEY_SIZE + MAX_VALUE_SIZE + 1024.
Definition LEN_PREFIX_BYTES : Z := 4.
Definition READ_BUFFER_BYTES : Z := 4096.

Inductive ParseState := AwaitingLength | AwaitingBody (n : Z).

Inductive ConnectionAction := Continue | Close.

#[export] Instance ConnectionAction_eq_dec : EqDecision ConnectionAction.
Proof. solve_decision. Defined.

(** ** The frame parser *)

Record FrameParser := mkFrameParser {
  state : ParseState;
  buf : bytes;
}.

Definition parser_new : FrameParser := mkFrameParser AwaitingLength [].

(** The outcome of a call that mutates the parser and the vector of commands
    parsed so far: both keep their updates when the call fails. Every frame
    takes two turns of the loop and at least four bytes of the buffer, so the
    fuel [advance_fuel] is enough ([run_no_panic]). *)
Fixpoint advance (fuel : nat) (p : FrameParser) (parsed : list Command)
    : FrameParser * list Command * result ConnectionAction :=
  match fuel with
  | O => (p, parsed, Panic)
  | S fuel =>
      match state p with
      | AwaitingLength =>
          if LEN_PREFIX_BYTES <=? len (buf p) then
            let n := from_be (take (Z.to_nat LEN_PREFIX_BYTES) (buf p)) in
            if MAX_REQUEST_BYTES <? n then (p, parsed, Ok Close)
            else advance fuel (mkFrameParser (AwaitingBody n) (buf p)) parsed
          else (p, parsed, Ok Continue)
      | AwaitingBody n =>
          if LEN_PREFIX_BYTES + n <=? len (buf p) then
            let total := Z.to_nat (LEN_PREFIX_BYTES + n) in
            match decode_input_frame (take total (buf p)) with
            | Ok cmd =>
                advance fuel (mkFrameParser AwaitingLength (drop total (buf p)))
                  (parsed ++ [cmd])
            | Err e => (p, parsed, Err e)
            | Panic => (p, parsed, Panic)
            end
          else (p, parsed, Ok Continue)
      end
  end.

Definition advance_fuel (p : FrameParser) : nat := 2 * length (buf p) + 2.

Definition feed (p : FrameParser) (chunk : bytes)
    : FrameParser * result (list Command * ConnectionAction) :=
  let p1 := mkFrameParser (state p) (buf p ++ chunk) in
  let '(p2, parsed, r) := advance (advance_fuel p1) p1 [] in
  (p2, let? action := r in Ok (parsed, action)).

(** ** Connections *)

Record Connection := mkConnection {
  parser : FrameParser;
  write_buf : bytes;
  write_offset : Z;
  last_activity : Z;
  pending_close : bool;
}.

Definition connection_new (now : Z) : Connection :=
  mkConnection parser_new [] 0 now false.

Definition with_parser (c : Connection) (p : FrameParser) : Connection :=
  mkConnection p (write_buf c) (write_offset c) (last_activity c) (pending_close c).
Definition with_activity (c : Connection) (now : Z) : Connection :=
  mkConnection (parser c) (write_buf c) (write_offset c) now (pending_close c).
Definition with_writes (c : Connection) (wb : bytes) (off : Z) : Connection :=
  mkConnection (parser c) wb off (last_activity c) (pending_close c).
Definition with_pending_close (c : Connection) : Connection :=
  mkConnection (parser c) (write_buf c) (write_offset c) (last_activity c) true.

(** The outcome of a [read] into the 4096-byte buffer: bytes at an instant
    (none at the end of the stream), or an error of one of the kinds the
    handlers distinguish. *)
Inductive ReadEvent :=
  | RdBytes (now : Z) (chunk : bytes)
  | RdWouldBlock
  | RdInterrupted
  | RdErr (e : ErrorKind).

Fixpoint on_readable_loop (c : Connection) (all_parsed : list Command)
    (reads : list ReadEvent)
    : Connection * result (list Command * ConnectionAction) :=
  match reads with
  | [] | RdWouldBlock :: _ => (c, Ok (all_parsed, Continue))
  | RdInterrupted :: reads' => on_readable_loop c all_parsed reads'
  | RdErr e :: _ => (c, Err e)
  | RdBytes now chunk :: reads' =>
      if len chunk =? 0 then (c, Ok (all_parsed, Close))
      else
        let c1 := with_activity c now in
        let '(p, r) := feed (parser c1) chunk in
        let c2 := with_parser c1 p in
        match r with
        | Ok (parsed, Close) => (c2, Ok (all_parsed ++ parsed, Close))
        | Ok (parsed, Continue) => on_readable_loop c2 (all_parsed ++ parsed) reads'
        | Err e => (c2, Err e)
        | Panic => (c2, Panic)
        end
  end.

Definition on_readable (c : Connection) (reads : list ReadEvent)
    : Connection * result (list Command * ConnectionAction) :=
  on_readable_loop c [] reads.

(** The outcome of a [write]: how many of the offered bytes the socket took. *)
Inductive WriteEvent :=
  | WrBytes (n : Z)
  | WrWouldBlock
  | WrInterrupted
  | WrErr (e : ErrorKind).

(** [on_writable], with the bytes the socket has taken. *)
Fixpoint on_writable (c : Connection) (sent : bytes) (writes : list WriteEvent)
    : Connection * bytes * result unit :=
  if len (write_buf c) <=? write_offset c then (with_writes c [] 0, sent, Ok tt)
  else
    match writes with
    | [] | WrWouldBlock :: _ => (c, sent, Ok tt)
    | WrInterrupted :: writes' => on_writable c sent writes'
    | WrErr e :: _ => (c, sent, Err e)
    | WrBytes n :: writes' =>
        if n =? 0 then (c, sent, Ok tt)
        else
          let offered := drop (Z.to_nat (write_offset c)) (write_buf c) in
          on_writable (with_writes c (write_buf c) (write_offset c + n))
            (sent ++ take (Z.to_nat n) offered) writes'
    end.

Definition enqueue_response (c : Connection) (resp : bytes) : Connection :=
  with_writes c (write_buf c ++ resp) (write_offset c).

Definition has_pending_writes (c : Connection) : bool :=
  write_offset c <? len (write_buf c).

(** The bytes still to be sent. *)
Definition pending (c : Connection) : bytes :=
  drop (Z.to_nat (write_offset c)) (write_buf c).

(** A socket takes at most what it is offered. *)
Fixpoint writes_ok (left : Z) (writes : list WriteEvent) : Prop :=
  match writes with
  | WrBytes n :: writes' => 0 <= n <= left /\ writes_ok (left - n) writes'
  | _ :: writes' => writes_ok left writes'
  | [] => True
  end.

Definition conn_wf (c : Connection) : Prop :=
  0 <= write_offset c <= len (write_buf c).

(** ** Lemmas: the parser loop *)

(** The length a parser waits for was read from the wire and accepted. *)
Definition parser_wf (p : FrameParser) : Prop :=
  match state p with
  | AwaitingLength => True
  | AwaitingBody n => 0 <= n <= MAX_REQUEST_BYTES
  end.

Definition measure (p : FrameParser) : nat :=
  2 * length (buf p) + match state p with AwaitingLength => 1 | AwaitingBody _ => 0 end.

Definition run (p : FrameParser) : FrameParser * list Command * result ConnectionAction :=
  advance (advance_fuel p) p [].
#[global] Arguments run : simpl never.

(** The parser with more bytes in its buffer. *)
Definition extend (p : FrameParser) (x : bytes) : FrameParser :=
  mkFrameParser (state p) (buf p ++ x).

Lemma extend_wf p x : parser_wf p -> parser_wf (extend p x).
Proof. done. Qed.

Lemma advance_acc fuel p parsed :
  advance fuel p parsed =
    let '(p', q, r) := advance fuel p [] in (p', parsed ++ q, r).
Proof.
  revert p parsed. induction fuel as [|fuel IH]; intros p parsed; cbn [advance].
  { by rewrite app_nil_r. }
  destruct (state p) as [|n].
  - destruct (_ <=? _); [|by rewrite app_nil_r].
    destruct (_ <? _); [by rewrite app_nil_r | apply IH].
  - destruct (_ <=? _); [|by rewrite app_nil_r].
    destruct (decode_input_frame _) as [cmd| |]; try by rewrite app_nil_r.
    rewrite IH, (IH _ ([] ++ [cmd])). destruct (advance _ _ _) as [[??]?].
    by rewrite app_nil_l, <- app_assoc.
Qed.

Lemma measure_drop n b :
  0 <= n -> 4 + n <= len b ->
  (measure (mkFrameParser AwaitingLength (drop (Z.to_nat (4 + n)) b))
    < measure (mkFrameParser (AwaitingBody n) b))%nat.
Proof. intros. unfold measure. cbn. rewrite length_drop. unfold len in *. lia. Qed.

Lemma accepted_wf b :
  (MAX_REQUEST_BYTES <? from_be (take (Z.to_nat LEN_PREFIX_BYTES) b)) = false ->
  parser_wf (mkFrameParser (AwaitingBody (from_be (take (Z.to_nat LEN_PREFIX_BYTES) b))) b).
Proof.
  rewrite Z.ltb_ge. intros. split; [apply from_be_range | done].
Qed.

(** Enough fuel is as good as any other amount. *)
Lemma advance_fuel_irrel f1 f2 p parsed :
  parser_wf p -> (measure p < f1)%nat -> (measure p < f2)%nat ->
  advance f1 p parsed = advance f2 p parsed.
Proof.
  revert f2 p parsed. induction f1 as [|f1 IH]; intros [|f2] [s b] parsed Hw H1 H2; try lia.
  cbn [advance state buf]. destruct s as [|n].
  - destruct (LEN_PREFIX_BYTES <=? len b) eqn:E; [|done].
    destruct (MAX_REQUEST_BYTES <? _) eqn:E2; [done|].
    apply IH; [by apply accepted_wf | |]; unfold measure in *; cbn in *; lia.
  - destruct (LEN_PREFIX_BYTES + n <=? len b) eqn:E; [|done].
    destruct (decode_input_frame _); try done.
    apply Z.leb_le in E. pose proof (measure_drop n b (proj1 Hw) E).
    apply IH; [done | |]; unfold LEN_PREFIX_BYTES in *; lia.
Qed.

Lemma run_fuel f p : parser_wf p -> (measure p < f)%nat -> advance f p [] = run p.
Proof.
  intros. apply advance_fuel_irrel; auto.
  unfold measure, advance_fuel. case_match; lia.
Qed.

Lemma advance_fuel_S p :
  exists f, advance_fuel p = S f /\ f = S (2 * length (buf p)).
Proof. unfold advance_fuel. eexists. split; [|reflexivity]. lia. Qed.

Ltac unfold_run :=
  match goal with
  | |- run ?p = _ =>
      unfold run at 1; destruct (advance_fuel_S p) as (f & Hf1 & Hf2);
      rewrite Hf1; cbn [advance state buf]; cbn [buf] in Hf2
  end.

(** The equations of the loop. *)
Lemma run_short b : len b < 4 -> run (mkFrameParser AwaitingLength b)
  = (mkFrameParser AwaitingLength b, [], Ok Continue).
Proof.
  intros H. unfold_run.
  by rewrite (proj2 (Z.leb_gt _ _)) by exact H.
Qed.

Lemma run_length b :
  4 <= len b ->
  let n := from_be (take (Z.to_nat 4) b) in
  run (mkFrameParser AwaitingLength b) =
    if MAX_REQUEST_BYTES <? n then (mkFrameParser AwaitingLength b, [], Ok Close)
    else run (mkFrameParser (AwaitingBody n) b).
Proof.
  intros H n. unfold_run. rewrite (proj2 (Z.leb_le _ _)) by exact H.
  fold n. unfold LEN_PREFIX_BYTES. fold n. destruct (MAX_REQUEST_BYTES <? n) eqn:E; [done|].
  apply run_fuel; [by apply accepted_wf|]. unfold measure. cbn. lia.
Qed.

Lemma run_waiting n b : len b < 4 + n -> run (mkFrameParser (AwaitingBody n) b)
  = (mkFrameParser (AwaitingBody n) b, [], Ok Continue).
Proof.
  intros H. unfold_run.
  by rewrite (proj2 (Z.leb_gt _ _)) by exact H.
Qed.

Lemma run_frame n b :
  0 <= n -> 4 + n <= len b ->
  run (mkFrameParser (AwaitingBody n) b) =
    match decode_input_frame (take (Z.to_nat (4 + n)) b) with
    | Ok cmd =>
        let '(p', q, r) := run (mkFrameParser AwaitingLength (drop (Z.to_nat (4 + n)) b)) in
        (p', cmd :: q, r)
    | Err e => (mkFrameParser (AwaitingBody n) b, [], Err e)
    | Panic => (mkFrameParser (AwaitingBody n) b, [], Panic)
    end.
Proof.
  intros Hn H. unfold_run. rewrite (proj2 (Z.leb_le _ _)) by exact H.
  unfold LEN_PREFIX_BYTES. destruct (decode_input_frame _); try done.
  rewrite advance_acc, run_fuel; [done | done |].
  pose proof (measure_drop n b Hn H). unfold measure in *. cbn in *. lia.
Qed.

(** Induction along the loop. *)
Lemma measure_ind (P : FrameParser -> Prop) :
  (forall p, (forall q, (measure q < measure p)%nat -> P q) -> P p) -> forall p, P p.
Proof. exact (well_founded_ind (Wf_nat.well_founded_ltof _ measure) P). Qed.

Ltac loop_cases :=
  match goal with
  | Hw : parser_wf (mkFrameParser ?s ?b) |- _ =>
      destruct s as [|n];
      [ destruct (Z.lt_ge_cases (len b) 4) as [Hlen|Hlen]
      | destruct Hw as [Hn Hmax];
        destruct (Z.lt_ge_cases (len b) (4 + n)) as [Hlen|Hlen] ]
  end.

Lemma run_no_panic p : parser_wf p -> no_panic (run p).2.
Proof.
  induction p as [[s b] IH] using measure_ind. intros Hw. loop_cases.
  - by rewrite run_short.
  - rewrite run_length by done. cbn zeta. destruct (MAX_REQUEST_BYTES <? _) eqn:E; [done|].
    apply IH; [unfold measure; cbn; lia | by apply accepted_wf].
  - by rewrite run_waiting.
  - rewrite run_frame by lia. pose proof (decode_total_input (take (Z.to_nat (4 + n)) b)) as Hd.
    destruct (decode_input_frame _); try done.
    specialize (IH (mkFrameParser AwaitingLength (drop (Z.to_nat (4 + n)) b))
                  (measure_drop n b Hn Hlen) I).
    by destruct (run _) as [[??]?].
Qed.

Lemma run_wf p : parser_wf p -> parser_wf (run p).1.1.
Proof.
  induction p as [[s b] IH] using measure_ind. intros Hw. loop_cases.
  - by rewrite run_short.
  - rewrite run_length by done. cbn zeta. destruct (MAX_REQUEST_BYTES <? _) eqn:E; [done|].
    apply IH; [unfold measure; cbn; lia | by apply accepted_wf].
  - rewrite run_waiting by done. by split.
  - rewrite run_frame by lia. destruct (decode_input_frame _); try by split.
    specialize (IH (mkFrameParser AwaitingLength (drop (Z.to_nat (4 + n)) b))
                  (measure_drop n b Hn Hlen) I).
    by destruct (run _) as [[??]?].
Qed.

(** What a parser that waits for more holds is less than one frame. *)
Lemma run_bounded p :
  parser_wf p -> (run p).2 = Ok Continue -> len (buf (run p).1.1) < 4 + MAX_REQUEST_BYTES.
Proof.
  induction p as [[s b] IH] using measure_ind. intros Hw. loop_cases.
  - rewrite run_short by done. cbn. unfold MAX_REQUEST_BYTES, MAX_KEY_SIZE, MAX_VALUE_SIZE. lia.
  - rewrite run_length by done. cbn zeta. destruct (MAX_REQUEST_BYTES <? _) eqn:E; [done|].
    apply IH; [unfold measure; cbn; lia | by apply accepted_wf].
  - rewrite run_waiting by done. cbn. lia.
  - rewrite run_frame by lia. destruct (decode_input_frame _); try done.
    specialize (IH (mkFrameParser AwaitingLength (drop (Z.to_nat (4 + n)) b))
                  (measure_drop n b Hn Hlen) I).
    by destruct (run _) as [[??]?].
Qed.

(** Bytes that arrive later are parsed as if they had been there all along. *)
Lemma run_extend p x p1 c1 :
  parser_wf p -> run p = (p1, c1, Ok Continue) ->
  run (extend p x) = let '(p2, c2, r) := run (extend p1 x) in (p2, c1 ++ c2, r).
Proof.
  revert p1 c1. induction p as [[s b] IH] using measure_ind. intros p1 c1 Hw.
  assert (Hx : forall m, 0 <= m <= len b ->
    take (Z.to_nat m) (b ++ x) = take (Z.to_nat m) b /\
    drop (Z.to_nat m) (b ++ x) = drop (Z.to_nat m) b ++ x).
  { intros m Hm. unfold len in Hm. rewrite take_app_le, drop_app_le by lia. done. }
  pose proof (len_nonneg x). loop_cases.
  - rewrite run_short by done. intros [= <- <-]. by destruct (run _) as [[??]?].
  - rewrite run_length by done. unfold extend. cbn [state buf].
    rewrite (run_length (b ++ x)) by (simp_len; lia). cbn zeta.
    rewrite (proj1 (Hx 4 ltac:(lia))).
    destruct (MAX_REQUEST_BYTES <? _) eqn:E; [done|]. intros Hr.
    apply (IH (mkFrameParser (AwaitingBody _) b)); [unfold measure; cbn; lia | by apply accepted_wf | done].
  - rewrite run_waiting by done. intros [= <- <-]. by destruct (run _) as [[??]?].
  - rewrite run_frame by lia. unfold extend. cbn [state buf].
    rewrite (run_frame n (b ++ x)) by (simp_len; lia).
    destruct (Hx (4 + n) ltac:(lia)) as [-> ->]. destruct (decode_input_frame _); try done.
    specialize (IH (mkFrameParser AwaitingLength (drop (Z.to_nat (4 + n)) b))
                  (measure_drop n b Hn Hlen)).
    destruct (run (mkFrameParser AwaitingLength (drop _ b))) as [[p2 c2] r2] eqn:E.
    intros [= -> <- ->]. specialize (IH _ _ I eq_refl). unfold extend in IH.
    cbn [state buf] in IH. rewrite IH. destruct (run (mkFrameParser (state p1) _)) as [[q2 d2] r2]; reflexivity.
Qed.

Lemma feed_run p x :
  feed p x = let '(p2, parsed, r) := run (extend p x) in
             (p2, let? action := r in Ok (parsed, action)).
Proof. done. Qed.

(** A whole frame at the head of the buffer. *)
Lemma run_one_frame c frame rest :
  command_ok c -> len frame <= 4 + MAX_REQUEST_BYTES -> encode_command c = Ok frame ->
  frame_fits c ->
  run (mkFrameParser AwaitingLength (frame ++ rest)) =
    let '(p', q, r) := run (mkFrameParser AwaitingLength rest) in (p', c :: q, r).
Proof.
  intros Hok Hmax He Hf.
  destruct (encode_frame_len c frame Hok Hf He) as (body & Hfr & Hb).
  assert (Hlen : len frame = 4 + len body) by (rewrite Hfr; simp_len; lia).
  pose proof (len_nonneg rest); pose proof (len_nonneg (command_body c)).
  assert (Hmax' : len body <= MAX_REQUEST_BYTES) by lia.
  rewrite run_length by (simp_len; lia). cbn zeta.
  assert (Hn : from_be (take (Z.to_nat 4) (frame ++ rest)) = len body).
  { rewrite Hfr, <- app_assoc.
    change (Z.to_nat 4) with 4%nat. rewrite <- (length_to_be 4 (len body)) at 1.
    rewrite take_app_length. apply from_be_to_be_small. unfold frame_fits in Hf. lia. }
  rewrite Hn, (proj2 (Z.ltb_ge _ _)) by lia.
  rewrite run_frame by (simp_len; lia). rewrite <- Hlen, to_nat_len.
  rewrite take_app_length, drop_app_length.
  pose proof (decode_encode_frame c frame [] Hok Hf He) as Hd.
  rewrite app_nil_r in Hd. by rewrite Hd.
Qed.

(** The frames of a list of commands, one after the other. *)
Inductive pipeline : list Command -> bytes -> Prop :=
  | pipeline_nil : pipeline [] []
  | pipeline_cons c cs frame stream :
      command_ok c -> frame_fits c -> encode_command c = Ok frame ->
      len frame <= 4 + MAX_REQUEST_BYTES ->
      pipeline cs stream -> pipeline (c :: cs) (frame ++ stream).

Lemma run_pipeline cs stream rest :
  pipeline cs stream ->
  run (mkFrameParser AwaitingLength (stream ++ rest)) =
    let '(p', q, r) := run (mkFrameParser AwaitingLength rest) in (p', cs ++ q, r).
Proof.
  induction 1 as [|c cs frame stream Hok Hf He Hmax _ IH]; 
    [by destruct (run _) as [[??]?]|].
  rewrite <- app_assoc, (run_one_frame c) by done. rewrite IH.
  destruct (run (mkFrameParser AwaitingLength rest)) as [[??]?]. reflexivity.
Qed.

Lemma feed_frames cs stream tail :
  pipeline cs stream -> len tail < 4 ->
  feed parser_new (stream ++ tail)
    = (mkFrameParser AwaitingLength tail, Ok (cs, Continue)).
Proof.
  intros Hp Ht. rewrite feed_run. unfold extend, parser_new. cbn [state buf app].
  rewrite (run_pipeline cs) by done. rewrite run_short by done. cbn. by rewrite app_nil_r.
Qed.

(** ** Theorems: the parser *)

(** C30: Feeding the parser in two pieces is feeding it once: if the first piece
    leaves the connection open, the commands, the verdict and the parser after
    both calls are those of a single call on the concatenation. How the network
    splits the stream does not matter. *)
Theorem feed_chunk_invariant p a b p1 c1 :
  parser_wf p -> feed p a = (p1, Ok (c1, Continue)) ->
  feed p (a ++ b) =
    let '(p2, r) := feed p1 b in (p2, let? cr := r in Ok (c1 ++ cr.1, cr.2)).
Proof.
  intros Hw. rewrite !feed_run.
  destruct (run (extend p a)) as [[p1' c1'] r] eqn:E. destruct r as [act| |]; try done.
  cbn. intros [= -> -> ->].
  replace (extend p (a ++ b)) with (extend (extend p a) b)
    by (unfold extend; cbn; by rewrite app_assoc).
  rewrite (run_extend _ b _ _ (extend_wf p a Hw) E).
  destruct (run (extend p1 b)) as [[p2 c2] r2]. by destruct r2.
Qed.

Definition ping_frame : bytes := to_be 4 1 ++ [op_code OpPing].

Lemma feed_chunk_invariant_witness :
  feed parser_new (take 3 ping_frame ++ drop 3 ping_frame) =
    let '(p2, r) := feed (mkFrameParser AwaitingLength (take 3 ping_frame)) (drop 3 ping_frame) in
    (p2, let? cr := r in Ok ([] ++ cr.1, cr.2)).
Proof. apply feed_chunk_invariant; [exact I | vm_compute; reflexivity]. Defined.

(** The pipelined frames of any commands, of any number, followed by the
    start of another frame, are parsed back in order; the parser keeps exactly
    the unfinished tail and the connection stays open. *)
Theorem feed_pipeline cs stream tail :
  pipeline cs stream -> len tail < 4 ->
  feed parser_new (stream ++ tail)
    = (mkFrameParser AwaitingLength tail, Ok (cs, Continue)).
Proof. apply feed_frames. Qed.

Lemma feed_pipeline_witness :
  feed parser_new ((ping_frame ++ (ping_frame ++ [])) ++ [Byte.x00])
    = (mkFrameParser AwaitingLength [Byte.x00], Ok ([CPing; CPing], Continue)).
Proof.
  apply feed_pipeline; [|vm_compute; reflexivity].
  repeat (constructor; try (vm_compute; congruence)).
Defined.

(** C37: On any bytes the parser terminates without a panic, and as long as it
    asks for more it never holds a whole frame of the largest accepted size:
    what a client can make the server buffer is bounded. *)
Theorem feed_total_bounded p chunk p' r :
  parser_wf p -> feed p chunk = (p', r) ->
  no_panic r /\ parser_wf p' /\
  (forall cs, r = Ok (cs, Continue) -> len (buf p') < 4 + MAX_REQUEST_BYTES).
Proof.
  intros Hw. rewrite feed_run. pose proof (extend_wf p chunk Hw) as Hw'.
  pose proof (run_no_panic _ Hw') as Hp. pose proof (run_wf _ Hw') as Hwf.
  pose proof (run_bounded _ Hw') as Hb.
  destruct (run (extend p chunk)) as [[p2 c2] r2]. intros [= <- <-]. cbn in *.
  split_and!; [by apply no_panic_bind | done |].
  intros cs H. apply Hb. destruct r2; try done. by injection H as _ ->.
Qed.

Lemma feed_total_bounded_witness :
  let out := feed parser_new (bs "abc") in
  no_panic out.2 /\ parser_wf out.1 /\
  (forall cs, out.2 = Ok (cs, Continue) -> len (buf out.1) < 4 + MAX_REQUEST_BYTES).
Proof.
  apply (feed_total_bounded parser_new (bs "abc")); [exact I | vm_compute; reflexivity].
Defined.

(** A frame that announces more than [MAX_REQUEST_BYTES] closes the
    connection as soon as its length prefix is complete: its body is neither
    waited for nor decoded. *)
Theorem feed_oversize_closes n rest :
  MAX_REQUEST_BYTES < n < 2 ^ 32 ->
  feed parser_new (to_be 4 n ++ rest)
    = (mkFrameParser AwaitingLength (to_be 4 n ++ rest), Ok ([], Close)).
Proof.
  intros Hn. rewrite feed_run. unfold extend, parser_new. cbn [state buf].
  rewrite app_nil_l. pose proof (len_nonneg rest).
  rewrite run_length by (simp_len; lia). cbn zeta.
  change (Z.to_nat 4) with 4%nat. rewrite <- (length_to_be 4 n) at 1.
  rewrite take_app_length, from_be_to_be_small
    by (unfold MAX_REQUEST_BYTES, MAX_KEY_SIZE, MAX_VALUE_SIZE in Hn; lia).
  by rewrite (proj2 (Z.ltb_lt _ _)) by lia.
Qed.

Lemma feed_oversize_closes_witness :
  feed parser_new (to_be 4 (2 ^ 31) ++ bs "xyz")
    = (mkFrameParser AwaitingLength (to_be 4 (2 ^ 31) ++ bs "xyz"), Ok ([], Close)).
Proof. apply feed_oversize_closes. vm_compute. split; reflexivity. Defined.

(** ** Lemmas: reading *)

(** The bytes a script of reads delivers before it blocks. *)
Fixpoint delivered (reads : list ReadEvent) : bytes :=
  match reads with
  | RdBytes _ chunk :: reads' => chunk ++ delivered reads'
  | RdInterrupted :: reads' => delivered reads'
  | _ => []
  end.

(** A socket that only delivers bytes or is interrupted, then blocks. *)
Fixpoint quiet (reads : list ReadEvent) : Prop :=
  match reads with
  | [] | RdWouldBlock :: _ => True
  | RdInterrupted :: reads' => quiet reads'
  | RdBytes _ chunk :: reads' => chunk <> [] /\ quiet reads'
  | RdErr _ :: _ => False
  end.

Lemma extend_nil p : extend p [] = p.
Proof. destruct p as [s b]. unfold extend. cbn. by rewrite app_nil_r. Qed.

(** A parser that waits has nothing left to do. *)
Lemma run_idle p p1 c1 : parser_wf p -> run p = (p1, c1, Ok Continue) ->
  run p1 = (p1, [], Ok Continue).
Proof.
  revert p1 c1. induction p as [[s b] IH] using measure_ind. intros p1 c1 Hw. loop_cases.
  - rewrite run_short by done. intros [= <- <-]. by apply run_short.
  - rewrite run_length by done. cbn zeta. destruct (MAX_REQUEST_BYTES <? _) eqn:E; [done|].
    apply IH; [unfold measure; cbn; lia | by apply accepted_wf].
  - rewrite run_waiting by done. intros [= <- <-]. by apply run_waiting.
  - rewrite run_frame by lia. destruct (decode_input_frame _); try done.
    specialize (IH (mkFrameParser AwaitingLength (drop (Z.to_nat (4 + n)) b))
                  (measure_drop n b Hn Hlen)).
    destruct (run (mkFrameParser AwaitingLength (drop _ b))) as [[p2 c2] r2].
    intros [= -> <- ->]. by eapply IH.
Qed.

Definition idle (p : FrameParser) : Prop := run p = (p, [], Ok Continue).

(** A parser that stopped has seen all it wants to see. *)
Lemma run_extend_stop p x p1 c1 r :
  parser_wf p -> run p = (p1, c1, r) -> r <> Ok Continue ->
  exists p2, run (extend p x) = (p2, c1, r).
Proof.
  revert p1 c1. induction p as [[s b] IH] using measure_ind. intros p1 c1 Hw.
  assert (Hx : forall m, 0 <= m <= len b ->
    take (Z.to_nat m) (b ++ x) = take (Z.to_nat m) b /\
    drop (Z.to_nat m) (b ++ x) = drop (Z.to_nat m) b ++ x).
  { intros m Hm. unfold len in Hm. rewrite take_app_le, drop_app_le by lia. done. }
  pose proof (len_nonneg x). loop_cases.
  - rewrite run_short by done. by intros [= <- <- <-].
  - rewrite run_length by done. unfold extend. cbn [state buf].
    rewrite (run_length (b ++ x)) by (simp_len; lia). cbn zeta.
    rewrite (proj1 (Hx 4 ltac:(lia))).
    destruct (MAX_REQUEST_BYTES <? _) eqn:E; [intros [= <- <- <-]; eauto|]. intros Hr Hne.
    eapply (IH (mkFrameParser (AwaitingBody _) b));
      [unfold measure; cbn; lia | by apply accepted_wf | done | done].
  - rewrite run_waiting by done. by intros [= <- <- <-].
  - rewrite run_frame by lia. unfold extend. cbn [state buf].
    rewrite (run_frame n (b ++ x)) by (simp_len; lia).
    destruct (Hx (4 + n) ltac:(lia)) as [-> ->].
    destruct (decode_input_frame _); try (intros [= <- <- <-]; eauto).
    specialize (IH (mkFrameParser AwaitingLength (drop (Z.to_nat (4 + n)) b))
                  (measure_drop n b Hn Hlen)).
    destruct (run (mkFrameParser AwaitingLength (drop _ b))) as [[p2 c2] r2].
    intros [= -> <- ->] Hne. destruct (IH _ _ I eq_refl Hne) as [p3 Hp3].
    unfold extend in Hp3. cbn [state buf] in Hp3. rewrite Hp3. eauto.
Qed.

Definition prefixed (acc : list Command) (r : result (list Command * ConnectionAction))
    : result (list Command * ConnectionAction) :=
  let? cr := r in Ok (acc ++ cr.1, cr.2).

Lemma feed_app p a b p1 r1 :
  parser_wf p -> feed p a = (p1, r1) ->
  match r1 with
  | Ok (c1, Continue) =>
      idle p1 /\ parser_wf p1 /\ (feed p (a ++ b)).2 = prefixed c1 (feed p1 b).2
  | _ => (feed p (a ++ b)).2 = r1
  end.
Proof.
  intros Hw. rewrite !feed_run.
  replace (extend p (a ++ b)) with (extend (extend p a) b)
    by (unfold extend; cbn; by rewrite app_assoc).
  pose proof (run_wf (extend p a) Hw) as Hwf.
  destruct (run (extend p a)) as [[p1' c1] r] eqn:E. intros [= -> <-].
  destruct (decide (r = Ok Continue)) as [->|Hne].
  - cbn. split_and!; [exact (run_idle _ _ _ (extend_wf p a Hw) E) | done |].
    rewrite (run_extend _ b _ _ (extend_wf p a Hw) E).
    destruct (run (extend p1 b)) as [[p2 c2] r2]. by destruct r2.
  - destruct (run_extend_stop _ b _ _ _ (extend_wf p a Hw) E Hne) as [p2 ->].
    by destruct r as [[]| |].
Qed.

Lemma on_readable_loop_feed reads c acc :
  parser_wf (parser c) -> idle (parser c) -> quiet reads ->
  (on_readable_loop c acc reads).2 = prefixed acc (feed (parser c) (delivered reads)).2 /\
  (forall cs, (on_readable_loop c acc reads).2 = Ok (cs, Continue) ->
     parser_wf (parser (on_readable_loop c acc reads).1) /\
     idle (parser (on_readable_loop c acc reads).1)).
Proof.
  revert c acc. induction reads as [|ev reads IH]; intros c acc Hw Hi Hq.
  - cbn [delivered on_readable_loop fst snd]. rewrite feed_run, extend_nil, Hi. cbn.
    by rewrite app_nil_r.
  - destruct ev as [now chunk| | |e]; cbn [quiet delivered on_readable_loop] in *;
      [| |by auto | done].
    + destruct Hq as [Hne Hq].
      rewrite (proj2 (Z.eqb_neq _ _))
        by (destruct chunk; [done|]; simp_len; pose proof (len_nonneg chunk); lia).
      cbn [parser with_activity].
      destruct (feed (parser c) chunk) as [p1 r1] eqn:E.
      pose proof (feed_app _ _ (delivered reads) _ _ Hw E) as Hf.
      destruct r1 as [[cs []]| |]; cbn [fst snd]; try (rewrite Hf; by split).
      destruct Hf as (Hi1 & Hw1 & Hf).
      destruct (IH (with_parser (with_activity c now) p1) (acc ++ cs) Hw1 Hi1 Hq) as [IH1 IH2].
      split; [|exact IH2]. rewrite IH1, Hf. cbn [parser with_parser].
      destruct (feed p1 _) as [p2 [[??]| |]]; cbn; by rewrite ?app_assoc.
    + cbn. rewrite feed_run, extend_nil, Hi. cbn. by rewrite app_nil_r.
Qed.

(** ** Theorems: connections *)

(** Whatever the sizes of the reads and wherever a signal interrupts them,
    a readable event parses exactly what one call of the parser on all the
    delivered bytes would: the same commands in the same order, the same
    verdict or the same error. A connection it leaves open is ready for the
    next event. *)
Theorem on_readable_correct c reads :
  parser_wf (parser c) -> idle (parser c) -> quiet reads ->
  (on_readable c reads).2 = (feed (parser c) (delivered reads)).2 /\
  (forall cs, (on_readable c reads).2 = Ok (cs, Continue) ->
     parser_wf (parser (on_readable c reads).1) /\ idle (parser (on_readable c reads).1)).
Proof.
  intros Hw Hi Hq. destruct (on_readable_loop_feed reads c [] Hw Hi Hq) as [H1 H2].
  split; [|exact H2]. unfold on_readable. rewrite H1. unfold prefixed.
  by destruct (feed _ _) as [p [[??]| |]].
Qed.

Lemma on_readable_correct_witness :
  let reads := [RdBytes 7 (take 2 ping_frame); RdInterrupted;
                RdBytes 8 (drop 2 ping_frame); RdWouldBlock] in
  (on_readable (connection_new 0) reads).2 = (feed parser_new (delivered reads)).2 /\
  (forall cs, (on_readable (connection_new 0) reads).2 = Ok (cs, Continue) ->
     parser_wf (parser (on_readable (connection_new 0) reads).1) /\
     idle (parser (on_readable (connection_new 0) reads).1)).
Proof.
  apply (on_readable_correct (connection_new 0)); [exact I | reflexivity |].
  repeat split; discriminate.
Defined.

Lemma on_writable_pending c sent writes :
  conn_wf c -> writes_ok (len (pending c)) writes ->
  let '(c', sent', _) := on_writable c sent writes in
  conn_wf c' /\ sent' ++ pending c' = sent ++ pending c /\
  parser c' = parser c /\ pending_close c' = pending_close c /\
  (has_pending_writes c' = false -> write_buf c' = [] /\ write_offset c' = 0).
Proof.
  revert c sent. induction writes as [|ev writes IH]; intros c sent Hw Hok;
    destruct c as [p wb off la pc]; unfold conn_wf, pending, has_pending_writes in *;
    cbn [on_writable write_buf write_offset] in *;
    destruct (Z.leb_spec (len wb) off) as [Hl|Hl];
    try (cbn; rewrite (drop_ge wb) by (unfold len in *; lia);
         split_and!; auto using len_nonneg, Z.le_refl; done).
  - cbn. rewrite (proj2 (Z.ltb_lt _ _)) by lia. split_and!; try done; lia.
  - destruct ev as [n| | |e]; cbn [writes_ok] in Hok;
      try (cbn; rewrite (proj2 (Z.ltb_lt _ _)) by lia; split_and!; try done; lia).
    + destruct Hok as [Hn Hok]. destruct (Z.eqb_spec n 0) as [->|Hn0].
      { cbn. rewrite (proj2 (Z.ltb_lt _ _)) by lia. split_and!; try done; lia. }
      specialize (IH (mkConnection p wb (off + n) la pc)
        (sent ++ take (Z.to_nat n) (drop (Z.to_nat off) wb))).
      cbn [with_writes write_buf write_offset parser last_activity pending_close] in *.
      assert (Hd : drop (Z.to_nat (off + n)) wb = drop (Z.to_nat n) (drop (Z.to_nat off) wb)).
      { rewrite drop_drop. f_equal. lia. }
      assert (Hlen : len (drop (Z.to_nat off) wb) = len wb - off)
        by (unfold len; rewrite length_drop; unfold len in *; lia).
      destruct (on_writable _ _ _) as [[c' s'] r'].
      destruct IH as (H1 & H2 & H3 & H4 & H5); [lia | |].
      { rewrite Hd. replace (len (drop (Z.to_nat n) _)) with (len (drop (Z.to_nat off) wb) - n);
          [done|]. clear Hd Hok Hlen Hl. unfold len in *.
        rewrite (length_drop (drop _ _)). lia. }
      split_and!; try tauto. rewrite H2, Hd, <- app_assoc. by rewrite take_drop.
    + apply IH; done.
Qed.

(** Whatever the socket accepts, in pieces of any size, the bytes sent
    followed by the bytes still pending are exactly the bytes that were pending:
    a response is never lost, repeated or reordered, also when the call fails;
    and once nothing is pending the buffer has been reset. *)
Theorem on_writable_no_loss c writes :
  conn_wf c -> writes_ok (len (pending c)) writes ->
  let '(c', sent, _) := on_writable c [] writes in
  conn_wf c' /\ sent ++ pending c' = pending c /\
  (has_pending_writes c' = false -> write_buf c' = [] /\ write_offset c' = 0).
Proof.
  intros Hw Hok. pose proof (on_writable_pending c [] writes Hw Hok) as H.
  destruct (on_writable c [] writes) as [[c' sent] r]. tauto.
Qed.

Definition busy_connection : Connection :=
  enqueue_response (connection_new 0) (encode_frame StOk [bs "PONG"]).

Lemma on_writable_no_loss_witness :
  let '(c', sent, _) := on_writable busy_connection []
    [WrBytes 5; WrInterrupted; WrBytes 3; WrWouldBlock] in
  conn_wf c' /\ sent ++ pending c' = pending busy_connection /\
  (has_pending_writes c' = false -> write_buf c' = [] /\ write_offset c' = 0).
Proof.
  apply on_writable_no_loss; [split; vm_compute; discriminate|].
  vm_compute. repeat split; discriminate.
Defined.

(** Enqueueing appends to what is pending: responses leave in the order in
    which they were enqueued, after everything already buffered. *)
Theorem enqueue_response_pending c resp :
  conn_wf c ->
  conn_wf (enqueue_response c resp) /\
  pending (enqueue_response c resp) = pending c ++ resp /\
  has_pending_writes (enqueue_response c resp) = has_pending_writes c || negb (len resp =? 0).
Proof.
  intros [H1 H2]. destruct c as [p wb off la pc].
  unfold conn_wf, pending, has_pending_writes, enqueue_response in *.
  cbn in *. simp_len. pose proof (len_nonneg resp). split_and!; [lia | lia | |].
  - apply drop_app_le. unfold len in *. lia.
  - destruct (Z.ltb_spec off (len wb + len resp)), (Z.ltb_spec off (len wb)),
      (Z.eqb_spec (len resp) 0); try done; lia.
Qed.

Lemma enqueue_response_pending_witness :
  conn_wf (enqueue_response busy_connection (bs "x")) /\
  pending (enqueue_response busy_connection (bs "x")) = pending busy_connection ++ bs "x" /\
  has_pending_writes (enqueue_response busy_connection (bs "x"))
    = has_pending_writes busy_connection || negb (len (bs "x") =? 0).
Proof. apply enqueue_response_pending. split; vm_compute; discriminate. Defined.
