(* ===== verification/Stats.v ===== *)
(** * Server statistics (src/src/stats.rs)

    The counters the threads of the server share. Atomic additions wrap. *)

From S2P Require Import Prelude Text World.

Record Stats := mkStats {
  compacting : bool;
  compaction_count : Z;
  last_compact_start_ms : Z;
  last_compact_end_ms : Z;
  write_blocked_attempts : Z;
  write_blocked_total_ms : Z;
  reads : Z;
  writes : Z;
  deletes : Z;
  active_connections : Z;       (* an [i64] *)
}.

Definition stats_new : Stats := mkStats false 0 0 0 0 0 0 0 0 0.

(** [{}] of a [bool] and of an [i64]. *)
Definition show_bool (b : bool) : str := if b then bs "true" else bs "false".
Definition show_i64 (z : Z) : str := if z <? 0 then bs "-" ++ dec (- z) else dec z.

Definition newline : str := [as_u8 10].

Definition snapshot (s : Stats) : str :=
  bs "compacting=" ++ show_bool (compacting s) ++ newline ++
  bs "compaction_count=" ++ dec (compaction_count s) ++ newline ++
  bs "last_compact_start_ms=" ++ dec (last_compact_start_ms s) ++ newline ++
  bs "last_compact_end_ms=" ++ dec (last_compact_end_ms s) ++ newline ++
  bs "write_blocked_attempts=" ++ dec (write_blocked_attempts s) ++ newline ++
  bs "write_blocked_total_ms=" ++ dec (write_blocked_total_ms s) ++ newline ++
  bs "reads=" ++ dec (reads s) ++ newline ++
  bs "writes=" ++ dec (writes s) ++ newline ++
  bs "deletes=" ++ dec (deletes s) ++ newline ++
  bs "active_connections=" ++ show_i64 (active_connections s).

(** [fetch_add] and [store] on the fields. *)
Definition add_reads (n : Z) (s : Stats) : Stats :=
  mkStats (compacting s) (compaction_count s) (last_compact_start_ms s) (last_compact_end_ms s)
    (write_blocked_attempts s) (write_blocked_total_ms s) (wrap64 (reads s + n)) (writes s)
    (deletes s) (active_connections s).
Definition add_writes (n : Z) (s : Stats) : Stats :=
  mkStats (compacting s) (compaction_count s) (last_compact_start_ms s) (last_compact_end_ms s)
    (write_blocked_attempts s) (write_blocked_total_ms s) (reads s) (wrap64 (writes s + n))
    (deletes s) (active_connections s).
Definition add_deletes (n : Z) (s : Stats) : Stats :=
  mkStats (compacting s) (compaction_count s) (last_compact_start_ms s) (last_compact_end_ms s)
    (write_blocked_attempts s) (write_blocked_total_ms s) (reads s) (writes s)
    (wrap64 (deletes s + n)) (active_connections s).
Definition add_blocked (attempts ms : Z) (s : Stats) : Stats :=
  mkStats (compacting s) (compaction_count s) (last_compact_start_ms s) (last_compact_end_ms s)
    (wrap64 (write_blocked_attempts s + attempts)) (wrap64 (write_blocked_total_ms s + ms))
    (reads s) (writes s) (deletes s) (active_connections s).
Definition set_compacting (b : bool) (s : Stats) : Stats :=
  mkStats b (compaction_count s) (last_compact_start_ms s) (last_compact_end_ms s)
    (write_blocked_attempts s) (write_blocked_total_ms s) (reads s) (writes s)
    (deletes s) (active_connections s).
Definition set_start_ms (t : Z) (s : Stats) : Stats :=
  mkStats (compacting s) (compaction_count s) t (last_compact_end_ms s)
    (write_blocked_attempts s) (write_blocked_total_ms s) (reads s) (writes s)
    (deletes s) (active_connections s).
Definition set_end_ms (t : Z) (s : Stats) : Stats :=
  mkStats (compacting s) (compaction_count s) (last_compact_start_ms s) t
    (write_blocked_attempts s) (write_blocked_total_ms s) (reads s) (writes s)
    (deletes s) (active_connections s).
Definition add_compactions (n : Z) (s : Stats) : Stats :=
  mkStats (compacting s) (wrap64 (compaction_count s + n)) (last_compact_start_ms s)
    (last_compact_end_ms s) (write_blocked_attempts s) (write_blocked_total_ms s) (reads s)
    (writes s) (deletes s) (active_connections s).
Definition add_connections (n : Z) (s : Stats) : Stats :=
  mkStats (compacting s) (compaction_count s) (last_compact_start_ms s)
    (last_compact_end_ms s) (write_blocked_attempts s) (write_blocked_total_ms s) (reads s)
    (writes s) (deletes s) (active_connections s + n).
