(* ===== verification/Dispatch.v ===== *)
(** * Executing commands (src/src/server/dispatch.rs)

    A decoded command is run on the engine behind the [StorageEngine] interface
    and answered with an encoded frame. Compactions run on threads of their
    own: [threads] counts those that have been spawned and have not begun.
    SpanDispatch.v has the same commands, and the threads, cut into the steps
    between which other threads can run. *)

From S2P Require Import Prelude Utf8 Text Bffp Float World Engine Stats.

Record CompactionCfg := mkCompactionCfg {
  ratio : spec_float;           (* an [f32] *)
  max_segment : Z;
}.

(** An engine state gives access to the clock. *)
Class HasWorld (S : Type) := in_world : forall A, ST World A -> ST S A.
#[global] Arguments in_world {S _ A} _.

(** The text of an I/O error, which the operating system or the library that
    raised it chooses. *)
Class ErrorText := error_text : ErrorKind -> str.

(** [lock_start.elapsed()], in milliseconds. *)
Class Stopwatch := elapsed_ms : nat -> Z.

Record Server (S : Type) := mkServer {
  database : S;
  stats : Stats;
  threads : nat;
}.
#[global] Arguments mkServer {S} _ _ _.
#[global] Arguments database {S} _.
#[global] Arguments stats {S} _.
#[global] Arguments threads {S} _.

Section Dispatch.
Context {S : Type} `{StorageEngine S} `{HasWorld S} `{Clock} `{ErrorText} `{Stopwatch}.

Definition upd_stats (f : Stats -> Stats) : ST (Server S) unit :=
  st_modify (fun s => mkServer (database s) (f (stats s)) (threads s)).

(** A call on the engine; its error is a value here. *)
Definition call {A} (m : ST S A) : ST (Server S) (result A) := fun s =>
  let '(db, r) := m (database s) in
  (mkServer db (stats s) (threads s), match r with Panic => Panic | r => Ok r end).

(** [SystemTime::now().duration_since(UNIX_EPOCH).expect(..)] and
    [Stats::now_ms]. *)
Definition server_now : ST (Server S) Z := fun s =>
  let '(db, r) := in_world now_ms (database s) in (mkServer db (stats s) (threads s), r).

Definition elapsed : ST (Server S) Z := fun s =>
  let '(db, r) := in_world (st_gets (fun w => elapsed_ms (ticks w))) (database s) in
  (mkServer db (stats s) (threads s), r).

Definition spawn : ST (Server S) unit :=
  st_modify (fun s => mkServer (database s) (stats s) (Datatypes.S (threads s))).

(** [compare_exchange(false, true)], then the start of a thread. *)
Definition start_compaction : ST (Server S) bool :=
  let* busy := st_gets (fun s => compacting (stats s)) in
  if busy then st_ret false
  else
    let* _ := upd_stats (set_compacting true) in
    let* now := server_now in
    let* _ := upd_stats (set_start_ms now) in
    let* _ := spawn in
    st_ret true.

(** The operands of [&&] and [||] are evaluated from the left, as far as
    needed. *)
Definition should_compact (cfg : CompactionCfg) : ST (Server S) bool :=
  let* by_ratio :=
    (if f_gt (ratio cfg) f64_zero then
       let* t0 := call e_total_bytes in
       let* t0 := st_lift t0 in
       if 0 <? t0 then
         let* d := call e_dead_bytes in
         let* d := st_lift d in
         let* t := call e_total_bytes in
         let* t := st_lift t in
         st_ret (f_gt (f32_div (as_f32 d) (as_f32 t)) (ratio cfg))
       else st_ret false
     else st_ret false) in
  if by_ratio : bool then st_ret true
  else if 0 <? max_segment cfg then
    let* n := call e_segment_count in
    let* n := st_lift n in
    st_ret (max_segment cfg <? n)
  else st_ret false.

Definition maybe_trigger_compaction (cfg : CompactionCfg) : ST (Server S) unit :=
  let* go := should_compact cfg in
  if go then let* _ := start_compaction in st_ret tt else st_ret tt.

(** Seconds to an absolute time: zero means no expiry. *)
Definition ttl_to_ms (now : Z) (ttl : option Z) : option Z :=
  match ttl with
  | Some s => if s =? 0 then None else Some (wrap64 (now + s * 1000))
  | None => None
  end.

Definition error_frame (e : ErrorKind) : bytes := encode_frame StError [error_text e].

Definition count_blocked : ST (Server S) unit :=
  let* busy := st_gets (fun s => compacting (stats s)) in
  if busy : bool then upd_stats (add_blocked 1 0) else st_ret tt.

(** The end of WRITE and MSET. *)
Definition after_write (cfg : CompactionCfg) (n : Z) (r : result unit) : ST (Server S) bytes :=
  let* ms := elapsed in
  let* _ := upd_stats (add_blocked 0 ms) in
  match r with
  | Ok _ =>
      let* _ := upd_stats (add_writes n) in
      let* _ := maybe_trigger_compaction cfg in
      st_ret (encode_frame StOk [])
  | Err e => st_ret (error_frame e)
  | Panic => st_lift Panic
  end.

(** Only the LSM engine has ranges. *)
Definition dispatch_range (start_key end_key : str) : ST (Server S) bytes :=
  match e_range with
  | Some range =>
      let* r := call (range start_key end_key) in
      match r with
      | Ok results =>
          let* _ := upd_stats (add_reads (len results)) in
          st_ret (encode_frame StOk (concat (map (fun p => [p.1; p.2]) results)))
      | Err e => st_ret (error_frame e)
      | Panic => st_lift Panic
      end
  | None => st_ret (encode_frame StError [bs "RANGE not supported by KV engine"])
  end.

(** Zero seconds make the key persistent. *)
Definition dispatch_ttl (key : str) (seconds : Z) : ST (Server S) bytes :=
  let* expiry :=
    (if seconds =? 0 then st_ret None
     else let* now := server_now in st_ret (Some (wrap64 (now + seconds * 1000)))) in
  let* r := call (e_ttl key expiry) in
  match r with
  | Ok TtlSet | Ok TtlPersisted => st_ret (encode_frame StOk [])
  | Ok TtlNotFound => st_ret (encode_frame StNotFound [])
  | Err e => st_ret (error_frame e)
  | Panic => st_lift Panic
  end.

Definition dispatch (cfg : CompactionCfg) (cmd : Command) : ST (Server S) bytes :=
  match cmd with
  | CWrite key value ttl =>
      let* _ := count_blocked in
      let* now := server_now in
      let* r := call (e_set_with_ttl key value (ttl_to_ms now ttl)) in
      after_write cfg 1 r
  | CRead key =>
      let* _ := upd_stats (add_reads 1) in
      let* r := call (e_get key) in
      match r with
      | Ok (Some (_, v)) => st_ret (encode_frame StOk [v])
      | Ok None => st_ret (encode_frame StNotFound [])
      | Err e => st_ret (error_frame e)
      | Panic => st_lift Panic
      end
  | CDelete key =>
      let* r := call (e_delete key) in
      match r with
      | Ok (Some _) =>
          let* _ := upd_stats (add_deletes 1) in
          let* _ := maybe_trigger_compaction cfg in
          st_ret (encode_frame StOk [])
      | Ok None => st_ret (encode_frame StNotFound [])
      | Err e => st_ret (error_frame e)
      | Panic => st_lift Panic
      end
  | CCompact =>
      let* started := start_compaction in
      st_ret (encode_frame (if started : bool then StOk else StNoop) [])
  | CStats =>
      let* s := st_gets stats in st_ret (encode_frame StOk [snapshot s])
  | CInvalid op => st_ret (encode_frame StError [bs "Invalid op code: " ++ dec (u8 op)])
  | CList =>
      let* r := call e_list_keys in
      match r with
      | Ok keys => st_ret (encode_frame StOk keys)
      | Err e => st_ret (error_frame e)
      | Panic => st_lift Panic
      end
  | CExists key =>
      let* r := call (e_exists key) in
      let* found := st_lift r in
      st_ret (encode_frame (if found : bool then StOk else StNotFound) [])
  | CPing => st_ret (encode_frame StOk [bs "PONG"])
  | CMget keys =>
      let* r := call (e_mget keys) in
      match r with
      | Ok items =>
          let flat := concat (map (fun p => [p.1; default [as_u8 0] p.2]) items) in
          let* _ := upd_stats (add_reads (len items)) in
          st_ret (encode_frame StOk flat)
      | Err e => st_ret (error_frame e)
      | Panic => st_lift Panic
      end
  | CMset items =>
      let* _ := count_blocked in
      let* now := server_now in
      let* r := call (e_mset_with_ttl (map (fun '(k, v, ttl) => (k, v, ttl_to_ms now ttl)) items)) in
      after_write cfg (len items) r
  | CRange start_key end_key => dispatch_range start_key end_key
  | CTtl key seconds => dispatch_ttl key seconds
  end.
End Dispatch.
