(* ===== verification/SpanDispatch.v ===== *)
(** * Executing commands beside other threads (src/src/server/dispatch.rs)

    [dispatch] cut into spans: each access to the shared statistics is one, and
    the calls of the engine are its spans. Alone, they are [dispatch]. A
    compaction runs on a thread that has its own steps. *)

From S2P Require Import Prelude Utf8 Text Bffp Float World Engine KvEngine KvInv Spans Stats Dispatch.

(** ** The commands *)

Section Commands.
Context {S : Type} `{StorageEngine S} `{SpanEngine S} `{HasWorld S} `{Clock} `{ErrorText} `{Stopwatch}.

Definition put_db (db : S) (s : Server S) : Server S := mkServer db (stats s) (threads s).

(** A call on the engine; its error is a value here. *)
Definition p_call {A} (p : Prog S A) : Prog (Server S) (result A) := p_try (p_lift database put_db p).

Definition count_blocked_spans : Prog (Server S) unit :=
  let~ busy := atom (st_gets (fun s => compacting (stats s))) in
  if busy : bool then atom (upd_stats (add_blocked 1 0)) else p_ret tt.

(** [compare_exchange(false, true)]. *)
Definition compare_exchange : ST (Server S) bool := fun s =>
  if compacting (stats s) then (s, Ok false)
  else (mkServer (database s) (set_compacting true (stats s)) (threads s), Ok true).

Definition start_spans : Prog (Server S) bool :=
  let~ mine := atom compare_exchange in
  if mine : bool then
    let~ now := atom server_now in
    let~ _ := atom (upd_stats (set_start_ms now)) in
    let~ _ := atom spawn in
    p_ret true
  else p_ret false.

Definition should_spans (cfg : CompactionCfg) : Prog (Server S) bool :=
  let~ by_ratio :=
    (if f_gt (ratio cfg) f64_zero then
       let~ t0 := atom (call e_total_bytes) in
       let~ t0 := Halt t0 in
       if 0 <? t0 then
         let~ d := atom (call e_dead_bytes) in
         let~ d := Halt d in
         let~ t := atom (call e_total_bytes) in
         let~ t := Halt t in
         p_ret (f_gt (f32_div (as_f32 d) (as_f32 t)) (ratio cfg))
       else p_ret false
     else p_ret false) in
  if by_ratio : bool then p_ret true
  else if 0 <? max_segment cfg then
    let~ n := atom (call e_segment_count) in
    let~ n := Halt n in
    p_ret (max_segment cfg <? n)
  else p_ret false.

Definition trigger_spans (cfg : CompactionCfg) : Prog (Server S) unit :=
  let~ go := should_spans cfg in
  if go : bool then let~ _ := start_spans in p_ret tt else p_ret tt.

Definition after_write_spans (cfg : CompactionCfg) (n : Z) (r : result unit) : Prog (Server S) bytes :=
  let~ ms := atom elapsed in
  let~ _ := atom (upd_stats (add_blocked 0 ms)) in
  match r with
  | Ok _ =>
      let~ _ := atom (upd_stats (add_writes n)) in
      let~ _ := trigger_spans cfg in
      p_ret (encode_frame StOk [])
  | Err e => p_ret (error_frame e)
  | Panic => Halt Panic
  end.

Definition range_spans (start_key end_key : str) : Prog (Server S) bytes :=
  match p_range with
  | Some range =>
      let~ r := p_call (range start_key end_key) in
      match r with
      | Ok results =>
          let~ _ := atom (upd_stats (add_reads (len results))) in
          p_ret (encode_frame StOk (concat (map (fun p => [p.1; p.2]) results)))
      | Err e => p_ret (error_frame e)
      | Panic => Halt Panic
      end
  | None => p_ret (encode_frame StError [bs "RANGE not supported by KV engine"])
  end.

Definition dispatch_ttl_spans (key : str) (seconds : Z) : Prog (Server S) bytes :=
  let~ expiry :=
    (if seconds =? 0 then p_ret None
     else let~ now := atom server_now in p_ret (Some (wrap64 (now + seconds * 1000)))) in
  let~ r := p_call (p_ttl key expiry) in
  match r with
  | Ok TtlSet | Ok TtlPersisted => p_ret (encode_frame StOk [])
  | Ok TtlNotFound => p_ret (encode_frame StNotFound [])
  | Err e => p_ret (error_frame e)
  | Panic => Halt Panic
  end.

Definition dispatch_spans (cfg : CompactionCfg) (cmd : Command) : Prog (Server S) bytes :=
  match cmd with
  | CWrite key value ttl =>
      let~ _ := count_blocked_spans in
      let~ now := atom server_now in
      let~ r := p_call (p_set_with_ttl key value (ttl_to_ms now ttl)) in
      after_write_spans cfg 1 r
  | CRead key =>
      let~ _ := atom (upd_stats (add_reads 1)) in
      let~ r := p_call (p_get key) in
      match r with
      | Ok (Some (_, v)) => p_ret (encode_frame StOk [v])
      | Ok None => p_ret (encode_frame StNotFound [])
      | Err e => p_ret (error_frame e)
      | Panic => Halt Panic
      end
  | CDelete key =>
      let~ r := p_call (p_delete key) in
      match r with
      | Ok (Some _) =>
          let~ _ := atom (upd_stats (add_deletes 1)) in
          let~ _ := trigger_spans cfg in
          p_ret (encode_frame StOk [])
      | Ok None => p_ret (encode_frame StNotFound [])
      | Err e => p_ret (error_frame e)
      | Panic => Halt Panic
      end
  | CCompact =>
      let~ started := start_spans in
      p_ret (encode_frame (if started : bool then StOk else StNoop) [])
  | CStats =>
      let~ s := atom (st_gets stats) in p_ret (encode_frame StOk [snapshot s])
  | CInvalid op => p_ret (encode_frame StError [bs "Invalid op code: " ++ dec (u8 op)])
  | CList =>
      let~ r := p_call p_list_keys in
      match r with
      | Ok keys => p_ret (encode_frame StOk keys)
      | Err e => p_ret (error_frame e)
      | Panic => Halt Panic
      end
  | CExists key =>
      let~ r := p_call (p_exists key) in
      let~ found := Halt r in
      p_ret (encode_frame (if found : bool then StOk else StNotFound) [])
  | CPing => p_ret (encode_frame StOk [bs "PONG"])
  | CMget keys =>
      let~ r := p_call (p_mget keys) in
      match r with
      | Ok items =>
          let flat := concat (map (fun p => [p.1; default [as_u8 0] p.2]) items) in
          let~ _ := atom (upd_stats (add_reads (len items))) in
          p_ret (encode_frame StOk flat)
      | Err e => p_ret (error_frame e)
      | Panic => Halt Panic
      end
  | CMset items =>
      let~ _ := count_blocked_spans in
      let~ now := atom server_now in
      let~ r := p_call (p_mset_with_ttl (map (fun '(k, v, ttl) => (k, v, ttl_to_ms now ttl)) items)) in
      after_write_spans cfg (len items) r
  | CRange start_key end_key => range_spans start_key end_key
  | CTtl key seconds => dispatch_ttl_spans key seconds
  end.
End Commands.

(** ** The compaction threads *)

(** A thread compacts, stores the time, clears the flag and counts. *)
Inductive CompactionThread (S : Type) :=
  | Compacting (p : Prog S unit)
  | Stamping
  | Clearing
  | Counting.
#[global] Arguments Compacting {S} _.
#[global] Arguments Stamping {S}.
#[global] Arguments Clearing {S}.
#[global] Arguments Counting {S}.

Section Threads.
Context {S : Type} `{StorageEngine S} `{SpanEngine S} `{HasWorld S} `{Clock}.

(** One step; [None] is the end of the thread. [unwrap] on an error ends it
    before it clears the flag. *)
Definition thread_step (t : CompactionThread S) : ST (Server S) (option (CompactionThread S)) :=
  match t with
  | Compacting (Span f) => fun s =>
      let '(db, p) := f (database s) in (put_db db s, Ok (Some (Compacting p)))
  | Compacting (Halt (Ok _)) => st_ret (Some Stamping)
  | Compacting (Halt _) => st_ret None
  | Stamping =>
      let* now := server_now in
      let* _ := upd_stats (set_end_ms now) in
      st_ret (Some Clearing)
  | Clearing => let* _ := upd_stats (set_compacting false) in st_ret (Some Counting)
  | Counting => let* _ := upd_stats (add_compactions 1) in st_ret None
  end.
End Threads.

(** ** Alone, the spans are [dispatch] *)

Section Alone.
Context {S : Type} `{SE : StorageEngine S} `{SP : SpanEngine S} `{SL : !SpanLaws S} `{HW : HasWorld S}
  `{CK : Clock} `{ET : ErrorText} `{SW : Stopwatch}.

Lemma alone_call {A} (p : Prog S A) (m : ST S A) s :
  (forall s, run_alone p s = m s) -> run_alone (p_call p) s = call m s.
Proof.
  intros Hp. unfold p_call, call. rewrite run_try, run_lift; try done; [|by intros []]. rewrite Hp.
  by destruct (m (database s)).
Qed.

Lemma alone_count_blocked (s : Server S) : run_alone count_blocked_spans s = count_blocked s.
Proof.
  unfold count_blocked_spans, count_blocked. repeat alone_step. destruct a; [apply run_atom | done].
Qed.

Lemma alone_start (s : Server S) : run_alone start_spans s = start_compaction s.
Proof.
  unfold start_spans, start_compaction. rewrite run_bind_atom.
  unfold st_bind at 1 2, compare_exchange, st_gets. cbn beta iota.
  destruct (compacting (stats s)); [done|]. rewrite run_bind_atom. unfold st_bind at 3.
  unfold upd_stats at 2, st_modify. repeat alone_step. done.
Qed.

Lemma alone_should cfg (s : Server S) : run_alone (should_spans cfg) s = should_compact cfg s.
Proof.
  unfold should_spans, should_compact. apply run_bind_eq; clear s.
  - intros s. destruct (f_gt _ _); [|done]. repeat alone_step. destruct (_ <? _); [|done]. by repeat alone_step.
  - intros [] s; [done|]. destruct (_ <? _); [|done]. by repeat alone_step.
Qed.

Lemma alone_trigger cfg (s : Server S) : run_alone (trigger_spans cfg) s = maybe_trigger_compaction cfg s.
Proof.
  unfold trigger_spans, maybe_trigger_compaction. apply run_bind_eq; [apply alone_should|].
  intros [] s1; [|done]. apply run_bind_eq; [apply alone_start | done].
Qed.

Lemma alone_after_write cfg n r (s : Server S) : run_alone (after_write_spans cfg n r) s = after_write cfg n r s.
Proof.
  unfold after_write_spans, after_write. repeat alone_step. destruct r; [|done|done]. repeat alone_step; [|done].
  apply alone_trigger.
Qed.

(** Nobody in between, a command cut into spans is [dispatch]: the same state
    and the same answer, on every branch. *)
Theorem dispatch_spans_alone cfg c (s : Server S) : run_alone (dispatch_spans cfg c) s = dispatch cfg c s.
Proof.
  destruct c; cbn [dispatch_spans dispatch]; try done.
  - repeat alone_step; [apply alone_call; intros; apply alone_get | by repeat case_match].
  - apply run_bind_eq; [apply alone_count_blocked|]. intros _ s1. repeat alone_step;
      [apply alone_call; intros; apply alone_set | apply alone_after_write].
  - repeat alone_step; [apply alone_call; intros; apply alone_delete|]. destruct a as [[u|]| |]; try done.
    repeat alone_step; [apply alone_trigger | done].
  - apply run_bind_eq; [apply alone_start | done].
  - repeat alone_step; [apply alone_call; intros; apply alone_list | by case_match].
  - apply run_bind_eq; [intros; apply alone_call; intros; apply alone_exists | by intros []].
  - repeat alone_step; [apply alone_call; intros; apply alone_mget|]. by destruct a.
  - apply run_bind_eq; [apply alone_count_blocked|]. intros _ s1. repeat alone_step;
      [apply alone_call; intros; apply alone_mset | apply alone_after_write].
  - unfold range_spans, dispatch_range. pose proof alone_range as Hr. destruct p_range, e_range; try done.
    repeat alone_step; [apply alone_call; intros; apply Hr | by destruct a].
  - unfold dispatch_ttl_spans, dispatch_ttl. apply run_bind_eq.
    + intros s1. destruct (_ =? _); [done|]. by repeat alone_step.
    + intros e s1. repeat alone_step; [apply alone_call; intros; apply alone_ttl | by repeat case_match].
Qed.
End Alone.
