(* ===== verification/Charge.v ===== *)
(** * Who starts a compaction (src/src/server/dispatch.rs)

    What the spans of any command keep, and how the [compacting] flag changes
    hands: a program that raises it is in charge until it has spawned the
    thread, and the thread until it clears the flag. *)

From S2P Require Import Prelude Float World Engine KvEngine KvInv Spans Stats Dispatch SpanDispatch.

Section Charge.
Context {S : Type} `{SE : StorageEngine S} `{SP : SpanEngine S} `{HW : HasWorld S} `{CK : Clock} `{ET : ErrorText}
  `{SW : Stopwatch}.

(** ** Minor spans *)

(** The engine and the counters of requests change, nothing else. *)
Definition minor (s s' : Server S) : Prop :=
  compacting (stats s') = compacting (stats s) /\ active_connections (stats s') = active_connections (stats s) /\
  threads s' = threads s.

#[local] Instance minor_call {A} (p : Prog S A) : Steps minor (p_call p).
Proof.
  unfold p_call. apply steps_try. apply (steps_lift (fun _ _ => True)); [done|].
  induction p as [r|f IH] using prog_ind; by constructor.
Qed.
#[local] Instance minor_engine {A} (m : ST S A) : Steps minor (atom (call m)).
Proof. apply steps_atom. intros s. unfold call. by destruct (m (database s)). Qed.
#[export] Instance minor_now : Steps minor (atom server_now).
Proof. apply steps_atom. intros s. unfold server_now. by destruct (in_world _ _). Qed.
#[local] Instance minor_elapsed : Steps minor (atom elapsed).
Proof. apply steps_atom. intros s. unfold elapsed. by destruct (in_world _ _). Qed.
#[local] Instance minor_gets {A} (f : Server S -> A) : Steps minor (atom (st_gets f)).
Proof. by apply steps_atom. Qed.
#[local] Instance minor_reads n : Steps minor (atom (upd_stats (add_reads n))).
Proof. by apply steps_atom. Qed.
#[local] Instance minor_writes n : Steps minor (atom (upd_stats (add_writes n))).
Proof. by apply steps_atom. Qed.
#[local] Instance minor_deletes n : Steps minor (atom (upd_stats (add_deletes n))).
Proof. by apply steps_atom. Qed.
#[local] Instance minor_blocked a b : Steps minor (atom (upd_stats (add_blocked a b))).
Proof. by apply steps_atom. Qed.

#[local] Instance minor_should cfg : Steps minor (should_spans cfg).
Proof.
  unfold should_spans. apply steps_bind; [|intros []; [apply _|]].
  - destruct (f_gt _ _); [|apply _]. do 2 (apply steps_bind; [apply _|intros]). destruct (_ <? _); apply _.
  - destruct (_ <? _); apply _.
Qed.
#[local] Instance minor_count_blocked : Steps minor count_blocked_spans.
Proof. unfold count_blocked_spans. apply steps_bind; [apply _|]. intros []; apply _. Qed.

(** ** Every command *)

(** A property of programs that holds of minor spans and of the start of a
    compaction, and of what is put together from them. *)
Class Closed (G : forall A, Prog (Server S) A -> Prop) : Prop := {
  closed_minor A (p : Prog (Server S) A) : Steps minor p -> G A p;
  closed_bind A B (p : Prog (Server S) A) (k : A -> Prog (Server S) B) :
    G A p -> (forall a, G B (k a)) -> G B (p_bind p k);
  closed_start : G bool start_spans;
}.

Ltac solve_closed :=
  repeat first
    [ apply closed_start
    | apply closed_minor; apply _
    | apply closed_bind; [|intros]
    | case_match ].

Lemma dispatch_closed (G : forall A, Prog (Server S) A -> Prop) `{CG : !Closed G} cfg c : G bytes (dispatch_spans cfg c).
Proof.
  destruct c; cbn [dispatch_spans]; unfold after_write_spans, trigger_spans, range_spans, dispatch_ttl_spans;
    solve_closed.
Qed.

(** The counter of connections. *)
Definition same_active (s s' : Server S) : Prop := active_connections (stats s') = active_connections (stats s).

Lemma steps_weaken (R R' : Server S -> Server S -> Prop) {A} (p : Prog (Server S) A) :
  (forall s s', R s s' -> R' s s') -> Steps R p -> Steps R' p.
Proof. intros HR. induction 1; constructor; auto. Qed.

#[export] Instance active_closed : Closed (fun A p => Steps same_active p).
Proof.
  split.
  - intros A p. apply steps_weaken. by intros s s' (_ & H & _).
  - intros A B p k H1 H2. by apply steps_bind.
  - assert (Hnow : Steps same_active (atom server_now))
      by (eapply steps_weaken; [|apply minor_now]; by intros s s' (_ & H & _)).
    unfold start_spans. apply steps_bind.
    + apply steps_atom. intros s. unfold compare_exchange, same_active. by destruct (compacting _) eqn:E.
    + intros []; [|apply _]. apply steps_bind; [done|]. intros now.
      apply steps_bind; [by apply steps_atom|]. intros _. apply steps_bind; [by apply steps_atom | apply _].
Qed.

(** ** Charge *)

(** A span of a program that is ([b]) or is not in charge of starting a
    compaction: it takes charge by raising the flag, and hands it over to the
    thread it spawns. *)
Definition charge_step (b b' : bool) (s s' : Server S) : Prop :=
  match b, b' with
  | false, true => compacting (stats s) = false /\ compacting (stats s') = true /\ threads s' = threads s
  | true, false => compacting (stats s') = compacting (stats s) /\ threads s' = Datatypes.S (threads s)
  | _, _ => compacting (stats s') = compacting (stats s) /\ threads s' = threads s
  end.

#[warnings="-register-all"]
Inductive in_charge {A} : bool -> Prog (Server S) A -> Prop :=
  | charge_halt r : in_charge false (Halt r)
  | charge_lost r : (forall a, r <> Ok a) -> in_charge true (Halt r)
  | charge_span b f :
      (forall s, exists b', charge_step b b' s (f s).1 /\ in_charge b' (f s).2) -> in_charge b (Span f).

Lemma charge_bind {A B} b (p : Prog (Server S) A) (k : A -> Prog (Server S) B) :
  in_charge b p -> (forall a, in_charge false (k a)) -> in_charge b (p_bind p k).
Proof.
  intros Hp Hk. revert b Hp. induction p as [r|f IH] using prog_ind; intros b Hp.
  - inversion Hp as [|? Hr|]; subst; [destruct r; [apply Hk | constructor | constructor]|].
    destruct r; [by destruct (Hr a) | by constructor | by constructor].
  - inversion Hp as [| |? ? Hf]; subst. cbn. constructor. intros s. destruct (Hf s) as (b' & H1 & H2).
    exists b'. specialize (IH s b' H2). by destruct (f s).
Qed.

(** The rest of a start that has raised the flag. *)
Lemma charge_spawn : in_charge true
  (let~ now := atom server_now in
   let~ _ := atom (upd_stats (set_start_ms now)) in
   let~ _ := atom spawn in
   p_ret true).
Proof.
  cbn [p_bind atom]. constructor. intros s. exists true. unfold server_now.
  destruct (in_world now_ms (database s)) as [db [now| |]]; (split; [done|]); [|by constructor|by constructor].
  cbn. constructor. intros s1. exists true. split; [done|]. cbn. constructor. intros s2. exists false.
  split; [done | constructor].
Qed.

#[export] Instance charge_closed : Closed (fun A p => in_charge false p).
Proof.
  split.
  - intros A p. induction 1 as [r|f Hf _ IH]; constructor. intros s. exists false.
    split; [destruct (Hf s) as (H1 & _ & H2); by split | apply IH].
  - intros A B p k. apply charge_bind.
  - unfold start_spans. cbn [p_bind atom]. constructor. intros s. unfold compare_exchange.
    destruct (compacting (stats s)) eqn:E; cbn.
    + exists false. split; [done | constructor].
    + exists true. split; [done|]. apply charge_spawn.
Qed.

(** ** Threads *)

(** A thread is in charge until it has cleared the flag. *)
Definition thread_charge (t : CompactionThread S) : nat := match t with Counting => 0 | _ => 1 end.

(** A step of a thread in charge keeps the flag up and the charge, clears the
    flag and gives the charge up, or fails with the flag as it is. *)
Lemma thread_charge_step (t : CompactionThread S) s s' r :
  thread_step t s = (s', r) ->
  threads s' = threads s /\ active_connections (stats s') = active_connections (stats s) /\
  (compacting (stats s') = compacting (stats s) /\
     match r with Ok (Some t') => thread_charge t' = thread_charge t | _ => True end \/
   compacting (stats s') = false /\ thread_charge t = 1%nat /\
     match r with Ok (Some t') => thread_charge t' = 0%nat | _ => False end).
Proof.
  unfold thread_step, server_now, st_bind, upd_stats, st_modify, st_ret. intros E.
  destruct t as [[[u| |]|f]| | |]; try (injection E as <- <-; cbn; by auto 10).
  - destruct (f (database s)). injection E as <- <-. cbn. auto 10.
  - destruct (in_world now_ms (database s)) as [db [now| |]]; injection E as <- <-; cbn; auto 10.
Qed.
End Charge.
