(* ===== verification/Store.v ===== *)
(** * What the server relies on: an engine as a store

    [Store] states the behaviour of an engine, behind the [StorageEngine]
    interface, that the server's own theorems use; both engines are shown to
    be instances. *)

From S2P Require Import Prelude Utils Utf8 Text Record Collections Memtable Wal Hint Segment.
From S2P Require Import Settings HashIndex World Engine KvEngine KvLog KvInv KvOps KvSpec.
From S2P Require Import Bloom Block Sstable SstableSpec Strategy Leveled LsmEngine TableInv.
From S2P Require Import LsmInv LsmSpec Bffp Float Stats Dispatch.

(** What the answer to a deletion says of the map: a key that was found was in
    it, and one that was not found was absent or had expired. *)
Definition delete_told `{Clock} (m : kvmap) (k : str) (r : option unit) : Prop :=
  match r with Some _ => is_Some (m !! k) | None => exists i, spec_get m k (clock i) = None end.

(** [store_inv s m]: the engine in state [s] holds the map [m]. The laws hold
    while fewer than [N] readings of the clock have been made. *)
Class Store (N : nat) (S : Type) `{StorageEngine S} `{HasWorld S} `{Ticking S} `{Clock} := {
  store_inv : S -> kvmap -> Prop;
  store_set s m k v x :
    store_inv s m -> kv_ok k v x -> (ticks_of (e_set_with_ttl k v x s).1 <= N)%nat ->
    exists s', e_set_with_ttl k v x s = (s', Ok tt) /\ store_inv s' (<[k := (v, x)]> m);
  store_get s m k :
    store_inv s m -> (ticks_of (e_get k s).1 <= N)%nat ->
    exists s' i, e_get k s = (s', Ok ((fun v => (k, v)) <$> spec_get m k (clock i))) /\
      store_inv s' m /\ (ticks_of s <= i <= ticks_of s')%nat;
  store_delete s m k :
    store_inv s m -> kv_ok k [] None -> (ticks_of (e_delete k s).1 <= N)%nat ->
    exists s' r, e_delete k s = (s', Ok r) /\ store_inv s' (delete k m) /\ delete_told m k r;
  store_now s m :
    store_inv s m -> (ticks_of (in_world now_ms s).1 <= N)%nat ->
    exists s', in_world now_ms s = (s', Ok (clock (ticks_of s))) /\ store_inv s' m;
  store_peek {A} (f : World -> A) s : exists a, in_world (st_gets f) s = (s, Ok a);
  store_total s m : store_inv s m -> exists z, e_total_bytes s = (s, Ok z);
  store_dead s m : store_inv s m -> exists z, e_dead_bytes s = (s, Ok z);
  store_segments s m : store_inv s m -> exists z, e_segment_count s = (s, Ok z);
  store_mono_set k v x :: Mono (e_set_with_ttl k v x);
  store_mono_get k :: Mono (e_get k);
  store_mono_delete k :: Mono (e_delete k);
  store_mono_now :: Mono (in_world now_ms);
  store_mono_total :: Mono e_total_bytes;
  store_mono_dead :: Mono e_dead_bytes;
  store_mono_segments :: Mono e_segment_count;
}.

(** ** The hash engine *)

#[export] Instance kv_world : HasWorld KvState := fun _ m => on_world m.

Section Kv.
Context `{HO : HashOrder} `{CK : Clock} (N : nat) `{GC : !GoodClock N}.

#[export] Instance kv_store : Store N KvState.
Proof.
  refine {| store_inv := kv_good N |}.
  - intros s m k v x Hi Hok Ht. pose proof Hok as [H1 H2 H3 H4 H5].
    assert (Ha : arg_ok k v x) by done.
    destruct (set_with_ttl_run N [] wal_agrees s m k v x Hi Ha Ht) as (s' & E & Hi' & _).
    assert (Hf : fits k v = true)
      by (unfold fits; by rewrite (proj2 (Z.ltb_ge MAX_KEY_SIZE _) H1), (proj2 (Z.ltb_ge MAX_VALUE_SIZE _) H2)).
    rewrite Hf in *. eauto.
  - intros s m k Hi Ht.
    destruct (get_run N [] wal_agrees s m k Hi Ht) as (s' & E & Hi' & _ & _ & Ht').
    exists s', (ticks (world s)). split; [done|]. split; [done|].
    unfold ticks_of, ticking_kv. lia.
  - intros s m k Hi [H1 _ H3 _ _] Ht.
    destruct (kv_delete_run N [] wal_agrees s m k Hi H3) as (s' & E & Hi' & _).
    rewrite (proj2 (Z.ltb_ge _ _)) in * by lia. eexists _, _. split_and!; [exact E | done|].
    unfold delete_told, spec_get. destruct (m !! k); [done | by exists 0%nat].
  - intros s m Hi Ht. unfold in_world, kv_world in *.
    assert (HN : (ticks (world s) < N)%nat).
    { unfold on_world, ticks_of, ticking_kv in Ht. pose proof (now_ms_ticks (world s)) as Hw.
      destruct (now_ms (world s)) as [w r]. cbn in *. lia. }
    eexists. split.
    + unfold on_world. unfold now_ms, st_bind, read_clock.
      pose proof (clock_range (N := N) _ HN) as Hr. rewrite (proj2 (Z.ltb_ge _ _)) by lia.
      unfold st_ret. rewrite wrap_small by done. reflexivity.
    + apply (kv_inv_tick N [] wal_agrees s); [exact Hi | done | cbn; lia].
  - intros A f s. eexists. unfold in_world, kv_world, on_world. cbn. by destruct s.
  - intros. eexists. reflexivity.
  - intros. eexists. reflexivity.
  - intros. eexists. reflexivity.
Defined.
End Kv.

(** ** The LSM engine *)

#[export] Instance lsm_world {T} : HasWorld (LsmState T) := fun _ m => lift_w m.

Section Lsm.
Context `{CK : Clock} `{NS : Nanos} `{SO : SetOrder} (N : nat) `{GT : !GoodTime N}.
Context {T : Type} `{SS : StorageStrategy T} `{FL : !FlushLaws T} `{AE : !AnyEntry T}.

Definition lsm_good (s : LsmState T) (m : kvmap) : Prop :=
  exists db ops tabs, lsm_inv N db s m ops tabs.

#[export] Instance lsm_store : Store N (LsmState T).
Proof.
  refine {| store_inv := lsm_good |}.
  - intros s m k v x (db & ops & tabs & Hi) Hok Ht.
    destruct (lsm_set_run N db s m ops tabs k v x Hi Hok (any_entry _) Ht) as (s' & o & t & E & Hi').
    exists s'. split; [done|]. by exists db, o, t.
  - intros s m k (db & ops & tabs & Hi) Ht.
    destruct (lsm_get_run N db s m ops tabs k Hi Ht) as (s' & i & E & Hi' & Hr).
    exists s', i. split; [done|]. split; [by exists db, ops, tabs | done].
  - intros s m k (db & ops & tabs & Hi) Hok Ht.
    destruct (lsm_delete_run N db s m ops tabs k Hi Hok (any_entry _) Ht) as (s' & i & o & t & E & Hi' & _).
    eexists s', _. split_and!; [done | by exists db, o, t|].
    unfold delete_told. destruct (spec_get m k (clock i)) eqn:Eg; [|by exists i]. cbn.
    unfold spec_get in Eg. by destruct (m !! k).
  - intros [e w] m (db & ops & tabs & Hi) Ht. unfold in_world, lsm_world, lift_w in *. cbn [fst snd] in *.
    assert (HN : (ticks w < N)%nat).
    { pose proof (now_ms_ticks w) as Hw. unfold ticks_of, ticking_pair in Ht.
      destruct (now_ms w) as [w' r]. cbn in *. lia. }
    rewrite (now_run N w HN). eexists. split; [done|]. exists db, ops, tabs.
    eapply lsm_inv_tick; [exact Hi | done | cbn; lia].
  - intros A f s. eexists. unfold in_world, lsm_world, lift_w. cbn. by destruct s.
  - intros. eexists. reflexivity.
  - intros. eexists. reflexivity.
  - intros s m (db & ops & tabs & Hi). eexists. cbn. unfold lsm_segment_count, read_strategy, st_bind.
    by rewrite (inv_lock _ _ _ _ _ _ Hi).
Defined.
End Lsm.
