(* ===== verification/Worker.v ===== *)
(** * The workers and the acceptor (src/src/server/workerhandler.rs, acceptor.rs)

    A worker is driven by an event loop from outside the program: what the
    sockets deliver and accept, whether a registration succeeds and which timer
    identifiers are handed out are arguments here. *)

From S2P Require Import Prelude Bffp Float World Engine Stats Dispatch Connection.

(** ** The worker *)

Record WorkerHandler := mkWorker {
  incoming : list Z;                 (* connections waiting in the channel: when they were made *)
  conns : gmap Z Connection;
  next_token : Z;
  read_timeout : option Z;
  sweep_timer : option Z;
}.

Definition worker_new (timeout : option Z) : WorkerHandler := mkWorker [] ∅ 0 timeout None.

(** [Worker::new] (worker.rs): the handler, once the event loop could be made. *)
Definition worker_make (event_loop : result unit) (timeout : option Z) : result WorkerHandler :=
  let? _ := event_loop in Ok (worker_new timeout).

Definition with_conns (m : gmap Z Connection) (h : WorkerHandler) : WorkerHandler :=
  mkWorker (incoming h) m (next_token h) (read_timeout h) (sweep_timer h).
Definition with_sweep (t : option Z) (h : WorkerHandler) : WorkerHandler :=
  mkWorker (incoming h) (conns h) (next_token h) (read_timeout h) t.

(** What an event brings: the readiness bits, what the socket delivers and
    takes, and whether [reregister] succeeds. *)
Record Event := mkEvent {
  readable : bool;
  ev_reads : list ReadEvent;
  ev_writes : list WriteEvent;
  reregister_ok : bool;
}.

Section Worker.
Context {S : Type} `{StorageEngine S} `{HasWorld S} `{Clock} `{ErrorText} `{Stopwatch}.

Definition WorkerState : Type := WorkerHandler * Server S.

(** The server's part of the state; [Connection::new] and the drop of a
    connection move the counter. *)
Definition count_connections (n : Z) (s : Server S) : Server S :=
  mkServer (database s) (add_connections n (stats s)) (threads s).

(** [for cmd in cmds { let res = dispatch(..); conn.enqueue_response(&res); }] *)
Fixpoint serve (cfg : CompactionCfg) (cmds : list Command) (c : Connection)
    : ST (Server S) Connection :=
  match cmds with
  | [] => st_ret c
  | cmd :: cmds' =>
      let* res := dispatch cfg cmd in
      serve cfg cmds' (enqueue_response c res)
  end.

(** The readable part of [on_event]: the connection and [hard_close]. *)
Definition handle_readable (cfg : CompactionCfg) (ev : Event) (c : Connection)
    : ST (Server S) (Connection * bool) :=
  if readable ev && negb (pending_close c) then
    let '(c1, r) := on_readable c (ev_reads ev) in
    match r with
    | Ok (cmds, action) =>
        let* c2 := serve cfg cmds c1 in
        st_ret (match action with Close => with_pending_close c2 | Continue => c2 end, false)
    | Err _ => st_ret (c1, true)
    | Panic => st_lift Panic
    end
  else st_ret (c, false).

(** The drain attempt: the connection, the bytes sent and [hard_close]. *)
Definition handle_writable (ev : Event) (c : Connection) (hard_close : bool)
    : Connection * bytes * bool :=
  if negb hard_close && has_pending_writes c then
    let '(c1, sent, r) := on_writable c [] (ev_writes ev) in
    (c1, sent, match r with Ok _ => false | _ => true end)
  else (c, [], hard_close).

(** The bytes sent on the connection; a panic in a command drops it and ends
    the thread. *)
Definition on_event (cfg : CompactionCfg) (token : Z) (ev : Event) : ST WorkerState bytes := fun st =>
  let '(h, s) := st in
  match conns h !! token with
  | None => (st, Ok [])
  | Some conn =>
      let h1 := with_conns (delete token (conns h)) h in
      match handle_readable cfg ev conn s with
      | (s1, Ok (c1, hard)) =>
          let '(c2, sent, hard_close) := handle_writable ev c1 hard in
          if hard_close || (pending_close c2 && negb (has_pending_writes c2))
          then ((h1, count_connections (-1) s1), Ok sent)
          else if reregister_ok ev
          then ((with_conns (<[token := c2]> (conns h1)) h1, s1), Ok sent)
          else ((h1, count_connections (-1) s1), Ok sent)
      | (s1, Err e) => ((h1, count_connections (-1) s1), Err e)
      | (s1, Panic) => ((h1, count_connections (-1) s1), Panic)
      end
  end.

(** [now] is when the timer fires, [new_id] what [insert_timer] returns. *)
Definition on_timer (now timer_id new_id : Z) : ST WorkerState unit := fun st =>
  let '(h, s) := st in
  if decide (Some timer_id = sweep_timer h) then
    let '(h1, s1) :=
      match read_timeout h with
      | Some timeout =>
          let stale := filter (fun p => (timeout <? now - last_activity p.2) = true) (conns h) in
          let kept := filter (fun p => (timeout <? now - last_activity p.2) = false) (conns h) in
          (with_conns kept h, count_connections (- Z.of_nat (size stale)) s)
      | None => (h, s)
      end in
    ((with_sweep (match read_timeout h with Some _ => Some new_id | None => None end) h1, s1), Ok tt)
  else (st, Ok tt).

(** The loop of [on_wake] over the channel; [ok] says which registrations
    succeed. The token counter is a [usize]. *)
Fixpoint wake_loop (ok : Z -> bool) (waiting : list Z) (m : gmap Z Connection) (next : Z)
    (s : Server S) : gmap Z Connection * Z * Server S :=
  match waiting with
  | [] => (m, next, s)
  | now :: waiting' =>
      if ok next
      then wake_loop ok waiting' (<[next := connection_new now]> m) (wrap64 (next + 1))
             (count_connections (match m !! next with Some _ => 0 | None => 1 end) s)
      else wake_loop ok waiting' m (wrap64 (next + 1)) s
  end.

Definition on_wake (ok : Z -> bool) (new_id : Z) : ST WorkerState unit := fun st =>
  let '(h, s) := st in
  let timer := match sweep_timer h, read_timeout h with
               | None, Some _ => Some new_id
               | t, _ => t
               end in
  let '(m, next, s1) := wake_loop ok (incoming h) (conns h) (next_token h) s in
  ((mkWorker [] m next (read_timeout h) timer, s1), Ok tt).

(** ** The acceptor *)

Record Acceptor := mkAcceptor {
  senders : list (list Z);           (* what has been sent to each worker *)
  num_workers : Z;
  max_connections : Z;
  next_worker : Z;
}.

Definition acceptor_new (n max : Z) : Acceptor :=
  mkAcceptor (replicate (Z.to_nat n) []) n max 0.

(** [n as i64] for a [usize]. *)
Definition as_i64 (n : Z) : Z := if n <? 2 ^ 63 then n else n - 2 ^ 64.

(** One accepted stream; [setup_ok] is whether the socket options could be
    set, [alive i] whether worker [i] still receives. The [% num_workers] panics
    when there is none. *)
Definition accept (setup_ok : bool) (alive : Z -> bool) (active : Z) (stream : Z) (a : Acceptor)
    : result Acceptor :=
  if as_i64 (max_connections a) <=? active then Ok a
  else if negb setup_ok then Ok a
  else if num_workers a =? 0 then Panic
  else
    let i := next_worker a in
    let next := (next_worker a + 1) mod num_workers a in
    let senders' := if alive i
                    then alter (fun l => l ++ [stream]) (Z.to_nat i) (senders a)
                    else senders a in
    Ok (mkAcceptor senders' (num_workers a) (max_connections a) next).

(** ** Lemmas *)

(** The number of open connections is not the business of commands. *)
Class SameConns {A} (m : ST (Server S) A) : Prop := same_conns s :
  active_connections (stats (m s).1) = active_connections (stats s).

#[local] Instance same_ret {A} (a : A) : SameConns (st_ret a).
Proof. done. Qed.
#[local] Instance same_lift {A} (r : result A) : SameConns (st_lift r).
Proof. done. Qed.
#[local] Instance same_gets {A} (f : Server S -> A) : SameConns (st_gets f).
Proof. done. Qed.
#[local] Instance same_bind {A B} (m : ST (Server S) A) (f : A -> ST (Server S) B) :
  SameConns m -> (forall a, SameConns (f a)) -> SameConns (st_bind m f).
Proof.
  intros Hm Hf s. unfold st_bind. specialize (Hm s).
  destruct (m s) as [s' [a| |]]; cbn in *; [|done|done]. by rewrite Hf.
Qed.
#[local] Instance same_call {A} (m : ST S A) : SameConns (call m).
Proof. intros s. unfold call. by destruct (m (database s)). Qed.
#[local] Instance same_now : SameConns server_now.
Proof. intros s. unfold server_now. by destruct (in_world now_ms _). Qed.
#[local] Instance same_elapsed : SameConns elapsed.
Proof. intros s. unfold elapsed. by destruct (in_world _ _). Qed.
#[local] Instance same_spawn : SameConns spawn.
Proof. done. Qed.

Lemma same_stats f : (forall st, active_connections (f st) = active_connections st) ->
  SameConns (upd_stats f).
Proof. intros Hf s. apply Hf. Qed.

Lemma same_conns_dispatch cfg c : SameConns (dispatch cfg c).
Proof.
  destruct c; cbn [dispatch];
    unfold dispatch_range, dispatch_ttl, after_write, count_blocked, maybe_trigger_compaction, should_compact,
      start_compaction;
    repeat first [apply _ | apply same_stats; intros; reflexivity | apply same_bind; [|intros] | case_match].
Qed.

Lemma same_conns_serve cfg cmds c : SameConns (serve cfg cmds c).
Proof.
  revert c. induction cmds as [|cmd cmds IH]; intros c; cbn; [apply _|].
  apply same_bind; [apply same_conns_dispatch|]. intros. apply IH.
Qed.

Lemma same_conns_readable cfg ev c : SameConns (handle_readable cfg ev c).
Proof.
  unfold handle_readable. destruct (_ && _); [|apply _].
  destruct (on_readable c (ev_reads ev)) as [c1 [[cmds action]| |]]; try apply _.
  apply same_bind; [apply same_conns_serve|]. intros. apply _.
Qed.

(** The answers to a list of commands, in order. *)
Fixpoint answers (cfg : CompactionCfg) (cmds : list Command) : ST (Server S) (list bytes) :=
  match cmds with
  | [] => st_ret []
  | cmd :: cmds' =>
      let* res := dispatch cfg cmd in
      let* rest := answers cfg cmds' in
      st_ret (res :: rest)
  end.

Lemma serve_answers cfg cmds c s :
  match answers cfg cmds s with
  | (s', Ok l) => serve cfg cmds c s = (s', Ok (with_writes c (write_buf c ++ concat l) (write_offset c)))
  | (s', r) => exists c', serve cfg cmds c s = (s', rmap (fun _ => c') r)
  end.
Proof.
  revert c s. induction cmds as [|cmd cmds IH]; intros c s; cbn.
  { rewrite app_nil_r. by destruct c. }
  unfold st_bind. destruct (dispatch cfg cmd s) as [s1 [res| |]]; [|by exists c|by exists c].
  specialize (IH (enqueue_response c res) s1).
  destruct (answers cfg cmds s1) as [s2 [l| |]]; [|exact IH|exact IH].
  rewrite IH. unfold enqueue_response, with_writes. cbn. by rewrite <- app_assoc.
Qed.

(** ** Theorems *)

(** What drives a worker. *)
Inductive worker_act :=
  | OnEvent (token : Z) (ev : Event)
  | OnTimer (now timer_id new_id : Z)
  | OnWake (ok : Z -> bool) (new_id : Z)
  | Incoming (now : Z).

Definition worker_step (cfg : CompactionCfg) (a : worker_act) (st : WorkerState) : WorkerState :=
  match a with
  | OnEvent token ev => (on_event cfg token ev st).1
  | OnTimer now id new_id => (on_timer now id new_id st).1
  | OnWake ok new_id => (on_wake ok new_id st).1
  | Incoming now =>
      let '(h, s) := st in
      (mkWorker (incoming h ++ [now]) (conns h) (next_token h) (read_timeout h) (sweep_timer h), s)
  end.

(** Connections the counter knows beyond those of this worker. *)
Definition elsewhere (st : WorkerState) : Z :=
  active_connections (stats st.2) - Z.of_nat (size (conns st.1)).

Lemma elsewhere_wake ok waiting m next s :
  let '(m', _, s') := wake_loop ok waiting m next s in
  active_connections (stats s') - Z.of_nat (size m')
  = active_connections (stats s) - Z.of_nat (size m).
Proof.
  revert m next s. induction waiting as [|now waiting IH]; intros m next s; [done|]. cbn.
  destruct (ok next); [|apply IH].
  specialize (IH (<[next := connection_new now]> m) (wrap64 (next + 1))
    (count_connections (match m !! next with Some _ => 0 | None => 1 end) s)).
  destruct (wake_loop _ _ _ _ _) as [[m' n'] s']. rewrite IH. cbn.
  destruct (m !! next) as [c|] eqn:E.
  - rewrite map_size_insert_Some by (by rewrite E). lia.
  - rewrite map_size_insert_None by done. lia.
Qed.

Lemma elsewhere_timer now id new_id st : elsewhere (on_timer now id new_id st).1 = elsewhere st.
Proof.
  destruct st as [h s]. unfold on_timer, elsewhere. case_decide; [|done].
  destruct (read_timeout h) as [t|]; [|done]. cbn.
  set (P := fun p : Z * Connection => (t <? now - last_activity p.2) = true).
  assert (Hs : (size (filter P (conns h)) + size (filter (fun p => ~ P p) (conns h))
                = size (conns h))%nat).
  { rewrite <- map_size_disj_union by apply map_disjoint_filter_complement.
    by rewrite map_filter_union_complement. }
  replace (filter (fun p => (t <? now - last_activity p.2) = false) (conns h))
    with (filter (fun p => ~ P p) (conns h)).
  2: { apply map_filter_ext. intros i c _. unfold P. cbn. by rewrite not_true_iff_false. }
  unfold P in *. lia.
Qed.

Lemma elsewhere_event cfg token ev st : elsewhere (on_event cfg token ev st).1 = elsewhere st.
Proof.
  destruct st as [h s]. unfold on_event, elsewhere.
  destruct (conns h !! token) as [c|] eqn:E; [|done].
  pose proof (same_conns_readable cfg ev c s) as Hr.
  assert (Hd : Z.of_nat (size (conns h)) = Z.of_nat (size (delete token (conns h))) + 1).
  { rewrite map_size_delete_Some by (by rewrite E).
    assert (size (conns h) <> 0)%nat by (apply (map_size_ne_0_lookup_2 _ token); by rewrite E). lia. }
  destruct (handle_readable cfg ev c s) as [s1 [[c1 hard]| |]]; cbn in Hr |- *; try lia.
  destruct (handle_writable ev c1 hard) as [[c2 sent] hc].
  destruct (_ || _); cbn; [lia|]. destruct (reregister_ok ev); cbn; [|lia].
  rewrite insert_delete_eq, map_size_insert_Some by (by rewrite E). lia.
Qed.

(** Connections are counted exactly. Whatever the sockets, the timers, the
    commands and the event loop do, the shared counter of active connections
    changes by as much as the number of connections the worker holds: no
    connection is counted twice, and none stays counted once it is gone, also
    when a command panics. *)
Theorem connections_counted cfg (l : list worker_act) (st : WorkerState) :
  let st' := fold_left (fun st a => worker_step cfg a st) l st in
  active_connections (stats st'.2) - Z.of_nat (size (conns st'.1))
  = active_connections (stats st.2) - Z.of_nat (size (conns st.1)).
Proof.
  cbn zeta. change (elsewhere (fold_left (fun st a => worker_step cfg a st) l st) = elsewhere st).
  revert st. induction l as [|a l IH]; intros st; [done|]. cbn [fold_left]. rewrite IH.
  destruct a as [token ev|now id new_id|ok new_id|now]; cbn [worker_step].
  - apply elsewhere_event.
  - apply elsewhere_timer.
  - destruct st as [h s]. unfold on_wake, elsewhere.
    pose proof (elsewhere_wake ok (incoming h) (conns h) (next_token h) s) as Hw.
    destruct (wake_loop _ _ _ _ _) as [[m n] s']. exact Hw.
  - by destruct st.
Qed.

(** Pipelined commands are answered in order. The commands parsed from one
    readable event are executed one after the other, and what is queued on
    the connection is its earlier output followed by their answers in that
    order; with a panic in one of them nothing more is executed. *)
Theorem answers_in_order cfg cmds c s s' c' :
  serve cfg cmds c s = (s', Ok c') ->
  exists l, answers cfg cmds s = (s', Ok l) /\ length l = length cmds /\
    c' = with_writes c (write_buf c ++ concat l) (write_offset c).
Proof.
  intros E. pose proof (serve_answers cfg cmds c s) as Hs.
  destruct (answers cfg cmds s) as [s1 r] eqn:Ea. destruct r as [l| |].
  - rewrite E in Hs. injection Hs as <- ->. exists l. split_and!; [done | | done].
    clear E. revert s s' l Ea. induction cmds as [|cmd cmds IH]; intros s s1 l Ea;
      [by injection Ea as _ <-|].
    cbn in Ea. unfold st_bind in Ea. destruct (dispatch cfg cmd s) as [s2 [res| |]]; try done.
    destruct (answers cfg cmds s2) as [s3 [rest| |]] eqn:E3; try done.
    injection Ea as _ <-. cbn. f_equal. by eapply IH.
  - destruct Hs as (c1 & Hs). rewrite E in Hs. done.
  - destruct Hs as (c1 & Hs). rewrite E in Hs. done.
Qed.
End Worker.
#[global] Arguments WorkerState : clear implicits.

(** ** The acceptor *)

(** Streams accepted one after the other while the limit is not reached and
    the workers are alive. *)
Definition accept_all (l : list Z) (a : Acceptor) : result Acceptor :=
  rfold (fun a stream => accept true (fun _ => true) 0 stream a) a l.

(** How many of the first [k] positions fall to worker [i] of [n]. *)
Definition share (n k i : Z) : Z := (k + n - 1 - i) / n.

Lemma share_step n k i : 0 <= i < n -> 0 <= k ->
  share n (k + 1) i = share n k i + (if decide (i = k mod n) then 1 else 0).
Proof.
  intros Hi Hk. unfold share. pose proof (Z.div_mod k n ltac:(lia)) as Hd.
  pose proof (Z.mod_pos_bound k n ltac:(lia)) as Hb.
  set (q := k / n) in *. set (r := k mod n) in *.
  destruct (Z.lt_ge_cases i r) as [Hlt|Hge].
  - replace ((k + 1 + n - 1 - i) / n) with (q + 1) by (apply Z.div_unique with (r - i); lia).
    replace ((k + n - 1 - i) / n) with (q + 1) by (apply Z.div_unique with (r - i - 1); lia).
    case_decide; lia.
  - replace ((k + n - 1 - i) / n) with q by (apply Z.div_unique with (n - 1 - i + r); lia).
    case_decide as He.
    + replace ((k + 1 + n - 1 - i) / n) with (q + 1) by (apply Z.div_unique with 0; lia). lia.
    + replace ((k + 1 + n - 1 - i) / n) with q by (apply Z.div_unique with (n - i + r); lia). lia.
Qed.

Lemma accept_all_run n max l :
  0 < n -> 0 < max < 2 ^ 63 ->
  exists a, accept_all l (acceptor_new n max) = Ok a /\
    num_workers a = n /\ max_connections a = max /\ next_worker a = len l mod n /\
    forall i : Z, 0 <= i < n -> exists q, senders a !! Z.to_nat i = Some q /\ len q = share n (len l) i.
Proof.
  intros Hn Hm. induction l as [|x l IH] using rev_ind.
  { exists (acceptor_new n max). split; [done|]. split_and!; try done.
    intros i Hi. exists []. cbn. rewrite lookup_replicate_2 by lia. split; [done|].
      unfold share. symmetry. apply Z.div_small. change (len []) with 0. lia. }
  destruct IH as (a & E & Hnw & Hmx & Hnx & Hq). unfold accept_all. rewrite rfold_app.
  unfold accept_all in E. rewrite E. cbn [rbind rfold]. unfold accept.
  assert (Has : as_i64 (max_connections a) = max)
    by (unfold as_i64; rewrite Hmx, (proj2 (Z.ltb_lt _ _)) by lia; done).
  rewrite Has, (proj2 (Z.leb_gt _ _)) by lia. cbn [negb].
  rewrite Hnw, (proj2 (Z.eqb_neq _ _)) by lia. eexists. split; [reflexivity|]. cbn.
  pose proof (Z.mod_pos_bound (len l) n ltac:(lia)) as Hb.
  split_and!; try done.
  - rewrite Hnx, len_app. change (len [x]) with 1. by rewrite Zplus_mod_idemp_l.
  - intros i Hi. destruct (Hq i Hi) as (q & Hqi & Hlen). rewrite len_app. change (len [x]) with 1.
    rewrite share_step by (try lia; apply len_nonneg). rewrite Hnx. case_decide as He.
    + exists (q ++ [x]). rewrite <- He. rewrite list_lookup_alter_eq, Hqi. split; [done|].
      rewrite len_app, Hlen. done.
    + exists q. rewrite list_lookup_alter_ne by lia. split; [done | lia].
Qed.

(** Connections are spread evenly. While the limit is not reached, the
    acceptor hands streams to the workers in turn: after any number of them,
    worker [i] of [n] has received [(k + n - 1 - i) / n], so no two workers
    differ by more than one. *)
Theorem acceptor_round_robin n max l :
  0 < n -> 0 < max < 2 ^ 63 ->
  exists a, accept_all l (acceptor_new n max) = Ok a /\
    forall i : Z, 0 <= i < n ->
      exists q, senders a !! Z.to_nat i = Some q /\ len q = (len l + n - 1 - i) / n.
Proof.
  intros Hn Hm. destruct (accept_all_run n max l Hn Hm) as (a & E & _ & _ & _ & Hq). by exists a.
Qed.

Lemma acceptor_round_robin_witness :
  exists a, accept_all [10; 11; 12; 13] (acceptor_new 3 1000) = Ok a /\
    forall i : Z, 0 <= i < 3 ->
      exists q, senders a !! Z.to_nat i = Some q /\ len q = (4 + 3 - 1 - i) / 3.
Proof. apply (acceptor_round_robin 3 1000 [10; 11; 12; 13]); lia. Defined.

(** A limit of zero, documented as no limit, turns every connection away. *)
Theorem zero_limit_rejects setup_ok alive active stream a :
  max_connections a = 0 -> 0 <= active -> accept setup_ok alive active stream a = Ok a.
Proof.
  intros Hm Ha. unfold accept. rewrite Hm. change (as_i64 0) with 0.
  by rewrite (proj2 (Z.leb_le 0 active) Ha).
Qed.

Lemma zero_limit_rejects_witness :
  accept true (fun _ => true) 0 10 (acceptor_new 3 0) = Ok (acceptor_new 3 0).
Proof. apply zero_limit_rejects; [reflexivity | lia]. Defined.
