(* ===== verification/Session.v ===== *)
(** * A connection from its first byte to its last answer

    The event loop calls a worker whenever a socket can be read or written
    (src/src/server/workerhandler.rs, src/src/server/connection.rs). Here a
    connection is followed over any number of such events: how the network
    cuts the requests, when the worker is called and how much of an answer the
    socket takes at a time make no difference to what the client receives. *)

From S2P Require Import Prelude Bffp Float World Engine Stats Dispatch Connection Worker.

(** ** A socket without errors *)

(** The bytes an event brings to the connection. *)
Definition brought (ev : Event) : bytes := if readable ev then delivered (ev_reads ev) else [].

Definition calm_write (w : WriteEvent) : Prop :=
  match w with WrBytes n => 0 <= n | WrErr _ => False | _ => True end.

Record calm (ev : Event) : Prop := {
  calm_reads : quiet (ev_reads ev);
  calm_writes : Forall calm_write (ev_writes ev);
  calm_registered : reregister_ok ev = true;
}.

Section Deliver.
Context {S : Type} `{SE : StorageEngine S} `{HW : HasWorld S} `{CK : Clock} `{ET : ErrorText}
  `{SW : Stopwatch}.

(** The events of one connection, one after the other: all the bytes sent. *)
Fixpoint deliver (cfg : CompactionCfg) (token : Z) (evs : list Event) : ST (WorkerState S) bytes :=
  match evs with
  | [] => st_ret []
  | ev :: evs' =>
      let* sent := on_event cfg token ev in
      let* rest := deliver cfg token evs' in
      st_ret (sent ++ rest)
  end.

(** The connection can take more requests: its parser holds the state [p] and
    [out] is still to be sent. *)
Record open (h : WorkerHandler) (token : Z) (p : FrameParser) (out : bytes) : Prop := mkOpen {
  o_conn : exists c, conns h !! token = Some c /\ conn_wf c /\ parser c = p /\
    pending_close c = false /\ pending c = out;
  o_parser : parser_wf p;
  o_idle : idle p;
}.

(** ** Lemmas: reading and writing *)

Lemma feed_split p a b p2 cs :
  parser_wf p -> feed p (a ++ b) = (p2, Ok (cs, Continue)) ->
  exists p1 c1 c2, feed p a = (p1, Ok (c1, Continue)) /\ feed p1 b = (p2, Ok (c2, Continue)) /\
    cs = c1 ++ c2 /\ parser_wf p1 /\ idle p1.
Proof.
  intros Hw. rewrite !feed_run.
  replace (extend p (a ++ b)) with (extend (extend p a) b)
    by (unfold extend; cbn; by rewrite app_assoc).
  pose proof (run_wf (extend p a) Hw) as Hwf.
  destruct (run (extend p a)) as [[p1 c1] r] eqn:E. cbn [fst] in Hwf.
  destruct (decide (r = Ok Continue)) as [->|Hne].
  - rewrite (run_extend _ b _ _ (extend_wf p a Hw) E).
    destruct (run (extend p1 b)) as [[p3 c3] r3] eqn:E3. destruct r3 as [act| |]; try done.
    cbn. intros [= -> <- ->]. exists p1, c1, c3. rewrite feed_run, E3.
    split_and!; try done. exact (run_idle _ _ _ (extend_wf p a Hw) E).
  - destruct (run_extend_stop _ b _ _ _ (extend_wf p a Hw) E Hne) as [p3 ->].
    destruct r as [[]| |]; done.
Qed.

Lemma feed_after p x p' cs :
  parser_wf p -> feed p x = (p', Ok (cs, Continue)) -> parser_wf p' /\ idle p'.
Proof.
  intros Hw E. pose proof E as E0. rewrite <- (app_nil_r x) in E0.
  destruct (feed_split _ _ _ _ _ Hw E0) as (p1 & c1 & c2 & E1 & _ & _ & H). rewrite E in E1.
  by injection E1 as -> _.
Qed.

Lemma read_quiet reads : forall c acc p' cs,
  parser_wf (parser c) -> idle (parser c) -> quiet reads ->
  feed (parser c) (delivered reads) = (p', Ok (cs, Continue)) ->
  exists now, on_readable_loop c acc reads
    = (with_parser (with_activity c now) p', Ok (acc ++ cs, Continue)).
Proof.
  assert (Hnil : forall c acc p' cs, idle (parser c) -> feed (parser c) [] = (p', Ok (cs, Continue)) ->
    (c, Ok (acc, Continue)) = (with_parser (with_activity c (last_activity c)) p',
                               Ok (acc ++ cs, Continue))).
  { intros c acc p' cs Hi. rewrite feed_run, extend_nil, Hi. cbn. intros [= <- <-].
    rewrite app_nil_r. by destruct c. }
  induction reads as [|ev reads IH]; intros c acc p' cs Hw Hi Hq Hf; [by eauto|].
  destruct ev as [now chunk| | |e]; cbn [quiet delivered on_readable_loop] in *; [|by eauto|by eauto|done].
  destruct Hq as [Hne Hq].
  rewrite (proj2 (Z.eqb_neq _ _))
    by (destruct chunk; [done|]; simp_len; pose proof (len_nonneg chunk); lia).
  cbn [parser with_activity].
  destruct (feed_split _ _ _ _ _ Hw Hf) as (p1 & c1 & c2 & E1 & E2 & -> & Hw1 & Hi1). rewrite E1.
  destruct (IH (with_parser (with_activity c now) p1) (acc ++ c1) p' c2 Hw1 Hi1 Hq E2) as [now' E].
  exists now'. rewrite E, app_assoc. by destruct c.
Qed.

Lemma write_done c sent writes :
  len (write_buf c) <= write_offset c -> on_writable c sent writes = (with_writes c [] 0, sent, Ok tt).
Proof. intros Hl. apply Z.leb_le in Hl. destruct writes; cbn [on_writable]; by rewrite Hl. Qed.

Lemma write_calm c sent writes :
  conn_wf c -> Forall calm_write writes ->
  exists c' sent', on_writable c sent writes = (c', sent', Ok tt) /\ conn_wf c' /\
    sent' ++ pending c' = sent ++ pending c /\ parser c' = parser c /\
    pending_close c' = pending_close c.
Proof.
  revert c sent. induction writes as [|ev writes IH]; intros c sent Hw Hok;
    destruct c as [p wb off la pc]; unfold conn_wf, pending in *;
    cbn [on_writable write_buf write_offset] in *;
    destruct (Z.leb_spec (len wb) off) as [Hl|Hl];
    try (eexists _, _; split; [reflexivity|]; cbn; rewrite (drop_ge wb) by (unfold len in *; lia);
         split_and!; done).
  - eexists _, _. split; [reflexivity|]. done.
  - apply Forall_cons in Hok as [Hev Hok]. destruct ev as [n| | |e]; [| | |done].
    + cbn [calm_write] in Hev. destruct (Z.eqb_spec n 0) as [->|Hn0].
      { eexists _, _. split; [reflexivity|]. done. }
      cbn [with_writes write_buf write_offset parser last_activity pending_close] in *.
      assert (Hd : drop (Z.to_nat (off + n)) wb = drop (Z.to_nat n) (drop (Z.to_nat off) wb))
        by (rewrite drop_drop; f_equal; lia).
      destruct (Z.le_gt_cases (off + n) (len wb)) as [Hle|Hgt].
      * destruct (IH (mkConnection p wb (off + n) la pc)
          (sent ++ take (Z.to_nat n) (drop (Z.to_nat off) wb))) as (c' & sent' & E & H1 & H2 & H3 & H4);
          [cbn; lia | done |].
        exists c', sent'. cbn [write_buf write_offset] in H2.
        split_and!; [exact E | apply H1 | apply H1 | | exact H3 | exact H4].
        by rewrite H2, Hd, <- app_assoc, take_drop.
      * rewrite write_done by (cbn; lia). eexists _, _. split; [reflexivity|].
        assert (Hlen : len (drop (Z.to_nat off) wb) = len wb - off)
          by (unfold len; rewrite length_drop; unfold len in *; lia).
        rewrite take_ge by (unfold len in *; lia). cbn. rewrite app_nil_r. done.
    + eexists _, _. split; [reflexivity|]. done.
    + apply IH; done.
Qed.

Lemma enqueue_pending c resp :
  conn_wf c -> conn_wf (enqueue_response c resp) /\ pending (enqueue_response c resp) = pending c ++ resp.
Proof.
  intros [H1 H2]. destruct c as [p wb off la pc]. unfold conn_wf, pending, enqueue_response in *.
  cbn in *. simp_len. pose proof (len_nonneg resp). split; [lia|]. apply drop_app_le.
  unfold len in *. lia.
Qed.

Lemma answers_app cfg a b s s' l :
  answers cfg (a ++ b) s = (s', Ok l) ->
  exists s1 l1 l2, answers cfg a s = (s1, Ok l1) /\ answers cfg b s1 = (s', Ok l2) /\ l = l1 ++ l2.
Proof.
  revert s l. induction a as [|c a IH]; intros s l E; [by exists s, [], l|].
  cbn in *. unfold st_bind in *. destruct (dispatch cfg c s) as [s1 [res| |]]; try done.
  destruct (answers cfg (a ++ b) s1) as [s2 [rest| |]] eqn:E2; try done. injection E as -> <-.
  destruct (IH s1 rest E2) as (s3 & l1 & l2 & -> & E3 & ->). by exists s3, (res :: l1), l2.
Qed.

(** ** One event *)

Lemma event_step cfg token ev h s p out p' cmds s' l :
  open h token p out -> calm ev -> feed p (brought ev) = (p', Ok (cmds, Continue)) ->
  answers cfg cmds s = (s', Ok l) ->
  exists h' sent out', on_event cfg token ev (h, s) = ((h', s'), Ok sent) /\
    open h' token p' out' /\ sent ++ out' = out ++ concat l.
Proof.
  intros [(c & Hc & Hwf & <- & Hpc & <-) Hpw Hpi] [Hq Hcw Hre] Hf Ha.
  unfold on_event. rewrite Hc.
  assert (Hr : exists c1, handle_readable cfg ev c s = (s', Ok (c1, false)) /\ conn_wf c1 /\
    parser c1 = p' /\ pending_close c1 = false /\ pending c1 = pending c ++ concat l).
  { unfold handle_readable, brought in *. rewrite Hpc. destruct (readable ev); cbn [andb negb].
    - destruct (read_quiet _ c [] p' cmds Hpw Hpi Hq Hf) as [now E]. unfold on_readable. rewrite E.
      cbn [app]. pose proof (serve_answers cfg cmds (with_parser (with_activity c now) p') s) as Hs.
      rewrite Ha in Hs. rewrite (st_bind_Ok _ _ _ _ _ Hs). eexists. split; [reflexivity|].
      destruct (enqueue_pending (with_parser (with_activity c now) p') (concat l)) as [H1 H2]; [done|].
      by split_and!.
    - rewrite feed_run, extend_nil, Hpi in Hf. injection Hf as <- <-. injection Ha as <- <-.
      exists c. cbn. by rewrite app_nil_r. }
  destruct Hr as (c1 & -> & Hwf1 & Hp1 & Hpc1 & Hpend). unfold handle_writable.
  destruct (feed_after _ _ _ _ Hpw Hf) as [Hpw' Hpi'].
  assert (Hopen : forall c2, conn_wf c2 -> parser c2 = p' -> pending_close c2 = false ->
    open (with_conns (<[token := c2]> (delete token (conns h))) (with_conns (delete token (conns h)) h))
      token p' (pending c2)).
  { intros c2 H1 H2 H3. split; [|done|done]. exists c2. split_and!; try done.
    apply lookup_insert_eq. }
  cbn [negb andb]. destruct (has_pending_writes c1) eqn:Ehp.
  - destruct (write_calm c1 [] _ Hwf1 Hcw) as (c2 & sent & E2 & Hwf2 & Hsent & Hp2 & Hpc2).
    rewrite E2. cbn [orb]. rewrite Hpc2, Hpc1. cbn [andb]. rewrite Hre.
    eexists _, _, (pending c2). split; [reflexivity|]. split; [|by rewrite Hsent].
    apply Hopen; congruence.
  - cbn [orb]. rewrite Hpc1. cbn [andb]. rewrite Hre.
    eexists _, _, (pending c1). split; [reflexivity|]. split; [by apply Hopen | by rewrite Hpend].
Qed.

Lemma deliver_run cfg token evs : forall h s p out p' cmds s' l,
  open h token p out -> Forall calm evs ->
  feed p (concat (map brought evs)) = (p', Ok (cmds, Continue)) ->
  answers cfg cmds s = (s', Ok l) ->
  exists h' sent out', deliver cfg token evs (h, s) = ((h', s'), Ok sent) /\
    open h' token p' out' /\ sent ++ out' = out ++ concat l.
Proof.
  induction evs as [|ev evs IH]; intros h s p out p' cmds s' l Ho Hc Hf Ha; cbn [map concat deliver] in *.
  - rewrite feed_run, extend_nil, (o_idle _ _ _ _ Ho) in Hf. injection Hf as <- <-.
    injection Ha as <- <-. exists h, [], out. by rewrite app_nil_r.
  - apply Forall_cons in Hc as [Hev Hc].
    destruct (feed_split _ _ _ _ _ (o_parser _ _ _ _ Ho) Hf) as (p1 & c1 & c2 & E1 & E2 & -> & _).
    destruct (answers_app _ _ _ _ _ _ Ha) as (s1 & l1 & l2 & Ea1 & Ea2 & ->).
    destruct (event_step _ _ _ _ _ _ _ _ _ _ _ Ho Hev E1 Ea1) as (h1 & sent1 & out1 & Ee & Ho1 & Es1).
    destruct (IH _ _ _ _ _ _ _ _ Ho1 Hc E2 Ea2) as (h2 & sent2 & out2 & Ed & Ho2 & Es2).
    exists h2, (sent1 ++ sent2), out2. rewrite (st_bind_Ok _ _ _ _ _ Ee), (st_bind_Ok _ _ _ _ _ Ed).
    split_and!; [done | done |]. by rewrite <- app_assoc, Es2, app_assoc, Es1, concat_app, app_assoc.
Qed.

(** A connection the worker has just taken from the channel. *)
Lemma open_new h token now :
  conns h !! token = Some (connection_new now) -> open h token parser_new [].
Proof.
  intros Hc. split; [|done|by apply run_short]. exists (connection_new now).
  by split_and!; try (split; vm_compute).
Qed.

(** ** The theorem *)

(** C11: A connection refines the sequential execution of its commands. Let a new
    connection receive the frames of any commands, then the first bytes of
    another, cut into reads and events in any way, with the socket taking the
    output in pieces of any size; as long as no command panics, the commands
    are executed in order, once each, and what was sent followed by what is
    still to be sent is the concatenation of their answers. The connection
    stays open. *)
Theorem connection_refines cfg token now evs (h : WorkerHandler) s cs stream tail s' l :
  conns h !! token = Some (connection_new now) -> Forall calm evs ->
  pipeline cs stream -> len tail < 4 -> concat (map brought evs) = stream ++ tail ->
  answers cfg cs s = (s', Ok l) ->
  exists h' sent c', deliver cfg token evs (h, s) = ((h', s'), Ok sent) /\
    conns h' !! token = Some c' /\ sent ++ pending c' = concat l /\ pending_close c' = false.
Proof.
  intros Hc Hcalm Hp Ht Hb Ha.
  assert (Hf : feed parser_new (concat (map brought evs))
    = (mkFrameParser AwaitingLength tail, Ok (cs, Continue))) by (rewrite Hb; by apply feed_frames).
  destruct (deliver_run cfg token evs h s _ [] _ _ _ _ (open_new h token now Hc) Hcalm Hf Ha)
    as (h' & sent & out & Ed & [(c' & Hc' & _ & _ & Hpc & <-) _ _] & Hs).
  by exists h', sent, c'.
Qed.
End Deliver.
