(* ===== verification/Startup.v ===== *)
(** * Starting the server (src/src/main.rs, src/src/server/lifecycle.rs)

    From the settings to an engine on a directory, and from there to a server
    with its workers and its acceptor. What the operating system decides (the
    address the listener got, the number of processors, whether an event loop
    could be made) is an argument. *)

From S2P Require Import Prelude Utf8 Record Collections Memtable Wal Hint Text Segment Utils.
From S2P Require Import Settings HashIndex World Engine KvEngine KvLog KvInv KvOps KvCompact.
From S2P Require Import KvSpec KvRestart KvTheorems Sstable Float Strategy SizeTiered Leveled.
From S2P Require Import LsmEngine Bffp Connection Stats Dispatch Worker.
From S2P Require Import Settings.

(** ** The engine (main.rs) *)

Inductive Database :=
  | DbKv (db : KVEngine)
  | DbSizeTiered (db : LsmEngine SizeTiered)
  | DbLeveled (db : LsmEngine Leveled).

Section Open.
Context `{HashOrder} `{Clock} {F : Type}.

Definition open_database (settings : Settings F) : ST World Database :=
  match engine settings with
  | EtKV =>
      let* found := from_dir (s_db_name settings) (s_max_segment_bytes settings)
                      (sync_strategy settings) in
      match found with
      | Some db => st_ret (DbKv db)
      | None =>
          let* db := kv_new (s_db_name settings) (s_max_segment_bytes settings)
                       (sync_strategy settings) in
          st_ret (DbKv db)
      end
  | EtLsm =>
      let block_size_bytes := wrap64 (block_size_kb settings * 1024) in
      let block_compression_enabled :=
        match block_compression settings with BcLz77 => true | BcNone => false end in
      let open {T} (strategy : T) : ST World (LsmEngine T) :=
        lsm_from_dir (s_db_name settings) (s_max_segment_bytes settings) strategy
          block_size_bytes block_compression_enabled in
      match storage_strategy settings with
      | SkSizeTiered =>
          let* strategy := st_load_from_dir (s_db_name settings) 4 32 block_size_bytes
                             block_compression_enabled in
          let* db := open strategy in st_ret (DbSizeTiered db)
      | SkLeveled =>
          let* strategy := lv_load_from_dir (s_db_name settings) (leveled_num_levels settings)
                             (leveled_l0_threshold settings) (leveled_l1_max_bytes settings)
                             block_size_bytes block_compression_enabled in
          let* db := open strategy in st_ret (DbLeveled db)
      end
  end.
End Open.

(** ** The server (lifecycle.rs) *)

(** Addresses of version 4 and 6 as the integers they encode. *)
Inductive SocketAddr :=
  | V4 (ip port : Z)
  | V6 (ip port flowinfo scope_id : Z).

Definition connect_addr (actual_addr : SocketAddr) : SocketAddr :=
  match actual_addr with
  | V4 ip port => if ip =? 0 then V4 (127 * 2 ^ 24 + 1) port else actual_addr
  | V6 ip port _ _ => if ip =? 0 then V6 1 port 0 0 else actual_addr
  end.

(** What [start] leaves running. *)
Record Running := mkRunning {
  r_cfg : CompactionCfg;
  r_workers : list WorkerHandler;
  r_acceptor : Acceptor;
}.

(** The loop over the workers. *)
Fixpoint make_workers (event_loop : nat -> result unit) (timeout : option Z) (l : list nat)
    : result (list WorkerHandler) :=
  match l with
  | [] => Ok []
  | i :: l' =>
      let? h := worker_make (event_loop i) timeout in
      let? hs := make_workers event_loop timeout l' in
      Ok (h :: hs)
  end.

Lemma make_workers_length loops timeout l hs : make_workers loops timeout l = Ok hs -> length hs = length l.
Proof.
  revert hs. induction l as [|i l IH]; intros hs; cbn [make_workers]; [by intros [= <-]|].
  destruct (worker_make _ _); [|done|done]. cbn [rbind].
  destruct (make_workers _ _ l); [|done|done]. intros [= <-]. cbn. by rewrite (IH _ eq_refl).
Qed.

Lemma make_workers_total timeout l : exists hs, make_workers (fun _ => Ok tt) timeout l = Ok hs.
Proof. induction l as [|i l [hs IH]]; cbn [make_workers]; [by eexists|]. rewrite IH. by eexists. Qed.

Section Start.
(** [Display] of a socket address. *)
Context (show_addr : SocketAddr -> str).

(** [bound] is what binding the listener and asking for its address gave,
    [parallelism] what [available_parallelism] gave, [event_loop i] whether the
    loop and the thread of worker [i] could be made. The workers measure time in
    milliseconds. *)
Definition server_start (bound : result SocketAddr) (parallelism : result Z)
    (event_loop : nat -> result unit) (settings : Settings spec_float) : ST World Running :=
  let* actual_addr := st_lift bound in
  let* _ := write_file (bs "server.addr") (show_addr (connect_addr actual_addr)) in
  let n_workers :=
    default (match parallelism with Ok n => n | _ => 1 end) (workers settings) in
  let cfg := mkCompactionCfg (compaction_ratio settings) (compaction_max_segment settings) in
  let* handlers := st_lift (make_workers event_loop (Z.mul 1000 <$> read_timeout_secs settings)
                              (seq 0 (Z.to_nat n_workers))) in
  st_ret (mkRunning cfg handlers (acceptor_new n_workers (max_connections settings))).
End Start.

(** ** Lemmas: the address file is no file of an engine *)

Definition addr_file : str := bs "server.addr".

Lemma addr_not_segment name : db_segment name addr_file = None.
Proof. done. Qed.

Lemma addr_not_suffix suf s : strip_suffix suf addr_file = None -> addr_file <> s ++ suf.
Proof. intros H E. rewrite E, strip_suffix_app in H. done. Qed.

Lemma addr_not_wal name : addr_file <> wal_name name.
Proof. by apply addr_not_suffix. Qed.

Lemma addr_not_hint s : addr_file <> hint_filename s.
Proof. unfold hint_filename. rewrite !app_assoc. by apply addr_not_suffix. Qed.

Lemma kv_good_addr `{CK : Clock} N e w m b :
  kv_good N (mkKvState e w) m -> kv_good N (mkKvState e (with_disk w (<[addr_file := b]> (disk w)))) m.
Proof.
  intros (l & ts & rs & [H1 H2 H3 H4 H5] & Hm & Hw). exists l, ts, rs. split_and!; [|done|].
  - split; try done. apply lod_other; [exact H1 | apply addr_not_segment].
  - apply wal_ok_other; [exact Hw | apply addr_not_wal].
Qed.

(** ** Sessions of the server over a hash engine *)

(** A start of the program: its settings, the address it got and the number of
    processors. *)
Record Boot := mkBoot {
  b_settings : Settings spec_float;
  b_addr : SocketAddr;
  b_parallelism : result Z;
}.

(** Sessions that follow one another, each a run of an abstract store that
    starts where the one before it ended. *)
Inductive sessions_spec {Op} (run : nat -> nat -> list Op -> list (result kv_out) -> kvmap -> kvmap -> Prop) :
    nat -> nat -> list (list Op) -> list (list (result kv_out)) -> kvmap -> kvmap -> Prop :=
  | sessions_nil t m : sessions_spec run t t [] [] m m
  | sessions_cons t0 t1 t2 t3 ops rs opss rss m m1 m2 :
      (t0 <= t1)%nat -> run t1 t2 ops rs m m1 -> sessions_spec run t2 t3 opss rss m1 m2 ->
      sessions_spec run t0 t3 (ops :: opss) (rs :: rss) m m2.

Section Sessions.
Context `{HO : HashOrder} `{CK : Clock} (show_addr : SocketAddr -> str).

(** Start, run the operations of the clients, stop. *)
Definition kv_session (b : Boot) (ops : list kv_op) : ST World (list (result kv_out)) :=
  let* db := open_database (b_settings b) in
  let* _ := server_start show_addr (Ok (b_addr b)) (b_parallelism b) (fun _ => Ok tt) (b_settings b) in
  match db with
  | DbKv e => fun w => let '(s, rs) := run_ops ops (mkKvState e w) in (world s, Ok rs)
  | _ => st_lift Panic
  end.

Fixpoint kv_sessions (l : list (Boot * list kv_op)) : ST World (list (list (result kv_out))) :=
  match l with
  | [] => st_ret []
  | (b, ops) :: l' =>
      let* rs := kv_session b ops in
      let* rss := kv_sessions l' in
      st_ret (rs :: rss)
  end.

(** Every session ends within the readings of the clock. *)
Fixpoint sessions_within (N : nat) (l : list (Boot * list kv_op)) (w : World) : Prop :=
  match l with
  | [] => True
  | (b, ops) :: l' =>
      let w' := (kv_session b ops w).1 in (ticks w' <= N)%nat /\ sessions_within N l' w'
  end.

Definition session_ok (name : str) (p : Boot * list kv_op) : Prop :=
  engine (b_settings p.1) = EtKV /\ s_db_name (b_settings p.1) = name /\
  Forall op_ok p.2 /\ Forall (fun op => op <> KCompact) p.2.

Context (N : nat) `{GC : !GoodClock N}.

(** A directory an engine has left. *)
Definition at_rest (name : str) (w : World) (m : kvmap) : Prop :=
  exists e, kv_good N (mkKvState e w) m /\ no_hints (disk w) /\ db_name e = name.

Lemma server_start_run addr par settings w :
  exists r, server_start show_addr (Ok addr) par (fun _ => Ok tt) settings w
    = (with_disk w (<[addr_file := show_addr (connect_addr addr)]> (disk w)), Ok r).
Proof.
  unfold server_start. do 2 (erewrite st_bind_Ok by reflexivity).
  edestruct make_workers_total as [hs E]. rewrite E. erewrite st_bind_Ok by reflexivity. by eexists.
Qed.

(** From an opened engine to the end of the session. *)
Lemma session_run b ops w w1 e :
  open_database (b_settings b) w = (w1, Ok (DbKv e)) ->
  let s := mkKvState e (with_disk w1 (<[addr_file := show_addr (connect_addr (b_addr b))]> (disk w1))) in
  kv_session b ops w = (world (run_ops ops s).1, Ok (run_ops ops s).2).
Proof.
  intros E s. unfold kv_session. rewrite (st_bind_Ok _ _ _ _ _ E).
  destruct (server_start_run (b_addr b) (b_parallelism b) (b_settings b) w1) as [r Er].
  rewrite (st_bind_Ok _ _ _ _ _ Er). fold s. by destruct (run_ops ops s).
Qed.

Lemma session_refine name b ops w w1 e m :
  open_database (b_settings b) w = (w1, Ok (DbKv e)) -> kv_good N (mkKvState e w1) m ->
  plain name (mkKvState e w1) -> session_ok name (b, ops) ->
  (ticks (kv_session b ops w).1 <= N)%nat ->
  exists w' rs m', kv_session b ops w = (w', Ok rs) /\ at_rest name w' m' /\
    spec_run (ticks w1) (ticks w') ops rs m m'.
Proof.
  intros E Hi Hp (_ & _ & Hok & Hnc) Hn. pose proof (session_run b ops w w1 e E) as Hs. cbn zeta in Hs.
  rewrite Hs in Hn |- *. cbn [fst] in Hn.
  match type of Hn with context [run_ops ops ?st] => set (s := st) in * end.
  assert (Hi' : kv_good N s m) by (by apply kv_good_addr).
  assert (Hp' : plain name s).
  { destruct Hp as (Hh & Hname & Ha). split_and!; [|done|done]. apply no_hints_insert; [done|].
    intros sg. apply addr_not_hint. }
  destruct (run_ops_refine N ops s m Hi' Hok Hn) as (m' & Hi2 & Hr).
  destruct (run_ops_plain name ops s Hp' Hnc) as (Hh & Hname & _).
  exists (world (run_ops ops s).1), (run_ops ops s).2, m'. split_and!; [done | | exact Hr].
  exists (eng (run_ops ops s).1). split_and!; [by destruct (run_ops ops s) as [[]] | exact Hh | exact Hname].
Qed.

(** A later start finds what the earlier ones wrote. *)
Lemma open_at_rest name (settings : Settings spec_float) w m :
  engine settings = EtKV -> s_db_name settings = name -> at_rest name w m ->
  exists w' e, open_database settings w = (w', Ok (DbKv e)) /\ kv_good N (mkKvState e w') m /\
    plain name (mkKvState e w') /\ ticks w' = ticks w.
Proof.
  intros He Hn (e0 & Hi & Hh & Hname). unfold open_database. rewrite He, Hn.
  destruct (from_dir_run N (mkKvState e0 w) m (s_max_segment_bytes settings) (sync_strategy settings) Hi Hh)
    as (e' & w' & E & Hi' & Hh' & Hname' & Ht). cbn [eng world] in *. rewrite Hname in *.
  rewrite (st_bind_Ok _ _ _ _ _ E). exists w', e'. split_and!; try done.
  split_and!; [exact Hh' | done |]. destruct Hi' as (l & ts & rs & Hs & _). eexists. apply Hs.
Qed.

(** The first start makes a fresh engine. *)
Lemma open_fresh name (settings : Settings spec_float) :
  (0 < N)%nat -> engine settings = EtKV -> s_db_name settings = name ->
  exists w' e, open_database settings empty_world = (w', Ok (DbKv e)) /\ kv_good N (mkKvState e w') ∅ /\
    plain name (mkKvState e w') /\ ticks w' = 1%nat.
Proof.
  intros HN He Hn. unfold open_database. rewrite He, Hn.
  assert (E : from_dir name (s_max_segment_bytes settings) (sync_strategy settings) empty_world
    = (empty_world, Ok None)) by reflexivity.
  rewrite (st_bind_Ok _ _ _ _ _ E).
  destruct (fresh_engine N name (s_max_segment_bytes settings) (sync_strategy settings) HN)
    as (w & e & E' & Hi & Hp & Ht).
  rewrite (st_bind_Ok _ _ _ _ _ E'). by exists w, e.
Qed.

Lemma sessions_refine name l : forall w m,
  at_rest name w m -> Forall (session_ok name) l -> sessions_within N l w ->
  exists w' rss m', kv_sessions l w = (w', Ok rss) /\ at_rest name w' m' /\
    sessions_spec spec_run (ticks w) (ticks w') (snd <$> l) rss m m'.
Proof.
  induction l as [|[b ops] l IH]; intros w m Hr Hok Hn.
  { exists w, [], m. split_and!; [done | done | constructor]. }
  apply Forall_cons in Hok as [Hb Hok]. destruct Hn as [Hn Hns]. pose proof Hb as (He & Hname & _).
  destruct (open_at_rest name (b_settings b) w m He Hname Hr) as (w1 & e & E & Hi & Hp & Ht).
  destruct (session_refine name b ops w w1 e m E Hi Hp Hb Hn) as (w2 & rs & m2 & E2 & Hr2 & Hs2).
  rewrite E2 in Hns. cbn [fst] in Hns. destruct (IH w2 m2 Hr2 Hok Hns) as (w3 & rss & m3 & E3 & Hr3 & Hs3).
  exists w3, (rs :: rss), m3. cbn [kv_sessions]. rewrite (st_bind_Ok _ _ _ _ _ E2), (st_bind_Ok _ _ _ _ _ E3).
  split_and!; [done | done |]. cbn. eapply sessions_cons; [|exact Hs2 | exact Hs3]. lia.
Qed.
End Sessions.

(** ** Lemmas: there is a worker *)

(** A number of workers given on the command line is not zero. *)
Definition workers_ok {F} (s : Settings F) : Prop :=
  match workers s with Some n => 0 < n | None => True end.

Lemma apply_flag_workers {F} pa pr (s s' : Settings F) f v :
  workers_ok s -> apply_flag pa pr s f v = Ok s' -> workers_ok s'.
Proof.
  intros Hs E. destruct s, f; cbn [apply_flag] in E; unfold unwrap in E;
    repeat (case_match; cbn [rbind] in E); simplify_eq; try exact Hs.
  all: unfold workers_ok; cbn; try done.
  all: match goal with H : parse_uint _ _ = Some _ |- _ => apply parse_uint_nonneg in H end; lia.
Qed.

Lemma parse_args_workers {F} pa pr n : forall (s s' : Settings F) args,
  (length args <= n)%nat -> workers_ok s -> parse_args pa pr s args = Ok s' -> workers_ok s'.
Proof.
  induction n as [|n IH]; intros s s' [|arg args] Hn Hs; cbn [length] in Hn; try lia;
    cbn [parse_args]; try (by intros [= <-]).
  destruct (find_flag arg flag_names) as [f|]; [|apply IH; [lia | done]].
  destruct args as [|v args]; [by intros [= <-]|].
  destruct (apply_flag pa pr s f v) as [s1| |] eqn:E; cbn [rbind]; [|done|done].
  apply IH; [cbn in Hn; lia | by eapply apply_flag_workers].
Qed.

Lemma args_workers {F} (zero : F) pa pr args s :
  get_from_args zero pa pr args = Ok (Some s) -> workers_ok s.
Proof.
  unfold get_from_args. destruct args as [|prog [|path rest]]; [done|done|].
  destruct (existsb _ _); [done|].
  destruct (parse_args pa pr _ rest) as [s'| |] eqn:E; cbn [rmap]; [|done|done]. intros [= <-].
  by eapply (parse_args_workers pa pr (length rest)); [| |exact E].
Qed.

Lemma server_start_workers show bound par loops settings w w' r :
  workers_ok settings -> (forall n, par = Ok n -> 0 < n) ->
  server_start show bound par loops settings w = (w', Ok r) ->
  0 < num_workers (r_acceptor r) /\ len (r_workers r) = num_workers (r_acceptor r).
Proof.
  intros Hw Hp. unfold server_start, st_bind. destruct (st_lift bound w) as [? [addr| |]]; [|done|done].
  destruct (write_file _ _ _) as [? [| |]]; [|done|done].
  unfold st_lift. destruct (make_workers _ _ _) as [hs| |] eqn:E; [|done|done]. intros [= _ <-]. cbn.
  unfold len. rewrite (make_workers_length _ _ _ _ E), length_seq. unfold workers_ok in Hw.
  destruct (workers settings) as [n|]; cbn; [lia|]. destruct par as [n| |]; [|lia|lia].
  specialize (Hp n eq_refl). lia.
Qed.

(** What reaches the acceptor: whether the socket options could be set, which
    workers still receive, how many connections are open, and the stream. *)
Definition arrival : Type := bool * (Z -> bool) * Z * Z.

Definition accept_arrival (a : Acceptor) (x : arrival) : result Acceptor :=
  let '(setup_ok, alive, active, stream) := x in accept setup_ok alive active stream a.

Lemma accept_total l : forall a, 0 < num_workers a -> exists a', rfold accept_arrival a l = Ok a'.
Proof.
  induction l as [|[[[setup alive] active] stream] l IH]; intros a Ha; [by exists a|].
  cbn [rfold accept_arrival]. unfold accept. destruct (_ <=? active); [by apply IH|].
  destruct (negb setup); [by apply IH|]. rewrite (proj2 (Z.eqb_neq _ _)) by lia. cbn [rbind].
  apply IH. done.
Qed.

(** ** Theorems *)

Section Theorems.
Context `{HO : HashOrder} `{CK : Clock} (N : nat) `{GC : !GoodClock N}.

(** C8: The data outlive the process. Start the program with the hash engine on an
    empty directory any number of times, under any settings with the same
    database name, and let any operations of the engine but compactions, one
    after the other, run in each session: every start succeeds, and each session
    answers as the abstract store does that holds what the sessions before it
    left. (With a compaction it need not: [kv_stale_hint_loses_write].) *)
Theorem kv_survives_restarts show_addr name l :
  (0 < N)%nat -> Forall (session_ok name) l -> sessions_within show_addr N l empty_world ->
  exists w rss m, kv_sessions show_addr l empty_world = (w, Ok rss) /\
    sessions_spec spec_run 0 (ticks w) (snd <$> l) rss ∅ m.
Proof.
  intros HN Hok Hn. destruct l as [|[b ops] l].
  { exists empty_world, [], ∅. split; [done | constructor]. }
  apply Forall_cons in Hok as [Hb Hok]. destruct Hn as [Hn Hns]. pose proof Hb as (He & Hname & _).
  destruct (open_fresh N name (b_settings b) HN He Hname) as (w1 & e & E & Hi & Hp & Ht).
  destruct (session_refine show_addr N name b ops _ w1 e ∅ E Hi Hp Hb Hn) as (w2 & rs & m2 & E2 & Hr2 & Hs2).
  rewrite E2 in Hns. cbn [fst] in Hns.
  destruct (sessions_refine show_addr N name l w2 m2 Hr2 Hok Hns) as (w3 & rss & m3 & E3 & _ & Hs3).
  exists w3, (rs :: rss), m3. cbn [kv_sessions]. rewrite (st_bind_Ok _ _ _ _ _ E2), (st_bind_Ok _ _ _ _ _ E3).
  split; [done|]. cbn. eapply sessions_cons; [|exact Hs2 | exact Hs3]. lia.
Qed.

(** A started server always has a worker: whatever the command line, if the
    program has settings from it and [start] returns, there is at least one
    worker, and the acceptor takes any connections, in any circumstances,
    without ever failing. *)
Theorem started_server_accepts {zero pa pr} args settings show bound par loops w w' r l :
  get_from_args zero pa pr args = Ok (Some settings) -> (forall n, par = Ok n -> 0 < n) ->
  server_start show bound par loops settings w = (w', Ok r) ->
  1 <= len (r_workers r) /\ exists a, rfold accept_arrival (r_acceptor r) l = Ok a.
Proof.
  intros Ha Hp Hs.
  destruct (server_start_workers _ _ _ _ _ _ _ _ (args_workers _ _ _ _ _ Ha) Hp Hs) as [H1 H2].
  split; [lia | by apply accept_total].
Qed.
End Theorems.

(** ** Examples *)

#[local] Existing Instances example_clock example_order.

Definition example_show (a : SocketAddr) : str :=
  match a with V4 ip port => dec ip ++ bs ":" ++ dec port | V6 ip port _ _ => dec ip ++ bs ":" ++ dec port end.

Definition kv_settings (max : Z) : Settings spec_float :=
  mkSettings spec_float (bs "/data") (bs "0.0.0.0:6666") (bs "db") max FsAlways EtKV f64_zero 0
    SkSizeTiered 4 4 1000 4 BcLz77 (Some 30) 1000 None.

Definition example_sessions : list (Boot * list kv_op) :=
  [(mkBoot (kv_settings 30) (V4 0 6666) (Ok 4), example_ops);
   (mkBoot (kv_settings 1000) (V4 0 6666) (Ok 4), [KGet (bs "a"); KSet (bs "c") (bs "4") None]);
   (mkBoot (kv_settings 10) (V6 0 6666 0 0) (Err Other), [KList])].

Lemma kv_survives_restarts_witness :
  exists w rss m, kv_sessions example_show example_sessions empty_world = (w, Ok rss) /\
    sessions_spec spec_run 0 (ticks w) (snd <$> example_sessions) rss ∅ m.
Proof.
  apply (kv_survives_restarts 100 (GC := example_clock_good 100 ltac:(lia)) example_show (bs "db")).
  - lia.
  - repeat constructor; try apply example_ops_ok; try discriminate; vm_compute; done.
  - vm_compute. repeat split; lia.
Defined.

(** The settings of [rustikv /data -w 3]. *)
Definition three_workers : Settings spec_float :=
  mkSettings spec_float (bs "/data") (bs "0.0.0.0:6666") (bs "segment") (1048576 * 50) FsAlways EtKV
    f64_zero 0 SkSizeTiered 4 4 (10 * 1024 * 1024) 4 BcLz77 (Some 30) 1000 (Some 3).

Definition example_arrivals : list arrival :=
  [(true, fun _ => true, 0, 10); (false, fun _ => true, 0, 11); (true, fun _ => false, 2000, 12)].

Lemma started_server_accepts_witness :
  exists w r a, server_start example_show (Ok (V4 0 6666)) (Ok 8) (fun _ => Ok tt) three_workers empty_world
      = (w, Ok r) /\ 1 <= len (r_workers r) /\ rfold accept_arrival (r_acceptor r) example_arrivals = Ok a.
Proof.
  destruct (server_start example_show (Ok (V4 0 6666)) (Ok 8) (fun _ => Ok tt) three_workers empty_world)
    as [w [r|e|]] eqn:E; [|discriminate E | discriminate E].
  assert (Ha : get_from_args f64_zero Some (fun _ => None) [bs "rustikv"; bs "/data"; bs "-w"; bs "3"]
    = Ok (Some three_workers)) by reflexivity.
  assert (Hp : forall n, @Ok Z 8 = Ok n -> 0 < n) by (intros n [= <-]; lia).
  destruct (started_server_accepts _ _ _ _ _ _ _ _ _ example_arrivals Ha Hp E) as [H1 [a H2]].
  exists w, r, a. split; [reflexivity|]. split; [exact H1 | exact H2].
Defined.
