(* ===== verification/LsmSessions.v ===== *)
(** * Sessions of the server over the LSM engine

    The program is started on a directory, clients use it, the process stops,
    and it is started again (src/src/main.rs, src/src/server/lifecycle.rs). With
    the leveled strategy the data are there at the next start, unless the
    process stopped between the two steps of a flush that empty the log and
    write the table. *)

From S2P Require Import Prelude Utils Utf8 Bloom Collections Text Record Memtable Wal Block.
From S2P Require Import Sstable SstableSpec HashIndex World Engine KvEngine KvLog KvInv KvOps.
From S2P Require Import KvSpec KvTheorems Strategy Float SizeTiered Leveled LsmEngine TableInv.
From S2P Require Import LsmInv LeveledInv PlainLevels LsmSpec LsmTheorems LsmRestart Bffp Connection Stats Dispatch.
From S2P Require Import Worker Startup Settings.

Section Sessions.
Context `{HO : HashOrder} `{CK : Clock} `{NS : Nanos} `{SO : SetOrder}
  (show_addr : SocketAddr -> str).

(** Start, run what the clients and the background thread do, stop: where the
    flush was, and the answers. *)
Definition lsm_session (b : Boot) (acts : list lsm_act) : ST World (Flush * list (result kv_out)) :=
  let* db := open_database (b_settings b) in
  let* _ := server_start show_addr (Ok (b_addr b)) (b_parallelism b) (fun _ => Ok tt) (b_settings b) in
  match db with
  | DbLeveled e => fun w =>
      let '((e', w'), rs) := run_acts acts (e, w) in (w', Ok (flush_handle e', rs))
  | _ => st_lift Panic
  end.

Fixpoint lsm_sessions (l : list (Boot * list lsm_act)) : ST World (list (list (result kv_out))) :=
  match l with
  | [] => st_ret []
  | (b, acts) :: l' =>
      let* r := lsm_session b acts in
      let* rss := lsm_sessions l' in
      st_ret (r.2 :: rss)
  end.

(** Every session ends within the readings of the clock, and does not stop
    while the table of a flush is still to be written. *)
Fixpoint stops_ok (N : nat) (l : list (Boot * list lsm_act)) (w : World) : Prop :=
  match l with
  | [] => True
  | (b, acts) :: l' =>
      let '(w', r) := lsm_session b acts w in
      (ticks w' <= N)%nat /\ (forall rs, r <> Ok (Writing, rs)) /\ stops_ok N l' w'
  end.

Record leveled_settings (name : str) (s : Settings spec_float) : Prop := {
  ls_engine : engine s = EtLsm;
  ls_strategy : Settings.storage_strategy s = SkLeveled;
  ls_name : s_db_name s = name;
  ls_levels : 0 < leveled_num_levels s;
  ls_block : params_ok (wrap64 (block_size_kb s * 1024));
}.

Definition lsm_session_ok (name : str) (p : Boot * list lsm_act) : Prop :=
  leveled_settings name (b_settings p.1) /\ Forall act_ok p.2.

Context (N : nat) `{GT : !GoodTime N} `{RT : !RisingTime N}.

(** ** Opening *)

Lemma open_leveled name s w w' st e :
  leveled_settings name s ->
  lv_load_from_dir name (leveled_num_levels s) (leveled_l0_threshold s) (leveled_l1_max_bytes s)
    (wrap64 (block_size_kb s * 1024))
    (match Settings.block_compression s with BcLz77 => true | BcNone => false end) w = (w, Ok st) ->
  lsm_from_dir name (s_max_segment_bytes s) st (wrap64 (block_size_kb s * 1024))
    (match Settings.block_compression s with BcLz77 => true | BcNone => false end) w = (w', Ok e) ->
  open_database s w = (w', Ok (DbLeveled e)).
Proof.
  intros [He Hs Hn _ _] E1 E2. unfold open_database. rewrite He, Hs, Hn.
  rewrite (st_bind_Ok _ _ _ _ _ E1), (st_bind_Ok _ _ _ _ _ E2). done.
Qed.

(** An engine in good order on a tidy directory. *)
Definition lsm_good (name : str) (s : LsmState Leveled) (m : kvmap) : Prop :=
  (exists ops tabs, lsm_inv N name s m ops tabs) /\ tidy name s.

(** The first start. *)
Lemma open_leveled_fresh name s :
  leveled_settings name s ->
  exists w e, open_database s empty_world = (w, Ok (DbLeveled e)) /\ lsm_good name (e, w) ∅ /\
    ticks w = 0%nat.
Proof.
  intros Hs. set (b := wrap64 (block_size_kb s * 1024)).
  set (c := match Settings.block_compression s with BcLz77 => true | BcNone => false end).
  set (st := lv_new (leveled_num_levels s) (leveled_l0_threshold s) (leveled_l1_max_bytes s) b c).
  assert (Hst : levels st <> []) by (apply lv_new_ok, Hs).
  assert (Hall : lv_iter_all st = []) by apply lv_new_iter.
  destruct (lsm_new_inv N name (s_max_segment_bytes s) st b c empty_world) as ([e w] & E & Hi & Ht);
    [done | done | apply Hs | done |].
  exists w, e. assert (E' : lsm_from_dir name (s_max_segment_bytes s) st b c empty_world = (w, Ok e)).
  { unfold lsm_new in E. unfold lsm_from_dir, wal_open, open_create, st_bind, st_modify, open_read in *.
    assert (Hn : disk empty_world !! wal_name name = None) by apply lookup_empty.
    rewrite Hn in E |- *. cbn [disk with_disk]. rewrite lookup_insert_eq. exact E. }
  split; [by eapply open_leveled|]. split; [|done]. split; [by exists [], []|].
  unfold lsm_new, wal_open, open_create, st_bind, st_modify in E. cbn -[wal_name] in E. injection E as <- <-.
  split; try done. unfold tables_of. cbn [fst snd flush_handle LsmEngine.storage_strategy app]. rewrite Hall. split.
  - exists []. split_and!; constructor.
  - intros n t Hn Et. destruct (decide (n = wal_name name)) as [->|Hne].
    + by rewrite db_table_wal in Et.
    + change (is_Some ((<[wal_name name := []]> ∅ : files) !! n)) in Hn.
      rewrite lookup_insert_ne, lookup_empty in Hn by done. by destruct Hn.
Qed.

(** The address file changes nothing. *)
Lemma lsm_good_addr name e w m b :
  lsm_good name (e, w) m -> lsm_good name (e, with_disk w (<[addr_file := b]> (disk w))) m.
Proof.
  intros [(ops & tabs & [H1 H2 H3 H4 H5 H6 H7 H8 H9 H10 H11 H12]) [T1 T2 T3 T4]]. cbn [fst snd] in *.
  pose proof T4 as [(ixs & HF & _) _].
  assert (Hp : Forall (fun t => path t <> addr_file) (tables_of e)).
  { apply Forall_lookup. intros i t Ht. destruct (Forall2_lookup_l _ _ _ _ _ HF Ht) as (j & _ & [_ _ _ Ep]).
    rewrite Ep. unfold sst_filename. rewrite !app_assoc. apply not_eq_sym, addr_not_suffix. done. }
  assert (Hn : forall lvl ts, sst_filename name lvl ts <> addr_file).
  { intros lvl ts. apply not_eq_sym. destruct lvl; unfold sst_filename; rewrite !app_assoc;
      by apply addr_not_suffix. }
  unfold tables_of in Hp. apply Forall_app in Hp as [Hp1 Hp2].
  split; [exists ops, tabs; split; cbn [fst snd disk ticks with_disk]; try done | split; try done].
  - apply holds_all_insert; [by right | done].
  - unfold flush_ok in *. destruct (flush_handle e), (immutable e); try done. destruct H6 as [Hh Hw].
    split; [|done]. apply holds_insert; [right; by apply Forall_inv in Hp1 | done].
  - rewrite lookup_insert_ne; [done | apply addr_not_wal].
  - intros i lvl Hi HN. rewrite H12. rewrite lookup_insert_ne by (apply not_eq_sym, Hn).
    rewrite <- H12. by apply H11.
  - eapply dir_ok_grow; [exact T4 | cbn; lia |]. cbn [disk snd with_disk]. intros n t Hd Et.
    destruct (decide (n = addr_file)) as [->|]; [by rewrite db_table_other in Et|].
    by rewrite lookup_insert_ne in Hd.
Qed.

(** ** A session *)

Lemma lsm_session_refine name b acts w w1 e m :
  open_database (b_settings b) w = (w1, Ok (DbLeveled e)) -> lsm_good name (e, w1) m ->
  lsm_session_ok name (b, acts) -> (ticks (lsm_session b acts w).1 <= N)%nat ->
  exists e' w' rs m', lsm_session b acts w = (w', Ok (flush_handle e', rs)) /\
    lsm_good name (e', w') m' /\ lsm_run (ticks w1) (ticks w') acts rs m m'.
Proof.
  intros E Hg [_ Hok] HN. unfold lsm_session in *. rewrite (st_bind_Ok _ _ _ _ _ E) in *.
  destruct (server_start_run show_addr (b_addr b) (b_parallelism b) (b_settings b) w1) as [r Er].
  rewrite (st_bind_Ok _ _ _ _ _ Er) in *. clear Er.
  apply (lsm_good_addr name e w1 m (show_addr (connect_addr (b_addr b)))) in Hg.
  revert Hg HN. set (w2 := with_disk _ _). intros [(ops & tabs & Hi) Ht] HN.
  pose proof (tidy_run_acts name acts (e, w2) Ht Hok) as Ht'.
  destruct (run_acts_refine N name acts (e, w2) m ops tabs Hi Hok (any_acts acts)) as (m' & ops' & tabs' & Hi' & Hr);
    destruct (run_acts acts (e, w2)) as [[e' w'] rs]; [exact HN|].
  exists e', w', rs, m'. split_and!; [done | | exact Hr]. split; [by exists ops', tabs' | done].
Qed.

(** ** Sessions *)

Context (name : str) (Hflat : flat_name name = true).

(** A directory an engine has left. *)
Definition lsm_at_rest (w : World) (m : kvmap) : Prop :=
  exists e, lsm_good name (e, w) m /\ flush_handle e <> Writing /\ (ticks w <= N)%nat.

Lemma open_leveled_at_rest s w m :
  leveled_settings name s -> lsm_at_rest w m ->
  exists e, open_database s w = (w, Ok (DbLeveled e)) /\ lsm_good name (e, w) m.
Proof.
  intros Hs (e & [(ops & tabs & Hi) Ht] & Hw & HN).
  destruct (reopen_tidy N name Hflat e w m ops tabs (s_max_segment_bytes s) (leveled_num_levels s)
    (leveled_l0_threshold s) (leveled_l1_max_bytes s) (wrap64 (block_size_kb s * 1024))
    (match Settings.block_compression s with BcLz77 => true | BcNone => false end) Hi Ht Hw HN)
    as (st & e' & E1 & E2 & (tabs' & Hi') & Ht' & _); [apply Hs | apply Hs |].
  exists e'. split; [by eapply open_leveled|]. split; [by exists ops, tabs' | done].
Qed.

(** One session, and what it leaves for the next. *)
Lemma lsm_session_rest b acts w w1 e m :
  open_database (b_settings b) w = (w1, Ok (DbLeveled e)) -> lsm_good name (e, w1) m ->
  lsm_session_ok name (b, acts) -> stops_ok N [(b, acts)] w ->
  exists w' h rs m', lsm_session b acts w = (w', Ok (h, rs)) /\ lsm_at_rest w' m' /\
    lsm_run (ticks w1) (ticks w') acts rs m m'.
Proof.
  intros E Hg Hok Hst. cbn in Hst.
  destruct (lsm_session_refine name b acts w w1 e m E Hg Hok) as (e' & w' & rs & m' & E' & Hg' & Hr).
  { by destruct (lsm_session b acts w); destruct Hst. }
  rewrite E' in Hst. destruct Hst as (HN & Hw & _).
  exists w', (flush_handle e'), rs, m'. split_and!; [done | | done].
  exists e'. split_and!; [done | | done]. intros Eh. by apply (Hw rs); rewrite Eh.
Qed.

Lemma lsm_sessions_refine l : forall w m,
  lsm_at_rest w m -> Forall (lsm_session_ok name) l -> stops_ok N l w ->
  exists w' rss m', lsm_sessions l w = (w', Ok rss) /\
    sessions_spec lsm_run (ticks w) (ticks w') (snd <$> l) rss m m'.
Proof.
  induction l as [|[b acts] l IH]; intros w m Hr Hok Hst.
  { exists w, [], m. split; [done | constructor]. }
  apply Forall_cons in Hok as [Hb Hok].
  destruct (open_leveled_at_rest (b_settings b) w m (proj1 Hb) Hr) as (e & E & Hg).
  destruct (lsm_session_rest b acts w w e m E Hg Hb) as (w' & h & rs & m' & E' & Hr' & Hs);
    cbn in Hst; [cbn; destruct (lsm_session b acts w); naive_solver|].
  rewrite E' in Hst. destruct (IH w' m' Hr' Hok) as (w2 & rss & m2 & E2 & Hs2); [apply Hst|].
  exists w2, (rs :: rss), m2. cbn [lsm_sessions]. rewrite (st_bind_Ok _ _ _ _ _ E'), (st_bind_Ok _ _ _ _ _ E2).
  split; [done|]. cbn. eapply sessions_cons; [|exact Hs | exact Hs2]. lia.
Qed.
End Sessions.

(** ** Theorems *)

Section Theorems.
Context `{HO : HashOrder} `{CK : Clock} `{NS : Nanos} `{SO : SetOrder} (N : nat)
  `{GT : !GoodTime N} `{RT : !RisingTime N}.

(** C9: The data of the LSM engine outlive the process. Start the program with the
    leveled strategy and at least one level on an empty directory any number of
    times, under any settings with the same database name, one that does not end
    in [_L<n>], let any operations of the engine but listings and compactions
    run with arguments within the limits of the record format and the background
    flush get anywhere, and stop the process anywhere but between emptying the
    log for a flush and writing its table: every start succeeds, and each
    session answers as the abstract store does that holds what the sessions
    before it left. *)
Theorem lsm_survives_restarts show_addr name l :
  flat_name name = true -> Forall (lsm_session_ok name) l -> stops_ok show_addr N l empty_world ->
  exists w rss m, lsm_sessions show_addr l empty_world = (w, Ok rss) /\
    sessions_spec lsm_run 0 (ticks w) (snd <$> l) rss ∅ m.
Proof.
  intros Hf Hok Hst. destruct l as [|[b acts] l].
  { exists empty_world, [], ∅. split; [done | constructor]. }
  apply Forall_cons in Hok as [Hb Hok].
  destruct (open_leveled_fresh N name (b_settings b) (proj1 Hb)) as (w0 & e & E & Hg & Ht).
  destruct (lsm_session_rest show_addr N name b acts empty_world w0 e ∅ E Hg Hb)
    as (w1 & h & rs & m1 & E1 & Hr & Hs);
    cbn in Hst; [cbn; destruct (lsm_session show_addr b acts empty_world); naive_solver|].
  rewrite E1 in Hst.
  destruct (lsm_sessions_refine show_addr N name Hf l w1 m1 Hr Hok) as (w2 & rss & m2 & E2 & Hs2);
    [apply Hst|].
  exists w2, (rs :: rss), m2. cbn [lsm_sessions]. rewrite (st_bind_Ok _ _ _ _ _ E1), (st_bind_Ok _ _ _ _ _ E2).
  split; [done|]. cbn. eapply sessions_cons; [|exact Hs | exact Hs2]. lia.
Qed.
End Theorems.

(** ** Example *)

#[local] Existing Instances ExTime.ck ExTime.ns ExTime.good Ex.so example_order.

Lemma rising_example : @RisingTime ExTime.ck ExTime.ns 1000.
Proof. intros i j Hij Hj. unfold nanos, ExTime.ns. rewrite !wrap_small by (unfold is_uint; lia). lia. Defined.

Definition leveled_example (max levels : Z) (c : BlockCompression) : Settings spec_float :=
  mkSettings spec_float (bs "/data") (bs "0.0.0.0:6666") (bs "my_db") max FsAlways EtLsm f64_zero 0
    SkLeveled levels 4 1000 4 c (Some 30) 1000 None.

(** Flushed tables, a table that is written but not yet added, and writes that
    are only in the log. *)
Definition example_lsm_sessions : list (Boot * list lsm_act) :=
  [(mkBoot (leveled_example 1 2 BcNone) (V4 0 6666) (Ok 4),
    Ex.flushed (KSet Ex.k (bs "v") None) ++
    [Client (KSet (bs "l") (bs "w") (Some 5000)); Background; Client (KGet Ex.k)]);
   (mkBoot (leveled_example 1000 3 BcLz77) (V4 0 6666) (Ok 4),
    [Client (KGet (bs "l")); Client (KDelete Ex.k); Client (KSet (bs "m") (bs "x") None)]);
   (mkBoot (leveled_example 1 2 BcLz77) (V6 0 6666 0 0) (Err Other),
    [Client (KMget [Ex.k; bs "l"; bs "m"])])].

Lemma lsm_survives_restarts_witness :
  exists w rss m, lsm_sessions example_show example_lsm_sessions empty_world = (w, Ok rss) /\
    sessions_spec lsm_run 0 (ticks w) (snd <$> example_lsm_sessions) rss ∅ m.
Proof.
  apply (lsm_survives_restarts 1000 (RT := rising_example) example_show (bs "my_db")).
  - reflexivity.
  - repeat constructor; vm_compute; try done; congruence.
  - vm_compute. repeat split; try lia; discriminate.
Defined.
