(* ===== verification/ServerTheorems.v ===== *)
(** * The server: the theorems on executing commands

    Over any [Store], what a client reads is what was written, and an expiry in
    seconds is honoured to the millisecond. *)

From S2P Require Import Prelude Utils Utf8 Text Record Collections Memtable Wal Hint Segment.
From S2P Require Import Settings HashIndex World Engine KvEngine KvLog KvInv KvOps KvSpec.
From S2P Require Import KvTheorems Bloom Block Sstable SstableSpec Strategy SizeTiered Leveled.
From S2P Require Import LsmEngine TableInv LsmInv LsmSpec LsmTheorems Bffp Float Stats.
From S2P Require Import Dispatch Connection Worker Store.

Section Requests.
Context (N : nat) {S : Type} `{SE : StorageEngine S} `{HW : HasWorld S} `{TK : Ticking S} `{CK : Clock}
  `{ST0 : !Store N S} `{ET : ErrorText} `{SW : Stopwatch}.

#[local] Instance ticking_server : Ticking (Server S) := fun s => ticks_of (database s).

#[local] Instance mono_call {A} (c : ST S A) : Mono c -> Mono (call c).
Proof. intros Hc s. unfold call. specialize (Hc (database s)). by destruct (c (database s)). Qed.
#[local] Instance mono_server_now : Mono server_now.
Proof.
  intros s. unfold server_now. pose proof (store_mono_now (database s)) as Hm.
  by destruct (in_world now_ms (database s)).
Qed.
#[local] Instance mono_upd_stats f : Mono (St := Server S) (upd_stats f).
Proof. intros s. apply le_n. Qed.
#[local] Instance mono_spawn : Mono (St := Server S) spawn.
Proof. intros s. apply le_n. Qed.

(** The counters of the engine are read without effect. *)
Lemma call_read {A} (c : ST S A) s z :
  c (database s) = (database s, Ok z) -> call c s = (s, Ok (Ok z)).
Proof. intros E. unfold call. rewrite E. by destruct s. Qed.

Lemma should_compact_run cfg s m :
  store_inv (database s) m -> exists b, should_compact cfg s = (s, Ok b).
Proof.
  intros Hi. destruct (store_total _ _ Hi) as [t Et]. destruct (store_dead _ _ Hi) as [d Ed].
  destruct (store_segments _ _ Hi) as [n En].
  apply call_read in Et, Ed, En. unfold should_compact, st_bind, st_lift, st_ret.
  destruct (f_gt (ratio cfg) f64_zero); [|destruct (0 <? max_segment cfg); rewrite ?En; eauto].
  rewrite Et. destruct (0 <? t); [|destruct (0 <? max_segment cfg); rewrite ?En; eauto].
  rewrite Ed, Et. destruct (f_gt _ _); [eauto|]. destruct (0 <? max_segment cfg); rewrite ?En; eauto.
Qed.

Lemma server_now_run s m :
  store_inv (database s) m -> (ticks_of (server_now s).1 <= N)%nat ->
  exists db, server_now s = (mkServer db (stats s) (threads s), Ok (clock (ticks_of (database s)))) /\
    store_inv db m.
Proof.
  intros Hi Ht. unfold server_now in *. destruct (store_now _ m Hi) as (db & E & Hi').
  { by destruct (in_world now_ms (database s)). }
  rewrite E. eauto.
Qed.

Lemma trigger_run cfg s m :
  store_inv (database s) m -> (ticks_of (maybe_trigger_compaction cfg s).1 <= N)%nat ->
  exists s', maybe_trigger_compaction cfg s = (s', Ok tt) /\ store_inv (database s') m.
Proof.
  intros Hi Ht. unfold maybe_trigger_compaction in *.
  destruct (should_compact_run cfg s m Hi) as [b Eb]. rewrite (st_bind_Ok _ _ _ _ _ Eb) in *.
  destruct b; [|eauto]. unfold start_compaction, st_bind, st_gets, upd_stats, st_modify in *.
  cbn beta iota in *. destruct (compacting (stats s)); [eauto|]. cbn beta iota in *.
  destruct (server_now_run (mkServer (database s) (set_compacting true (stats s)) (threads s)) m Hi)
    as (db & E & Hi').
  { by destruct (server_now _) as [? [| |]]. }
  rewrite E. cbn. eauto.
Qed.

Lemma after_write_run cfg n s m :
  store_inv (database s) m -> (ticks_of (after_write cfg n (Ok tt) s).1 <= N)%nat ->
  exists s', after_write cfg n (Ok tt) s = (s', Ok (encode_frame StOk [])) /\
    store_inv (database s') m.
Proof.
  intros Hi Ht. unfold after_write in *.
  destruct (store_peek (fun w => elapsed_ms (ticks w)) (database s)) as [ms Ems].
  assert (Eel : elapsed s = (s, Ok ms)) by (unfold elapsed; rewrite Ems; by destruct s).
  rewrite (st_bind_Ok _ _ _ _ _ Eel) in *.
  do 2 (erewrite (st_bind_Ok (upd_stats _)) in * by reflexivity).
  match type of Ht with context [st_bind _ _ ?s1] =>
    destruct (trigger_run cfg s1 m Hi) as (s' & E & Hi') end.
  { etrans; [|exact Ht]. apply bind_ticks_le. intros. apply _. }
  rewrite (st_bind_Ok _ _ _ _ _ E). eauto.
Qed.

Lemma count_blocked_run (s : Server S) : exists s', count_blocked s = (s', Ok tt) /\ database s' = database s.
Proof.
  unfold count_blocked, st_bind, st_gets. cbn beta iota. destruct (compacting (stats s)); eauto.
Qed.

#[local] Instance mono_start : Mono (St := Server S) start_compaction.
Proof.
  unfold start_compaction. apply mono_bind; [apply _|]. intros []; apply _.
Qed.

#[local] Instance mono_should cfg : Mono (St := Server S) (should_compact cfg).
Proof.
  unfold should_compact. apply mono_bind; [|intros []; [apply _|]; case_match; apply _].
  case_match; [|apply _]. do 2 (apply mono_bind; [apply _ | intros]). case_match; apply _.
Qed.
#[local] Instance mono_trigger cfg : Mono (St := Server S) (maybe_trigger_compaction cfg).
Proof. unfold maybe_trigger_compaction. apply mono_bind; [apply _|]. intros []; apply _. Qed.
#[local] Instance mono_elapsed : Mono (St := Server S) elapsed.
Proof.
  intros s. unfold elapsed. destruct (store_peek (fun w => elapsed_ms (ticks w)) (database s)) as [a E].
  rewrite E. apply le_n.
Qed.
#[local] Instance mono_after_write cfg n r : Mono (St := Server S) (after_write cfg n r).
Proof.
  unfold after_write. do 2 (apply mono_bind; [apply _ | intros]). destruct r; apply _.
Qed.

(** WRITE, and the end state of DELETE. *)
Lemma write_request cfg s m k v :
  store_inv (database s) m -> kv_ok k v None ->
  (ticks_of (dispatch cfg (CWrite k v None) s).1 <= N)%nat ->
  exists s', dispatch cfg (CWrite k v None) s = (s', Ok (encode_frame StOk [])) /\
    store_inv (database s') (<[k := (v, None)]> m).
Proof.
  intros Hi Hok Ht. cbn [dispatch] in *.
  destruct (count_blocked_run s) as (s1 & E1 & Hd1). rewrite (st_bind_Ok _ _ _ _ _ E1) in *.
  rewrite <- Hd1 in Hi.
  destruct (server_now_run s1 m Hi) as (db2 & E2 & Hi2);
    [etrans; [|exact Ht]; apply bind_ticks_le; intros; apply _|].
  rewrite (st_bind_Ok _ _ _ _ _ E2) in *. cbn [ttl_to_ms] in *.
  destruct (store_set db2 m k v None Hi2 Hok) as (db3 & E3 & Hi3).
  { etrans; [|exact Ht]. etrans; [|apply bind_ticks_le; intros; apply _].
    unfold call, ticks_of at 2, ticking_server. cbn [database].
    by destruct (e_set_with_ttl k v None db2). }
  assert (E3' : call (e_set_with_ttl k v None) (mkServer db2 (stats s1) (threads s1))
                = (mkServer db3 (stats s1) (threads s1), Ok (Ok tt)))
    by (unfold call; cbn [database stats threads]; by rewrite E3).
  rewrite (st_bind_Ok _ _ _ _ _ E3') in *. by apply after_write_run.
Qed.

Lemma read_request cfg s m k :
  store_inv (database s) m -> (ticks_of (dispatch cfg (CRead k) s).1 <= N)%nat ->
  exists s' i, dispatch cfg (CRead k) s
      = (s', Ok (match spec_get m k (clock i) with
                 | Some v => encode_frame StOk [v]
                 | None => encode_frame StNotFound []
                 end)) /\ store_inv (database s') m.
Proof.
  intros Hi Ht. cbn [dispatch] in *.
  erewrite (st_bind_Ok (upd_stats _)) in * by reflexivity.
  set (s1 := mkServer (database s) _ _) in *.
  destruct (store_get (database s1) m k Hi) as (db & i & E & Hi' & _).
  { etrans; [|exact Ht]. unfold st_bind, call. change (database s1) with (database s).
    destruct (e_get k (database s)) as [db [[[k' v]|]| |]]; apply le_n. }
  assert (E' : call (e_get k) s1 = (mkServer db (stats s1) (threads s1),
                 Ok (Ok ((fun v => (k, v)) <$> spec_get m k (clock i)))))
    by (unfold call; by rewrite E).
  rewrite (st_bind_Ok _ _ _ _ _ E'). eexists _, i.
  destruct (spec_get m k (clock i)); (split; [reflexivity | exact Hi']).
Qed.

Lemma delete_request cfg s m k :
  store_inv (database s) m -> kv_ok k [] None ->
  (ticks_of (dispatch cfg (CDelete k) s).1 <= N)%nat ->
  exists s' st, dispatch cfg (CDelete k) s = (s', Ok (encode_frame st [])) /\
    (st = StOk /\ is_Some (m !! k) \/ st = StNotFound /\ exists i, spec_get m k (clock i) = None) /\
    store_inv (database s') (delete k m).
Proof.
  intros Hi Hok Ht. cbn [dispatch] in *.
  destruct (store_delete (database s) m k Hi Hok) as (db & r & E & Hi' & Hr).
  { etrans; [|exact Ht]. etrans; [|apply bind_ticks_le; intros; repeat case_match; apply _].
    unfold call, ticks_of at 2, ticking_server. by destruct (e_delete k (database s)). }
  assert (E' : call (e_delete k) s = (mkServer db (stats s) (threads s), Ok (Ok r)))
    by (unfold call; by rewrite E).
  rewrite (st_bind_Ok _ _ _ _ _ E') in *. destruct r as [[]|]; [|by eexists _, StNotFound; auto].
  erewrite (st_bind_Ok (upd_stats _)) in * by reflexivity.
  match type of Ht with context [st_bind _ _ ?s1] =>
    destruct (trigger_run cfg s1 (delete k m) Hi') as (s' & E2 & Hi2) end.
  { etrans; [|exact Ht]. apply bind_ticks_le. intros. apply _. }
  rewrite (st_bind_Ok _ _ _ _ _ E2). by eexists _, StOk; auto.
Qed.

(** The requests of a simple client only read the clock forward. *)
Definition simple_request (c : Command) : Prop :=
  match c with CWrite _ _ None | CRead _ | CDelete _ => True | _ => False end.

Lemma simple_request_mono cfg c (s : Server S) :
  simple_request c -> (ticks_of (database s) <= ticks_of (database (dispatch cfg c s).1))%nat.
Proof.
  intros Hc. assert (Hb : Mono (St := Server S) count_blocked)
    by (unfold count_blocked; apply mono_bind; [apply _ | intros []; apply _]).
  assert (Hm : Mono (St := Server S) (dispatch cfg c)); [|exact (Hm s)].
  destruct c; try done; [| destruct ttl; [done|] |]; cbn [dispatch]; solve_mono.
Qed.

Lemma write_read_delete_run cfg (s : Server S) m k v :
  store_inv (database s) m -> kv_ok k v None ->
  let s1 := dispatch cfg (CWrite k v None) s in
  let s2 := dispatch cfg (CRead k) s1.1 in
  let s3 := dispatch cfg (CDelete k) s2.1 in
  let s4 := dispatch cfg (CRead k) s3.1 in
  (ticks_of (database s1.1) <= N)%nat -> (ticks_of (database s2.1) <= N)%nat ->
  (ticks_of (database s3.1) <= N)%nat -> (ticks_of (database s4.1) <= N)%nat ->
  s1.2 = Ok (encode_frame StOk []) /\
  s2.2 = Ok (encode_frame StOk [v]) /\
  s3.2 = Ok (encode_frame StOk []) /\
  s4.2 = Ok (encode_frame StNotFound []).
Proof.
  intros Hi Hok s1 s2 s3 s4 H1 H2 H3 H4.
  destruct (write_request cfg s m k v Hi Hok H1) as (t1 & E1 & Hi1).
  subst s4 s3 s2 s1. rewrite E1 in *. cbn [fst snd] in *.
  destruct (read_request cfg t1 _ k Hi1 H2) as (t2 & i & E2 & Hi2).
  rewrite E2 in *. cbn [fst snd] in *. unfold spec_get at 1. rewrite lookup_insert_eq. cbn [expired].
  assert (Hk : kv_ok k [] None) by (destruct Hok; by split).
  destruct (delete_request cfg t2 _ k Hi2 Hk H3) as (t3 & st & E3 & Hst & Hi3).
  rewrite E3 in *. cbn [fst snd] in *.
  destruct (read_request cfg t3 _ k Hi3 H4) as (t4 & j & E4 & _).
  rewrite E4. cbn [fst snd]. unfold spec_get. rewrite lookup_delete_eq.
  split_and!; try done. destruct Hst as [[-> _]|[_ [j' Hg]]]; [done|]. unfold spec_get in Hg.
  by rewrite lookup_insert_eq in Hg.
Qed.

(** C16: a WRITE answered OK is seen by the next READ, and gone after a DELETE.
    Over an engine that keeps the laws of [Store] (the hash engine and the LSM
    engine with the leveled strategy; the size-tiered strategy does not keep
    them), whatever it holds, with nobody in between and a key and a value within
    the limits: the WRITE is answered OK, the READ that follows with the value
    written, the DELETE with OK, and the READ after it with NOT_FOUND. *)
Theorem server_write_read_delete cfg (s : Server S) m k v :
  store_inv (database s) m -> kv_ok k v None ->
  let s1 := dispatch cfg (CWrite k v None) s in
  let s2 := dispatch cfg (CRead k) s1.1 in
  let s3 := dispatch cfg (CDelete k) s2.1 in
  let s4 := dispatch cfg (CRead k) s3.1 in
  (ticks_of (database s1.1) <= N)%nat -> (ticks_of (database s2.1) <= N)%nat ->
  (ticks_of (database s3.1) <= N)%nat -> (ticks_of (database s4.1) <= N)%nat ->
  s1.2 = Ok (encode_frame StOk []) /\
  s2.2 = Ok (encode_frame StOk [v]) /\
  s3.2 = Ok (encode_frame StOk []) /\
  s4.2 = Ok (encode_frame StNotFound []).
Proof. apply write_read_delete_run. Qed.
End Requests.

(** ** Expiries *)

(** An expiry given in seconds is honoured to the millisecond. For a clock
    below 2^63 ms and a [u32] number of seconds the conversion does not
    overflow; zero seconds mean no expiry; otherwise the value is visible
    before [now + 1000 * seconds] and expired from then on. *)
Theorem ttl_conversion now seconds t :
  0 <= now < 2 ^ 63 -> is_u32 seconds ->
  expired (ttl_to_ms now (Some seconds)) t
  = negb (seconds =? 0) && (now + 1000 * seconds <=? t).
Proof.
  intros Hn Hs. unfold ttl_to_ms. destruct (Z.eqb_spec seconds 0); [done|]. cbn.
  unfold is_uint in Hs. rewrite wrap_small by (unfold is_uint; lia). unfold is_expired.
  by replace (seconds * 1000) with (1000 * seconds) by lia.
Qed.

(** ** Concrete servers *)

Module ExServer.
Definition no_text : ErrorText := fun _ => bs "error".
Definition no_delay : Stopwatch := fun _ => 0.

Lemma good_clock : @GoodClock ExTime.ck 1000.
Proof. split; intros; unfold clock, ExTime.ck; lia. Defined.

Definition cfg : CompactionCfg := mkCompactionCfg f64_half 2.

(** An engine whose strategy lists a table that is no longer on disk. *)
Definition lost_table : SSTable :=
  mkSSTable (bs "gone.sst") 1 (bs "db") None [] (bloom_new 1 7) None None.
Definition lost_engine : LsmState SizeTiered :=
  (mkLsm mem_new None NoFlush (bs "db") 1000 (mkSizeTiered [[lost_table]] 4 32 4096 false) false
     4096 false, mkWorld ∅ ∅ 0).
End ExServer.

#[local] Existing Instances ExTime.ck ExTime.ns ExTime.good Ex.so sorted_order ExServer.no_text
  ExServer.no_delay ExServer.good_clock.

Lemma server_write_read_delete_witness :
  exists w e, kv_new (bs "db") 1000 FsNever empty_world = (w, Ok e) /\
  let s := mkServer (mkKvState e w) stats_new 0 in
  let s1 := dispatch ExServer.cfg (CWrite (bs "k") (bs "v") None) s in
  let s2 := dispatch ExServer.cfg (CRead (bs "k")) s1.1 in
  let s3 := dispatch ExServer.cfg (CDelete (bs "k")) s2.1 in
  let s4 := dispatch ExServer.cfg (CRead (bs "k")) s3.1 in
  s1.2 = Ok (encode_frame StOk []) /\ s2.2 = Ok (encode_frame StOk [bs "v"]) /\
  s3.2 = Ok (encode_frame StOk []) /\
  s4.2 = Ok (encode_frame StNotFound []).
Proof.
  destruct (fresh_engine 1000 (bs "db") 1000 FsNever ltac:(lia)) as (w & e & E & Hi & _).
  exists w, e. split; [exact E|]. vm_compute in E. injection E as <- <-.
  apply (server_write_read_delete 1000 ExServer.cfg _ ∅ (bs "k") (bs "v"));
    [exact Hi | split; vm_compute; done | | | |]; vm_compute; lia.
Defined.

Lemma ttl_conversion_witness :
  expired (ttl_to_ms 1000 (Some 60)) 60999 = false /\ expired (ttl_to_ms 1000 (Some 60)) 61000 = true.
Proof. split; rewrite ttl_conversion; try reflexivity; unfold is_uint; lia. Defined.

Lemma answers_in_order_witness :
  let c := connection_new 0 in
  let s := mkServer ExServer.lost_engine stats_new 0 in
  exists s' l, answers ExServer.cfg [CPing; CRead (bs "k")] s = (s', Ok l) /\ length l = 2%nat.
Proof.
  intros c s.
  destruct (serve ExServer.cfg [CPing; CRead (bs "k")] c s) as [s' r] eqn:E.
  assert (Hr : exists c', r = Ok c').
  { apply (f_equal snd) in E. vm_compute in E. destruct r as [c'| |]; [by exists c' | done | done]. }
  destruct Hr as [c' ->].
  destruct (answers_in_order ExServer.cfg [CPing; CRead (bs "k")] c s s' c' E) as (l & Ha & Hl & _).
  by exists s', l.
Defined.
