(* ===== verification/Client.v ===== *)
(** * The interactive client (src/src/bin/rustikli.rs)

    One turn of the client reads a line, sends the frame of its command, waits
    for the answer and prints it. The server is what answers the bytes sent: an
    argument of [turn], instantiated below with a worker of the server behind a
    network that cuts the bytes as it likes. *)

From S2P Require Import Prelude Utf8 Text Words Record Settings HashIndex World Engine KvEngine.
From S2P Require Import KvInv KvSpec KvTheorems Bffp Float Stats Dispatch Connection Worker.
From S2P Require Import Session Cli Store ServerTheorems.

(** ** Arguments *)

Section Arguments.
(** The parser of socket addresses, which gives the address back in its
    canonical form. *)
Context (parse_addr : str -> option str).

(** The loop over the arguments after the name of the program; an argument
    that is not [-h] or [--host] is reported and skipped. *)
Fixpoint host_args (host : str) (args : list str) : result str :=
  match args with
  | [] => Ok host
  | arg :: rest =>
      if bool_decide (arg = bs "-h") || bool_decide (arg = bs "--host") then
        match rest with
        | [] => Ok host
        | value :: rest' => let? addr := unwrap (parse_addr value) in host_args addr rest'
        end
      else host_args host rest
  end.

Definition client_host (args : list str) : result str := host_args (bs "127.0.0.1:6666") (drop 1 args).
End Arguments.

(** ** A turn *)

(** What [read_line] gives. *)
Inductive Input := Line (line : str) | Eof | ReadFailed (e : ErrorKind).

Inductive Flow := Stay | Leave.

(** The lines printed on the two outputs. *)
Record Printed := mkPrinted { to_stdout : list str; to_stderr : list str }.

Definition show_response (res : DecodedResponse) : list str :=
  match resp_status res with
  | StOk => resp_payload res
  | StError => bs "Error >" :: resp_payload res
  | StNotFound => [bs "Not found"]
  | StNoop => [bs "NOOP"]
  end.

Section Turn.
Context `{ET : ErrorText}.

(** The answer is read from the stream: four bytes of length, then the rest. *)
Definition read_response : Reader Printed :=
  let! len_buf := read_exact 4 in
  let! payload := read_exact (from_be len_buf) in
  match decode_response_frame (len_buf ++ payload) with
  | Ok res => rd_ret (mkPrinted (show_response res) [])
  | Err e => rd_ret (mkPrinted [] [bs "Error reading server response: " ++ error_text e])
  | Panic => rd_lift Panic
  end.

(** [peer] takes the bytes sent and answers with bytes; when it fails the
    stream ends. The state beside it holds the bytes received and not read. *)
Context {St : Type} (peer : bytes -> ST St bytes).

Definition exchange (frame : bytes) : ST (St * bytes) Printed := fun st =>
  let '(s', r) := peer frame st.1 in
  let incoming := st.2 ++ match r with Ok reply => reply | _ => [] end in
  match read_response incoming with
  | Ok (p, rest) => ((s', rest), Ok p)
  | Err e => ((s', incoming), Err e)
  | Panic => ((s', incoming), Panic)
  end.

Definition turn (i : Input) : ST (St * bytes) (Flow * Printed) :=
  match i with
  | Eof => st_ret (Leave, mkPrinted [] [])
  | ReadFailed e => st_ret (Leave, mkPrinted [] [bs "Error reading input: " ++ error_text e])
  | Line line =>
      match parse_command (trim line) with
      | PCmd command =>
          let* cmd := st_lift (encode_command command) in
          let* p := exchange cmd in
          st_ret (Stay, p)
      | PQuit => st_ret (Leave, mkPrinted [bs "Cya!"] [])
      | PInvalidInput msg =>
          st_ret (Stay, mkPrinted [] (match msg with [] => [] | _ :: _ => [msg] end))
      end
  end.

(** The loop: the turns up to the one that leaves; an error ends the program. *)
Fixpoint repl (inputs : list Input) : ST (St * bytes) (list Printed) :=
  match inputs with
  | [] => st_ret []
  | i :: inputs' =>
      let* t := turn i in
      match t.1 with
      | Leave => st_ret [t.2]
      | Stay => let* ps := repl inputs' in st_ret (t.2 :: ps)
      end
  end.
End Turn.

(** ** The server at the other end *)

Section Served.
Context {S : Type} `{SE : StorageEngine S} `{HW : HasWorld S} `{CK : Clock} `{ET : ErrorText}
  `{SW : Stopwatch}.

(** The call of the worker in which the socket takes all that is pending. *)
Definition drain (cfg : CompactionCfg) (token : Z) : ST (WorkerState S) bytes := fun st =>
  let n := match conns st.1 !! token with Some c => len (pending c) | None => 0 end in
  on_event cfg token (mkEvent false [] [WrBytes n] true) st.

(** The network brings a request to the worker in the events [net], and the
    worker is called until the answer has left. *)
Definition served (cfg : CompactionCfg) (token : Z) (net : bytes -> list Event) (frame : bytes)
    : ST (WorkerState S) bytes :=
  let* sent := deliver cfg token (net frame) in
  let* rest := drain cfg token in
  st_ret (sent ++ rest).

(** A network that loses nothing. *)
Class Network (net : bytes -> list Event) : Prop := {
  net_calm frame : Forall calm (net frame);
  net_brings frame : concat (map brought (net frame)) = frame;
}.

(** ** Lemmas *)

Lemma write_all c :
  conn_wf c -> has_pending_writes c = true ->
  exists c', on_writable c [] [WrBytes (len (pending c))] = (c', pending c, Ok tt) /\ conn_wf c' /\
    pending c' = [] /\ parser c' = parser c /\ pending_close c' = pending_close c.
Proof.
  intros [H1 H2] Hp. destruct c as [p wb off la pc]. unfold has_pending_writes, pending in *.
  cbn [write_buf write_offset] in *. apply Z.ltb_lt in Hp.
  assert (Hlen : len (drop (Z.to_nat off) wb) = len wb - off)
    by (unfold len; rewrite length_drop; unfold len in *; lia).
  cbn [on_writable write_buf write_offset]. rewrite (proj2 (Z.leb_gt _ _)) by lia.
  rewrite Hlen, (proj2 (Z.eqb_neq _ _)) by lia.
  cbn [with_writes write_buf write_offset parser last_activity pending_close].
  rewrite (proj2 (Z.leb_le _ _)) by lia. eexists. cbn [app].
  rewrite take_ge by (unfold len in *; lia). split; [reflexivity|]. by split_and!; try (split; vm_compute).
Qed.

Lemma drain_run cfg token h s p out :
  open h token p out ->
  exists h', drain cfg token (h, s) = ((h', s), Ok out) /\ open h' token p [].
Proof.
  intros [(c & Hc & Hwf & <- & Hpc & <-) Hpw Hpi]. unfold drain, on_event. cbn [fst]. rewrite Hc.
  unfold handle_readable. cbn [readable andb st_ret]. unfold handle_writable. cbn [negb andb ev_writes].
  destruct (has_pending_writes c) eqn:Ep.
  - destruct (write_all c Hwf Ep) as (c' & E & Hwf' & Hp' & Hpa & Hpc'). rewrite E. cbn [orb].
    rewrite Hpc', Hpc. cbn [andb reregister_ok]. eexists. split; [reflexivity|].
    split; [|done|done]. exists c'. split_and!; try done; [apply lookup_insert_eq | congruence].
  - cbn [orb]. rewrite Hpc. cbn [andb reregister_ok].
    assert (Hnil : pending c = []).
    { unfold pending. apply drop_ge. unfold has_pending_writes, conn_wf, len in *. lia. }
    rewrite Hnil. eexists. split; [reflexivity|]. split; [|done|done]. exists c.
    split_and!; try done. apply lookup_insert_eq.
Qed.

(** A request goes to the engine and its answer comes back. *)
Lemma served_run cfg token net `{!Network net} h s c frame s' resp :
  open h token parser_new [] -> pipeline [c] frame -> dispatch cfg c s = (s', Ok resp) ->
  exists h', served cfg token net frame (h, s) = ((h', s'), Ok resp) /\ open h' token parser_new [].
Proof.
  intros Ho Hp Hd.
  assert (Hf : feed parser_new (concat (map brought (net frame))) = (parser_new, Ok ([c], Continue))).
  { rewrite net_brings, <- (app_nil_r frame). by apply feed_frames. }
  assert (Ha : answers cfg [c] s = (s', Ok [resp])).
  { cbn [answers]. by rewrite (st_bind_Ok _ _ _ _ _ Hd). }
  destruct (deliver_run cfg token (net frame) h s _ _ _ _ _ _ Ho (net_calm frame) Hf Ha)
    as (h1 & sent & out & Ed & Ho1 & Hs).
  destruct (drain_run cfg token h1 s' _ _ Ho1) as (h2 & E2 & Ho2).
  exists h2. split; [|done]. unfold served. rewrite (st_bind_Ok _ _ _ _ _ Ed), (st_bind_Ok _ _ _ _ _ E2).
  cbn [concat] in Hs. rewrite app_nil_r in Hs. unfold st_ret. by rewrite Hs.
Qed.

(** The client reads the frame the server encoded. *)
Lemma read_response_frame status rows :
  Forall (fun r => utf8_valid r = true) rows -> 1 + sum_len (fun r => 4 + len r) rows < 2 ^ 32 ->
  read_response (encode_frame status rows)
    = Ok (mkPrinted (show_response (mkDecodedResponse rows status)) [], []).
Proof.
  intros Hv Hl. pose proof (response_decoded status rows [] Hv Hl) as Hd. rewrite app_nil_r in Hd.
  destruct (encode_frame_parts status rows Hl) as [E Hlen]. rewrite E in *.
  match goal with |- read_response (_ ++ ?p) = _ => set (payload := p) in * end.
  pose proof (len_nonneg payload). unfold read_response.
  erewrite rd_bind_Ok by (by apply read_exact_app; unfold len; rewrite length_to_be).
  rewrite from_be_to_be_small by lia.
  erewrite rd_bind_Ok by (rewrite <- (app_nil_r payload) at 2; by apply read_exact_app).
  by rewrite Hd.
Qed.

Lemma parse_trim line : utf8_valid line = true -> parse_command (trim line) = parse_command line.
Proof. intros Hv. unfold parse_command. by rewrite split_trim. Qed.

(** A line of less than 2^16 bytes. *)
Definition short_line (line : str) : Prop := utf8_valid line = true /\ len line < 2 ^ 16.

Lemma short_words line : short_line line -> Forall (fun w => len w < 2 ^ 16) (split_whitespace line).
Proof.
  intros [Hv Hl]. pose proof (proj1 (split_whitespace_typed line _ Hv) eq_refl) as Ht.
  apply typed_len in Ht. apply Forall_forall. intros w Hin. apply join_len in Hin. lia.
Qed.

Lemma short_pipeline line c frame :
  short_line line -> parse_command line = PCmd c -> encode_command c = Ok frame -> pipeline [c] frame.
Proof.
  intros Hs Hp He. pose proof Hs as [Hv Hl].
  destruct (parsed_well_formed line c Hv ltac:(lia) (short_words line Hs) Hp) as (Hok & Hf & _).
  rewrite <- (app_nil_r frame). constructor; try done; [|constructor].
  destruct (encode_frame_len c frame Hok Hf He) as (body & -> & Hb).
  pose proof (parsed_size line c Hv Hp) as Hz.
  rewrite len_app, Hb. unfold len at 1. rewrite length_to_be.
  unfold MAX_REQUEST_BYTES, MAX_KEY_SIZE, MAX_VALUE_SIZE. lia.
Qed.

Lemma turn_run cfg token net `{!Network net} h s line c s' status rows :
  open h token parser_new [] -> short_line line -> parse_command line = PCmd c ->
  dispatch cfg c s = (s', Ok (encode_frame status rows)) ->
  Forall (fun r => utf8_valid r = true) rows -> 1 + sum_len (fun r => 4 + len r) rows < 2 ^ 32 ->
  exists h', turn (served cfg token net) (Line line) ((h, s), [])
      = (((h', s'), []), Ok (Stay, mkPrinted (show_response (mkDecodedResponse rows status)) [])) /\
    open h' token parser_new [].
Proof.
  intros Ho Hs Hp Hd Hv Hl. pose proof Hs as [Hvl Hll].
  destruct (parsed_well_formed line c Hvl ltac:(lia) (short_words line Hs) Hp) as (_ & _ & frame & He).
  destruct (served_run cfg token net h s c frame _ _ Ho (short_pipeline _ _ _ Hs Hp He) Hd)
    as (h' & E & Ho').
  exists h'. split; [|done]. cbn [turn]. rewrite parse_trim, Hp by done. rewrite He.
  erewrite st_bind_Ok by reflexivity. erewrite st_bind_Ok; [reflexivity|].
  unfold exchange. cbn [fst snd]. rewrite E. cbn [app]. by rewrite read_response_frame.
Qed.
End Served.

Lemma repl_stay `{ET : ErrorText} {St} (peer : bytes -> ST St bytes) i inputs st st1 st2 p ps :
  turn peer i st = (st1, Ok (Stay, p)) -> repl peer inputs st1 = (st2, Ok ps) ->
  repl peer (i :: inputs) st = (st2, Ok (p :: ps)).
Proof.
  intros E1 E2. cbn [repl]. rewrite (st_bind_Ok _ _ _ _ _ E1). cbn [fst snd].
  by rewrite (st_bind_Ok _ _ _ _ _ E2).
Qed.

(** The key and the value of a short line fit the engine. *)
Lemma parsed_write_ok k v line :
  parse_command line = PCmd (CWrite k v None) -> short_line line -> kv_ok k v None /\ len v < 2 ^ 20.
Proof.
  intros Hp Hs. pose proof Hs as [Hu Hl].
  destruct (parsed_well_formed line _ Hu ltac:(lia) (short_words line Hs) Hp) as (([Hk1 Hk2] & [Hv1 _] & _) & _).
  pose proof (parsed_size line _ Hu Hp) as Hz. cbn [command_body] in Hz. rewrite put_item_len in Hz.
  pose proof (len_nonneg k). cbn [ttl_size] in Hz. split; [|lia].
  split; try done; unfold MAX_KEY_SIZE, MAX_VALUE_SIZE; lia.
Qed.

Lemma dispatched {A} (m : ST A bytes) s r : (m s).2 = r -> m s = ((m s).1, r).
Proof. intros <-. by destruct (m s). Qed.

(** ** Theorems *)

Section Theorems.
Context (N : nat) {S : Type} `{SE : StorageEngine S} `{HW : HasWorld S} `{TK : Ticking S} `{CK : Clock}
  `{ST0 : !Store N S} `{ET : ErrorText} `{SW : Stopwatch}.

(** C10: What a user of the client sees. Over an engine that keeps the laws of
    [Store] (the hash engine and the LSM engine with the leveled strategy, not
    the size-tiered one), any network that loses nothing and lines below 2^16
    bytes: a line that reads as a WRITE prints nothing, one that reads as a READ
    of its key then prints the value, a DELETE prints nothing, and the READ
    after it prints [Not found]. The lines are parsed, encoded, cut by the
    network, parsed by the worker, executed and answered, and the answers are
    sent in pieces, decoded and printed. *)
Theorem client_session cfg token net `{!Network net} h (s : Server S) m k v l1 l2 l3 l4 :
  open h token parser_new [] -> store_inv (database s) m ->
  parse_command l1 = PCmd (CWrite k v None) -> parse_command l2 = PCmd (CRead k) ->
  parse_command l3 = PCmd (CDelete k) -> parse_command l4 = PCmd (CRead k) ->
  Forall short_line [l1; l2; l3; l4] ->
  let s1 := (dispatch cfg (CWrite k v None) s).1 in
  let s2 := (dispatch cfg (CRead k) s1).1 in
  let s3 := (dispatch cfg (CDelete k) s2).1 in
  let s4 := (dispatch cfg (CRead k) s3).1 in
  (ticks_of (database s1) <= N)%nat -> (ticks_of (database s2) <= N)%nat ->
  (ticks_of (database s3) <= N)%nat -> (ticks_of (database s4) <= N)%nat ->
  exists h', repl (served cfg token net) (map Line [l1; l2; l3; l4]) ((h, s), [])
    = (((h', s4), []), Ok (map (fun p => mkPrinted p []) [[]; [v]; []; [bs "Not found"]])).
Proof.
  intros Ho Hi P1 P2 P3 P4 Hs s1 s2 s3 s4 N1 N2 N3 N4.
  repeat apply Forall_cons in Hs as [? Hs].
  destruct (parsed_write_ok k v l1 P1) as [Hk Hv]; [done|].
  pose proof (write_read_delete_run N cfg s m k v Hi Hk N1 N2 N3 N4) as (D1 & D2 & D3 & D4).
  destruct (turn_run cfg token net h s l1 (CWrite k v None) s1 StOk [] Ho) as (h1 & E1 & Ho1);
    [done | done | by apply dispatched | constructor | done |].
  destruct (turn_run cfg token net h1 s1 l2 (CRead k) s2 StOk [v] Ho1) as (h2 & E2 & Ho2);
    [done | done | by apply dispatched | constructor; [apply Hk | constructor] | cbn; lia |].
  destruct (turn_run cfg token net h2 s2 l3 (CDelete k) s3 StOk [] Ho2) as (h3 & E3 & Ho3);
    [done | done | by apply dispatched | constructor | done |].
  destruct (turn_run cfg token net h3 s3 l4 (CRead k) s4 StNotFound [] Ho3) as (h4 & E4 & Ho4);
    [done | done | by apply dispatched | constructor | done |].
  exists h4. cbn [map].
  eapply repl_stay; [exact E1|]. eapply repl_stay; [exact E2|]. eapply repl_stay; [exact E3|].
  by eapply repl_stay; [exact E4|].
Qed.
End Theorems.

(** ** Examples *)

(** A network that brings one byte at a time, each in an event of its own, and
    a socket that takes two bytes at each. *)
Definition slow_net (frame : bytes) : list Event :=
  map (fun b => mkEvent true [RdBytes 0 [b]; RdWouldBlock] [WrBytes 2] true) frame.

#[export] Instance slow_net_ok : Network slow_net.
Proof.
  unfold slow_net. split; intros frame; induction frame as [|b frame IH]; try done.
  - constructor; [|exact IH]. split; cbn; [done | by repeat constructor | done].
  - cbn [map concat]. by rewrite IH.
Qed.

Definition one_worker : WorkerHandler := with_conns {[0 := connection_new 0]} (worker_new None).

#[local] Existing Instances example_clock sorted_order ExServer.no_text ExServer.no_delay.

Lemma client_session_witness :
  exists w e, kv_new (bs "db") 1000 FsNever empty_world = (w, Ok e) /\
  exists st, repl (served ExServer.cfg 0 slow_net)
      (map Line [bs "write k hello   world"; bs "READ k"; bs " delete  k "; bs "read k"])
      ((one_worker, mkServer (mkKvState e w) stats_new 0), [])
    = (st, Ok (map (fun p => mkPrinted p []) [[]; [bs "hello world"]; []; [bs "Not found"]])).
Proof.
  pose proof (example_clock_good 100 ltac:(lia)) as GC.
  destruct (fresh_engine 100 (bs "db") 1000 FsNever ltac:(lia)) as (w & e & E & Hi & _).
  exists w, e. split; [exact E|].
  assert (Hs : state_or (opened (bs "db") 1000 FsNever) = mkKvState e w)
    by (unfold opened, state_or; by rewrite E).
  rewrite <- Hs in *.
  destruct (client_session 100 (ST0 := kv_store 100) ExServer.cfg 0 slow_net one_worker
    (mkServer (state_or (opened (bs "db") 1000 FsNever)) stats_new 0) ∅ (bs "k") (bs "hello world")
    (bs "write k hello   world") (bs "READ k") (bs " delete  k ") (bs "read k")
    (open_new one_worker 0 0 eq_refl) Hi) as (h' & Er);
    [reflexivity | reflexivity | reflexivity | reflexivity | by repeat constructor
    | vm_compute; lia | vm_compute; lia | vm_compute; lia | vm_compute; lia |].
  eexists. exact Er.
Defined.

Lemma connection_refines_witness :
  let s := mkServer (state_or (opened (bs "db") 1000 FsNever)) stats_new 0 in
  exists h' s' sent c',
    deliver ExServer.cfg 0 (slow_net ((ping_frame ++ ping_frame) ++ take 2 ping_frame)) (one_worker, s)
      = ((h', s'), Ok sent) /\ conns h' !! 0 = Some c' /\
    sent ++ pending c' = concat [encode_frame StOk [bs "PONG"]; encode_frame StOk [bs "PONG"]] /\
    pending_close c' = false.
Proof.
  intros s.
  destruct (connection_refines ExServer.cfg 0 0
    (slow_net ((ping_frame ++ ping_frame) ++ take 2 ping_frame)) one_worker s [CPing; CPing]
    (ping_frame ++ ping_frame) (take 2 ping_frame) s
    [encode_frame StOk [bs "PONG"]; encode_frame StOk [bs "PONG"]]) as (h' & sent & c' & H).
  - reflexivity.
  - apply net_calm.
  - rewrite <- (app_nil_r (ping_frame ++ ping_frame)), <- app_assoc. by repeat constructor.
  - vm_compute. reflexivity.
  - apply net_brings.
  - vm_compute. reflexivity.
  - by exists h', s, sent, c'.
Defined.
