(* ===== verification/Pool.v ===== *)
(** * The threads of the server together

    The acceptor and the workers that [Server::start] leaves running
    (src/src/server/lifecycle.rs) and the compaction threads they spawn share
    the engine, the statistics and the channels. Here they run together: a
    handler of the event loop (src/src/server/workerhandler.rs) is cut at its
    reads, at its commands and at its end, each command and each compaction is
    cut where the code releases its locks (SpanDispatch.v and the spans of the
    engine), and [pool_run] follows any schedule of these steps. *)

From S2P Require Import Prelude Bffp Float World Engine KvEngine KvInv Spans Stats Dispatch SpanDispatch Connection.
From S2P Require Import Worker Session Startup Engine KvSpec Store ServerTheorems Client.

(** ** The state *)

(** A worker, and its token. *)
Definition ConnId : Type := nat * Z.

Section State.
Context (S : Type).

(** [on_event] between two of its steps: the connection taken out of the table,
    the command that is being executed with what is left of it, the commands
    after it, what the parser asked for and [hard_close]. *)
Record Task := mkTask {
  t_token : Z;
  t_event : Event;
  t_conn : Connection;
  t_run : option (Command * Prog (Server S) bytes);
  t_cmds : list Command;
  t_action : ConnectionAction;
  t_hard : bool;
}.

Record WorkerThread := mkThread {
  handler : WorkerHandler;
  task : option Task;
}.

Record Pool := mkPool {
  pool_acceptor : Acceptor;
  pool_workers : list WorkerThread;
  pool_server : Server S;
  compactions : list (CompactionThread S);
}.
End State.
#[global] Arguments mkTask {S} _ _ _ _ _ _ _.
#[global] Arguments t_token {S} _.
#[global] Arguments t_event {S} _.
#[global] Arguments t_conn {S} _.
#[global] Arguments t_run {S} _.
#[global] Arguments t_cmds {S} _.
#[global] Arguments t_action {S} _.
#[global] Arguments t_hard {S} _.
#[global] Arguments mkThread {S} _ _.
#[global] Arguments handler {S} _.
#[global] Arguments task {S} _.
#[global] Arguments mkPool {S} _ _ _ _.
#[global] Arguments pool_acceptor {S} _.
#[global] Arguments pool_workers {S} _.
#[global] Arguments pool_server {S} _.
#[global] Arguments compactions {S} _.

(** What [Server::start] leaves running. *)
Definition pool_of {S} (r : Running) (s : Server S) : Pool S :=
  mkPool (r_acceptor r) ((fun h => mkThread h None) <$> r_workers r) s [].

(** What is seen of a run, in the order in which it happened: connections
    registered by a worker and by how much they change the counter, connections
    swept, the calls of commands and their answers with the number of clock
    readings until then, the bytes sent at the end of a handler and whether the
    connection was closed there. *)
Inductive pool_obs :=
  | Opened (i : nat) (tokens : list Z) (n : Z)
  | Swept (i : nat) (tokens : gset Z)
  | Called (k : ConnId) (cmd : Command) (time : nat)
  | Ran (k : ConnId) (cmd : Command) (res : bytes) (time : nat)
  | Ended (k : ConnId) (sent : bytes) (closed : bool).

(** What can happen next: a stream arrives at the acceptor, the event loop of a
    worker calls a handler, a worker takes the next step of [on_event], a
    compaction thread begins or takes its next step, the engine's own thread
    takes one. *)
Inductive pool_act :=
  | Arrive (setup_ok : bool) (now : Z)
  | Wake (i : nat) (ok : Z -> bool) (new_id : Z)
  | Timer (i : nat) (now timer_id new_id : Z)
  | Begin (i : nat) (token : Z) (ev : Event)
  | Next (i : nat)
  | CompactBegin
  | CompactNext (j : nat)
  | OwnStep.

(** ** The steps of a handler *)

(** [on_event] up to the end of [on_readable]. *)
Definition begin_event {S} (token : Z) (ev : Event) (h : WorkerHandler) : option (WorkerThread S) :=
  match conns h !! token with
  | None => Some (mkThread h None)
  | Some conn =>
      let h1 := with_conns (delete token (conns h)) h in
      if readable ev && negb (pending_close conn) then
        let '(c1, r) := on_readable conn (ev_reads ev) in
        match r with
        | Ok (cmds, action) => Some (mkThread h1 (Some (mkTask token ev c1 None cmds action false)))
        | Err _ => Some (mkThread h1 (Some (mkTask token ev c1 None [] Continue true)))
        | Panic => None
        end
      else Some (mkThread h1 (Some (mkTask token ev conn None [] Continue false)))
  end.

(** [on_event] after the last command: the handler, the bytes sent and whether
    the connection is closed. *)
Definition end_event {S} (t : Task S) (h : WorkerHandler) : WorkerHandler * bytes * bool :=
  let c1 := match t_action t with Close => with_pending_close (t_conn t) | Continue => t_conn t end in
  let '(c2, sent, hard_close) := handle_writable (t_event t) c1 (t_hard t) in
  if hard_close || (pending_close c2 && negb (has_pending_writes c2)) then (h, sent, true)
  else if reregister_ok (t_event t)
  then (with_conns (<[t_token t := c2]> (conns h)) h, sent, false)
  else (h, sent, true).

Definition with_task_conn {S} (t : Task S) (c : Connection) : Task S :=
  mkTask (t_token t) (t_event t) c None (t_cmds t) (t_action t) (t_hard t).
Definition with_run {S} (t : Task S) (cmd : Command) (p : Prog (Server S) bytes) (cmds : list Command) : Task S :=
  mkTask (t_token t) (t_event t) (t_conn t) (Some (cmd, p)) cmds (t_action t) (t_hard t).

(** The tokens [on_wake] gives out and the connections [on_timer] drops. *)
Fixpoint opened_tokens (ok : Z -> bool) (waiting : list Z) (next : Z) : list Z :=
  match waiting with
  | [] => []
  | _ :: waiting' =>
      (if ok next then [next] else []) ++ opened_tokens ok waiting' (wrap64 (next + 1))
  end.

Definition held (h : WorkerHandler) : Z := Z.of_nat (size (conns h)).

(** What the acceptor has just put into the channel of worker [i]. *)
Definition newly_sent (a a' : Acceptor) (i : nat) : list Z :=
  drop (length (default [] (senders a !! i))) (default [] (senders a' !! i)).

Definition receive {S} (l : list Z) (t : WorkerThread S) : WorkerThread S :=
  let h := handler t in
  mkThread (mkWorker (incoming h ++ l) (conns h) (next_token h) (read_timeout h) (sweep_timer h)) (task t).

(** ** Waking and sweeping *)

Section Counters.
Context {S : Type}.

Lemma count_connections_0 (s : Server S) : count_connections 0 s = s.
Proof. destruct s as [db [] th]. unfold count_connections, add_connections. cbn. by rewrite Z.add_0_r. Qed.

Lemma count_connections_add n m (s : Server S) :
  count_connections n (count_connections m s) = count_connections (m + n) s.
Proof. destruct s as [db [] th]. unfold count_connections, add_connections. cbn. by rewrite Z.add_assoc. Qed.

Lemma wake_loop_run ok waiting : forall m next (s : Server S) m' next' s',
  wake_loop ok waiting m next s = (m', next', s') ->
  s' = count_connections (Z.of_nat (size m') - Z.of_nat (size m)) s /\
  (forall t, t ∉ opened_tokens ok waiting next -> m' !! t = m !! t).
Proof.
  induction waiting as [|now waiting IH]; intros m next s m' next' s' E; cbn [wake_loop opened_tokens] in *.
  { injection E as <- _ <-. by rewrite Z.sub_diag, count_connections_0. }
  destruct (ok next); apply IH in E as [-> Hother]; [|by split].
  rewrite count_connections_add. split.
  - f_equal. destruct (m !! next) as [c|] eqn:E.
    + rewrite map_size_insert_Some by (by rewrite E). lia.
    + rewrite map_size_insert_None by done. lia.
  - intros t Ht. apply not_elem_of_app in Ht as [Hn Ht]. rewrite Hother by done.
    apply lookup_insert_ne. set_solver.
Qed.

Lemma on_timer_run now id new_id h (s : Server S) h' s' r :
  on_timer now id new_id (h, s) = ((h', s'), r) ->
  let dropped := dom (conns h) ∖ dom (conns h') in
  s' = count_connections (- Z.of_nat (size dropped)) s /\
  size (conns h) = (size dropped + size (conns h'))%nat /\
  (forall t, t ∉ dropped -> conns h' !! t = conns h !! t).
Proof.
  intros E dropped.
  assert (Hsub : conns h' ⊆ conns h /\
    s' = count_connections (Z.of_nat (size (conns h')) - Z.of_nat (size (conns h))) s).
  { pose proof (elsewhere_timer now id new_id (h, s)) as He. rewrite E in He. unfold elsewhere in He.
    cbn in He. unfold on_timer in E.
    case_decide; [|injection E as <- <- _; by rewrite Z.sub_diag, count_connections_0].
    destruct (read_timeout h) as [t|]; injection E as <- <- _; cbn in *.
    - split; [apply map_filter_subseteq|]. f_equal. lia.
    - by rewrite Z.sub_diag, count_connections_0. }
  destruct Hsub as [Hsub ->].
  assert (Hsz : size (conns h) = (size dropped + size (conns h'))%nat).
  { rewrite <- (size_dom (conns h)), <- (size_dom (conns h')). unfold dropped.
    apply subseteq_dom in Hsub. rewrite size_difference by done. apply subseteq_size in Hsub. lia. }
  split_and!; [f_equal; lia | done|]. intros t Ht. destruct (conns h !! t) as [c|] eqn:Ec.
  - assert (Hin : t ∈ dom (conns h)) by (by apply elem_of_dom_2 in Ec).
    assert (Hin' : t ∈ dom (conns h')) by set_solver. apply elem_of_dom in Hin' as [c' Ec'].
    rewrite Ec', <- Ec. symmetry. by eapply lookup_weaken.
  - destruct (conns h' !! t) as [c'|] eqn:Ec'; [|done]. by rewrite (lookup_weaken _ _ _ _ Ec' Hsub) in Ec.
Qed.

End Counters.

(** ** The steps of the pool *)

Section Pool.
Context {S : Type} `{SE : StorageEngine S} `{SP : SpanEngine S} `{SL : !SpanLaws S} `{HW : HasWorld S} `{TK : Ticking S}
  `{CK : Clock} `{ET : ErrorText} `{SW : Stopwatch}.

Definition set_worker (i : nat) (t : WorkerThread S) (s : Server S) (P : Pool S) : Pool S :=
  mkPool (pool_acceptor P) (<[i := t]> (pool_workers P)) s (compactions P).

(** The next step of the handler that worker [i] is in: the next span of the
    command that is being executed, the queueing of its answer, the call of the
    next command, the end. A command that panics ends the thread: it takes no
    further step. *)
Definition next_step (cfg : CompactionCfg) (i : nat) (h : WorkerHandler) (t : Task S) (P : Pool S)
    : option (Pool S * list pool_obs) :=
  let k := (i, t_token t) in
  let s := pool_server P in
  match t_run t with
  | Some (cmd, Span f) =>
      let '(s', p) := f s in
      Some (set_worker i (mkThread h (Some (with_run t cmd p (t_cmds t)))) s' P, [])
  | Some (cmd, Halt (Ok res)) =>
      Some (set_worker i (mkThread h (Some (with_task_conn t (enqueue_response (t_conn t) res)))) s P,
            [Ran k cmd res (ticks_of (database s))])
  | Some (_, Halt _) => None
  | None =>
      match t_cmds t with
      | cmd :: cmds =>
          Some (set_worker i (mkThread h (Some (with_run t cmd (dispatch_spans cfg cmd) cmds))) s P,
                [Called k cmd (ticks_of (database s))])
      | [] =>
          let '(h', sent, closed) := end_event t h in
          let s' := if closed then count_connections (-1) s else s in
          Some (set_worker i (mkThread h' None) s' P, [Ended k sent closed])
      end
  end.

(** A spawned compaction thread begins. *)
Definition compact_begin_step (P : Pool S) : option (Pool S) :=
  match threads (pool_server P) with
  | Datatypes.S n =>
      Some (mkPool (pool_acceptor P) (pool_workers P)
              (mkServer (database (pool_server P)) (stats (pool_server P)) n)
              (compactions P ++ [Compacting p_compact]))
  | O => None
  end.

(** Compaction thread [j] takes a step; at its end, or when it panics, it is
    gone. *)
Definition compact_next_step (j : nat) (P : Pool S) : option (Pool S) :=
  match compactions P !! j with
  | Some t =>
      let '(s', r) := thread_step t (pool_server P) in
      let ts := match r with Ok (Some t') => <[j := t']> (compactions P) | _ => delete j (compactions P) end in
      Some (mkPool (pool_acceptor P) (pool_workers P) s' ts)
  | None => None
  end.

(** A step of the background thread of the engine. *)
Definition own_pool_step (P : Pool S) : Pool S :=
  let s := pool_server P in
  mkPool (pool_acceptor P) (pool_workers P) (put_db (own_step (database s)).1 s) (compactions P).

(** A step, and what is seen of it; [None] when it is not possible: the worker
    is inside a handler, or outside, or there is no such thread. *)
Definition pool_step (cfg : CompactionCfg) (a : pool_act) (P : Pool S)
    : option (Pool S * list pool_obs) :=
  let s := pool_server P in
  match a with
  | Arrive setup_ok now =>
      match accept setup_ok (fun _ => true) (active_connections (stats s)) now (pool_acceptor P) with
      | Ok a' =>
          let ws := imap (fun i => receive (newly_sent (pool_acceptor P) a' i)) (pool_workers P) in
          Some (mkPool a' ws s (compactions P), [])
      | _ => None
      end
  | Wake i ok new_id =>
      match pool_workers P !! i with
      | Some (mkThread h None) =>
          let '((h', s'), _) := on_wake ok new_id (h, s) in
          Some (set_worker i (mkThread h' None) s' P,
                [Opened i (opened_tokens ok (incoming h) (next_token h)) (held h' - held h)])
      | _ => None
      end
  | Timer i now timer_id new_id =>
      match pool_workers P !! i with
      | Some (mkThread h None) =>
          let '((h', s'), _) := on_timer now timer_id new_id (h, s) in
          Some (set_worker i (mkThread h' None) s' P, [Swept i (dom (conns h) ∖ dom (conns h'))])
      | _ => None
      end
  | Begin i token ev =>
      match pool_workers P !! i with
      | Some (mkThread h None) =>
          match begin_event token ev h with
          | Some t => Some (set_worker i t s P, [])
          | None => None
          end
      | _ => None
      end
  | Next i =>
      match pool_workers P !! i with
      | Some (mkThread h (Some t)) => next_step cfg i h t P
      | _ => None
      end
  | CompactBegin => (fun P' => (P', [])) <$> compact_begin_step P
  | CompactNext j => (fun P' => (P', [])) <$> compact_next_step j P
  | OwnStep => Some (own_pool_step P, [])
  end.

Fixpoint pool_run (cfg : CompactionCfg) (acts : list pool_act) (P : Pool S)
    : option (Pool S * list pool_obs) :=
  match acts with
  | [] => Some (P, [])
  | a :: acts' =>
      match pool_step cfg a P with
      | Some (P1, tr1) =>
          match pool_run cfg acts' P1 with
          | Some (P2, tr2) => Some (P2, tr1 ++ tr2)
          | None => None
          end
      | None => None
      end
  end.

(** ** Lemmas: one connection among the others *)

Definition brought_to (k : ConnId) (a : pool_act) : bytes :=
  match a with Begin i token ev => if decide (k = (i, token)) then brought ev else [] | _ => [] end.

Definition ran (k : ConnId) (o : pool_obs) : list Command :=
  match o with Ran k' cmd _ _ => if decide (k = k') then [cmd] else [] | _ => [] end.
Definition answered (k : ConnId) (o : pool_obs) : bytes :=
  match o with Ran k' _ res _ => if decide (k = k') then res else [] | _ => [] end.
Definition sent_on (k : ConnId) (o : pool_obs) : bytes :=
  match o with Ended k' sent _ => if decide (k = k') then sent else [] | _ => [] end.

(** The socket of the connection has no errors; whatever happens to others. *)
Definition calm_on (k : ConnId) (a : pool_act) : Prop :=
  match a with Begin i token ev => k = (i, token) -> calm ev | _ => True end.

(** The connection is not timed out, nor is its token given out again. *)
Definition kept (k : ConnId) (o : pool_obs) : Prop :=
  match o with
  | Opened i tokens _ => k.1 = i -> k.2 ∉ tokens
  | Swept i tokens => k.1 = i -> k.2 ∉ tokens
  | _ => True
  end.

(** The commands of a task that are not answered. *)
Definition to_execute (t : Task S) : list Command :=
  match t_run t with Some (cmd, _) => cmd :: t_cmds t | None => t_cmds t end.

(** The connection can be read, or its commands are being executed: its parser
    holds [p], [out] is to be sent and [todo] to be executed. *)
Inductive thread_at (token : Z) : WorkerThread S -> FrameParser -> bytes -> list Command -> Prop :=
  | at_table h tk p out :
      open h token p out -> (forall t, tk = Some t -> t_token t <> token) ->
      thread_at token (mkThread h tk) p out []
  | at_work h t :
      t_token t = token -> conn_wf (t_conn t) -> parser_wf (parser (t_conn t)) ->
      idle (parser (t_conn t)) -> pending_close (t_conn t) = false -> t_action t = Continue ->
      t_hard t = false -> Forall calm_write (ev_writes (t_event t)) ->
      reregister_ok (t_event t) = true ->
      thread_at token (mkThread h (Some t)) (parser (t_conn t)) (pending (t_conn t)) (to_execute t).

Definition conn_at (k : ConnId) (P : Pool S) (p : FrameParser) (out : bytes) (todo : list Command) : Prop :=
  exists t, pool_workers P !! k.1 = Some t /\ thread_at k.2 t p out todo.

Lemma open_same h h' token p out :
  open h token p out -> conns h' !! token = conns h !! token -> open h' token p out.
Proof. intros [(c & Hc & H) Hw Hi] E. split; [|done|done]. exists c. by rewrite E. Qed.

Lemma begin_other token token' ev h p out t' :
  open h token p out -> token' <> token -> begin_event token' ev h = Some t' -> thread_at token t' p out [].
Proof.
  intros Ho Hne E. unfold begin_event in E.
  assert (Hd : open (with_conns (delete token' (conns h)) h) token p out)
    by (eapply open_same; [exact Ho|]; by apply lookup_delete_ne).
  destruct (conns h !! token') as [conn|]; [|injection E as <-; by constructor].
  destruct (_ && _); [destruct (on_readable conn (ev_reads ev)) as [c1 [[cmds action]| |]]|];
    try done; injection E as <-; constructor; try done; by intros ? [= <-].
Qed.

Lemma begin_this token ev h p out p' cmds t' :
  open h token p out -> calm ev -> feed p (brought ev) = (p', Ok (cmds, Continue)) ->
  begin_event token ev h = Some t' -> thread_at token t' p' out cmds.
Proof.
  intros [(c & Hc & Hwf & <- & Hpc & <-) Hpw Hpi] [Hq Hcw Hre] Hf E.
  unfold begin_event, brought in *. rewrite Hc, Hpc in E.
  destruct (feed_after _ _ _ _ Hpw Hf) as [Hpw' Hpi'].
  destruct (readable ev); cbn [andb negb] in E.
  - destruct (read_quiet _ c [] p' cmds Hpw Hpi Hq Hf) as [now Er]. unfold on_readable in E. rewrite Er in E.
    injection E as <-. set (t := mkTask _ _ _ _ _ _ _). apply (at_work _ _ t); try done.
  - rewrite feed_run, extend_nil, Hpi in Hf. injection Hf as <- <-. injection E as <-.
    set (t := mkTask _ _ _ _ _ _ _). by apply (at_work _ _ t).
Qed.

Lemma end_other token (t : Task S) h p out h' sent closed :
  open h token p out -> t_token t <> token -> end_event t h = (h', sent, closed) ->
  thread_at token (mkThread h' None) p out [].
Proof.
  intros Ho Hne E. unfold end_event in E. destruct (handle_writable _ _ _) as [[c2 sent2] hard].
  assert (Hi : open (with_conns (<[t_token t := c2]> (conns h)) h) token p out)
    by (eapply open_same; [exact Ho|]; by apply lookup_insert_ne).
  destruct (_ || _); [|destruct (reregister_ok _)]; injection E as <- _ _; by constructor.
Qed.

Lemma end_this token (t : Task S) h p out h' sent closed :
  t_token t = token -> thread_at token (mkThread h (Some t)) p out [] ->
  end_event t h = (h', sent, closed) ->
  closed = false /\ exists out', thread_at token (mkThread h' None) p out' [] /\ sent ++ out' = out.
Proof.
  intros Htok Ht E.
  inversion Ht as [? ? ? ? _ Hne|? ? _ Hwf Hpw Hpi Hpc Hact Hhard Hcw Hre]; subst; [by destruct (Hne t eq_refl)|].
  match goal with H : to_execute t = [] |- _ => rewrite H in * end.
  unfold end_event, handle_writable in E. rewrite Hact, Hhard in E. cbn [negb andb] in E.
  assert (Hopen : forall c2, conn_wf c2 -> parser c2 = parser (t_conn t) -> pending_close c2 = false ->
    thread_at (t_token t) (mkThread (with_conns (<[t_token t := c2]> (conns h)) h) None)
      (parser (t_conn t)) (pending c2) []).
  { intros c2 ? ? ?. constructor; [|done]. split; [|done|done]. exists c2. split_and!; try done.
    apply lookup_insert_eq. }
  destruct (has_pending_writes (t_conn t)) eqn:Ehp.
  - destruct (write_calm (t_conn t) [] _ Hwf Hcw) as (c2 & sent' & E2 & Hwf2 & Hsent & Hp2 & Hpc2).
    rewrite E2 in E. cbn [orb] in E. rewrite Hpc2, Hpc, Hre in E. cbn [andb] in E. injection E as <- <- <-.
    split; [done|]. exists (pending c2). split; [apply Hopen; congruence | done].
  - cbn [orb] in E. rewrite Hpc, Hre in E. cbn [andb] in E. injection E as <- <- <-.
    split; [done|]. exists (pending (t_conn t)). by split; [apply Hopen|].
Qed.

Lemma next_this cfg i token (t : Task S) h P p out todo P' tr :
  t_token t = token -> thread_at token (mkThread h (Some t)) p out todo ->
  (i < length (pool_workers P))%nat -> next_step cfg i h t P = Some (P', tr) ->
  exists out' todo', conn_at (i, token) P' p out' todo' /\
    todo = concat (map (ran (i, token)) tr) ++ todo' /\
    concat (map (sent_on (i, token)) tr) ++ out' = out ++ concat (map (answered (i, token)) tr).
Proof.
  intros Htok Ht Hi E. pose proof Ht as Ht0. unfold next_step in E.
  assert (Hat : forall t' s', pool_workers (set_worker i t' s' P) !! i = Some t')
    by (intros; cbn; by rewrite list_lookup_insert_eq).
  inversion Ht as [? ? ? ? _ Hne|? ? _ Hwf Hpw Hpi Hpc Hact Hhard Hcw Hre]; subst; [by destruct (Hne t eq_refl)|].
  assert (Hrun : forall cmd q cmds s', conn_at (i, t_token t) (set_worker i (mkThread h (Some (with_run t cmd q cmds))) s' P)
    (parser (t_conn t)) (pending (t_conn t)) (cmd :: cmds))
    by (intros cmd q cmds s'; eexists; split; [apply Hat | by apply (at_work _ h (with_run t cmd q cmds))]).
  unfold to_execute in *. destruct (t_run t) as [[cmd [[res| |]|f]]|]; try done.
  - injection E as <- <-. destruct (enqueue_pending (t_conn t) res Hwf) as [Hwf' Hpend].
    exists (pending (enqueue_response (t_conn t) res)), (t_cmds t). split.
    + eexists. split; [apply Hat|]. by apply (at_work _ h (with_task_conn t (enqueue_response (t_conn t) res))).
    + cbn. case_decide; [|done]. by rewrite Hpend, !app_nil_r.
  - destruct (f (pool_server P)) as [s' q]. injection E as <- <-. eexists _, _. split; [apply Hrun|].
    cbn. by rewrite app_nil_r.
  - destruct (t_cmds t) as [|cmd cmds].
    + destruct (end_event t h) as [[h' sent] closed] eqn:Ee. injection E as <- <-.
      destruct (end_this _ t h _ _ h' sent closed eq_refl Ht0 Ee) as (-> & out' & Ht' & Hs).
      exists out', []. split; [by eexists; split; [apply Hat|]|]. cbn.
      rewrite decide_True by done. by rewrite !app_nil_r.
    + injection E as <- <-. eexists _, _. split; [apply Hrun|]. cbn. by rewrite app_nil_r.
Qed.

(** Nothing of a step concerns the connection. *)
Definition foreign (k : ConnId) (tr : list pool_obs) : Prop :=
  Forall (fun o => ran k o = [] /\ sent_on k o = [] /\ answered k o = []) tr.

Lemma foreign_concat k tr :
  foreign k tr -> concat (map (ran k) tr) = [] /\ concat (map (sent_on k) tr) = [] /\
    concat (map (answered k) tr) = [].
Proof. induction 1 as [|o tr (H1 & H2 & H3) _ IH]; [done|]. cbn. by rewrite H1, H2, H3. Qed.

(** What a step of a worker shows, and whose it is. *)
Lemma next_foreign cfg i k t h P P' tr :
  next_step cfg i h t P = Some (P', tr) -> k <> (i, t_token t) -> foreign k tr.
Proof.
  intros E Hk. unfold next_step in E. unfold foreign.
  destruct (t_run t) as [[cmd [[res| |]|f]]|]; try done; [|destruct (f _)|destruct (t_cmds t)];
    [| |destruct (end_event t h) as [[h' sent] closed]|]; injection E as <- <-;
    repeat constructor; cbn; by rewrite ?decide_False.
Qed.

(** And what it leaves of the worker: inside the handler with the same token, or
    at its end. *)
Lemma next_thread cfg i t h P P' tr :
  next_step cfg i h t P = Some (P', tr) ->
  exists t' s', P' = set_worker i t' s' P /\
    ((exists tk, t' = mkThread h (Some tk) /\ t_token tk = t_token t) \/
     (exists h' sent closed, t' = mkThread h' None /\ end_event t h = (h', sent, closed))).
Proof.
  intros E. unfold next_step in E.
  destruct (t_run t) as [[cmd [[res| |]|f]]|]; try done; [|destruct (f _)|destruct (t_cmds t)];
    [| |destruct (end_event t h) as [[h' sent] closed] eqn:Ee|]; injection E as <- <-;
    eexists _, _; (split; [reflexivity|]); try (by left; eexists).
  right. by eexists _, _, _.
Qed.

Lemma next_other cfg i token (t : Task S) h P p out todo P' tr :
  t_token t <> token -> thread_at token (mkThread h (Some t)) p out todo ->
  (i < length (pool_workers P))%nat -> next_step cfg i h t P = Some (P', tr) ->
  todo = [] /\ conn_at (i, token) P' p out [].
Proof.
  intros Htok Ht Hi E. inversion Ht as [? ? ? ? Ho _|]; subst; [|done]. split; [done|].
  destruct (next_thread _ _ _ _ _ _ _ E) as (t' & s' & -> & Ht').
  exists t'. split; [by apply list_lookup_insert_eq|].
  destruct Ht' as [(tk & -> & Htk)|(h' & sent & closed & -> & Ee)]; [|by eapply end_other].
  constructor; [done|]. intros ? [= <-]. by rewrite Htk.
Qed.

(** A step of another worker leaves the thread of the connection alone. *)
Lemma set_other i j t s (P : Pool S) t0 :
  pool_workers P !! j = Some t0 -> i <> j -> pool_workers (set_worker i t s P) !! j = Some t0.
Proof. intros H Hne. cbn. by rewrite list_lookup_insert_ne. Qed.

Lemma next_elsewhere cfg i k h t P P' tr p out todo :
  conn_at k P p out todo -> k.1 <> i -> next_step cfg i h t P = Some (P', tr) -> conn_at k P' p out todo.
Proof.
  intros (t0 & Ht0 & Ht) Hne E. destruct (next_thread _ _ _ _ _ _ _ E) as (t' & s' & -> & _).
  exists t0. split; [by apply set_other | done].
Qed.

(** A handler that runs to its end at once on a worker at rest. *)
Lemma whole_handler i k (P : Pool S) h h' s' p out todo :
  conn_at k P p out todo -> pool_workers P !! i = Some (mkThread h None) ->
  (k.1 = i -> conns h' !! k.2 = conns h !! k.2) ->
  conn_at k (set_worker i (mkThread h' None) s' P) p out todo.
Proof.
  intros (t0 & Ht0 & Ht) Hi Hsame. destruct (decide (k.1 = i)) as [<-|Hne].
  - rewrite Hi in Ht0. injection Ht0 as <-. exists (mkThread h' None). split.
    + cbn. apply list_lookup_insert_eq. by eapply lookup_lt_Some.
    + inversion Ht; subst. constructor; [|done]. eapply open_same; [done | by apply Hsame].
  - exists t0. split; [by apply set_other | done].
Qed.

Lemma receive_at token l t p out todo : thread_at token t p out todo -> thread_at token (receive l t) p out todo.
Proof. intros []; unfold receive; cbn [handler task]; constructor; try done. by eapply open_same. Qed.

Lemma feed_idle p p' cs : idle p -> feed p [] = (p', Ok (cs, Continue)) -> p' = p /\ cs = [].
Proof. intros Hi. rewrite feed_run, extend_nil, Hi. by intros [= <- <-]. Qed.

Lemma at_idle k P p out todo : conn_at k P p out todo -> idle p /\ parser_wf p.
Proof. intros (t & _ & [? ? ? ? []|]); done. Qed.

(** What a step does for a connection in whose parser it leaves [p'] and for
    which it brings the commands [cs]. *)
Definition advances (k : ConnId) (out : bytes) (todo : list Command) (P' : Pool S) (tr : list pool_obs)
    (p' : FrameParser) (cs : list Command) : Prop :=
  exists out' todo', conn_at k P' p' out' todo' /\
    todo ++ cs = concat (map (ran k) tr) ++ todo' /\
    concat (map (sent_on k) tr) ++ out' = out ++ concat (map (answered k) tr).

Lemma advances_foreign k P' tr p out todo :
  conn_at k P' p out todo -> foreign k tr -> advances k out todo P' tr p [].
Proof. intros Hk (H1 & H2 & H3)%foreign_concat. exists out, todo. by rewrite H1, H2, H3, !app_nil_r. Qed.

Lemma begin_conn i token ev k P h t' p out todo p' cs :
  conn_at k P p out todo -> pool_workers P !! i = Some (mkThread h None) ->
  begin_event token ev h = Some t' -> (k = (i, token) -> calm ev) ->
  feed p (if decide (k = (i, token)) then brought ev else []) = (p', Ok (cs, Continue)) ->
  advances k out todo (set_worker i t' (pool_server P) P) [] p' cs.
Proof.
  intros Hk Ei Eb Hcalm Hf. pose proof (at_idle _ _ _ _ _ Hk) as [Hidle _]. destruct Hk as (t0 & Ht0 & Ht).
  assert (Hat : pool_workers (set_worker i t' (pool_server P) P) !! i = Some t')
    by (apply list_lookup_insert_eq; by eapply lookup_lt_Some).
  destruct (decide (k = (i, token))) as [->|Hne].
  - cbn in Ht0, Ht. rewrite Ei in Ht0. injection Ht0 as <-. inversion Ht; subst.
    exists out, cs. cbn [map concat app]. rewrite app_nil_r. split; [|done].
    exists t'. split; [exact Hat | eapply begin_this; eauto].
  - apply feed_idle in Hf as [-> ->]; [|done]. apply advances_foreign; [|by constructor].
    destruct k as [j token']. cbn in Ht0, Ht. destruct (decide (j = i)) as [->|Hji].
    + rewrite Ei in Ht0. injection Ht0 as <-. inversion Ht; subst. exists t'. split; [exact Hat|].
      eapply begin_other; [done | |done]. intros ->. by apply Hne.
    + exists t0. split; [by apply set_other | done].
Qed.

Lemma next_conn cfg i k P h t P' tr p out todo :
  conn_at k P p out todo -> pool_workers P !! i = Some (mkThread h (Some t)) ->
  next_step cfg i h t P = Some (P', tr) -> advances k out todo P' tr p [].
Proof.
  intros Hk Ei E. destruct (decide (k.1 = i)) as [Hki|Hne].
  2: { apply advances_foreign; [by eapply next_elsewhere|]. eapply next_foreign; [done|]. by intros ->. }
  destruct k as [j token]. cbn in Hki. subst j. destruct Hk as (t0 & Ht0 & Ht). cbn in Ht0, Ht.
  rewrite Ei in Ht0. injection Ht0 as <-. pose proof (lookup_lt_Some _ _ _ Ei) as Hlt.
  destruct (decide (t_token t = token)) as [Htok|Htok].
  - unfold advances. rewrite app_nil_r. by apply (next_this cfg i token t h P p out todo).
  - destruct (next_other cfg i token t h P p out todo P' tr) as (-> & H1); try done.
    apply advances_foreign; [done|]. eapply next_foreign; [done|]. congruence.
Qed.

(** The steps of compaction threads and of the engine touch no worker. *)
Lemma thread_workers cfg a P P' tr :
  pool_step cfg a P = Some (P', tr) ->
  match a with CompactBegin | CompactNext _ | OwnStep => True | _ => False end ->
  tr = [] /\ pool_workers P' = pool_workers P.
Proof.
  intros E Ha. destruct a; try done; cbn [pool_step] in E.
  - unfold compact_begin_step in E. destruct (threads _); by simplify_eq/=.
  - unfold compact_next_step in E. destruct (_ !! j); [|done]. destruct (thread_step _ _); by simplify_eq/=.
  - by injection E as <- <-.
Qed.

(** One step, for a connection that is not disturbed. *)
Lemma step_conn cfg a k P P' tr p out todo p' cs :
  conn_at k P p out todo -> pool_step cfg a P = Some (P', tr) -> calm_on k a -> Forall (kept k) tr ->
  feed p (brought_to k a) = (p', Ok (cs, Continue)) -> advances k out todo P' tr p' cs.
Proof.
  intros Hk E Hcalm Hkept Hf. pose proof (at_idle _ _ _ _ _ Hk) as [Hidle _]. pose proof E as E0.
  unfold pool_step in E. destruct a as [ok now|i ok id|i now tid id|i token ev|i| |j|]; cbn [brought_to] in Hf;
    try (apply feed_idle in Hf as [-> ->]; [|done]);
    try (by destruct (thread_workers _ _ _ _ _ E0 I) as [-> Hw]; apply advances_foreign; [|by constructor];
      destruct Hk as (t0 & Ht0 & Ht); exists t0; rewrite Hw).
  - destruct (accept _ _ _ _ _); [|done|done]. injection E as <- <-. apply advances_foreign; [|by constructor].
    destruct Hk as (t0 & Ht0 & Ht). eexists. cbn. rewrite list_lookup_imap, Ht0.
    split; [reflexivity | by apply receive_at].
  - destruct (pool_workers P !! i) as [[h [t|]]|] eqn:Ei; [done| |done]. unfold on_wake in E.
    destruct (wake_loop _ _ _ _ _) as [[m n] s'] eqn:Ew. injection E as <- <-.
    apply wake_loop_run in Ew as [_ Hother]. apply Forall_cons in Hkept as [Hkept _].
    apply advances_foreign; [|by repeat constructor].
    apply (whole_handler i k P h); [done|done|]. intros Hki. cbn. by apply Hother, Hkept.
  - destruct (pool_workers P !! i) as [[h [t|]]|] eqn:Ei; [done| |done].
    destruct (on_timer _ _ _ _) as [[h' s'] r] eqn:Et. injection E as <- <-.
    apply on_timer_run in Et as (_ & _ & Hother). apply Forall_cons in Hkept as [Hkept _].
    apply advances_foreign; [|by repeat constructor].
    apply (whole_handler i k P h); [done|done|]. intros Hki. by apply Hother, Hkept.
  - destruct (pool_workers P !! i) as [[h [t|]]|] eqn:Ei; [done| |done].
    destruct (begin_event token ev h) as [t'|] eqn:Eb; [|done]. injection E as <- <-.
    by apply (begin_conn i token ev k P h t' p).
  - destruct (pool_workers P !! i) as [[h [t|]]|] eqn:Ei; [|done|done]. by apply (next_conn cfg i k P h t).
Qed.

Lemma run_conn cfg acts k : forall P P' tr p out todo p' cs,
  conn_at k P p out todo -> pool_run cfg acts P = Some (P', tr) ->
  Forall (calm_on k) acts -> Forall (kept k) tr ->
  feed p (concat (map (brought_to k) acts)) = (p', Ok (cs, Continue)) ->
  advances k out todo P' tr p' cs.
Proof.
  induction acts as [|a acts IH]; intros P P' tr p out todo p' cs Hk E Hc Hkept Hf; cbn [pool_run map concat] in *.
  - injection E as <- <-. apply feed_idle in Hf as [-> ->]; [|by destruct (at_idle _ _ _ _ _ Hk)].
    exists out, todo. by rewrite !app_nil_r.
  - destruct (pool_step cfg a P) as [[P1 tr1]|] eqn:E1; [|done].
    destruct (pool_run cfg acts P1) as [[P2 tr2]|] eqn:E2; [|done]. injection E as <- <-.
    apply Forall_cons in Hc as [Hca Hc]. apply Forall_app in Hkept as [Hkept1 Hkept2].
    destruct (at_idle _ _ _ _ _ Hk) as [_ Hw].
    destruct (feed_split _ _ _ _ _ Hw Hf) as (p1 & c1 & c2 & Ef1 & Ef2 & -> & _).
    destruct (step_conn _ _ _ _ _ _ _ _ _ _ _ Hk E1 Hca Hkept1 Ef1) as (out1 & todo1 & Hk1 & Ht1 & Ho1).
    destruct (IH _ _ _ _ _ _ _ _ Hk1 E2 Hc Hkept2 Ef2) as (out2 & todo2 & Hk2 & Ht2 & Ho2).
    exists out2, todo2. split; [done|]. rewrite !map_app, !concat_app, <- !app_assoc, Ho2. split.
    + by rewrite app_assoc, Ht1, <- app_assoc, Ht2.
    + by rewrite app_assoc, Ho1, <- app_assoc.
Qed.

(** ** Lemmas: the steps of one handler, undisturbed *)

Lemma set_worker_twice i t1 t2 s1 s2 (P : Pool S) :
  set_worker i t2 s2 (set_worker i t1 s1 P) = set_worker i t2 s2 P.
Proof. unfold set_worker. cbn. by rewrite list_insert_insert_eq. Qed.

Lemma pool_run_cons cfg a acts (P : Pool S) :
  pool_run cfg (a :: acts) P
  = match pool_step cfg a P with
    | Some (P1, tr1) =>
        match pool_run cfg acts P1 with Some (P2, tr2) => Some (P2, tr1 ++ tr2) | None => None end
    | None => None
    end.
Proof. done. Qed.

Lemma run_next cfg i h t (P : Pool S) :
  pool_workers P !! i = Some (mkThread h (Some t)) -> pool_step cfg (Next i) P = next_step cfg i h t P.
Proof. intros E. unfold pool_step. by rewrite E. Qed.

Lemma pool_runs_app cfg a b (P P1 P2 : Pool S) tr1 tr2 :
  pool_run cfg a P = Some (P1, tr1) -> pool_run cfg b P1 = Some (P2, tr2) ->
  pool_run cfg (a ++ b) P = Some (P2, tr1 ++ tr2).
Proof.
  revert P tr1. induction a as [|x a IH]; intros P tr1 Ea Eb; [by injection Ea as <- <-|].
  cbn [app]. rewrite pool_run_cons in *. destruct (pool_step cfg x P) as [[P0 tr0]|]; [|done].
  destruct (pool_run cfg a P0) as [[P3 tr3]|] eqn:E3; [|done]. injection Ea as <- <-.
  rewrite (IH _ _ E3 Eb). by rewrite app_assoc.
Qed.

(** The spans of a command one after the other. *)
Lemma run_spans cfg i h t cmd : forall q (P : Pool S) s' r,
  pool_workers P !! i = Some (mkThread h (Some (with_run t cmd q (t_cmds t)))) ->
  run_alone q (pool_server P) = (s', r) ->
  exists n, pool_run cfg (replicate n (Next i)) P
    = Some (set_worker i (mkThread h (Some (with_run t cmd (Halt r) (t_cmds t)))) s' P, []).
Proof.
  induction q as [r0|f IH] using prog_ind; intros P s' r Hi E; cbn in E.
  - injection E as <- <-. exists 0%nat. cbn. unfold set_worker. rewrite list_insert_id by done. by destruct P.
  - specialize (IH (pool_server P)). destruct (f (pool_server P)) as [s1 q1] eqn:Ef. cbn in IH.
    pose (P1 := set_worker i (mkThread h (Some (with_run t cmd q1 (t_cmds t)))) s1 P).
    destruct (IH P1 s' r) as [n En]; [cbn; apply list_lookup_insert_eq; by eapply lookup_lt_Some | done|].
    exists (Datatypes.S n). rewrite replicate_S, pool_run_cons, (run_next _ _ _ _ _ Hi). unfold next_step.
    cbn [with_run t_run t_cmds t_token]. rewrite Ef. fold (with_run t cmd q1 (t_cmds t)).
    change (with_run (with_run t cmd (Span f) (t_cmds t)) cmd q1 (t_cmds t)) with (with_run t cmd q1 (t_cmds t)).
    fold P1. rewrite En. unfold P1. by rewrite set_worker_twice.
Qed.

(** A command from its call to its answer. *)
Lemma run_command cfg i h t cmd cmds (P : Pool S) s' res :
  pool_workers P !! i = Some (mkThread h (Some t)) -> t_run t = None -> t_cmds t = cmd :: cmds ->
  dispatch cfg cmd (pool_server P) = (s', Ok res) ->
  let t' := mkTask (S := S) (t_token t) (t_event t) (enqueue_response (t_conn t) res) None cmds (t_action t) (t_hard t) in
  exists n time time', pool_run cfg (replicate n (Next i)) P
    = Some (set_worker i (mkThread h (Some t')) s' P,
            [Called (i, t_token t) cmd time; Ran (i, t_token t) cmd res time']).
Proof.
  intros Hi Hr Hc Ed t'. rewrite <- dispatch_spans_alone in Ed.
  pose (t1 := mkTask (S := S) (t_token t) (t_event t) (t_conn t) None cmds (t_action t) (t_hard t)).
  pose (P1 := set_worker i (mkThread h (Some (with_run t1 cmd (dispatch_spans cfg cmd) cmds))) (pool_server P) P).
  assert (Hat : forall t' s', pool_workers (set_worker i t' s' P) !! i = Some t')
    by (intros; cbn; apply list_lookup_insert_eq; by eapply lookup_lt_Some).
  destruct (run_spans cfg i h t1 cmd (dispatch_spans cfg cmd) P1 s' (Ok res)) as [n En]; [apply Hat | exact Ed|].
  exists (1 + (n + 1))%nat, (ticks_of (database (pool_server P))), (ticks_of (database s')).
  rewrite !replicate_add. cbn [replicate app]. rewrite pool_run_cons, (run_next _ _ _ _ _ Hi). unfold next_step at 1.
  rewrite Hr, Hc. change (with_run t cmd (dispatch_spans cfg cmd) cmds) with (with_run t1 cmd (dispatch_spans cfg cmd) cmds).
  fold P1. unfold P1 in En. rewrite set_worker_twice in En.
  erewrite (pool_runs_app _ _ _ _ _ _ _ _ En); [reflexivity|].
  rewrite pool_run_cons, (run_next _ _ h _ _ (Hat _ _)). cbn [pool_run next_step with_run t_run t_token].
  by rewrite set_worker_twice.
Qed.

(** The commands of a task one after the other, then its end. *)
Lemma run_task cfg i h : forall t (P : Pool S) s' c',
  pool_workers P !! i = Some (mkThread h (Some t)) -> t_run t = None ->
  serve cfg (t_cmds t) (t_conn t) (pool_server P) = (s', Ok c') ->
  let t' := mkTask (S := S) (t_token t) (t_event t) c' None [] (t_action t) (t_hard t) in
  exists n tr, pool_run cfg (replicate n (Next i)) P
    = (let '(h', sent, closed) := end_event t' h in
       Some (set_worker i (mkThread h' None) (if closed then count_connections (-1) s' else s') P,
             tr ++ [Ended (i, t_token t) sent closed])) /\
    concat (map (sent_on (i, t_token t)) tr) = [] /\ concat (map (ran (i, t_token t)) tr) = t_cmds t.
Proof.
  intros [token ev c run cmds action hard]. cbn [t_cmds t_conn t_token t_run t_event t_action t_hard]. revert c run.
  induction cmds as [|cmd cmds IH]; intros c run P s' c' Hi -> Hs; cbn [serve] in *.
  - injection Hs as <- <-. exists 1%nat, []. split; [|done]. cbn [replicate].
    rewrite pool_run_cons, (run_next _ _ _ _ _ Hi). cbn [next_step t_run t_cmds t_token].
    destruct (end_event _ h) as [[h' sent] closed]. done.
  - unfold st_bind in Hs. destruct (dispatch cfg cmd (pool_server P)) as [s1 [res| |]] eqn:Ed; [|done|done].
    destruct (run_command cfg i h _ cmd cmds P s1 res Hi eq_refl eq_refl Ed) as (n1 & tm & tm' & E1).
    cbn [t_token t_event t_conn t_action t_hard] in E1. set (P1 := set_worker i _ s1 P) in E1.
    destruct (IH (enqueue_response c res) None P1 s' c') as (n & tr & E & H1 & H2); [|done|exact Hs|].
    { cbn. apply list_lookup_insert_eq. by eapply lookup_lt_Some. }
    exists (n1 + n)%nat, ([Called (i, token) cmd tm; Ran (i, token) cmd res tm'] ++ tr). rewrite replicate_add.
    destruct (end_event _ h) as [[h' sent] closed]. split.
    + rewrite (pool_runs_app _ _ _ _ _ _ _ _ E1 E). unfold P1. by rewrite set_worker_twice.
    + cbn. rewrite decide_True by done. by rewrite H1, H2.
Qed.

(** The thread [begin_event] leaves, from the two halves of [on_event]. *)
Lemma begin_readable cfg token ev h (s : Server S) c s1 c1 hard :
  conns h !! token = Some c -> handle_readable cfg ev c s = (s1, Ok (c1, hard)) ->
  exists (t : Task S) c2, begin_event token ev h = Some (mkThread (with_conns (delete token (conns h)) h) (Some t)) /\
    t_token t = token /\ t_event t = ev /\ serve cfg (t_cmds t) (t_conn t) s = (s1, Ok c2) /\
    (match t_action t with Close => with_pending_close c2 | Continue => c2 end) = c1 /\ t_hard t = hard /\
    t_run t = None.
Proof.
  intros Hc Hr. unfold begin_event, handle_readable in *. rewrite Hc.
  destruct (readable ev && negb (pending_close c)).
  - destruct (on_readable c (ev_reads ev)) as [c0 [[cmds action]| |]]; [| |done].
    + unfold st_bind in Hr. destruct (serve cfg cmds c0 s) as [s2 [c2| |]] eqn:Es; [|done|done].
      injection Hr as <- <- <-. eexists _, c2. by split_and!.
    + injection Hr as <- <- <-. eexists _, c0. by split_and!.
  - injection Hr as <- <- <-. eexists _, c. by split_and!.
Qed.

(** ** Theorems *)

(** Cut into steps, [on_event] is still [on_event]: when a call of it returns,
    the worker can take its steps one after the other until the handler ends,
    and they leave the worker and the server where the call leaves them, with
    the same bytes sent. *)
Theorem steps_are_on_event cfg i token ev h c h' s' sent (P : Pool S) :
  pool_workers P !! i = Some (mkThread h None) -> conns h !! token = Some c ->
  on_event cfg token ev (h, pool_server P) = ((h', s'), Ok sent) ->
  exists n tr, pool_run cfg (Begin i token ev :: replicate n (Next i)) P
      = Some (set_worker i (mkThread h' None) s' P, tr) /\
    concat (map (sent_on (i, token)) tr) = sent.
Proof.
  intros Hi Hc E. unfold on_event in E. rewrite Hc in E.
  destruct (handle_readable cfg ev c (pool_server P)) as [s1 [[c1 hard]| |]] eqn:Er; [|done|done].
  destruct (begin_readable _ _ _ _ _ _ _ _ _ Hc Er) as (t & c2 & Eb & Htok & Hev & Es & Hc1 & Hhard & Hrun).
  set (h1 := with_conns (delete token (conns h)) h) in *.
  set (P1 := set_worker i (mkThread h1 (Some t)) (pool_server P) P).
  destruct (run_task cfg i h1 t P1 s1 c2) as (n & tr & Erun & Hsent & _);
    [cbn; apply list_lookup_insert_eq; by eapply lookup_lt_Some | exact Hrun | exact Es |].
  exists n. rewrite pool_run_cons. cbn [pool_step]. rewrite Hi, Eb. fold P1. rewrite Erun.
  unfold end_event. cbn [t_action t_conn t_event t_hard t_token].
  rewrite Hc1, Hev, Hhard, Htok in *. destruct (handle_writable ev c1 hard) as [[c3 sent3] hc].
  unfold P1. destruct (hc || _); [|destruct (reregister_ok ev)]; injection E as <- <- <-;
    rewrite set_worker_twice; eexists; (split; [reflexivity|]); cbn [app];
    rewrite !map_app, !concat_app, Hsent; cbn; by rewrite decide_True, app_nil_r.
Qed.

(** C2: A connection is served as if it were alone. Let the acceptor, the workers,
    the compaction threads and the engine's own thread run in any order, every
    command and every compaction interrupted wherever it releases a lock. Take
    a connection that is new and on which the frames of some commands arrive,
    cut in any way, whose socket has no errors and which is not timed out:
    whatever the other connections do, send, close or fail, exactly these
    commands are executed for it, each once and in their order, and when its
    worker is at rest the connection is open and what was sent on it followed
    by what is still to be sent is their answers, in the same order and nothing
    else. Which answers they are is not said here. *)
Theorem pool_connection_isolated cfg acts (P P' : Pool S) tr i token h now cs stream tail h' :
  pool_run cfg acts P = Some (P', tr) ->
  pool_workers P !! i = Some (mkThread h None) -> conns h !! token = Some (connection_new now) ->
  Forall (calm_on (i, token)) acts -> Forall (kept (i, token)) tr ->
  pipeline cs stream -> len tail < 4 -> concat (map (brought_to (i, token)) acts) = stream ++ tail ->
  pool_workers P' !! i = Some (mkThread h' None) ->
  exists c', conns h' !! token = Some c' /\ pending_close c' = false /\
    concat (map (ran (i, token)) tr) = cs /\
    concat (map (sent_on (i, token)) tr) ++ pending c' = concat (map (answered (i, token)) tr).
Proof.
  intros E Hi Hc Hcalm Hkept Hp Ht Hb Hi'.
  assert (Hat : conn_at (i, token) P parser_new [] []).
  { exists (mkThread h None). split; [done|]. constructor; [by apply (open_new h token now) | done]. }
  destruct (run_conn cfg acts (i, token) P P' tr parser_new [] [] (mkFrameParser AwaitingLength tail) cs)
    as (out & todo & (t & Et & Hta) & Hran & Hsent); try done.
  { rewrite Hb. by apply feed_frames. }
  cbn in Et. rewrite Hi' in Et. injection Et as <-. inversion Hta as [? ? ? ? [(c' & Hc' & _ & _ & Hpc & <-) _ _] _|];
    subst. exists c'. split_and!; try done. cbn in Hran. by rewrite app_nil_r in Hran.
Qed.
End Pool.
