(* ===== verification/PoolTheorems.v ===== *)
(** * The threads of the server: what clients and operators see

    Over the runs of Pool.v: the connections are counted exactly, the limit on
    them can be passed, no two compactions run at a time, and one that fails is
    the last. *)

From S2P Require Import Prelude Utils Record Settings HashIndex World Engine KvEngine KvLog KvInv KvOps KvSpec KvTheorems.
From S2P Require Import Spans KvSpans Strategy SizeTiered LsmEngine LsmSpans TableInv LsmInv LsmSpec LsmTheorems Bffp Float Stats Dispatch SpanDispatch Charge Store Connection Worker Session.
From S2P Require Import Startup ServerTheorems Client Pool.

(** ** Counting the connections of all the workers *)

(** The connections of a worker: those in its table and the one its handler has
    taken out of it. *)
Definition thread_held {S} (t : WorkerThread S) : Z :=
  held (handler t) + match task t with Some _ => 1 | None => 0 end.

Definition total {S} (l : list (WorkerThread S)) : Z := foldr Z.add 0 (thread_held <$> l).

Definition thread_wf {S} (t : WorkerThread S) : Prop :=
  match task t with
  | Some k => conns (handler t) !! t_token k = None /\ forall cmd p, t_run k = Some (cmd, p) -> Steps same_active p
  | None => True
  end.

Lemma total_insert {S} (l : list (WorkerThread S)) i t t' :
  l !! i = Some t -> total (<[i := t']> l) = total l - thread_held t + thread_held t'.
Proof.
  assert (Hc : forall (x : WorkerThread S) l, total (x :: l) = thread_held x + total l) by done.
  revert i. induction l as [|x l IH]; intros [|i] E; [done|done| |].
  - injection E as ->. change (<[0%nat := t']> (t :: l)) with (t' :: l). rewrite !Hc. lia.
  - change (<[Datatypes.S i := t']> (x :: l)) with (x :: <[i := t']> l). rewrite !Hc, (IH i E). lia.
Qed.

Lemma held_delete h token c :
  conns h !! token = Some c -> held (with_conns (delete token (conns h)) h) + 1 = held h.
Proof.
  intros E. unfold held. cbn. rewrite map_size_delete_Some by (by rewrite E).
  assert (size (conns h) <> 0)%nat by (apply (map_size_ne_0_lookup_2 _ token); by rewrite E). lia.
Qed.

Lemma begin_event_held {S} token ev h (t : WorkerThread S) :
  begin_event token ev h = Some t -> thread_held t = held h /\ thread_wf t.
Proof.
  intros E. unfold begin_event in E. destruct (conns h !! token) as [c|] eqn:Ec.
  - pose proof (held_delete h token c Ec) as Hd.
    assert (Hw : forall tk : Task S, t_token tk = token -> t_run tk = None ->
      thread_wf (mkThread (with_conns (delete token (conns h)) h) (Some tk)))
      by (intros tk <- Hr; split; [apply lookup_delete_eq | by rewrite Hr]).
    destruct (_ && _); [destruct (on_readable c (ev_reads ev)) as [c1 [[cmds action]| |]]|];
      simplify_eq; (split; [done | by apply Hw]).
  - injection E as <-. split; [unfold thread_held; cbn; lia | done].
Qed.

Lemma end_event_held {S} (t : Task S) h h' sent closed :
  conns h !! t_token t = None -> end_event t h = (h', sent, closed) ->
  held h' = held h + if closed then 0 else 1.
Proof.
  intros Hn E. unfold end_event in E. destruct (handle_writable _ _ _) as [[c2 sent2] hard].
  destruct (_ || _); [|destruct (reregister_ok _)]; injection E as <- <- <-; try lia.
  unfold held. cbn. rewrite map_size_insert_None by done. lia.
Qed.

Section Counting.
Context {S : Type} `{SE : StorageEngine S} `{SP : SpanEngine S} `{HW : HasWorld S} `{TK : Ticking S}
  `{CK : Clock} `{ET : ErrorText} `{SW : Stopwatch}.

Definition pool_held (P : Pool S) : Z := total (pool_workers P).
Definition pool_active (P : Pool S) : Z := active_connections (stats (pool_server P)).

Lemma receive_total a a' (l : list (WorkerThread S)) :
  total (imap (fun i => receive (newly_sent a a' i)) l) = total l /\
  (Forall thread_wf l -> Forall thread_wf (imap (fun i => receive (newly_sent a a' i)) l)).
Proof.
  generalize (newly_sent a a'). induction l as [|t l IH]; intros f; [done|]. rewrite imap_cons.
  destruct (IH (fun i => f (Datatypes.S i))) as [Ht Hw]. split.
  - unfold total in *. cbn. unfold compose. rewrite Ht. done.
  - intros [H1 H2]%Forall_cons. constructor; [exact H1 | by apply Hw].
Qed.

(** A step of one worker that moves the counter as much as what it holds. *)
Lemma set_worker_counted i t t' s' (P : Pool S) :
  Forall thread_wf (pool_workers P) -> pool_workers P !! i = Some t -> thread_wf t' ->
  active_connections (stats s') = pool_active P + thread_held t' - thread_held t ->
  pool_active (set_worker i t' s' P) - pool_held (set_worker i t' s' P) = pool_active P - pool_held P /\
  Forall thread_wf (pool_workers (set_worker i t' s' P)).
Proof.
  intros Hw Hi Ht' Ha. unfold pool_active, pool_held, set_worker in *. cbn [pool_workers pool_server].
  rewrite (total_insert _ _ t) by done. split; [lia | by apply Forall_insert].
Qed.

Lemma next_counted cfg i h t (P P' : Pool S) tr :
  Forall thread_wf (pool_workers P) -> pool_workers P !! i = Some (mkThread h (Some t)) ->
  next_step cfg i h t P = Some (P', tr) ->
  pool_active P' - pool_held P' = pool_active P - pool_held P /\ Forall thread_wf (pool_workers P').
Proof.
  intros Hw Ei E. destruct (proj1 (Forall_lookup _ _) Hw _ _ Ei) as [Hn Hr]. cbn in Hn, Hr.
  unfold next_step in E. destruct (t_run t) as [[cmd [[res| |]|f]]|]; try done.
  - injection E as <- <-. eapply set_worker_counted; try done.
    unfold thread_held, pool_active. cbn [handler task]. lia.
  - specialize (Hr cmd (Span f) eq_refl). inversion Hr as [|? H1 H2]; subst. specialize (H1 (pool_server P)).
    specialize (H2 (pool_server P)). destruct (f (pool_server P)) as [s' q]. injection E as <- <-.
    eapply set_worker_counted; try done.
    + split; [done|]. cbn. by intros ? ? [= <- <-].
    + unfold thread_held, pool_active. cbn [handler task]. unfold same_active in H1. cbn in H1. lia.
  - destruct (t_cmds t) as [|cmd cmds].
    + destruct (end_event t h) as [[h' sent] closed] eqn:Ee. injection E as <- <-.
      pose proof (end_event_held _ _ _ _ _ Hn Ee) as Hh. eapply set_worker_counted; try done.
      unfold thread_held, pool_active. cbn [handler task]. destruct closed; cbn; lia.
    + injection E as <- <-. eapply set_worker_counted; try done.
      * split; [done|]. cbn. intros ? ? [= <- <-]. apply (dispatch_closed (fun A p => Steps same_active p)).
      * unfold thread_held, pool_active. cbn [handler task]. lia.
Qed.

Lemma step_counted cfg a (P P' : Pool S) tr :
  Forall thread_wf (pool_workers P) -> pool_step cfg a P = Some (P', tr) ->
  pool_active P' - pool_held P' = pool_active P - pool_held P /\ Forall thread_wf (pool_workers P').
Proof.
  intros Hw E. unfold pool_step in E. destruct a as [ok now|i ok id|i now tid id|i token ev|i| |j|].
  - destruct (accept _ _ _ _ _) as [a'| |]; [|done|done]. injection E as <- <-.
    destruct (receive_total (pool_acceptor P) a' (pool_workers P)) as [Ht Hw'].
    unfold pool_active, pool_held. cbn [pool_workers pool_server]. rewrite Ht. auto.
  - destruct (pool_workers P !! i) as [[h [t|]]|] eqn:Ei; [done| |done]. unfold on_wake in E.
    destruct (wake_loop _ _ _ _ _) as [[m n] s'] eqn:Ew. injection E as <- <-.
    apply wake_loop_run in Ew as [-> _]. eapply set_worker_counted; try done.
    unfold thread_held, held, pool_active. cbn. lia.
  - destruct (pool_workers P !! i) as [[h [t|]]|] eqn:Ei; [done| |done].
    destruct (on_timer _ _ _ _) as [[h' s'] r] eqn:Et. injection E as <- <-.
    apply on_timer_run in Et as (-> & Hs & _). eapply set_worker_counted; try done.
    unfold thread_held, held, pool_active. cbn. lia.
  - destruct (pool_workers P !! i) as [[h [t|]]|] eqn:Ei; [done| |done].
    destruct (begin_event token ev h) as [t'|] eqn:Eb; [|done]. injection E as <- <-.
    destruct (begin_event_held _ _ _ _ Eb) as [Hh Hwt]. eapply set_worker_counted; try done.
    unfold thread_held at 2, pool_active. cbn. lia.
  - destruct (pool_workers P !! i) as [[h [t|]]|] eqn:Ei; [|done|done]. by eapply next_counted.
  - unfold compact_begin_step in E. destruct (threads _); by simplify_eq/=.
  - unfold compact_next_step in E. destruct (_ !! j) as [t|]; [|done].
    destruct (thread_step t (pool_server P)) as [s' r] eqn:Et.
    apply thread_charge_step in Et as (_ & Ha & _). simplify_eq/=.
    unfold pool_active, pool_held. cbn. by rewrite Ha.
  - by injection E as <- <-.
Qed.

Lemma run_counted cfg acts : forall (P P' : Pool S) tr,
  Forall thread_wf (pool_workers P) -> pool_run cfg acts P = Some (P', tr) ->
  pool_active P' - pool_held P' = pool_active P - pool_held P /\ Forall thread_wf (pool_workers P').
Proof.
  induction acts as [|a acts IH]; intros P P' tr Hw E; [by injection E as <- <-|]. rewrite pool_run_cons in E.
  destruct (pool_step cfg a P) as [[P1 tr1]|] eqn:E1; [|done].
  destruct (pool_run cfg acts P1) as [[P2 tr2]|] eqn:E2; [|done]. injection E as <- <-.
  destruct (step_counted _ _ _ _ _ Hw E1) as [H1 Hw1]. destruct (IH _ _ _ Hw1 E2) as [H2 Hw2].
  split; [lia | done].
Qed.

Lemma started_empty loops timeout l hs :
  make_workers loops timeout l = Ok hs -> Forall (fun h => conns h = ∅) hs.
Proof.
  revert hs. induction l as [|i l IH]; intros hs E; cbn [make_workers] in E; [by injection E as <-|].
  unfold worker_make in E. destruct (loops i); [|done|done]. cbn [rbind] in E.
  destruct (make_workers _ _ l) as [hs'| |]; [|done|done]. injection E as <-. constructor; [done | by apply IH].
Qed.

Lemma total_fresh hs :
  Forall (fun h => conns h = ∅) hs -> total ((fun h => mkThread (S := S) h None) <$> hs) = 0.
Proof.
  induction 1 as [|h hs Hh _ IH]; [done|]. unfold total in *. cbn. rewrite IH.
  unfold thread_held, held. cbn. by rewrite Hh, map_size_empty.
Qed.

(** C21: The connections of the server are counted exactly. Start the server, and
    let its acceptor, workers and compaction threads run in any order, with
    any errors of the sockets, timeouts and failed registrations: at every
    moment the counter that STATS reports and the acceptor compares with the
    limit is the number of connections that the workers hold, those inside a
    handler included. *)
Theorem pool_counts_connections show_addr bound par loops settings w w' r cfg acts (s : Server S) P' tr :
  server_start show_addr bound par loops settings w = (w', Ok r) -> active_connections (stats s) = 0 ->
  pool_run cfg acts (pool_of r s) = Some (P', tr) ->
  active_connections (stats (pool_server P')) = total (pool_workers P').
Proof.
  intros E Ha Er.
  assert (Hf : Forall (fun h => conns h = ∅) (r_workers r)).
  { unfold server_start, st_bind in E. destruct (st_lift bound w) as [? [addr| |]]; [|done|done].
    destruct (write_file _ _ _) as [? [| |]]; [|done|done].
    unfold st_lift in E. destruct (make_workers _ _ _) as [hs| |] eqn:Em; [|done|done].
    injection E as _ <-. by eapply started_empty. }
  destruct (run_counted cfg acts (pool_of r s) P' tr) as [H _]; [|done|].
  - cbn. apply Forall_fmap. by apply Forall_true.
  - unfold pool_active, pool_held, pool_of in H. cbn [pool_workers pool_server] in H. rewrite total_fresh in H by done. lia.
Qed.
End Counting.

(** ** One compaction at a time *)

Section Exclusive.
Context {S : Type} `{SE : StorageEngine S} `{SP : SpanEngine S} `{HW : HasWorld S} `{TK : Ticking S}
  `{CK : Clock} `{ET : ErrorText} `{SW : Stopwatch}.

(** Whether the command of a worker is in charge of starting a compaction. *)
Definition worker_charge (t : WorkerThread S) (b : bool) : Prop :=
  match task t with
  | Some k => match t_run k with Some (_, p) => in_charge b p | None => b = false end
  | None => b = false
  end.

Definition charges (bs : list bool) : nat := sum_list_with Nat.b2n bs.

(** The commands, the threads that have not begun and the threads in charge. *)
Definition charge (bs : list bool) (P : Pool S) : nat :=
  (charges bs + threads (pool_server P) + sum_list_with thread_charge (compactions P))%nat.

(** A property of the flag and of the number of those in charge. *)
Definition guarded (Q : bool -> nat -> Prop) (P : Pool S) : Prop :=
  exists bs, Forall2 worker_charge (pool_workers P) bs /\ Q (compacting (stats (pool_server P))) (charge bs P).

(** What raising the flag, clearing it and failing do. *)
Record guards (Q : bool -> nat -> Prop) : Prop := {
  guard_raise n : Q false n -> Q true (Datatypes.S n);
  guard_clear b n : Q b (Datatypes.S n) -> Q false n;
  guard_fail b n : Q b (Datatypes.S n) -> Q b n;
}.

Lemma same_charge (Q : bool -> nat -> Prop) b n n' : Q b n -> n = n' -> Q b n'.
Proof. by intros H <-. Qed.

Lemma sum_insert {A} (f : A -> nat) l i x y :
  l !! i = Some x -> (sum_list_with f (<[i := y]> l) + f x = sum_list_with f l + f y)%nat.
Proof.
  revert i. induction l as [|z l IH]; intros [|i] E; try done; [injection E as ->; cbn; lia|].
  specialize (IH i E). change (<[Datatypes.S i := y]> (z :: l)) with (z :: <[i := y]> l).
  cbn [sum_list_with]. lia.
Qed.

Lemma sum_delete {A} (f : A -> nat) l i x :
  l !! i = Some x -> (sum_list_with f (delete i l) + f x = sum_list_with f l)%nat.
Proof.
  revert i. induction l as [|z l IH]; intros [|i] E; try done; [injection E as ->; cbn; lia|].
  specialize (IH i E). change (delete (Datatypes.S i) (z :: l)) with (z :: delete i l).
  cbn [sum_list_with]. lia.
Qed.

(** A step of worker [i]. *)
Lemma set_worker_guarded Q i t t' s' (P : Pool S) :
  guards Q -> guarded Q P -> pool_workers P !! i = Some t ->
  (forall b, worker_charge t b -> exists b', worker_charge t' b' /\ charge_step b b' (pool_server P) s') ->
  guarded Q (set_worker i t' s' P).
Proof.
  intros HQ (bs & Hf & Hq) Hi Hstep. destruct (Forall2_lookup_l _ _ _ _ _ Hf Hi) as (b & Hb & Hwb).
  destruct (Hstep b Hwb) as (b' & Hwb' & Hc). exists (<[i := b']> bs). split; [by apply Forall2_insert|].
  pose proof (sum_insert Nat.b2n bs i b b' Hb) as Hs. unfold charge, charges, set_worker in *.
  cbn [pool_server compactions]. destruct b, b'; cbn in Hs, Hc.
  - destruct Hc as [-> ->]. eapply (same_charge Q); [exact Hq|]. lia.
  - destruct Hc as [-> ->]. eapply (same_charge Q); [exact Hq|]. lia.
  - destruct Hc as (E & -> & ->). rewrite E in Hq. apply (guard_raise _ HQ) in Hq. eapply (same_charge Q); [exact Hq|]. lia.
  - destruct Hc as [-> ->]. eapply (same_charge Q); [exact Hq|]. lia.
Qed.

Lemma next_guarded Q cfg i h t (P P' : Pool S) tr :
  guards Q -> guarded Q P -> pool_workers P !! i = Some (mkThread h (Some t)) ->
  next_step cfg i h t P = Some (P', tr) -> guarded Q P'.
Proof.
  intros HQ Hg Ei E. unfold next_step in E. destruct (t_run t) as [[cmd [[res| |]|f]]|] eqn:Er; try done.
  - injection E as <- <-. eapply set_worker_guarded; [done..|]. unfold worker_charge. cbn. rewrite Er.
    intros b Hb. exists false. split; [done|]. inversion Hb as [|? Hn|]; [done | by destruct (Hn res)].
  - destruct (f (pool_server P)) as [s' q] eqn:Ef. injection E as <- <-. eapply set_worker_guarded; [done..|].
    unfold worker_charge. cbn. rewrite Er. intros b Hb. inversion Hb as [| |? ? Hf]; subst.
    destruct (Hf (pool_server P)) as (b' & H1 & H2). rewrite Ef in *. by exists b'.
  - destruct (t_cmds t) as [|cmd cmds].
    + destruct (end_event t h) as [[h' sent] closed]. injection E as <- <-.
      eapply set_worker_guarded; [done..|]. unfold worker_charge. cbn. rewrite Er.
      intros b ->. exists false. by destruct closed.
    + injection E as <- <-. eapply set_worker_guarded; [done..|]. unfold worker_charge. cbn. rewrite Er.
      intros b ->. exists false. split; [|done]. apply (dispatch_closed (fun A p => in_charge false p)).
Qed.

Lemma compact_next_guarded Q j (P P' : Pool S) :
  guards Q -> guarded Q P -> compact_next_step j P = Some P' -> guarded Q P'.
Proof.
  intros HQ (bs & Hf & Hq) E. unfold compact_next_step in E. destruct (compactions P !! j) as [t|] eqn:Ej; [|done].
  destruct (thread_step t (pool_server P)) as [s' r] eqn:Et. injection E as <-.
  apply thread_charge_step in Et as (Hth & _ & Hc). exists bs. split; [done|]. unfold charge in *.
  cbn [pool_server compactions]. rewrite Hth. pose proof (sum_delete thread_charge _ _ _ Ej) as Hd.
  assert (Hsame : compacting (stats s') = compacting (stats (pool_server P)) ->
    Q (compacting (stats s')) (charges bs + threads (pool_server P) + sum_list_with thread_charge (delete j (compactions P)))%nat).
  { intros ->. destruct (thread_charge t) as [|[|n]] eqn:Ec; [| |by destruct t].
    - eapply (same_charge Q); [exact Hq|]. lia.
    - apply (guard_fail _ HQ). eapply (same_charge Q); [exact Hq|]. lia. }
  destruct r as [[t'|]| |]; [|by destruct Hc as [[? _]|(_ & _ & ?)]; [apply Hsame | done]..].
  pose proof (sum_insert thread_charge _ _ _ t' Ej) as Hi. destruct Hc as [[-> Hc]|(-> & H1 & H0)].
  - eapply (same_charge Q); [exact Hq|]. lia.
  - eapply (guard_clear _ HQ). eapply (same_charge Q); [exact Hq|]. lia.
Qed.

Lemma receive_guarded bs : forall (ws : list (WorkerThread S)) f,
  Forall2 worker_charge ws bs -> Forall2 worker_charge (imap (fun i => receive (f i)) ws) bs.
Proof.
  induction bs as [|b bs IH]; intros ws f Hf; inversion Hf; subst; rewrite ?imap_cons; constructor; [done|].
  by apply (IH _ (fun i => f (Datatypes.S i))).
Qed.

Lemma step_guarded Q cfg a (P P' : Pool S) tr :
  guards Q -> guarded Q P -> pool_step cfg a P = Some (P', tr) -> guarded Q P'.
Proof.
  intros HQ Hg E. unfold pool_step in E. destruct a as [ok now|i ok id|i now tid id|i token ev|i| |j|].
  - destruct (accept _ _ _ _ _) as [a'| |]; [|done|done]. injection E as <- <-. destruct Hg as (bs & Hf & Hq).
    exists bs. split; [by apply receive_guarded | done].
  - destruct (pool_workers P !! i) as [[h [t|]]|] eqn:Ei; [done| |done]. unfold on_wake in E.
    destruct (wake_loop _ _ _ _ _) as [[m n] s'] eqn:Ew. injection E as <- <-.
    apply wake_loop_run in Ew as [-> _]. eapply set_worker_guarded; [done..|]. intros b Hb. by exists b; destruct b.
  - destruct (pool_workers P !! i) as [[h [t|]]|] eqn:Ei; [done| |done].
    destruct (on_timer _ _ _ _) as [[h' s'] r] eqn:Et. injection E as <- <-.
    apply on_timer_run in Et as (-> & _ & _). eapply set_worker_guarded; [done..|]. intros b Hb. by exists b; destruct b.
  - destruct (pool_workers P !! i) as [[h [t|]]|] eqn:Ei; [done| |done].
    destruct (begin_event token ev h) as [t'|] eqn:Eb; [|done]. injection E as <- <-.
    eapply set_worker_guarded; [done..|]. intros b Hb. exists b. split; [|by destruct b]. cbn in Hb. subst b.
    unfold begin_event in Eb. destruct (conns h !! token) as [c|]; [|by injection Eb as <-].
    destruct (_ && _); [destruct (on_readable c (ev_reads ev)) as [c1 [[cmds action]| |]]|]; by simplify_eq.
  - destruct (pool_workers P !! i) as [[h [t|]]|] eqn:Ei; [|done|done]. by eapply next_guarded.
  - unfold compact_begin_step in E. destruct (threads (pool_server P)) as [|n] eqn:Et; [done|].
    injection E as <- <-. destruct Hg as (bs & Hf & Hq). exists bs. split; [done|]. unfold charge in *.
    cbn [pool_server compactions stats threads]. rewrite sum_list_with_app. cbn. eapply (same_charge Q); [exact Hq|]. lia.
  - destruct (compact_next_step j P) as [P1|] eqn:Ec; [|done]. injection E as <- <-. by eapply compact_next_guarded.
  - by injection E as <- <-.
Qed.

Lemma run_guarded Q cfg acts : forall (P P' : Pool S) tr,
  guards Q -> guarded Q P -> pool_run cfg acts P = Some (P', tr) -> guarded Q P'.
Proof.
  induction acts as [|a acts IH]; intros P P' tr HQ Hg E; [by injection E as <- <-|]. rewrite pool_run_cons in E.
  destruct (pool_step cfg a P) as [[P1 tr1]|] eqn:E1; [|done].
  destruct (pool_run cfg acts P1) as [[P2 tr2]|] eqn:E2; [|done]. injection E as <- <-.
  eapply IH; [done| |done]. by eapply step_guarded.
Qed.

(** No worker is inside a handler. *)
Definition workers_rest (P : Pool S) : Prop := Forall (fun t => task t = None) (pool_workers P).

Lemma rest_charges (P : Pool S) :
  workers_rest P -> exists bs, Forall2 worker_charge (pool_workers P) bs /\ charges bs = 0%nat.
Proof.
  unfold workers_rest. induction 1 as [|t ts Ht _ (bs & Hf & Hc)]; [by exists []|].
  exists (false :: bs). split; [|done]. constructor; [|done]. unfold worker_charge. by rewrite Ht.
Qed.

(** The threads that are inside [compact]. *)
Definition compacting_now (P : Pool S) : nat :=
  sum_list_with (fun t => match t with Compacting _ => 1 | _ => 0 end)%nat (compactions P).

Lemma compacting_charge (P : Pool S) : (compacting_now P <= sum_list_with thread_charge (compactions P))%nat.
Proof. unfold compacting_now. induction (compactions P) as [|[] l IH]; cbn; lia. Qed.

(** C32: At most one compaction at a time. Start from a server at rest whose flag
    is down, and let the acceptor, the workers, the compaction threads and the
    engine's own thread run in any order, with any commands, every command and
    every compaction interrupted wherever it releases a lock: at every moment
    at most one thread is inside the engine's [compact], counting those that
    are spawned and have not begun, and while the [compacting] flag is down
    there is none. *)
Theorem one_compaction_at_a_time cfg acts (P P' : Pool S) tr :
  workers_rest P -> compacting (stats (pool_server P)) = false -> threads (pool_server P) = 0%nat ->
  compactions P = [] -> pool_run cfg acts P = Some (P', tr) ->
  (compacting_now P' + threads (pool_server P') <= 1)%nat /\
  (compacting (stats (pool_server P')) = false -> compacting_now P' = 0%nat /\ threads (pool_server P') = 0%nat).
Proof.
  intros Hrest Hb Ht Hc E. destruct (rest_charges P Hrest) as (bs & Hf & Hbs).
  pose (Q := fun (b : bool) n => (n <= 1)%nat /\ (b = false -> n = 0%nat)).
  assert (HQ : guards Q).
  { split; intros; unfold Q in *; intuition; try lia. }
  destruct (run_guarded Q cfg acts P P' tr HQ) as (bs' & _ & H1 & H2); [|done|].
  { exists bs. split; [done|]. unfold Q, charge. rewrite Hbs, Ht, Hc. cbn. auto. }
  unfold charge in H1, H2. pose proof (compacting_charge P') as Hle. split; [lia|].
  intros Hd. specialize (H2 Hd). lia.
Qed.

(** A compaction that fails is the last. When the thread inside the engine's
    [compact] gets an error, [unwrap] panics with the flag up and nothing ever
    lowers it: whatever happens next, the flag stays up, so that every COMPACT
    is answered NOOP, and no compaction thread exists again. *)
Theorem failed_compaction_is_final cfg acts (P P' : Pool S) tr e :
  workers_rest P -> compacting (stats (pool_server P)) = true -> threads (pool_server P) = 0%nat ->
  compactions P = [Compacting (Halt (Err e))] -> pool_run cfg (CompactNext 0 :: acts) P = Some (P', tr) ->
  compacting (stats (pool_server P')) = true /\ threads (pool_server P') = 0%nat /\ compacting_now P' = 0%nat /\
  (dispatch cfg CCompact (pool_server P')).2 = Ok (encode_frame StNoop []).
Proof.
  intros Hrest Hb Ht Hc E. destruct (rest_charges P Hrest) as (bs & Hf & Hbs).
  rewrite pool_run_cons in E. cbn [pool_step] in E. unfold compact_next_step in E. rewrite Hc in E. cbn in E.
  set (P1 := mkPool _ _ _ _) in E. destruct (pool_run cfg acts P1) as [[P2 tr2]|] eqn:E2; [|done].
  injection E as -> <-. pose (Q := fun (b : bool) n => b = true /\ n = 0%nat).
  assert (HQ : guards Q) by (split; intros; unfold Q in *; intuition; done).
  destruct (run_guarded Q cfg acts P1 P' tr2 HQ) as (bs' & _ & H1 & H2); [|done|].
  { exists bs. split; [done|]. unfold Q, charge, P1. cbn. by rewrite Hbs, Ht. }
  unfold charge in H2. pose proof (compacting_charge P') as Hle. split_and!; [done | lia | lia|].
  cbn [dispatch]. unfold start_compaction, st_bind, st_gets. by rewrite H1.
Qed.
End Exclusive.

(** ** Examples *)

#[local] Existing Instances example_clock sorted_order ExServer.no_text ExServer.no_delay.

(** The settings of [rustikv /data -w 2 -mc 1]. *)
Definition limit_one : Settings spec_float :=
  mkSettings spec_float (bs "/data") (bs "0.0.0.0:6666") (bs "segment") (1048576 * 50) FsAlways EtKV
    f64_zero 0 SkSizeTiered 4 4 (10 * 1024 * 1024) 4 BcLz77 (Some 30) 1 (Some 2).

Definition limited : Running :=
  match server_start example_show (Ok (V4 0 6666)) (Ok 8) (fun _ => Ok tt) limit_one empty_world with
  | (_, Ok r) => r
  | _ => mkRunning ExServer.cfg [] (acceptor_new 0 0)
  end.

Definition fresh_server : Server KvState :=
  mkServer (state_or (opened (bs "db") 1000 FsNever)) stats_new 0.

Definition two_arrive : list pool_act :=
  [Arrive true 10; Arrive true 11; Wake 1 (fun _ => true) 5; Wake 0 (fun _ => true) 6].

(** The end of a run and what was seen of it. *)
Definition run_end (cfg : CompactionCfg) (acts : list pool_act) (P : Pool KvState) : Pool KvState :=
  match pool_run cfg acts P with Some (P', _) => P' | None => P end.
Definition run_seen (cfg : CompactionCfg) (acts : list pool_act) (P : Pool KvState) : list pool_obs :=
  match pool_run cfg acts P with Some (_, tr) => tr | None => [] end.

Lemma run_possible cfg acts (P : Pool KvState) :
  match pool_run cfg acts P with Some _ => true | None => false end = true ->
  pool_run cfg acts P = Some (run_end cfg acts P, run_seen cfg acts P).
Proof. unfold run_end, run_seen. by destruct (pool_run cfg acts P) as [[P' tr]|]. Qed.

Lemma two_arrive_run :
  pool_run (r_cfg limited) two_arrive (pool_of limited fresh_server)
  = Some (run_end (r_cfg limited) two_arrive (pool_of limited fresh_server),
          run_seen (r_cfg limited) two_arrive (pool_of limited fresh_server)).
Proof. apply run_possible. vm_compute. reflexivity. Qed.

(** The limit on connections can be passed. The acceptor reads a counter that
    only grows when a worker wakes: with a limit of one, two streams that
    arrive before the workers wake are both accepted, and two connections are
    open. *)
Theorem connection_limit_passed :
  exists P tr, pool_run (r_cfg limited) two_arrive (pool_of limited fresh_server) = Some (P, tr) /\
    max_connections (pool_acceptor P) = 1 /\ active_connections (stats (pool_server P)) = 2 /\
    map (fun t => size (conns (handler t))) (pool_workers P) = [1; 1]%nat.
Proof.
  eexists _, _. split; [exact two_arrive_run|]. split; [vm_compute; reflexivity|].
  split; vm_compute; reflexivity.
Qed.

Lemma pool_counts_connections_witness :
  exists P tr, pool_run (r_cfg limited) two_arrive (pool_of limited fresh_server) = Some (P, tr) /\
    active_connections (stats (pool_server P)) = total (pool_workers P).
Proof.
  eexists _, _. split; [exact two_arrive_run|].
  apply (pool_counts_connections example_show (Ok (V4 0 6666)) (Ok 8) (fun _ => Ok tt) limit_one empty_world
    (server_start example_show (Ok (V4 0 6666)) (Ok 8) (fun _ => Ok tt) limit_one empty_world).1
    limited (r_cfg limited) two_arrive fresh_server _ _ ltac:(vm_compute; reflexivity) eq_refl two_arrive_run).
Defined.

(** Two workers with a connection each: on the first a WRITE and a PING, on the
    second a READ of the key. The READ is called and copies the active segment
    before the WRITE appends its record, and looks the key up after it. *)
Definition two_workers : Pool KvState :=
  mkPool (acceptor_new 2 1000) [mkThread one_worker None; mkThread one_worker None] fresh_server [].

Definition ok_or (r : result bytes) : bytes := match r with Ok b => b | _ => [] end.
Definition write_frame : bytes := ok_or (encode_command (CWrite (bs "k") (bs "v") None)).
Definition read_frame : bytes := ok_or (encode_command (CRead (bs "k"))).
Definition compact_frame : bytes := ok_or (encode_command CCompact).

Definition arriving (b : bytes) : Event := mkEvent true [RdBytes 0 b] [WrBytes 3; WrWouldBlock] true.
Definition steps (i n : nat) : list pool_act := replicate n (Next i).

Definition interleaved : list pool_act :=
  [Begin 0 0 (arriving (write_frame ++ ping_frame)); Begin 1 0 (arriving (take 3 read_frame)); Next 1;
   Begin 1 0 (arriving (drop 3 read_frame))] ++
  steps 0 3 ++ steps 1 4 ++ steps 0 1 ++ [OwnStep] ++ steps 1 2 ++ steps 0 14 ++ steps 1 1.

Lemma interleaved_run :
  pool_run ExServer.cfg interleaved two_workers
  = Some (run_end ExServer.cfg interleaved two_workers, run_seen ExServer.cfg interleaved two_workers).
Proof. apply run_possible. vm_compute. reflexivity. Qed.

(** The handler of the second worker at the end. *)
Definition second_handler : WorkerHandler :=
  match pool_workers (run_end ExServer.cfg interleaved two_workers) !! 1%nat with
  | Some t => handler t
  | None => one_worker
  end.

Lemma pool_connection_isolated_witness :
  exists P' tr h' c', pool_run ExServer.cfg interleaved two_workers = Some (P', tr) /\
    pool_workers P' !! 1%nat = Some (mkThread h' None) /\ conns h' !! 0 = Some c' /\
    concat (map (ran (1%nat, 0)) tr) = [CRead (bs "k")] /\
    concat (map (sent_on (1%nat, 0)) tr) ++ pending c' = concat (map (answered (1%nat, 0)) tr).
Proof.
  assert (Hh : pool_workers (run_end ExServer.cfg interleaved two_workers) !! 1%nat
    = Some (mkThread second_handler None)) by (vm_compute; reflexivity).
  destruct (pool_connection_isolated ExServer.cfg interleaved two_workers _ _ 1%nat 0 one_worker 0 [CRead (bs "k")]
    read_frame [] second_handler interleaved_run eq_refl eq_refl) as (c' & H1 & _ & H3 & H4).
  - repeat constructor; intros; try done; vm_compute; repeat constructor; discriminate.
  - vm_compute. repeat constructor.
  - change read_frame with (read_frame ++ []).
    apply pipeline_cons; [repeat constructor; vm_compute; congruence | reflexivity | reflexivity | | constructor].
    vm_compute. congruence.
  - vm_compute. reflexivity.
  - vm_compute. reflexivity.
  - exact Hh.
  - eexists _, _, second_handler, c'. split; [exact interleaved_run|].
    split; [exact Hh|]. split; [exact H1|]. split; [exact H3 | exact H4].
Defined.

(** Both connections send COMPACT; the second is called while the thread the
    first started is compacting. *)
Definition compact_twice : list pool_act :=
  [Begin 0 0 (arriving compact_frame)] ++ steps 0 7 ++ [CompactBegin; CompactNext 0] ++
  [Begin 1 0 (arriving compact_frame)] ++ steps 1 4.

Lemma compact_twice_run :
  pool_run ExServer.cfg compact_twice two_workers
  = Some (run_end ExServer.cfg compact_twice two_workers, run_seen ExServer.cfg compact_twice two_workers).
Proof. apply run_possible. vm_compute. reflexivity. Qed.

Lemma one_compaction_at_a_time_witness :
  exists P' tr, pool_run ExServer.cfg compact_twice two_workers = Some (P', tr) /\
    (compacting_now P' + threads (pool_server P') <= 1)%nat /\ compacting_now P' = 1%nat /\
    concat (map (answered (1%nat, 0)) tr) = encode_frame StNoop [].
Proof.
  eexists _, _. split; [exact compact_twice_run|]. split.
  - apply (one_compaction_at_a_time ExServer.cfg compact_twice two_workers _ _
      ltac:(repeat constructor) eq_refl eq_refl eq_refl compact_twice_run).
  - split; vm_compute; reflexivity.
Defined.

#[local] Existing Instances ExTime.ns Ex.so.

(** The thread of an engine that has lost a table, inside its compaction. *)
Definition failing_pool : Pool (LsmState SizeTiered) :=
  let P := mkPool (acceptor_new 1 1000) [mkThread one_worker None]
             (mkServer ExServer.lost_engine (set_compacting true stats_new) 1) [] in
  match pool_run ExServer.cfg [CompactBegin; CompactNext 0; CompactNext 0] P with Some (P', _) => P' | None => P end.

Lemma failed_compaction_is_final_witness :
  exists P' tr, pool_run ExServer.cfg [CompactNext 0; Begin 0 0 (arriving ping_frame); Next 0] failing_pool
      = Some (P', tr) /\ compacting (stats (pool_server P')) = true /\ threads (pool_server P') = 0%nat.
Proof.
  assert (Hr : match pool_run ExServer.cfg [CompactNext 0; Begin 0 0 (arriving ping_frame); Next 0] failing_pool with
    Some _ => true | None => false end = true) by (vm_compute; reflexivity).
  destruct (pool_run ExServer.cfg [CompactNext 0; Begin 0 0 (arriving ping_frame); Next 0] failing_pool)
    as [[P' tr]|] eqn:Er; [|discriminate Hr].
  exists P', tr. split; [reflexivity|].
  destruct (failed_compaction_is_final ExServer.cfg [Begin 0 0 (arriving ping_frame); Next 0] failing_pool P' tr NotFound)
    as (H1 & H2 & _).
  - vm_compute. repeat constructor.
  - vm_compute. reflexivity.
  - vm_compute. reflexivity.
  - vm_compute. reflexivity.
  - exact Er.
  - split; [exact H1 | exact H2].
Defined.

Lemma steps_are_on_event_witness :
  let st := (one_worker, fresh_server) in
  let r := on_event ExServer.cfg 0 (arriving (write_frame ++ ping_frame)) st in
  exists sent n tr, r.2 = Ok sent /\
    pool_run ExServer.cfg (Begin 0 0 (arriving (write_frame ++ ping_frame)) :: replicate n (Next 0))
      two_workers = Some (set_worker 0 (mkThread r.1.1 None) r.1.2 two_workers, tr) /\
    concat (map (sent_on (0%nat, 0)) tr) = sent.
Proof.
  intros st r. assert (Hr : r.2 = Ok (take 3 (encode_frame StOk []))) by (vm_compute; reflexivity).
  assert (E : r = ((r.1.1, r.1.2), Ok (take 3 (encode_frame StOk [])))) by (rewrite <- Hr; by destruct r as [[h s] o]).
  destruct (steps_are_on_event ExServer.cfg 0 0 (arriving (write_frame ++ ping_frame)) one_worker
    (connection_new 0) _ _ _ two_workers eq_refl eq_refl E) as (n & tr & H1 & H2).
  eexists _, n, tr. split; [exact Hr|]. split; [exact H1 | exact H2].
Defined.
