(* ===== verification/PoolMap.v ===== *)
(** * The connections of the server and one map

    Over the hash engine and the runs of Pool.v in which no compaction thread
    takes a step: READ, WRITE with or without an expiry, EXISTS, TTL and LIST,
    however the threads are interleaved, are linearizable. Each takes effect on
    one map at one moment between its call and its answer. *)

From S2P Require Import Prelude Utf8 Text Utils Record Settings HashIndex World Engine KvEngine KvLog KvInv Spans KvOps KvSpec.
From S2P Require Import KvSpans KvLinear KvTheorems Bffp Float Stats Dispatch SpanDispatch Store Connection Worker.
From S2P Require Import Session Startup ServerTheorems Client Pool PoolTheorems.

(** ** The specification *)

Section Spec.
Context `{CK : Clock} `{ET : ErrorText}.

(** A command called at time [t0] that takes effect by time [hi] on the map
    [m]: its answer and the map it leaves. Times are numbers of clock
    readings. *)
Inductive takes_effect (t0 hi : nat) (m : kvmap) : Command -> bytes -> kvmap -> Prop :=
  | effect_write k v ttl i :
      fits k v = true -> (t0 <= i <= hi)%nat ->
      takes_effect t0 hi m (CWrite k v ttl) (encode_frame StOk []) (<[k := (v, ttl_to_ms (clock i) ttl)]> m)
  | effect_write_refused k v ttl :
      fits k v = false -> takes_effect t0 hi m (CWrite k v ttl) (error_frame InvalidInput) m
  | effect_read k i :
      (t0 <= i <= hi)%nat ->
      takes_effect t0 hi m (CRead k)
        (match spec_get m k (clock i) with
         | Some v => encode_frame StOk [v]
         | None => encode_frame StNotFound []
         end) m
  | effect_exists k i :
      (t0 <= i <= hi)%nat ->
      takes_effect t0 hi m (CExists k)
        (encode_frame (if bool_decide (is_Some (spec_get m k (clock i))) then StOk else StNotFound) []) m
  | effect_list ks i :
      (t0 <= i <= hi)%nat -> NoDup ks -> (forall k, k ∈ ks <-> is_Some (spec_get m k (clock i))) ->
      takes_effect t0 hi m CList (encode_frame StOk ks) m
  | effect_ttl k seconds v i j :
      (t0 <= i <= hi)%nat -> (t0 <= j <= hi)%nat -> spec_get m k (clock j) = Some v ->
      takes_effect t0 hi m (CTtl k seconds) (encode_frame StOk [])
        (<[k := (v, ttl_to_ms (clock i) (Some seconds))]> m)
  | effect_ttl_absent k seconds j :
      (t0 <= j <= hi)%nat -> spec_get m k (clock j) = None ->
      takes_effect t0 hi m (CTtl k seconds) (encode_frame StNotFound []) m
  | effect_ping : takes_effect t0 hi m CPing (encode_frame StOk [bs "PONG"]) m.

(** A command between its call and its answer. *)
Inductive Pending :=
  | Waiting (c : Command) (t0 : nat)
  | Done (c : Command) (res : bytes).

(** What is seen of a run, from time [now], the map [m] and the commands [ps]
    under way: every command takes effect once, after its call and before its
    answer, which it determines. *)
Inductive linearizes (now : nat) (m : kvmap) (ps : gmap ConnId Pending) : list pool_obs -> kvmap -> Prop :=
  | lin_end : linearizes now m ps [] m
  | lin_call k c t tr m' :
      ps !! k = None -> (now <= t)%nat -> linearizes t m (<[k := Waiting c t]> ps) tr m' ->
      linearizes now m ps (Called k c t :: tr) m'
  | lin_effect k c t0 res hi m1 tr m' :
      ps !! k = Some (Waiting c t0) -> (now <= hi)%nat -> takes_effect t0 hi m c res m1 ->
      linearizes hi m1 (<[k := Done c res]> ps) tr m' -> linearizes now m ps tr m'
  | lin_answer k c res t tr m' :
      ps !! k = Some (Done c res) -> (now <= t)%nat -> linearizes t m (delete k ps) tr m' ->
      linearizes now m ps (Ran k c res t :: tr) m'
  | lin_other o tr m' :
      match o with Called _ _ _ | Ran _ _ _ _ => False | _ => True end ->
      linearizes now m ps tr m' -> linearizes now m ps (o :: tr) m'.

Lemma linearizes_earlier now now' m ps tr m' :
  linearizes now' m ps tr m' -> (now <= now')%nat -> linearizes now m ps tr m'.
Proof.
  intros H. revert now. induction H; intros now0 Hle.
  - constructor.
  - econstructor; [done | lia | done].
  - eapply lin_effect; [done | | done | done]. lia.
  - econstructor; [done | lia | done].
  - apply lin_other; auto.
Qed.
End Spec.

(** The commands followed: strings are UTF-8, as their type says, and no other
    command changes the database. *)
Definition followed (c : Command) : Prop :=
  match c with
  | CWrite k v _ => utf8_valid k = true /\ utf8_valid v = true
  | CRead _ | CExists _ | CTtl _ _ | CList | CPing => True
  | _ => False
  end.

Definition followed_obs (o : pool_obs) : Prop := match o with Called _ c _ => followed c | _ => True end.

Definition no_compaction (a : pool_act) : Prop :=
  match a with CompactBegin | CompactNext _ => False | _ => True end.

(** ** The commands *)

Section Commands.
Context `{HO : HashOrder} `{CK : Clock} (N : nat) `{GC : !GoodClock N} (name : str) `{ET : ErrorText} `{SW : Stopwatch}.

#[local] Instance ticking_kv_server : Ticking (Server KvState) := fun s => ticks_of (database s).

Definition serves (s : Server KvState) (m : kvmap) : Prop := kv_at N name (database s) m.

(** *** The clock *)

#[local] Instance later_call {A} (p : Prog KvState A) : Steps later p -> Steps later (p_call p).
Proof. intros Hp. apply steps_try. by apply (steps_lift later). Qed.

Lemma later_same {A} (c : ST (Server KvState) A) :
  (forall s, database (c s).1 = database s) -> Steps later (atom c).
Proof. intros Hc. apply steps_atom. intros s. unfold later, ticks_of, ticking_kv_server. by rewrite Hc. Qed.

#[local] Instance later_upd_stats f : Steps later (atom (upd_stats (S := KvState) f)).
Proof. by apply later_same. Qed.
#[local] Instance later_gets {A} (f : Server KvState -> A) : Steps later (atom (st_gets f)).
Proof. by apply later_same. Qed.
#[local] Instance later_spawn : Steps later (atom (spawn (S := KvState))).
Proof. by apply later_same. Qed.
#[local] Instance later_exchange : Steps later (atom (compare_exchange (S := KvState))).
Proof. apply later_same. intros s. unfold compare_exchange. by case_match. Qed.
#[local] Instance later_elapsed : Steps later (atom (elapsed (S := KvState))).
Proof. apply later_same. intros s. by destruct s as [[]]. Qed.
#[local] Instance later_engine {A} (f : KVEngine -> A) : Steps later (atom (call (ask f))).
Proof. by apply later_same. Qed.
#[local] Instance later_now : Steps later (atom (server_now (S := KvState))).
Proof.
  apply steps_atom. intros s. unfold server_now, later, ticks_of, ticking_kv_server.
  pose proof (mono_on_world now_ms mono_now_ms (database s)) as Hm. unfold in_world, kv_world.
  by destruct (on_world now_ms (database s)).
Qed.
#[local] Instance later_blocked : Steps later (count_blocked_spans (S := KvState)).
Proof. unfold count_blocked_spans. apply steps_bind; [apply _|]. intros []; apply _. Qed.
#[local] Instance later_start : Steps later (start_spans (S := KvState)).
Proof. unfold start_spans. apply steps_bind; [apply _|]. intros []; apply _. Qed.
#[local] Instance later_should cfg : Steps later (should_spans (S := KvState) cfg).
Proof.
  unfold should_spans. apply steps_bind; [|intros []; [apply _|]].
  - destruct (f_gt _ _); [|apply _]. do 2 (apply steps_bind; [apply _|intros]). destruct (_ <? _); apply _.
  - destruct (_ <? _); apply _.
Qed.
#[local] Instance later_trigger cfg : Steps later (trigger_spans (S := KvState) cfg).
Proof. unfold trigger_spans. apply steps_bind; [apply _|]. intros []; apply _. Qed.
#[local] Instance later_after cfg n r : Steps later (after_write_spans (S := KvState) cfg n r).
Proof. unfold after_write_spans. do 2 (apply steps_bind; [apply _|intros]). destruct r; apply _. Qed.

Lemma later_followed cfg c : followed c -> Steps later (dispatch_spans cfg c).
Proof.
  intros Hc. destruct c; try done; cbn [dispatch_spans]; unfold dispatch_ttl_spans;
    repeat first [apply _ | apply steps_bind; [|intros] | case_match].
Qed.

(** *** Spans that leave the map alone *)

Lemma same_neutral {A} t (c : ST (Server KvState) A) (Q : nat -> A -> Prop) :
  (forall s, exists s' a, c s = (s', Ok a) /\ database s' = database s /\ Q (ticks_of s') a) ->
  neutral serves N Q t (atom c).
Proof.
  intros Hc. apply neutral_atom. intros s m Hs _ _. destruct (Hc s) as (s' & a & E & Hd & Hq).
  exists s', a. split; [done|]. split; [|done]. unfold serves. by rewrite Hd.
Qed.

Definition any {A} (_ : nat) (_ : A) : Prop := True.

Lemma stats_neutral t f : neutral serves N any t (atom (upd_stats f)).
Proof. apply same_neutral. intros s. by eexists _, _. Qed.

Lemma server_now_neutral t :
  neutral serves N (fun t' now => exists i, (t <= i <= t')%nat /\ now = clock i) t (atom server_now).
Proof.
  pose proof (neutral_lift _ N (T := Server KvState) database put_db ltac:(done) ltac:(done) _ _ _
    (now_neutral N name t)) as Hn.
  inversion Hn as [|? f Hf]; subst. constructor. intros s m Hs Hle HN. unfold serves in *.
  specialize (Hf s m Hs Hle). unfold server_now, in_world, kv_world, put_db in *. cbn in *.
  destruct (on_world now_ms (database s)) as [db r]. exact (Hf HN).
Qed.

Lemma engine_neutral {A} (f : KVEngine -> A) t :
  neutral serves N (fun _ r => exists a, r = Ok a) t (atom (call (ask f))).
Proof. apply same_neutral. intros s. eexists _, _. split; [reflexivity|]. eauto. Qed.

(** A span whose value does not matter, then the rest. *)
Ltac pass_by H := eapply neutral_bind; [apply _ | apply H | intros].

Lemma start_neutral t : neutral serves N any t start_spans.
Proof.
  unfold start_spans. eapply (neutral_bind _ _ any); [apply _ | |].
  - apply same_neutral. intros s. unfold compare_exchange. case_match; by eexists _, _.
  - intros t1 [] _ _; [|by constructor]. pass_by server_now_neutral. pass_by stats_neutral.
    eapply (neutral_bind _ _ any); [apply _ | |by constructor]. apply same_neutral. intros s. by eexists _, _.
Qed.

Lemma engine_value {A B} (f : KVEngine -> A) (k : A -> Prog (Server KvState) B) t :
  (forall a t', neutral serves N any t' (k a)) ->
  neutral serves N any t (let~ r := atom (call (ask f)) in let~ a := Halt r in k a).
Proof. intros Hk. pass_by (engine_neutral f). destruct H0 as [a' ->]. apply Hk. Qed.

Lemma should_neutral cfg t : neutral serves N any t (should_spans cfg).
Proof.
  unfold should_spans. eapply (neutral_bind _ _ any).
  - destruct (f_gt _ _); [|apply _]. do 2 (apply steps_bind; [apply _|intros]). destruct (_ <? _); apply _.
  - destruct (f_gt _ _); [|by constructor]. apply engine_value. intros a t1. destruct (_ <? _); [|by constructor].
    apply engine_value. intros d t2. apply engine_value. intros d' t3. by constructor.
  - intros t1 [] _ _; [by constructor|]. destruct (_ <? _); [|by constructor].
    apply engine_value. intros n t2. by constructor.
Qed.

Lemma trigger_neutral cfg t : neutral serves N any t (trigger_spans cfg).
Proof.
  unfold trigger_spans. pass_by should_neutral. destruct a; [|by constructor]. pass_by start_neutral. by constructor.
Qed.

Lemma blocked_neutral t : neutral serves N any t count_blocked_spans.
Proof.
  unfold count_blocked_spans. eapply (neutral_bind _ _ any); [apply _ | |].
  - apply same_neutral. intros s. by eexists _, _.
  - intros t1 [] _ _; [apply stats_neutral | by constructor].
Qed.

Lemma after_write_neutral cfg n (r : result unit) b t :
  match r with Ok _ => b = encode_frame StOk [] | Err e => b = error_frame e | Panic => False end ->
  neutral serves N (fun _ res => res = b) t (after_write_spans cfg n r).
Proof.
  intros Hr. unfold after_write_spans. eapply (neutral_bind _ _ any); [apply _ | |].
  - apply same_neutral. intros s. destruct s as [[] ? ?]. by eexists _, _.
  - intros t1 ms _ _. pass_by stats_neutral. destruct r; [|by constructor | done]. subst b.
    pass_by stats_neutral. pass_by trigger_neutral. by constructor.
Qed.

(** *** Operations *)

(** A call of the engine that does not fail, and the making of the answer. *)
Lemma call_performs {A} (R0 : nat -> kvmap -> A -> kvmap -> Prop) (R : nat -> kvmap -> bytes -> kvmap -> Prop)
    (g : A -> bytes) t (p : Prog KvState A) (k : result A -> Prog (Server KvState) bytes) :
  performs (kv_at N name) N R0 t p -> Steps later p -> (forall r, Steps later (k r)) ->
  (forall hi m a m', R0 hi m a m' -> R hi m (g a) m') ->
  (forall t' a, neutral serves N (fun _ b => b = g a) t' (k (Ok a))) ->
  performs serves N R t (p_bind (p_call p) k).
Proof.
  intros Hp Hm Hk HR Hn. eapply performs_try_bind; [by apply (steps_lift later) | done | | exact HR | by intros].
  by apply (performs_lift _ N (T := Server KvState) database put_db).
Qed.

Lemma ttl_expiry_ok now ttl : expiry_ok (ttl_to_ms now ttl).
Proof.
  destruct ttl as [x|]; [|done]. cbn. destruct (x =? 0); [done|]. apply Z.mod_pos_bound. lia.
Qed.

(** What a command does to the map. *)
Definition effect_of (c : Command) (t hi : nat) (m : kvmap) (res : bytes) (m' : kvmap) : Prop :=
  takes_effect t hi m c res m'.

Lemma write_performs cfg k v ttl t :
  utf8_valid k = true -> utf8_valid v = true ->
  performs serves N (effect_of (CWrite k v ttl) t) t (dispatch_spans cfg (CWrite k v ttl)).
Proof.
  intros Hk Hv. cbn [dispatch_spans]. eapply performs_bind_neutral; [apply _ | apply blocked_neutral|].
  intros t1 _ Ht1 _. eapply performs_bind_neutral; [apply _ | apply server_now_neutral|].
  intros t2 now Ht2 (i & Hi & ->).
  assert (Ha : arg_ok k v (ttl_to_ms (clock i) ttl)) by (split_and!; [done | done | apply ttl_expiry_ok]).
  destruct (fits k v) eqn:Ef.
  - eapply (call_performs _ _ (fun _ => encode_frame StOk [])); [by apply set_performs, fits_kv_ok | apply _ | apply _ | |].
    + intros hi m a m' (Hhi & _ & ->). constructor; [done | lia].
    + intros t' a. by apply after_write_neutral.
  - assert (E : p_set_with_ttl k v (ttl_to_ms (clock i) ttl) = Halt (Err InvalidInput)).
    { cbn. unfold set_spans, fits in *. apply negb_false_iff in Ef. by rewrite Ef. }
    rewrite E. cbn [p_call p_lift p_try p_bind]. apply (neutral_performs _ _ _ _ _ (error_frame InvalidInput));
      [apply _ | by apply after_write_neutral|]. intros. by constructor.
Qed.

Lemma read_performs cfg k t : performs serves N (effect_of (CRead k) t) t (dispatch_spans cfg (CRead k)).
Proof.
  cbn [dispatch_spans]. eapply performs_bind_neutral; [apply _ | apply stats_neutral|]. intros t1 _ Ht1 _.
  eapply (call_performs _ _ (fun r => match r with Some (_, v) => encode_frame StOk [v] | None => encode_frame StNotFound [] end));
    [by apply get_performs | apply _ | | |].
  - intros [[[]|]| |]; apply _.
  - intros hi m a m' (-> & i & Hi & ->). pose proof (effect_read t hi m k i ltac:(lia)) as He. unfold effect_of.
    by destruct (spec_get m k (clock i)).
  - intros t' [[k' v]|]; by constructor.
Qed.

Lemma exists_request_performs cfg k t : performs serves N (effect_of (CExists k) t) t (dispatch_spans cfg (CExists k)).
Proof.
  cbn [dispatch_spans].
  eapply (call_performs _ _ (fun b : bool => encode_frame (if b then StOk else StNotFound) []));
    [by apply exists_performs | apply _ | | |].
  - intros []; apply _.
  - intros hi m a m' (-> & i & Hi & ->). by constructor.
  - intros t' a. by constructor.
Qed.

Lemma list_request_performs cfg t : performs serves N (effect_of CList t) t (dispatch_spans cfg CList).
Proof.
  cbn [dispatch_spans].
  eapply (call_performs _ _ (fun ks => encode_frame StOk ks)); [by apply list_performs | apply _ | | |].
  - intros []; apply _.
  - intros hi m a m' (-> & i & Hi & Hnd & Hks). by econstructor.
  - intros t' a. by constructor.
Qed.

Lemma ttl_call_performs k seconds e i t1 t :
  (t <= i <= t1)%nat -> e = ttl_to_ms (clock i) (Some seconds) ->
  performs serves N (effect_of (CTtl k seconds) t) t1
    (let~ r := p_call (p_ttl k e) in
     match r with
     | Ok TtlSet | Ok TtlPersisted => p_ret (encode_frame StOk [])
     | Ok TtlNotFound => p_ret (encode_frame StNotFound [])
     | Err e => p_ret (error_frame e)
     | Panic => Halt Panic
     end).
Proof.
  intros Hi ->. assert (He : expiry_ok (ttl_to_ms (clock i) (Some seconds))) by apply ttl_expiry_ok.
  eapply (call_performs _ _ (fun o => match o with TtlNotFound => encode_frame StNotFound [] | _ => encode_frame StOk [] end));
    [by apply ttl_performs | apply _ | | |].
  - intros [[]| |]; apply _.
  - intros hi m a m' (j & Hj & Ha). unfold effect_of. destruct (spec_get m k (clock j)) as [v|] eqn:Eg; destruct Ha as [-> ->].
    + pose proof (effect_ttl t hi m k seconds v i j ltac:(lia) ltac:(lia) Eg) as H. by destruct (ttl_to_ms (clock i) (Some seconds)).
    + apply (effect_ttl_absent _ _ _ _ _ j); [lia | done].
  - intros t' []; by constructor.
Qed.

Lemma ttl_request_performs cfg k seconds t :
  performs serves N (effect_of (CTtl k seconds) t) t (dispatch_spans cfg (CTtl k seconds)).
Proof.
  cbn [dispatch_spans]. unfold dispatch_ttl_spans. destruct (seconds =? 0) eqn:E0.
  - cbn [p_bind p_ret]. apply (ttl_call_performs k seconds None t); [lia|]. cbn. by rewrite E0.
  - eapply (performs_bind_neutral _ _ (fun t' e => exists i, (t <= i <= t')%nat /\ e = ttl_to_ms (clock i) (Some seconds)));
      [apply _ | |].
    + pass_by server_now_neutral. destruct H0 as (i & Hi & ->). constructor. exists i. split; [done|]. cbn. by rewrite E0.
    + intros t1 e Ht1 (i & Hi & He). by apply (ttl_call_performs k seconds e i).
Qed.

Lemma followed_performs cfg c t : followed c -> performs serves N (effect_of c t) t (dispatch_spans cfg c).
Proof.
  destruct c; intros Hc; try done.
  - apply read_performs.
  - destruct Hc. by apply write_performs.
  - apply list_request_performs.
  - apply exists_request_performs.
  - apply performs_halt. intros. constructor.
  - apply ttl_request_performs.
Qed.

(** ** The runs *)

(** *** The clock only moves forward *)

Definition worker_later (w : WorkerThread KvState) : Prop :=
  match task w with
  | Some k => match t_run k with Some (_, p) => Steps later p | None => True end
  | None => True
  end.

Definition pool_later (P : Pool KvState) : Prop := Forall worker_later (pool_workers P).
Definition pool_ticks (P : Pool KvState) : nat := ticks_of (database (pool_server P)).

Lemma periodic_later s : (ticks_of s <= ticks_of (periodic_sync s).1)%nat.
Proof.
  unfold periodic_sync. destruct (fsync_handle (eng s)) as [[d path]|]; [|done].
  destruct (disk (world s) !! path); [|done]. apply (mono_on_world _ (mono_sync_file path)).
Qed.

Lemma begin_task {S} token ev h (w : WorkerThread S) :
  begin_event token ev h = Some w -> match task w with Some k => t_run k = None | None => True end.
Proof.
  unfold begin_event. intros E. destruct (conns h !! token) as [c|]; [|by injection E as <-].
  destruct (_ && _); [destruct (on_readable c (ev_reads ev)) as [c1 [[cmds action]| |]]|]; by simplify_eq.
Qed.

Lemma set_later i w s' (P : Pool KvState) :
  pool_later P -> worker_later w -> (pool_ticks P <= ticks_of (database s'))%nat ->
  pool_later (set_worker i w s' P) /\ (pool_ticks P <= pool_ticks (set_worker i w s' P))%nat.
Proof. intros Hp Hw Ht. split; [by apply Forall_insert | exact Ht]. Qed.

Lemma next_later cfg i h t (P P' : Pool KvState) tr :
  pool_later P -> pool_workers P !! i = Some (mkThread h (Some t)) ->
  next_step cfg i h t P = Some (P', tr) -> Forall followed_obs tr ->
  pool_later P' /\ (pool_ticks P <= pool_ticks P')%nat.
Proof.
  intros Hp Ei E Hf. pose proof (proj1 (Forall_lookup _ _) Hp _ _ Ei) as Hw. unfold worker_later in Hw. cbn in Hw.
  unfold next_step in E. destruct (t_run t) as [[cmd [[res| |]|f]]|]; try done.
  - injection E as <- <-. by apply set_later.
  - inversion Hw as [|? H1 H2]; subst. specialize (H1 (pool_server P)). specialize (H2 (pool_server P)).
    destruct (f (pool_server P)) as [s' q]. injection E as <- <-. by apply set_later.
  - destruct (t_cmds t) as [|cmd cmds].
    + destruct (end_event t h) as [[h' sent] closed]. injection E as <- <-. apply set_later; [done | done|].
      by destruct closed.
    + injection E as <- <-. apply Forall_cons in Hf as [Hc _]. apply set_later; [done | by apply later_followed | done].
Qed.

Lemma step_later cfg a (P P' : Pool KvState) tr :
  pool_later P -> no_compaction a -> pool_step cfg a P = Some (P', tr) -> Forall followed_obs tr ->
  pool_later P' /\ (pool_ticks P <= pool_ticks P')%nat.
Proof.
  intros Hp Ha E Hf. unfold pool_step in E. destruct a as [ok now|i ok id|i now tid id|i token ev|i| |j|]; try done.
  - destruct (accept _ _ _ _ _) as [a'| |]; [|done|done]. injection E as <- <-. split; [|done].
    apply Forall_lookup. intros i w. cbn. rewrite list_lookup_imap. intros (w0 & Hw0 & ->)%fmap_Some.
    exact (proj1 (Forall_lookup _ _) Hp _ _ Hw0).
  - destruct (pool_workers P !! i) as [[h [t|]]|]; [done| |done]. unfold on_wake in E.
    destruct (wake_loop _ _ _ _ _) as [[m n] s'] eqn:Ew. injection E as <- <-.
    apply wake_loop_run in Ew as [-> _]. by apply set_later.
  - destruct (pool_workers P !! i) as [[h [t|]]|]; [done| |done].
    destruct (on_timer _ _ _ _) as [[h' s'] r] eqn:Et. injection E as <- <-.
    apply on_timer_run in Et as (-> & _ & _). by apply set_later.
  - destruct (pool_workers P !! i) as [[h [t|]]|]; [done| |done].
    destruct (begin_event token ev h) as [t'|] eqn:Eb; [|done]. injection E as <- <-.
    apply set_later; [done | | done]. apply begin_task in Eb. unfold worker_later. by destruct (task t') as [k|]; [rewrite Eb|].
  - destruct (pool_workers P !! i) as [[h [t|]]|] eqn:Ei; [|done|done]. by eapply next_later.
  - injection E as <- <-. split; [done|]. apply periodic_later.
Qed.

Lemma run_later cfg acts : forall (P P' : Pool KvState) tr,
  pool_later P -> Forall no_compaction acts -> pool_run cfg acts P = Some (P', tr) -> Forall followed_obs tr ->
  (pool_ticks P <= pool_ticks P')%nat.
Proof.
  induction acts as [|a acts IH]; intros P P' tr Hp Hn E Hf; [by injection E as <- <-|]. rewrite pool_run_cons in E.
  destruct (pool_step cfg a P) as [[P1 tr1]|] eqn:E1; [|done].
  destruct (pool_run cfg acts P1) as [[P2 tr2]|] eqn:E2; [|done]. injection E as <- <-.
  apply Forall_cons in Hn as [Ha Hn]. apply Forall_app in Hf as [Hf1 Hf2].
  destruct (step_later _ _ _ _ _ Hp Ha E1 Hf1) as [Hp1 Ht]. etrans; [exact Ht|]. by eapply IH.
Qed.

(** *** The commands under way *)

(** What is left of a command agrees with where it is. *)
Definition pend_ok (now : nat) (c : Command) (p : Prog (Server KvState) bytes) (x : Pending) : Prop :=
  match x with
  | Waiting c' t0 => c' = c /\ exists t, (t <= now)%nat /\ performs serves N (effect_of c t0) t p
  | Done c' res => c' = c /\ exists t, (t <= now)%nat /\ neutral serves N (fun _ b => b = res) t p
  end.

Definition worker_lin (now : nat) (ps : gmap ConnId Pending) (i : nat) (w : WorkerThread KvState) : Prop :=
  match task w with
  | Some k =>
      match t_run k with
      | Some (c, p) =>
          (exists x, ps !! (i, t_token k) = Some x /\ pend_ok now c p x) /\
          forall token, token <> t_token k -> ps !! (i, token) = None
      | None => forall token, ps !! (i, token) = None
      end
  | None => forall token, ps !! (i, token) = None
  end.

Record pool_lin (P : Pool KvState) (m : kvmap) (ps : gmap ConnId Pending) : Prop := {
  pl_serves : serves (pool_server P) m;
  pl_workers i w : pool_workers P !! i = Some w -> worker_lin (pool_ticks P) ps i w;
}.

Lemma worker_lin_later now now' ps i w : worker_lin now ps i w -> (now <= now')%nat -> worker_lin now' ps i w.
Proof.
  unfold worker_lin. intros Hw Hle. destruct (task w) as [k|]; [|done]. destruct (t_run k) as [[c p]|]; [|done].
  destruct Hw as [(x & Hx & Hp) Ho]. split; [|done]. exists x. split; [done|].
  destruct x as [c' t0|c' res]; destruct Hp as (-> & t & Ht & Hp); (split; [done|]); exists t; (split; [lia | done]).
Qed.

Lemma worker_lin_other now ps ps' i w :
  worker_lin now ps i w -> (forall token, ps' !! (i, token) = ps !! (i, token)) -> worker_lin now ps' i w.
Proof.
  unfold worker_lin. intros Hw Hps. destruct (task w) as [k|]; [|intros; by rewrite Hps].
  destruct (t_run k) as [[c p]|]; [|intros; by rewrite Hps]. rewrite Hps. destruct Hw as [Hx Ho].
  split; [done|]. intros. rewrite Hps. by apply Ho.
Qed.

(** A step of worker [i]. *)
Lemma set_lin i w s' m m' ps ps' (P : Pool KvState) :
  pool_lin P m ps -> serves s' m' -> (pool_ticks P <= ticks_of (database s'))%nat ->
  (forall k, k.1 <> i -> ps' !! k = ps !! k) -> worker_lin (ticks_of (database s')) ps' i w ->
  pool_lin (set_worker i w s' P) m' ps'.
Proof.
  intros [Hs Hw] Hs' Ht Hps Hi. split; [done|]. intros j w' Hj. cbn in Hj.
  apply list_lookup_insert_Some in Hj as [(<- & <- & _)|[Hne Hj]]; [done|].
  eapply worker_lin_other; [eapply worker_lin_later; [by apply Hw | exact Ht]|]. intros token. by apply Hps.
Qed.

(** Where the rest of the trace leads from the state after a step, the whole
    trace leads from the state before it. *)
Definition leads (P : Pool KvState) (m : kvmap) (ps : gmap ConnId Pending) (tr : list pool_obs) (P' : Pool KvState)
    : Prop :=
  exists m1 ps1, pool_lin P' m1 ps1 /\
    forall tr2 m2, linearizes (pool_ticks P') m1 ps1 tr2 m2 -> linearizes (pool_ticks P) m ps (tr ++ tr2) m2.

(** Nothing that concerns the map. *)
Lemma leads_plain i w s' m ps tr (P : Pool KvState) :
  pool_lin P m ps -> serves s' m -> (pool_ticks P <= ticks_of (database s'))%nat ->
  worker_lin (ticks_of (database s')) ps i w ->
  Forall (fun o => match o with Called _ _ _ | Ran _ _ _ _ => False | _ => True end) tr ->
  leads P m ps tr (set_worker i w s' P).
Proof.
  intros Hp Hs Ht Hw Htr. exists m, ps. split; [by apply (set_lin i w s' m m ps ps)|].
  intros tr2 m2 Hl. apply (linearizes_earlier _ _ _ _ _ _ Hl) in Ht. clear Hl.
  induction Htr; [done|]. by apply lin_other.
Qed.

(** A span of a command under way. *)
Lemma span_lin i h t cmd f m ps (P : Pool KvState) :
  pool_lin P m ps -> pool_workers P !! i = Some (mkThread h (Some t)) -> t_run t = Some (cmd, Span f) ->
  let s' := (f (pool_server P)).1 in
  (pool_ticks P <= ticks_of (database s'))%nat -> (ticks_of (database s') <= N)%nat ->
  leads P m ps [] (set_worker i (mkThread h (Some (with_run t cmd (f (pool_server P)).2 (t_cmds t)))) s' P).
Proof.
  intros Hp Ei Er s' Ht HN. pose proof (pl_workers _ _ _ Hp _ _ Ei) as Hw. unfold worker_lin in Hw. cbn in Hw.
  rewrite Er in Hw. destruct Hw as [(x & Hx & Hok) Ho]. pose proof (pl_serves _ _ _ Hp) as Hs.
  assert (Hsame : forall m', serves s' m' -> pend_ok (ticks_of (database s')) cmd (f (pool_server P)).2 x ->
    m' = m -> leads P m ps [] (set_worker i (mkThread h (Some (with_run t cmd (f (pool_server P)).2 (t_cmds t)))) s' P)).
  { intros m' Hs' Hx' ->. apply leads_plain; try done. split; [|done]. by exists x. }
  destruct x as [c t0|c res]; destruct Hok as (-> & t1 & Ht1 & Hf).
  - inversion Hf as [|? ? Hf']; subst. destruct (Hf' _ m Hs Ht1 HN) as [[H1 H2]|(res & m' & Hr & H1 & H2)].
    + apply (Hsame m); [done | | done]. split; [done|]. by exists (ticks_of s').
    + exists m', (<[(i, t_token t) := Done cmd res]> ps). split.
      * apply (set_lin i _ s' m m' ps); try done.
        { intros k Hk. apply lookup_insert_ne. by intros <-. }
        split; [|intros token Hne; cbn in Hne; rewrite lookup_insert_ne by congruence; by apply Ho].
        exists (Done cmd res). split; [apply lookup_insert_eq|]. split; [done|]. by exists (ticks_of s').
      * intros tr2 m2 Hl. eapply lin_effect; [exact Hx | exact Ht | exact Hr | exact Hl].
  - inversion Hf as [|? ? Hf']; subst. destruct (Hf' _ m Hs Ht1 HN) as [H1 H2].
    apply (Hsame m); [done | | done]. split; [done|]. by exists (ticks_of s').
Qed.

(** The answer of a command. *)
Lemma answer_lin i h t cmd res m ps (P : Pool KvState) c' :
  pool_lin P m ps -> pool_workers P !! i = Some (mkThread h (Some t)) -> t_run t = Some (cmd, Halt (Ok res)) ->
  leads P m ps [Ran (i, t_token t) cmd res (pool_ticks P)]
    (set_worker i (mkThread h (Some (with_task_conn t c'))) (pool_server P) P).
Proof.
  intros Hp Ei Er. pose proof (pl_workers _ _ _ Hp _ _ Ei) as Hw. unfold worker_lin in Hw. cbn in Hw.
  rewrite Er in Hw. destruct Hw as [(x & Hx & Hok) Ho]. pose proof (pl_serves _ _ _ Hp) as Hs.
  exists m, (delete (i, t_token t) ps). split.
  - apply (set_lin i _ _ m m ps); try done; [intros k Hk; apply lookup_delete_ne; by intros <-|].
    intros token. cbn. destruct (decide (token = t_token t)) as [->|Hne]; [apply lookup_delete_eq|].
    rewrite lookup_delete_ne by congruence. by apply Ho.
  - intros tr2 m2 Hl. destruct x as [c t0|c r]; destruct Hok as (-> & t1 & Ht1 & Hf); inversion Hf as [? ? Ha|]; subst.
    + eapply lin_effect; [exact Hx | done | by apply Ha|]. eapply lin_answer; [apply lookup_insert_eq | done|].
      by rewrite delete_insert_eq.
    + by eapply lin_answer.
Qed.

(** The call of a command. *)
Lemma call_lin cfg i h t cmd cmds m ps (P : Pool KvState) :
  pool_lin P m ps -> pool_workers P !! i = Some (mkThread h (Some t)) -> t_run t = None -> followed cmd ->
  leads P m ps [Called (i, t_token t) cmd (pool_ticks P)]
    (set_worker i (mkThread h (Some (with_run t cmd (dispatch_spans cfg cmd) cmds))) (pool_server P) P).
Proof.
  intros Hp Ei Er Hc. pose proof (pl_workers _ _ _ Hp _ _ Ei) as Hw. unfold worker_lin in Hw. cbn in Hw.
  rewrite Er in Hw. pose proof (pl_serves _ _ _ Hp) as Hs.
  exists m, (<[(i, t_token t) := Waiting cmd (pool_ticks P)]> ps). split.
  - apply (set_lin i _ _ m m ps); try done; [intros k Hk; apply lookup_insert_ne; by intros <-|].
    split; [|intros token Hne; cbn in Hne; rewrite lookup_insert_ne by congruence; apply Hw].
    exists (Waiting cmd (pool_ticks P)). split; [apply lookup_insert_eq|]. split; [done|].
    exists (pool_ticks P). split; [done | by apply followed_performs].
  - intros tr2 m2 Hl. by apply lin_call.
Qed.

Lemma next_lin cfg i h t m ps (P P' : Pool KvState) tr :
  pool_lin P m ps -> pool_workers P !! i = Some (mkThread h (Some t)) ->
  next_step cfg i h t P = Some (P', tr) -> Forall followed_obs tr ->
  (pool_ticks P <= pool_ticks P')%nat -> (pool_ticks P' <= N)%nat -> leads P m ps tr P'.
Proof.
  intros Hp Ei E Hf Ht HN. unfold next_step in E. destruct (t_run t) as [[cmd [[res| |]|f]]|] eqn:Er; try done.
  - injection E as <- <-. by eapply answer_lin.
  - pose proof (span_lin i h t cmd f m ps P Hp Ei Er) as Hl. destruct (f (pool_server P)) as [s' q].
    injection E as <- <-. by apply Hl.
  - destruct (t_cmds t) as [|cmd cmds].
    + pose proof (pl_workers _ _ _ Hp _ _ Ei) as Hw. unfold worker_lin in Hw. cbn in Hw. rewrite Er in Hw.
      destruct (end_event t h) as [[h' sent] closed]. injection E as <- <-. apply leads_plain; try done.
      * by destruct closed; apply (pl_serves _ _ _ Hp).
      * by repeat constructor.
    + injection E as <- <-. apply Forall_cons in Hf as [Hc _]. by eapply call_lin.
Qed.

Lemma step_lin cfg a m ps (P P' : Pool KvState) tr :
  pool_lin P m ps -> no_compaction a -> pool_step cfg a P = Some (P', tr) -> Forall followed_obs tr ->
  (pool_ticks P <= pool_ticks P')%nat -> (pool_ticks P' <= N)%nat -> leads P m ps tr P'.
Proof.
  intros Hp Ha E Hf Ht HN. pose proof (pl_serves _ _ _ Hp) as Hs.
  unfold pool_step in E. destruct a as [ok now|i ok id|i now tid id|i token ev|i| |j|]; try done.
  - destruct (accept _ _ _ _ _) as [a'| |]; [|done|done]. injection E as <- <-. exists m, ps. split; [|done].
    split; [done|]. intros i w. cbn. rewrite list_lookup_imap. intros (w0 & Hw0 & ->)%fmap_Some.
    exact (pl_workers _ _ _ Hp _ _ Hw0).
  - destruct (pool_workers P !! i) as [[h [t|]]|] eqn:Ei; [done| |done]. unfold on_wake in E.
    pose proof (pl_workers _ _ _ Hp _ _ Ei) as Hw.
    destruct (wake_loop _ _ _ _ _) as [[c n] s'] eqn:Ew. injection E as <- <-.
    apply wake_loop_run in Ew as [-> _]. apply leads_plain; try done. by repeat constructor.
  - destruct (pool_workers P !! i) as [[h [t|]]|] eqn:Ei; [done| |done].
    pose proof (pl_workers _ _ _ Hp _ _ Ei) as Hw.
    destruct (on_timer _ _ _ _) as [[h' s'] r] eqn:Et. injection E as <- <-.
    apply on_timer_run in Et as (-> & _ & _). apply leads_plain; try done. by repeat constructor.
  - destruct (pool_workers P !! i) as [[h [t|]]|] eqn:Ei; [done| |done].
    pose proof (pl_workers _ _ _ Hp _ _ Ei) as Hw. cbn in Hw.
    destruct (begin_event token ev h) as [t'|] eqn:Eb; [|done]. injection E as <- <-.
    apply leads_plain; try done. apply begin_task in Eb. unfold worker_lin. by destruct (task t') as [k|]; [rewrite Eb|].
  - destruct (pool_workers P !! i) as [[h [t|]]|] eqn:Ei; [|done|done]. by eapply next_lin.
  - injection E as <- <-. destruct (periodic_sync_at N name _ _ Hs) as [Hs' Hsame].
    exists m, ps. split; [|intros tr2 m2 Hl; by apply (linearizes_earlier _ _ _ _ _ _ Hl)].
    split; [done|]. intros i w Hi. eapply worker_lin_later; [by apply (pl_workers _ _ _ Hp) | done].
Qed.

Lemma run_lin cfg acts : forall m ps (P P' : Pool KvState) tr,
  pool_lin P m ps -> pool_later P -> Forall no_compaction acts -> pool_run cfg acts P = Some (P', tr) ->
  Forall followed_obs tr -> (pool_ticks P' <= N)%nat ->
  exists m', linearizes (pool_ticks P) m ps tr m' /\ serves (pool_server P') m'.
Proof.
  induction acts as [|a acts IH]; intros m ps P P' tr Hp Hl Hn E Hf HN.
  { injection E as <- <-. exists m. split; [constructor | apply Hp]. }
  rewrite pool_run_cons in E. destruct (pool_step cfg a P) as [[P1 tr1]|] eqn:E1; [|done].
  destruct (pool_run cfg acts P1) as [[P2 tr2]|] eqn:E2; [|done]. injection E as <- <-.
  apply Forall_cons in Hn as [Ha Hn]. apply Forall_app in Hf as [Hf1 Hf2].
  destruct (step_later _ _ _ _ _ Hl Ha E1 Hf1) as [Hl1 Ht1]. pose proof (run_later _ _ _ _ _ Hl1 Hn E2 Hf2) as Ht2.
  destruct (step_lin cfg a m ps P P1 tr1 Hp Ha E1 Hf1 Ht1 ltac:(lia)) as (m1 & ps1 & Hp1 & Hlead).
  destruct (IH m1 ps1 P1 P2 tr2 Hp1 Hl1 Hn E2 Hf2 HN) as (m' & Hm' & Hs'). exists m'. split; [by apply Hlead | done].
Qed.
End Commands.

(** C7: The server over the hash engine is linearizable, span by span, for READ,
    WRITE with or without an expiry, EXISTS, TTL, LIST and PING. Let the
    acceptor, the workers and the engine's own thread run in any order, every
    command interrupted wherever it releases a lock, and let no compaction
    thread take a step and no command but these six be called. Then every
    command takes effect on one map at one moment between its call and its
    answer, which is the one the map gives at that moment; times to live are
    measured by clock readings made between the call and that moment; a WRITE
    over the size limits is refused and changes nothing. The map begins as what
    the engine holds, and at the end the engine holds what is left in it. *)
Theorem hash_server_linearizable `{HO : HashOrder} `{CK : Clock} (N : nat) `{GC : !GoodClock N} `{ET : ErrorText}
    `{SW : Stopwatch} cfg acts (P P' : Pool KvState) tr m :
  pool_run cfg acts P = Some (P', tr) -> workers_rest P -> Forall no_compaction acts -> Forall followed_obs tr ->
  kv_good N (database (pool_server P)) m -> (ticks_of (database (pool_server P')) <= N)%nat ->
  exists m', linearizes (ticks_of (database (pool_server P))) m ∅ tr m' /\
    kv_good N (database (pool_server P')) m'.
Proof.
  intros E Hrest Hn Hf Hg HN. set (name := db_name (eng (database (pool_server P)))).
  destruct (run_lin N name cfg acts m ∅ P P' tr) as (m' & Hl & [Hg' _]); try done.
  - split; [by split|]. intros i w Hi. pose proof (proj1 (Forall_lookup _ _) Hrest _ _ Hi) as Ht. cbn in Ht.
    unfold worker_lin. by rewrite Ht.
  - eapply Forall_impl; [exact Hrest|]. intros w Hw. unfold worker_later. cbn in Hw. by rewrite Hw.
  - by exists m'.
Qed.

#[local] Existing Instances example_clock sorted_order ExServer.no_text ExServer.no_delay.

Lemma hash_server_linearizable_witness :
  exists P' tr m', pool_run ExServer.cfg interleaved two_workers = Some (P', tr) /\
    linearizes (ticks_of (database fresh_server)) ∅ ∅ tr m' /\
    concat (map (answered (1%nat, 0)) tr) = encode_frame StOk [bs "v"].
Proof.
  pose proof (example_clock_good 100 ltac:(lia)) as GC.
  destruct (fresh_engine 100 (bs "db") 1000 FsNever ltac:(lia)) as (w & e & E & Hi & _).
  assert (Hs : state_or (opened (bs "db") 1000 FsNever) = mkKvState e w)
    by (unfold opened, state_or; by rewrite E).
  destruct (hash_server_linearizable 100 ExServer.cfg interleaved two_workers _ _ ∅ interleaved_run) as (m' & Hh & _).
  - vm_compute. repeat constructor.
  - repeat constructor.
  - vm_compute. repeat constructor.
  - cbn [pool_server two_workers fresh_server database]. rewrite Hs. exact Hi.
  - vm_compute. lia.
  - eexists _, _, m'. split; [exact interleaved_run|]. split; [exact Hh|]. vm_compute. reflexivity.
Defined.
