(* ===== verification/Bench.v ===== *)
(** * Workloads and statistics of the benchmarks

    What the load generator (src/src/bin/kvbench.rs) computes without the
    network: the keys, the reads with their share of missing keys spread
    evenly, the ranges, the keys to delete, the slices of the threads, the
    random numbers and the latency statistics. A duration is a number of
    nanoseconds. Arithmetic on [usize] wraps, as in a release build. *)

From stdpp Require Import sorting.
From S2P Require Import Prelude Utf8 Text Float.

(** ** Statistics *)

Definition is_duration (d : Z) : Prop := 0 <= d < 2 ^ 64 * 10 ^ 9.

(** [Sum for Duration], which panics when it overflows. *)
Fixpoint duration_sum (acc : Z) (l : list Z) : result Z :=
  match l with
  | [] => Ok acc
  | d :: l' => if 2 ^ 64 * 10 ^ 9 <=? acc + d then Panic else duration_sum (acc + d) l'
  end.

(** [Duration / u32], which panics when the divisor is zero. *)
Definition duration_div (d n : Z) : result Z := if n =? 0 then Panic else Ok (d / n).

(** [l[i]]. *)
Definition index {A} (l : list A) (i : Z) : result A :=
  match l !! Z.to_nat i with Some a => Ok a | None => Panic end.

Record Stats := mkLatency { st_min : Z; st_max : Z; st_mean : Z; st_p99 : Z }.

Definition sorted (l : list Z) : list Z := merge_sort Z.le l.

Definition compute_stats (latencies : list Z) : result Stats :=
  let l := sorted latencies in
  let? min := index l 0 in
  let? max := (match last l with Some d => Ok d | None => Panic end) in
  let? total := duration_sum 0 l in
  let? mean := duration_div total (wrap32 (len l)) in
  let p99_idx := Z.min (wrap64 (len l * 99) / 100) (len l - 1) in
  let? p99 := index l p99_idx in
  Ok (mkLatency min max mean p99).

Record PhaseResult := mkPhase { latencies : list Z; misses : Z; elapsed : Z }.

(** What [print_phase] prints: the throughput and the share of misses as
    floats, whose decimal rendering is not modelled. *)
Record Report := mkReport {
  rp_count : Z;
  rp_total : Z;
  rp_throughput : spec_float;
  rp_stats : Stats;
  rp_misses : option (Z * spec_float);
}.

Definition print_phase (r : PhaseResult) : result (option Report) :=
  let count := len (latencies r) in
  if count =? 0 then Ok None
  else
    let throughput := f64_div (as_f64 count) (as_secs_f64 (elapsed r)) in
    let? stats := compute_stats (latencies r) in
    Ok (Some (mkReport count (elapsed r) throughput stats
      (if 0 <? misses r then
         Some (misses r, f64_mul (f64_div (as_f64 (misses r)) (as_f64 count)) (as_f64 100))
       else None))).

(** ** Keys *)

(** [{i:08}]. *)
Definition pad8 (i : Z) : str := replicate (8 - length (dec i)) (digit 0) ++ dec i.

Definition bench_key (i : Z) : str := bs "bench:key:" ++ pad8 i.
Definition missing_key (i : Z) : str := bs "bench:missing:" ++ pad8 i.

Definition upto (n : Z) : list Z := seqZ 0 n.
Definition bench_keys (count : Z) : list str := map bench_key (upto count).

(** [(n as f64 * ratio).round() as usize]. *)
Definition fraction (n : Z) (ratio : spec_float) : Z :=
  f64_to_uint 64 (f64_round (f64_mul (as_f64 n) ratio)).

(** The running total [i * miss_count / n] crosses an integer at [i]. *)
Definition crosses (miss_count n i : Z) : bool :=
  (0 <? miss_count) && (wrap64 (i * miss_count) / n <? wrap64 ((i + 1) * miss_count) / n).

Definition build_read_keys (keys : list str) (miss_ratio : spec_float) : list str :=
  let n := len keys in
  let miss_count := fraction n miss_ratio in
  imap (fun i k => if crosses miss_count n (Z.of_nat i) then missing_key (Z.of_nat i) else k) keys.

(** [keys.windows(w)] and [step_by(w)]. *)
Fixpoint windows {A} (w : nat) (l : list A) : list (list A) :=
  match l with
  | [] => []
  | _ :: l' => if (w <=? length l)%nat then take w l :: windows w l' else []
  end.

Fixpoint step_from {A} (skip step : nat) (l : list A) : list A :=
  match l with
  | [] => []
  | a :: l' =>
      match skip with
      | O => a :: step_from (Nat.pred step) step l'
      | S skip' => step_from skip' step l'
      end
  end.

Definition step_by {A} (step : nat) (l : list A) : list A := step_from 0 step l.

Definition build_range_queries (keys : list str) (window : Z) : list (str * str) :=
  if (len keys =? 0) || (window =? 0) then []
  else map (fun w => (default [] (head w), default [] (last w)))
         (step_by (Z.to_nat window) (windows (Z.to_nat window) keys)).

(** The keys of the DELETE phase, and those it leaves. *)
Definition delete_step (count delete_count : Z) : Z :=
  Z.max (if delete_count =? 0 then 1 else count / Z.max delete_count 1) 1.

Definition delete_keys (count delete_count : Z) (keys : list str) : list str :=
  take (Z.to_nat delete_count) (step_by (Z.to_nat (delete_step count delete_count)) keys).

Definition surviving_keys (keys deleted : list str) : list str :=
  List.filter (fun k => negb (bool_decide (k ∈ deleted))) keys.

(** The slice of thread [w] of [n]: [keys[start..end]]. *)
Definition slice_start (count n w : Z) : Z := wrap64 (w * count) / n.
Definition slice_end (count n w : Z) : Z :=
  if w + 1 =? n then count else wrap64 ((w + 1) * count) / n.

Definition slice {A} (l : list A) (start stop : Z) : result (list A) :=
  if (start <=? stop) && (stop <=? len l) then
    Ok (take (Z.to_nat (stop - start)) (drop (Z.to_nat start) l))
  else Panic.

Definition thread_slice {A} (keys : list A) (n w : Z) : result (list A) :=
  slice keys (slice_start (len keys) n w) (slice_end (len keys) n w).

(** ** Random numbers *)

Definition Rng : Type := Z.

Definition next_u64 (x : Rng) : Rng :=
  let x := Z.lxor x (wrap64 (Z.shiftl x 13)) in
  let x := Z.lxor x (Z.shiftr x 7) in
  Z.lxor x (wrap64 (Z.shiftl x 17)).

Definition next_f64 (x : Rng) : Rng * spec_float :=
  let x' := next_u64 x in (x', f64_div (as_f64 (Z.shiftr x' 11)) (as_f64 (Z.shiftl 1 53))).

(** The transcendental functions of the platform's mathematical library. *)
Class Libm := {
  f_ln : spec_float -> spec_float;
  f_exp : spec_float -> spec_float;
  f_powf : spec_float -> spec_float -> spec_float;
}.

Section Zipf.
Context `{Libm}.

Definition next_zipf (n : Z) (s : spec_float) (x : Rng) : Rng * Z :=
  let '(x', u) := next_f64 x in
  let n_f := as_f64 n in
  let one := as_f64 1 in
  let v :=
    if f_eq s one then
      let h_n := f64_add (f_ln n_f) (f64_lit 5772 10000) in
      f_exp (f64_mul u h_n)
    else
      let exp := f64_sub one s in
      let h_n := f64_div (f64_sub (f_powf n_f exp) one) exp in
      f_powf (f64_add (f64_mul (f64_mul u h_n) exp) one) (f64_div one exp) in
  (x', Z.min (f64_to_uint 64 v) (wrap64 (n - 1))).

(** The closure of [build_zipf_read_keys] over the indices left. *)
Fixpoint zipf_loop (keys : list str) (count miss_count : Z) (s : spec_float) (x : Rng) (todo : list Z)
    : result (list str) :=
  match todo with
  | [] => Ok []
  | i :: todo' =>
      if crosses miss_count count i then
        let? l := zipf_loop keys count miss_count s x todo' in Ok (missing_key i :: l)
      else
        let '(x', idx) := next_zipf (len keys) s x in
        let? k := index keys idx in
        let? l := zipf_loop keys count miss_count s x' todo' in Ok (k :: l)
  end.

Definition build_zipf_read_keys (keys : list str) (count : Z) (s miss_ratio : spec_float)
    : result (list str) :=
  let miss_count := fraction count miss_ratio in
  zipf_loop keys count miss_count s 0xDEADBEEFCAFE (upto count).
End Zipf.

(** ** Lemmas: steps and windows *)

Lemma step_from_lookup {A} (l : list A) skip step i :
  (0 < step)%nat -> step_from skip step l !! i = l !! (skip + i * step)%nat.
Proof.
  intros Hs. revert skip i. induction l as [|a l IH]; intros skip i; [done|]. cbn [step_from].
  destruct skip as [|skip]; [|rewrite IH; done]. destruct i as [|i]; [done|]. cbn [lookup list_lookup].
  rewrite IH. replace (0 + S i * step)%nat with (S (Nat.pred step + i * step)) by lia. done.
Qed.

Lemma step_by_lookup {A} (l : list A) step i :
  (0 < step)%nat -> step_by step l !! i = l !! (i * step)%nat.
Proof. intros Hs. unfold step_by. by rewrite step_from_lookup. Qed.

Lemma windows_lookup {A} w (l : list A) i :
  (0 < w)%nat ->
  windows w l !! i = if (i + w <=? length l)%nat then Some (take w (drop i l)) else None.
Proof.
  intros Hw. revert i. induction l as [|a l IH]; intros i.
  { rewrite (proj2 (Nat.leb_gt _ _)) by (cbn; lia). done. }
  cbn [windows]. destruct (w <=? length (a :: l))%nat eqn:E.
  - destruct i as [|i]; [by rewrite Nat.add_0_l, E|]. cbn [lookup list_lookup]. by rewrite IH.
  - rewrite (proj2 (Nat.leb_gt _ _)); [done|]. apply Nat.leb_gt in E. lia.
Qed.

Lemma head_lookup {A} (l : list A) : head l = l !! 0%nat.
Proof. by destruct l. Qed.

(** The ranges: query [i] is the [i]-th group of [window] successive keys. *)
Lemma range_queries_lookup keys window i a b :
  0 < window ->
  build_range_queries keys window !! i = Some (a, b) <->
  keys !! (i * Z.to_nat window)%nat = Some a /\
  keys !! (i * Z.to_nat window + (Z.to_nat window - 1))%nat = Some b.
Proof.
  intros Hw. unfold build_range_queries. rewrite (proj2 (Z.eqb_neq window 0)), orb_false_r by lia.
  set (w := Z.to_nat window). assert (Hw' : (0 < w)%nat) by lia.
  destruct (Z.eqb_spec (len keys) 0) as [E|_].
  { destruct keys; [|unfold len in E; cbn in E; lia]. rewrite !lookup_nil. naive_solver. }
  rewrite list_lookup_fmap, step_by_lookup, windows_lookup by done.
  destruct (Nat.leb_spec (i * w + w) (length keys)) as [Hle|Hgt].
  - cbn [fmap option_fmap option_map]. rewrite head_lookup, last_lookup, length_take, length_drop.
    rewrite !lookup_take_lt, !lookup_drop by lia.
    replace (Nat.pred (Nat.min w (length keys - i * w))) with (w - 1)%nat by lia. rewrite Nat.add_0_r.
    destruct (lookup_lt_is_Some_2 keys (i * w)) as [x Hx]; [lia|].
    destruct (lookup_lt_is_Some_2 keys (i * w + (w - 1))) as [y Hy]; [lia|].
    rewrite Hx, Hy. cbn. naive_solver.
  - rewrite (lookup_ge_None_2 keys (i * w + (w - 1))) by lia. cbn. naive_solver.
Qed.

(** ** Lemmas: keys *)

Lemma pad8_value i : is_u64 i -> digits_value 0 (pad8 i) = Some i.
Proof.
  intros Hi. unfold pad8. rewrite digits_value_app.
  assert (Hz : forall n, digits_value 0 (replicate n (digit 0)) = Some 0) by (induction n; done).
  rewrite Hz. apply (dec_loop_spec 20 i (u64_20_digits i Hi)).
Qed.

Lemma pad8_inj i j : is_u64 i -> is_u64 j -> pad8 i = pad8 j -> i = j.
Proof. intros Hi Hj E. apply (f_equal (digits_value 0)) in E. rewrite !pad8_value in E by done. congruence. Qed.

Lemma bench_key_inj i j : is_u64 i -> is_u64 j -> bench_key i = bench_key j -> i = j.
Proof. intros Hi Hj E. apply app_inv_head in E. by apply pad8_inj. Qed.

Lemma missing_not_bench i j : missing_key i <> bench_key j.
Proof. done. Qed.

Lemma elem_of_bench_keys count k :
  k ∈ bench_keys count <-> exists i, 0 <= i < count /\ k = bench_key i.
Proof.
  unfold bench_keys, upto. rewrite list_elem_of_fmap. setoid_rewrite elem_of_seqZ.
  split; intros (i & H1 & H2); exists i; (split; [|done]); lia || done.
Qed.

Lemma missing_absent i count : missing_key i ∉ bench_keys count.
Proof. intros (j & _ & E)%elem_of_bench_keys. by apply missing_not_bench in E. Qed.

Lemma len_bench_keys count : 0 <= count -> len (bench_keys count) = count.
Proof. intros H. unfold len, bench_keys, upto. rewrite length_fmap, length_seqZ. lia. Qed.

Lemma pad8_ascii i : is_u64 i -> Forall (fun b => u8 b < 128) (pad8 i) /\ len (pad8 i) < 2 ^ 15.
Proof.
  intros Hi. unfold pad8. split.
  - apply Forall_app. split; [by apply Forall_replicate|].
    eapply Forall_impl; [by apply dec_digits|]. intros b Hb. unfold is_digit in Hb. lia.
  - rewrite len_app. unfold len. rewrite length_replicate.
    assert (H : forall n z, (length (dec_loop n z) <= n)%nat).
    { clear. induction n as [|n IH]; intros z; cbn; [lia|]. case_match; cbn; [lia|].
      rewrite length_app. cbn. specialize (IH (z / 10)). lia. }
    pose proof (H 20%nat i). unfold dec in *. lia.
Qed.

Lemma bench_key_ok i : is_u64 i -> utf8_valid (bench_key i) = true /\ len (bench_key i) < 2 ^ 16.
Proof.
  intros Hi. destruct (pad8_ascii i Hi) as [Ha Hl]. unfold bench_key. split.
  - apply utf8_valid_ascii, Forall_app. split; [by repeat constructor | done].
  - rewrite len_app. change (len (bs "bench:key:")) with 10. lia.
Qed.

Lemma missing_key_ok i : is_u64 i -> utf8_valid (missing_key i) = true /\ len (missing_key i) < 2 ^ 16.
Proof.
  intros Hi. destruct (pad8_ascii i Hi) as [Ha Hl]. unfold missing_key. split.
  - apply utf8_valid_ascii, Forall_app. split; [by repeat constructor | done].
  - rewrite len_app. change (len (bs "bench:missing:")) with 14. lia.
Qed.

Lemma NoDup_bench_keys count : count <= 2 ^ 64 -> NoDup (bench_keys count).
Proof.
  intros Hc. unfold bench_keys, upto. apply NoDup_fmap_2_strong; [|apply NoDup_seqZ].
  intros i j Hi%elem_of_seqZ Hj%elem_of_seqZ. apply bench_key_inj; split; lia.
Qed.

(** ** Lemmas: the spread of missing keys *)

(** The reads of keys that were not written. *)
Definition absent (keys l : list str) : list str := surviving_keys l keys.

Lemma crosses_step M n i :
  0 <= M <= n -> n * M < 2 ^ 64 -> 0 <= i < n ->
  (i + 1) * M / n = i * M / n + Z.b2z (crosses M n i).
Proof.
  intros HM Hn Hi. unfold crosses.
  rewrite !wrap_small by (split; nia).
  assert (H1 : i * M / n <= (i + 1) * M / n) by (apply Z.div_le_mono; nia).
  assert (H2 : (i + 1) * M / n <= i * M / n + 1).
  { rewrite <- Z.div_add by lia. apply Z.div_le_mono; nia. }
  destruct (Z.ltb_spec 0 M); cbn [andb].
  - destruct (Z.ltb_spec (i * M / n) ((i + 1) * M / n)); cbn [Z.b2z]; lia.
  - replace M with 0 by lia. rewrite !Z.mul_0_r. cbn. lia.
Qed.

Lemma absent_app keys a b : absent keys (a ++ b) = absent keys a ++ absent keys b.
Proof. apply List.filter_app. Qed.

(** A list with a missing key exactly where the running total crosses. *)
Definition spread_at (keys : list str) (M n i : Z) (x : str) : Prop :=
  if crosses M n i then x = missing_key i else x ∈ keys.

Definition spread (keys : list str) (M n : Z) (l : list str) : Prop :=
  len l = n /\ forall i x, l !! i = Some x -> spread_at keys M n (Z.of_nat i) x.

Lemma spread_prefix keys M n l j :
  (forall i, missing_key i ∉ keys) -> spread keys M n l -> 0 <= M <= n -> n * M < 2 ^ 64 -> (j <= length l)%nat ->
  len (absent keys (take j l)) = Z.of_nat j * M / n.
Proof.
  intros Hmiss [Hl Hs] HM Hn. induction j as [|j IH]; intros Hj; [done|].
  destruct (lookup_lt_is_Some_2 l j) as [x Hx]; [lia|]. specialize (Hs j x Hx).
  rewrite (take_S_r _ _ _ Hx), absent_app, len_app, IH by lia.
  replace (Z.of_nat (S j)) with (Z.of_nat j + 1) by lia.
  rewrite crosses_step by (unfold len in Hl; lia). f_equal.
  unfold absent, surviving_keys, spread_at in *. cbn. destruct (crosses M n (Z.of_nat j)).
  - subst x. by rewrite bool_decide_eq_false_2.
  - by rewrite bool_decide_eq_true_2.
Qed.

Lemma spread_total keys M n l :
  (forall i, missing_key i ∉ keys) -> spread keys M n l -> 0 <= M <= n -> n * M < 2 ^ 64 -> len (absent keys l) = M.
Proof.
  intros Hmiss Hs HM Hn. pose proof Hs as [Hl _].
  pose proof (spread_prefix keys M n l (length l) Hmiss Hs HM Hn ltac:(lia)) as E.
  rewrite take_ge in E by lia. rewrite E. destruct (decide (n = 0)) as [->|].
  - replace M with 0 by lia. by rewrite Z.div_0_r.
  - unfold len in Hl. rewrite Hl, Z.mul_comm. apply Z.div_mul. lia.
Qed.

Lemma read_keys_spread count ratio :
  0 <= count ->
  spread (bench_keys count) (fraction count ratio) count (build_read_keys (bench_keys count) ratio).
Proof.
  intros Hc. unfold build_read_keys. rewrite len_bench_keys by done. split.
  { unfold len. rewrite length_imap. by apply len_bench_keys. }
  intros i x Hx. rewrite list_lookup_imap in Hx.
  destruct (bench_keys count !! i) as [k|] eqn:E; cbn in Hx; [|done]. injection Hx as <-.
  unfold spread_at. destruct (crosses _ _ _); [done|]. by eapply list_elem_of_lookup_2.
Qed.

(** ** Lemmas: Zipfian reads *)

Section ZipfLemmas.
Context `{LM : Libm}.

Lemma f64_to_uint_nonneg w x : 0 <= w -> 0 <= f64_to_uint w x.
Proof.
  intros Hw. pose proof (Z.pow_pos_nonneg 2 w ltac:(lia) Hw). unfold f64_to_uint.
  destruct x as [| []| |[] m e]; try lia. apply Z.min_glb; [lia|]. apply Z.shiftl_nonneg. lia.
Qed.

Lemma next_zipf_range n s x : 0 < n < 2 ^ 64 -> 0 <= (next_zipf n s x).2 < n.
Proof.
  intros Hn. unfold next_zipf. destruct (next_f64 x) as [x' u]. cbn [snd].
  rewrite wrap_small by (split; lia).
  match goal with |- context [Z.min (f64_to_uint 64 ?v) _] => pose proof (f64_to_uint_nonneg 64 v ltac:(lia)) end.
  lia.
Qed.

Lemma zipf_loop_run keys count M s todo : forall x,
  0 < len keys < 2 ^ 64 ->
  exists l, zipf_loop keys count M s x todo = Ok l /\ Forall2 (spread_at keys M count) todo l.
Proof.
  unfold spread_at. induction todo as [|i todo IH]; intros x Hk; cbn [zipf_loop]; [by exists []|].
  destruct (crosses M count i) eqn:Ec.
  - destruct (IH x Hk) as (l & -> & HF). eexists. split; [reflexivity|]. constructor; [by rewrite Ec | done].
  - pose proof (next_zipf_range (len keys) s x Hk) as Hr.
    destruct (next_zipf (len keys) s x) as [x' idx]. cbn [snd] in Hr.
    destruct (lookup_lt_is_Some_2 keys (Z.to_nat idx)) as [k E]; [unfold len in Hr; lia|].
    unfold index. rewrite E. cbn [rbind]. destruct (IH x' Hk) as (l & -> & HF).
    eexists. split; [reflexivity|]. constructor; [|done]. rewrite Ec. by eapply list_elem_of_lookup_2.
Qed.

Lemma zipf_read_keys_spread count s ratio :
  0 < count < 2 ^ 64 ->
  exists l, build_zipf_read_keys (bench_keys count) count s ratio = Ok l /\
    spread (bench_keys count) (fraction count ratio) count l.
Proof.
  intros Hc. unfold build_zipf_read_keys.
  destruct (zipf_loop_run (bench_keys count) count (fraction count ratio) s (upto count) 0xDEADBEEFCAFE)
    as (l & E & HF).
  { rewrite len_bench_keys; lia. }
  exists l. split; [exact E|]. split.
  - apply Forall2_length in HF. unfold upto in HF. rewrite length_seqZ in HF. unfold len. lia.
  - intros i x Hx. destruct (Forall2_lookup_r _ _ _ _ _ HF Hx) as (j & Hj & Hat).
    apply lookup_seqZ in Hj as [-> _]. by rewrite Z.add_0_l in Hat.
Qed.
End ZipfLemmas.

(** ** Lemmas: the keys to delete *)

Lemma filter_split {A} (p : A -> bool) l :
  len (List.filter p l) + len (List.filter (fun x => negb (p x)) l) = len l.
Proof.
  induction l as [|a l IH]; [done|]. cbn. destruct (p a); cbn [negb]; rewrite !len_cons; lia.
Qed.

Lemma filter_mem_length (l d : list str) :
  NoDup l -> NoDup d -> d ⊆ l -> len (List.filter (fun k => bool_decide (k ∈ d)) l) = len d.
Proof.
  intros Hl Hd Hsub. unfold len. f_equal. apply Permutation_length, NoDup_Permutation; [| done |].
  - apply NoDup_ListNoDup, List.NoDup_filter, NoDup_ListNoDup, Hl.
  - intros k. rewrite list_elem_of_In, List.filter_In, <- list_elem_of_In, bool_decide_eq_true.
    split; [by intros [_ ?] | auto].
Qed.

Lemma surviving_length keys d :
  NoDup keys -> NoDup d -> d ⊆ keys -> len (surviving_keys keys d) = len keys - len d.
Proof.
  intros H1 H2 H3. pose proof (filter_split (fun k => bool_decide (k ∈ d)) keys) as E.
  rewrite (filter_mem_length keys d) in E by done. unfold surviving_keys. lia.
Qed.

Lemma elem_of_surviving k keys d : k ∈ surviving_keys keys d <-> k ∈ keys /\ k ∉ d.
Proof.
  unfold surviving_keys. rewrite list_elem_of_In, List.filter_In, <- list_elem_of_In.
  by rewrite negb_true_iff, bool_decide_eq_false.
Qed.

Lemma delete_step_bound count dc i :
  0 < dc <= count -> 0 <= i < dc -> 0 < delete_step count dc /\ i * delete_step count dc < count.
Proof.
  intros Hdc Hi. unfold delete_step. rewrite (proj2 (Z.eqb_neq dc 0)), (Z.max_l dc) by lia.
  assert (1 <= count / dc) by (apply Z.div_le_lower_bound; lia).
  pose proof (Z.mul_div_le count dc ltac:(lia)). rewrite Z.max_l by lia. nia.
Qed.

Lemma delete_keys_lookup count dc keys i :
  len keys = count -> 0 <= dc <= count ->
  delete_keys count dc keys !! i
  = if (i <? Z.to_nat dc)%nat then keys !! (i * Z.to_nat (delete_step count dc))%nat else None.
Proof.
  intros Hl Hdc. unfold delete_keys. destruct (Nat.ltb_spec i (Z.to_nat dc)).
  - destruct (delete_step_bound count dc (Z.of_nat i)) as [H1 _]; [lia.. |].
    rewrite lookup_take_lt by lia. apply step_by_lookup. lia.
  - by rewrite lookup_take_ge.
Qed.

Lemma delete_keys_some count dc (keys : list str) i :
  len keys = count -> 0 <= dc <= count -> (i < Z.to_nat dc)%nat ->
  (i * Z.to_nat (delete_step count dc) < length keys)%nat.
Proof.
  intros Hl Hdc Hi. destruct (delete_step_bound count dc (Z.of_nat i)) as [H1 H2]; [lia.. |].
  unfold len in Hl. nia.
Qed.

Lemma delete_keys_length count dc keys :
  len keys = count -> 0 <= dc <= count -> len (delete_keys count dc keys) = dc.
Proof.
  intros Hl Hdc.
  assert (Hle : (length (delete_keys count dc keys) <= Z.to_nat dc)%nat)
    by (unfold delete_keys; rewrite length_take; lia).
  destruct (Nat.lt_ge_cases (length (delete_keys count dc keys)) (Z.to_nat dc)) as [Hlt|]; [|unfold len; lia].
  pose proof (delete_keys_lookup count dc keys (length (delete_keys count dc keys)) Hl Hdc) as E.
  rewrite (lookup_ge_None_2 _ _ (le_n _)), (proj2 (Nat.ltb_lt _ _) Hlt) in E.
  destruct (lookup_lt_is_Some_2 _ _ (delete_keys_some count dc keys _ Hl Hdc Hlt)) as [x Hx]. congruence.
Qed.

Lemma delete_keys_sub count dc keys :
  len keys = count -> 0 <= dc <= count -> delete_keys count dc keys ⊆ keys.
Proof.
  intros Hl Hdc k [i Hi]%list_elem_of_lookup. rewrite delete_keys_lookup in Hi by done.
  case_match; [|done]. by eapply list_elem_of_lookup_2.
Qed.

Lemma NoDup_delete_keys count dc keys :
  len keys = count -> 0 <= dc <= count -> NoDup keys -> NoDup (delete_keys count dc keys).
Proof.
  intros Hl Hdc Hnd. apply NoDup_alt. intros i j x Hi Hj. rewrite delete_keys_lookup in Hi, Hj by done.
  destruct (Nat.ltb_spec i (Z.to_nat dc)) as [Hlt|]; [|done]. destruct (j <? _)%nat; [|done].
  pose proof (NoDup_lookup _ _ _ _ Hnd Hi Hj) as E.
  destruct (delete_step_bound count dc (Z.of_nat i)) as [H1 _]; [lia.. |]. nia.
Qed.

(** ** Lemmas: the slices of the threads *)

Lemma slice_bounds count n w :
  0 <= count -> n * count < 2 ^ 64 -> 0 <= w < n ->
  slice_start count n w = w * count / n /\ slice_end count n w = (w + 1) * count / n.
Proof.
  intros Hc Hn Hw. unfold slice_start, slice_end. rewrite wrap_small by (split; nia). split; [done|].
  destruct (Z.eqb_spec (w + 1) n) as [->|].
  - rewrite Z.mul_comm, Z.div_mul; lia.
  - rewrite wrap_small by (split; nia). done.
Qed.

Lemma thread_slice_run {A} (keys : list A) n w :
  n * len keys < 2 ^ 64 -> 0 <= w < n ->
  exists l, thread_slice keys n w = Ok l /\
    take (Z.to_nat ((w + 1) * len keys / n)) keys = take (Z.to_nat (w * len keys / n)) keys ++ l /\
    len keys / n <= len l <= len keys / n + 1.
Proof.
  intros Hn Hw. pose proof (len_nonneg keys) as Hc. unfold thread_slice.
  destruct (slice_bounds (len keys) n w Hc Hn Hw) as [-> ->].
  assert (H0 : 0 <= w * len keys / n) by (apply Z.div_pos; nia).
  assert (H1 : w * len keys / n + len keys / n <= (w + 1) * len keys / n).
  { apply Z.div_le_lower_bound; [lia|]. pose proof (Z.mul_div_le (w * len keys) n). pose proof (Z.mul_div_le (len keys) n). nia. }
  assert (H2 : (w + 1) * len keys / n <= w * len keys / n + len keys / n + 1).
  { apply Z.lt_succ_r, Z.div_lt_upper_bound; [lia|].
    pose proof (Z.mul_succ_div_gt (w * len keys) n). pose proof (Z.mul_succ_div_gt (len keys) n). nia. }
  assert (H3 : (w + 1) * len keys / n <= len keys) by (apply Z.div_le_upper_bound; nia).
  assert (H4 : 0 <= len keys / n) by (apply Z.div_pos; lia).
  unfold slice. set (a := w * len keys / n) in *. set (b := (w + 1) * len keys / n) in *.
  rewrite (proj2 (Z.leb_le a b)), (proj2 (Z.leb_le b (len keys))) by lia. eexists. split; [reflexivity|].
  split.
  - rewrite <- (take_drop (Z.to_nat a) (take (Z.to_nat b) keys)). f_equal.
    + rewrite take_take. f_equal. lia.
    + rewrite take_drop_commute. do 2 f_equal. lia.
  - assert (El : len (take (Z.to_nat (b - a)) (drop (Z.to_nat a) keys)) = b - a)
      by (unfold len in *; rewrite length_take, length_drop; lia).
    rewrite El. lia.
Qed.

(** The slices put together are the keys, and they differ by at most one in
    length. *)
Lemma slices_partition {A} (keys : list A) n :
  0 < n -> n * len keys < 2 ^ 64 ->
  exists ls, map (thread_slice keys n) (upto n) = map Ok ls /\ concat ls = keys /\
    Forall (fun l => len keys / n <= len l <= len keys / n + 1) ls.
Proof.
  intros Hn Hb.
  assert (H : forall j, (j <= Z.to_nat n)%nat ->
    exists ls, map (thread_slice keys n) (seqZ 0 (Z.of_nat j)) = map Ok ls /\
      concat ls = take (Z.to_nat (Z.of_nat j * len keys / n)) keys /\
      Forall (fun l => len keys / n <= len l <= len keys / n + 1) ls).
  { induction j as [|j IH]; intros Hj; [by exists []|]. destruct IH as (ls & E & Hcat & Hf); [lia|].
    destruct (thread_slice_run keys n (Z.of_nat j) Hb) as (l & El & Ht & Hlen); [lia|].
    exists (ls ++ [l]). rewrite seqZ_S. replace (Z.of_nat (S j)) with (Z.of_nat j + 1) by lia. rewrite !map_app, E. cbn [map].
    rewrite Z.add_0_l, El. split; [done|]. rewrite concat_app, Hcat. cbn [concat]. rewrite app_nil_r.
    split; [by rewrite <- Ht|]. apply Forall_app. split; [done | by constructor]. }
  destruct (H (Z.to_nat n) (le_n _)) as (ls & E & Hcat & Hf). exists ls.
  rewrite Z2Nat.id in * by lia. split; [exact E|]. split; [|done]. rewrite Hcat.
  rewrite Z.mul_comm, Z.div_mul by lia. apply take_ge. unfold len. lia.
Qed.

(** ** Lemmas: random numbers *)

Lemma xorshift_left_nonzero x k :
  is_u64 x -> Z.gcd (2 ^ 64) (2 ^ k - 1) = 1 -> 0 <= k -> x <> 0 -> Z.lxor x (wrap64 (Z.shiftl x k)) <> 0.
Proof.
  intros [H1 H2] Hg Hk Hx E%Z.lxor_eq. apply Hx. rewrite Z.shiftl_mul_pow2 in E by done.
  assert (Hd : (2 ^ 64 | (2 ^ k - 1) * x)).
  { exists (x * 2 ^ k / 2 ^ 64). unfold wrap in E.
    pose proof (Z.div_mod (x * 2 ^ k) (2 ^ 64) ltac:(lia)) as Hdm. rewrite <- E in Hdm. lia. }
  apply Z.gauss in Hd; [|done]. destruct Hd as [q ->]. nia.
Qed.

Lemma xorshift_right_nonzero x k : 0 < k -> 0 < x -> Z.lxor x (Z.shiftr x k) <> 0.
Proof.
  intros Hk Hx E%Z.lxor_eq. rewrite Z.shiftr_div_pow2 in E by lia.
  assert (x / 2 ^ k < x); [|lia]. apply Z.div_lt; [done|]. apply Z.pow_gt_1; lia.
Qed.

Lemma lxor_u64 x y : is_u64 x -> is_u64 y -> is_u64 (Z.lxor x y).
Proof.
  intros [Hx1 Hx2] [Hy1 Hy2]. split; [apply Z.lxor_nonneg; lia|].
  destruct (Z.eq_dec (Z.lxor x y) 0) as [->|Hne]; [lia|].
  apply Z.log2_lt_pow2; [pose proof (proj2 (Z.lxor_nonneg x y)); lia|].
  eapply Z.le_lt_trans; [apply Z.log2_lxor; lia|].
  apply Z.max_lub_lt; (destruct (Z.eq_dec x 0) as [->|]; destruct (Z.eq_dec y 0) as [->|];
    try (cbn; lia); apply Z.log2_lt_pow2; lia).
Qed.

Lemma shiftr_u64 x k : 0 <= k -> is_u64 x -> is_u64 (Z.shiftr x k).
Proof.
  intros Hk [H1 H2]. split; [by apply Z.shiftr_nonneg|]. rewrite Z.shiftr_div_pow2 by done.
  eapply Z.le_lt_trans; [|exact H2]. apply Z.div_le_upper_bound; [lia|]. nia.
Qed.

(** The state of the generator stays a non-zero [u64], so that it never gets
    stuck. *)
Lemma next_u64_good x : is_u64 x -> x <> 0 -> is_u64 (next_u64 x) /\ next_u64 x <> 0.
Proof.
  intros Hx H0. unfold next_u64.
  assert (Ha : is_u64 (Z.lxor x (wrap64 (Z.shiftl x 13)))) by (apply lxor_u64; [done | by apply is_uint_wrap]).
  assert (Ha0 : Z.lxor x (wrap64 (Z.shiftl x 13)) <> 0) by (by apply xorshift_left_nonzero).
  set (a := Z.lxor x _) in *.
  assert (Hb : is_u64 (Z.lxor a (Z.shiftr a 7))) by (apply lxor_u64; [done | by apply shiftr_u64]).
  assert (Hb0 : Z.lxor a (Z.shiftr a 7) <> 0) by (apply xorshift_right_nonzero; destruct Ha; lia).
  set (b := Z.lxor a _) in *. split; [|by apply xorshift_left_nonzero].
  apply lxor_u64; [done | by apply is_uint_wrap].
Qed.

(** ** Lemmas: statistics *)

Lemma duration_sum_run l acc :
  0 <= acc -> Forall (fun d => 0 <= d) l -> acc + foldr Z.add 0 l < 2 ^ 64 * 10 ^ 9 ->
  duration_sum acc l = Ok (acc + foldr Z.add 0 l).
Proof.
  intros Ha Hf. revert acc Ha. induction Hf as [|d l Hd Hf IH]; intros acc Ha Hb; cbn [foldr duration_sum] in *.
  { by rewrite Z.add_0_r. }
  assert (0 <= foldr Z.add 0 l) by (clear -Hf; induction Hf; cbn in *; lia). cbn beta in Hd.
  rewrite (proj2 (Z.leb_gt (2 ^ 64 * 10 ^ 9) (acc + d))), IH by lia. f_equal. lia.
Qed.

Lemma sum_bounds l a b :
  Forall (fun d => a <= d <= b) l -> a * len l <= foldr Z.add 0 l <= b * len l.
Proof.
  induction 1 as [|d l Hd _ IH]; cbn [foldr]; [change (len []) with 0; lia|].
  rewrite len_cons. lia.
Qed.

Lemma sorted_nth (l : list Z) i j x y :
  StronglySorted Z.le l -> l !! i = Some x -> l !! j = Some y -> (i <= j)%nat -> x <= y.
Proof.
  intros Hs. revert i j. induction Hs as [|a l Hs IH Ha]; intros i j; [done|].
  destruct i as [|i], j as [|j]; cbn; intros Hx Hy Hij; simplify_eq; try lia.
  - rewrite Forall_forall in Ha. apply Ha. by eapply list_elem_of_lookup_2.
  - apply (IH i j); [done | done | lia].
Qed.

Lemma filter_perm_len {A} (p : A -> bool) l l' :
  l ≡ₚ l' -> len (List.filter p l) = len (List.filter p l').
Proof.
  induction 1 as [|a l l' _ IH|a b l|l1 l2 l3 _ IH1 _ IH2]; cbn; [done | | |congruence].
  - destruct (p a); rewrite ?len_cons; congruence.
  - destruct (p a), (p b); done.
Qed.

Lemma filter_all {A} (p : A -> bool) l : Forall (fun x => p x = true) l -> List.filter p l = l.
Proof. induction 1 as [|a l Ha _ IH]; cbn; [done|]. by rewrite Ha, IH. Qed.

Lemma filter_none {A} (p : A -> bool) l : Forall (fun x => p x = false) l -> List.filter p l = [].
Proof. induction 1 as [|a l Ha _ IH]; cbn; [done|]. by rewrite Ha. Qed.

Lemma len_filter {A} (p : A -> bool) l : len (List.filter p l) <= len l.
Proof. pose proof (filter_split p l). pose proof (len_nonneg (List.filter (fun x => negb (p x)) l)). lia. Qed.

(** Where an element of a sorted list stands. *)
Lemma sorted_rank l i x :
  StronglySorted Z.le l -> l !! i = Some x ->
  Z.of_nat i + 1 <= len (List.filter (fun d => d <=? x) l) /\
  len (List.filter (fun d => d <? x) l) <= Z.of_nat i.
Proof.
  intros Hs Hx. pose proof (lookup_lt_Some _ _ _ Hx) as Hlt. split.
  - rewrite <- (take_drop (S i) l), List.filter_app, len_app, (filter_all _ (take (S i) l)).
    + pose proof (len_nonneg (List.filter (fun d => d <=? x) (drop (S i) l))).
      unfold len at 1. rewrite length_take. lia.
    + apply Forall_forall. intros y [j Hj]%list_elem_of_lookup. apply lookup_take_Some in Hj as [Hj Hlt'].
      apply Z.leb_le, (sorted_nth l j i); [done | done | done | lia].
  - rewrite <- (take_drop i l), List.filter_app, len_app, (filter_none _ (drop i l)).
    + pose proof (len_filter (fun d => d <? x) (take i l)) as Hf. change (len (@nil Z)) with 0.
      assert (len (take i l) <= Z.of_nat i) by (unfold len; rewrite length_take; lia). lia.
    + apply Forall_forall. intros y [j Hj]%list_elem_of_lookup. rewrite lookup_drop in Hj.
      apply Z.ltb_ge, (sorted_nth l i (i + j)); [done | done | done | lia].
Qed.

(** The statistics of a phase: extremes that were measured, a mean between
    them, and a percentile with 99 % of the latencies at or below it and no more
    than 99 % strictly below. *)
Record good_stats (l : list Z) (st : Stats) : Prop := {
  gs_min : st_min st ∈ l;
  gs_max : st_max st ∈ l;
  gs_p99 : st_p99 st ∈ l;
  gs_range : Forall (fun d => st_min st <= d <= st_max st) l;
  gs_mean : st_min st <= st_mean st <= st_max st;
  gs_at_most : 99 * len l <= 100 * len (List.filter (fun d => d <=? st_p99 st) l);
  gs_below : 100 * len (List.filter (fun d => d <? st_p99 st) l) <= 99 * len l;
}.

Lemma compute_stats_run l :
  l <> [] -> Forall (fun d => 0 <= d) l -> foldr Z.add 0 l < 2 ^ 64 * 10 ^ 9 -> len l < 2 ^ 32 ->
  exists st, compute_stats l = Ok st /\ good_stats l st.
Proof.
  intros Hne Hf Hsum Hlen.
  assert (Hs : StronglySorted Z.le (sorted l)) by (apply (StronglySorted_merge_sort _); apply _).
  assert (Hp : sorted l ≡ₚ l) by apply merge_sort_Permutation.
  assert (Hl : len (sorted l) = len l) by (unfold len; by rewrite Hp).
  assert (Hpos : 0 < len l) by (destruct l; [done | rewrite len_cons; pose proof (len_nonneg l); lia]).
  assert (Hsum' : foldr Z.add 0 (sorted l) = foldr Z.add 0 l)
    by (apply foldr_permutation_proper; try done; try apply _; intros; lia).
  unfold compute_stats. set (srt := sorted l) in *.
  destruct (lookup_lt_is_Some_2 srt 0) as [mn Hmn]; [unfold len in *; lia|].
  destruct (lookup_lt_is_Some_2 srt (Nat.pred (length srt))) as [mx Hmx]; [unfold len in *; lia|].
  set (idx := Z.min (wrap64 (len srt * 99) / 100) (len srt - 1)).
  assert (Hidx : idx = len l * 99 / 100).
  { unfold idx. rewrite Hl, wrap_small by (split; lia). apply Z.min_l.
    apply Z.lt_le_pred, Z.div_lt_upper_bound; lia. }
  assert (Hidx' : 0 <= idx < len srt)
    by (rewrite Hidx, Hl; split; [apply Z.div_pos; lia | apply Z.div_lt_upper_bound; lia]).
  destruct (lookup_lt_is_Some_2 srt (Z.to_nat idx)) as [p Hp99]; [unfold len in Hidx'; lia|].
  assert (Hrange : Forall (fun d => mn <= d <= mx) srt).
  { apply Forall_forall. intros d [j Hj]%list_elem_of_lookup. pose proof (lookup_lt_Some _ _ _ Hj).
    split; [apply (sorted_nth srt 0 j) | apply (sorted_nth srt j (Nat.pred (length srt)))]; try done; lia. }
  unfold index. rewrite last_lookup. change (Z.to_nat 0) with 0%nat. rewrite Hmn. cbn [rbind].
  rewrite Hmx. cbn [rbind].
  rewrite duration_sum_run; [|lia | by rewrite Hp | by rewrite Hsum'; lia]. cbn [rbind].
  unfold duration_div. rewrite wrap_small by (split; lia). rewrite Hl, (proj2 (Z.eqb_neq (len l) 0)) by lia.
  cbn [rbind]. fold idx. rewrite Hl in *. fold idx in Hp99 |- *. rewrite Hp99. cbn [rbind].
  eexists. split; [reflexivity|]. pose proof (sum_bounds srt mn mx Hrange) as Hb.
  destruct (sorted_rank srt _ _ Hs Hp99) as [Hr1 Hr2]. rewrite (filter_perm_len _ _ _ Hp) in Hr1.
  rewrite (filter_perm_len _ _ _ Hp) in Hr2.
  split; cbn [st_min st_max st_mean st_p99].
  - rewrite <- Hp. by eapply list_elem_of_lookup_2.
  - rewrite <- Hp. by eapply list_elem_of_lookup_2.
  - rewrite <- Hp. by eapply list_elem_of_lookup_2.
  - by rewrite <- Hp.
  - rewrite Z.add_0_l. split; [apply Z.div_le_lower_bound | apply Z.div_le_upper_bound]; lia.
  - pose proof (Z.mul_succ_div_gt (len l * 99) 100). lia.
  - pose proof (Z.mul_div_le (len l * 99) 100). lia.
Qed.

(** ** Theorems *)

(** The statistics of a phase are those of its latencies. For any latencies
    that can be summed, the minimum and the maximum are two of them and bound
    all, the mean lies between them, and the percentile is one of them with at
    least 99 % of the latencies at or below it and at most 99 % strictly
    below. *)
Theorem compute_stats_correct l :
  l <> [] -> Forall (fun d => 0 <= d) l -> foldr Z.add 0 l < 2 ^ 64 * 10 ^ 9 -> len l < 2 ^ 32 ->
  exists st, compute_stats l = Ok st /\ good_stats l st.
Proof. apply compute_stats_run. Qed.

Lemma compute_stats_correct_witness :
  exists st, compute_stats [30; 10; 20; 1000; 10] = Ok st /\ good_stats [30; 10; 20; 1000; 10] st.
Proof. apply compute_stats_correct; [done | by repeat (apply List.Forall_cons; [lia|]) | reflexivity | reflexivity]. Defined.

Section MissTheorem.
Context `{LM : Libm}.

(** The reads of either distribution. *)
Definition reads_of (count : Z) (zipf : option spec_float) (ratio : spec_float) : result (list str) :=
  match zipf with
  | Some s => build_zipf_read_keys (bench_keys count) count s ratio
  | None => Ok (build_read_keys (bench_keys count) ratio)
  end.

(** The missing keys are spread evenly over the reads. Under the uniform and
    under the Zipfian distribution, whatever the platform's mathematical library
    computes: as many reads as keys are made, and among the first [j] of them
    exactly [j * misses / count] (rounded down) are of keys that are never
    written, so that all of them together are the asked-for number. *)
Theorem reads_miss_evenly count zipf ratio :
  0 < count < 2 ^ 32 -> fraction count ratio <= count ->
  exists l, reads_of count zipf ratio = Ok l /\ len l = count /\
    (forall j, (j <= length l)%nat ->
       len (absent (bench_keys count) (take j l)) = Z.of_nat j * fraction count ratio / count) /\
    len (absent (bench_keys count) l) = fraction count ratio.
Proof.
  intros Hc Hf. assert (H0 : 0 <= fraction count ratio) by (by apply f64_to_uint_nonneg).
  assert (Hs : exists l, reads_of count zipf ratio = Ok l /\
    spread (bench_keys count) (fraction count ratio) count l).
  { unfold reads_of. destruct zipf as [s|]; [apply zipf_read_keys_spread; lia|].
    eexists. split; [done|]. apply read_keys_spread. lia. }
  destruct Hs as (l & E & Hs). exists l. split; [exact E|]. split; [apply Hs|]. split.
  - intros j Hj. apply spread_prefix; [intros; apply missing_absent | done | lia | nia | done].
  - eapply spread_total; [intros; apply missing_absent | exact Hs | lia | nia].
Qed.
End MissTheorem.

#[local] Instance example_libm : Libm := {| f_ln := id; f_exp := id; f_powf := fun x _ => x |}.

Lemma reads_miss_evenly_witness :
  exists l, reads_of 10 (Some (as_f64 1)) (f64_lit 3 10) = Ok l /\ len l = 10 /\
    (forall j, (j <= length l)%nat -> len (absent (bench_keys 10) (take j l)) = Z.of_nat j * 3 / 10) /\
    len (absent (bench_keys 10) l) = 3.
Proof. apply (reads_miss_evenly 10 (Some (as_f64 1)) (f64_lit 3 10)); [lia | vm_compute; congruence]. Defined.
