(* ===== verification/Kvbench.v ===== *)
(** * The load generator (src/src/bin/kvbench.rs)

    The three modes of the load generator: the requests they send, what they
    count, and what they report. The server is what answers the bytes sent on a
    connection, as for the interactive client: an argument [peer] here,
    instantiated by the worker of [Client] in the theorems. The threads of the
    [concurrent] and [mixed] modes each have a connection; a list of thread
    numbers says whose request comes next. *)

From S2P Require Import Prelude Utf8 Text Record Settings Bffp Float Bench World.

(** ** Configuration *)

Record BenchConfig := mkBenchConfig {
  bc_host : str;
  bc_count : Z;
  value_size : Z;
  miss_ratio : spec_float;
  range_window : Z;
  delete_ratio : spec_float;
  overwrite_rounds : Z;
  zipf_s : option spec_float;
  n_writers : Z;
  n_readers : Z;
  mixed_duration : Z;
}.

(** ** Requests *)

Inductive SendResult := Hit | Miss.

(** [res.payload.join("; ")] is the text of the error. *)
Definition outcome (res : DecodedResponse) : result SendResult :=
  match resp_status res with
  | StOk | StNoop => Ok Hit
  | StNotFound => Ok Miss
  | StError => Err Other
  end.

Definition read_outcome : Reader SendResult :=
  let! len_buf := read_exact 4 in
  let! payload := read_exact (from_be len_buf) in
  rd_lift (let? res := decode_response_frame (len_buf ++ payload) in outcome res).

(** ** The client's side of a connection *)

(** The other end: [connect] gives the number of a new connection, [answer]
    takes bytes sent on one and gives those received; a failure ends the
    stream. *)
Class Peer (St : Type) := {
  connect : ST St Z;
  answer : Z -> bytes -> ST St bytes;
}.

(** Successive readings of [Instant::now], in nanoseconds. *)
Class Instants := instant : nat -> Z.

Record BenchState (St : Type) := mkBench {
  peer_state : St;
  inbox : gmap Z bytes;          (* received and not read *)
  instants_read : nat;
}.
#[global] Arguments mkBench {St} _ _ _.
#[global] Arguments peer_state {St} _.
#[global] Arguments inbox {St} _.
#[global] Arguments instants_read {St} _.

Section Client.
Context {St : Type} `{PE : Peer St} `{IN : Instants}.

Definition on_peer {A} (m : ST St A) : ST (BenchState St) A := fun st =>
  let '(s', r) := m (peer_state st) in (mkBench s' (inbox st) (instants_read st), r).

Definition now : ST (BenchState St) Z := fun st =>
  (mkBench (peer_state st) (inbox st) (S (instants_read st)), Ok (instant (instants_read st))).

(** [t.elapsed()], which never goes below zero. *)
Definition elapsed_since (t : Z) : ST (BenchState St) Z :=
  let* t' := now in st_ret (Z.max 0 (t' - t)).

Definition exchange (c : Z) (frame : bytes) : ST (BenchState St) SendResult := fun st =>
  let '(s', r) := answer c frame (peer_state st) in
  let received := default [] (inbox st !! c) ++ match r with Ok reply => reply | _ => [] end in
  match read_outcome received with
  | Ok (o, rest) => (mkBench s' (<[c := rest]> (inbox st)) (instants_read st), Ok o)
  | Err e => (mkBench s' (<[c := received]> (inbox st)) (instants_read st), Err e)
  | Panic => (mkBench s' (<[c := received]> (inbox st)) (instants_read st), Panic)
  end.

Definition send_command (c : Z) (cmd : Command) : ST (BenchState St) SendResult :=
  let* frame := st_lift (encode_command cmd) in exchange c frame.

(** ** A phase on one connection *)

(** A request and its latency. *)
Definition timed (c : Z) (cmd : Command) : ST (BenchState St) (SendResult * Z) :=
  let* t := now in
  let* r := send_command c cmd in
  let* d := elapsed_since t in
  st_ret (r, d).

Definition count_miss (r : SendResult) : Z := match r with Miss => 1 | Hit => 0 end.

(** The latencies and the number of misses of successive requests. *)
Fixpoint timed_loop (c : Z) (cmds : list Command) : ST (BenchState St) (list Z * Z) :=
  match cmds with
  | [] => st_ret ([], 0)
  | cmd :: cmds' =>
      let* r := timed c cmd in
      let* rest := timed_loop c cmds' in
      st_ret (r.2 :: rest.1, count_miss r.1 + rest.2)
  end.

(** A phase that counts its misses, and one that does not. *)
Definition phase (counted : bool) (c : Z) (cmds : list Command) : ST (BenchState St) PhaseResult :=
  let* start := now in
  let* r := timed_loop c cmds in
  let* d := elapsed_since start in
  st_ret (mkPhase r.1 (if counted then r.2 else 0) d).

(** ** The workload *)

Definition fill (c : Z) (n : Z) : str := replicate (Z.to_nat n) (as_u8 c).

Definition write_x (cfg : BenchConfig) (k : str) : Command := CWrite k (fill 120 (value_size cfg)) None.
Definition write_y (cfg : BenchConfig) (k : str) : Command := CWrite k (fill 121 (value_size cfg)) None.

Definition keys_of (cfg : BenchConfig) : list str := bench_keys (bc_count cfg).

Definition read_keys_of `{Libm} (cfg : BenchConfig) : result (list str) :=
  match zipf_s cfg with
  | Some s => build_zipf_read_keys (keys_of cfg) (bc_count cfg) s (miss_ratio cfg)
  | None => Ok (build_read_keys (keys_of cfg) (miss_ratio cfg))
  end.

Definition range_commands (cfg : BenchConfig) : list Command :=
  map (fun q => CRange q.1 q.2) (build_range_queries (keys_of cfg) (range_window cfg)).

Definition deleted_of (cfg : BenchConfig) : list str :=
  delete_keys (bc_count cfg) (fraction (bc_count cfg) (delete_ratio cfg)) (keys_of cfg).

Definition surviving_of (cfg : BenchConfig) : list str := surviving_keys (keys_of cfg) (deleted_of cfg).

Definition overwrite_commands (cfg : BenchConfig) : list Command :=
  concat (replicate (Z.to_nat (overwrite_rounds cfg)) (map (write_y cfg) (surviving_of cfg))).

(** ** Sequential mode *)

(** What is measured, in the order of the phases. *)
Record Results := mkResults {
  r_write : PhaseResult;
  r_read : PhaseResult;
  r_range : PhaseResult;
  r_delete : PhaseResult;
  r_post_del : PhaseResult;
  r_overwrite : PhaseResult;
  r_post_ow : PhaseResult;
}.

(** DELETE, the reads after it, OVERWRITE and the reads after it. *)
Definition tail_phases (cfg : BenchConfig) (c : Z)
    : ST (BenchState St) (PhaseResult * PhaseResult * PhaseResult * PhaseResult) :=
  let* d := phase false c (map CDelete (deleted_of cfg)) in
  let* pd := phase true c (map CRead (keys_of cfg)) in
  let* o := phase false c (overwrite_commands cfg) in
  let* po := phase true c (map CRead (surviving_of cfg)) in
  st_ret (d, pd, o, po).

Definition sequential_phases `{Libm} (cfg : BenchConfig) : ST (BenchState St) Results :=
  let* read_keys := st_lift (read_keys_of cfg) in
  let* c := on_peer connect in
  let* w := phase false c (map (write_x cfg) (keys_of cfg)) in
  let* r := phase true c (map CRead read_keys) in
  let* g := phase false c (range_commands cfg) in
  let* t := tail_phases cfg c in
  let '(d, pd, o, po) := t in
  st_ret (mkResults w r g d pd o po).

(** The titles, with the values they show. *)
Inductive Label :=
  | LWrite | LRead (zipf : option spec_float) | LReadPlain | LRange (window : Z)
  | LDelete (n : Z) (ratio : spec_float) | LReadAfterDelete
  | LOverwrite (rounds : Z) | LReadAfterOverwrite
  | LWriteMixed | LReadMixed.

Fixpoint print_all (l : list (Label * PhaseResult)) : result (list (Label * option Report)) :=
  match l with
  | [] => Ok []
  | (t, p) :: l' =>
      let? r := print_phase p in
      let? rest := print_all l' in
      Ok ((t, r) :: rest)
  end.

(** The phases printed: the last four only when they were asked for. *)
Definition tail_titles (cfg : BenchConfig) (r : Results) : list (Label * PhaseResult) :=
  let delete_count := fraction (bc_count cfg) (delete_ratio cfg) in
  (if 0 <? delete_count then
     [(LDelete delete_count (f64_mul (delete_ratio cfg) (as_f64 100)), r_delete r);
      (LReadAfterDelete, r_post_del r)]
   else []) ++
  (if 0 <? overwrite_rounds cfg then
     [(LOverwrite (overwrite_rounds cfg), r_overwrite r); (LReadAfterOverwrite, r_post_ow r)]
   else []).

Definition sequential `{Libm} (cfg : BenchConfig) : ST (BenchState St) (list (Label * option Report)) :=
  let* r := sequential_phases cfg in
  st_lift (print_all ([(LWrite, r_write r); (LRead (zipf_s cfg), r_read r);
                       (LRange (range_window cfg), r_range r)] ++ tail_titles cfg r)).
End Client.

(** ** Threads *)

(** Where a thread is: it connects, waits at the barrier, sends its requests
    one after the other, and ends with what [join] returns. *)
Inductive Thread :=
  | Starting
  | Waiting (c : Z)
  | Running (c start : Z) (done : list Z) (missed : Z)
  | Finished (r : result PhaseResult).

(** The threads, how many have reached the barrier, and the [stop] flag. *)
Record Pool := mkPool {
  threads : list Thread;
  arrived : nat;
  stop : bool;
}.

Inductive Turn := Run (i : nat) | Stop.

(** What a group of threads does: the next request of thread [i] after [n] of
    them ([None] when it ends), and which threads count misses. *)
Record Script := mkScript {
  next_command : nat -> nat -> bool -> result (option Command);
  counts : nat -> bool;
}.

Section Threads.
Context {St : Type} `{PE : Peer St} `{IN : Instants}.

Definition set_thread (i : nat) (t : Thread) (p : Pool) : Pool :=
  mkPool (<[i := t]> (threads p)) (arrived p) (stop p).

(** One step of a thread. The barrier is for as many threads as there are. *)
Definition thread_step (sc : Script) (i : nat) (t : Thread) (p : Pool) : ST (BenchState St) Pool := fun st =>
  match t with
  | Starting =>
      match on_peer connect st with
      | (st', Ok c) => (st', Ok (mkPool (<[i := Waiting c]> (threads p)) (S (arrived p)) (stop p)))
      | (st', Err e) => (st', Ok (set_thread i (Finished (Err e)) p))
      | (st', Panic) => (st', Ok (set_thread i (Finished Panic) p))
      end
  | Waiting c =>
      if (arrived p <? length (threads p))%nat then (st, Ok p)
      else
        let '(st', start) := now st in
        (st', let? t0 := start in Ok (set_thread i (Running c t0 [] 0) p))
  | Running c start done missed =>
      match next_command sc i (length done) (stop p) with
      | Ok (Some cmd) =>
          match timed c cmd st with
          | (st', Ok (r, d)) =>
              (st', Ok (set_thread i (Running c start (done ++ [d])
                                        (if counts sc i then missed + count_miss r else missed)) p))
          | (st', Err e) => (st', Ok (set_thread i (Finished (Err e)) p))
          | (st', Panic) => (st', Ok (set_thread i (Finished Panic) p))
          end
      | Ok None =>
          let '(st', d) := elapsed_since start st in
          (st', let? d := d in Ok (set_thread i (Finished (Ok (mkPhase done missed d))) p))
      | Err e => (st, Ok (set_thread i (Finished (Err e)) p))
      | Panic => (st, Ok (set_thread i (Finished Panic) p))
      end
  | Finished _ => (st, Ok p)
  end.

Definition pool_step (sc : Script) (a : Turn) (p : Pool) : ST (BenchState St) Pool :=
  match a with
  | Stop => st_ret (mkPool (threads p) (arrived p) true)
  | Run i => match threads p !! i with Some t => thread_step sc i t p | None => st_ret p end
  end.

Fixpoint pool_run (sc : Script) (sched : list Turn) (p : Pool) : ST (BenchState St) Pool :=
  match sched with
  | [] => st_ret p
  | a :: sched' => let* p' := pool_step sc a p in pool_run sc sched' p'
  end.
End Threads.

Definition pool_new (n : nat) : Pool := mkPool (replicate n Starting) 0 false.

(** [join] of the threads of a group, in order: [None] when one of them has not
    ended, the first failure, or the phases put together. The wall time is the
    longest of the threads'. *)
Definition add_thread (counted : bool) (all r : PhaseResult) : PhaseResult :=
  mkPhase (latencies all ++ latencies r) (if counted then misses all + misses r else misses all)
    (if elapsed all <? elapsed r then elapsed r else elapsed all).

Fixpoint collect (counted : bool) (all : PhaseResult) (l : list Thread) : option (result PhaseResult) :=
  match l with
  | [] => Some (Ok all)
  | Finished (Ok r) :: l' => collect counted (add_thread counted all r) l'
  | Finished (Err e) :: _ => Some (Err e)
  | Finished Panic :: _ => Some Panic
  | _ :: _ => None
  end.

Definition no_phase : PhaseResult := mkPhase [] 0 0.

(** ** Concurrent mode *)

(** The writers come first, then the readers; each has a slice of its keys. *)
Definition concurrent_script (cfg : BenchConfig) (read_keys : list str) : Script :=
  mkScript
    (fun i n _ =>
       let nw := Z.to_nat (n_writers cfg) in
       if (i <? nw)%nat then
         let? l := thread_slice (keys_of cfg) (n_writers cfg) (Z.of_nat i) in
         Ok (write_x cfg <$> l !! n)
       else
         let? l := thread_slice read_keys (n_readers cfg) (Z.of_nat (i - nw)) in
         Ok (CRead <$> l !! n))
    (fun i => (Z.to_nat (n_writers cfg) <=? i)%nat).

(** The summary printed last: the operations of both groups, the longer of
    their wall times, and the throughput. *)
Record Aggregate := mkAggregate { total_ops : Z; wall : Z; agg_throughput : spec_float }.

Definition aggregate (w r : PhaseResult) : Aggregate :=
  let total := len (latencies w) + len (latencies r) in
  let wall := Z.max (elapsed w) (elapsed r) in
  mkAggregate total wall (f64_div (as_f64 total) (as_secs_f64 wall)).

(** A result that is not there yet: the program waits in [join]. *)
Definition Blocking (A : Type) : Type := option A.

Section Modes.
Context {St : Type} `{PE : Peer St} `{IN : Instants} `{LM : Libm}.

(** Both groups of threads joined. *)
Definition join_all (nw : nat) (p : Pool) : Blocking (result (PhaseResult * PhaseResult)) :=
  match collect false no_phase (take nw (threads p)) with
  | None => None
  | Some (Ok w) =>
      match collect true no_phase (drop nw (threads p)) with
      | None => None
      | Some r => Some (let? r := r in Ok (w, r))
      end
  | Some (Err e) => Some (Err e)
  | Some Panic => Some Panic
  end.

(** RANGE on a connection of its own, the last four phases on another. *)
Definition concurrent_tail (cfg : BenchConfig) (w r : PhaseResult) : ST (BenchState St) Results :=
  let* c1 := on_peer connect in
  let* g := phase false c1 (range_commands cfg) in
  let* c2 := on_peer connect in
  let* t := tail_phases cfg c2 in
  let '(d, pd, o, po) := t in
  st_ret (mkResults w r g d pd o po).

(** The requests of the threads are interleaved by the schedule. *)
Definition concurrent (cfg : BenchConfig) (sched : list Turn)
    : ST (BenchState St) (Blocking (list (Label * option Report) * Aggregate)) :=
  let* read_keys := st_lift (read_keys_of cfg) in
  let nw := Z.to_nat (n_writers cfg) in
  let nr := Z.to_nat (n_readers cfg) in
  let* p := pool_run (concurrent_script cfg read_keys) sched (pool_new (nw + nr)) in
  match join_all nw p with
  | None => st_ret None
  | Some rw =>
      let* rw := st_lift rw in
      let* r := concurrent_tail cfg rw.1 rw.2 in
      let* l := st_lift (print_all ([(LWrite, r_write r); (LReadPlain, r_read r);
                                     (LRange (range_window cfg), r_range r)] ++ tail_titles cfg r)) in
      st_ret (Some (l, aggregate rw.1 rw.2))
  end.

(** ** Mixed mode *)

(** Every thread goes round the keys until it sees [stop]. *)
Definition mixed_script (cfg : BenchConfig) : Script :=
  mkScript
    (fun i n stop =>
       if stop then Ok None
       else if len (keys_of cfg) =? 0 then Panic
       else
         let? k := index (keys_of cfg) (Z.of_nat n mod len (keys_of cfg)) in
         Ok (Some (if (i <? Z.to_nat (n_writers cfg))%nat then write_x cfg k else CRead k)))
    (fun i => (Z.to_nat (n_writers cfg) <=? i)%nat).

Definition mixed (cfg : BenchConfig) (sched : list Turn)
    : ST (BenchState St) (Blocking (list (Label * option Report) * Aggregate)) :=
  let nw := Z.to_nat (n_writers cfg) in
  let nr := Z.to_nat (n_readers cfg) in
  let* p := pool_run (mixed_script cfg) sched (pool_new (nw + nr)) in
  match (if stop p then join_all nw p else None) with
  | None => st_ret None
  | Some rw =>
      let* rw := st_lift rw in
      let* l := st_lift (print_all [(LWriteMixed, rw.1); (LReadMixed, rw.2)]) in
      st_ret (Some (l, aggregate rw.1 rw.2))
  end.
End Modes.

(** ** Arguments *)

Section Arguments.
(** The parsers of socket addresses, which gives an address back in its
    canonical form, and of floating point numbers. *)
Context (parse_addr : str -> option str) (parse_f64 : str -> option spec_float).

(** [(0.0..=1.0).contains(&r)]. *)
Definition unit_interval (r : spec_float) : bool := f_le f64_zero r && f_le r (as_f64 1).

Inductive BenchFlag :=
  | FHost | FCount | FValueSize | FMissRatio | FMode | FWriters | FReaders | FRangeWindow
  | FDeleteRatio | FOverwriteRounds | FZipf | FMixedDuration.

Definition bench_flags : list (str * BenchFlag) :=
  [(bs "-h", FHost); (bs "--host", FHost); (bs "-n", FCount); (bs "--count", FCount);
   (bs "-s", FValueSize); (bs "--value-size", FValueSize);
   (bs "-m", FMissRatio); (bs "--miss-ratio", FMissRatio); (bs "--mode", FMode);
   (bs "--writers", FWriters); (bs "--readers", FReaders);
   (bs "-r", FRangeWindow); (bs "--range-window", FRangeWindow);
   (bs "-d", FDeleteRatio); (bs "--delete-ratio", FDeleteRatio);
   (bs "-o", FOverwriteRounds); (bs "--overwrite-rounds", FOverwriteRounds);
   (bs "--zipf", FZipf); (bs "--mixed-duration", FMixedDuration)].

Fixpoint find_bench_flag (arg : str) (l : list (str * BenchFlag)) : option BenchFlag :=
  match l with
  | [] => None
  | (n, f) :: l' => if decide (arg = n) then Some f else find_bench_flag arg l'
  end.

Definition default_config : BenchConfig :=
  mkBenchConfig (bs "127.0.0.1:6666") 10000 100 f64_zero 100 f64_zero 0 None 4 4 10.

(** [expect] on the value of a flag, and the [assert!] after it. *)
Definition expect_if {A} (ok : A -> bool) (o : option A) : result A :=
  let? a := unwrap o in if ok a then Ok a else Panic.

Definition apply_bench_flag (cfg : BenchConfig) (mode : str) (f : BenchFlag) (v : str)
    : result (BenchConfig * str) :=
  let 'mkBenchConfig h n vs m rw d o z w r md := cfg in
  match f with
  | FHost => let? a := unwrap (parse_addr v) in Ok (mkBenchConfig a n vs m rw d o z w r md, mode)
  | FCount => let? n := unwrap (parse_uint 64 v) in Ok (mkBenchConfig h n vs m rw d o z w r md, mode)
  | FValueSize => let? vs := unwrap (parse_uint 64 v) in Ok (mkBenchConfig h n vs m rw d o z w r md, mode)
  | FMissRatio =>
      let? m := expect_if unit_interval (parse_f64 v) in Ok (mkBenchConfig h n vs m rw d o z w r md, mode)
  | FMode => Ok (cfg, v)
  | FWriters => let? w := unwrap (parse_uint 64 v) in Ok (mkBenchConfig h n vs m rw d o z w r md, mode)
  | FReaders => let? r := unwrap (parse_uint 64 v) in Ok (mkBenchConfig h n vs m rw d o z w r md, mode)
  | FRangeWindow => let? rw := unwrap (parse_uint 64 v) in Ok (mkBenchConfig h n vs m rw d o z w r md, mode)
  | FDeleteRatio =>
      let? d := expect_if unit_interval (parse_f64 v) in Ok (mkBenchConfig h n vs m rw d o z w r md, mode)
  | FOverwriteRounds => let? o := unwrap (parse_uint 64 v) in Ok (mkBenchConfig h n vs m rw d o z w r md, mode)
  | FZipf =>
      let? s := expect_if (fun s => f_gt s f64_zero) (parse_f64 v) in
      Ok (mkBenchConfig h n vs m rw d o (Some s) w r md, mode)
  | FMixedDuration => let? md := unwrap (parse_uint 64 v) in Ok (mkBenchConfig h n vs m rw d o z w r md, mode)
  end.

(** [None] when the help is printed. *)
Fixpoint bench_args (cfg : BenchConfig) (mode : str) (args : list str)
    : result (option (BenchConfig * str)) :=
  match args with
  | [] => Ok (Some (cfg, mode))
  | arg :: rest =>
      if decide (arg = bs "--help") then Ok None
      else
        match find_bench_flag arg bench_flags with
        | None => bench_args cfg mode rest
        | Some f =>
            match rest with
            | [] => Ok (Some (cfg, mode))
            | v :: rest' => let? cm := apply_bench_flag cfg mode f v in bench_args cm.1 cm.2 rest'
            end
        end
  end.

(** The four [assert!] of [main]. *)
Definition config_asserts (cfg : BenchConfig) : bool :=
  (0 <? bc_count cfg) && (0 <? value_size cfg) && (0 <? n_writers cfg) && (0 <? n_readers cfg).

Inductive Mode := Sequential | Concurrent | Mixed.

(** What [main] goes on with: nothing after the help, an exit with status 1 for
    an unknown mode, or a mode to run. *)
Inductive Start := Help | BadMode | RunMode (m : Mode) (cfg : BenchConfig).

Definition kvbench_main (args : list str) : result Start :=
  let? o := bench_args default_config (bs "sequential") (drop 1 args) in
  match o with
  | None => Ok Help
  | Some (cfg, mode) =>
      if negb (config_asserts cfg) then Panic
      else
        Ok (if decide (mode = bs "sequential") then RunMode Sequential cfg
            else if decide (mode = bs "concurrent") then RunMode Concurrent cfg
            else if decide (mode = bs "mixed") then RunMode Mixed cfg
            else BadMode)
  end.
End Arguments.

(** ** Theorems: arguments *)

(** What [main] makes sure of before it runs a mode. *)
Record accepted (cfg : BenchConfig) : Prop := {
  ac_count : 0 < bc_count cfg < 2 ^ 64;
  ac_value : 0 < value_size cfg < 2 ^ 64;
  ac_writers : 0 < n_writers cfg < 2 ^ 64;
  ac_readers : 0 < n_readers cfg < 2 ^ 64;
  ac_miss : unit_interval (miss_ratio cfg) = true;
  ac_delete : unit_interval (delete_ratio cfg) = true;
  ac_zipf s : zipf_s cfg = Some s -> f_gt s f64_zero = true;
  ac_window : is_u64 (range_window cfg);
  ac_rounds : is_u64 (overwrite_rounds cfg);
  ac_duration : is_u64 (mixed_duration cfg);
}.

(** The same before the assertions of [main]. *)
Record parsed_config (cfg : BenchConfig) : Prop := {
  pc_count : is_u64 (bc_count cfg);
  pc_value : is_u64 (value_size cfg);
  pc_writers : is_u64 (n_writers cfg);
  pc_readers : is_u64 (n_readers cfg);
  pc_miss : unit_interval (miss_ratio cfg) = true;
  pc_delete : unit_interval (delete_ratio cfg) = true;
  pc_zipf s : zipf_s cfg = Some s -> f_gt s f64_zero = true;
  pc_window : is_u64 (range_window cfg);
  pc_rounds : is_u64 (overwrite_rounds cfg);
  pc_duration : is_u64 (mixed_duration cfg);
}.

Section ArgumentTheorems.
Context (parse_addr : str -> option str) (parse_f64 : str -> option spec_float).

Lemma expect_if_Ok {A} (ok : A -> bool) o a : expect_if ok o = Ok a -> ok a = true.
Proof. unfold expect_if. destruct o as [x|]; cbn; [|done]. destruct (ok x) eqn:E; [|done]. by intros [= <-]. Qed.

Lemma unwrap_uint v n : unwrap (parse_uint 64 v) = Ok n -> is_u64 n.
Proof. destruct (parse_uint 64 v) eqn:E; [|done]. intros [= <-]. by eapply parse_uint_range. Qed.

Lemma apply_flag_parsed cfg mode f v cfg' mode' :
  parsed_config cfg -> apply_bench_flag parse_addr parse_f64 cfg mode f v = Ok (cfg', mode') ->
  parsed_config cfg'.
Proof.
  intros Hp. destruct cfg. pose proof Hp as [].
  destruct f; cbn [apply_bench_flag];
    try (intros [a [Ha [= <- <-]]]%rbind_Ok; apply unwrap_uint in Ha; by split);
    try (intros [a [Ha [= <- <-]]]%rbind_Ok; apply expect_if_Ok in Ha; split; try done; cbn; congruence);
    [intros [a [Ha [= <- <-]]]%rbind_Ok; by split | by intros [= <- <-]].
Qed.

Lemma bench_args_parsed args : forall cfg mode cfg' mode',
  parsed_config cfg -> bench_args parse_addr parse_f64 cfg mode args = Ok (Some (cfg', mode')) ->
  parsed_config cfg'.
Proof.
  induction args as [args IH] using (well_founded_ind (well_founded_ltof _ length)).
  intros cfg mode cfg' mode' Hp. destruct args as [|arg [|v rest]]; cbn [bench_args].
  - by intros [= <- <-].
  - case_decide; [done|]. destruct (find_bench_flag arg bench_flags); by intros [= <- <-].
  - case_decide; [done|]. destruct (find_bench_flag arg bench_flags) as [f|].
    + intros [[cfg1 mode1] [Ha Hr]]%rbind_Ok. cbn [fst snd] in Hr.
      eapply (IH rest); [unfold ltof; cbn; lia | | exact Hr]. by eapply apply_flag_parsed.
    + apply (IH (v :: rest)); [unfold ltof; cbn; lia | done].
Qed.

Lemma default_parsed : parsed_config default_config.
Proof. split; try (split; vm_compute; congruence); try reflexivity. done. Qed.

(** The load generator never runs a mode with a configuration that makes no
    sense. Whatever its arguments, when [main] goes on to a mode the number of
    keys, the size of the values and the numbers of threads are positive and fit
    their type, both ratios are between zero and one (and not NaN), and the
    exponent of the distribution, if there is one, is positive. *)
Theorem main_accepts args mode cfg :
  kvbench_main parse_addr parse_f64 args = Ok (RunMode mode cfg) -> accepted cfg.
Proof.
  unfold kvbench_main. intros [[[cfg' md]|] [Ha Hr]]%rbind_Ok; [|done].
  apply bench_args_parsed in Ha as []; [|exact default_parsed].
  destruct (config_asserts cfg') eqn:Ec; cbn [negb] in Hr; [|done].
  assert (E : cfg' = cfg) by (repeat case_decide; congruence). subst cfg'.
  unfold config_asserts in Ec. rewrite !andb_true_iff, !Z.ltb_lt in Ec.
  unfold is_uint in *. split; try done; lia.
Qed.
End ArgumentTheorems.

Definition example_float (s : str) : option spec_float :=
  if decide (s = bs "0.5") then Some f64_half else None.

Lemma main_accepts_witness :
  exists cfg, kvbench_main Some example_float
      [bs "kvbench"; bs "-m"; bs "0.5"; bs "-n"; bs "20"; bs "--mode"; bs "mixed"] = Ok (RunMode Mixed cfg) /\
    accepted cfg.
Proof.
  eexists. split; [vm_compute; reflexivity|].
  apply (main_accepts Some example_float
    [bs "kvbench"; bs "-m"; bs "0.5"; bs "-n"; bs "20"; bs "--mode"; bs "mixed"] Mixed).
  vm_compute. reflexivity.
Defined.
