(* ===== verification/KvbenchTheorems.v ===== *)
(** * The load generator against the server

    What the phases of the load generator measure when they run against any
    engine that keeps the laws of [Store], through connections on which a
    worker answers each request ([ServerPeer]). *)

From S2P Require Import Prelude Utf8 Text Words Record Settings HashIndex World Engine KvEngine KvLog.
From S2P Require Import KvInv KvOps KvSpec KvTheorems Bffp Float Stats Dispatch Connection Worker.
From S2P Require Import Session Cli Store ServerTheorems Client Bench Kvbench.

(** ** Requests of the load generator *)

Definition bench_request (c : Command) : Prop :=
  match c with
  | CWrite k v None => key_ok k /\ kv_ok k v None
  | CRead k => key_ok k
  | CDelete k => key_ok k /\ kv_ok k [] None
  | _ => False
  end.

(** What a request does to the map. *)
Definition after (m : kvmap) (c : Command) : kvmap :=
  match c with
  | CWrite k v _ => <[k := (v, None)]> m
  | CDelete k => delete k m
  | _ => m
  end.

Lemma bench_pipeline c :
  bench_request c -> exists frame, encode_command c = Ok frame /\ pipeline [c] frame.
Proof.
  intros Hc.
  assert (Hok : command_ok c /\ 1 + len (command_body c) <= MAX_REQUEST_BYTES).
  { unfold MAX_REQUEST_BYTES, MAX_KEY_SIZE, MAX_VALUE_SIZE.
    destruct c; try done; cbn [bench_request command_ok command_body] in *.
    - rewrite put_key_len. destruct Hc. split; [done | lia].
    - destruct ttl as [x|]; [done|]. destruct Hc as [[H1 H2] [H3 H4 H5 H6 _]]. unfold MAX_VALUE_SIZE in *.
      rewrite put_item_len. cbn [ttl_size item_ok]. split; [|lia]. repeat split; try done; lia.
    - destruct Hc as [[? ?] _]. rewrite put_key_len. split; [done | lia]. }
  destruct Hok as [Hok Hlen].
  assert (Hf : frame_fits c) by (unfold frame_fits, MAX_REQUEST_BYTES, MAX_KEY_SIZE, MAX_VALUE_SIZE in *; lia).
  pose proof (encode_command_frame c Hok Hf) as He. eexists. split; [exact He|].
  rewrite <- (app_nil_r (_ ++ _)). constructor; try done; [|constructor].
  rewrite len_app, len_cons. unfold len at 1. rewrite length_to_be. lia.
Qed.

(** ** The interface to the server *)

(** Connections on which each request is executed by [dispatch] and answered.
    [sp_open s c]: connection [c] is open and idle; [sp_good k s]: [k] more
    connections can be made. *)
Class ServerPeer (ccfg : CompactionCfg) (S St : Type) `{SE : StorageEngine S} `{HW : HasWorld S} `{CK : Clock}
    `{ET : ErrorText} `{SW : Stopwatch} `{PE : Peer St} := {
  sp_server : St -> Server S;
  sp_open : St -> Z -> Prop;
  sp_good : nat -> St -> Prop;
  sp_connect k s : sp_good (Datatypes.S k) s ->
    exists c s', connect s = (s', Ok c) /\ sp_server s' = count_connections 1 (sp_server s) /\
      sp_good k s' /\ sp_open s' c /\ forall d, sp_open s d -> sp_open s' d /\ d <> c;
  sp_answer k s c cmd frame srv resp :
    sp_good k s -> sp_open s c -> pipeline [cmd] frame -> dispatch ccfg cmd (sp_server s) = (srv, Ok resp) ->
    exists s', answer c frame s = (s', Ok resp) /\ sp_server s' = srv /\ sp_good k s' /\
      forall d, sp_open s d -> sp_open s' d;
}.

(** ** A worker keeps it *)

Section WorkerPeer.
Context {S : Type} `{SE : StorageEngine S} `{HW : HasWorld S} `{CK : Clock} `{ET : ErrorText}
  `{SW : Stopwatch} (ccfg : CompactionCfg) (net : bytes -> list Event) `{NW : !Network net}.

(** The acceptor sends a connection to the worker, which takes it when it is
    woken; the requests come as the network brings them. *)
#[export] Instance worker_peer : Peer (WorkerState S) := {
  connect := fun st =>
    let h := st.1 in
    let h' := mkWorker (incoming h ++ [0]) (conns h) (next_token h) (read_timeout h) (sweep_timer h) in
    let '(st', r) := on_wake (fun _ => true) 0 (h', st.2) in
    (st', let? _ := r in Ok (next_token h));
  answer := fun c frame => served ccfg c net frame;
}.

(** A request on a connection leaves the others alone. *)
Lemma on_event_frame token ev (st : WorkerState S) d :
  d <> token ->
  conns (on_event ccfg token ev st).1.1 !! d = conns st.1 !! d /\
  next_token (on_event ccfg token ev st).1.1 = next_token st.1 /\
  incoming (on_event ccfg token ev st).1.1 = incoming st.1.
Proof.
  intros Hd. destruct st as [h s]. unfold on_event. cbn [fst].
  destruct (conns h !! token) as [c|]; [|done].
  destruct (handle_readable ccfg ev c s) as [s1 [[c1 hard]|e|]]; cbn; try (by rewrite lookup_delete_ne).
  destruct (handle_writable ev c1 hard) as [[c2 sent] hc].
  destruct (hc || _); [|destruct (reregister_ok ev)]; cbn; rewrite ?lookup_insert_ne, ?lookup_delete_ne by done; done.
Qed.

Lemma deliver_frame token evs : forall (st : WorkerState S) d,
  d <> token ->
  conns (deliver ccfg token evs st).1.1 !! d = conns st.1 !! d /\
  next_token (deliver ccfg token evs st).1.1 = next_token st.1 /\
  incoming (deliver ccfg token evs st).1.1 = incoming st.1.
Proof.
  induction evs as [|ev evs IH]; intros st d Hd; [done|]. cbn [deliver]. unfold st_bind.
  destruct (on_event_frame token ev st d Hd) as (H1 & H2 & H3).
  destruct (on_event ccfg token ev st) as [st1 [sent| |]]; try done. cbn [fst] in *.
  destruct (IH st1 d Hd) as (H4 & H5 & H6). destruct (deliver ccfg token evs st1) as [st2 [rest| |]];
    cbn in *; split_and!; congruence.
Qed.

Lemma served_frame token frame (st : WorkerState S) d :
  d <> token ->
  conns (served ccfg token net frame st).1.1 !! d = conns st.1 !! d /\
  next_token (served ccfg token net frame st).1.1 = next_token st.1 /\
  incoming (served ccfg token net frame st).1.1 = incoming st.1.
Proof.
  intros Hd. unfold served, st_bind. destruct (deliver_frame token (net frame) st d Hd) as (H1 & H2 & H3).
  destruct (deliver ccfg token (net frame) st) as [st1 [sent| |]]; try done. cbn [fst] in *. unfold drain.
  match goal with |- context [on_event ccfg token ?ev st1] =>
    destruct (on_event_frame token ev st1 d Hd) as (H4 & H5 & H6);
    destruct (on_event ccfg token ev st1) as [st2 [rest| |]] end; cbn in *; split_and!; congruence.
Qed.

(** Tokens are handed out in order; [k] more do not go round the counter. *)
Definition tokens_left (k : nat) (st : WorkerState S) : Prop :=
  incoming st.1 = [] /\ 0 <= next_token st.1 /\ next_token st.1 + Z.of_nat k < 2 ^ 64 /\
  forall t, next_token st.1 <= t -> conns st.1 !! t = None.

Lemma open_frame h h' d p out : conns h' !! d = conns h !! d -> open h d p out -> open h' d p out.
Proof. intros E [(c & Hc & H) H2 H3]. split; [|done|done]. exists c. by rewrite E. Qed.

Definition worker_open (st : WorkerState S) (c : Z) : Prop :=
  c < next_token st.1 /\ open st.1 c parser_new [].

#[export] Instance worker_serves : ServerPeer ccfg S (WorkerState S).
Proof.
  refine {| sp_server := snd; sp_open := worker_open; sp_good := tokens_left |}.
  - intros k [h s] (Hin & H0 & Hk & Hfresh). cbn [fst snd] in *. eexists (next_token h), _.
    split; [cbn; rewrite Hin; reflexivity|]. cbn [fst snd incoming conns next_token].
    rewrite (Hfresh (next_token h)), wrap_small by (lia || split; lia).
    split; [done|]. split; [split_and!; cbn; try lia; [done|]|].
    { intros t Ht. rewrite lookup_insert_ne by lia. apply Hfresh. lia. }
    split; [split; [cbn; lia|]; by eapply open_new; cbn; apply lookup_insert_eq|].
    intros d [Hd Ho]. cbn [fst] in Hd. split; [|lia]. split; [cbn; lia|].
    eapply open_frame; [|exact Ho]. cbn. by rewrite lookup_insert_ne by lia.
  - intros k [h s] c cmd frame srv resp (Hin & H0 & Hk & Hfresh) [Hc Ho] Hp Hd. cbn [fst snd] in *.
    destruct (served_run ccfg c net h s cmd frame srv resp Ho Hp Hd) as (h' & E & Ho').
    assert (Hfr : forall d, d <> c -> conns h' !! d = conns h !! d /\ next_token h' = next_token h /\
        incoming h' = incoming h).
    { intros d Hdc. pose proof (served_frame c frame (h, s) d Hdc) as Hf. rewrite E in Hf. exact Hf. }
    assert (Hn : next_token h' = next_token h /\ incoming h' = incoming h)
      by (destruct (Hfr (c + 1)) as (_ & ? & ?); [lia | done]).
    destruct Hn as [Hn Hi]. exists (h', srv). split; [exact E|]. split; [done|].
    split; [unfold tokens_left; cbn [fst]; rewrite Hn, Hi; split_and!; try done|].
    { intros t Ht. rewrite (proj1 (Hfr t ltac:(lia))). by apply Hfresh. }
    intros d [Hlt Hod]. split; [cbn [fst] in *; lia|]. destruct (decide (d = c)) as [->|Hne]; [done|].
    eapply open_frame; [|exact Hod]. by apply Hfr.
Defined.
End WorkerPeer.

(** ** Phases *)

Section Phases.
Context (N : nat) {S : Type} `{SE : StorageEngine S} `{HW : HasWorld S} `{TK : Ticking S} `{CK : Clock}
  `{ST0 : !Store N S} `{ET : ErrorText} `{SW : Stopwatch}.
Context (ccfg : CompactionCfg) {St : Type} `{PE : Peer St} `{SP : !ServerPeer ccfg S St}
  `{IN : Instants} `{LM : Libm}.

Implicit Types (st : BenchState St) (m : kvmap).

Definition server_of st : Server S := sp_server (peer_state st).

(** The connection [c] is idle, and the engine holds [m]. *)
Record ready (k : nat) st (c : Z) m : Prop := {
  rd_good : sp_good k (peer_state st);
  rd_open : sp_open (peer_state st) c;
  rd_inbox : default [] (inbox st !! c) = [];
  rd_store : store_inv (database (server_of st)) m;
}.

(** A request whose answer is known: a key that is read is absent, or has a value
    without an expiry that fits. *)
Definition known m (c : Command) : Prop :=
  bench_request c /\
  match c with
  | CRead k => m !! k = None \/ exists v, m !! k = Some (v, None) /\ kv_ok k v None
  | _ => True
  end.

Definition expected m (c : Command) (r : SendResult) : Prop :=
  match c with
  | CWrite _ _ _ => r = Hit
  | CRead k => r = match m !! k with None => Miss | Some _ => Hit end
  | _ => True
  end.

(** The answer to a request, decoded. *)
Definition answered (status : ResponseStatus) (rows : list str) : Prop :=
  Forall (fun r => utf8_valid r = true) rows /\ 1 + sum_len (fun r => 4 + len r) rows < 2 ^ 32 /\
  status <> StError.

Definition hit_or_miss (status : ResponseStatus) : SendResult :=
  match status with StNotFound => Miss | _ => Hit end.

Lemma read_outcome_frame status rows :
  answered status rows -> read_outcome (encode_frame status rows) = Ok (hit_or_miss status, []).
Proof.
  intros (Hv & Hl & Hs). pose proof (response_decoded status rows [] Hv Hl) as Hd. rewrite app_nil_r in Hd.
  destruct (encode_frame_parts status rows Hl) as [E Hlen]. rewrite E in *.
  match goal with |- read_outcome (_ ++ ?p) = _ => set (payload := p) in * end.
  pose proof (len_nonneg payload). unfold read_outcome.
  erewrite rd_bind_Ok by (by apply read_exact_app; unfold len; rewrite length_to_be).
  rewrite from_be_to_be_small by lia.
  erewrite rd_bind_Ok by (rewrite <- (app_nil_r payload) at 2; by apply read_exact_app).
  rewrite Hd. by destruct status.
Qed.

Lemma request_run cmd (s : Server S) m :
  known m cmd -> store_inv (database s) m -> (ticks_of (database (dispatch ccfg cmd s).1) <= N)%nat ->
  exists s' status rows, dispatch ccfg cmd s = (s', Ok (encode_frame status rows)) /\
    store_inv (database s') (after m cmd) /\ answered status rows /\ expected m cmd (hit_or_miss status).
Proof.
  intros [Hb Hk] Hi Ht. destruct cmd; try done; cbn [bench_request] in Hb.
  - destruct (read_request N ccfg s m key Hi Ht) as (s' & i & E & Hi'). unfold spec_get in E.
    destruct Hk as [Hk|(v & Hk & Hv)]; rewrite Hk in E; cbn in E; (eexists _, _, _; split; [exact E|]).
    + split; [done|]. split; [by split_and!|]. cbn. by rewrite Hk.
    + split; [done|]. split; [|cbn; by rewrite Hk]. destruct Hv as [_ Hv _ Hu _].
      unfold MAX_VALUE_SIZE in Hv. split_and!; [by constructor | cbn; lia | done].
  - destruct ttl; [done|]. destruct (write_request N ccfg s m key value Hi (proj2 Hb) Ht) as (s' & E & Hi').
    eexists _, _, _. split; [exact E|]. split; [done|]. split; [by split_and! | done].
  - destruct (delete_request N ccfg s m key Hi (proj2 Hb) Ht) as (s' & status & E & Hst & Hi').
    eexists _, _, _. split; [exact E|]. split; [done|]. split; [|done].
    destruct Hst as [[-> _]|[-> _]]; by split_and!.
Qed.

(** What a request leaves alone: the other connections. *)
Definition keeps st st' : Prop :=
  (forall d, sp_open (peer_state st) d -> sp_open (peer_state st') d) /\
  (forall d, default [] (inbox st !! d) = [] -> default [] (inbox st' !! d) = []).

Lemma send_run k st c m cmd :
  ready k st c m -> known m cmd -> (ticks_of (database (dispatch ccfg cmd (server_of st)).1) <= N)%nat ->
  exists st' r, send_command c cmd st = (st', Ok r) /\ ready k st' c (after m cmd) /\
    server_of st' = (dispatch ccfg cmd (server_of st)).1 /\ expected m cmd r /\ keeps st st'.
Proof.
  intros [H1 H2 H3 H4] Hk Ht. destruct (bench_pipeline cmd (proj1 Hk)) as (frame & Ef & Hp).
  destruct (request_run cmd (server_of st) m Hk H4 Ht) as (srv & status & rows & Ed & Hi & Ha & Hx).
  destruct (sp_answer k (peer_state st) c cmd frame srv _ H1 H2 Hp Ed) as (s' & Es & Hs & Hg & Ho).
  eexists _, (hit_or_miss status). split.
  - unfold send_command. rewrite Ef. erewrite st_bind_Ok by reflexivity. unfold exchange. rewrite Es, H3.
    cbn [app]. by rewrite read_outcome_frame.
  - split; [|split; [unfold server_of at 1; cbn [peer_state]; by rewrite Ed, Hs | split; [done|]]].
    + split; cbn [peer_state inbox]; [done | by apply Ho | by rewrite lookup_insert_eq |].
      unfold server_of. cbn. by rewrite Hs.
    + split; cbn [peer_state inbox]; [exact Ho|]. intros d Hd. destruct (decide (d = c)) as [->|].
      * by rewrite lookup_insert_eq.
      * by rewrite lookup_insert_ne.
Qed.

(** ** Several requests *)

Fixpoint known_all m (cmds : list Command) : Prop :=
  match cmds with
  | [] => True
  | c :: cmds' => known m c /\ known_all (after m c) cmds'
  end.

(** The misses of requests that are not deletions. *)
Fixpoint misses_of m (cmds : list Command) : Z :=
  match cmds with
  | [] => 0
  | c :: cmds' =>
      (match c with CRead k => match m !! k with None => 1 | Some _ => 0 end | _ => 0 end)
      + misses_of (after m c) cmds'
  end.

Definition no_delete (c : Command) : Prop := match c with CDelete _ => False | _ => True end.

Definition serve_all (cmds : list Command) (s : Server S) : Server S :=
  fold_left (fun s c => (dispatch ccfg c s).1) cmds s.

Lemma serve_all_app a b s : serve_all (a ++ b) s = serve_all b (serve_all a s).
Proof. apply fold_left_app. Qed.

Lemma serve_all_mono cmds s :
  Forall bench_request cmds -> (ticks_of (database s) <= ticks_of (database (serve_all cmds s)))%nat.
Proof.
  intros Hf. revert s. induction Hf as [|c cmds Hc _ IH]; intros s; [done|].
  etrans; [apply (simple_request_mono N ccfg c)|apply IH]. by destruct c; try done; destruct ttl.
Qed.

Lemma known_requests m cmds : known_all m cmds -> Forall bench_request cmds.
Proof. revert m. induction cmds as [|c cmds IH]; intros m; [done|]. intros [[H _] H']. constructor; eauto. Qed.

Lemma known_all_app m a b : known_all m (a ++ b) <-> known_all m a /\ known_all (fold_left after a m) b.
Proof. revert m. induction a as [|c a IH]; intros m; cbn; [tauto|]. rewrite IH. tauto. Qed.

(** Reading the time changes nothing else. *)
Lemma ready_tick k st c m n : ready k st c m -> ready k (mkBench (peer_state st) (inbox st) n) c m.
Proof. by intros [H1 H2 H3 H4]. Qed.

Lemma timed_run k st c m cmd :
  ready k st c m -> known m cmd -> (ticks_of (database (dispatch ccfg cmd (server_of st)).1) <= N)%nat ->
  exists st' r d, timed c cmd st = (st', Ok (r, d)) /\ ready k st' c (after m cmd) /\
    server_of st' = (dispatch ccfg cmd (server_of st)).1 /\ expected m cmd r /\ 0 <= d /\ keeps st st'.
Proof.
  intros Hr Hk Ht. unfold timed. erewrite (st_bind_Ok now) by reflexivity.
  destruct (send_run k _ c m cmd (ready_tick k st c m (Datatypes.S (instants_read st)) Hr) Hk Ht)
    as (st1 & r & E & Hr1 & Hs & Hx & Hkp).
  rewrite (st_bind_Ok _ _ _ _ _ E). unfold elapsed_since, st_bind, now. cbn.
  eexists _, r, _. split; [reflexivity|]. split; [by apply ready_tick|]. split; [done|].
  split; [done|]. split; [lia | exact Hkp].
Qed.

Lemma loop_run k c cmds : forall st m,
  ready k st c m -> known_all m cmds -> (ticks_of (database (serve_all cmds (server_of st))) <= N)%nat ->
  exists st' ds n, timed_loop c cmds st = (st', Ok (ds, n)) /\ ready k st' c (fold_left after cmds m) /\
    server_of st' = serve_all cmds (server_of st) /\ length ds = length cmds /\
    Forall (fun d => 0 <= d) ds /\ (Forall no_delete cmds -> n = misses_of m cmds).
Proof.
  induction cmds as [|cmd cmds IH]; intros st m Hr Hk Ht; cbn [timed_loop known_all] in *.
  { exists st, [], 0. by split_and!. }
  destruct Hk as [Hk Hks].
  destruct (timed_run k st c m cmd Hr Hk) as (st1 & r & d & E & Hr1 & Hs & Hx & Hd & _).
  { etrans; [|exact Ht]. apply (serve_all_mono cmds (dispatch ccfg cmd (server_of st)).1).
    by eapply known_requests. }
  rewrite (st_bind_Ok _ _ _ _ _ E).
  destruct (IH st1 _ Hr1 Hks) as (st2 & ds & n & E2 & Hr2 & Hs2 & Hl & Hf & Hn); [by rewrite Hs|].
  rewrite (st_bind_Ok _ _ _ _ _ E2). eexists _, _, _. split; [reflexivity|]. split; [exact Hr2|].
  split; [rewrite Hs2, Hs; done|]. split; [cbn; by f_equal|]. split; [by constructor|].
  intros [Hd1 Hd2]%Forall_cons. cbn [fst snd misses_of]. rewrite (Hn Hd2). f_equal.
  destruct cmd; cbn in Hx, Hd1; try done; try (by subst); try (by destruct Hk).
  subst r. by destruct (m !! key).
Qed.

Lemma phase_run counted k c cmds st m :
  ready k st c m -> known_all m cmds -> (ticks_of (database (serve_all cmds (server_of st))) <= N)%nat ->
  exists st' p, phase counted c cmds st = (st', Ok p) /\ ready k st' c (fold_left after cmds m) /\
    server_of st' = serve_all cmds (server_of st) /\ length (latencies p) = length cmds /\
    Forall (fun d => 0 <= d) (latencies p) /\
    (counted = true -> Forall no_delete cmds -> misses p = misses_of m cmds) /\
    (counted = false -> misses p = 0).
Proof.
  intros Hr Hk Ht. unfold phase. erewrite (st_bind_Ok now) by reflexivity.
  destruct (loop_run k c cmds _ m (ready_tick k st c m (Datatypes.S (instants_read st)) Hr) Hk Ht)
    as (st1 & ds & n & E & Hr1 & Hs & Hl & Hf & Hn).
  rewrite (st_bind_Ok _ _ _ _ _ E). unfold elapsed_since, st_bind, now. cbn.
  eexists _, _. split; [reflexivity|]. split; [by apply ready_tick|]. split; [done|].
  cbn [latencies misses fst snd]. split; [done|]. split; [done|]. split; intros ->; auto.
Qed.

(** A phase with more to come after it. *)
Lemma phase_then counted k c cmds rest st m :
  ready k st c m -> known_all m (cmds ++ rest) ->
  (ticks_of (database (serve_all (cmds ++ rest) (server_of st))) <= N)%nat ->
  exists st' p, phase counted c cmds st = (st', Ok p) /\ ready k st' c (fold_left after cmds m) /\
    (ticks_of (database (serve_all rest (server_of st'))) <= N)%nat /\
    known_all (fold_left after cmds m) rest /\ len (latencies p) = len cmds /\
    (counted = true -> Forall no_delete cmds -> misses p = misses_of m cmds) /\
    (counted = false -> misses p = 0) /\ server_of st' = serve_all cmds (server_of st).
Proof.
  intros Hr [Hk Hk2]%known_all_app Ht. rewrite serve_all_app in Ht.
  destruct (phase_run counted k c cmds st m Hr Hk) as (st' & p & E & Hr' & Hs & Hl & _ & Hm & Hm0).
  { etrans; [|exact Ht]. apply serve_all_mono. by eapply known_requests. }
  exists st', p. split; [exact E|]. split; [done|]. split; [by rewrite Hs|]. split; [done|].
  split; [unfold len; by rewrite Hl|]. done.
Qed.

(** ** What the workload does to the map *)

Lemma after_writes v ks m k :
  fold_left after (map (fun k => CWrite k v None) ks) m !! k
  = if decide (k ∈ ks) then Some (v, None) else m !! k.
Proof.
  revert m. induction ks as [|k1 ks IH]; intros m; cbn [map fold_left]; [done|].
  rewrite IH. cbn [after]. destruct (decide (k ∈ ks)) as [Hin|Hin].
  - by rewrite decide_True by (by right).
  - destruct (decide (k = k1)) as [->|Hne].
    + rewrite lookup_insert_eq, decide_True; [done | by left].
    + rewrite lookup_insert_ne, decide_False by (done || by rewrite elem_of_cons; intros []). done.
Qed.

Lemma after_deletes ks m k :
  fold_left after (map CDelete ks) m !! k = if decide (k ∈ ks) then None else m !! k.
Proof.
  revert m. induction ks as [|k1 ks IH]; intros m; cbn [map fold_left]; [done|].
  rewrite IH. cbn [after]. destruct (decide (k ∈ ks)) as [Hin|Hin].
  - by rewrite decide_True by (by right).
  - destruct (decide (k = k1)) as [->|Hne].
    + rewrite lookup_delete_eq, decide_True; [done | by left].
    + rewrite lookup_delete_ne, decide_False by (done || by rewrite elem_of_cons; intros []). done.
Qed.

Lemma after_reads ks m : fold_left after (map CRead ks) m = m.
Proof. by induction ks. Qed.

Lemma known_writes v ks m :
  (forall k, k ∈ ks -> key_ok k /\ kv_ok k v None) -> known_all m (map (fun k => CWrite k v None) ks).
Proof.
  revert m. induction ks as [|k ks IH]; intros m Hk; cbn [map known_all]; [done|].
  split; [split; [apply Hk; left | done]|]. apply IH. intros. apply Hk. by right.
Qed.

Lemma known_deletes ks m :
  (forall k, k ∈ ks -> key_ok k /\ kv_ok k [] None) -> known_all m (map CDelete ks).
Proof.
  revert m. induction ks as [|k ks IH]; intros m Hk; cbn [map known_all]; [done|].
  split; [split; [apply Hk; left | done]|]. apply IH. intros. apply Hk. by right.
Qed.

Lemma known_reads ks m :
  (forall k, k ∈ ks -> key_ok k /\ (m !! k = None \/ exists v, m !! k = Some (v, None) /\ kv_ok k v None)) ->
  known_all m (map CRead ks).
Proof.
  induction ks as [|k ks IH]; intros Hk; cbn [map known_all after]; [done|].
  split; [apply Hk; left|]. apply IH. intros. apply Hk. by right.
Qed.

Lemma misses_reads ks m :
  misses_of m (map CRead ks) = len (List.filter (fun k => bool_decide (m !! k = None)) ks).
Proof.
  induction ks as [|k ks IH]; cbn [map misses_of after List.filter]; [done|]. rewrite IH.
  destruct (m !! k) as [b|].
  - by rewrite bool_decide_eq_false_2.
  - rewrite bool_decide_eq_true_2 by done. rewrite len_cons. lia.
Qed.

Lemma no_delete_reads ks : Forall no_delete (map CRead ks).
Proof. by induction ks; constructor. Qed.

Lemma filter_ext_in {A} (p q : A -> bool) l :
  (forall x, x ∈ l -> p x = q x) -> List.filter p l = List.filter q l.
Proof.
  induction l as [|a l IH]; intros H; cbn; [done|]. rewrite (H a) by left.
  rewrite IH by (intros; apply H; by right). done.
Qed.

(** Repeating the same writes. *)
Lemma after_rounds n v ks m k :
  fold_left after (concat (replicate n (map (fun k => CWrite k v None) ks))) m !! k
  = if decide (k ∈ ks /\ n <> 0%nat) then Some (v, None) else m !! k.
Proof.
  revert m. induction n as [|n IH]; intros m; cbn [replicate concat fold_left].
  { by rewrite decide_False by tauto. }
  rewrite fold_left_app, IH, after_writes.
  destruct (decide (k ∈ ks)); repeat case_decide; tauto || naive_solver.
Qed.

Lemma known_rounds n v ks m :
  (forall k, k ∈ ks -> key_ok k /\ kv_ok k v None) ->
  known_all m (concat (replicate n (map (fun k => CWrite k v None) ks))).
Proof.
  intros Hk. revert m. induction n as [|n IH]; intros m; cbn [replicate concat]; [done|].
  apply known_all_app. split; [by apply known_writes | apply IH].
Qed.

(** ** The last four phases *)

(** A configuration that [main] lets through, with keys that can be counted in
    32 bits, values the engines take, and shares that do not exceed the whole. *)
Record config_ok (cfg : BenchConfig) : Prop := {
  co_count : 0 < bc_count cfg < 2 ^ 32;
  co_value : 0 <= value_size cfg <= MAX_VALUE_SIZE;
  co_miss : fraction (bc_count cfg) (miss_ratio cfg) <= bc_count cfg;
  co_delete : fraction (bc_count cfg) (delete_ratio cfg) <= bc_count cfg;
  co_rounds : 0 <= overwrite_rounds cfg;
}.

Definition delete_count (cfg : BenchConfig) : Z := fraction (bc_count cfg) (delete_ratio cfg).

Lemma fraction_nonneg n r : 0 <= fraction n r.
Proof. by apply f64_to_uint_nonneg. Qed.

Lemma fill_ok c n : 0 <= c < 128 -> 0 <= n -> utf8_valid (fill c n) = true /\ len (fill c n) = n.
Proof.
  intros Hc Hn. unfold fill. split.
  - apply utf8_valid_ascii, Forall_replicate. rewrite u8_as_u8, Z.mod_small; lia.
  - unfold len. rewrite length_replicate. lia.
Qed.

Lemma keys_of_ok cfg k : config_ok cfg -> k ∈ keys_of cfg -> key_ok k.
Proof.
  intros [] (i & Hi & ->)%elem_of_bench_keys. apply bench_key_ok. split; lia.
Qed.

Lemma key_value_ok k c n : key_ok k -> 0 <= c < 128 -> 0 <= n <= MAX_VALUE_SIZE -> kv_ok k (fill c n) None.
Proof.
  intros [H1 H2] Hc Hn. destruct (fill_ok c n Hc) as [Hu Hl]; [lia|].
  split; unfold MAX_KEY_SIZE in *; try done; lia.
Qed.

Lemma deleted_sub cfg : config_ok cfg -> deleted_of cfg ⊆ keys_of cfg.
Proof.
  intros []. apply delete_keys_sub; [apply len_bench_keys; lia|]. split; [apply fraction_nonneg | done].
Qed.

Lemma deleted_length cfg : config_ok cfg -> len (deleted_of cfg) = delete_count cfg.
Proof.
  intros []. apply delete_keys_length; [apply len_bench_keys; lia|]. split; [apply fraction_nonneg | done].
Qed.

Lemma NoDup_keys_of cfg : config_ok cfg -> NoDup (keys_of cfg).
Proof. intros []. apply NoDup_bench_keys. lia. Qed.

Lemma NoDup_deleted cfg : config_ok cfg -> NoDup (deleted_of cfg).
Proof.
  intros Hc. apply NoDup_delete_keys; [apply len_bench_keys; destruct Hc; lia | | by apply NoDup_keys_of].
  destruct Hc. split; [apply fraction_nonneg | done].
Qed.

Lemma surviving_of_length cfg : config_ok cfg -> len (surviving_of cfg) = bc_count cfg - delete_count cfg.
Proof.
  intros Hc. unfold surviving_of.
  rewrite surviving_length; [|by apply NoDup_keys_of | by apply NoDup_deleted | by apply deleted_sub].
  rewrite deleted_length by done. unfold keys_of. rewrite len_bench_keys; [done | destruct Hc; lia].
Qed.

Definition tail_commands (cfg : BenchConfig) : list Command :=
  map CDelete (deleted_of cfg) ++ map CRead (keys_of cfg) ++ overwrite_commands cfg ++
  map CRead (surviving_of cfg).

(** What the last four phases report. *)
Record tail_counts (cfg : BenchConfig) (d pd o po : PhaseResult) : Prop := {
  tc_delete : len (latencies d) = delete_count cfg;
  tc_post_del : len (latencies pd) = bc_count cfg /\ misses pd = delete_count cfg;
  tc_overwrite : len (latencies o) = overwrite_rounds cfg * (bc_count cfg - delete_count cfg);
  tc_post_ow : len (latencies po) = bc_count cfg - delete_count cfg /\ misses po = 0;
}.

(** Every key of the workload has a value. *)
Definition loaded (cfg : BenchConfig) m : Prop :=
  forall k, k ∈ keys_of cfg -> exists v, m !! k = Some (v, None) /\ kv_ok k v None.

(** The map after the deletions, and after the overwrites. *)
Definition after_delete (cfg : BenchConfig) m : kvmap := fold_left after (map CDelete (deleted_of cfg)) m.
Definition after_tail (cfg : BenchConfig) m : kvmap :=
  fold_left after (overwrite_commands cfg) (after_delete cfg m).

Lemma after_delete_lookup cfg m k :
  after_delete cfg m !! k = if decide (k ∈ deleted_of cfg) then None else m !! k.
Proof. apply after_deletes. Qed.

Lemma after_tail_lookup cfg m k :
  after_tail cfg m !! k
  = if decide (k ∈ surviving_of cfg /\ Z.to_nat (overwrite_rounds cfg) <> 0%nat)
    then Some (fill 121 (value_size cfg), None)
    else after_delete cfg m !! k.
Proof. apply after_rounds. Qed.

Lemma tail_known cfg m : config_ok cfg -> loaded cfg m -> known_all m (tail_commands cfg).
Proof.
  intros Hc Hl. unfold tail_commands. pose proof Hc as [_ Hv _ _ _].
  assert (Hsub : forall k, k ∈ surviving_of cfg -> k ∈ keys_of cfg /\ k ∉ deleted_of cfg)
    by (intros k; apply elem_of_surviving).
  rewrite !known_all_app. split_and!.
  - apply known_deletes. intros k Hk. apply deleted_sub in Hk; [|done].
    pose proof (keys_of_ok cfg k Hc Hk) as Hok. split; [done|].
    by apply (key_value_ok k 0 0); [done | lia | unfold MAX_VALUE_SIZE; lia].
  - apply known_reads. intros k Hk. split; [by apply (keys_of_ok cfg)|].
    change (fold_left after _ m) with (after_delete cfg m). rewrite after_delete_lookup.
    case_decide; [by left | right; by apply Hl].
  - apply known_rounds. intros k [Hk _]%Hsub. pose proof (keys_of_ok cfg k Hc Hk).
    split; [done | by apply key_value_ok].
  - rewrite after_reads. apply known_reads. intros k Hk. destruct (Hsub k Hk) as [Hk1 Hk2].
    pose proof (keys_of_ok cfg k Hc Hk1) as Hok. split; [done|]. right.
    change (fold_left after _ _) with (after_tail cfg m). rewrite after_tail_lookup. case_decide.
    + eexists. split; [done | by apply key_value_ok].
    + rewrite after_delete_lookup, decide_False by done. by apply Hl.
Qed.

Lemma concat_replicate_len {A} n (l : list A) : len (concat (replicate n l)) = Z.of_nat n * len l.
Proof. induction n as [|n IH]; cbn [replicate concat]; [done|]. rewrite len_app, IH. lia. Qed.

Lemma post_delete_misses cfg m :
  config_ok cfg -> loaded cfg m ->
  misses_of (after_delete cfg m) (map CRead (keys_of cfg)) = delete_count cfg.
Proof.
  intros Hc Hl. rewrite misses_reads.
  rewrite (filter_ext_in _ (fun k => bool_decide (k ∈ deleted_of cfg))).
  - rewrite filter_mem_length; [by apply deleted_length | by apply NoDup_keys_of | by apply NoDup_deleted |
      by apply deleted_sub].
  - intros k Hk. apply bool_decide_ext. rewrite after_delete_lookup. case_decide; [done|].
    destruct (Hl k Hk) as (v & -> & _). done.
Qed.

Lemma post_overwrite_misses cfg m :
  config_ok cfg -> loaded cfg m ->
  misses_of (after_tail cfg m) (map CRead (surviving_of cfg)) = 0.
Proof.
  intros Hc Hl. rewrite misses_reads, filter_none; [done|]. apply Forall_forall. intros k Hk.
  apply bool_decide_eq_false_2. rewrite after_tail_lookup.
  apply elem_of_surviving in Hk as [Hk1 Hk2]. case_decide; [done|].
  rewrite after_delete_lookup, decide_False by done. by destruct (Hl k Hk1) as (v & -> & _).
Qed.

Lemma len_map {A B} (f : A -> B) l : len (map f l) = len l.
Proof. unfold len. by rewrite length_map. Qed.

Lemma tail_run cfg k st c m :
  ready k st c m -> config_ok cfg -> loaded cfg m ->
  (ticks_of (database (serve_all (tail_commands cfg) (server_of st))) <= N)%nat ->
  exists st' d pd o po, tail_phases cfg c st = (st', Ok (d, pd, o, po)) /\ ready k st' c (after_tail cfg m) /\
    tail_counts cfg d pd o po /\ server_of st' = serve_all (tail_commands cfg) (server_of st).
Proof.
  intros Hr Hc Hl Ht. pose proof (tail_known cfg m Hc Hl) as Hk. unfold tail_phases.
  destruct (phase_then false k c _ _ st m Hr Hk Ht) as (s1 & d & E1 & Hr1 & Ht1 & Hk1 & L1 & _ & _ & S1).
  rewrite (st_bind_Ok _ _ _ _ _ E1).
  destruct (phase_then true k c _ _ s1 _ Hr1 Hk1 Ht1) as (s2 & pd & E2 & Hr2 & Ht2 & Hk2 & L2 & M2 & _ & S2).
  rewrite (st_bind_Ok _ _ _ _ _ E2). rewrite after_reads in Hr2, Hk2.
  destruct (phase_then false k c _ _ s2 _ Hr2 Hk2 Ht2) as (s3 & o & E3 & Hr3 & Ht3 & Hk3 & L3 & _ & _ & S3).
  rewrite (st_bind_Ok _ _ _ _ _ E3).
  destruct (phase_run true k c _ s3 _ Hr3 Hk3 Ht3) as (s4 & po & E4 & Hr4 & S4 & L4 & _ & M4 & _).
  rewrite (st_bind_Ok _ _ _ _ _ E4). rewrite after_reads in Hr4.
  exists s4, d, pd, o, po. split; [reflexivity|]. split; [exact Hr4|]. split.
  - split.
    + rewrite L1, len_map. by apply deleted_length.
    + rewrite L2, len_map, (M2 eq_refl (no_delete_reads _)). split; [|by apply post_delete_misses].
      apply len_bench_keys. destruct Hc. lia.
    + rewrite L3. unfold overwrite_commands. rewrite concat_replicate_len, len_map, surviving_of_length by done.
      rewrite Z2Nat.id; [done | apply Hc].
    + unfold len at 1. rewrite L4, length_map. rewrite (M4 eq_refl (no_delete_reads _)).
      split; [by apply surviving_of_length | by apply post_overwrite_misses].
  - unfold tail_commands. rewrite !serve_all_app. by rewrite S4, S3, S2, S1.
Qed.

(** ** The whole run *)

Lemma read_keys_known cfg :
  config_ok cfg -> exists reads, read_keys_of cfg = Ok reads /\
    spread (keys_of cfg) (fraction (bc_count cfg) (miss_ratio cfg)) (bc_count cfg) reads.
Proof.
  intros [Hc _ _ _ _]. unfold read_keys_of. destruct (zipf_s cfg) as [s|].
  - apply zipf_read_keys_spread. lia.
  - eexists. split; [done|]. apply read_keys_spread. lia.
Qed.

Lemma spread_elem keys M n l x :
  spread keys M n l -> x ∈ l -> x ∈ keys \/ exists i, 0 <= i < n /\ x = missing_key i.
Proof.
  intros [Hl Hs] [i Hi]%list_elem_of_lookup. specialize (Hs i x Hi). unfold spread_at in Hs.
  destruct (crosses M n (Z.of_nat i)); [|by left]. right. exists (Z.of_nat i). split; [|done].
  apply lookup_lt_Some in Hi. unfold len in Hl. lia.
Qed.

(** No key of the server is one of those that are to be missing. *)
Definition no_missing (cfg : BenchConfig) m : Prop :=
  forall i, 0 <= i < bc_count cfg -> m !! missing_key i = None.

Lemma reads_known cfg m reads :
  config_ok cfg -> loaded cfg m -> no_missing cfg m ->
  spread (keys_of cfg) (fraction (bc_count cfg) (miss_ratio cfg)) (bc_count cfg) reads ->
  known_all m (map CRead reads).
Proof.
  intros Hc Hl Hn Hs. apply known_reads. intros k Hk.
  destruct (spread_elem _ _ _ _ _ Hs Hk) as [Hin|(i & Hi & ->)].
  - split; [by apply (keys_of_ok cfg) | right; by apply Hl].
  - split; [|left; by apply Hn]. apply missing_key_ok. destruct Hc. split; lia.
Qed.

Lemma reads_misses cfg m reads :
  config_ok cfg -> loaded cfg m -> no_missing cfg m ->
  spread (keys_of cfg) (fraction (bc_count cfg) (miss_ratio cfg)) (bc_count cfg) reads ->
  misses_of m (map CRead reads) = fraction (bc_count cfg) (miss_ratio cfg).
Proof.
  intros Hc Hl Hn Hs. pose proof (fraction_nonneg (bc_count cfg) (miss_ratio cfg)). destruct Hc as [Hc _ Hm _ _].
  rewrite misses_reads. etrans; [|eapply (spread_total (keys_of cfg)); [intros; apply missing_absent | exact Hs | lia | nia]].
  f_equal. apply filter_ext_in. intros k Hk. rewrite <- bool_decide_not. apply bool_decide_ext.
  destruct (spread_elem _ _ _ _ _ Hs Hk) as [Hin|(i & Hi & ->)].
  - destruct (Hl k Hin) as (v & -> & _). split; [done | by intros []].
  - split; [intros _; apply missing_absent | intros _; by apply Hn].
Qed.

Definition sequential_commands (cfg : BenchConfig) (reads : list str) : list Command :=
  map (write_x cfg) (keys_of cfg) ++ map CRead reads ++ range_commands cfg ++ tail_commands cfg.

(** The map after the WRITE phase. *)
Definition after_load (cfg : BenchConfig) m : kvmap := fold_left after (map (write_x cfg) (keys_of cfg)) m.

Lemma after_load_lookup cfg m k :
  after_load cfg m !! k = if decide (k ∈ keys_of cfg) then Some (fill 120 (value_size cfg), None) else m !! k.
Proof. apply after_writes. Qed.

Lemma after_load_loaded cfg m : config_ok cfg -> loaded cfg (after_load cfg m).
Proof.
  intros Hc k Hk. rewrite after_load_lookup, decide_True by done. eexists. split; [done|].
  apply key_value_ok; [by apply (keys_of_ok cfg) | lia | apply Hc].
Qed.

Lemma after_load_missing cfg m : no_missing cfg m -> no_missing cfg (after_load cfg m).
Proof. intros Hn i Hi. rewrite after_load_lookup, decide_False by apply missing_absent. by apply Hn. Qed.

Lemma sequential_known cfg m reads :
  config_ok cfg -> range_commands cfg = [] -> no_missing cfg m ->
  spread (keys_of cfg) (fraction (bc_count cfg) (miss_ratio cfg)) (bc_count cfg) reads ->
  known_all m (sequential_commands cfg reads).
Proof.
  intros Hc Hr Hn Hs. pose proof (after_load_loaded cfg m Hc) as Hl.
  unfold sequential_commands. rewrite Hr, !known_all_app. split_and!.
  - apply known_writes. intros k Hk. pose proof (keys_of_ok cfg k Hc Hk). split; [done|].
    apply key_value_ok; [done | lia | apply Hc].
  - apply (reads_known cfg (after_load cfg m)); [done | done | by apply after_load_missing | done].
  - done.
  - rewrite after_reads. by apply (tail_known cfg (after_load cfg m)).
Qed.

(** C22: what the load generator counts in its sequential mode. Against any engine
    that keeps the laws of [Store], over connections that a worker serves, and
    with any mixture of its options other than RANGE: every request is
    answered; the WRITE phase has one latency per key; exactly the asked-for
    share of the reads misses, under both key distributions; the reads after the
    DELETE phase miss exactly the deleted keys; OVERWRITE makes its rounds over
    the others, and none of the reads after it misses. *)
Theorem sequential_counts cfg k st m :
  config_ok cfg -> range_commands cfg = [] -> sp_good (Datatypes.S k) (peer_state st) -> inbox st = ∅ ->
  store_inv (database (server_of st)) m -> no_missing cfg m ->
  exists reads, read_keys_of cfg = Ok reads /\
    ((ticks_of (database (serve_all (sequential_commands cfg reads)
         (count_connections 1 (server_of st)))) <= N)%nat ->
     exists st' r, sequential_phases cfg st = (st', Ok r) /\
       len (latencies (r_write r)) = bc_count cfg /\ misses (r_write r) = 0 /\
       len (latencies (r_read r)) = bc_count cfg /\
       misses (r_read r) = fraction (bc_count cfg) (miss_ratio cfg) /\
       tail_counts cfg (r_delete r) (r_post_del r) (r_overwrite r) (r_post_ow r)).
Proof.
  intros Hc Hrg Hg Hin Hi Hn. destruct (read_keys_known cfg Hc) as (reads & Er & Hs).
  exists reads. split; [exact Er|]. intros Ht. pose proof (sequential_known cfg m reads Hc Hrg Hn Hs) as Hk.
  unfold sequential_phases. rewrite Er. erewrite st_bind_Ok by reflexivity.
  destruct (sp_connect k (peer_state st) Hg) as (c & s' & Ec & Hs' & Hg' & Ho & _).
  erewrite (st_bind_Ok (on_peer connect)) by (unfold on_peer; by rewrite Ec).
  set (st0 := mkBench s' (inbox st) (instants_read st)).
  assert (Hr0 : ready k st0 c m)
    by (split; [done | done | cbn; by rewrite Hin, lookup_empty | unfold server_of; cbn; by rewrite Hs']).
  change (count_connections 1 (server_of st)) with (count_connections 1 (sp_server (peer_state st))) in Ht.
  rewrite <- Hs' in Ht. change (sp_server s') with (server_of st0) in Ht.
  destruct (phase_then false k c _ _ st0 m Hr0 Hk Ht) as (s1 & w & E1 & Hr1 & Ht1 & Hk1 & L1 & _ & M1 & _).
  rewrite (st_bind_Ok _ _ _ _ _ E1). change (fold_left after _ m) with (after_load cfg m) in *.
  pose proof (after_load_loaded cfg m Hc) as Hl.
  destruct (phase_then true k c _ _ s1 _ Hr1 Hk1 Ht1) as (s2 & r & E2 & Hr2 & Ht2 & Hk2 & L2 & M2 & _).
  rewrite (st_bind_Ok _ _ _ _ _ E2). rewrite after_reads in Hr2, Hk2.
  destruct (phase_then false k c _ _ s2 _ Hr2 Hk2 Ht2) as (s3 & g & E3 & Hr3 & Ht3 & _).
  rewrite (st_bind_Ok _ _ _ _ _ E3). rewrite Hrg in Hr3. cbn [fold_left] in Hr3.
  destruct (tail_run cfg k s3 c _ Hr3 Hc Hl Ht3) as (s4 & d & pd & o & po & E4 & _ & Htc & _).
  rewrite (st_bind_Ok _ _ _ _ _ E4). eexists _, _. split; [reflexivity|].
  cbn [r_write r_read r_delete r_post_del r_overwrite r_post_ow].
  split; [rewrite L1, len_map; apply len_bench_keys; destruct Hc; lia|]. split; [by apply M1|].
  split; [rewrite L2, len_map; apply Hs|]. split; [|exact Htc].
  rewrite (M2 eq_refl (no_delete_reads _)).
  apply reads_misses; [done | done | by apply after_load_missing | done].
Qed.
End Phases.
