(* ===== verification/KvbenchThreads.v ===== *)
(** * The threads of the load generator

    The [concurrent] mode of src/src/bin/kvbench.rs under every interleaving of
    its threads' requests. *)

From S2P Require Import Prelude Utf8 Text Words Record Settings HashIndex World Engine KvEngine KvLog.
From S2P Require Import KvInv KvOps KvSpec KvTheorems Bffp Float Stats Dispatch Connection Worker.
From S2P Require Import Session Cli Store ServerTheorems Client Bench Kvbench KvbenchTheorems.

Section Pool.
Context (N : nat) {S : Type} `{SE : StorageEngine S} `{HW : HasWorld S} `{TK : Ticking S} `{CK : Clock}
  `{ST0 : !Store N S} `{ET : ErrorText} `{SW : Stopwatch}.
Context (ccfg : CompactionCfg) {St : Type} `{PE : Peer St} `{SP : !ServerPeer ccfg S St} `{IN : Instants}.

Implicit Types (st : BenchState St) (m : kvmap).

#[local] Abbreviation server_of := (server_of ccfg).
#[local] Abbreviation ready := (ready N ccfg).

(** What the threads have to do: loads of one value, and reads. *)
Context (keys : list str) (x : str) (todos : list (list Command)) (readers : list bool).

Definition allowed (c : Command) : Prop :=
  match c with
  | CWrite k v None => k ∈ keys /\ v = x /\ key_ok k /\ kv_ok k v None
  | CRead k => key_ok k
  | _ => False
  end.

Definition is_missing (c : Command) : bool :=
  match c with CRead k => negb (bool_decide (k ∈ keys)) | _ => false end.

(** The map while they run: the keys are absent or hold a value that fits, and the
    others that are read are absent. *)
Definition map_ok m : Prop :=
  (forall k, k ∈ keys -> m !! k = None \/ exists v, m !! k = Some (v, None) /\ kv_ok k v None) /\
  (forall k l, l ∈ todos -> CRead k ∈ l -> k ∉ keys -> m !! k = None).

Definition written m (cmds : list Command) : Prop :=
  forall k v e, CWrite k v e ∈ cmds -> m !! k = Some (v, None).

Record progress m (counted : bool) (l : list Command) (n : nat) (missed : Z) : Prop := {
  pg_length : (n <= length l)%nat;
  pg_written : written m (take n l);
  pg_missed : if counted
              then len (List.filter is_missing (take n l)) <= missed <= Z.of_nat n
              else missed = 0;
}.

Definition thread_ok st m (counted : bool) (l : list Command) (t : Thread) : Prop :=
  match t with
  | Starting => True
  | Waiting c => sp_open (peer_state st) c
  | Running c _ done missed => sp_open (peer_state st) c /\ progress m counted l (length done) missed
  | Finished (Ok p) =>
      length (latencies p) = length l /\ progress m counted l (length l) (misses p)
  | Finished _ => False
  end.

Definition is_starting (t : Thread) : bool := match t with Starting => true | _ => false end.
Definition starting (p : Pool) : nat := length (List.filter is_starting (threads p)).

Record pool_inv (k : nat) (p : Pool) st m : Prop := {
  pi_length : length (threads p) = length todos;
  pi_readers : length readers = length todos;
  pi_threads i t l b : threads p !! i = Some t -> todos !! i = Some l -> readers !! i = Some b ->
    thread_ok st m b l t;
  pi_good : sp_good (k + starting p) (peer_state st);
  pi_arrived : (arrived p + starting p)%nat = length (threads p);
  pi_store : store_inv (database (server_of st)) m;
  pi_map : map_ok m;
  pi_inbox c : default [] (inbox st !! c) = [];
  pi_stop : stop p = false;
}.

(** The script sends exactly these requests. *)
Definition follows (sc : Script) : Prop :=
  forall i l b n, todos !! i = Some l -> readers !! i = Some b ->
    next_command sc i n false = Ok (l !! n) /\ counts sc i = b.

(** ** Steps that change little *)

Lemma thread_ok_conns st st' m b l t :
  (forall c, sp_open (peer_state st) c -> sp_open (peer_state st') c) -> thread_ok st m b l t -> thread_ok st' m b l t.
Proof. intros H. destruct t as [|c|c s d ms|[]]; cbn; naive_solver. Qed.

Lemma written_mono m m' cmds :
  (forall k, m !! k = Some (x, None) -> m' !! k = Some (x, None)) ->
  Forall allowed cmds -> written m cmds -> written m' cmds.
Proof.
  intros H Ha Hw k v e Hin. specialize (Hw k v e Hin). rewrite Forall_forall in Ha.
  specialize (Ha _ Hin). cbn in Ha. destruct e; [done|]. destruct Ha as (_ & -> & _). by apply H.
Qed.

Lemma thread_ok_map st m m' b l t :
  (forall k, m !! k = Some (x, None) -> m' !! k = Some (x, None)) ->
  Forall allowed l -> thread_ok st m b l t -> thread_ok st m' b l t.
Proof.
  intros H Ha.
  assert (Hp : forall n ms, progress m b l n ms -> progress m' b l n ms).
  { intros n ms [H1 H2 H3]. split; [done | | done]. eapply written_mono; [exact H | by apply Forall_take | done]. }
  destruct t as [|c|c s d ms|[]]; cbn; naive_solver.
Qed.

Lemma starting_insert p i t t' :
  threads p !! i = Some t ->
  (length (List.filter is_starting (<[i := t']> (threads p))) + (if is_starting t then 1 else 0)
   = starting p + (if is_starting t' then 1 else 0))%nat.
Proof.
  unfold starting. intros Hi. rewrite <- (take_drop_middle _ _ _ Hi) at 2.
  rewrite insert_take_drop by (by eapply lookup_lt_Some).
  rewrite !List.filter_app, !length_app. cbn. destruct (is_starting t), (is_starting t'); cbn; lia.
Qed.

(** A thread that moves on, with what it did to the state. *)
Lemma pool_update k p st m i t t' l b st' m' :
  pool_inv k p st m -> Forall (Forall allowed) todos ->
  threads p !! i = Some t -> todos !! i = Some l -> readers !! i = Some b ->
  is_starting t = false -> is_starting t' = false ->
  (forall c, sp_open (peer_state st) c -> sp_open (peer_state st') c) ->
  (forall k, m !! k = Some (x, None) -> m' !! k = Some (x, None)) ->
  sp_good (k + starting p) (peer_state st') ->
  store_inv (database (server_of st')) m' -> map_ok m' ->
  (forall c, default [] (inbox st' !! c) = []) ->
  thread_ok st' m' b l t' -> pool_inv k (set_thread i t' p) st' m'.
Proof.
  intros [H1 H2 H3 H4 H5 H6 H7 H8 H9] Hall Ht Hl Hb Hs Hs' Hopen Hm Hg Hst Hmap Hin Hok.
  pose proof (starting_insert p i t t' Ht) as Hn. rewrite Hs, Hs' in Hn.
  assert (Hsame : starting (set_thread i t' p) = starting p) by (unfold starting at 1; cbn; lia).
  split; try done.
  - cbn. by rewrite length_insert.
  - intros j tj lj bj Hj Hlj Hbj. cbn in Hj. destruct (decide (j = i)) as [->|Hne].
    + rewrite list_lookup_insert_eq in Hj by (by eapply lookup_lt_Some). by simplify_eq.
    + rewrite list_lookup_insert_ne in Hj by done.
      eapply thread_ok_map; [exact Hm | |].
      * rewrite Forall_forall in Hall. apply Hall. by eapply list_elem_of_lookup_2.
      * eapply thread_ok_conns; [exact Hopen | by eapply H3].
  - by rewrite Hsame.
  - rewrite Hsame. cbn. by rewrite length_insert.
Qed.

Lemma allowed_known m c l :
  map_ok m -> l ∈ todos -> c ∈ l -> allowed c -> known m c.
Proof.
  intros [Hk Hm] Hl Hc Ha. destruct c; try done; cbn in Ha.
  - split; [done|]. destruct (decide (key ∈ keys)); [by apply Hk | left; by eapply Hm].
  - destruct ttl; [done|]. destruct Ha as (_ & -> & ? & ?). done.
Qed.

Lemma allowed_map m c l :
  map_ok m -> l ∈ todos -> c ∈ l -> allowed c ->
  map_ok (after m c) /\ forall k, m !! k = Some (x, None) -> after m c !! k = Some (x, None).
Proof.
  intros [Hk Hm] Hl Hc Ha. destruct c; try done; cbn in Ha. destruct ttl; [done|].
  destruct Ha as (Hin & -> & ? & Hkv). cbn [after]. split; [split|].
  - intros k Hkin. destruct (decide (k = key)) as [->|].
    + rewrite lookup_insert_eq. right. eauto.
    + rewrite lookup_insert_ne by done. by apply Hk.
  - intros k l' Hl' Hc' Hout. rewrite lookup_insert_ne by (intros ->; done). by eapply Hm.
  - intros k Hmk. destruct (decide (k = key)) as [->|]; [by rewrite lookup_insert_eq | by rewrite lookup_insert_ne].
Qed.

Lemma progress_step m b l n ms cmd r :
  progress m b l n ms -> l !! n = Some cmd -> allowed cmd -> expected m cmd r ->
  (is_missing cmd = true -> r = Miss) ->
  (forall k, m !! k = Some (x, None) -> after m cmd !! k = Some (x, None)) -> Forall allowed l ->
  progress (after m cmd) b l (Datatypes.S n) (if b then ms + count_miss r else ms).
Proof.
  intros [H1 H2 H3] Hn Ha Hx Hmiss Hm Hall. pose proof (lookup_lt_Some _ _ _ Hn) as Hlt.
  split; rewrite ?(take_S_r _ _ _ Hn); [lia | |].
  - intros k v e [Hin|Hin]%elem_of_app.
    + eapply written_mono; [exact Hm | by apply Forall_take | exact H2 | exact Hin].
    + apply list_elem_of_singleton in Hin as <-. cbn in Ha |- *. apply lookup_insert_eq.
  - destruct b; [|done]. rewrite List.filter_app, len_app.
    assert (Hc : 0 <= count_miss r <= 1) by (by destruct r).
    assert (Hf : len (List.filter is_missing [cmd]) <= count_miss r).
    { cbn. destruct (is_missing cmd); [by rewrite Hmiss | by destruct r]. }
    lia.
Qed.

(** ** One step *)

(** The request a turn makes, if any. *)
Definition turn_command (sc : Script) (a : Turn) (p : Pool) : option Command :=
  match a with
  | Stop => None
  | Run i =>
      match threads p !! i with
      | Some (Running _ _ done _) =>
          match next_command sc i (length done) (stop p) with Ok o => o | _ => None end
      | _ => None
      end
  end.

Definition turn_in_time (sc : Script) (a : Turn) (p : Pool) st : Prop :=
  match turn_command sc a p with
  | Some cmd => (ticks_of (database (dispatch ccfg cmd (server_of st)).1) <= N)%nat
  | None => True
  end.

Lemma connect_step k p st m i :
  pool_inv k p st m -> threads p !! i = Some Starting ->
  exists st' p', on_peer connect st = (st', Ok p') /\
    pool_inv k (mkPool (<[i := Waiting p']> (threads p)) (Datatypes.S (arrived p)) (stop p)) st' m.
Proof.
  intros [H1 H2 H3 H4 H5 H6 H7 H8 H9] Ht.
  pose proof (starting_insert p i Starting) as Hn.
  assert (Hpos : exists j, starting p = Datatypes.S j).
  { specialize (Hn (Waiting 0) Ht). cbn in Hn. exists (Nat.pred (starting p)). lia. }
  destruct Hpos as [j Ej]. rewrite Ej, Nat.add_succ_r in H4.
  destruct (sp_connect (k + j) (peer_state st) H4) as (c & s' & Ec & Hs & Hg & Ho & Hk).
  exists (mkBench s' (inbox st) (instants_read st)), c. split; [unfold on_peer; by rewrite Ec|].
  specialize (Hn (Waiting c) Ht). cbn in Hn.
  assert (Hst : starting (mkPool (<[i := Waiting c]> (threads p)) (Datatypes.S (arrived p)) (stop p)) = j)
    by (unfold starting at 1; cbn; lia).
  split; try done; rewrite ?Hst; cbn; rewrite ?length_insert; try done; try lia.
  - intros i' t l b Hi Hl Hb. destruct (decide (i' = i)) as [->|Hne].
    + rewrite list_lookup_insert_eq in Hi by (by eapply lookup_lt_Some). injection Hi as <-. exact Ho.
    + rewrite list_lookup_insert_ne in Hi by done. eapply thread_ok_conns; [|by eapply H3].
      intros d Hd. by apply Hk.
  - unfold KvbenchTheorems.server_of. cbn. by rewrite Hs.
Qed.

Lemma request_step k p st m sc i c s (d : list Z) ms l (b : bool) cmd :
  pool_inv k p st m -> Forall (Forall allowed) todos -> follows sc ->
  threads p !! i = Some (Running c s d ms) -> todos !! i = Some l -> readers !! i = Some b ->
  l !! length d = Some cmd -> (ticks_of (database (dispatch ccfg cmd (server_of st)).1) <= N)%nat ->
  exists st' r dt, timed c cmd st = (st', Ok (r, dt)) /\
    pool_inv k (set_thread i (Running c s (d ++ [dt]) (if b then ms + count_miss r else ms)) p) st' (after m cmd).
Proof.
  intros Hi Hall Hsc Ht Hl Hb Hn HN. pose proof Hi as [H1 H2 H3 H4 H5 H6 H7 H8 H9].
  assert (Hin : l ∈ todos) by (by eapply list_elem_of_lookup_2).
  assert (Hcin : cmd ∈ l) by (by eapply list_elem_of_lookup_2).
  pose proof (proj1 (Forall_forall _ _) Hall l Hin) as Hal.
  pose proof (proj1 (Forall_forall _ _) Hal cmd Hcin) as Ha. cbn beta in Hal, Ha.
  destruct (H3 i _ l b Ht Hl Hb) as [Hop Hpg].
  destruct (allowed_map m cmd l H7 Hin Hcin Ha) as [Hmap Hext].
  destruct (timed_run N ccfg (k + starting p) st c m cmd) as (st' & r & dt & E & [G1 G2 G3 G4] & _ & Hx & _ & [K1 K2]);
    [by split | by eapply allowed_known | done |].
  exists st', r, dt. split; [exact E|].
  eapply pool_update; try done.
  - intros d'. by apply K2.
  - cbn [thread_ok]. split; [done|]. rewrite length_app, Nat.add_1_r. eapply progress_step; try done.
    intros Hmiss. destruct cmd; try done. cbn in Hmiss, Hx. apply negb_true_iff, bool_decide_eq_false in Hmiss.
    by rewrite Hx, (proj2 H7 key l Hin Hcin Hmiss).
Qed.

(** How far a thread is. *)
Definition level (t : Thread) : nat :=
  match t with Starting => 0 | Waiting _ => 1 | Running _ _ d _ => 2 + length d | Finished _ => 0 end.
Definition finished (t : Thread) : bool := match t with Finished _ => true | _ => false end.

(** The turn of thread [i] brings it forward, once all have connected, and sets
    none back. *)
Definition ahead (p p' : Pool) (i : nat) : Prop :=
  forall j t, threads p !! j = Some t -> exists t', threads p' !! j = Some t' /\
    (finished t' = true \/
     (finished t = false /\ (level t <= level t')%nat /\
      (j = i -> starting p = 0%nat \/ is_starting t = true -> (level t < level t')%nat))).

Lemma ahead_refl p i :
  (forall t, threads p !! i = Some t -> finished t = true \/ (starting p <> 0%nat /\ is_starting t = false)) ->
  ahead p p i.
Proof.
  intros Hi j t Hj. exists t. split; [done|]. destruct (finished t) eqn:Ef; [by left|]. right.
  split_and!; [done | done |]. intros -> Hs. destruct (Hi t Hj) as [|[? ?]]; [congruence|].
  destruct Hs; congruence.
Qed.

Lemma ahead_set p i t t' n b :
  threads p !! i = Some t -> finished t' = true \/ (finished t = false /\ (level t < level t')%nat) ->
  ahead p (mkPool (<[i := t']> (threads p)) n b) i.
Proof.
  intros Hi Ht j tj Hj. cbn. destruct (decide (j = i)) as [->|Hne].
  - exists t'. rewrite list_lookup_insert_eq by (by eapply lookup_lt_Some). simplify_eq. split; [done|].
    destruct Ht as [Ht|[? ?]]; [by left | right]. split_and!; [done | lia | done].
  - exists tj. rewrite list_lookup_insert_ne by done. split; [done|].
    destruct (finished tj); [by left | right]. by split_and!.
Qed.

Lemma pool_step_keeps k p st m sc i :
  pool_inv k p st m -> Forall (Forall allowed) todos -> follows sc -> turn_in_time sc (Run i) p st ->
  exists st' p' m', pool_step sc (Run i) p st = (st', Ok p') /\ pool_inv k p' st' m' /\ ahead p p' i.
Proof.
  intros Hi Hall Hsc HN. unfold turn_in_time, turn_command in HN. cbn [pool_step].
  destruct (threads p !! i) as [t|] eqn:Ht;
    [|exists st, p, m; split_and!; [done | done | apply ahead_refl; congruence]].
  pose proof Hi as [H1 H2 H3 H4 H5 H6 H7 H8 H9].
  destruct (lookup_lt_is_Some_2 todos i) as [l Hl]; [rewrite <- H1; by eapply lookup_lt_Some|].
  destruct (lookup_lt_is_Some_2 readers i) as [b Hb]; [rewrite H2, <- H1; by eapply lookup_lt_Some|].
  specialize (H3 i t l b Ht Hl Hb). destruct t as [|c|c s d ms|r]; cbn [thread_step].
  - destruct (connect_step k p st m i Hi Ht) as (st' & c & E & Hi'). rewrite E.
    eexists _, _, m. split_and!; [done | exact Hi' |]. eapply ahead_set; [exact Ht|]. right. cbn. auto with lia.
  - destruct (Nat.ltb_spec (arrived p) (length (threads p))).
    { exists st, p, m. split_and!; [done | done |]. apply ahead_refl. intros t Ht'. simplify_eq.
      right. split; [lia | done]. }
    unfold now. eexists _, _, m. split_and!; [reflexivity | |].
    + eapply pool_update; try done.
      cbn [thread_ok length]. split; [done|]. split; [lia | by intros ??? ?%not_elem_of_nil | by destruct b].
    + eapply ahead_set; [exact Ht|]. right. cbn. auto with lia.
  - rewrite H9 in HN |- *. destruct (Hsc i l b (length d) Hl Hb) as [Hnext Hcnt]. rewrite Hnext, Hcnt in *.
    destruct (l !! length d) as [cmd|] eqn:En.
    + destruct (request_step k p st m sc i c s d ms l b cmd Hi Hall Hsc Ht Hl Hb En HN)
        as (st' & r & dt & E & Hi').
      rewrite E. eexists _, _, _. split_and!; [reflexivity | exact Hi' |].
      eapply ahead_set; [exact Ht|]. right. cbn. rewrite length_app. cbn. auto with lia.
    + unfold elapsed_since, st_bind, now. cbn. eexists _, _, m. split_and!; [reflexivity | |].
      * destruct H3 as [Hop Hpg]. pose proof Hpg as [Hlen _ _].
        assert (El : length d = length l) by (apply lookup_ge_None in En; lia).
        eapply pool_update; try done.
        cbn [thread_ok latencies misses]. split; [done|]. by rewrite El in Hpg.
      * eapply ahead_set; [exact Ht|]. by left.
  - exists st, p, m. split_and!; [done | done |]. apply ahead_refl. intros t Ht'. simplify_eq. by left.
Qed.

(** ** A whole schedule *)

Definition is_run (a : Turn) : Prop := match a with Run _ => True | Stop => False end.

(** Every request of the schedule is made in time. *)
Fixpoint in_time (sc : Script) (sched : list Turn) (p : Pool) st : Prop :=
  match sched with
  | [] => True
  | a :: sched' =>
      turn_in_time sc a p st /\
      match pool_step sc a p st with
      | (st', Ok p') => in_time sc sched' p' st'
      | _ => True
      end
  end.

Lemma pool_run_keeps k sc sched : forall p st m,
  pool_inv k p st m -> Forall (Forall allowed) todos -> follows sc -> Forall is_run sched ->
  in_time sc sched p st ->
  exists st' p' m', pool_run sc sched p st = (st', Ok p') /\ pool_inv k p' st' m'.
Proof.
  induction sched as [|a sched IH]; intros p st m Hi Hall Hsc Hrun Ht; cbn [pool_run in_time] in *.
  { by exists st, p, m. }
  apply Forall_cons in Hrun as [Ha Hrun]. destruct a as [i|]; [|done]. destruct Ht as [Ht1 Ht2].
  destruct (pool_step_keeps k p st m sc i Hi Hall Hsc Ht1) as (st1 & p1 & m1 & E & Hi1 & _).
  rewrite E in Ht2. rewrite (st_bind_Ok _ _ _ _ _ E). by eapply IH.
Qed.

(** ** Every thread ends *)

(** Every thread in its turn, [n] times. *)
Definition rounds (n : nat) : list Turn := concat (replicate n (map Run (seq 0 (length todos)))).

Definition reached (r : nat) (p : Pool) : Prop :=
  forall j t, threads p !! j = Some t -> finished t = true \/ (r <= level t)%nat.

Lemma reached_started r p : reached r p -> (0 < r)%nat -> starting p = 0%nat.
Proof.
  intros Hr Hpos. unfold starting, reached in *. revert Hr.
  induction (threads p) as [|t ts IH]; intros Hr; [done|]. cbn.
  destruct (Hr 0%nat t eq_refl) as [Hf|Hl]; (destruct t; cbn in *; try done; try lia);
    apply IH; intros j t' Hj; by apply (Hr (Datatypes.S j)).
Qed.

(** Within a round: the threads before [i] have had their turn. *)
Definition half_round (r i : nat) (p : Pool) : Prop :=
  forall j t, threads p !! j = Some t ->
    finished t = true \/ ((if (j <? i)%nat then Datatypes.S r else r) <= level t)%nat.

Lemma half_round_step r i p p' :
  (r = 0%nat \/ starting p = 0%nat) -> length (threads p') = length (threads p) ->
  half_round r i p -> ahead p p' i -> half_round r (Datatypes.S i) p'.
Proof.
  intros Hr Hlen Hh Ha j t' Hj.
  destruct (lookup_lt_is_Some_2 (threads p) j) as [t Ht]; [rewrite <- Hlen; by eapply lookup_lt_Some|].
  destruct (Ha j t Ht) as (t'' & Ht'' & Hcase). simplify_eq.
  destruct Hcase as [Hf|(Hf & Hle & Hlt)]; [by left|]. right.
  destruct (Hh j t Ht) as [Hf'|Hl]; [congruence|].
  destruct (Nat.ltb_spec j (Datatypes.S i)); destruct (Nat.ltb_spec j i); try lia.
  assert (j = i) as -> by lia. destruct Hr as [->|Hs].
  - destruct (is_starting t) eqn:Es; [specialize (Hlt eq_refl (or_intror eq_refl)); lia|].
    destruct t; cbn in *; try done; lia.
  - specialize (Hlt eq_refl (or_introl Hs)). lia.
Qed.

Lemma ahead_starting p p' i : ahead p p' i -> length (threads p') = length (threads p) ->
  starting p = 0%nat -> starting p' = 0%nat.
Proof.
  unfold ahead, starting. intros Ha Hlen H0.
  assert (H1 : forall j t, threads p !! j = Some t -> is_starting t = false).
  { revert H0. clear. induction (threads p) as [|t ts IH]; intros H0 j t' Hj; [done|]. cbn in H0.
    destruct (is_starting t) eqn:E; [done|]. destruct j; [by simplify_eq/= | by eapply IH]. }
  assert (H2 : forall j t, threads p' !! j = Some t -> is_starting t = false).
  { intros j t' Hj. destruct (lookup_lt_is_Some_2 (threads p) j) as [t Ht]; [rewrite <- Hlen; by eapply lookup_lt_Some|].
    destruct (Ha j t Ht) as (t'' & Ht'' & Hc). simplify_eq. specialize (H1 j t Ht).
    destruct t'; try done. cbn in Hc. destruct Hc as [|(Hf & Hl & _)]; [done|]. destruct t; cbn in *; try done; lia. }
  clear -H2. induction (threads p') as [|t ts IH]; [done|]. cbn. rewrite (H2 0%nat t eq_refl).
  apply IH. intros j t' Hj. by apply (H2 (Datatypes.S j)).
Qed.

Lemma round_run k sc r i n p st m :
  pool_inv k p st m -> Forall (Forall allowed) todos -> follows sc ->
  (r = 0%nat \/ starting p = 0%nat) -> half_round r i p ->
  in_time sc (map Run (seq i n)) p st ->
  exists st' p' m', pool_run sc (map Run (seq i n)) p st = (st', Ok p') /\ pool_inv k p' st' m' /\
    half_round r (i + n) p'.
Proof.
  revert i p st m. induction n as [|n IH]; intros i p st m Hi Hall Hsc Hs Hh Ht; cbn [seq map pool_run in_time] in *.
  { exists st, p, m. rewrite Nat.add_0_r. by split_and!. }
  destruct Ht as [Ht1 Ht2].
  destruct (pool_step_keeps k p st m sc i Hi Hall Hsc Ht1) as (st1 & p1 & m1 & E & Hi1 & Ha).
  assert (Hlen : length (threads p1) = length (threads p))
    by (rewrite (pi_length _ _ _ _ Hi1); symmetry; by apply pi_length in Hi).
  rewrite E in Ht2. rewrite (st_bind_Ok _ _ _ _ _ E).
  destruct (IH (Datatypes.S i) p1 st1 m1) as (st2 & p2 & m2 & E2 & Hi2 & Hh2); try done.
  - destruct Hs as [?|Hs]; [by left | right; by eapply ahead_starting].
  - by eapply half_round_step.
  - exists st2, p2, m2. split_and!; [done | done |]. by rewrite Nat.add_succ_r, <- Nat.add_succ_l.
Qed.

Lemma in_time_app sc a b p st st' p' :
  in_time sc (a ++ b) p st -> pool_run sc a p st = (st', Ok p') -> in_time sc b p' st'.
Proof.
  revert p st. induction a as [|t a IH]; intros p st Ht Hr; cbn [app pool_run in_time] in *.
  { by injection Hr as <- <-. }
  destruct Ht as [_ Ht]. unfold st_bind in Hr. destruct (pool_step sc t p st) as [st1 [p1| |]]; try done.
  by eapply IH.
Qed.

Lemma in_time_prefix sc a b p st : in_time sc (a ++ b) p st -> in_time sc a p st.
Proof.
  revert p st. induction a as [|t a IH]; intros p st Ht; cbn [app in_time] in *; [done|].
  destruct Ht as [Ht1 Ht2]. split; [done|]. destruct (pool_step sc t p st) as [st1 [p1| |]]; try done. by apply IH.
Qed.

Lemma pool_run_app sc a b p st st' p' :
  pool_run sc a p st = (st', Ok p') -> pool_run sc (a ++ b) p st = pool_run sc b p' st'.
Proof.
  revert p st. induction a as [|t a IH]; intros p st Hr; cbn [app pool_run] in *.
  { by injection Hr as <- <-. }
  unfold st_bind in *. destruct (pool_step sc t p st) as [st1 [p1| |]]; try done. by apply IH.
Qed.

Lemma rounds_run k sc n : forall r p st m,
  pool_inv k p st m -> Forall (Forall allowed) todos -> follows sc -> reached r p ->
  in_time sc (rounds n) p st ->
  exists st' p' m', pool_run sc (rounds n) p st = (st', Ok p') /\ pool_inv k p' st' m' /\ reached (r + n) p'.
Proof.
  induction n as [|n IH]; intros r p st m Hi Hall Hsc Hr Ht.
  { exists st, p, m. rewrite Nat.add_0_r. by split_and!. }
  unfold rounds in *. cbn [replicate concat] in *.
  destruct (round_run k sc r 0 (length todos) p st m) as (st1 & p1 & m1 & E & Hi1 & Hh1); try done.
  - destruct r; [by left | right]. eapply reached_started; [exact Hr | lia].
  - by eapply in_time_prefix.
  - destruct (IH (Datatypes.S r) p1 st1 m1) as (st2 & p2 & m2 & E2 & Hi2 & Hr2); try done.
    + intros j t Hj. destruct (Hh1 j t Hj) as [|Hl]; [by left | right].
      rewrite (proj2 (Nat.ltb_lt _ _)) in Hl; [done|]. rewrite <- (pi_length _ _ _ _ Hi1). by eapply lookup_lt_Some.
    + by eapply in_time_app.
    + exists st2, p2, m2. split_and!; [by erewrite pool_run_app | done |].
      by rewrite Nat.add_succ_r, <- Nat.add_succ_l.
Qed.

(** Rounds enough for the longest list of requests, the connection, the barrier
    and the end. *)
Lemma rounds_finish k p st m n :
  pool_inv k p st m -> reached n p -> (forall l, l ∈ todos -> (length l + 3 <= n)%nat) ->
  Forall (fun t => finished t = true) (threads p).
Proof.
  intros [H1 H2 H3 _ _ _ _ _ _] Hr Hn. apply Forall_forall. intros t [i Hi]%list_elem_of_lookup.
  destruct (Hr i t Hi) as [|Hl]; [done|].
  destruct (lookup_lt_is_Some_2 todos i) as [l Hli]; [rewrite <- H1; by eapply lookup_lt_Some|].
  destruct (lookup_lt_is_Some_2 readers i) as [b Hb]; [rewrite H2, <- H1; by eapply lookup_lt_Some|].
  specialize (Hn l ltac:(by eapply list_elem_of_lookup_2)). specialize (H3 i t l b Hi Hli Hb).
  destruct t as [|c|c s d ms|r]; cbn in *; try lia. destruct H3 as [_ [Hd _ _]]. lia.
Qed.
End Pool.

(** ** The concurrent mode *)

Section Concurrent.
Context (N : nat) {S : Type} `{SE : StorageEngine S} `{HW : HasWorld S} `{TK : Ticking S} `{CK : Clock}
  `{ST0 : !Store N S} `{ET : ErrorText} `{SW : Stopwatch}.
Context (ccfg : CompactionCfg) {St : Type} `{PE : Peer St} `{SP : !ServerPeer ccfg S St}
  `{IN : Instants} `{LM : Libm}.
Context (cfg : BenchConfig) (Hcfg : config_ok cfg) (Hw : 0 < n_writers cfg < 2 ^ 32)
  (Hr : 0 < n_readers cfg < 2 ^ 32).

Implicit Types (st : BenchState St) (m : kvmap).
#[local] Abbreviation server_of := (server_of ccfg).
#[local] Abbreviation nw := (Z.to_nat (n_writers cfg)).
#[local] Abbreviation nr := (Z.to_nat (n_readers cfg)).
#[local] Abbreviation value := (fill 120 (value_size cfg)).

(** The requests of each thread. *)
Record plan (reads : list str) (wl rl : list (list str)) : Prop := {
  pl_reads : spread (keys_of cfg) (fraction (bc_count cfg) (miss_ratio cfg)) (bc_count cfg) reads;
  pl_writers : map (thread_slice (keys_of cfg) (n_writers cfg)) (upto (n_writers cfg)) = map Ok wl;
  pl_readers : map (thread_slice reads (n_readers cfg)) (upto (n_readers cfg)) = map Ok rl;
  pl_keys : concat wl = keys_of cfg;
  pl_all : concat rl = reads;
}.

Definition plan_todos (wl rl : list (list str)) : list (list Command) :=
  map (map (write_x cfg)) wl ++ map (map CRead) rl.
Definition plan_readers : list bool := replicate nw false ++ replicate nr true.

Lemma plan_exists : exists reads wl rl, read_keys_of cfg = Ok reads /\ plan reads wl rl.
Proof.
  destruct (read_keys_known cfg Hcfg) as (reads & Er & Hs). pose proof Hs as [Hlen _].
  pose proof (co_count _ Hcfg) as Hc.
  assert (Hk : len (keys_of cfg) = bc_count cfg) by (apply len_bench_keys; lia).
  destruct (slices_partition (keys_of cfg) (n_writers cfg)) as (wl & E1 & C1 & _); [lia | rewrite Hk; nia |].
  destruct (slices_partition reads (n_readers cfg)) as (rl & E2 & C2 & _); [lia | rewrite Hlen; nia |].
  by exists reads, wl, rl.
Qed.

Lemma slices_lookup {A} (l : list A) n ls i x :
  map (thread_slice l n) (upto n) = map Ok ls -> ls !! i = Some x -> thread_slice l n (Z.of_nat i) = Ok x.
Proof.
  intros E Hi. apply (f_equal (fun l => l !! i)) in E. rewrite !list_lookup_fmap, Hi in E. cbn in E.
  unfold upto in E. destruct (seqZ 0 n !! i) as [j|] eqn:Ej; [|done]. apply lookup_seqZ in Ej as [-> _].
  cbn [fmap option_fmap option_map] in E. rewrite Z.add_0_l in E. congruence.
Qed.

Lemma slices_length {A} (l : list A) n ls :
  0 <= n -> map (thread_slice l n) (upto n) = map Ok ls -> length ls = Z.to_nat n.
Proof.
  intros Hn E. apply (f_equal length) in E. unfold upto in E. by rewrite !length_map, length_seqZ in E.
Qed.

Section Plan.
Context (reads : list str) (wl rl : list (list str)) (HP : plan reads wl rl).

Lemma plan_writers_length : length wl = nw.
Proof. apply (slices_length (keys_of cfg)); [lia | apply HP]. Qed.
Lemma plan_readers_length : length rl = nr.
Proof. apply (slices_length reads); [lia | apply HP]. Qed.

Lemma plan_follows : follows (plan_todos wl rl) plan_readers (concurrent_script cfg reads).
Proof.
  intros i l b n Hl Hb. unfold plan_todos, plan_readers in *. cbn [next_command counts concurrent_script].
  pose proof plan_writers_length as L1. destruct (Nat.ltb_spec i nw) as [Hi|Hi].
  - rewrite lookup_app_l in Hl by (rewrite length_map; lia). rewrite lookup_app_l in Hb by (rewrite length_replicate; lia).
    apply lookup_replicate in Hb as [-> _]. rewrite list_lookup_fmap in Hl.
    destruct (wl !! i) as [x|] eqn:E; [|done]. cbn in Hl. injection Hl as <-.
    rewrite (slices_lookup (keys_of cfg) _ wl i x) by (apply HP || done). cbn [rbind].
    rewrite list_lookup_fmap. split; [done|]. apply Nat.leb_gt. lia.
  - rewrite lookup_app_r, length_map, L1 in Hl by (rewrite length_map; lia).
    rewrite lookup_app_r, length_replicate in Hb by (rewrite length_replicate; lia).
    apply lookup_replicate in Hb as [-> _]. rewrite list_lookup_fmap in Hl.
    destruct (rl !! (i - nw)%nat) as [x|] eqn:E; [|done]. cbn in Hl. injection Hl as <-.
    rewrite (slices_lookup reads _ rl (i - nw) x) by (apply HP || done). cbn [rbind].
    rewrite list_lookup_fmap. split; [done|]. apply Nat.leb_le. lia.
Qed.

Lemma elem_of_concat_intro {A} (x : A) l ls : x ∈ l -> l ∈ ls -> x ∈ concat ls.
Proof.
  intros Hx. induction ls as [|a ls IH]; [by intros ?%not_elem_of_nil|].
  intros [->|Hl]%elem_of_cons; cbn; apply elem_of_app; [by left | right; by apply IH].
Qed.

Lemma plan_allowed : Forall (Forall (allowed (keys_of cfg) value)) (plan_todos wl rl).
Proof.
  unfold plan_todos. apply Forall_app. split; apply Forall_forall; intros l Hl;
    apply list_elem_of_fmap in Hl as (ks & -> & Hks); apply Forall_forall; intros c Hc;
    apply list_elem_of_fmap in Hc as (k & -> & Hk); cbn [allowed write_x].
  - pose proof (elem_of_concat_intro k ks wl Hk Hks) as Hin. rewrite (pl_keys _ _ _ HP) in Hin.
    pose proof (keys_of_ok cfg k Hcfg Hin). split_and!; [done | done | done |].
    apply key_value_ok; [done | lia | apply Hcfg].
  - pose proof (elem_of_concat_intro k ks rl Hk Hks) as Hin. rewrite (pl_all _ _ _ HP) in Hin.
    destruct (spread_elem _ _ _ _ _ (pl_reads _ _ _ HP) Hin) as [Hk'|(i & Hi & ->)].
    + by apply (keys_of_ok cfg).
    + apply missing_key_ok. pose proof (co_count _ Hcfg). split; lia.
Qed.

Lemma plan_length : length (plan_todos wl rl) = (nw + nr)%nat.
Proof. unfold plan_todos. by rewrite length_app, !length_map, plan_writers_length, plan_readers_length. Qed.

(** Nothing of the workload is in the way: keys are absent or readable. *)
Definition readable m : Prop :=
  forall k, k ∈ keys_of cfg -> m !! k = None \/ exists v, m !! k = Some (v, None) /\ kv_ok k v None.

Lemma plan_map_ok m : readable m -> no_missing cfg m -> map_ok (keys_of cfg) (plan_todos wl rl) m.
Proof.
  intros Hrd Hn. split; [done|]. intros k l Hl Hk Hout. unfold plan_todos in Hl.
  apply elem_of_app in Hl as [Hl|Hl]; apply list_elem_of_fmap in Hl as (ks & -> & Hks);
    apply list_elem_of_fmap in Hk as (k' & E & Hk); [done|]. injection E as <-.
  pose proof (elem_of_concat_intro k ks rl Hk Hks) as Hin. rewrite (pl_all _ _ _ HP) in Hin.
  destruct (spread_elem _ _ _ _ _ (pl_reads _ _ _ HP) Hin) as [|(i & Hi & ->)]; [done | by apply Hn].
Qed.

Lemma starting_new n : starting (pool_new n) = n.
Proof. unfold starting, pool_new. cbn. by induction n; cbn; f_equal. Qed.

Lemma plan_pool_inv k st m :
  sp_good (k + (nw + nr)) (peer_state st) -> inbox st = ∅ -> store_inv (database (server_of st)) m ->
  readable m -> no_missing cfg m ->
  pool_inv N ccfg (keys_of cfg) (plan_todos wl rl) plan_readers k (pool_new (nw + nr)) st m.
Proof.
  intros Hg Hin Hi Hrd Hn. split; rewrite ?starting_new; try done.
  - cbn. by rewrite length_replicate, plan_length.
  - unfold plan_readers. by rewrite length_app, !length_replicate, plan_length.
  - intros i t l b Ht _ _. cbn in Ht. by apply lookup_replicate in Ht as [-> _].
  - cbn. by rewrite length_replicate.
  - by apply plan_map_ok.
  - intros c. by rewrite Hin, lookup_empty.
Qed.

(** ** Joining *)

#[local] Abbreviation thread_ok := (thread_ok ccfg (keys_of cfg)).

Lemma written_app m a b : written m a -> written m b -> written m (a ++ b).
Proof. intros Ha Hb k v e [H|H]%elem_of_app; eauto. Qed.

Lemma collect_ok st m counted ls : forall ts all,
  Forall2 (thread_ok st m counted) ls ts ->
  (collect counted all ts = None /\ Exists (fun t => finished t = false) ts) \/
  exists ph, collect counted all ts = Some (Ok ph) /\
    len (latencies ph) = len (latencies all) + len (concat ls) /\ written m (concat ls) /\
    if counted
    then misses all + len (List.filter (is_missing (keys_of cfg)) (concat ls)) <= misses ph
         <= misses all + len (concat ls)
    else misses ph = misses all.
Proof.
  induction ls as [|l ls IH]; intros ts all HF; inversion HF as [|? t ? ts' Ht HF']; subst; cbn [collect concat].
  { right. exists all. split; [done|]. split; [change (len (@nil Command)) with 0; lia|].
    split; [by intros ??? ?%not_elem_of_nil|]. destruct counted; [|done].
    cbn [List.filter]. change (len (@nil Command)) with 0. lia. }
  destruct t as [|c|c s d ms|[p| |]]; try (left; split; [done | by left]); try done. cbn in Ht.
  destruct Ht as [Hl [_ Hwr Hms]]. rewrite take_ge in Hwr, Hms by done.
  destruct (IH ts' (add_thread counted all p) HF') as [[E Hex]|(ph & E & Hlen & Hw' & Hm)]; [left; split; [done | by right]|].
  right. exists ph. split; [exact E|]. cbn [add_thread latencies misses] in Hlen, Hm.
  assert (El : len (latencies p) = len l) by (unfold len; by rewrite Hl).
  split; [rewrite Hlen, !len_app; lia|]. split; [by apply written_app|].
  destruct counted; [|done]. rewrite List.filter_app, !len_app. cbn iota in Hms, Hm.
  unfold len in Hms, Hm |- *. lia.
Qed.

Lemma pool_threads_ok k p st m :
  pool_inv N ccfg (keys_of cfg) (plan_todos wl rl) plan_readers k p st m ->
  Forall2 (thread_ok st m false) (map (map (write_x cfg)) wl) (take nw (threads p)) /\
  Forall2 (thread_ok st m true) (map (map CRead) rl) (drop nw (threads p)).
Proof.
  intros [H1 H2 H3 _ _ _ _ _ _]. pose proof (plan_writers_length) as L1. pose proof plan_readers_length as L2.
  rewrite plan_length in H1.
  split; apply Forall2_same_length_lookup_2.
  - rewrite length_map, length_take. lia.
  - intros i l t Hl Ht. apply lookup_take_Some in Ht as [Ht Hi]. eapply H3; [exact Ht | |].
    + unfold plan_todos. rewrite lookup_app_l; [done|]. by eapply lookup_lt_Some.
    + unfold plan_readers. rewrite lookup_app_l by (rewrite length_replicate; lia). by apply lookup_replicate_2.
  - rewrite length_map, length_drop. lia.
  - intros i l t Hl Ht. rewrite lookup_drop in Ht. eapply H3; [exact Ht | |].
    + unfold plan_todos. rewrite lookup_app_r; rewrite length_map; [|lia].
      by replace (nw + i - length wl)%nat with i by lia.
    + unfold plan_readers. rewrite lookup_app_r by (rewrite length_replicate; lia).
      apply lookup_replicate_2. rewrite length_replicate. apply lookup_lt_Some in Ht. lia.
Qed.

Lemma concat_map_map {A B} (f : A -> B) ls : concat (map (map f) ls) = map f (concat ls).
Proof. induction ls as [|l ls IH]; cbn; [done|]. by rewrite map_app, IH. Qed.

Lemma missing_reads ks :
  len (List.filter (is_missing (keys_of cfg)) (map CRead ks)) = len (absent (keys_of cfg) ks).
Proof.
  unfold absent, surviving_keys. induction ks as [|k ks IH]; cbn; [done|].
  case_bool_decide; cbn; rewrite ?len_cons; lia.
Qed.

(** What joining the threads gives, once they have all ended. *)
Record joined (w r : PhaseResult) : Prop := {
  jn_writes : len (latencies w) = bc_count cfg;
  jn_no_misses : misses w = 0;
  jn_reads : len (latencies r) = bc_count cfg;
  jn_misses : fraction (bc_count cfg) (miss_ratio cfg) <= misses r <= bc_count cfg;
}.

Lemma threads_joined k p st m :
  pool_inv N ccfg (keys_of cfg) (plan_todos wl rl) plan_readers k p st m ->
  (join_all nw p = None /\ Exists (fun t => finished t = false) (threads p)) \/
  exists w r, join_all nw p = Some (Ok (w, r)) /\ joined w r /\ loaded cfg m.
Proof.
  intros Hi. destruct (pool_threads_ok k p st m Hi) as [HF1 HF2]. unfold join_all.
  pose proof (co_count _ Hcfg) as Hc.
  assert (Hex : forall ts, ts ⊆ threads p -> Exists (fun t => finished t = false) ts ->
    Exists (fun t => finished t = false) (threads p)).
  { intros ts Hsub (t & Hin & Ht)%Exists_exists. apply Exists_exists. eauto. }
  destruct (collect_ok st m false _ _ no_phase HF1) as [[-> He]|(w & -> & L1 & W1 & M1)].
  { left. split; [done|]. eapply Hex; [|exact He]. intros t Ht.
    rewrite <- (take_drop nw (threads p)). apply elem_of_app. by left. }
  destruct (collect_ok st m true _ _ no_phase HF2) as [[-> He]|(r & -> & L2 & W2 & M2)].
  { left. split; [done|]. eapply Hex; [|exact He]. intros t Ht.
    rewrite <- (take_drop nw (threads p)). apply elem_of_app. by right. }
  right. exists w, r. split; [done|]. rewrite concat_map_map in *.
  rewrite (pl_keys _ _ _ HP) in *. rewrite (pl_all _ _ _ HP) in *.
  pose proof (pl_reads _ _ _ HP) as Hs. pose proof Hs as [Hlen _].
  pose proof (fraction_nonneg (bc_count cfg) (miss_ratio cfg)). pose proof (co_miss _ Hcfg).
  split; [split|].
  - rewrite L1, len_map. cbn. apply len_bench_keys. lia.
  - done.
  - rewrite L2, len_map. cbn. exact Hlen.
  - rewrite missing_reads, len_map, Hlen in M2.
    assert (Hab : len (absent (keys_of cfg) reads) = fraction (bc_count cfg) (miss_ratio cfg))
      by (eapply spread_total; [intros; apply missing_absent | exact Hs | lia | nia]).
    rewrite Hab in M2. cbn [misses no_phase] in M2. lia.
  - intros k' Hk. exists value. split.
    + apply (W1 k' value None). apply list_elem_of_fmap. by exists k'.
    + apply key_value_ok; [by apply (keys_of_ok cfg) | lia | apply Hcfg].
Qed.

(** The phases that follow, on two more connections. *)
Lemma concurrent_tail_run k st m w r :
  range_commands cfg = [] -> sp_good (Datatypes.S (Datatypes.S k)) (peer_state st) ->
  (forall c, default [] (inbox st !! c) = []) -> store_inv (database (server_of st)) m -> loaded cfg m ->
  (ticks_of (database (serve_all ccfg (tail_commands cfg)
     (count_connections 1 (count_connections 1 (server_of st))))) <= N)%nat ->
  exists st' res, concurrent_tail cfg w r st = (st', Ok res) /\ r_write res = w /\ r_read res = r /\
    tail_counts cfg (r_delete res) (r_post_del res) (r_overwrite res) (r_post_ow res).
Proof.
  intros Hrg Hg Hin Hi Hl Ht. unfold concurrent_tail. rewrite Hrg.
  destruct (sp_connect _ (peer_state st) Hg) as (c1 & s1 & E1 & Hs1 & Hg1 & Ho1 & _).
  erewrite (st_bind_Ok (on_peer connect)) by (unfold on_peer; by rewrite E1).
  unfold phase at 1. cbn [timed_loop].
  erewrite st_bind_Ok by (unfold st_bind, now, elapsed_since, st_ret; cbn; reflexivity).
  destruct (sp_connect _ s1 Hg1) as (c2 & s2 & E2 & Hs2 & Hg2 & Ho2 & _).
  erewrite (st_bind_Ok (on_peer connect)) by (unfold on_peer; cbn [peer_state]; by rewrite E2).
  cbn [inbox instants_read]. set (st2 := mkBench s2 (inbox st) _).
  assert (Hsrv : server_of st2 = count_connections 1 (count_connections 1 (server_of st)))
    by (unfold KvbenchTheorems.server_of; cbn; by rewrite Hs2, Hs1).
  destruct (tail_run N ccfg cfg k st2 c2 m) as (st3 & d & pd & o & po & E3 & _ & Htc & _); try done.
  { split; [done | done | apply Hin | by rewrite Hsrv]. }
  { by rewrite Hsrv. }
  rewrite (st_bind_Ok _ _ _ _ _ E3). eexists _, _. by split_and!.
Qed.
End Plan.

(** C23: what the concurrent mode counts, under every interleaving, against a server
    whose engine keeps the laws of [Store], which accepts every connection and
    serves each request whole, and without RANGE requests (a window of 0, or
    one larger than the number of keys). Whatever order
    the requests of the writer and reader threads take, no request fails; once
    the threads have ended, one latency per key was measured on each side, and
    the reads that missed are at least the asked-for share of missing keys and
    at most all; every key has been written, so that the phases that follow
    count exactly what they count in the sequential mode. *)
Theorem concurrent_counts k st m :
  range_commands cfg = [] -> sp_good (Datatypes.S (Datatypes.S k) + (nw + nr)) (peer_state st) ->
  inbox st = ∅ -> store_inv (database (server_of st)) m -> readable m -> no_missing cfg m ->
  exists reads, read_keys_of cfg = Ok reads /\ forall sched, Forall is_run sched ->
    in_time N ccfg (concurrent_script cfg reads) sched (pool_new (nw + nr)) st ->
    exists st1 p, pool_run (concurrent_script cfg reads) sched (pool_new (nw + nr)) st = (st1, Ok p) /\
      (join_all nw p = None \/
       exists w r, join_all nw p = Some (Ok (w, r)) /\ joined w r /\
         ((ticks_of (database (serve_all ccfg (tail_commands cfg)
             (count_connections 1 (count_connections 1 (server_of st1))))) <= N)%nat ->
          exists st2 res, concurrent_tail cfg w r st1 = (st2, Ok res) /\
            r_write res = w /\ r_read res = r /\
            tail_counts cfg (r_delete res) (r_post_del res) (r_overwrite res) (r_post_ow res))).
Proof.
  intros Hrg Hg Hin Hi Hrd Hn. destruct plan_exists as (reads & wl & rl & Er & HP).
  exists reads. split; [exact Er|]. intros sched Hrun Ht.
  pose proof (plan_pool_inv reads wl rl HP _ st m Hg Hin Hi Hrd Hn) as Hinv.
  destruct (pool_run_keeps N ccfg _ _ _ _ _ _ sched _ st m Hinv (plan_allowed reads wl rl HP)
    (plan_follows reads wl rl HP) Hrun Ht) as (st1 & p & m1 & E & Hi1).
  exists st1, p. split; [exact E|].
  destruct (threads_joined reads wl rl HP _ _ _ _ Hi1) as [[? _]|(w & r & Ej & Hj & Hl)]; [by left | right].
  exists w, r. split; [done|]. split; [done|]. intros Ht1. eapply concurrent_tail_run; try done; try apply Hi1.
Qed.

Lemma plan_todo_length reads wl rl l :
  plan reads wl rl -> l ∈ plan_todos wl rl -> (length l <= Z.to_nat (bc_count cfg))%nat.
Proof.
  intros HP Hl. pose proof (co_count _ Hcfg) as Hc.
  assert (Hin : forall {A} (x : list A) ls, x ∈ ls -> (length x <= length (concat ls))%nat).
  { intros A x ls [i Hi]%list_elem_of_lookup. rewrite <- (take_drop_middle _ _ _ Hi), concat_app.
    cbn. rewrite !length_app. lia. }
  pose proof (len_bench_keys (bc_count cfg) ltac:(lia)) as Hk. destruct (pl_reads _ _ _ HP) as [Hrd _].
  unfold plan_todos in Hl. apply elem_of_app in Hl as [Hl|Hl]; apply list_elem_of_fmap in Hl as (ks & -> & Hks);
    rewrite length_map; apply Hin in Hks.
  - rewrite (pl_keys _ _ _ HP) in Hks. unfold keys_of, len in *. lia.
  - rewrite (pl_all _ _ _ HP) in Hks. unfold len in *. lia.
Qed.

(** C24: the concurrent mode ends. When every thread gets its turn again and
    again, [count + 3] rounds are enough for all of them to connect, pass the
    barrier, make their requests and end, and joining them gives the results. *)
Theorem concurrent_ends k st m :
  sp_good (k + (nw + nr)) (peer_state st) -> inbox st = ∅ -> store_inv (database (server_of st)) m ->
  readable m -> no_missing cfg m ->
  exists reads, read_keys_of cfg = Ok reads /\
    let sched := concat (replicate (Z.to_nat (bc_count cfg) + 3) (map Run (seq 0 (nw + nr)))) in
    (in_time N ccfg (concurrent_script cfg reads) sched (pool_new (nw + nr)) st ->
     exists st1 p w r, pool_run (concurrent_script cfg reads) sched (pool_new (nw + nr)) st = (st1, Ok p) /\
       join_all nw p = Some (Ok (w, r)) /\ joined w r).
Proof.
  intros Hg Hin Hi Hrd Hn. destruct plan_exists as (reads & wl & rl & Er & HP).
  exists reads. split; [exact Er|]. intros sched Ht.
  pose proof (plan_pool_inv reads wl rl HP _ st m Hg Hin Hi Hrd Hn) as Hinv.
  assert (Esched : sched = rounds (plan_todos wl rl) (Z.to_nat (bc_count cfg) + 3))
    by (unfold rounds; by rewrite (plan_length reads wl rl HP)).
  rewrite Esched in Ht |- *.
  destruct (rounds_run N ccfg _ _ _ _ _ _ (Z.to_nat (bc_count cfg) + 3) 0 _ st m Hinv (plan_allowed reads wl rl HP)
    (plan_follows reads wl rl HP)) as (st1 & p & m1 & E & Hi1 & Hr1); [intros j t _; right; lia | done|].
  pose proof (rounds_finish N ccfg _ _ _ _ _ _ _ _ Hi1 Hr1) as Hf.
  destruct (threads_joined reads wl rl HP _ _ _ _ Hi1) as [[_ Hex]|(w & r & Ej & Hj & _)]; [|by exists st1, p, w, r].
  exfalso. apply Exists_exists in Hex as (t & Hint & Hfin). rewrite Forall_forall in Hf.
  rewrite Hf in Hfin; [done | | done]. intros l Hl.
  pose proof (plan_todo_length reads wl rl l HP Hl). lia.
Qed.
End Concurrent.

(** ** A thread that cannot connect *)

Section Deadlock.
Context {St : Type} `{PE : Peer St} `{IN : Instants}.

(** A thread has failed before the barrier, and none has passed it. *)
Record stuck (p : Pool) : Prop := {
  sk_short : (arrived p + starting p < length (threads p))%nat;
  sk_waiting : exists c, threads p !! 0%nat = Some (Waiting c);
  sk_none : forall i c s d ms, threads p !! i <> Some (Running c s d ms);
}.

Lemma stuck_set p i t' :
  stuck p -> threads p !! i = Some Starting -> is_starting t' = false ->
  (forall c s d ms, t' <> Running c s d ms) ->
  (exists c, <[i := t']> (threads p) !! 0%nat = Some (Waiting c)) /\
  forall j c s d ms, <[i := t']> (threads p) !! j <> Some (Running c s d ms).
Proof.
  intros [_ [c0 H0] H1] Hi Hs Hr. split.
  - exists c0. rewrite list_lookup_insert_ne; [done|]. intros ->. congruence.
  - intros j c s d ms Hj. destruct (decide (j = i)) as [->|].
    + rewrite list_lookup_insert_eq in Hj by (by eapply lookup_lt_Some). injection Hj as ->. by eapply Hr.
    + rewrite list_lookup_insert_ne in Hj by done. by eapply H1.
Qed.

Lemma stuck_step sc a p (st : BenchState St) :
  stuck p -> exists st' p', pool_step sc a p st = (st', Ok p') /\ stuck p'.
Proof.
  intros Hs. pose proof Hs as [H1 H2 H3]. destruct a as [i|]; cbn [pool_step];
    [|eexists _, _; split; [reflexivity | by split]].
  destruct (threads p !! i) as [t|] eqn:Ht; [|by exists st, p].
  destruct t as [|c|c s d ms|r]; cbn [thread_step]; [| |by apply H3 in Ht | by exists st, p].
  - pose proof (starting_insert p i Starting) as Hn.
    destruct (on_peer connect st) as [st' [c|e|]]; eexists _, _; (split; [reflexivity|]).
    + destruct (stuck_set p i (Waiting c) Hs Ht eq_refl) as [G1 G2]; [done|]. specialize (Hn (Waiting c) Ht).
      split; [|exact G1 | exact G2]. unfold starting at 1. cbn in Hn |- *. rewrite length_insert. lia.
    + destruct (stuck_set p i (Finished (Err e)) Hs Ht eq_refl) as [G1 G2]; [done|].
      specialize (Hn (Finished (Err e)) Ht).
      split; [|exact G1 | exact G2]. unfold starting at 1. cbn in Hn |- *. rewrite length_insert. lia.
    + destruct (stuck_set p i (Finished Panic) Hs Ht eq_refl) as [G1 G2]; [done|].
      specialize (Hn (Finished Panic) Ht).
      split; [|exact G1 | exact G2]. unfold starting at 1. cbn in Hn |- *. rewrite length_insert. lia.
  - rewrite (proj2 (Nat.ltb_lt _ _)) by lia. by exists st, p.
Qed.

(** A thread that cannot connect hangs the program: it returns before the
    barrier, which was made for all of them. Once the first thread waits
    there, it waits for ever and [join] never returns, whatever the schedule,
    in the concurrent as in the mixed mode. *)
Theorem failed_connect_hangs sc sched p (st : BenchState St) nw :
  stuck p -> (0 < nw)%nat ->
  exists st' p', pool_run sc sched p st = (st', Ok p') /\ join_all nw p' = None.
Proof.
  intros Hs Hnw. revert p st Hs. induction sched as [|a sched IH]; intros p st Hs; cbn [pool_run].
  - exists st, p. split; [done|]. destruct Hs as [_ [c H0] _]. unfold join_all.
    destruct (threads p) as [|t ts]; [done|]. injection H0 as ->. by destruct nw.
  - destruct (stuck_step sc a p st Hs) as (st1 & p1 & E & Hs1). rewrite (st_bind_Ok _ _ _ _ _ E). by apply IH.
Qed.
End Deadlock.

(** ** Examples *)

#[local] Existing Instances example_clock sorted_order ExServer.no_text ExServer.no_delay.

Module ExBench.
Definition libm : Libm := {| f_ln := id; f_exp := id; f_powf := fun x _ => x |}.
Definition instants : Instants := fun n => Z.of_nat n * 1000.

(** Four keys, of which two are deleted; a quarter of the reads misses. *)
Definition cfg : BenchConfig :=
  mkBenchConfig (bs "127.0.0.1:6666") 4 3 (f64_lit 1 4) 0 (f64_lit 1 2) 2 (Some (as_f64 1)) 2 2 10.
Definition ranged : BenchConfig :=
  mkBenchConfig (bs "127.0.0.1:6666") 4 3 (f64_lit 1 4) 2 (f64_lit 1 2) 2 None 2 2 10.

Lemma cfg_ok : config_ok cfg.
Proof. split; vm_compute; split || idtac; congruence. Qed.

(** A new server with a hash engine, and no connection. *)
Definition server : WorkerState KvState :=
  (worker_new None, mkServer (state_or (opened (bs "db") 1000 FsNever)) stats_new 0).
Definition start : BenchState (WorkerState KvState) := mkBench server ∅ 0.
End ExBench.

#[local] Existing Instances ExBench.libm ExBench.instants.
#[local] Instance ex_peer : Peer (WorkerState KvState) := worker_peer ExServer.cfg slow_net.
#[local] Instance ex_serves : ServerPeer ExServer.cfg KvState (WorkerState KvState) :=
  worker_serves ExServer.cfg slow_net.

Lemma ex_good k : (k < 1000)%nat -> sp_good k (peer_state ExBench.start).
Proof. intros Hk. split_and!; cbn; try done; lia. Qed.

Lemma ex_store : exists GC : GoodClock 200, store_inv (Store := kv_store 200) (database (snd ExBench.server)) ∅.
Proof.
  pose proof (example_clock_good 200 ltac:(lia)) as GC. exists GC.
  destruct (fresh_engine 200 (bs "db") 1000 FsNever ltac:(lia)) as (w & e & E & Hi & _).
  change (database (snd ExBench.server)) with (state_or (opened (bs "db") 1000 FsNever)).
  assert (Hs : state_or (opened (bs "db") 1000 FsNever) = mkKvState e w)
    by (unfold opened, state_or; by rewrite E).
  rewrite Hs. exact Hi.
Qed.

Lemma sequential_counts_witness :
  exists st' r, sequential_phases ExBench.cfg ExBench.start = (st', Ok r) /\
    len (latencies (r_write r)) = 4 /\ misses (r_write r) = 0 /\
    len (latencies (r_read r)) = 4 /\ misses (r_read r) = 1 /\
    tail_counts ExBench.cfg (r_delete r) (r_post_del r) (r_overwrite r) (r_post_ow r).
Proof.
  destruct ex_store as [GC Hi].
  destruct (sequential_counts 200 (ST0 := kv_store 200) ExServer.cfg ExBench.cfg 0 ExBench.start ∅)
    as (reads & Er & H);
    [exact ExBench.cfg_ok | reflexivity | apply ex_good; lia | reflexivity | exact Hi
    | intros i _; apply lookup_empty |].
  vm_compute in Er. injection Er as <-. apply H. vm_compute. lia.
Defined.

Lemma concurrent_counts_witness :
  exists reads, read_keys_of ExBench.cfg = Ok reads /\
    let sched := concat (replicate 5 (map Run [3; 0; 2; 1]%nat)) in
    exists st1 p, pool_run (concurrent_script ExBench.cfg reads) sched (pool_new 4) ExBench.start = (st1, Ok p) /\
      exists w r, join_all 2 p = Some (Ok (w, r)) /\ joined ExBench.cfg w r.
Proof.
  destruct ex_store as [GC Hi].
  destruct (concurrent_counts 200 (ST0 := kv_store 200) ExServer.cfg ExBench.cfg ExBench.cfg_ok
    ltac:(cbn; lia) ltac:(cbn; lia) 0 ExBench.start ∅) as (reads & Er & H);
    [reflexivity | apply ex_good; cbn; lia | reflexivity | exact Hi
    | intros k _; left; apply lookup_empty | intros i _; apply lookup_empty |].
  exists reads. split; [exact Er|]. vm_compute in Er. injection Er as <-. intros sched.
  destruct (H sched) as (st1 & p & E & Hj); [by repeat constructor |
    clear; vm_compute; repeat split; apply Nat.leb_le; reflexivity |].
  exists st1, p. split; [exact E|]. destruct Hj as [Hj|(w & r & Hj & Hjoin & _)];
    [|exists w, r; split; [exact Hj | exact Hjoin]].
  exfalso. apply (f_equal (fun x => match x.2 with Ok p => join_all 2 p | _ => None end)) in E.
  cbn [snd] in E. change (join_all 2 p = None) in Hj. rewrite Hj in E. vm_compute in E. discriminate.
Defined.

Lemma concurrent_ends_witness :
  exists reads, read_keys_of ExBench.cfg = Ok reads /\
    exists st1 p w r, pool_run (concurrent_script ExBench.cfg reads)
        (concat (replicate 7 (map Run [0; 1; 2; 3]%nat))) (pool_new 4) ExBench.start = (st1, Ok p) /\
      join_all 2 p = Some (Ok (w, r)) /\ joined ExBench.cfg w r.
Proof.
  destruct ex_store as [GC Hi].
  destruct (concurrent_ends 200 (ST0 := kv_store 200) ExServer.cfg ExBench.cfg ExBench.cfg_ok
    ltac:(cbn; lia) ltac:(cbn; lia) 0 ExBench.start ∅) as (reads & Er & H);
    [apply ex_good; cbn; lia | reflexivity | exact Hi
    | intros k _; left; apply lookup_empty | intros i _; apply lookup_empty |].
  exists reads. split; [exact Er|]. vm_compute in Er. injection Er as <-. apply H.
  clear. vm_compute. repeat split; apply Nat.leb_le; reflexivity.
Defined.

(** With the hash engine the sequential mode fails as soon as there is a range to
    ask for: RANGE is answered with an error, which ends the run before
    anything is reported. The default window of 100 and the default 10000 keys
    make this the normal case. *)
Theorem kvbench_fails_on_hash_engine :
  (sequential ExBench.ranged ExBench.start).2 = Err Other.
Proof. vm_compute. reflexivity. Qed.

(** A peer whose second connection is refused. *)
Definition refusing : Peer nat := {|
  connect := fun n => (S n, if (n =? 1)%nat then Err Other else Ok (Z.of_nat n));
  answer := fun _ _ n => (n, Ok []);
|}.

Lemma failed_connect_hangs_witness :
  exists st p, pool_run (PE := refusing) (mixed_script ExBench.cfg) [Run 0; Run 1] (pool_new 4) (mkBench 0%nat ∅ 0)
      = (st, Ok p) /\
  forall sched, exists st' p', pool_run (PE := refusing) (mixed_script ExBench.cfg) sched p st = (st', Ok p') /\
    join_all 2 p' = None.
Proof.
  eexists _, _. split; [vm_compute; reflexivity|]. intros sched.
  apply (failed_connect_hangs (PE := refusing)); [|lia].
  split; [vm_compute; lia | by eexists |]. intros [|[|[|[|i]]]] c s d ms; done.
Defined.

