(* ===== verification/Engbench.v ===== *)
(** * The in-process benchmark, the comparison with Redis and the LZ77 benchmark

    src/src/bin/engbench.rs drives engines directly through the [BenchEngine]
    trait; src/src/bin/redis-compare.rs drives a server over the network, or
    Redis; src/src/bin/lz77bench.rs compresses and checks some data. The sled
    database and the Redis client are arguments. As in [Bench], the decimal
    rendering of floats is left out: what is printed is a record of values, and
    nothing when a later step fails. *)

From S2P Require Import Prelude Utf8 Text Words Record Settings HashIndex World Engine KvEngine KvLog.
From S2P Require Import KvInv KvOps KvSpec Bffp Float Stats Dispatch Connection Worker Session.
From S2P Require Import Store ServerTheorems Client Bench Kvbench KvbenchTheorems Lz77.
From S2P Require Import KvTheorems Strategy SizeTiered LsmEngine TableInv LsmTheorems.

(** ** Statistics that do not fail on an empty phase *)

Module Eng.
Record LatencyStats := mkLatencyStats {
  throughput : Z;
  min : Z;
  mean : Z;
  p99 : Z;
  max : Z;
}.

(** [sorted.get(i).copied().unwrap_or(Duration::ZERO)]. *)
Definition get_or_zero (l : list Z) (i : Z) : Z := default 0 (l !! Z.to_nat i).

(** [p99_idx.min(sorted.len().saturating_sub(1))]. *)
Definition p99_index (count : Z) : Z :=
  Z.min (f64_to_uint 64 (f64_mul (as_f64 count) (f64_lit 99 100))) (Z.max 0 (count - 1)).

Definition from_durations (durations : list Z) (wall_time : Z) : result LatencyStats :=
  let l := sorted durations in
  let count := len durations in
  let throughput :=
    if f_gt (as_secs_f64 wall_time) f64_zero
    then f64_to_uint 64 (f64_div (as_f64 count) (as_secs_f64 wall_time)) else 0 in
  let? mean := (if 0 <? count then
                  let? total := duration_sum 0 durations in Ok (wrap64 total / count)
                else Ok 0) in
  Ok (mkLatencyStats throughput (default 0 (head l)) mean (get_or_zero l (p99_index count))
        (default 0 (last l))).

(** What [format_duration] shows: seconds as a float, or an integer of a smaller
    unit. *)
Inductive Shown := Secs (s : spec_float) | Millis (n : Z) | Micros (n : Z) | Nanoseconds (n : Z).

Definition format_duration (d : Z) : Shown :=
  if 0 <? d / 10 ^ 9 then Secs (as_secs_f64 d)
  else if 0 <? d / 10 ^ 6 then Millis (d / 10 ^ 6)
  else if 0 <? d / 10 ^ 3 then Micros (d / 10 ^ 3)
  else Nanoseconds d.
End Eng.

(** ** The engines under test *)

Class BenchEngine (E : Type) := {
  be_write : bytes -> bytes -> ST E unit;
  be_read : bytes -> ST E bool;
}.

(** [LsmEngineAdapter] and [KvEngineAdapter] differ in the engine only. *)
#[export] Instance engine_adapter {S} `{StorageEngine S} : BenchEngine S := {
  be_write key value := e_set (from_utf8_lossy key) (from_utf8_lossy value);
  be_read key :=
    let* r := e_get (from_utf8_lossy key) in
    st_ret (match r with Some _ => true | None => false end);
}.

(** [SledAdapter], given what sled does; its errors become [Other]. *)
Definition sled_adapter {D} (insert : bytes -> bytes -> ST D (option bytes)) (get : bytes -> ST D (option bytes))
    : BenchEngine D := {|
  be_write key value := let* _ := insert key value in st_ret tt;
  be_read key := let* r := get key in st_ret (match r with Some _ => true | None => false end);
|}.

(** ** Phases *)

Section Engbench.
Context {E : Type} `{BE : BenchEngine E} `{IN : Instants}.

(** The engine, and the readings of [Instant::now] so far. *)
Definition EngState : Type := E * nat.

Definition eng_now : ST EngState Z := fun s => ((s.1, S s.2), Ok (instant s.2)).
Definition on_engine {A} (m : ST E A) : ST EngState A := fun s =>
  let '(e, r) := m s.1 in ((e, s.2), r).

Fixpoint phase_loop (is_write : bool) (values : list bytes) (i : Z) (keys : list bytes)
    : ST EngState (list Z) :=
  match keys with
  | [] => st_ret []
  | key :: keys' =>
      let* op_start := eng_now in
      let* _ :=
        (if is_write then
           if len values =? 0 then st_lift Panic
           else
             let* value := st_lift (index values (i mod len values)) in
             on_engine (be_write key value)
         else let* _ := on_engine (be_read key) in st_ret tt) in
      let* op_end := eng_now in
      let* rest := phase_loop is_write values (i + 1) keys' in
      st_ret (Z.max 0 (op_end - op_start) :: rest)
  end.

Definition run_phase (keys values : list bytes) (is_write : bool) : ST EngState Eng.LatencyStats :=
  let* start := eng_now in
  let* durations := phase_loop is_write values 0 keys in
  let* stop := eng_now in
  st_lift (Eng.from_durations durations (Z.max 0 (stop - start))).

(** What is printed of a phase: the number of operations, the throughput and the
    four latencies. *)
Record EngReport := mkEngReport {
  er_ops : Z;
  er_throughput : Z;
  er_min : Eng.Shown;
  er_mean : Eng.Shown;
  er_p99 : Eng.Shown;
  er_max : Eng.Shown;
}.

Definition eng_report (keys : list bytes) (s : Eng.LatencyStats) : EngReport :=
  mkEngReport (len keys) (Eng.throughput s) (Eng.format_duration (Eng.min s))
    (Eng.format_duration (Eng.mean s)) (Eng.format_duration (Eng.p99 s)) (Eng.format_duration (Eng.max s)).

Definition benchmark_engine (keys values : list bytes) : ST EngState (EngReport * EngReport) :=
  let* write_stats := run_phase keys values true in
  let* read_stats := run_phase keys values false in
  st_ret (eng_report keys write_stats, eng_report keys read_stats).
End Engbench.
#[global] Arguments EngState : clear implicits.

(** ** Creating the engines *)

Section Create.
Context `{Clock} `{Nanos} `{SetOrder} `{HashOrder}.

(** [remove_dir_all], whose failure is ignored, then [create_dir_all]. *)
Definition fresh_dir (mkdir : result unit) : ST World unit :=
  let* _ := st_modify (fun w => mkWorld ∅ ∅ (ticks w)) in st_lift mkdir.

Definition create_lsm_engine (mkdir : result unit) : ST World (LsmEngine SizeTiered) :=
  let* _ := fresh_dir mkdir in
  lsm_new (bs "bench") 10000000 (st_new 4 32 4096 false) 4096 false.

Definition create_kv_engine (mkdir : result unit) : ST World KVEngine :=
  let* _ := fresh_dir mkdir in
  kv_new (bs "bench") 52428800 FsNever.
End Create.

(** ** Arguments *)

(** [engines_str.split(',')]. *)
Fixpoint split_commas (acc s : str) : list str :=
  match s with
  | [] => [rev acc]
  | b :: s' => if u8 b =? 44 then rev acc :: split_commas [] s' else split_commas (b :: acc) s'
  end.

(** [s.parse::<i32>()]: the type of [count] is inferred from its literal. *)
Definition parse_i32 (s : str) : option Z :=
  match s with
  | b :: s' =>
      if u8 b =? 45 then
        match s' with
        | [] => None
        | _ :: _ =>
            match digits_value 0 s' with
            | Some z => if z <=? 2 ^ 31 then Some (- z) else None
            | None => None
            end
        end
      else parse_uint 31 s
  | [] => None
  end.

Record EngArgs := mkEngArgs { ea_count : Z; ea_value_size : Z; ea_engines : str }.

(** A flag at the end of the line panics: the next argument is indexed. *)
Fixpoint eng_args (a : EngArgs) (args : list str) : result EngArgs :=
  match args with
  | [] => Ok a
  | arg :: rest =>
      if decide (arg = bs "--count") then
        match rest with
        | [] => Panic
        | v :: rest' => eng_args (mkEngArgs (default 10000 (parse_i32 v)) (ea_value_size a) (ea_engines a)) rest'
        end
      else if decide (arg = bs "--value-size") then
        match rest with
        | [] => Panic
        | v :: rest' => eng_args (mkEngArgs (ea_count a) (default 100 (parse_uint 64 v)) (ea_engines a)) rest'
        end
      else if decide (arg = bs "--engines") then
        match rest with
        | [] => Panic
        | v :: rest' => eng_args (mkEngArgs (ea_count a) (ea_value_size a) v) rest'
        end
      else eng_args a rest
  end.

Definition engbench_args (args : list str) : result (EngArgs * list str) :=
  let? a := eng_args (mkEngArgs 10000 100 (bs "lsm,kv,sled")) (drop 1 args) in
  Ok (a, map trim (split_commas [] (ea_engines a))).

(** ** The run *)

(** What is printed for an engine of the list. *)
Inductive EngLine :=
  | Reported (name : str) (w r : EngReport)
  | CreateFailed (name : str) (e : ErrorKind)
  | UnknownEngine (name : str).

Section EngMain.
Context `{CK : Clock} `{NS : Nanos} `{SO : SetOrder} `{HO : HashOrder} `{IN : Instants}.
(** sled: what opening a database gives, and its operations. *)
Context {D : Type} (sled_open : result D) (sled_insert : bytes -> bytes -> ST D (option bytes))
  (sled_get : bytes -> ST D (option bytes)).

(** The directory of the engine, and the instants read. *)
Definition MainState : Type := World * nat.

(** An engine that was made, run through both phases, and its directory
    removed. *)
Definition bench_created {E} `{BE : BenchEngine E} (name : str) (made : result E) (world_of : E -> World)
    (keys values : list bytes) : ST MainState EngLine := fun s =>
  match made with
  | Ok e =>
      let '((e', n), r) := benchmark_engine keys values (e, s.2) in
      ((mkWorld ∅ ∅ (ticks (world_of e')), n), let? wr := r in Ok (Reported name wr.1 wr.2))
  | Err e => (s, Ok (CreateFailed name e))
  | Panic => (s, Panic)
  end.

Definition engine_run (mkdir : result unit) (keys values : list bytes) (name : str) : ST MainState EngLine :=
  fun s =>
  if decide (name = bs "lsm") then
    let '(w, r) := create_lsm_engine mkdir s.1 in
    bench_created (bs "rustikv-lsm") (let? e := r in Ok (e, w)) snd keys values (w, s.2)
  else if decide (name = bs "kv") then
    let '(w, r) := create_kv_engine mkdir s.1 in
    bench_created (bs "rustikv-kv") (let? e := r in Ok (mkKvState e w)) world keys values (w, s.2)
  else if decide (name = bs "sled") then
    bench_created (BE := sled_adapter sled_insert sled_get) (bs "sled")
      (let? _ := mkdir in sled_open) (fun _ => s.1) keys values s
  else (s, Ok (UnknownEngine name)).

Fixpoint engines_run (mkdir : result unit) (keys values : list bytes) (names : list str)
    : ST MainState (list EngLine) :=
  match names with
  | [] => st_ret []
  | name :: names' =>
      let* l := engine_run mkdir keys values name in
      let* ls := engines_run mkdir keys values names' in
      st_ret (l :: ls)
  end.

(** [main] after the temporary directory has been made. *)
Definition engbench_main (mkdir : result unit) (args : list str) : ST MainState (list EngLine) :=
  let* a := st_lift (engbench_args args) in
  let keys := bench_keys (ea_count a.1) in
  let values := [fill 120 (ea_value_size a.1)] in
  engines_run mkdir keys values a.2.
End EngMain.

(** ** The comparison with Redis *)

Module Redis.
Record Phase := mkRedisPhase { ph_count : Z; ph_elapsed : Z; ph_latencies : list Z }.

Record Stats := mkRedisStats { rs_throughput : spec_float; rs_min : Z; rs_mean : Z; rs_p99 : Z; rs_max : Z }.

Definition compute_stats (r : Phase) : result Stats :=
  let l := sorted (ph_latencies r) in
  let count := len (ph_latencies r) in
  let throughput :=
    if f_gt (as_secs_f64 (ph_elapsed r)) f64_zero
    then f64_div (as_f64 count) (as_secs_f64 (ph_elapsed r)) else f64_zero in
  let? mean := (if 0 <? count then
                  let? total := duration_sum 0 (ph_latencies r) in duration_div total (wrap32 count)
                else Ok 0) in
  Ok (mkRedisStats throughput (default 0 (head l)) mean (Eng.get_or_zero l (Eng.p99_index count))
        (default 0 (last l))).

(** [print_phase]: the server, the phase, and the values shown. *)
Inductive Title := TWrite | TRead.
Record Printed := mkRedisPrinted {
  pr_server : str;
  pr_phase : Title;
  pr_ops : Z;
  pr_total : Z;
  pr_stats : Stats;
}.

Definition print_phase (server : str) (phase : Title) (r : Phase) : result Printed :=
  let? stats := compute_stats r in
  Ok (mkRedisPrinted server phase (ph_count r) (ph_elapsed r) stats).

(** The four kinds of answer, as a boolean. *)
Definition outcome (res : DecodedResponse) : result bool :=
  match resp_status res with
  | StOk | StNoop => Ok true
  | StNotFound => Ok false
  | StError => Err Other
  end.

Definition read_outcome : Reader bool :=
  let! len_buf := read_exact 4 in
  let! payload := read_exact (from_be len_buf) in
  rd_lift (let? res := decode_response_frame (len_buf ++ payload) in outcome res).

(** The requests to a server, whichever it is. *)
Class Target (T : Type) := {
  tg_name : str;
  tg_open : ST T unit;
  tg_write : str -> str -> ST T unit;
  tg_read : str -> ST T bool;
}.

(** The BFFP adapter: the state of the connection is that of [Kvbench]. *)
Section Rustikv.
Context {St : Type} `{PE : Peer St}.

Definition RkvState : Type := BenchState St * Z.

Definition rustikv_send_command (cmd : Command) : ST RkvState bool := fun s =>
  match encode_command cmd with
  | Ok frame =>
      let st := s.1 in
      let '(p, r) := answer s.2 frame (peer_state st) in
      let received := default [] (inbox st !! s.2) ++ match r with Ok reply => reply | _ => [] end in
      match read_outcome received with
      | Ok (o, rest) => ((mkBench p (<[s.2 := rest]> (inbox st)) (instants_read st), s.2), Ok o)
      | Err e => ((mkBench p (<[s.2 := received]> (inbox st)) (instants_read st), s.2), Err e)
      | Panic => ((mkBench p (<[s.2 := received]> (inbox st)) (instants_read st), s.2), Panic)
      end
  | Err e => (s, Err e)
  | Panic => (s, Panic)
  end.

Definition rustikv_write (key value : str) : ST RkvState unit :=
  let* _ := rustikv_send_command (CWrite key value None) in st_ret tt.

Definition rustikv_read (key : str) : ST RkvState bool := rustikv_send_command (CRead key).

#[export] Instance rustikv_target : Target RkvState := {
  tg_name := bs "rustikv";
  tg_open := fun s =>
    let '(p, r) := connect (peer_state s.1) in
    let st := mkBench p (inbox s.1) (instants_read s.1) in
    match r with
    | Ok c => ((st, c), Ok tt)
    | Err e => ((st, s.2), Err e)
    | Panic => ((st, s.2), Panic)
    end;
  tg_write := rustikv_write;
  tg_read := rustikv_read;
}.
End Rustikv.

(** The Redis adapter, given what the client library does: a SET that fails
    panics ([unwrap]), a GET that fails is an error. *)
Definition redis_target {R} (open : ST R unit) (set : str -> str -> ST R unit) (get : str -> ST R (option str))
    : Target R := {|
  tg_name := bs "redis";
  tg_open := open;
  tg_write key value := fun s =>
    let '(s', r) := set key value s in (s', match r with Ok _ => Ok tt | _ => Panic end);
  tg_read key := let* r := get key in st_ret (match r with Some _ => true | None => false end);
|}.

(** [benchmark_rustikv] and [benchmark_redis] are the same program on the two
    targets. *)
Section Benchmark.
Context {T : Type} `{TG : Target T} `{IN : Instants}.

Definition TState : Type := T * nat.
Definition t_now : ST TState Z := fun s => ((s.1, S s.2), Ok (instant s.2)).
Definition on_target {A} (m : ST T A) : ST TState A := fun s => let '(t, r) := m s.1 in ((t, s.2), r).

Fixpoint timed_all {A} (op : str -> ST T A) (keys : list str) : ST TState (list Z) :=
  match keys with
  | [] => st_ret []
  | key :: keys' =>
      let* t := t_now in
      let* _ := on_target (op key) in
      let* t' := t_now in
      let* rest := timed_all op keys' in
      st_ret (Z.max 0 (t' - t) :: rest)
  end.

Definition run {A} (count : Z) (title : Title) (op : str -> ST T A) (keys : list str) : ST TState Printed :=
  let* start := t_now in
  let* latencies := timed_all op keys in
  let* stop := t_now in
  st_lift (print_phase tg_name title (mkRedisPhase count (Z.max 0 (stop - start)) latencies)).

Definition benchmark (count value_size : Z) : ST TState (Printed * Printed) :=
  let* _ := on_target tg_open in
  let value := fill 120 value_size in
  let keys := bench_keys count in
  let* w := run count TWrite (fun k => tg_write k value) keys in
  let* r := run count TRead tg_read keys in
  st_ret (w, r).
End Benchmark.

(** ** Arguments *)

Record Args := mkRedisArgs {
  ra_rustikv : str;
  ra_redis : str;
  ra_count : Z;
  ra_value_size : Z;
  ra_engines : str;
}.

Inductive RFlag := RfRustikv | RfRedis | RfCount | RfValueSize | RfEngines.

Definition redis_flags : list (str * RFlag) :=
  [(bs "--rustikv-host", RfRustikv); (bs "--redis-host", RfRedis); (bs "--count", RfCount);
   (bs "--value-size", RfValueSize); (bs "--engines", RfEngines)].

Fixpoint find_rflag (arg : str) (l : list (str * RFlag)) : option RFlag :=
  match l with
  | [] => None
  | (n, f) :: l' => if decide (arg = n) then Some f else find_rflag arg l'
  end.

Definition apply_rflag (a : Args) (f : RFlag) (v : str) : Args :=
  let 'mkRedisArgs h1 h2 n vs es := a in
  match f with
  | RfRustikv => mkRedisArgs v h2 n vs es
  | RfRedis => mkRedisArgs h1 v n vs es
  | RfCount => mkRedisArgs h1 h2 (default 10000 (parse_uint 64 v)) vs es
  | RfValueSize => mkRedisArgs h1 h2 n (default 100 (parse_uint 64 v)) es
  | RfEngines => mkRedisArgs h1 h2 n vs v
  end.

Fixpoint redis_args (a : Args) (args : list str) : result Args :=
  match args with
  | [] => Ok a
  | arg :: rest =>
      match find_rflag arg redis_flags with
      | None => redis_args a rest
      | Some f =>
          match rest with
          | [] => Panic
          | v :: rest' => redis_args (apply_rflag a f v) rest'
          end
      end
  end.

Definition default_args : Args :=
  mkRedisArgs (bs "127.0.0.1:6666") (bs "127.0.0.1:6379") 10000 100 (bs "rustikv,redis").

(** What [main] prints for each name of the list; an error of a benchmark is
    reported and the next one runs. *)
Inductive RLine :=
  | Done (w r : Printed)
  | BenchFailed (name : str) (e : ErrorKind)
  | UnknownName (name : str).

Section Main.
Context {A B : Type} `{TA : Target A} `{TB : Target B} `{IN : Instants}.

(** Both targets, and the instants read. *)
Definition BothState : Type := (A * B) * nat.

Definition report_run (name : str) (r : result (Printed * Printed)) : result RLine :=
  match r with
  | Ok p => Ok (Done p.1 p.2)
  | Err e => Ok (BenchFailed name e)
  | Panic => Panic
  end.

Definition name_run (count value_size : Z) (name : str) : ST BothState RLine := fun s =>
  let '((a, b), n) := s in
  if decide (name = bs "rustikv") then
    let '((a', n'), r) := benchmark count value_size (a, n) in (((a', b), n'), report_run name r)
  else if decide (name = bs "redis") then
    let '((b', n'), r) := benchmark count value_size (b, n) in (((a, b'), n'), report_run name r)
  else (s, Ok (UnknownName name)).

Fixpoint names_run (count value_size : Z) (names : list str) : ST BothState (list RLine) :=
  match names with
  | [] => st_ret []
  | name :: names' =>
      let* l := name_run count value_size name in
      let* ls := names_run count value_size names' in
      st_ret (l :: ls)
  end.

Definition redis_main (args : list str) : ST BothState (list RLine) :=
  let* a := st_lift (redis_args default_args (drop 1 args)) in
  names_run (ra_count a) (ra_value_size a) (map trim (split_commas [] (ra_engines a))).
End Main.
End Redis.

(** ** The LZ77 benchmark *)

Module Lz77Bench.
Record Row := mkRow {
  label : str;
  original : Z;
  compressed_size : Z;
  ratio : spec_float;
  elapsed_ms : Z;
  mb_per_s : spec_float;
}.

Section Rows.
Context `{IN : Instants}.

(** [bench]: the compression between two readings of the clock, then the check
    that the data come back. *)
Definition bench (name : str) (data : bytes) : ST nat Row := fun n =>
  let start := instant n in
  match encode data with
  | Ok compressed =>
      let d := Z.max 0 (instant (S n) - start) in
      let row := mkRow name (len data) (len compressed)
        (f64_div (as_f64 (len compressed)) (as_f64 (len data))) (d / 10 ^ 6)
        (f64_div (f64_div (as_f64 (len data)) (as_secs_f64 d)) (as_f64 (1024 * 1024))) in
      (S (S n), let? back := decode compressed in if decide (back = data) then Ok row else Panic)
  | Err e => (S n, Err e)
  | Panic => (S n, Panic)
  end.

(** The linear congruential generator. *)
Definition lcg (state : Z) : Z :=
  wrap64 (wrap64 (state * 6364136223846793005) + 1442695040888963407).

Fixpoint lcg_bytes (n : nat) (state : Z) : bytes :=
  match n with
  | O => []
  | S n' => let s := lcg state in as_u8 (Z.shiftr s 56) :: lcg_bytes n' s
  end.

Definition repeat_str (n : nat) (s : bytes) : bytes := concat (replicate n s).

Definition lorem : str :=
  bs "Lorem ipsum dolor sit amet, consectetur adipiscing elit. " ++
  bs "Sed do eiusmod tempor incididunt ut labore et dolore magna aliqua. " ++
  bs "Ut enim ad minim veniam, quis nostrud exercitation ullamco laboris. " ++
  bs "Nisi ut aliquip ex ea commodo consequat. Duis aute irure dolor in " ++
  bs "reprehenderit in voluptate velit esse cillum dolore eu fugiat nulla " ++
  bs "pariatur. Excepteur sint occaecat cupidatat non proident, sunt in " ++
  bs "culpa qui officia deserunt mollit anim id est laborum. ".

Definition counting : list Z := seqZ 0 128.

(** The data sets, made one at a time. *)
Definition data_sets : list (str * (unit -> bytes)) :=
  [(bs "Uniform (10 KB, all 'a')", fun _ => replicate (Z.to_nat 10000) (as_u8 97));
   (bs "Repetitive text (6 KB, 'hello world' x500)", fun _ => repeat_str 500 (bs "hello world "));
   (bs "Mixed (unique+repetitive+unique)", fun _ =>
      map as_u8 counting ++ repeat_str (Z.to_nat 1000) (bs "pattern") ++ map as_u8 (rev counting));
   (bs "Natural text (Lorem ipsum ~600 KB)", fun _ => repeat_str (Z.to_nat 1500) lorem);
   (bs "Binary alternating (100 KB, 0xFF/0x00)", fun _ =>
      map (fun i => as_u8 (if i mod 2 =? 0 then 0xFF else 0)) (seqZ 0 102400));
   (bs "Random (100 KB, LCG pseudo-random)", fun _ => lcg_bytes (Z.to_nat 102400) 0xDEADBEEFCAFEBABE);
   (bs "Perf: 1 MB uniform bytes", fun _ => replicate (Z.to_nat 1048576) (as_u8 120));
   (bs "Perf: 10 MB repetitive text", fun _ =>
      let rep := repeat_str (Z.to_nat 500000) (bs "the quick brown fox ") in
      take (Nat.min (Z.to_nat 10485760) (length rep)) rep);
   (bs "Perf: 1 MB random data", fun _ => lcg_bytes (Z.to_nat 1048576) 0x123456789ABCDEF0)].

Fixpoint bench_all (l : list (str * (unit -> bytes))) : ST nat (list Row) :=
  match l with
  | [] => st_ret []
  | (name, data) :: l' =>
      let* r := bench name (data tt) in
      let* rs := bench_all l' in
      st_ret (r :: rs)
  end.

Definition lz77bench_main : ST nat (list Row) := bench_all data_sets.

(** ** Theorems *)

Lemma bench_run name data n :
  exists row, bench name data n = (S (S n), Ok row) /\ label row = name.
Proof.
  destruct (encode_decode data) as (e & Ee & Ed & Hl). unfold bench. rewrite Ee, Ed. cbn [rbind].
  rewrite decide_True by done. by eexists.
Qed.

Lemma bench_all_run l : forall n, exists rows n', bench_all l n = (n', Ok rows) /\ map label rows = l.*1.
Proof.
  induction l as [|[name data] l IH]; intros n; cbn [bench_all]; [by eexists _, _|].
  destruct (bench_run name (data tt) n) as (row & E & Hrow). rewrite (st_bind_Ok _ _ _ _ _ E).
  destruct (IH (S (S n))) as (rows & n' & E' & Hl). rewrite (st_bind_Ok _ _ _ _ _ E').
  eexists _, _. split; [reflexivity|]. cbn. rewrite Hl. f_equal. apply Hrow.
Qed.

(** The LZ77 benchmark never fails. Whatever data are benchmarked, the check
    after the compression passes, so that each data set of [main] gives its
    row, in order. *)
Theorem lz77bench_completes l n :
  exists rows n', bench_all l n = (n', Ok rows) /\ map label rows = l.*1.
Proof. apply bench_all_run. Qed.
End Rows.
End Lz77Bench.

(** ** The two clients of the protocol agree *)

Section SameClient.
Context {St : Type} `{PE : Peer St}.

Definition as_bool (r : SendResult) : bool := match r with Hit => true | Miss => false end.

Lemma read_outcome_agrees l :
  Redis.read_outcome l = let? p := read_outcome l in Ok (as_bool p.1, p.2).
Proof.
  unfold Redis.read_outcome, read_outcome, rd_bind.
  destruct (read_exact 4 l) as [[b k]| |]; cbn [rbind fst snd]; try done.
  destruct (read_exact (from_be b) k) as [[pl k']| |]; cbn [rbind fst snd]; try done.
  unfold rd_lift. destruct (decode_response_frame (b ++ pl)) as [res| |]; cbn [rbind fst snd]; try done.
  unfold Redis.outcome, outcome. by destruct (resp_status res).
Qed.

(** The client of the comparison with Redis is the client of the load
    generator. On any connection and for any command the two send the same
    bytes, consume the same bytes of the answer, and agree on the outcome: true
    for a hit, false for a miss, and the same errors. *)
Theorem redis_client_agrees cmd (st : BenchState St) c :
  Redis.rustikv_send_command cmd (st, c)
  = let '(st', r) := send_command c cmd st in ((st', c), let? o := r in Ok (as_bool o)).
Proof.
  unfold Redis.rustikv_send_command, send_command, st_bind, st_lift. cbn [fst snd].
  destruct (encode_command cmd) as [frame|e|]; try done. unfold exchange.
  destruct (answer c frame (peer_state st)) as [p r]. rewrite read_outcome_agrees.
  by destruct (read_outcome _) as [[o rest]|e|].
Qed.
End SameClient.

(** ** The in-process benchmark on a store *)

(** [Instant::now] does not go back, and a run takes less than 2^63
    nanoseconds. *)
Class GoodInstants `{Instants} : Prop := {
  instants_mono i : instant i <= instant (S i);
  instants_range i : 0 <= instant i < 2 ^ 63;
}.

Section OnStore.
Context (N : nat) {S : Type} `{SE : StorageEngine S} `{HW : HasWorld S} `{TK : Ticking S} `{CK : Clock}
  `{ST0 : !Store N S} `{IN : Instants} `{GI : !GoodInstants}.
(** [set] is [set_with_ttl] without an expiry. *)
Context (set_plain : forall k v, e_set k v = e_set_with_ttl k v None).

#[local] Instance ticking_eng : Ticking (EngState S) := fun s => ticks_of s.1.

#[local] Instance mono_eng_now : Mono (St := EngState S) eng_now.
Proof. intros s. apply le_n. Qed.
#[local] Instance mono_on_engine {A} (c : ST S A) : Mono c -> Mono (on_engine c).
Proof. intros Hc s. unfold on_engine. specialize (Hc s.1). by destruct (c s.1). Qed.
#[local] Instance mono_be_write k v : Mono (be_write k v).
Proof. cbn. rewrite set_plain. apply _. Qed.
#[local] Instance mono_be_read k : Mono (be_read k).
Proof. cbn. apply _. Qed.
#[local] Instance mono_phase_loop w values i keys : Mono (phase_loop w values i keys).
Proof. revert i. induction keys; intros i; cbn; solve_mono. Qed.

Lemma instants_le i j : (i <= j)%nat -> instant i <= instant j.
Proof. induction 1 as [|j _ IH]; [done|]. pose proof (instants_mono j). lia. Qed.

(** What a phase leaves of the map: written keys hold the value. *)
Definition stored (m : kvmap) (v : str) (keys : list str) : Prop := forall k, k ∈ keys -> m !! k = Some (v, None).

(** The durations of a phase, and the time it took. *)
Definition measured (n n' : nat) (ds : list Z) : Prop :=
  Forall (fun d => 0 <= d) ds /\ (n <= n')%nat /\ foldr Z.add 0 ds <= instant n' - instant n.

Lemma measured_cons n n' d ds :
  measured (Datatypes.S (Datatypes.S n)) n' ds -> d = instant (Datatypes.S n) - instant n -> measured n n' (Z.max 0 d :: ds).
Proof.
  intros (H1 & H2 & H3) ->. pose proof (instants_mono n). pose proof (instants_mono (Datatypes.S n)).
  split_and!; [constructor; [lia | done] | lia |]. cbn. lia.
Qed.

Lemma be_write_plain k v : utf8_valid k = true -> utf8_valid v = true -> be_write k v = e_set_with_ttl k v None.
Proof. intros. cbn [be_write engine_adapter]. by rewrite set_plain, !from_utf8_lossy_valid by done. Qed.

Lemma write_loop_run v keys : forall i (e : S) n m,
  store_inv e m -> (forall k, k ∈ keys -> kv_ok k v None) ->
  (ticks_of (phase_loop true [v] i keys (e, n)).1 <= N)%nat ->
  exists e' n' ds m', phase_loop true [v] i keys (e, n) = ((e', n'), Ok ds) /\ store_inv e' m' /\
    stored m' v keys /\ (forall k, m !! k = Some (v, None) -> m' !! k = Some (v, None)) /\
    length ds = length keys /\ measured n n' ds.
Proof.
  induction keys as [|k keys IH]; intros i e n m Hi Hk Ht; cbn [phase_loop] in *.
  { exists e, n, [], m. split_and!; try done. { by intros ? ?%not_elem_of_nil. }
    split_and!; [constructor | lia | cbn; lia]. }
  pose proof (Hk k ltac:(left)) as Hkv. pose proof Hkv as [_ _ Hu Huv _].
  erewrite (st_bind_Ok eng_now) in Ht |- * by reflexivity. cbn [fst snd] in Ht |- *.
  change (len [v] =? 0) with false in Ht |- *. cbn iota in Ht |- *.
  assert (Ei : index [v] (i mod len [v]) = Ok v) by (change (len [v]) with 1; by rewrite Z.mod_1_r).
  rewrite Ei in Ht |- *.
  destruct (store_set e m k v None Hi Hkv) as (e1 & E1 & Hi1).
  { etrans; [|exact Ht]. etrans; [|apply bind_ticks_le; solve_mono].
    unfold st_bind, st_lift, on_engine. cbn [fst snd]. rewrite be_write_plain by done.
    by destruct (e_set_with_ttl k v None e). }
  assert (E1' : (let* value := st_lift (Ok v) in on_engine (be_write k value)) (e, Datatypes.S n)
                = ((e1, Datatypes.S n), Ok tt)).
  { unfold st_bind, st_lift, on_engine. cbn [fst snd]. by rewrite be_write_plain, E1 by done. }
  rewrite (st_bind_Ok _ _ _ _ _ E1') in Ht |- *.
  erewrite (st_bind_Ok eng_now) in Ht |- * by reflexivity. cbn [fst snd] in Ht |- *.
  destruct (IH (i + 1) e1 (Datatypes.S (Datatypes.S n)) _ Hi1) as (e2 & n2 & ds & m2 & E2 & Hi2 & Hs & Hm & Hl & Hd).
  { intros. apply Hk. by right. } { etrans; [|exact Ht]. apply bind_ticks_le. solve_mono. }
  rewrite (st_bind_Ok _ _ _ _ _ E2). exists e2, n2. eexists _, m2. split; [reflexivity|]. split_and!.
  - done.
  - intros k' [->|Hk']%elem_of_cons; [apply Hm, lookup_insert_eq | by apply Hs].
  - intros k' Hk'. apply Hm. destruct (decide (k' = k)) as [->|]; [apply lookup_insert_eq|].
    by rewrite lookup_insert_ne.
  - cbn. by rewrite Hl.
  - by eapply measured_cons.
Qed.
Lemma read_loop_run values keys : forall i (e : S) n m,
  store_inv e m -> (forall k, k ∈ keys -> utf8_valid k = true) ->
  (ticks_of (phase_loop false values i keys (e, n)).1 <= N)%nat ->
  exists e' n' ds, phase_loop false values i keys (e, n) = ((e', n'), Ok ds) /\ store_inv e' m /\
    length ds = length keys /\ measured n n' ds.
Proof.
  induction keys as [|k keys IH]; intros i e n m Hi Hk Ht; cbn [phase_loop] in *.
  { exists e, n, []. split_and!; try done. split_and!; [constructor | lia | cbn; lia]. }
  pose proof (Hk k ltac:(left)) as Hu.
  erewrite (st_bind_Ok eng_now) in Ht |- * by reflexivity. cbn [fst snd] in Ht |- *. cbn iota in Ht |- *.
  destruct (store_get e m k Hi) as (e1 & j & E1 & Hi1 & _).
  { etrans; [|exact Ht]. etrans; [|apply bind_ticks_le; solve_mono].
    unfold st_bind at 1, on_engine. cbn [fst snd be_read engine_adapter]. rewrite from_utf8_lossy_valid by done.
    unfold st_bind. by destruct (e_get k e) as [? [[]| |]]. }
  assert (E1' : (let* _ := on_engine (be_read k) in st_ret tt) (e, Datatypes.S n) = ((e1, Datatypes.S n), Ok tt)).
  { unfold st_bind at 1, on_engine. cbn [fst snd be_read engine_adapter]. rewrite from_utf8_lossy_valid by done.
    unfold st_bind. by rewrite E1. }
  rewrite (st_bind_Ok _ _ _ _ _ E1') in Ht |- *.
  erewrite (st_bind_Ok eng_now) in Ht |- * by reflexivity. cbn [fst snd] in Ht |- *.
  destruct (IH (i + 1) e1 (Datatypes.S (Datatypes.S n)) m Hi1) as (e2 & n2 & ds & E2 & Hi2 & Hl & Hd).
  { intros. apply Hk. by right. } { etrans; [|exact Ht]. apply bind_ticks_le. solve_mono. }
  rewrite (st_bind_Ok _ _ _ _ _ E2). exists e2, n2. eexists. split; [reflexivity|]. split_and!.
  - done.
  - cbn. by rewrite Hl.
  - by eapply measured_cons.
Qed.

(** The statistics of a measured phase can be computed. *)
Lemma from_durations_run n n' ds wall : measured n n' ds -> exists st, Eng.from_durations ds wall = Ok st.
Proof.
  intros (H1 & H2 & H3). unfold Eng.from_durations.
  pose proof (instants_range n). pose proof (instants_range n').
  destruct (0 <? len ds); [|by eexists]. rewrite duration_sum_run; [by eexists | lia | done | lia].
Qed.

(** One phase, given what its loop does. *)
Lemma run_phase_run w values keys (e e' : S) n n' ds :
  phase_loop w values 0 keys (e, Datatypes.S n) = ((e', n'), Ok ds) -> measured (Datatypes.S n) n' ds ->
  exists st, run_phase keys values w (e, n) = ((e', Datatypes.S n'), Ok st).
Proof.
  intros E Hm. unfold run_phase. erewrite (st_bind_Ok eng_now) by reflexivity. cbn [fst snd].
  rewrite (st_bind_Ok _ _ _ _ _ E). erewrite (st_bind_Ok eng_now) by reflexivity. cbn [fst snd].
  unfold st_lift. destruct (from_durations_run _ _ _ (Z.max 0 (instant n' - instant n)) Hm) as [st Hst].
  exists st. by rewrite Hst.
Qed.

#[local] Instance mono_run_phase keys values w : Mono (run_phase keys values w).
Proof. unfold run_phase. solve_mono. Qed.

Lemma loop_within keys values w (e : S) n :
  (ticks_of (phase_loop w values 0 keys (e, Datatypes.S n)).1 <= ticks_of (run_phase keys values w (e, n)).1)%nat.
Proof.
  unfold run_phase. erewrite (st_bind_Ok eng_now) by reflexivity. cbn [fst snd].
  apply bind_ticks_le. solve_mono.
Qed.

Lemma benchmark_engine_run v keys (e : S) n m :
  store_inv e m -> (forall k, k ∈ keys -> kv_ok k v None) ->
  (ticks_of (benchmark_engine keys [v] (e, n)).1 <= N)%nat ->
  exists e' n' w r m', benchmark_engine keys [v] (e, n) = ((e', n'), Ok (w, r)) /\ store_inv e' m' /\
    stored m' v keys /\ er_ops w = len keys /\ er_ops r = len keys.
Proof.
  intros Hi Hk Ht. unfold benchmark_engine in *.
  destruct (write_loop_run v keys 0 e (Datatypes.S n) m Hi Hk) as (e1 & n1 & ds1 & m1 & E1 & Hi1 & Hs1 & _ & _ & Hd1).
  { etrans; [apply loop_within|]. etrans; [|exact Ht]. apply bind_ticks_le. solve_mono. }
  destruct (run_phase_run _ _ _ _ _ _ _ _ E1 Hd1) as [st1 E1'].
  rewrite (st_bind_Ok _ _ _ _ _ E1') in Ht |- *.
  destruct (read_loop_run [v] keys 0 e1 (Datatypes.S (Datatypes.S n1)) m1 Hi1) as (e2 & n2 & ds2 & E2 & Hi2 & _ & Hd2).
  { intros k Hk'. by destruct (Hk k Hk'). }
  { etrans; [apply loop_within|]. etrans; [|exact Ht]. apply bind_ticks_le. solve_mono. }
  destruct (run_phase_run _ _ _ _ _ _ _ _ E2 Hd2) as [st2 E2'].
  rewrite (st_bind_Ok _ _ _ _ _ E2'). eexists _, _, _, _, m1. split; [reflexivity|]. by split_and!.
Qed.
End OnStore.

(** ** The benchmark of the hash engine *)

Section KvBenchmark.
Context `{CK : Clock} `{NS : Nanos} `{SO : SetOrder} `{HO : HashOrder} `{IN : Instants} `{GI : !GoodInstants}.
Context (N : nat) `{GC : !GoodClock N}.
Context {D : Type} (sled_open : result D) (sled_insert : bytes -> bytes -> ST D (option bytes))
  (sled_get : bytes -> ST D (option bytes)).

Lemma kv_set_plain k v : e_set (S := KvState) k v = e_set_with_ttl k v None.
Proof. reflexivity. Qed.

Lemma bench_key_value count value_size k :
  0 <= count < 2 ^ 64 -> 0 <= value_size <= MAX_VALUE_SIZE ->
  k ∈ bench_keys count -> kv_ok k (fill 120 value_size) None.
Proof.
  intros Hc Hv (i & Hi & ->)%elem_of_bench_keys. apply key_value_ok; [|lia | done].
  apply bench_key_ok. split; lia.
Qed.

(** The in-process benchmark of the hash engine completes. From any world and
    for any count and any value size a record can hold, the directory is
    recreated, the engine opens, every write and every read succeeds, and the
    line printed gives the number of operations of both phases. The clock must
    be increasing over the readings the run makes. *)
Theorem engbench_reports_kv count value_size w n :
  0 <= count < 2 ^ 64 -> 0 <= value_size <= MAX_VALUE_SIZE -> (ticks w < N)%nat ->
  let bench := engine_run sled_open sled_insert sled_get (Ok tt) (bench_keys count) [fill 120 value_size] (bs "kv") in
  (ticks (bench (w, n)).1.1 <= N)%nat ->
  exists s' wr rd, bench (w, n) = (s', Ok (Reported (bs "rustikv-kv") wr rd)) /\
    er_ops wr = count /\ er_ops rd = count.
Proof.
  intros Hc Hv Hw bench Ht.
  destruct (fresh_engine_at N (ticks w) (bs "bench") 52428800 FsNever Hw) as (w' & e & E & Hi & _).
  assert (Eb : bench (w, n) = bench_created (bs "rustikv-kv") (Ok (mkKvState e w')) world
    (bench_keys count) [fill 120 value_size] (w', n)).
  { unfold bench, engine_run. rewrite decide_False, decide_True by (done || vm_compute; discriminate).
    unfold create_kv_engine, fresh_dir, st_bind, st_lift, st_modify. cbn [fst snd]. by rewrite E. }
  rewrite Eb in Ht |- *. unfold bench_created in Ht |- *. cbn [fst snd] in Ht |- *.
  destruct (benchmark_engine_run N (ST0 := kv_store N) kv_set_plain (fill 120 value_size) (bench_keys count) (mkKvState e w') n ∅ Hi)
    as (e' & n' & wr & rd & m' & Er & _ & _ & H1 & H2).
  { intros k. by apply bench_key_value. }
  { destruct (benchmark_engine _ _ _) as [[e' n'] r]. exact Ht. }
  rewrite Er. eexists _, wr, rd. split; [reflexivity|]. by rewrite H1, H2, len_bench_keys by lia.
Qed.
End KvBenchmark.

#[local] Existing Instances example_clock sorted_order ExTime.ns Ex.so.

(** A clock of instants that stops at one microsecond, and a sled that cannot be
    opened. *)
#[local] Instance ex_instants : Instants := fun i => Z.min 1000 (Z.of_nat i).
#[local] Instance ex_instants_good : GoodInstants.
Proof. split; intros i; unfold instant, ex_instants; lia. Qed.

Definition no_sled : bytes -> ST unit (option bytes) := fun _ => st_ret None.

Lemma engbench_reports_kv_witness :
  exists s' wr rd, engine_run (Err Other) (fun _ => no_sled) no_sled
      (Ok tt) (bench_keys 3) [fill 120 5] (bs "kv") (empty_world, 0%nat)
      = (s', Ok (Reported (bs "rustikv-kv") wr rd)) /\ er_ops wr = 3 /\ er_ops rd = 3.
Proof.
  pose proof (example_clock_good 100 ltac:(lia)) as GC.
  apply (engbench_reports_kv 100 (Err Other) (fun _ => no_sled) no_sled 3 5 empty_world 0%nat);
    [lia | vm_compute; split; discriminate | cbn; lia |].
  clear. vm_compute. repeat constructor.
Defined.
